(* ===== verification/_CoqProject ===== *)
-Q . S2P
Prelude.v
Bytes.v
Time.v
Path.v
BitSet.v
AuthorityFamily.v
File.v
IpLiteral.v
Http.v
GitHub.v
Capability.v
State.v
StateInvariant.v
StateHistory.v
StateProps.v
AuthorityClaims.v
ControlFrame.v
Budget.v
ReplayGuard.v
Operation.v
Cbor.v
Grammar.v
CborProps.v
Response.v
ResponseChunk.v
ResponseProps.v
ResponseChunkProps.v
BrokerWalState.v
BrokerWal.v
BrokerWalInvariant.v
BrokerWalHistory.v
BrokerWalCodec.v
BrokerWalFrames.v
BrokerWalWriter.v
BrokerWalProps.v
BrokerWalClaims.v
BrokerWalDemo.v
DurableRecord.v
DurableRecordProps.v
Journal.v
JournalProps.v
JournalClaims.v
AuditLog.v
Kernel.v
AuditProps.v
KernelProps.v
KernelConcurrent.v
Node.v
IpPolicy.v
PublicFetch.v
PublicFetchProps.v
GitHubAdapter.v
Dispatch.v
DispatchProps.v
DispatchClaims.v
DispatchEgress.v
DispatchDemo.v
Policy.v
Order.v
Symlink.v
Namespace.v
NamespaceInvariant.v
NamespaceRename.v
NamespaceRegistry.v
NamespaceProps.v
NamespaceClaims.v
NamespaceDemo.v
Stream.v
Transport.v
BrokerClient.v
BrokerServer.v
WireProps.v
BrokerClientProps.v
BrokerServerProps.v
WireSession.v
WireDemo.v
IdentityLedger.v
IdentityLedgerProps.v
Orchestrator.v
OrchestratorProps.v
