(* ===== verification/Prelude.v ===== *)
(** * A verification library for Airlock

    Airlock runs an untrusted agent in a guest and mediates what it does.  Every
    effect needs a capability: the authority core decides and records it, CapFS
    exposes the repository as a mounted tree, and the egress broker performs the
    network effects the guest asks for over a framed control channel.  This library
    translates those parts of [src/crates] into executable definitions and proves
    what makes them correct.  Names follow the source: [CapabilityState::derive] is
    [derive], [SessionBudget::start] is [SessionBudget_start]; a Rust [Result] is
    [result], a method that mutates [self] is a function in the state and error
    monad [ST], an early return is the failing branch of that monad, a [HashMap] or
    [BTreeMap] is a [gmap], bytes and strings are lists of bytes, and a machine
    integer is an [N] whose checked, saturating or wrapping arithmetic is written
    out.  [usize] has 64 bits.

    ** The parts and the files that model them

    - [Prelude], [Bytes], [Order]: results, the monad, 64-bit arithmetic, byte
      strings, UTF-8, integers in both endiannesses, comparison of keys, weakest
      preconditions.
    - Values of the authority core ([crates/authority-core/src]): [Time] (time.rs),
      [Path] (path.rs), [BitSet], [File] (file.rs), [IpLiteral] and [Http] (http.rs),
      [GitHub] (github.rs), [Capability] (capability.rs), [AuthorityFamily] (the
      interface the three authority families share), [Policy] (policy.rs).
      [AuthorityClaims] shows that delegation attenuates and that matching agrees
      with the order on authorities.
    - Capability state (state.rs, handle.rs): [State] has one definition per method
      of [CapabilityState]; [StateInvariant], [StateHistory], [StateProps] prove the
      session invariant, that revocation and shutdown are permanent, atomicity of
      failed calls and that the authorization epoch is a sound cache key.
    - Audit (durable_audit.rs, audit.rs): [DurableRecord] and [Journal] model the
      record grammar, frames, recovery and the writer; [AuditLog] the audit trail on
      top.  [DurableRecordProps], [JournalProps], [JournalClaims], [AuditProps] show
      that reopening restores what was written, also after a torn append (the append
      that was interrupted is in the file entirely or not at all), and that recovery
      closes attempts.  A reconcile with an empty receipt or failure token is written but
      refused on reopening; the statements say so ([empty_token]).
    - The kernel (kernel.rs): [Kernel] composes state, audit and executor;
      [KernelProps] gives the contract of the audited effect on every branch;
      [KernelConcurrent] interleaves calls at the kernel's lock boundaries and proves
      that effects linearize and none follows a revocation.
    - The egress protocol ([crates/egress-protocol/src]): [ControlFrame] (frame.rs),
      [Budget] (budget.rs), [ReplayGuard] (session.rs), [Operation] (operation.rs),
      [Cbor], [Grammar] and [CborProps] (cbor.rs), [Response], [ResponseChunk],
      [ResponseProps] and [ResponseChunkProps] (response.rs).  [Grammar] derives an
      exact grammar for a monadic decoder from its parts; both codecs use it.
    - CapFS ([crates/capfs/src]): [Node] (node.rs), [Symlink], [Namespace] and
      [NamespaceRegistry] (namespace.rs), with [NamespaceInvariant],
      [NamespaceRename], [NamespaceProps], [NamespaceClaims] and [NamespaceDemo]:
      the two indexes of the tree stay consistent, every operation refines an
      abstract change of a tree of names, quarantine and object identity are
      permanent.
    - The egress broker ([crates/egress-broker/src]): [IpPolicy] (ip_policy.rs), whose
      deny list is exactly the documented table of special-purpose blocks ([special]),
      the local-use NAT64 prefix excepted ([local_nat64_is_permitted]);
      [BrokerWalState] and [BrokerWal] (durable.rs), the write-ahead log of a broker
      session, with [BrokerWalInvariant], [BrokerWalHistory], [BrokerWalCodec],
      [BrokerWalFrames], [BrokerWalWriter], [BrokerWalProps], [BrokerWalClaims] and
      [BrokerWalDemo]: reopening is exact, an operation is atomic across a crash,
      space for final records is never lost; [PublicFetch] and [PublicFetchProps]
      (public_fetch.rs), the redirect loop and its confinement; [GitHubAdapter]
      (github.rs); [Dispatch] (dispatch.rs), the dispatcher from control frame to
      response.  [DispatchProps] specifies its procedures by weakest
      preconditions over the relation between memory and log; [DispatchClaims] proves
      that an effect runs at most once, retries get the recorded answer, an effect
      that ran is recorded, and a restart is transparent, for any executor and
      adapters that obey [ExecutorLaws] and [AdapterLaws].  [DispatchEgress] shows
      that the kernel, the fetcher and the GitHub adapter obey them and that the
      composition reaches the network only as the caller's capability admits;
      [DispatchDemo] holds a concrete session.
    - The wire between guest and broker: [Stream] (byte streams with short,
      interrupted and failing reads and writes), [Transport] (transport.rs: frames,
      deadlines, listener checks, and the laws [FramedIoLaws] both transports obey),
      [BrokerClient] (client.rs of egress-protocol) and [BrokerServer] (server.rs).
      [WireProps]: reading depends only on the bytes that arrive, and a reply is read
      back exactly, single or chunked.  [BrokerClientProps]: identities and sequence
      numbers are never reused, whatever the stream does.  [BrokerServerProps]: a
      connection is one sequence of exchanges, for any dispatcher that obeys
      [DispatcherLaws]; the broker's does.  [WireSession] composes the two ends: every
      call of the guest gets the dispatcher's response.  [WireDemo]: a concrete
      connection.
    - The session orchestrator ([crates/session-orchestrator/src/lib.rs]):
      [IdentityLedger], the ledger that never issues an identity twice, in memory and
      durable, and [Orchestrator], the startup, rollback and stop of one session over
      any backends (the class [SessionBackends]).  [IdentityLedgerProps]: CRC-32
      detects every damaged byte of a record and every header torn over an intact one,
      a history of failing writes and reopenings keeps every acknowledged identity, and
      recovery succeeds; the class
      [IdentityLedgerLaws] states what a client may rely on, for both ledgers.
      [OrchestratorProps]: the contract of the orchestrator is an automaton over the
      calls its backends see ([lifecycle]), which binds every lease to the session's own
      identities and fixes the order of release: revocation is asked for first, the VM
      before the broker, the workspace only when both are gone.  Every history of starts
      and stops is a run of it, and what is held is what the active session answers for.

    ** What stands for the outside

    SHA-256 is a parameter of every definition that hashes; theorems about it assume
    at most that a digest has 32 bytes.  What the operating system decides during an
    append (ownership and identity checks, failing or torn writes) is the argument
    [AppendIo], [WalIo], [ReserveIo] or [OpenIo]; what an executor or adapter returns is an argument too.
    The iteration order of a [HashMap] is the class [HashIter], and the theorems hold
    for every order.  A commit header of the identity ledger torn over
    an intact one is proved to read as the old header, as the new one or not at all.  A
    slot that is torn again before it is repaired may hold a mixture of three headers,
    for which a CRC-32 gives no guarantee: that no such mixture passes as a header by
    accident is the explicit hypothesis [no_accident].

    ** Fuel and bounds

    Loops over files and inputs take fuel: the recovery parsers the number of bytes
    (each frame consumes at least its header and checksum), the ancestor walks the
    delegation bound, the chunk iterators the exact size they announce,
    the loops over a stream the length of its script, the redirects of a fetch 257
    (its counter is a [u8]; the bound on connections is the redirect limit, not the
    fuel).  In each case
    a theorem shows the fuel is never exhausted.  Bounds of the source (frame, chunk,
    journal and path limits) are the constants of the code.

    ** Not modelled

    Formatting of errors; file-descriptor, directory and lock handling, sockets, TLS,
    DNS and HTTP clients (I/O on external crates); FUSE and the backing store of CapFS;
    the session orchestrator's backends, the supervisor's processes, the Firecracker
    driver and the namespace, cgroup and seccomp set-up, which are sequences of
    system calls.  A panicking executor is modelled at the broker's dispatcher and
    outside the model of the namespace registry; lock poisoning is a flag of the state
    where the code tests it. *)

From stdpp Require Export prelude gmap strings pretty.
From Stdlib Require Export NArith Lia.
From Stdlib Require Import Strings.Byte.

#[export] Set Default Goal Selector "!".

(** ** Fallible computations: Rust's [Result] *)

Inductive result (E A : Type) : Type :=
  | Ok (a : A)
  | Err (e : E).
Arguments Ok {E A} a.
Arguments Err {E A} e.

#[export] Instance result_ret E : MRet (result E) := λ A a, Ok a.
#[export] Instance result_bind E : MBind (result E) := λ A B f m,
  match m with Ok a => f a | Err e => Err e end.
#[export] Instance result_fmap E : FMap (result E) := λ A B f m,
  match m with Ok a => Ok (f a) | Err e => Err e end.
#[export] Instance result_eq_dec `{EqDecision E, EqDecision A} : EqDecision (result E A).
Proof. solve_decision. Defined.

(** Rust's [Result::map_err]. *)
Definition map_err {E F A} (f : E → F) (m : result E A) : result F A :=
  match m with Ok a => Ok a | Err e => Err (f e) end.

(** Rust's [Option::ok_or]. *)
Definition ok_or {E A} (o : option A) (e : E) : result E A :=
  match o with Some a => Ok a | None => Err e end.

Definition is_ok {E A} (m : result E A) : bool :=
  match m with Ok _ => true | Err _ => false end.

(** [collect] of an iterator of results: the first error stops it. *)
Fixpoint collect {E A} (l : list (result E A)) : result E (list A) :=
  match l with
  | [] => Ok []
  | r :: l => a ← r; rest ← collect l; Ok (a :: rest)
  end.

Lemma collect_ok {E A B} (f : A → result E B) (l : list A) :
  Forall (λ a, is_ok (f a) = true) l →
  ∃ r, collect (f <$> l) = Ok r ∧ ∀ a b, a ∈ l → f a = Ok b → b ∈ r.
Proof.
  induction 1 as [|a l Ha Hl (r & Hr & Hin)].
  - exists []. split; [done|]. by intros ? ? ?%not_elem_of_nil.
  - rewrite fmap_cons. cbn [collect]. destruct (f a) as [b|] eqn:Hf; [|done].
    unfold mbind, result_bind in *. rewrite Hr. eexists. split; [done|].
    intros a' b' [->|Ha']%elem_of_cons Hb; [|right; by eapply Hin].
    rewrite Hf in Hb. injection Hb as ->. left.
Qed.

Lemma collect_Ok {E A B} (f : A → result E B) (l : list A) (r : list B) :
  collect (f <$> l) = Ok r ↔ Forall2 (λ a b, f a = Ok b) l r.
Proof.
  revert r. induction l as [|a l IH]; intros r.
  - split; [intros [= <-]; constructor|]. by intros ->%Forall2_nil_inv_l.
  - rewrite fmap_cons. cbn [collect]. unfold mbind, result_bind in *. split.
    + destruct (f a) as [b|] eqn:Hf; [|done]. destruct (collect (f <$> l)) as [k|]; [|done].
      intros [= <-]. constructor; [done|]. by apply IH.
    + intros (b & k & Hb & Hk & ->)%Forall2_cons_inv_l. by rewrite Hb, (proj2 (IH k) Hk).
Qed.

Lemma collect_Err {E A B} (f : A → result E B) (l : list A) e :
  collect (f <$> l) = Err e → ∃ a, a ∈ l ∧ f a = Err e.
Proof.
  induction l as [|a l IH]; [done|]. rewrite fmap_cons. cbn [collect]. unfold mbind, result_bind in *.
  destruct (f a) as [b|e'] eqn:Hf.
  - destruct (collect (f <$> l)) as [k|]; [done|]. intros [= ->].
    destruct (IH eq_refl) as (a' & Ha' & ?). exists a'. split; [by right|done].
  - intros [= ->]. exists a. split; [left|done].
Qed.

(** ** Methods with [&mut self] that return a [Result]

    The state survives an error: a method that mutates before failing keeps the
    mutation, as in Rust. *)

Definition ST (S E A : Type) : Type := S → result E A * S.

#[export] Instance ST_ret S E : MRet (ST S E) := λ A a s, (Ok a, s).
#[export] Instance ST_bind S E : MBind (ST S E) := λ A B f m s,
  match m s with
  | (Ok a, s') => f a s'
  | (Err e, s') => (Err e, s')
  end.

Definition st_get {S E} : ST S E S := λ s, (Ok s, s).
Definition st_gets {S E A} (f : S → A) : ST S E A := λ s, (Ok (f s), s).
Definition st_modify {S E} (f : S → S) : ST S E unit := λ s, (Ok tt, f s).
Definition st_fail {S E A} (e : E) : ST S E A := λ s, (Err e, s).

(** A fallible query of the state ([&self] method followed by [?]). *)
Definition st_query {S E A} (f : S → result E A) : ST S E A := λ s, (f s, s).

(** Running the first action of a sequence. *)
Lemma st_bind_ok {S E A B} (m : ST S E A) (k : A → ST S E B) s a s' :
  m s = (Ok a, s') → (m ≫= k) s = k a s'.
Proof. unfold mbind, ST_bind. by intros ->. Qed.

Lemma st_bind_err {S E A B} (m : ST S E A) (k : A → ST S E B) s e s' :
  m s = (Err e, s') → (m ≫= k) s = (Err e, s').
Proof. unfold mbind, ST_bind. by intros ->. Qed.

Lemma st_query_ok {S E A B} (f : S → result E A) (k : A → ST S E B) s a :
  f s = Ok a → (st_query f ≫= k) s = k a s.
Proof. unfold mbind, ST_bind, st_query. by intros ->. Qed.

Lemma st_query_err {S E A B} (f : S → result E A) (k : A → ST S E B) s e :
  f s = Err e → (st_query f ≫= k) s = (Err e, s).
Proof. unfold mbind, ST_bind, st_query. by intros ->. Qed.

(** Unfolds the state monad everywhere. *)
Ltac unfold_st :=
  unfold mbind, ST_bind, st_get, st_gets, st_query, st_modify, st_fail, mret, ST_ret in *; simpl in *.

(** ** Machine integers

    An unsigned integer is an [N]; every width-dependent operation writes its
    overflow out.  [usize] is the 64-bit word of the supported targets. *)

Definition u64_limit : N := 2 ^ 64.

Definition checked_add_u64 (a b : N) : option N :=
  if (a + b <? u64_limit)%N then Some (a + b)%N else None.

Definition checked_sub_u64 (a b : N) : option N :=
  if (b <=? a)%N then Some (a - b)%N else None.

(** ** Boolean reflection *)

(** Turns every boolean test of the context into the proposition it decides.
    The patterns are syntactic, so a named predicate is never unfolded. *)
Ltac breflect_in H :=
  match type of H with
  | context [?a && ?b = true] => rewrite (andb_true_iff a b) in H
  | context [?a && ?b = false] => rewrite (andb_false_iff a b) in H
  | context [?a || ?b = true] => rewrite (orb_true_iff a b) in H
  | context [?a || ?b = false] => rewrite (orb_false_iff a b) in H
  | context [negb ?a = true] => rewrite (negb_true_iff a) in H
  | context [negb ?a = false] => rewrite (negb_false_iff a) in H
  | context [(?a <=? ?b)%N = true] => rewrite (N.leb_le a b) in H
  | context [(?a <=? ?b)%N = false] => rewrite (N.leb_gt a b) in H
  | context [(?a <? ?b)%N = true] => rewrite (N.ltb_lt a b) in H
  | context [(?a <? ?b)%N = false] => rewrite (N.ltb_ge a b) in H
  | context [(?a =? ?b)%N = true] => rewrite (N.eqb_eq a b) in H
  | context [(?a =? ?b)%N = false] => rewrite (N.eqb_neq a b) in H
  | context [bool_decide ?P = true] => rewrite (bool_decide_eq_true P) in H
  | context [bool_decide ?P = false] => rewrite (bool_decide_eq_false P) in H
  end.

Ltac breflect_goal :=
  match goal with
  | |- context [?a && ?b = true] => rewrite (andb_true_iff a b)
  | |- context [?a && ?b = false] => rewrite (andb_false_iff a b)
  | |- context [?a || ?b = true] => rewrite (orb_true_iff a b)
  | |- context [?a || ?b = false] => rewrite (orb_false_iff a b)
  | |- context [negb ?a = true] => rewrite (negb_true_iff a)
  | |- context [negb ?a = false] => rewrite (negb_false_iff a)
  | |- context [(?a <=? ?b)%N = true] => rewrite (N.leb_le a b)
  | |- context [(?a <=? ?b)%N = false] => rewrite (N.leb_gt a b)
  | |- context [(?a <? ?b)%N = true] => rewrite (N.ltb_lt a b)
  | |- context [(?a <? ?b)%N = false] => rewrite (N.ltb_ge a b)
  | |- context [(?a =? ?b)%N = true] => rewrite (N.eqb_eq a b)
  | |- context [(?a =? ?b)%N = false] => rewrite (N.eqb_neq a b)
  | |- context [bool_decide ?P = true] => rewrite (bool_decide_eq_true P)
  | |- context [bool_decide ?P = false] => rewrite (bool_decide_eq_false P)
  end.

Ltac breflect :=
  repeat match goal with
         | H : _ |- _ => breflect_in H
         | |- _ => breflect_goal
         end;
  simplify_eq/=.

(** Splits every [match] and [if] of the context and discards the absurd branches. *)
Ltac split_matches := repeat (case_match; simplify_eq/=); try done.

Lemma checked_add_u64_Some a b c :
  checked_add_u64 a b = Some c ↔ c = (a + b)%N ∧ (c < u64_limit)%N.
Proof. unfold checked_add_u64. destruct (N.ltb_spec (a + b) u64_limit); naive_solver lia. Qed.

Lemma checked_add_u64_None a b :
  checked_add_u64 a b = None ↔ (u64_limit <= a + b)%N.
Proof. unfold checked_add_u64. destruct (N.ltb_spec (a + b) u64_limit); naive_solver lia. Qed.

Lemma checked_sub_u64_Some a b c :
  checked_sub_u64 a b = Some c ↔ c = (a - b)%N ∧ (b <= a)%N.
Proof. unfold checked_sub_u64. destruct (N.leb_spec b a); naive_solver lia. Qed.

Lemma bool_decide_refl `{EqDecision A} (a : A) : bool_decide (a = a) = true.
Proof. by apply bool_decide_eq_true. Qed.

(** ** Weakest preconditions of state-passing code

    A method with [&mut self] is specified by what holds of its result and of the state
    it leaves, on success and on failure alike. *)

(** Changes the error of an action, as [map_err] does after a call. *)
Definition st_map_err {S E F A} (f : E → F) (m : ST S E A) : ST S F A := λ s,
  let '(r, s) := m s in (map_err f r, s).

Section wp.
  Context {S E : Type}.

(** [Q] of a result, [R] of an error. *)
Definition wp {A} (m : ST S E A) (Q : A → S → Prop) (R : E → S → Prop) (s : S) : Prop :=
  match m s with (Ok a, s') => Q a s' | (Err e, s') => R e s' end.

Lemma wp_bind {A B} (m : ST S E A) (k : A → ST S E B) Q R s :
  wp m (λ a, wp (k a) Q R) R s → wp (m ≫= k) Q R s.
Proof. unfold wp, mbind, ST_bind. by destruct (m s) as [[a|e] s']. Qed.

Lemma wp_mono {A} (m : ST S E A) (Q Q' : A → S → Prop) (R R' : E → S → Prop) s :
  wp m Q R s → (∀ a s', Q a s' → Q' a s') → (∀ e s', R e s' → R' e s') → wp m Q' R' s.
Proof. unfold wp. destruct (m s) as [[a|e] s']; auto. Qed.

Lemma wp_ret {A} (a : A) (Q : A → S → Prop) R s : Q a s → wp (mret a) Q R s.
Proof. done. Qed.

Lemma wp_fail {A} e (Q : A → S → Prop) (R : E → S → Prop) s : R e s → wp (st_fail e) Q R s.
Proof. done. Qed.

Lemma wp_get (Q : S → S → Prop) R s : Q s s → wp st_get Q R s.
Proof. done. Qed.

Lemma wp_modify f (Q : unit → S → Prop) R s : Q tt (f s) → wp (st_modify f) Q R s.
Proof. done. Qed.

Lemma wp_query {A} (f : S → result E A) (Q : A → S → Prop) (R : E → S → Prop) s :
  match f s with Ok a => Q a s | Err e => R e s end → wp (st_query f) Q R s.
Proof. unfold wp, st_query. by destruct (f s). Qed.

Lemma wp_run {A} (m : ST S E A) (Q : A → S → Prop) (R : E → S → Prop) s r s' :
  m s = (r, s') → wp m Q R s → match r with Ok a => Q a s' | Err e => R e s' end.
Proof. unfold wp. intros ->. by destruct r. Qed.
End wp.

Lemma wp_map_err {S E F A} (f : E → F) (m : ST S E A) (Q : A → S → Prop) (R : F → S → Prop) s :
  wp m Q (λ e, R (f e)) s → wp (st_map_err f m) Q R s.
Proof. unfold wp, st_map_err. by destruct (m s) as [[a|e] s']. Qed.
