(* ===== verification/Bytes.v ===== *)
(** * Bytes and Rust strings

    A [&[u8]] and a [&str] are lists of bytes; a [&str] is additionally valid
    UTF-8 ([utf8_valid]).  This file models the parts of the standard library's
    [str], [char], [u8] and integer types that the crates use, with the lemmas
    the components share: [split]/[join] inversion, big-endian integers and
    UTF-8 decoding. *)

From Stdlib Require Import Strings.Byte.
From S2P Require Import Prelude.

Abbreviation byte := Init.Byte.byte.
Abbreviation str := (list Init.Byte.byte).

#[export] Instance byte_eq_dec : EqDecision byte := Byte.byte_eq_dec.
#[export] Program Instance byte_countable : Countable byte :=
  inj_countable Byte.to_N Byte.of_N _.
Next Obligation. intros b. apply Byte.of_to_N. Qed.

(** A string literal as its bytes. *)
Definition lit (s : string) : str := String.list_byte_of_string s.

(** The byte of a one-character ASCII literal. *)
Definition chr (s : string) : byte := default x00 (head (lit s)).

Definition b2N (b : byte) : N := Byte.to_N b.

(** [value as u8]: reduction modulo 256. *)
Definition N2b (n : N) : byte := default x00 (Byte.of_N (n mod 256)).

Definition len (s : str) : N := N.of_nat (length s).

(** ** Character classes *)

Definition is_ascii_byte (b : byte) : bool := (b2N b <? 128)%N.
Definition is_ascii (s : str) : bool := forallb is_ascii_byte s.

Definition in_range (lo hi : N) (n : N) : bool := (lo <=? n)%N && (n <=? hi)%N.

Definition is_ascii_digit (b : byte) : bool := in_range 48 57 (b2N b).
Definition is_ascii_upper (b : byte) : bool := in_range 65 90 (b2N b).
Definition is_ascii_lower (b : byte) : bool := in_range 97 122 (b2N b).
Definition is_ascii_alphanumeric (b : byte) : bool :=
  is_ascii_digit b || is_ascii_upper b || is_ascii_lower b.
Definition is_ascii_control (b : byte) : bool := (b2N b <? 32)%N || (b2N b =? 127)%N.

Definition to_ascii_lowercase_byte (b : byte) : byte :=
  if is_ascii_upper b then N2b (b2N b + 32) else b.
Definition to_ascii_lowercase (s : str) : str := map to_ascii_lowercase_byte s.

(** ** Searching *)

Definition contains_byte (c : byte) (s : str) : bool := existsb (λ b, bool_decide (b = c)) s.

(** [<[T]>::starts_with], on strings and on vectors of segments. *)
Definition starts_with `{EqDecision A} (s prefix : list A) : bool :=
  bool_decide (prefix `prefix_of` s).

Definition ends_with (s suffix : str) : bool := bool_decide (suffix `suffix_of` s).

(** [str::contains] with a string pattern. *)
Fixpoint contains_str (needle s : str) : bool :=
  starts_with s needle ||
  match s with [] => false | _ :: s' => contains_str needle s' end.

(** [<[T]>::strip_prefix]. *)
Fixpoint strip_prefix `{EqDecision A} (prefix s : list A) : option (list A) :=
  match prefix, s with
  | [], _ => Some s
  | a :: prefix', b :: s' => if bool_decide (a = b) then strip_prefix prefix' s' else None
  | _ :: _, [] => None
  end.

(** [str::strip_suffix] with a one-byte pattern. *)
Definition strip_suffix_byte (c : byte) (s : str) : option str :=
  match last s with
  | Some b => if bool_decide (b = c) then Some (take (length s - 1) s) else None
  | None => None
  end.

(** ** Splitting and joining *)

Fixpoint split (c : byte) (s : str) : list str :=
  match s with
  | [] => [[]]
  | b :: s' =>
      if bool_decide (b = c) then [] :: split c s'
      else match split c s' with
           | [] => [[b]]
           | w :: ws => (b :: w) :: ws
           end
  end.

Fixpoint join (c : byte) (ws : list str) : str :=
  match ws with
  | [] => []
  | [w] => w
  | w :: ws' => w ++ c :: join c ws'
  end.

Lemma split_not_nil c s : split c s ≠ [].
Proof. destruct s; simpl; [done|]. repeat case_match; done. Qed.

Lemma join_cons c w ws : ws ≠ [] → join c (w :: ws) = w ++ c :: join c ws.
Proof. by destruct ws. Qed.

Lemma join_split c s : join c (split c s) = s.
Proof.
  induction s as [|b s IH]; [done|]. simpl. case_bool_decide as Hb.
  - subst. rewrite join_cons by apply split_not_nil. by rewrite IH.
  - destruct (split c s) as [|w ws] eqn:Hs; [by destruct (split_not_nil c s)|].
    destruct ws; simpl in *; by rewrite IH.
Qed.

Lemma split_no_sep c s w : w ∈ split c s → c ∉ w.
Proof.
  revert w. induction s as [|b s IH]; intros w; simpl.
  - rewrite list_elem_of_singleton. intros ->. apply not_elem_of_nil.
  - case_bool_decide as Hb.
    + rewrite elem_of_cons. intros [-> | Hw]; [apply not_elem_of_nil|by apply IH].
    + destruct (split c s) as [|w' ws] eqn:Hs; [by destruct (split_not_nil c s)|].
      rewrite elem_of_cons. intros [-> | Hw].
      * rewrite not_elem_of_cons. split; [done|]. apply IH. left.
      * apply IH. by right.
Qed.

Lemma split_single c w : c ∉ w → split c w = [w].
Proof.
  induction w as [|b w IH]; [done|]. rewrite not_elem_of_cons. intros [Hb Hw]. simpl.
  rewrite bool_decide_eq_false_2 by done. by rewrite IH.
Qed.

Lemma split_app_sep c w s : c ∉ w → split c (w ++ c :: s) = w :: split c s.
Proof.
  induction w as [|b w IH]; simpl.
  - by rewrite bool_decide_eq_true_2.
  - rewrite not_elem_of_cons. intros [Hb Hw].
    rewrite bool_decide_eq_false_2 by done. by rewrite IH.
Qed.

Lemma split_join c ws : ws ≠ [] → Forall (λ w, c ∉ w) ws → split c (join c ws) = ws.
Proof.
  intros Hne Hall. induction Hall as [|w ws Hw Hall IH]; [done|].
  destruct (decide (ws = [])) as [-> | Hws]; [by apply split_single|].
  rewrite join_cons, split_app_sep by done. by rewrite IH.
Qed.

(** A string that ends with the separator has an empty last field. *)
Lemma split_app c s t : split c (s ++ c :: t) = split c s ++ split c t.
Proof.
  induction s as [|b s IH]; simpl; [by rewrite bool_decide_eq_true_2|].
  case_bool_decide; rewrite IH; [done|]. destruct (split c s) eqn:E; [by apply split_not_nil in E|done].
Qed.

Lemma join_app c ws vs : ws ≠ [] → vs ≠ [] → join c (ws ++ vs) = join c ws ++ c :: join c vs.
Proof.
  intros Hws Hvs. induction ws as [|w ws IH]; [done|]. destruct ws as [|w' ws'].
  - simpl app. by rewrite join_cons.
  - cbn [app]. rewrite join_cons by done. change (w' :: ws' ++ vs) with ((w' :: ws') ++ vs).
    rewrite IH, (join_cons c w (w' :: ws')) by done. by rewrite <- (assoc_L (++)).
Qed.

Lemma split_snoc_sep c s : split c (s ++ [c]) = split c s ++ [[]].
Proof.
  induction s as [|b s IH]; simpl; [by rewrite bool_decide_eq_true_2|].
  case_bool_decide; [by rewrite IH|]. rewrite IH.
  destruct (split c s) as [|w ws] eqn:Hs; [by destruct (split_not_nil c s)|]. done.
Qed.

Lemma split_trailing_sep c s : last s = Some c → [] ∈ split c s.
Proof. intros [s' ->]%last_Some. rewrite split_snoc_sep. set_solver. Qed.

Lemma contains_byte_false c s : contains_byte c s = false ↔ c ∉ s.
Proof.
  unfold contains_byte. induction s as [|b s IH]; simpl.
  - split; [intros _; apply not_elem_of_nil|done].
  - rewrite orb_false_iff, bool_decide_eq_false, IH, not_elem_of_cons. naive_solver.
Qed.

Lemma strip_prefix_Some `{EqDecision A} (prefix s rest : list A) :
  strip_prefix prefix s = Some rest ↔ s = prefix ++ rest.
Proof.
  revert s. induction prefix as [|a prefix IH]; intros [|b s]; simpl; try naive_solver.
  case_bool_decide; [rewrite IH|]; naive_solver.
Qed.

Lemma strip_suffix_byte_Some c s rest :
  strip_suffix_byte c s = Some rest ↔ s = rest ++ [c].
Proof.
  unfold strip_suffix_byte. split.
  - destruct (last s) as [b|] eqn:Hl; [|done]. case_bool_decide; [|done]. intros [= <-]. subst b.
    apply last_Some in Hl as [s' ->]. rewrite length_app. simpl.
    rewrite Nat.add_sub. by rewrite take_app_length.
  - intros ->. rewrite last_snoc, bool_decide_eq_true_2 by done.
    rewrite length_app. simpl. by rewrite Nat.add_sub, take_app_length.
Qed.

Lemma strip_suffix_byte_None c s : strip_suffix_byte c s = None ↔ last s ≠ Some c.
Proof.
  unfold strip_suffix_byte. destruct (last s) as [b|]; [|done]. case_bool_decide; naive_solver.
Qed.

(** ** Big-endian integers *)

(** [to_be_bytes] of an unsigned integer of [w] bytes. *)
Fixpoint be_bytes (w : nat) (n : N) : list byte :=
  match w with
  | O => []
  | S w' => be_bytes w' (n / 256) ++ [N2b n]
  end.

(** [from_be_bytes]. *)
Definition from_be_bytes (bs : list byte) : N :=
  foldl (λ acc b, (acc * 256 + b2N b)%N) 0%N bs.

Lemma b2N_lt b : (b2N b < 256)%N.
Proof. pose proof (Byte.to_N_bounded b). unfold b2N. lia. Qed.

Lemma b2N_inj b1 b2 : b2N b1 = b2N b2 → b1 = b2.
Proof.
  intros H. apply (inj Some). rewrite <- !Byte.of_to_N. unfold b2N in H. by rewrite H.
Qed.

Lemma b2N_N2b n : b2N (N2b n) = (n mod 256)%N.
Proof.
  unfold b2N, N2b. pose proof (N.mod_lt n 256 ltac:(done)) as Hlt.
  destruct (Byte.of_N (n mod 256)) as [b|] eqn:Hb; simpl.
  - by apply Byte.to_of_N.
  - apply Byte.of_N_None_iff in Hb. lia.
Qed.

Lemma N2b_b2N b : N2b (b2N b) = b.
Proof. apply b2N_inj. rewrite b2N_N2b. apply N.mod_small, b2N_lt. Qed.

Lemma length_be_bytes w n : length (be_bytes w n) = w.
Proof. revert n. induction w as [|w IH]; intros n; simpl; [done|]. rewrite length_app, IH. simpl. lia. Qed.

Lemma from_be_bytes_snoc bs b : from_be_bytes (bs ++ [b]) = (from_be_bytes bs * 256 + b2N b)%N.
Proof. unfold from_be_bytes. by rewrite foldl_app. Qed.

Lemma from_be_bytes_lt bs : (from_be_bytes bs < 256 ^ N.of_nat (length bs))%N.
Proof.
  induction bs as [|b bs IH] using rev_ind; [done|].
  rewrite from_be_bytes_snoc, length_app. simpl.
  replace (N.of_nat (length bs + 1)) with (N.succ (N.of_nat (length bs))) by lia.
  rewrite N.pow_succ_r'. pose proof (b2N_lt b). lia.
Qed.

Lemma from_to_be_bytes w n : (n < 256 ^ N.of_nat w)%N → from_be_bytes (be_bytes w n) = n.
Proof.
  revert n. induction w as [|w IH]; intros n Hn.
  - simpl in *. change (256 ^ 0)%N with 1%N in Hn. by replace n with 0%N by lia.
  - simpl be_bytes. rewrite from_be_bytes_snoc, b2N_N2b, IH.
    + rewrite N.mul_comm, <- N.div_mod; done.
    + replace (N.of_nat (S w)) with (N.succ (N.of_nat w)) in Hn by lia.
      rewrite N.pow_succ_r' in Hn. apply N.Div0.div_lt_upper_bound. lia.
Qed.

Lemma to_from_be_bytes bs : be_bytes (length bs) (from_be_bytes bs) = bs.
Proof.
  induction bs as [|b bs IH] using rev_ind; [done|].
  rewrite from_be_bytes_snoc, length_app. simpl. rewrite Nat.add_1_r. simpl.
  pose proof (b2N_lt b) as Hb. f_equal.
  - rewrite N.div_add_l, (N.div_small (b2N b)), N.add_0_r by lia. done.
  - f_equal. apply b2N_inj. rewrite b2N_N2b, N.add_comm, N.Div0.mod_add. by apply N.mod_small.
Qed.

Lemma be_bytes_inj w n m :
  (n < 256 ^ N.of_nat w)%N → (m < 256 ^ N.of_nat w)%N → be_bytes w n = be_bytes w m → n = m.
Proof. intros Hn Hm H. rewrite <- (from_to_be_bytes w n), <- (from_to_be_bytes w m) by done. by rewrite H. Qed.

(** ** Little-endian integers *)

(** [to_le_bytes] and [from_le_bytes]. *)
Definition le_bytes (w : nat) (n : N) : list byte := reverse (be_bytes w n).
Definition from_le_bytes (bs : list byte) : N := from_be_bytes (reverse bs).
#[global] Arguments le_bytes : simpl never.
#[global] Arguments from_le_bytes : simpl never.

Lemma length_le_bytes w n : length (le_bytes w n) = w.
Proof. unfold le_bytes. by rewrite length_reverse, length_be_bytes. Qed.

Lemma from_to_le_bytes w n : (n < 256 ^ N.of_nat w)%N → from_le_bytes (le_bytes w n) = n.
Proof. intros. unfold from_le_bytes, le_bytes. rewrite reverse_involutive. by apply from_to_be_bytes. Qed.

Lemma from_le_bytes_lt bs : (from_le_bytes bs < 256 ^ N.of_nat (length bs))%N.
Proof. unfold from_le_bytes. rewrite <- (length_reverse bs). apply from_be_bytes_lt. Qed.

(** ** UTF-8 *)

Definition is_continuation (b : byte) : bool := in_range 128 191 (b2N b).

(** The scalar values of a byte string, [None] when it is not valid UTF-8: the
    well-formed sequences of the Unicode standard's table 3-7, as accepted by
    [str::from_utf8]. *)
Fixpoint utf8_decode (s : str) : option (list N) :=
  match s with
  | [] => Some []
  | b1 :: s1 =>
      let n1 := b2N b1 in
      if (n1 <? 128)%N then cons n1 <$> utf8_decode s1
      else match s1 with
      | [] => None
      | b2 :: s2 =>
          let n2 := b2N b2 in
          if in_range 194 223 n1 then
            if is_continuation b2
            then cons ((n1 - 192) * 64 + (n2 - 128))%N <$> utf8_decode s2
            else None
          else match s2 with
          | [] => None
          | b3 :: s3 =>
              let n3 := b2N b3 in
              if in_range 224 239 n1 then
                if is_continuation b2 && is_continuation b3
                   && (negb (n1 =? 224)%N || (160 <=? n2)%N)
                   && (negb (n1 =? 237)%N || (n2 <=? 159)%N)
                then cons ((n1 - 224) * 4096 + (n2 - 128) * 64 + (n3 - 128))%N <$> utf8_decode s3
                else None
              else match s3 with
              | [] => None
              | b4 :: s4 =>
                  if in_range 240 244 n1 then
                    if is_continuation b2 && is_continuation b3 && is_continuation b4
                       && (negb (n1 =? 240)%N || (144 <=? n2)%N)
                       && (negb (n1 =? 244)%N || (n2 <=? 143)%N)
                    then cons ((n1 - 240) * 262144 + (n2 - 128) * 4096 + (n3 - 128) * 64
                               + (b2N b4 - 128))%N <$> utf8_decode s4
                    else None
                  else None
              end
          end
      end
  end.

Definition utf8_valid (s : str) : bool :=
  match utf8_decode s with Some _ => true | None => false end.

(** [str::chars]. *)
Definition chars (s : str) : list N := default [] (utf8_decode s).

(** [char::is_control]: general category Cc. *)
Definition is_control (c : N) : bool := (c <? 32)%N || in_range 127 159 c.

Lemma is_ascii_utf8_valid s : is_ascii s = true → utf8_valid s = true.
Proof.
  unfold utf8_valid. intros H.
  assert (is_Some (utf8_decode s)) as [cs ->]; [|done].
  induction s as [|b s IH]; simpl in *; [by eexists|].
  apply andb_true_iff in H as [Hb Hs]. unfold is_ascii_byte in Hb. rewrite Hb.
  destruct (IH Hs) as [cs ->]. by eexists.
Qed.

(** ** Decimal formatting: [format!("{n}")]. *)
Definition decimal (n : N) : str := lit (pretty n).

Lemma lit_inj s1 s2 : lit s1 = lit s2 → s1 = s2.
Proof.
  intros H. unfold lit in H. rewrite <- (String.string_of_list_byte_of_string s1),
    <- (String.string_of_list_byte_of_string s2). by rewrite H.
Qed.

Lemma decimal_inj n m : decimal n = decimal m → n = m.
Proof. intros H. apply (inj pretty). by apply lit_inj. Qed.


Lemma len_app s t : len (s ++ t) = (len s + len t)%N.
Proof. unfold len. rewrite length_app. lia. Qed.

(** ** Sub-slices *)

(** [bytes.get(start..end)]: [None] when the range is not inside the slice. *)
Definition get_range (bytes : str) (start finish : N) : option str :=
  if (finish <=? len bytes)%N && (start <=? finish)%N
  then Some (take (N.to_nat (finish - start)) (drop (N.to_nat start) bytes)) else None.

Lemma get_range_app pre slice rest :
  get_range (pre ++ slice ++ rest) (len pre) (len pre + len slice) = Some slice.
Proof.
  unfold get_range, len. rewrite !length_app.
  destruct (N.leb_spec (N.of_nat (length pre) + N.of_nat (length slice))
    (N.of_nat (length pre + (length slice + length rest)))) as [_|]; [|lia].
  destruct (N.leb_spec (N.of_nat (length pre)) (N.of_nat (length pre) + N.of_nat (length slice)))
    as [_|]; [|lia].
  simpl. f_equal.
  replace (N.to_nat (N.of_nat (length pre))) with (length pre) by lia.
  rewrite drop_app_length.
  replace (N.to_nat (N.of_nat (length pre) + N.of_nat (length slice) - N.of_nat (length pre)))
    with (length slice) by lia.
  by rewrite take_app_length.
Qed.

Lemma get_range_prefixed pre rest finish slice :
  get_range (pre ++ rest) (len pre) finish = Some slice ↔
  ∃ rest', rest = slice ++ rest' ∧ finish = (len pre + len slice)%N.
Proof.
  split.
  - unfold get_range, len. rewrite length_app.
    destruct (N.leb_spec finish (N.of_nat (length pre + length rest))) as [H1|]; [|done].
    destruct (N.leb_spec (N.of_nat (length pre)) finish) as [H2|]; [|done]. simpl. intros [= <-].
    replace (N.to_nat (N.of_nat (length pre))) with (length pre) by lia. rewrite drop_app_length.
    exists (drop (N.to_nat (finish - N.of_nat (length pre))) rest). rewrite take_drop, length_take. split; [done|lia].
  - intros (rest' & -> & ->). apply get_range_app.
Qed.

Lemma get_range_Some bytes start finish slice :
  get_range bytes start finish = Some slice ↔
  ∃ pre post, bytes = pre ++ slice ++ post ∧ start = len pre ∧ finish = (start + len slice)%N.
Proof.
  split.
  - unfold get_range. destruct (_ && _) eqn:Hb; [|done]. breflect. destruct Hb as [H1 H2].
    intros [= <-]. unfold len in *.
    exists (take (N.to_nat start) bytes), (drop (N.to_nat (finish - start)) (drop (N.to_nat start) bytes)).
    rewrite take_drop, take_drop. split; [done|]. rewrite !length_take, length_drop. lia.
  - intros (pre & post & -> & -> & ->). apply get_range_app.
Qed.

Lemma get_range_extend bytes more start finish slice :
  get_range bytes start finish = Some slice → get_range (bytes ++ more) start finish = Some slice.
Proof.
  rewrite !get_range_Some. intros (pre & post & -> & -> & ->). exists pre, (post ++ more).
  by rewrite <- !(assoc_L (++)).
Qed.

Lemma get_range_total bytes start finish :
  (start <= finish)%N → (finish <= len bytes)%N → ∃ slice, get_range bytes start finish = Some slice.
Proof.
  intros H1 H2. unfold get_range. destruct (N.leb_spec finish (len bytes)); [|lia].
  destruct (N.leb_spec start finish); [|lia]. simpl. eauto.
Qed.

Lemma get_range_at bytes start finish slice P Q :
  bytes = P ++ slice ++ Q → start = len P → finish = (start + len slice)%N →
  get_range bytes start finish = Some slice.
Proof. intros -> -> ->. apply get_range_app. Qed.

(** The bytes fit in memory: no offset overflows. *)
Definition addressable (bytes : str) : Prop := (len bytes < u64_limit)%N.

Lemma len_le_bytes w n : len (le_bytes w n) = N.of_nat w.
Proof. unfold len. by rewrite length_le_bytes. Qed.
