(* ===== verification/Time.v ===== *)
(** * Session-local time windows ([crates/authority-core/src/time.rs])

    A [MonotonicTime] is its [u64] tick count; a [TimeWindow] is the half-open
    interval [[not_before, expires_at)]. *)

From S2P Require Import Prelude.

Abbreviation MonotonicTime := N.

Record TimeWindow := {
  not_before : MonotonicTime;
  expires_at : MonotonicTime;
}.

Record InvalidTimeWindow := {
  invalid_not_before : MonotonicTime;
  invalid_expires_at : MonotonicTime;
}.

#[export] Instance TimeWindow_eq_dec : EqDecision TimeWindow.
Proof. solve_decision. Defined.

Definition TimeWindow_new (not_before expires_at : MonotonicTime)
    : result InvalidTimeWindow TimeWindow :=
  if (not_before <? expires_at)%N
  then Ok {| not_before := not_before; expires_at := expires_at |}
  else Err {| invalid_not_before := not_before; invalid_expires_at := expires_at |}.

Definition TimeWindow_contains (self : TimeWindow) (time : MonotonicTime) : bool :=
  (not_before self <=? time)%N && (time <? expires_at self)%N.

Definition TimeWindow_is_subset_of (self parent : TimeWindow) : bool :=
  (not_before parent <=? not_before self)%N && (expires_at self <=? expires_at parent)%N.

(** ** Properties *)

(** A window produced by the constructor: non-empty, within [u64]. *)
Definition TimeWindow_wf (w : TimeWindow) : Prop :=
  (not_before w < expires_at w)%N ∧ (expires_at w < u64_limit)%N.

Lemma TimeWindow_contains_spec w t :
  TimeWindow_contains w t = true ↔ (not_before w <= t < expires_at w)%N.
Proof. unfold TimeWindow_contains. breflect. done. Qed.

Lemma TimeWindow_subset_spec c p :
  TimeWindow_is_subset_of c p = true ↔
  (not_before p <= not_before c)%N ∧ (expires_at c <= expires_at p)%N.
Proof. unfold TimeWindow_is_subset_of. breflect. done. Qed.

Lemma TimeWindow_subset_refl w : TimeWindow_is_subset_of w w = true.
Proof. apply TimeWindow_subset_spec. lia. Qed.

Lemma TimeWindow_subset_trans a b c :
  TimeWindow_is_subset_of a b = true → TimeWindow_is_subset_of b c = true →
  TimeWindow_is_subset_of a c = true.
Proof. rewrite !TimeWindow_subset_spec. lia. Qed.

Lemma TimeWindow_subset_sound c p t :
  TimeWindow_is_subset_of c p = true → TimeWindow_contains c t = true →
  TimeWindow_contains p t = true.
Proof. rewrite TimeWindow_subset_spec, !TimeWindow_contains_spec. lia. Qed.

(** The bounds test is exact for the non-empty windows the constructor admits. *)
Lemma TimeWindow_subset_complete nb ea c p :
  TimeWindow_new nb ea = Ok c →
  (∀ t, TimeWindow_contains c t = true → TimeWindow_contains p t = true) →
  TimeWindow_is_subset_of c p = true.
Proof.
  unfold TimeWindow_new. destruct (N.ltb_spec nb ea) as [Hlt|]; [|done]. intros [= <-] H.
  apply TimeWindow_subset_spec. simpl.
  pose proof (H nb) as Hlo. pose proof (H (ea - 1)%N) as Hhi.
  rewrite !TimeWindow_contains_spec in Hlo, Hhi. simpl in *. lia.
Qed.
