(* ===== verification/Path.v ===== *)
(** * Canonical repository paths ([crates/authority-core/src/path.rs])

    A [CanonicalPath] is a vector of validated segments; [Exact] and [Prefix]
    patterns select paths at segment boundaries.  Construction, [child] and
    [rebase] enforce the segment alphabet and the 64-segment / 4096-byte bounds;
    [CanonicalPath_wf] is the resulting representation invariant. *)

From S2P Require Import Prelude Bytes.

Definition MAX_CANONICAL_PATH_BYTES : N := 4096.
Definition MAX_CANONICAL_PATH_SEGMENTS : N := 64.

Record CanonicalPath := { cp_segments : list str }.

Inductive InvalidPathSegmentReason :=
  | PathSegment_Empty
  | PathSegment_CurrentDirectory
  | PathSegment_ParentDirectory
  | PathSegment_ContainsSeparator
  | PathSegment_ContainsNul
  | PathSegment_ContainsWildcard
  | PathSegment_TooManySegments
  | PathSegment_EncodedPathTooLong.

Record InvalidPathSegment := {
  ips_index : N;
  ips_reason : InvalidPathSegmentReason;
}.

#[export] Instance CanonicalPath_eq_dec : EqDecision CanonicalPath.
Proof. solve_decision. Defined.

(** The reason a segment is refused, [None] for an accepted one. *)
Definition segment_reason (segment : str) : option InvalidPathSegmentReason :=
  if bool_decide (segment = []) then Some PathSegment_Empty
  else if bool_decide (segment = lit ".") then Some PathSegment_CurrentDirectory
  else if bool_decide (segment = lit "..") then Some PathSegment_ParentDirectory
  else if contains_byte (chr "/") segment then Some PathSegment_ContainsSeparator
  else if contains_byte Byte.x00 segment then Some PathSegment_ContainsNul
  else if contains_byte (chr "*") segment then Some PathSegment_ContainsWildcard
  else None.

Definition validate_segment (index : N) (segment : str) : result InvalidPathSegment unit :=
  match segment_reason segment with
  | Some reason => Err {| ips_index := index; ips_reason := reason |}
  | None => Ok tt
  end.

Definition CanonicalPath_root : CanonicalPath := {| cp_segments := [] |}.

(** One iteration of the constructor's loop: the checks on the segment at
    [index] and the updated [encoded_bytes]. *)
Definition admit_segment (index encoded_bytes : N) (segment : str)
    : result InvalidPathSegment N :=
  _ ← validate_segment index segment;
  if (MAX_CANONICAL_PATH_SEGMENTS <=? index)%N
  then Err {| ips_index := index; ips_reason := PathSegment_TooManySegments |}
  else
    let too_long := {| ips_index := index; ips_reason := PathSegment_EncodedPathTooLong |} in
    let separator_bytes := if (index =? 0)%N then 0%N else 1%N in
    encoded_bytes ←
      ok_or (with_separator ← checked_add_u64 encoded_bytes separator_bytes;
             checked_add_u64 with_separator (len segment)) too_long;
    if (MAX_CANONICAL_PATH_BYTES <? encoded_bytes)%N then Err too_long else Ok encoded_bytes.

Fixpoint CanonicalPath_new_loop (index encoded_bytes : N) (canonical segments : list str)
    : result InvalidPathSegment (list str) :=
  match segments with
  | [] => Ok canonical
  | segment :: rest =>
      encoded_bytes ← admit_segment index encoded_bytes segment;
      CanonicalPath_new_loop (index + 1) encoded_bytes (canonical ++ [segment]) rest
  end.

Definition CanonicalPath_new (segments : list str) : result InvalidPathSegment CanonicalPath :=
  canonical ← CanonicalPath_new_loop 0 0 [] segments;
  Ok {| cp_segments := canonical |}.

Definition CanonicalPath_is_root (self : CanonicalPath) : bool :=
  bool_decide (cp_segments self = []).

(** [segments.iter().map(String::len).sum::<usize>()]. *)
Definition total_len (segments : list str) : N := foldr (λ s n, (len s + n)%N) 0%N segments.

Definition encoded_len (segments : list str) : N :=
  (total_len segments + (N.of_nat (length segments) - 1))%N.

Definition CanonicalPath_encoded_len (self : CanonicalPath) : N := encoded_len (cp_segments self).

(** [split_last] drops the last segment; the root has no parent. *)
Definition CanonicalPath_parent (self : CanonicalPath) : option CanonicalPath :=
  match cp_segments self with
  | [] => None
  | segments => Some {| cp_segments := take (length segments - 1) segments |}
  end.

Definition CanonicalPath_child (self : CanonicalPath) (child : str)
    : result InvalidPathSegment CanonicalPath :=
  let index := N.of_nat (length (cp_segments self)) in
  _ ← validate_segment index child;
  if (MAX_CANONICAL_PATH_SEGMENTS <=? index)%N
  then Err {| ips_index := index; ips_reason := PathSegment_TooManySegments |}
  else
    let too_long := {| ips_index := index; ips_reason := PathSegment_EncodedPathTooLong |} in
    let separator_bytes := if (index =? 0)%N then 0%N else 1%N in
    encoded_bytes ←
      ok_or (with_separator ← checked_add_u64 (CanonicalPath_encoded_len self) separator_bytes;
             checked_add_u64 with_separator (len child)) too_long;
    if (MAX_CANONICAL_PATH_BYTES <? encoded_bytes)%N then Err too_long
    else Ok {| cp_segments := cp_segments self ++ [child] |}.

Definition CanonicalPath_is_at_or_below (self ancestor : CanonicalPath) : bool :=
  starts_with (cp_segments self) (cp_segments ancestor).

Definition CanonicalPath_rebase (self source destination : CanonicalPath) : option CanonicalPath :=
  suffix ← strip_prefix (cp_segments source) (cp_segments self);
  let destination_count := N.of_nat (length (cp_segments destination)) in
  let suffix_count := N.of_nat (length suffix) in
  if (MAX_CANONICAL_PATH_SEGMENTS <? destination_count + suffix_count)%N then None
  else
    let suffix_bytes := encoded_len suffix in
    let separator_bytes :=
      if negb (suffix_count =? 0)%N && negb (destination_count =? 0)%N then 1%N else 0%N in
    with_separator ← checked_add_u64 (CanonicalPath_encoded_len destination) separator_bytes;
    encoded_bytes ← checked_add_u64 with_separator suffix_bytes;
    if (MAX_CANONICAL_PATH_BYTES <? encoded_bytes)%N then None
    else Some {| cp_segments := cp_segments destination ++ suffix |}.

Inductive PathPattern :=
  | PathExact (path : CanonicalPath)
  | PathPrefix (path : CanonicalPath).

#[export] Instance PathPattern_eq_dec : EqDecision PathPattern.
Proof. solve_decision. Defined.

Definition PathPattern_path (self : PathPattern) : CanonicalPath :=
  match self with PathExact path | PathPrefix path => path end.

Definition path_matches (pattern : PathPattern) (path : CanonicalPath) : bool :=
  match pattern with
  | PathExact selected => bool_decide (selected = path)
  | PathPrefix selected => CanonicalPath_is_at_or_below path selected
  end.

Definition path_below (child parent : PathPattern) : bool :=
  match child, parent with
  | PathExact child, PathExact parent => bool_decide (child = parent)
  | PathExact child, PathPrefix parent | PathPrefix child, PathPrefix parent =>
      CanonicalPath_is_at_or_below child parent
  | PathPrefix _, PathExact _ => false
  end.

(** ** Representation invariant *)

Definition valid_segment (segment : str) : Prop := segment_reason segment = None.

Definition segments_wf (segments : list str) : Prop :=
  Forall valid_segment segments ∧
  (N.of_nat (length segments) <= MAX_CANONICAL_PATH_SEGMENTS)%N ∧
  (encoded_len segments <= MAX_CANONICAL_PATH_BYTES)%N.

Definition CanonicalPath_wf (path : CanonicalPath) : Prop := segments_wf (cp_segments path).

#[export] Instance valid_segment_dec s : Decision (valid_segment s).
Proof. unfold valid_segment. destruct (segment_reason s); [right|left]; done. Defined.

#[export] Instance segments_wf_dec segments : Decision (segments_wf segments).
Proof. unfold segments_wf. apply _. Defined.

#[export] Instance CanonicalPath_wf_dec path : Decision (CanonicalPath_wf path).
Proof. unfold CanonicalPath_wf. apply _. Defined.

Lemma total_len_app a b : total_len (a ++ b) = (total_len a + total_len b)%N.
Proof. induction a as [|s a IH]; simpl; [done|]. rewrite IH. lia. Qed.

(** The separator count between two concatenated segment vectors. *)
Lemma encoded_len_app a b :
  encoded_len (a ++ b) =
  (encoded_len a + (if bool_decide (a = []) || bool_decide (b = []) then 0 else 1)
   + encoded_len b)%N.
Proof.
  unfold encoded_len. rewrite total_len_app, length_app.
  destruct a, b; simpl length; rewrite ?bool_decide_eq_true_2 by done;
    repeat (rewrite bool_decide_eq_false_2 by done); simpl; lia.
Qed.

Lemma encoded_len_singleton s : encoded_len [s] = len s.
Proof. unfold encoded_len. simpl. lia. Qed.

Lemma encoded_len_snoc a s :
  encoded_len (a ++ [s]) =
  (encoded_len a + (if (N.of_nat (length a) =? 0)%N then 0 else 1) + len s)%N.
Proof.
  rewrite encoded_len_app, encoded_len_singleton. by destruct a.
Qed.

Lemma segments_wf_app_l a b : segments_wf (a ++ b) → segments_wf a.
Proof.
  unfold segments_wf. rewrite Forall_app, length_app, encoded_len_app. intros ([??] & ? & ?).
  repeat split; [done|lia..].
Qed.

Lemma CanonicalPath_root_wf : CanonicalPath_wf CanonicalPath_root.
Proof. repeat split; [constructor|done..]. Qed.

Lemma admit_segment_spec a s n :
  segments_wf a →
  admit_segment (N.of_nat (length a)) (encoded_len a) s = Ok n ↔
  segments_wf (a ++ [s]) ∧ n = encoded_len (a ++ [s]).
Proof.
  unfold admit_segment, validate_segment, segments_wf. rewrite Forall_app, length_app, encoded_len_snoc.
  intros (Hall & Hlen & Henc). simpl. rewrite Forall_singleton. unfold valid_segment.
  destruct (segment_reason s) as [r|]; simpl; [naive_solver|].
  destruct (N.leb_spec MAX_CANONICAL_PATH_SEGMENTS (N.of_nat (length a))) as [Hc|Hc];
    [split; [done|lia]|].
  set (sep := if (N.of_nat (length a) =? 0)%N then 0%N else 1%N).
  destruct (checked_add_u64 (encoded_len a) sep) as [m|] eqn:Hm; simpl.
  2:{ apply checked_add_u64_None in Hm. unfold MAX_CANONICAL_PATH_BYTES, u64_limit in *.
      subst sep. case_match; lia. }
  apply checked_add_u64_Some in Hm as [-> _].
  destruct (checked_add_u64 _ (len s)) as [m|] eqn:Hm; simpl.
  2:{ apply checked_add_u64_None in Hm. unfold MAX_CANONICAL_PATH_BYTES, u64_limit in *.
      split; [done|lia]. }
  apply checked_add_u64_Some in Hm as [-> _].
  destruct (N.ltb_spec MAX_CANONICAL_PATH_BYTES (encoded_len a + sep + len s));
    split; try (intros [= <-]); intros; destruct_and?; repeat split; try lia; try done.
  by subst.
Qed.

(** [child] runs exactly the checks of one constructor iteration. *)
Lemma CanonicalPath_child_unfold self child :
  CanonicalPath_child self child =
  (_ ← admit_segment (N.of_nat (length (cp_segments self))) (CanonicalPath_encoded_len self) child;
   Ok {| cp_segments := cp_segments self ++ [child] |}).
Proof.
  unfold CanonicalPath_child, admit_segment. destruct (validate_segment _ _) as [[]|]; simpl; [|done].
  case_match; [done|]. destruct (ok_or _ _); simpl; [|done]. by case_match.
Qed.

Lemma CanonicalPath_new_loop_spec rest done r :
  segments_wf done →
  CanonicalPath_new_loop (N.of_nat (length done)) (encoded_len done) done rest = Ok r ↔
  segments_wf (done ++ rest) ∧ r = done ++ rest.
Proof.
  revert done. induction rest as [|s rest IH]; intros done Hwf; simpl.
  - rewrite app_nil_r. naive_solver.
  - destruct (admit_segment _ _ s) as [n|e] eqn:Ha; simpl.
    + apply admit_segment_spec in Ha as [Hwf' ->]; [|done].
      replace (N.of_nat (length done) + 1)%N with (N.of_nat (length (done ++ [s])))
        by (rewrite length_app; simpl; lia).
      rewrite IH by done. by rewrite <- (assoc_L (++)).
    + split; [done|]. intros [Hwf' _]. exfalso.
      assert (segments_wf (done ++ [s])) as Hs.
      { apply (segments_wf_app_l _ rest). by rewrite <- (assoc_L (++)). }
      assert (admit_segment (N.of_nat (length done)) (encoded_len done) s =
              Ok (encoded_len (done ++ [s]))) by (by apply admit_segment_spec).
      congruence.
Qed.

Lemma CanonicalPath_new_ok segments path :
  CanonicalPath_new segments = Ok path ↔
  segments_wf segments ∧ cp_segments path = segments.
Proof.
  unfold CanonicalPath_new.
  assert (segments_wf []) as Hnil by (repeat split; [constructor|done..]).
  destruct (CanonicalPath_new_loop 0 0 [] segments) as [r|e] eqn:Hl; simpl.
  - apply (CanonicalPath_new_loop_spec segments [] r Hnil) in Hl as [Hwf ->]. simpl in *.
    destruct path; naive_solver.
  - split; [done|]. intros [Hwf _].
    pose proof (proj2 (CanonicalPath_new_loop_spec segments [] segments Hnil)
      (conj Hwf eq_refl)) as Hl'. change (CanonicalPath_new_loop 0 0 [] segments = Ok segments) in Hl'.
    congruence.
Qed.

Lemma CanonicalPath_new_wf segments path :
  CanonicalPath_new segments = Ok path → CanonicalPath_wf path.
Proof. intros [Hwf Hp]%CanonicalPath_new_ok. unfold CanonicalPath_wf. by rewrite Hp. Qed.

Lemma CanonicalPath_child_ok self child path :
  CanonicalPath_wf self →
  CanonicalPath_child self child = Ok path ↔
  segments_wf (cp_segments self ++ [child]) ∧ cp_segments path = cp_segments self ++ [child].
Proof.
  intros Hwf. rewrite CanonicalPath_child_unfold. unfold CanonicalPath_encoded_len.
  destruct (admit_segment _ _ child) as [n|e] eqn:Ha; simpl.
  - apply admit_segment_spec in Ha as [Hwf' ->]; [|done]. destruct path; naive_solver.
  - split; [done|]. intros [Hwf' _].
    rewrite (proj2 (admit_segment_spec _ child _ Hwf) (conj Hwf' eq_refl)) in Ha. done.
Qed.

Lemma CanonicalPath_parent_wf self parent :
  CanonicalPath_wf self → CanonicalPath_parent self = Some parent → CanonicalPath_wf parent.
Proof.
  unfold CanonicalPath_wf, CanonicalPath_parent. destruct (cp_segments self) as [|s ss]; [done|].
  intros Hwf [= <-]. cbn [cp_segments]. eapply segments_wf_app_l. by erewrite take_drop.
Qed.

Lemma CanonicalPath_child_wf self child path :
  CanonicalPath_wf self → CanonicalPath_child self child = Ok path → CanonicalPath_wf path.
Proof. intros Hwf [Hc Hp]%CanonicalPath_child_ok; [|done]. unfold CanonicalPath_wf. by rewrite Hp. Qed.

(** [rebase] succeeds exactly on the paths below [source] whose relocation
    still satisfies the path bounds. *)
Lemma CanonicalPath_rebase_ok self source destination path :
  CanonicalPath_wf self → CanonicalPath_wf destination →
  CanonicalPath_rebase self source destination = Some path ↔
  ∃ suffix, cp_segments self = cp_segments source ++ suffix ∧
    segments_wf (cp_segments destination ++ suffix) ∧
    cp_segments path = cp_segments destination ++ suffix.
Proof.
  unfold CanonicalPath_wf, CanonicalPath_rebase, CanonicalPath_encoded_len. intros Hself Hdest.
  destruct (strip_prefix _ _) as [suffix|] eqn:Hs; simpl.
  2:{ split; [done|]. intros (suffix & Hsuf & _). apply strip_prefix_Some in Hsuf. congruence. }
  apply strip_prefix_Some in Hs.
  trans (segments_wf (cp_segments destination ++ suffix) ∧
         cp_segments path = cp_segments destination ++ suffix).
  2:{ split; [naive_solver|]. intros (suffix' & Hs' & ?). rewrite Hs in Hs'. by simplify_eq. }
  set (sep := if _ && _ then 1%N else 0%N).
  assert (encoded_len (cp_segments destination ++ suffix) =
          (encoded_len (cp_segments destination) + sep + encoded_len suffix)%N) as Henc.
  { rewrite encoded_len_app. subst sep. by destruct (cp_segments destination), suffix. }
  assert (Forall valid_segment (cp_segments destination ++ suffix)) as Hall.
  { apply Forall_app. split; [apply Hdest|]. destruct Hself as [Hall _].
    rewrite Hs, Forall_app in Hall. apply Hall. }
  unfold segments_wf. rewrite length_app, Henc.
  destruct (N.ltb_spec MAX_CANONICAL_PATH_SEGMENTS
    (N.of_nat (length (cp_segments destination)) + N.of_nat (length suffix))) as [Hc|Hc];
    [split; [done|lia]|].
  destruct (checked_add_u64 _ sep) as [m|] eqn:Hm; simpl.
  2:{ apply checked_add_u64_None in Hm. unfold MAX_CANONICAL_PATH_BYTES, u64_limit in *. split; [done|lia]. }
  apply checked_add_u64_Some in Hm as [-> _].
  destruct (checked_add_u64 _ (encoded_len suffix)) as [m|] eqn:Hm; simpl.
  2:{ apply checked_add_u64_None in Hm. unfold MAX_CANONICAL_PATH_BYTES, u64_limit in *. split; [done|lia]. }
  apply checked_add_u64_Some in Hm as [-> _].
  destruct (N.ltb_spec MAX_CANONICAL_PATH_BYTES
    (encoded_len (cp_segments destination) + sep + encoded_len suffix)) as [Hb|Hb];
    [split; [done|lia]|].
  destruct path as [segs]; simpl. split; [intros [= <-]|]; [|naive_solver].
  repeat split; [done|lia..].
Qed.

(** ** Segment containment *)

Lemma starts_with_spec `{EqDecision A} (s p : list A) : starts_with s p = true ↔ p `prefix_of` s.
Proof. unfold starts_with. by rewrite bool_decide_eq_true. Qed.

Lemma at_or_below_refl p : CanonicalPath_is_at_or_below p p = true.
Proof. by apply starts_with_spec. Qed.

Lemma at_or_below_trans a b c :
  CanonicalPath_is_at_or_below a b = true → CanonicalPath_is_at_or_below b c = true →
  CanonicalPath_is_at_or_below a c = true.
Proof. unfold CanonicalPath_is_at_or_below. rewrite !starts_with_spec. intros. by etrans. Qed.

Create HintDb below.
#[export] Hint Resolve at_or_below_refl at_or_below_trans : below.

Lemma path_below_refl p : path_below p p = true.
Proof. destruct p; simpl; [apply bool_decide_refl|apply at_or_below_refl]. Qed.

Lemma path_below_trans a b c :
  path_below a b = true → path_below b c = true → path_below a c = true.
Proof. destruct a, b, c; simpl; intros; breflect; eauto with below. Qed.

Lemma path_below_sound child parent path :
  path_below child parent = true → path_matches child path = true →
  path_matches parent path = true.
Proof. destruct child, parent; simpl; intros; breflect; eauto with below. Qed.

(** The pattern test is also complete: among canonical paths, [child] selecting
    only paths of [parent] forces [path_below], provided a prefix pattern still
    has room for one more segment. *)
Lemma path_below_complete child parent :
  CanonicalPath_wf (PathPattern_path child) →
  is_Some (match CanonicalPath_child (PathPattern_path child) (lit "x") with
           | Ok q => Some q | Err _ => None end) →
  (∀ path, CanonicalPath_wf path → path_matches child path = true → path_matches parent path = true) →
  path_below child parent = true.
Proof.
  intros Hwf [q Hq] Hall. pose proof (Hall (PathPattern_path child) Hwf) as Hself.
  destruct (CanonicalPath_child _ _) as [q'|] eqn:Hchild; simplify_eq.
  apply CanonicalPath_child_ok in Hchild as [Hwfq Hsegs]; [|done].
  destruct child as [c|c], parent as [p|p]; simpl in *; rewrite ?bool_decide_refl in Hself.
  - specialize (Hself eq_refl). by breflect.
  - by apply Hself.
  - exfalso. specialize (Hself (at_or_below_refl c)).
    specialize (Hall q ltac:(unfold CanonicalPath_wf; by rewrite Hsegs)).
    unfold CanonicalPath_is_at_or_below in Hall. rewrite Hsegs, starts_with_spec in Hall.
    specialize (Hall ltac:(by eexists)). breflect. apply (f_equal length) in Hsegs.
    rewrite length_app in Hsegs. simpl in Hsegs. lia.
  - apply Hself, at_or_below_refl.
Qed.
