(* ===== verification/BitSet.v ===== *)
(** * Fixed-width bitsets over closed enumerations

    [FileEffects] (u16), [HttpFetchMethods] (u8) and [GitHubOperations] (u8) are
    private bitsets whose members are the discriminants of a closed enum.  The
    three implementations run the same word operations; this file models those
    operations once, at an explicit width, and proves that they compute the
    set-theoretic operations on every value the constructors can build. *)

From S2P Require Import Prelude.

(** A fieldless [repr(u8)] enum: its discriminants are distinct and below the
    number of variants, which fits the bitset's width. *)
Class BitEnum (A : Type) (width : N) := {
  bit_of : A → N;
  variants : N;
  bit_of_inj : ∀ a b, bit_of a = bit_of b → a = b;
  bit_of_lt : ∀ a, (bit_of a < variants)%N;
  bit_of_surj : ∀ i, (i < variants)%N → ∃ a, bit_of a = i;
  variants_le : (variants <= width)%N;
}.

Section bitset.
Context {A : Type} {width : N} `{!BitEnum A width}.

(** [1 << (self as u8)]. *)
Definition mask (a : A) : N := N.shiftl 1 (bit_of a).

(** [bits & mask != 0]. *)
Definition bits_contain (bits : N) (a : A) : bool := negb (N.land bits (mask a) =? 0)%N.

(** [self.0 & !parent.0 == 0]: the complement is taken in the word's width. *)
Definition bits_subset (bits parent : N) : bool :=
  (N.land bits (N.lnot parent width) =? 0)%N.

(** [fold(empty, |set, a| set | mask a)]. *)
Definition bits_of (l : list A) : N := foldl (λ set a, N.lor set (mask a)) 0%N l.

(** Only named bits are set: the invariant of the private representation. *)
Definition bits_wf (bits : N) : Prop := (bits < 2 ^ variants)%N.

Lemma mask_testbit a i : N.testbit (mask a) i = (i =? bit_of a)%N.
Proof.
  unfold mask. rewrite N.shiftl_1_l, N.pow2_bits_eqb. apply N.eqb_sym.
Qed.

Lemma bits_contain_testbit bits a : bits_contain bits a = N.testbit bits (bit_of a).
Proof.
  unfold bits_contain. destruct (N.testbit bits (bit_of a)) eqn:Hb.
  - apply negb_true_iff, N.eqb_neq. intros H0.
    apply (f_equal (λ n, N.testbit n (bit_of a))) in H0.
    by rewrite N.land_spec, mask_testbit, N.eqb_refl, Hb, N.bits_0 in H0.
  - apply negb_false_iff, N.eqb_eq, N.bits_inj_0. intros i.
    rewrite N.land_spec, mask_testbit. destruct (N.eqb_spec i (bit_of a)) as [-> |]; [by rewrite Hb|].
    by rewrite andb_false_r.
Qed.

Lemma bits_wf_high bits i : bits_wf bits → (variants <= i)%N → N.testbit bits i = false.
Proof.
  intros Hwf Hi. destruct (N.eq_dec bits 0) as [-> |Hne]; [apply N.bits_0|].
  apply N.bits_above_log2. apply N.log2_lt_pow2 in Hwf; lia.
Qed.

Lemma bits_wf_of_high bits : (∀ i, (variants <= i)%N → N.testbit bits i = false) → bits_wf bits.
Proof.
  intros H. unfold bits_wf. destruct (N.eq_dec bits 0) as [-> |Hne].
  { apply N.neq_0_lt_0, N.pow_nonzero. done. }
  apply N.log2_lt_pow2; [lia|]. destruct (N.lt_ge_cases (N.log2 bits) variants) as [|Hge]; [done|].
  specialize (H _ Hge). rewrite N.bit_log2 in H by done. done.
Qed.

Lemma bits_wf_empty : bits_wf 0.
Proof. apply bits_wf_of_high. intros i _. apply N.bits_0. Qed.

Lemma bits_wf_insert bits a : bits_wf bits → bits_wf (N.lor bits (mask a)).
Proof.
  intros Hwf. apply bits_wf_of_high. intros i Hi. rewrite N.lor_spec, mask_testbit.
  rewrite (bits_wf_high bits i) by done. simpl. apply N.eqb_neq. pose proof (bit_of_lt a). lia.
Qed.

Lemma bits_contain_insert bits a b :
  bits_contain (N.lor bits (mask a)) b = bits_contain bits b || (bit_of b =? bit_of a)%N.
Proof. by rewrite !bits_contain_testbit, N.lor_spec, mask_testbit. Qed.

Lemma bits_of_snoc l a : bits_of (l ++ [a]) = N.lor (bits_of l) (mask a).
Proof. unfold bits_of. by rewrite foldl_app. Qed.

Lemma bits_of_wf l : bits_wf (bits_of l).
Proof.
  induction l as [|a l IH] using rev_ind; [apply bits_wf_empty|].
  rewrite bits_of_snoc. by apply bits_wf_insert.
Qed.

Lemma bits_of_contain l a : bits_contain (bits_of l) a = true ↔ a ∈ l.
Proof.
  induction l as [|b l IH] using rev_ind.
  - rewrite bits_contain_testbit. change (bits_of []) with 0%N. by rewrite N.bits_0, elem_of_nil.
  - rewrite bits_of_snoc, bits_contain_insert, orb_true_iff, IH, elem_of_app, list_elem_of_singleton.
    rewrite N.eqb_eq. split; intros [?|Hab]; auto; right; [by apply bit_of_inj|by subst].
Qed.

Lemma bits_subset_testbit bits parent :
  bits_subset bits parent = true ↔
  ∀ i, N.testbit bits i = true → N.testbit (N.lnot parent width) i = false.
Proof.
  unfold bits_subset. rewrite N.eqb_eq. split.
  - intros H0 i Hi. apply (f_equal (λ n, N.testbit n i)) in H0.
    by rewrite N.land_spec, Hi, N.bits_0 in H0.
  - intros H. apply N.bits_inj_0. intros i. rewrite N.land_spec.
    destruct (N.testbit bits i) eqn:Hi; [|done]. by apply H.
Qed.

Lemma bits_subset_sound bits parent a :
  bits_subset bits parent = true → bits_contain bits a = true → bits_contain parent a = true.
Proof.
  rewrite bits_subset_testbit, !bits_contain_testbit. intros H Ha. apply H in Ha.
  rewrite N.lnot_spec_low in Ha; [by destruct (N.testbit parent _)|].
  pose proof (bit_of_lt a). pose proof variants_le. lia.
Qed.

Lemma bits_subset_complete bits parent :
  bits_wf bits → (∀ a, bits_contain bits a = true → bits_contain parent a = true) →
  bits_subset bits parent = true.
Proof.
  intros Hwf H. apply bits_subset_testbit. intros i Hi.
  destruct (N.lt_ge_cases i variants) as [Hlt|Hge].
  - destruct (bit_of_surj i Hlt) as [a <-]. rewrite <- bits_contain_testbit in Hi.
    apply H in Hi. rewrite bits_contain_testbit in Hi. rewrite N.lnot_spec_low, Hi; [done|].
    pose proof variants_le. lia.
  - rewrite (bits_wf_high bits i) in Hi; done.
Qed.

Lemma bits_subset_refl bits : bits_wf bits → bits_subset bits bits = true.
Proof. intros Hwf. by apply bits_subset_complete. Qed.

Lemma bits_subset_trans a b c :
  bits_wf a → bits_subset a b = true → bits_subset b c = true → bits_subset a c = true.
Proof.
  intros Ha Hab Hbc. apply bits_subset_complete; [done|].
  eauto using bits_subset_sound.
Qed.

(** Two well-formed bitsets with the same members are the same word. *)
Lemma bits_ext a b :
  bits_wf a → bits_wf b → (∀ x, bits_contain a x = bits_contain b x) → a = b.
Proof.
  intros Ha Hb H. apply N.bits_inj. intros i. destruct (N.lt_ge_cases i variants) as [Hlt|Hge].
  - destruct (bit_of_surj i Hlt) as [x <-]. by rewrite <- !bits_contain_testbit.
  - by rewrite !bits_wf_high.
Qed.

End bitset.

Arguments bits_subset width bits parent : assert.
