(* ===== verification/AuthorityFamily.v ===== *)
(** * What every authority family promises

    The capability layer is proved against this interface; the file, HTTP and
    GitHub families discharge it.  [below child parent] is the delegation test a
    derivation runs, [matches] the authorization test an effect runs.  The
    soundness law is the promise in the sources' doc comments: a successful
    delegation decision guarantees that every request permitted by the child is
    permitted by the parent. *)

From S2P Require Import Prelude.

Class AuthorityFamily (Body Request : Type) := {
  family_matches : Body → Request → bool;
  family_below : Body → Body → bool;
  (** The invariant of bodies built by the public constructors. *)
  family_wf : Body → Prop;
  family_below_refl body : family_wf body → family_below body body = true;
  family_below_trans child middle parent :
    family_wf child →
    family_below child middle = true → family_below middle parent = true →
    family_below child parent = true;
  family_below_sound child parent request :
    family_below child parent = true → family_matches child request = true →
    family_matches parent request = true;
}.
