(* ===== verification/File.v ===== *)
(** * File authority ([crates/authority-core/src/file.rs])

    The closed universe of thirteen filesystem effects, its u16 bitset, and the
    matching and delegation decisions of a [FileAuthority]. *)

From S2P Require Import Prelude Bytes BitSet Path AuthorityFamily.

(** [RepoId] ([repository.rs]) is an opaque string compared for equality. *)
Abbreviation RepoId := str.

Inductive FileEffect :=
  | ReadData | ListDirectory | WriteData | Truncate | CreateFile | CreateDirectory
  | RemoveFile | RemoveDirectory | Rename | SetMetadata | ReadLink | CreateSymlink
  | CreateHardLink.

#[export] Instance FileEffect_eq_dec : EqDecision FileEffect.
Proof. solve_decision. Defined.

(** [FileEffect::ALL], in wire order. *)
Definition FileEffect_ALL : list FileEffect :=
  [ReadData; ListDirectory; WriteData; Truncate; CreateFile; CreateDirectory;
   RemoveFile; RemoveDirectory; Rename; SetMetadata; ReadLink; CreateSymlink;
   CreateHardLink].

(** [self as u8]. *)
Definition FileEffect_tag (self : FileEffect) : N :=
  match self with
  | ReadData => 0 | ListDirectory => 1 | WriteData => 2 | Truncate => 3
  | CreateFile => 4 | CreateDirectory => 5 | RemoveFile => 6 | RemoveDirectory => 7
  | Rename => 8 | SetMetadata => 9 | ReadLink => 10 | CreateSymlink => 11
  | CreateHardLink => 12
  end.

Definition FileEffect_from_tag (tag : N) : option FileEffect :=
  let index := N.to_nat tag in
  if (tag <? N.of_nat (length FileEffect_ALL))%N then FileEffect_ALL !! index else None.

Lemma FileEffect_from_tag_tag e : FileEffect_from_tag (FileEffect_tag e) = Some e.
Proof. by destruct e. Qed.

Lemma FileEffect_tag_from_tag t e : FileEffect_from_tag t = Some e → FileEffect_tag e = t.
Proof.
  unfold FileEffect_from_tag. destruct (N.ltb_spec t (N.of_nat (length FileEffect_ALL))) as [Hlt|]; [|done].
  simpl in Hlt. intros He.
  assert (t ∈ [0;1;2;3;4;5;6;7;8;9;10;11;12]%N) as Ht by (set_unfold; lia).
  set_unfold in Ht. destruct_or?; subst; vm_compute in He; by simplify_eq.
Qed.

#[export] Program Instance FileEffect_bits : BitEnum FileEffect 16 :=
  {| bit_of := FileEffect_tag; variants := 13 |}.
Next Obligation. by intros [] []. Qed.
Next Obligation. by intros []. Qed.
Next Obligation.
  intros i Hi. destruct (FileEffect_from_tag i) as [e|] eqn:He.
  - exists e. by apply FileEffect_tag_from_tag.
  - exfalso. unfold FileEffect_from_tag in He.
    change (N.of_nat (length FileEffect_ALL)) with 13%N in He.
    destruct (N.ltb_spec i 13) as [_|]; [|lia].
    apply lookup_ge_None in He. simpl in He. lia.
Qed.
Next Obligation. done. Qed.

Record FileEffects := { fe_bits : N }.

#[export] Instance FileEffects_eq_dec : EqDecision FileEffects.
Proof. solve_decision. Defined.

Definition FileEffect_mask (self : FileEffect) : N := N.shiftl 1 (FileEffect_tag self).

Definition FileEffects_empty : FileEffects := {| fe_bits := 0 |}.

Definition FileEffects_only (effect : FileEffect) : FileEffects :=
  {| fe_bits := FileEffect_mask effect |}.

Definition FileEffects_from_effects (effects : list FileEffect) : FileEffects :=
  foldl (λ set effect, {| fe_bits := N.lor (fe_bits set) (FileEffect_mask effect) |})
    FileEffects_empty effects.

Definition FileEffects_contains (self : FileEffects) (effect : FileEffect) : bool :=
  negb (N.land (fe_bits self) (FileEffect_mask effect) =? 0)%N.

Definition FileEffects_is_empty (self : FileEffects) : bool := (fe_bits self =? 0)%N.

Definition FileEffects_is_subset_of (self parent : FileEffects) : bool :=
  (N.land (fe_bits self) (N.lnot (fe_bits parent) 16) =? 0)%N.

Record FileAuthority := {
  fa_repository : RepoId;
  fa_effects : FileEffects;
  fa_path : PathPattern;
}.

Record FileRequest := {
  fr_repository : RepoId;
  fr_effect : FileEffect;
  fr_path : CanonicalPath;
}.

#[export] Instance FileAuthority_eq_dec : EqDecision FileAuthority.
Proof. solve_decision. Defined.
#[export] Instance FileRequest_eq_dec : EqDecision FileRequest.
Proof. solve_decision. Defined.

Definition file_matches (authority : FileAuthority) (request : FileRequest) : bool :=
  bool_decide (fa_repository authority = fr_repository request)
  && FileEffects_contains (fa_effects authority) (fr_effect request)
  && path_matches (fa_path authority) (fr_path request).

Definition file_body_below (child parent : FileAuthority) : bool :=
  bool_decide (fa_repository child = fa_repository parent)
  && FileEffects_is_subset_of (fa_effects child) (fa_effects parent)
  && path_below (fa_path child) (fa_path parent).

(** ** Properties *)

Definition FileEffects_wf (effects : FileEffects) : Prop := bits_wf (A := FileEffect) (fe_bits effects).

Lemma FileEffects_from_effects_bits l : fe_bits (FileEffects_from_effects l) = bits_of l.
Proof.
  unfold FileEffects_from_effects, bits_of. change 0%N with (fe_bits FileEffects_empty).
  generalize FileEffects_empty. induction l as [|e l IH]; intros s; simpl; [done|]. apply IH.
Qed.

Lemma FileEffects_from_effects_wf l : FileEffects_wf (FileEffects_from_effects l).
Proof. unfold FileEffects_wf. rewrite FileEffects_from_effects_bits. apply bits_of_wf. Qed.

Lemma FileEffects_subset_sound c p e :
  FileEffects_is_subset_of c p = true → FileEffects_contains c e = true →
  FileEffects_contains p e = true.
Proof. exact (bits_subset_sound (A := FileEffect) (width := 16) (fe_bits c) (fe_bits p) e). Qed.

Lemma FileEffects_subset_complete c p :
  FileEffects_wf c →
  (∀ e, FileEffects_contains c e = true → FileEffects_contains p e = true) →
  FileEffects_is_subset_of c p = true.
Proof. exact (bits_subset_complete (A := FileEffect) (width := 16) (fe_bits c) (fe_bits p)). Qed.

Definition FileAuthority_wf (a : FileAuthority) : Prop :=
  FileEffects_wf (fa_effects a) ∧ CanonicalPath_wf (PathPattern_path (fa_path a)).

#[export] Program Instance file_family : AuthorityFamily FileAuthority FileRequest :=
  {| family_matches := file_matches; family_below := file_body_below;
     family_wf := FileAuthority_wf |}.
Next Obligation.
  intros body [Hb _]. unfold file_body_below. breflect. repeat split; [|apply path_below_refl].
  by apply (bits_subset_refl (A := FileEffect) (width := 16)).
Qed.
Next Obligation.
  unfold file_body_below. intros c m p [Hc _] H1 H2. breflect. destruct_and!.
  repeat split; [congruence| |by eapply path_below_trans].
  by eapply (bits_subset_trans (A := FileEffect) (width := 16)).
Qed.
Next Obligation.
  unfold file_body_below, file_matches. intros c p r Hb Hm. breflect. destruct_and!.
  repeat split; [congruence|by eapply FileEffects_subset_sound|by eapply path_below_sound].
Qed.
