(* ===== verification/IpLiteral.v ===== *)
(** * [str::parse::<IpAddr>().is_ok()]

    [CanonicalHost::new] rejects every hostname that the standard library parses
    as an IP address.  This file models that recogniser: the parser combinators
    of [core::net::parser], where a [None] leaves the input untouched
    ([read_atomically]).  Only success is observed, so values are dropped. *)

From S2P Require Import Prelude Bytes.

(** [char::to_digit] for the radices 10 and 16. *)
Definition to_digit (radix : N) (b : byte) : option N :=
  let n := b2N b in
  let digit :=
    if in_range 48 57 n then Some (n - 48)%N
    else if in_range 97 102 n then Some (n - 87)%N
    else if in_range 65 70 n then Some (n - 55)%N
    else None in
  match digit with
  | Some d => if (d <? radix)%N then Some d else None
  | None => None
  end.

(** The digit loop of [read_number]: the value, the digit count and the rest,
    [None] as soon as more than [max_digits] digits were read. *)
Fixpoint read_digits (radix max_digits value count : N) (s : str) : option (N * N * str) :=
  match s with
  | [] => Some (value, count, s)
  | b :: s' =>
      match to_digit radix b with
      | None => Some (value, count, s)
      | Some d =>
          if (max_digits <? count + 1)%N then None
          else read_digits radix max_digits (value * radix + d) (count + 1) s'
      end
  end.

Definition read_number (radix max_digits max_value : N) (allow_zero_prefix : bool) (s : str)
    : option str :=
  let has_leading_zero := bool_decide (head s = Some (chr "0")) in
  match read_digits radix max_digits 0 0 s with
  | Some (value, count, rest) =>
      if (count =? 0)%N then None
      else if negb allow_zero_prefix && has_leading_zero && (1 <? count)%N then None
      else if (value <=? max_value)%N then Some rest else None
  | None => None
  end.

Definition read_given_char (c : byte) (s : str) : option str :=
  match s with
  | b :: s' => if bool_decide (b = c) then Some s' else None
  | [] => None
  end.

Definition read_separator (sep : byte) (index : nat) (inner : str → option str) (s : str)
    : option str :=
  match index with
  | O => inner s
  | S _ => match read_given_char sep s with Some s' => inner s' | None => None end
  end.

Definition read_octet : str → option str := read_number 10 3 255 false.
Definition read_group : str → option str := read_number 16 4 65535 true.

Definition read_ipv4_addr (s : str) : option str :=
  s ← read_separator (chr ".") 0 read_octet s;
  s ← read_separator (chr ".") 1 read_octet s;
  s ← read_separator (chr ".") 2 read_octet s;
  read_separator (chr ".") 3 read_octet s.

(** [read_groups] with [slots] slots left, at slot [index]: the number of groups
    read, whether an embedded IPv4 address ended them, and the rest. *)
Fixpoint read_groups (slots index : nat) (s : str) : nat * bool * str :=
  match slots with
  | O => (index, false, s)
  | S slots' =>
      let ipv4 :=
        match slots' with
        | O => None
        | S _ => read_separator (chr ":") index read_ipv4_addr s
        end in
      match ipv4 with
      | Some rest => (index + 2, true, rest)
      | None =>
          match read_separator (chr ":") index read_group s with
          | Some rest => read_groups slots' (S index) rest
          | None => (index, false, s)
          end
      end
  end.

Definition read_ipv6_addr (s : str) : option str :=
  let '(head_size, head_ipv4, s) := read_groups 8 0 s in
  if bool_decide (head_size = 8) then Some s
  else if head_ipv4 then None
  else
    s ← read_given_char (chr ":") s;
    s ← read_given_char (chr ":") s;
    let '(_, _, s) := read_groups (8 - (head_size + 1)) 0 s in
    Some s.

(** Whether the whole string is an IPv4 or an IPv6 address literal. *)
Definition parses_as_ip_addr (s : str) : bool :=
  match (match read_ipv4_addr s with Some rest => Some rest | None => read_ipv6_addr s end) with
  | Some rest => bool_decide (rest = [])
  | None => false
  end.

Example ip_literals :
  map parses_as_ip_addr
    [lit "127.0.0.1"; lit "1.2.3.4.5"; lit "256.1.1.1"; lit "01.2.3.4"; lit "::1"; lit "::";
     lit "2001:db8::ff00:42:8329"; lit "::ffff:192.168.0.1"; lit "1:2:3:4:5:6:7:8:9"; lit "1.2.3";
     lit "fe80::1::2"; lit "1:2:3:4:5:6:7::"; lit "docs.example"]
  = [true; false; false; false; true; true; true; true; false; false; false; true; false].
Proof. vm_compute. reflexivity. Qed.
