(* ===== verification/Http.v ===== *)
(** * HTTP fetch authority ([crates/authority-core/src/http.rs])

    Canonical hosts, canonical origin-form URL paths, method sets, and the
    matching and delegation decisions of an [HttpFetchAuthority]. *)

From S2P Require Import Prelude Bytes BitSet Path AuthorityFamily IpLiteral.

Definition MAX_CANONICAL_URL_PATH_BYTES : N := 4096.
Definition MAX_CANONICAL_URL_PATH_SEGMENTS : N := 64.

(** ** Canonical hosts *)

Record CanonicalHost := { ch_name : str }.

#[export] Instance CanonicalHost_eq_dec : EqDecision CanonicalHost.
Proof. solve_decision. Defined.

Inductive InvalidCanonicalHostReason :=
  | Host_Empty | Host_NonAscii | Host_TooLong | Host_EmptyLabel | Host_LabelTooLong
  | Host_LabelEdgeHyphen | Host_InvalidLabelCharacter | Host_IpAddressLiteral.

Record InvalidCanonicalHost := {
  ich_label_index : option N;
  ich_reason : InvalidCanonicalHostReason;
}.

Definition host_error (reason : InvalidCanonicalHostReason) : InvalidCanonicalHost :=
  {| ich_label_index := None; ich_reason := reason |}.
Definition host_error_at (index : N) (reason : InvalidCanonicalHostReason) : InvalidCanonicalHost :=
  {| ich_label_index := Some index; ich_reason := reason |}.

(** The body of the label loop: why a label is refused. *)
Definition label_reason (label : str) : option InvalidCanonicalHostReason :=
  if bool_decide (label = []) then Some Host_EmptyLabel
  else if (63 <? len label)%N then Some Host_LabelTooLong
  else if starts_with label (lit "-") || ends_with label (lit "-") then Some Host_LabelEdgeHyphen
  else if negb (forallb (λ b, is_ascii_alphanumeric b || bool_decide (b = chr "-")) label)
  then Some Host_InvalidLabelCharacter
  else None.

Fixpoint check_labels (index : N) (labels : list str) : result InvalidCanonicalHost unit :=
  match labels with
  | [] => Ok tt
  | label :: rest =>
      match label_reason label with
      | Some reason => Err (host_error_at index reason)
      | None => check_labels (index + 1) rest
      end
  end.

Definition CanonicalHost_new (host : str) : result InvalidCanonicalHost CanonicalHost :=
  if negb (is_ascii host) then Err (host_error Host_NonAscii)
  else
    let canonical := to_ascii_lowercase (default host (strip_suffix_byte (chr ".") host)) in
    if bool_decide (canonical = []) then Err (host_error Host_Empty)
    else if (253 <? len canonical)%N then Err (host_error Host_TooLong)
    else if parses_as_ip_addr canonical then Err (host_error Host_IpAddressLiteral)
    else
      _ ← check_labels 0 (split (chr ".") canonical);
      Ok {| ch_name := canonical |}.

(** ** Canonical URL paths *)

Record CanonicalUrlPath := { cup_segments : list str }.

#[export] Instance CanonicalUrlPath_eq_dec : EqDecision CanonicalUrlPath.
Proof. solve_decision. Defined.

Inductive InvalidCanonicalUrlPathReason :=
  | Url_MissingLeadingSlash | Url_TrailingSlash | Url_NonAscii | Url_EmptySegment
  | Url_CurrentDirectory | Url_ParentDirectory | Url_ContainsBackslash
  | Url_ContainsPercentEncoding | Url_ContainsQueryDelimiter | Url_ContainsFragmentDelimiter
  | Url_ContainsControlCharacter | Url_ContainsInvalidCharacter | Url_TooManySegments
  | Url_EncodedPathTooLong.

Record InvalidCanonicalUrlPath := {
  icup_segment_index : option N;
  icup_reason : InvalidCanonicalUrlPathReason;
}.

Definition url_error (reason : InvalidCanonicalUrlPathReason) : InvalidCanonicalUrlPath :=
  {| icup_segment_index := None; icup_reason := reason |}.
Definition url_error_at (index : N) (reason : InvalidCanonicalUrlPathReason)
    : InvalidCanonicalUrlPath :=
  {| icup_segment_index := Some index; icup_reason := reason |}.

Definition is_unencoded_url_path_character (b : byte) : bool :=
  is_ascii_alphanumeric b || bool_decide (b ∈ lit "-._~") || bool_decide (b ∈ lit "!$&'()*+,;=")
  || bool_decide (b ∈ lit ":@").

Definition url_segment_reason (segment : str) : option InvalidCanonicalUrlPathReason :=
  if bool_decide (segment = []) then Some Url_EmptySegment
  else if bool_decide (segment = lit ".") then Some Url_CurrentDirectory
  else if bool_decide (segment = lit "..") then Some Url_ParentDirectory
  else if contains_byte (chr "\") segment then Some Url_ContainsBackslash
  else if contains_byte (chr "%") segment then Some Url_ContainsPercentEncoding
  else if contains_byte (chr "?") segment then Some Url_ContainsQueryDelimiter
  else if contains_byte (chr "#") segment then Some Url_ContainsFragmentDelimiter
  else if existsb is_ascii_control segment then Some Url_ContainsControlCharacter
  else if negb (forallb is_unencoded_url_path_character segment)
  then Some Url_ContainsInvalidCharacter
  else None.

Definition validate_url_path_segment (index : N) (segment : str)
    : result InvalidCanonicalUrlPath unit :=
  match url_segment_reason segment with
  | Some reason => Err (url_error_at index reason)
  | None => Ok tt
  end.

(** The [map]/[collect] over enumerated segments: the first error wins. *)
Fixpoint validate_url_segments (index : N) (segments : list str)
    : result InvalidCanonicalUrlPath (list str) :=
  match segments with
  | [] => Ok []
  | segment :: rest =>
      _ ← validate_url_path_segment index segment;
      rest ← validate_url_segments (index + 1) rest;
      Ok (segment :: rest)
  end.

Definition CanonicalUrlPath_root : CanonicalUrlPath := {| cup_segments := [] |}.

Definition CanonicalUrlPath_new (path : str) : result InvalidCanonicalUrlPath CanonicalUrlPath :=
  if bool_decide (path = lit "/") then Ok CanonicalUrlPath_root
  else if negb (starts_with path (lit "/")) then Err (url_error Url_MissingLeadingSlash)
  else if ends_with path (lit "/") then Err (url_error Url_TrailingSlash)
  else if negb (is_ascii path) then Err (url_error Url_NonAscii)
  else if (MAX_CANONICAL_URL_PATH_BYTES <? len path)%N then Err (url_error Url_EncodedPathTooLong)
  else
    let segments := split (chr "/") (drop 1 path) in
    if (MAX_CANONICAL_URL_PATH_SEGMENTS <? N.of_nat (length segments))%N
    then Err (url_error_at MAX_CANONICAL_URL_PATH_SEGMENTS Url_TooManySegments)
    else
      segments ← validate_url_segments 0 segments;
      Ok {| cup_segments := segments |}.

Definition CanonicalUrlPath_is_root (self : CanonicalUrlPath) : bool :=
  bool_decide (cup_segments self = []).

Definition CanonicalUrlPath_is_at_or_below (self ancestor : CanonicalUrlPath) : bool :=
  starts_with (cup_segments self) (cup_segments ancestor).

(** [Display]: the root prints as "/", every segment is preceded by "/". *)
Definition CanonicalUrlPath_to_string (self : CanonicalUrlPath) : str :=
  if CanonicalUrlPath_is_root self then lit "/"
  else concat (map (λ segment, lit "/" ++ segment) (cup_segments self)).

Inductive UrlPathPattern :=
  | UrlExact (path : CanonicalUrlPath)
  | UrlPrefix (path : CanonicalUrlPath).

#[export] Instance UrlPathPattern_eq_dec : EqDecision UrlPathPattern.
Proof. solve_decision. Defined.

Definition UrlPathPattern_path (self : UrlPathPattern) : CanonicalUrlPath :=
  match self with UrlExact path | UrlPrefix path => path end.

Definition url_path_matches (pattern : UrlPathPattern) (path : CanonicalUrlPath) : bool :=
  match pattern with
  | UrlExact selected => bool_decide (selected = path)
  | UrlPrefix selected => CanonicalUrlPath_is_at_or_below path selected
  end.

Definition url_path_below (child parent : UrlPathPattern) : bool :=
  match child, parent with
  | UrlExact child, UrlExact parent => bool_decide (child = parent)
  | UrlExact child, UrlPrefix parent | UrlPrefix child, UrlPrefix parent =>
      CanonicalUrlPath_is_at_or_below child parent
  | UrlPrefix _, UrlExact _ => false
  end.

(** ** Methods, authorities and requests *)

Inductive HttpFetchMethod := Get | Head.

#[export] Instance HttpFetchMethod_eq_dec : EqDecision HttpFetchMethod.
Proof. solve_decision. Defined.

Definition HttpFetchMethod_discriminant (self : HttpFetchMethod) : N :=
  match self with Get => 0 | Head => 1 end.

#[export] Program Instance HttpFetchMethod_bits : BitEnum HttpFetchMethod 8 :=
  {| bit_of := HttpFetchMethod_discriminant; variants := 2 |}.
Next Obligation. by intros [] []. Qed.
Next Obligation. by intros []. Qed.
Next Obligation. intros i Hi. destruct (N.eq_dec i 0) as [->|]; [by exists Get|]. exists Head. simpl. lia. Qed.
Next Obligation. done. Qed.

Definition HttpFetchMethod_mask (self : HttpFetchMethod) : N :=
  N.shiftl 1 (HttpFetchMethod_discriminant self).

Record HttpFetchMethods := { hm_bits : N }.

#[export] Instance HttpFetchMethods_eq_dec : EqDecision HttpFetchMethods.
Proof. solve_decision. Defined.

Definition HttpFetchMethods_empty : HttpFetchMethods := {| hm_bits := 0 |}.
Definition HttpFetchMethods_only (method : HttpFetchMethod) : HttpFetchMethods :=
  {| hm_bits := HttpFetchMethod_mask method |}.
Definition HttpFetchMethods_from_methods (methods : list HttpFetchMethod) : HttpFetchMethods :=
  foldl (λ set method, {| hm_bits := N.lor (hm_bits set) (HttpFetchMethod_mask method) |})
    HttpFetchMethods_empty methods.
Definition HttpFetchMethods_contains (self : HttpFetchMethods) (method : HttpFetchMethod) : bool :=
  negb (N.land (hm_bits self) (HttpFetchMethod_mask method) =? 0)%N.
Definition HttpFetchMethods_is_empty (self : HttpFetchMethods) : bool := (hm_bits self =? 0)%N.
Definition HttpFetchMethods_is_subset_of (self parent : HttpFetchMethods) : bool :=
  (N.land (hm_bits self) (N.lnot (hm_bits parent) 8) =? 0)%N.

Record HttpFetchAuthority := {
  ha_methods : HttpFetchMethods;
  ha_host : CanonicalHost;
  ha_path : UrlPathPattern;
  ha_max_response_bytes : N;
}.

Record HttpFetchRequest := {
  hr_method : HttpFetchMethod;
  hr_host : CanonicalHost;
  hr_path : CanonicalUrlPath;
  hr_max_response_bytes : N;
}.

#[export] Instance HttpFetchAuthority_eq_dec : EqDecision HttpFetchAuthority.
Proof. solve_decision. Defined.
#[export] Instance HttpFetchRequest_eq_dec : EqDecision HttpFetchRequest.
Proof. solve_decision. Defined.

Definition http_fetch_matches (authority : HttpFetchAuthority) (request : HttpFetchRequest) : bool :=
  HttpFetchMethods_contains (ha_methods authority) (hr_method request)
  && bool_decide (ha_host authority = hr_host request)
  && url_path_matches (ha_path authority) (hr_path request)
  && (hr_max_response_bytes request <=? ha_max_response_bytes authority)%N.

Definition http_fetch_body_below (child parent : HttpFetchAuthority) : bool :=
  HttpFetchMethods_is_subset_of (ha_methods child) (ha_methods parent)
  && bool_decide (ha_host child = ha_host parent)
  && url_path_below (ha_path child) (ha_path parent)
  && (ha_max_response_bytes child <=? ha_max_response_bytes parent)%N.

(** ** Hosts: canonical form *)

Lemma check_labels_ok index labels :
  check_labels index labels = Ok tt ↔ Forall (λ l, label_reason l = None) labels.
Proof.
  revert index. induction labels as [|l ls IH]; intros index; simpl; [by split|].
  rewrite Forall_cons. destruct (label_reason l); [naive_solver|]. rewrite IH. naive_solver.
Qed.

(** The invariant of a constructed host. *)
Definition CanonicalHost_wf (host : CanonicalHost) : Prop :=
  let name := ch_name host in
  is_ascii name = true ∧ to_ascii_lowercase name = name ∧
  (len name <= 253)%N ∧ parses_as_ip_addr name = false ∧
  Forall (λ l, label_reason l = None) (split (chr ".") name).

Lemma to_ascii_lowercase_byte_idemp b :
  to_ascii_lowercase_byte (to_ascii_lowercase_byte b) = to_ascii_lowercase_byte b.
Proof. by destruct b. Qed.

Lemma to_ascii_lowercase_idemp s : to_ascii_lowercase (to_ascii_lowercase s) = to_ascii_lowercase s.
Proof.
  unfold to_ascii_lowercase. rewrite map_map. apply map_ext, to_ascii_lowercase_byte_idemp.
Qed.

Lemma to_ascii_lowercase_ascii s : is_ascii s = true → is_ascii (to_ascii_lowercase s) = true.
Proof.
  unfold is_ascii, to_ascii_lowercase. rewrite !forallb_forall. setoid_rewrite in_map_iff.
  intros H b (b' & <- & Hb'). apply H in Hb'. by destruct b'.
Qed.

Lemma is_ascii_app s t : is_ascii (s ++ t) = is_ascii s && is_ascii t.
Proof. apply forallb_app. Qed.

Lemma strip_dot_ascii s :
  is_ascii s = true → is_ascii (default s (strip_suffix_byte (chr ".") s)) = true.
Proof.
  intros Hs. destruct (strip_suffix_byte _ s) as [r|] eqn:Hr; simpl; [|done].
  apply strip_suffix_byte_Some in Hr. rewrite Hr, is_ascii_app in Hs. by apply andb_true_iff in Hs as [Hs _].
Qed.

Lemma CanonicalHost_new_wf s host : CanonicalHost_new s = Ok host → CanonicalHost_wf host.
Proof.
  unfold CanonicalHost_new. destruct (is_ascii s) eqn:Ha; simpl; [|done].
  set (c := to_ascii_lowercase _). case_bool_decide; [done|].
  destruct (N.ltb_spec 253 (len c)); [done|]. destruct (parses_as_ip_addr c) eqn:Hip; [done|].
  destruct (check_labels 0 _) as [[]|] eqn:Hl; simpl; [|done]. intros [= <-].
  apply check_labels_ok in Hl. unfold CanonicalHost_wf. simpl.
  repeat split; [|apply to_ascii_lowercase_idemp|done..].
  by apply to_ascii_lowercase_ascii, strip_dot_ascii.
Qed.

Lemma CanonicalHost_wf_last host : CanonicalHost_wf host → last (ch_name host) ≠ Some (chr ".").
Proof.
  intros (_ & _ & _ & _ & Hl) Hlast. apply split_trailing_sep in Hlast.
  rewrite Forall_forall in Hl. by apply Hl in Hlast.
Qed.

(** Canonicalisation is the identity on canonical hosts. *)
Lemma CanonicalHost_new_canonical host :
  CanonicalHost_wf host → CanonicalHost_new (ch_name host) = Ok host.
Proof.
  intros Hwf. pose proof (CanonicalHost_wf_last host Hwf) as Hlast.
  destruct Hwf as (Ha & Hlow & Hlen & Hip & Hl). unfold CanonicalHost_new. rewrite Ha. simpl.
  apply strip_suffix_byte_None in Hlast. rewrite Hlast. simpl. rewrite Hlow.
  rewrite bool_decide_eq_false_2.
  2:{ intros Hn. rewrite Hn in Hl. by apply Forall_inv in Hl. }
  destruct (N.ltb_spec 253 (len (ch_name host))); [lia|]. rewrite Hip.
  rewrite (proj2 (check_labels_ok _ _) Hl). simpl. by destruct host.
Qed.

(** ** URL paths: canonical form *)

Definition valid_url_segment (segment : str) : Prop := url_segment_reason segment = None.

Lemma validate_url_segments_ok index segments r :
  validate_url_segments index segments = Ok r ↔ Forall valid_url_segment segments ∧ r = segments.
Proof.
  revert index r. induction segments as [|s ss IH]; intros index r; simpl.
  - split; [intros [= <-]; by split|by intros [_ ->]].
  - rewrite Forall_cons. unfold validate_url_path_segment, valid_url_segment.
    destruct (url_segment_reason s); simpl; [naive_solver|].
    destruct (validate_url_segments _ ss) as [r'|] eqn:Hr; simpl.
    + apply IH in Hr as [? ->]. naive_solver.
    + split; [done|]. intros [[_ Hall] ->]. by rewrite (proj2 (IH (index + 1)%N ss)) in Hr.
Qed.

(** The invariant of a constructed URL path: the root, or at most 64 valid
    segments whose printed form is at most 4096 ASCII bytes. *)
Definition CanonicalUrlPath_wf (path : CanonicalUrlPath) : Prop :=
  Forall valid_url_segment (cup_segments path) ∧
  (N.of_nat (length (cup_segments path)) <= MAX_CANONICAL_URL_PATH_SEGMENTS)%N ∧
  (len (CanonicalUrlPath_to_string path) <= MAX_CANONICAL_URL_PATH_BYTES)%N ∧
  is_ascii (CanonicalUrlPath_to_string path) = true.

Lemma url_concat_join ws : ws ≠ [] → concat (map (λ w, lit "/" ++ w) ws) = chr "/" :: join (chr "/") ws.
Proof.
  induction ws as [|w ws IH]; [done|]. intros _. destruct ws as [|w' ws'].
  - simpl. by rewrite app_nil_r.
  - rewrite join_cons by done. change (concat (map ?f (w :: ?l))) with (f w ++ concat (map f l)).
    rewrite IH by done. simpl. done.
Qed.

Lemma CanonicalUrlPath_new_spec s path :
  CanonicalUrlPath_new s = Ok path →
  CanonicalUrlPath_to_string path = s ∧ CanonicalUrlPath_wf path.
Proof.
  unfold CanonicalUrlPath_new. case_bool_decide as Hroot.
  { intros [= <-]. subst. repeat split; try done. }
  destruct (starts_with s (lit "/")) eqn:Hlead; simpl; [|done].
  destruct (ends_with s (lit "/")); [done|].
  destruct (is_ascii s) eqn:Ha; simpl; [|done].
  destruct (N.ltb_spec MAX_CANONICAL_URL_PATH_BYTES (len s)); [done|].
  destruct (N.ltb_spec MAX_CANONICAL_URL_PATH_SEGMENTS (N.of_nat (length (split (chr "/") (drop 1 s)))));
    [done|].
  destruct (validate_url_segments 0 _) as [r|] eqn:Hr; simpl; [|done]. intros [= <-].
  apply validate_url_segments_ok in Hr as [Hall ->].
  apply starts_with_spec in Hlead as [s' ->]. simpl in *. rewrite drop_0 in *.
  assert (CanonicalUrlPath_to_string {| cup_segments := split (chr "/") s' |} = chr "/" :: s') as Hs.
  { unfold CanonicalUrlPath_to_string, CanonicalUrlPath_is_root. simpl.
    rewrite bool_decide_eq_false_2 by apply split_not_nil.
    rewrite url_concat_join by apply split_not_nil. by rewrite join_split. }
  split; [done|]. unfold CanonicalUrlPath_wf. rewrite Hs. done.
Qed.

Lemma valid_url_segment_chars segment b :
  valid_url_segment segment → b ∈ segment → is_unencoded_url_path_character b = true.
Proof.
  unfold valid_url_segment, url_segment_reason. intros Hs Hb.
  repeat (case_match; [done|]). breflect.
  match goal with H : forallb _ _ = true |- _ => rewrite forallb_forall in H; apply H end.
  by apply list_elem_of_In.
Qed.

Lemma valid_url_segment_no_slash segment : valid_url_segment segment → chr "/" ∉ segment.
Proof. intros Hs Hb. by apply (valid_url_segment_chars segment) in Hb. Qed.

Lemma valid_url_segment_not_nil : ¬ valid_url_segment [].
Proof. done. Qed.

(** Printing and parsing are inverse: a canonical path has exactly one accepted
    spelling. *)
Lemma CanonicalUrlPath_new_iff s path :
  CanonicalUrlPath_new s = Ok path ↔
  CanonicalUrlPath_wf path ∧ CanonicalUrlPath_to_string path = s.
Proof.
  split; [by intros [??]%CanonicalUrlPath_new_spec|]. intros [(Hall & Hcnt & Hlen & Ha) <-].
  unfold CanonicalUrlPath_to_string, CanonicalUrlPath_is_root in *. case_bool_decide as Hroot.
  { destruct path as [segs]; simpl in *. by subst. }
  rewrite url_concat_join in * by done.
  assert (Forall (λ w, chr "/" ∉ w) (cup_segments path)) as Hns.
  { eapply Forall_impl; [done|]. apply valid_url_segment_no_slash. }
  pose proof (split_join (chr "/") _ Hroot Hns) as Hsplit.
  set (j := join (chr "/") (cup_segments path)) in *.
  assert ([] ∉ cup_segments path) as Hnil.
  { rewrite Forall_forall in Hall. intros Hin%Hall. by apply valid_url_segment_not_nil in Hin. }
  unfold CanonicalUrlPath_new. rewrite bool_decide_eq_false_2.
  2:{ intros Hs. change (lit "/") with [chr "/"] in Hs. injection Hs as Hj.
      rewrite Hj in Hsplit. simpl in Hsplit. rewrite <- Hsplit in Hnil. set_solver. }
  rewrite (proj2 (starts_with_spec (chr "/" :: j) (lit "/"))) by (by exists j). simpl negb. cbv iota.
  assert (ends_with (chr "/" :: j) (lit "/") = false) as ->.
  { apply bool_decide_eq_false. intros [k Hk]. change (lit "/") with [chr "/"] in Hk.
    apply (f_equal last) in Hk. rewrite last_snoc in Hk. destruct (decide (j = [])) as [Hj|Hj].
    - rewrite Hj in Hsplit. simpl in Hsplit. rewrite <- Hsplit in Hnil. set_solver.
    - rewrite last_cons in Hk. destruct (last j) as [b|] eqn:Hl; [|by apply last_None in Hl].
      simplify_eq. apply split_trailing_sep in Hl. by rewrite Hsplit in Hl. }
  change (is_ascii j = true) in Ha. rewrite Ha. simpl negb. cbv iota.
  destruct (N.ltb_spec MAX_CANONICAL_URL_PATH_BYTES (len (chr "/" :: j))); [lia|].
  simpl drop. rewrite drop_0, Hsplit.
  destruct (N.ltb_spec MAX_CANONICAL_URL_PATH_SEGMENTS (N.of_nat (length (cup_segments path)))); [lia|].
  rewrite (proj2 (validate_url_segments_ok 0 _ _) (conj Hall eq_refl)). simpl. by destruct path.
Qed.

(** ** Pattern containment and the authority family *)

Lemma url_at_or_below_refl p : CanonicalUrlPath_is_at_or_below p p = true.
Proof. by apply starts_with_spec. Qed.

Lemma url_at_or_below_trans a b c :
  CanonicalUrlPath_is_at_or_below a b = true → CanonicalUrlPath_is_at_or_below b c = true →
  CanonicalUrlPath_is_at_or_below a c = true.
Proof. unfold CanonicalUrlPath_is_at_or_below. rewrite !starts_with_spec. intros. by etrans. Qed.
#[export] Hint Resolve url_at_or_below_refl url_at_or_below_trans : below.

Lemma url_path_below_refl p : url_path_below p p = true.
Proof. destruct p; simpl; [apply bool_decide_refl|apply url_at_or_below_refl]. Qed.

Lemma url_path_below_trans a b c :
  url_path_below a b = true → url_path_below b c = true → url_path_below a c = true.
Proof. destruct a, b, c; simpl; intros; breflect; eauto with below. Qed.

Lemma url_path_below_sound child parent path :
  url_path_below child parent = true → url_path_matches child path = true →
  url_path_matches parent path = true.
Proof. destruct child, parent; simpl; intros; breflect; eauto with below. Qed.

Definition HttpFetchMethods_wf (methods : HttpFetchMethods) : Prop :=
  bits_wf (A := HttpFetchMethod) (hm_bits methods).

Lemma HttpFetchMethods_subset_sound c p m :
  HttpFetchMethods_is_subset_of c p = true → HttpFetchMethods_contains c m = true →
  HttpFetchMethods_contains p m = true.
Proof. exact (bits_subset_sound (A := HttpFetchMethod) (width := 8) (hm_bits c) (hm_bits p) m). Qed.

Definition HttpFetchAuthority_wf (a : HttpFetchAuthority) : Prop :=
  HttpFetchMethods_wf (ha_methods a) ∧ CanonicalHost_wf (ha_host a) ∧
  CanonicalUrlPath_wf (UrlPathPattern_path (ha_path a)) ∧ (ha_max_response_bytes a < u64_limit)%N.

#[export] Program Instance http_family : AuthorityFamily HttpFetchAuthority HttpFetchRequest :=
  {| family_matches := http_fetch_matches; family_below := http_fetch_body_below;
     family_wf := HttpFetchAuthority_wf |}.
Next Obligation.
  intros body [Hb _]. unfold http_fetch_body_below. breflect.
  repeat split; [|apply url_path_below_refl|done].
  by apply (bits_subset_refl (A := HttpFetchMethod) (width := 8)).
Qed.
Next Obligation.
  unfold http_fetch_body_below. intros c m p [Hc _] H1 H2. breflect. destruct_and!.
  repeat split; [|congruence|by eapply url_path_below_trans|lia].
  by eapply (bits_subset_trans (A := HttpFetchMethod) (width := 8)).
Qed.
Next Obligation.
  unfold http_fetch_body_below, http_fetch_matches. intros c p r Hb Hm. breflect. destruct_and!.
  repeat split; [by eapply HttpFetchMethods_subset_sound|congruence|by eapply url_path_below_sound|lia].
Qed.
