(* ===== verification/GitHub.v ===== *)
(** * GitHub authority ([crates/authority-core/src/github.rs])

    The closed operation set, validated branch names and branch patterns, and
    the matching and delegation decisions of a [GitHubAuthority]. *)

From S2P Require Import Prelude Bytes BitSet Path AuthorityFamily File.

Abbreviation InstallationId := str.

Inductive GitHubOperation := PublishBranch | CreatePullRequest.

#[export] Instance GitHubOperation_eq_dec : EqDecision GitHubOperation.
Proof. solve_decision. Defined.

Definition GitHubOperation_discriminant (self : GitHubOperation) : N :=
  match self with PublishBranch => 0 | CreatePullRequest => 1 end.

#[export] Program Instance GitHubOperation_bits : BitEnum GitHubOperation 8 :=
  {| bit_of := GitHubOperation_discriminant; variants := 2 |}.
Next Obligation. by intros [] []. Qed.
Next Obligation. by intros []. Qed.
Next Obligation.
  intros i Hi. destruct (N.eq_dec i 0) as [->|]; [by exists PublishBranch|].
  exists CreatePullRequest. simpl. lia.
Qed.
Next Obligation. done. Qed.

Definition GitHubOperation_mask (self : GitHubOperation) : N :=
  N.shiftl 1 (GitHubOperation_discriminant self).

Record GitHubOperations := { go_bits : N }.

#[export] Instance GitHubOperations_eq_dec : EqDecision GitHubOperations.
Proof. solve_decision. Defined.

Definition GitHubOperations_empty : GitHubOperations := {| go_bits := 0 |}.
Definition GitHubOperations_only (operation : GitHubOperation) : GitHubOperations :=
  {| go_bits := GitHubOperation_mask operation |}.
Definition GitHubOperations_from_operations (operations : list GitHubOperation) : GitHubOperations :=
  foldl (λ set operation, {| go_bits := N.lor (go_bits set) (GitHubOperation_mask operation) |})
    GitHubOperations_empty operations.
Definition GitHubOperations_contains (self : GitHubOperations) (operation : GitHubOperation) : bool :=
  negb (N.land (go_bits self) (GitHubOperation_mask operation) =? 0)%N.
Definition GitHubOperations_is_empty (self : GitHubOperations) : bool := (go_bits self =? 0)%N.
Definition GitHubOperations_is_subset_of (self parent : GitHubOperations) : bool :=
  (N.land (go_bits self) (N.lnot (go_bits parent) 8) =? 0)%N.

(** ** Branch names *)

Record BranchName := { bn_segments : list str }.

#[export] Instance BranchName_eq_dec : EqDecision BranchName.
Proof. solve_decision. Defined.

Inductive InvalidBranchName :=
  | Branch_Empty
  | Branch_LeadingOrTrailingSeparator
  | Branch_FullyQualifiedReference
  | Branch_LeadingDash
  | Branch_ReservedAt
  | Branch_TrailingDot
  | Branch_DoubleDot
  | Branch_ReflogSyntax
  | Branch_EmptySegment (index : N)
  | Branch_SegmentLeadingDot (index : N)
  | Branch_SegmentTrailingDot (index : N)
  | Branch_SegmentLockSuffix (index : N)
  | Branch_ForbiddenCharacter (index : N).

(** The characters Git forbids in a reference, besides control characters. *)
Definition forbidden_branch_character (c : N) : bool :=
  is_control c || bool_decide (c ∈ map b2N (lit " ~^:?*[\")).

(** The closure mapped over the enumerated segments. *)
Definition check_branch_segment (index : N) (segment : str) : result InvalidBranchName str :=
  if bool_decide (segment = []) then Err (Branch_EmptySegment index)
  else if starts_with segment (lit ".") then Err (Branch_SegmentLeadingDot index)
  else if ends_with segment (lit ".") then Err (Branch_SegmentTrailingDot index)
  else if ends_with segment (lit ".lock") then Err (Branch_SegmentLockSuffix index)
  else if existsb forbidden_branch_character (chars segment)
  then Err (Branch_ForbiddenCharacter index)
  else Ok segment.

Fixpoint check_branch_segments (index : N) (segments : list str)
    : result InvalidBranchName (list str) :=
  match segments with
  | [] => Ok []
  | segment :: rest =>
      segment ← check_branch_segment index segment;
      rest ← check_branch_segments (index + 1) rest;
      Ok (segment :: rest)
  end.

Definition BranchName_new (value : str) : result InvalidBranchName BranchName :=
  if bool_decide (value = []) then Err Branch_Empty
  else if starts_with value (lit "/") || ends_with value (lit "/")
  then Err Branch_LeadingOrTrailingSeparator
  else if starts_with value (lit "refs/") then Err Branch_FullyQualifiedReference
  else if starts_with value (lit "-") then Err Branch_LeadingDash
  else if bool_decide (value = lit "@") then Err Branch_ReservedAt
  else if ends_with value (lit ".") then Err Branch_TrailingDot
  else if contains_str (lit "..") value then Err Branch_DoubleDot
  else if contains_str (lit "@{") value then Err Branch_ReflogSyntax
  else
    segments ← check_branch_segments 0 (split (chr "/") value);
    Ok {| bn_segments := segments |}.

Definition BranchName_is_at_or_below (self ancestor : BranchName) : bool :=
  starts_with (bn_segments self) (bn_segments ancestor).

(** [Display]: [segments.join("/")]. *)
Definition BranchName_to_string (self : BranchName) : str := join (chr "/") (bn_segments self).

Inductive BranchPattern :=
  | BranchExact (branch : BranchName)
  | BranchPrefix (branch : BranchName).

#[export] Instance BranchPattern_eq_dec : EqDecision BranchPattern.
Proof. solve_decision. Defined.

Definition BranchPattern_branch (self : BranchPattern) : BranchName :=
  match self with BranchExact branch | BranchPrefix branch => branch end.

Definition branch_matches (pattern : BranchPattern) (branch : BranchName) : bool :=
  match pattern with
  | BranchExact selected => bool_decide (selected = branch)
  | BranchPrefix selected => BranchName_is_at_or_below branch selected
  end.

Definition branch_below (child parent : BranchPattern) : bool :=
  match child, parent with
  | BranchExact child, BranchExact parent => bool_decide (child = parent)
  | BranchExact child, BranchPrefix parent | BranchPrefix child, BranchPrefix parent =>
      BranchName_is_at_or_below child parent
  | BranchPrefix _, BranchExact _ => false
  end.

(** ** Authorities and requests *)

Record GitHubAuthority := {
  ga_installation : InstallationId;
  ga_repository : RepoId;
  ga_operations : GitHubOperations;
  ga_base : BranchPattern;
  ga_head : BranchPattern;
}.

Record GitHubRequest := {
  gr_installation : InstallationId;
  gr_repository : RepoId;
  gr_operation : GitHubOperation;
  gr_base : BranchName;
  gr_head : BranchName;
}.

#[export] Instance GitHubAuthority_eq_dec : EqDecision GitHubAuthority.
Proof. solve_decision. Defined.
#[export] Instance GitHubRequest_eq_dec : EqDecision GitHubRequest.
Proof. solve_decision. Defined.

Definition github_matches (authority : GitHubAuthority) (request : GitHubRequest) : bool :=
  bool_decide (ga_installation authority = gr_installation request)
  && bool_decide (ga_repository authority = gr_repository request)
  && GitHubOperations_contains (ga_operations authority) (gr_operation request)
  && branch_matches (ga_base authority) (gr_base request)
  && branch_matches (ga_head authority) (gr_head request).

Definition github_body_below (child parent : GitHubAuthority) : bool :=
  bool_decide (ga_installation child = ga_installation parent)
  && bool_decide (ga_repository child = ga_repository parent)
  && GitHubOperations_is_subset_of (ga_operations child) (ga_operations parent)
  && branch_below (ga_base child) (ga_base parent)
  && branch_below (ga_head child) (ga_head parent).

(** ** Branch names: parsing and printing *)

Definition valid_branch_segment (segment : str) : Prop :=
  segment ≠ [] ∧ starts_with segment (lit ".") = false ∧ ends_with segment (lit ".") = false ∧
  ends_with segment (lit ".lock") = false ∧
  Forall (λ c, forbidden_branch_character c = false) (chars segment).

Lemma check_branch_segment_ok index segment r :
  check_branch_segment index segment = Ok r ↔ valid_branch_segment segment ∧ r = segment.
Proof.
  unfold check_branch_segment, valid_branch_segment. case_bool_decide; [naive_solver|].
  destruct (starts_with segment (lit ".")); [naive_solver|].
  destruct (ends_with segment (lit ".")); [naive_solver|].
  destruct (ends_with segment (lit ".lock")); [naive_solver|].
  destruct (existsb _ _) eqn:He.
  - split; [done|]. intros [(_ & _ & _ & _ & Hall) _]. apply existsb_exists in He as (c & Hc & Hf).
    rewrite Forall_forall in Hall. apply list_elem_of_In, Hall in Hc. congruence.
  - assert (Forall (λ c, forbidden_branch_character c = false) (chars segment)) as Hall.
    { apply Forall_forall. intros c Hc. apply not_true_iff_false. intros Hf.
      apply not_true_iff_false in He. apply He. apply existsb_exists.
      exists c. split; [by apply list_elem_of_In|done]. }
    naive_solver.
Qed.

Lemma check_branch_segments_ok index segments r :
  check_branch_segments index segments = Ok r ↔ Forall valid_branch_segment segments ∧ r = segments.
Proof.
  revert index r. induction segments as [|s ss IH]; intros index r; simpl.
  - split; [intros [= <-]; by split|by intros [_ ->]].
  - rewrite Forall_cons. destruct (check_branch_segment index s) as [s'|] eqn:Hs; simpl.
    + apply check_branch_segment_ok in Hs as [Hv ->].
      destruct (check_branch_segments _ ss) as [r'|] eqn:Hr; simpl.
      * apply IH in Hr as [? ->]. naive_solver.
      * split; [done|]. intros [[_ Hall] ->]. by rewrite (proj2 (IH (index + 1)%N ss)) in Hr.
    + split; [done|]. intros [[Hv _] _].
      by rewrite (proj2 (check_branch_segment_ok index s s)) in Hs.
Qed.

Lemma BranchName_new_segments value branch :
  BranchName_new value = Ok branch →
  bn_segments branch = split (chr "/") value ∧ Forall valid_branch_segment (bn_segments branch).
Proof.
  unfold BranchName_new. intros H. repeat (case_match; [done|]).
  destruct (check_branch_segments 0 _) as [r|] eqn:Hr; simpl in *; simplify_eq.
  by apply check_branch_segments_ok in Hr as [Hall ->].
Qed.

Lemma BranchName_new_to_string value branch :
  BranchName_new value = Ok branch → BranchName_to_string branch = value.
Proof.
  intros [Hs _]%BranchName_new_segments. unfold BranchName_to_string. rewrite Hs. apply join_split.
Qed.

(** A branch the constructor built: it is read back from its printed form, which
    is valid UTF-8. *)
Definition BranchName_wf (branch : BranchName) : Prop :=
  BranchName_new (BranchName_to_string branch) = Ok branch ∧
  utf8_valid (BranchName_to_string branch) = true.

Lemma BranchName_new_wf value branch :
  utf8_valid value = true → BranchName_new value = Ok branch → BranchName_wf branch.
Proof.
  intros Hu Hb. pose proof (BranchName_new_to_string _ _ Hb) as Hs. unfold BranchName_wf.
  by rewrite Hs.
Qed.

(** ** Pattern containment and the authority family *)

Lemma branch_at_or_below_refl b : BranchName_is_at_or_below b b = true.
Proof. by apply starts_with_spec. Qed.

Lemma branch_at_or_below_trans a b c :
  BranchName_is_at_or_below a b = true → BranchName_is_at_or_below b c = true →
  BranchName_is_at_or_below a c = true.
Proof. unfold BranchName_is_at_or_below. rewrite !starts_with_spec. intros. by etrans. Qed.
#[export] Hint Resolve branch_at_or_below_refl branch_at_or_below_trans : below.

Lemma branch_below_refl p : branch_below p p = true.
Proof. destruct p; simpl; [apply bool_decide_refl|apply branch_at_or_below_refl]. Qed.

Lemma branch_below_trans a b c :
  branch_below a b = true → branch_below b c = true → branch_below a c = true.
Proof. destruct a, b, c; simpl; intros; breflect; eauto with below. Qed.

Lemma branch_below_sound child parent branch :
  branch_below child parent = true → branch_matches child branch = true →
  branch_matches parent branch = true.
Proof. destruct child, parent; simpl; intros; breflect; eauto with below. Qed.

Definition GitHubOperations_wf (operations : GitHubOperations) : Prop :=
  bits_wf (A := GitHubOperation) (go_bits operations).

Lemma GitHubOperations_subset_sound c p o :
  GitHubOperations_is_subset_of c p = true → GitHubOperations_contains c o = true →
  GitHubOperations_contains p o = true.
Proof. exact (bits_subset_sound (A := GitHubOperation) (width := 8) (go_bits c) (go_bits p) o). Qed.

Definition GitHubAuthority_wf (a : GitHubAuthority) : Prop :=
  GitHubOperations_wf (ga_operations a) ∧
  BranchName_wf (BranchPattern_branch (ga_base a)) ∧
  BranchName_wf (BranchPattern_branch (ga_head a)).

#[export] Program Instance github_family : AuthorityFamily GitHubAuthority GitHubRequest :=
  {| family_matches := github_matches; family_below := github_body_below;
     family_wf := GitHubAuthority_wf |}.
Next Obligation.
  intros body [Hb _]. unfold github_body_below. breflect.
  repeat split; [|apply branch_below_refl..].
  by apply (bits_subset_refl (A := GitHubOperation) (width := 8)).
Qed.
Next Obligation.
  unfold github_body_below. intros c m p [Hc _] H1 H2. breflect. destruct_and!.
  repeat split; [congruence..| |by eapply branch_below_trans|by eapply branch_below_trans].
  by eapply (bits_subset_trans (A := GitHubOperation) (width := 8)).
Qed.
Next Obligation.
  unfold github_body_below, github_matches. intros c p r Hb Hm. breflect. destruct_and!.
  repeat split; [congruence..|by eapply GitHubOperations_subset_sound
    |by eapply branch_below_sound|by eapply branch_below_sound].
Qed.
