(* ===== verification/Capability.v ===== *)
(** * Capability envelopes ([crates/authority-core/src/capability.rs])

    The closed union of authority families, capability metadata, time-stamped
    requests, bounded request sets, and the pure authorization and delegation
    decisions.  The union discharges [AuthorityFamily] from its three members. *)

From S2P Require Import Prelude Bytes Time Path File Http GitHub AuthorityFamily.

Definition MAX_REQUESTS_PER_EFFECT : nat := 16.

(** Opaque host-assigned identities. *)
Abbreviation CapId := str.
Abbreviation SubjectId := str.
Abbreviation IssuerId := str.

Record CapabilityMetadata := {
  cm_id : CapId;
  cm_subject : SubjectId;
  cm_issuer : IssuerId;
  cm_parent : option CapId;
  cm_delegable : bool;
}.

Definition CapabilityMetadata_new (id : CapId) (subject : SubjectId) (issuer : IssuerId)
    : CapabilityMetadata :=
  {| cm_id := id; cm_subject := subject; cm_issuer := issuer;
     cm_parent := None; cm_delegable := false |}.

Definition CapabilityMetadata_with_parent (self : CapabilityMetadata) (parent : CapId)
    : CapabilityMetadata :=
  {| cm_id := cm_id self; cm_subject := cm_subject self; cm_issuer := cm_issuer self;
     cm_parent := Some parent; cm_delegable := cm_delegable self |}.

Definition CapabilityMetadata_with_delegable (self : CapabilityMetadata) (delegable : bool)
    : CapabilityMetadata :=
  {| cm_id := cm_id self; cm_subject := cm_subject self; cm_issuer := cm_issuer self;
     cm_parent := cm_parent self; cm_delegable := delegable |}.

Inductive AuthorityBody :=
  | AuthFile (authority : FileAuthority)
  | AuthHttpFetch (authority : HttpFetchAuthority)
  | AuthGitHub (authority : GitHubAuthority).

Inductive AuthorityRequest :=
  | ReqFile (request : FileRequest)
  | ReqHttpFetch (request : HttpFetchRequest)
  | ReqGitHub (request : GitHubRequest).

#[export] Instance CapabilityMetadata_eq_dec : EqDecision CapabilityMetadata.
Proof. solve_decision. Defined.
#[export] Instance AuthorityBody_eq_dec : EqDecision AuthorityBody.
Proof. solve_decision. Defined.
#[export] Instance AuthorityRequest_eq_dec : EqDecision AuthorityRequest.
Proof. solve_decision. Defined.

Record Capability := {
  cap_metadata : CapabilityMetadata;
  cap_validity : TimeWindow;
  cap_authority : AuthorityBody;
}.

Record CapabilityRequest := {
  crq_time : MonotonicTime;
  crq_authority : AuthorityRequest;
}.

#[export] Instance Capability_eq_dec : EqDecision Capability.
Proof. solve_decision. Defined.
#[export] Instance CapabilityRequest_eq_dec : EqDecision CapabilityRequest.
Proof. solve_decision. Defined.

Record CapabilityRequestSet := {
  crs_first : CapabilityRequest;
  crs_additional : list CapabilityRequest;
  crs_complete : bool;
}.

Definition CapabilityRequestSet_one (request : CapabilityRequest) : CapabilityRequestSet :=
  {| crs_first := request; crs_additional := []; crs_complete := true |}.

(** The iterator is consumed up to the bound; [complete] records whether it was
    exhausted by then ([additional.next().is_none()]). *)
Definition CapabilityRequestSet_new (first : CapabilityRequest)
    (additional : list CapabilityRequest) : CapabilityRequestSet :=
  let bounded := take (MAX_REQUESTS_PER_EFFECT - 1) additional in
  let rest := drop (MAX_REQUESTS_PER_EFFECT - 1) additional in
  {| crs_first := first; crs_additional := bounded;
     crs_complete := match rest with [] => true | _ :: _ => false end |}.

Definition CapabilityRequestSet_iter (self : CapabilityRequestSet) : list CapabilityRequest :=
  crs_first self :: crs_additional self.

Definition CapabilityRequestSet_len (self : CapabilityRequestSet) : nat :=
  1 + length (crs_additional self).

Definition authority_matches (authority : AuthorityBody) (request : AuthorityRequest) : bool :=
  match authority, request with
  | AuthFile authority, ReqFile request => file_matches authority request
  | AuthHttpFetch authority, ReqHttpFetch request => http_fetch_matches authority request
  | AuthGitHub authority, ReqGitHub request => github_matches authority request
  | _, _ => false
  end.

Definition authority_body_below (child parent : AuthorityBody) : bool :=
  match child, parent with
  | AuthFile child, AuthFile parent => file_body_below child parent
  | AuthHttpFetch child, AuthHttpFetch parent => http_fetch_body_below child parent
  | AuthGitHub child, AuthGitHub parent => github_body_below child parent
  | _, _ => false
  end.

Definition capability_matches (capability : Capability) (request : CapabilityRequest) : bool :=
  TimeWindow_contains (cap_validity capability) (crq_time request)
  && authority_matches (cap_authority capability) (crq_authority request).

Definition weaker_than (child parent : Capability) : bool :=
  TimeWindow_is_subset_of (cap_validity child) (cap_validity parent)
  && authority_body_below (cap_authority child) (cap_authority parent).

(** ** The union of families *)

Definition AuthorityBody_wf (body : AuthorityBody) : Prop :=
  match body with
  | AuthFile a => family_wf a
  | AuthHttpFetch a => family_wf a
  | AuthGitHub a => family_wf a
  end.

#[export] Program Instance authority_family : AuthorityFamily AuthorityBody AuthorityRequest :=
  {| family_matches := authority_matches; family_below := authority_body_below;
     family_wf := AuthorityBody_wf |}.
Next Obligation. intros [a|a|a] Hwf; exact (family_below_refl a Hwf). Qed.
Next Obligation.
  intros [a|a|a] [b|b|b] [c|c|c] Hwf H1 H2; try done; exact (family_below_trans a b c Hwf H1 H2).
Qed.
Next Obligation.
  intros [a|a|a] [b|b|b] [r|r|r] Hb Hm; try done; exact (family_below_sound a b r Hb Hm).
Qed.

Lemma authority_body_below_refl body : AuthorityBody_wf body → authority_body_below body body = true.
Proof. apply (family_below_refl (AuthorityFamily := authority_family)). Qed.

Lemma authority_body_below_trans a b c :
  AuthorityBody_wf a → authority_body_below a b = true → authority_body_below b c = true →
  authority_body_below a c = true.
Proof. apply (family_below_trans (AuthorityFamily := authority_family)). Qed.

Lemma authority_body_below_sound child parent request :
  authority_body_below child parent = true → authority_matches child request = true →
  authority_matches parent request = true.
Proof. apply (family_below_sound (AuthorityFamily := authority_family)). Qed.

Lemma weaker_than_sound child parent request :
  weaker_than child parent = true → capability_matches child request = true →
  capability_matches parent request = true.
Proof.
  unfold weaker_than, capability_matches. intros Hw Hm. breflect. destruct_and!. split.
  - by eapply TimeWindow_subset_sound.
  - by eapply authority_body_below_sound.
Qed.

Lemma weaker_than_trans a b c :
  AuthorityBody_wf (cap_authority a) →
  weaker_than a b = true → weaker_than b c = true → weaker_than a c = true.
Proof.
  unfold weaker_than. intros Hwf H1 H2. breflect. destruct_and!. split.
  - by eapply TimeWindow_subset_trans.
  - by eapply authority_body_below_trans.
Qed.

(** A complete set holds every supplied request; an incomplete one dropped some. *)
Lemma CapabilityRequestSet_new_complete first additional :
  let set := CapabilityRequestSet_new first additional in
  CapabilityRequestSet_len set ≤ MAX_REQUESTS_PER_EFFECT ∧
  (crs_complete set = true ↔ CapabilityRequestSet_iter set = first :: additional).
Proof.
  unfold CapabilityRequestSet_new, CapabilityRequestSet_len, CapabilityRequestSet_iter. cbn [crs_additional crs_first crs_complete].
  unfold MAX_REQUESTS_PER_EFFECT. split; [rewrite length_take; lia|].
  pose proof (take_drop (16 - 1) additional) as Htd.
  destruct (drop (16 - 1) additional) as [|r rest] eqn:Hd.
  - rewrite app_nil_r in Htd. by rewrite Htd.
  - split; [done|]. intros Heq. injection Heq as Heq. change (16 - 1) with 15 in Htd. rewrite Heq in Htd. apply (f_equal length) in Htd.
    rewrite length_app in Htd. simpl in Htd. lia.
Qed.
