(* ===== verification/State.v ===== *)
(** * Sequential capability state ([crates/authority-core/src/state.rs])

    Subject registration and shutdown, handle registration, capability issuance,
    delegation and revocation.  Every [&mut self] method is a computation in
    [ST CapabilityState CapabilityStateError]; [BTreeMap] and [BTreeSet] are
    [gmap] and [gset].  The three [while]/[loop] bodies are fuelled; the fuel each
    caller supplies is proved sufficient in [StateInvariant]. *)

From S2P Require Import Prelude Bytes Time Capability.

Definition MAX_SUBJECTS_PER_SESSION : N := 1048576.
Definition MAX_CAPABILITIES_PER_SESSION : N := 1048576.
Definition MAX_HANDLES_PER_SESSION : N := 1048576.
Definition MAX_DELEGATION_DEPTH : N := 64.

(** ** Handles ([handle.rs]) *)

Abbreviation HandleId := str.
Abbreviation ObjectId := str.

Record OpenHandle := {
  oh_id : HandleId;
  oh_subject : SubjectId;
  oh_object : ObjectId;
}.

(** ** Subjects and grants *)

Record StaticAuthorityEnvelope := {
  env_validity : TimeWindow;
  env_authority : AuthorityBody;
}.

Definition StaticAuthorityEnvelope_contains (self : StaticAuthorityEnvelope)
    (validity : TimeWindow) (authority : AuthorityBody) : bool :=
  TimeWindow_is_subset_of validity (env_validity self)
  && authority_body_below authority (env_authority self).

Record Subject := {
  subj_id : SubjectId;
  subj_parent : option SubjectId;
  subj_envelope : StaticAuthorityEnvelope;
}.

Inductive SubjectStatus := Running | Closing | Closed.

#[export] Instance SubjectStatus_eq_dec : EqDecision SubjectStatus.
Proof. solve_decision. Defined.

Inductive SubjectCloseStatus := CloseStarted | CloseAlreadyClosing | CloseAlreadyClosed.
Inductive SubjectFinishStatus := FinishClosed | FinishAlreadyClosed.
Inductive HandleCloseStatus := HandleClosed | HandleAlreadyClosed.
Inductive RevocationStatus := NewlyRevoked | AlreadyRevoked.

Record CapabilityGrant := {
  grant_subject : SubjectId;
  grant_validity : TimeWindow;
  grant_authority : AuthorityBody;
  grant_delegable : bool;
}.

Inductive CapabilityStateError :=
  | DuplicateSubject (subject : SubjectId)
  | SubjectCountExceeded
  | UnknownParentSubject (subject : SubjectId)
  | UnknownSubject (subject : SubjectId)
  | SubjectNotRunning (subject : SubjectId)
  | SubjectNotClosing (subject : SubjectId)
  | SubjectHasOpenHandles (subject : SubjectId)
  | HandleIdAlreadyIssued (handle : HandleId)
  | HandleCountExceeded
  | UnknownHandle (handle : HandleId)
  | HandleNotOwned (caller : SubjectId) (handle : HandleId)
  | UnknownCapability (capability : CapId)
  | CapabilityNotHeld (caller : SubjectId) (capability : CapId)
  | InvalidCapabilityId (capability : CapId)
  | CapabilityIdAlreadyIssued (capability : CapId)
  | ParentNotHeld (caller : SubjectId) (parent : CapId)
  | ParentChainInactive (parent : CapId)
  | ParentNotDelegable (parent : CapId)
  | DelegationDepthExceeded (parent : CapId)
  | GrantExceedsParent (parent : CapId)
  | GrantExceedsEnvelope (subject : SubjectId)
  | CapabilityIdExhausted
  | CapabilityCountExceeded
  | AuthorizationEpochExhausted.

(** ** The state *)

Record CapabilityState := MkState {
  cs_issuer : IssuerId;
  cs_next_sequence : option N;
  cs_subjects : gmap SubjectId Subject;
  cs_statuses : gmap SubjectId SubjectStatus;
  cs_capabilities : gmap CapId Capability;
  cs_held : gmap SubjectId (gset CapId);
  cs_revoked : gset CapId;
  cs_issued_ids : gset CapId;
  cs_epoch : N;
  cs_open_handles : gmap HandleId OpenHandle;
  cs_handle_owners : gmap HandleId SubjectId;
}.

Definition CapabilityState_new (issuer : IssuerId) : CapabilityState :=
  MkState issuer (Some 0%N) ∅ ∅ ∅ ∅ ∅ ∅ 0 ∅ ∅.

(** Field assignments. *)
Definition set_next_sequence (next : option N) (s : CapabilityState) : CapabilityState :=
  MkState (cs_issuer s) next (cs_subjects s) (cs_statuses s) (cs_capabilities s) (cs_held s)
    (cs_revoked s) (cs_issued_ids s) (cs_epoch s) (cs_open_handles s) (cs_handle_owners s).
Definition set_subjects (m : gmap SubjectId Subject) (s : CapabilityState) : CapabilityState :=
  MkState (cs_issuer s) (cs_next_sequence s) m (cs_statuses s) (cs_capabilities s) (cs_held s)
    (cs_revoked s) (cs_issued_ids s) (cs_epoch s) (cs_open_handles s) (cs_handle_owners s).
Definition set_statuses (m : gmap SubjectId SubjectStatus) (s : CapabilityState) : CapabilityState :=
  MkState (cs_issuer s) (cs_next_sequence s) (cs_subjects s) m (cs_capabilities s) (cs_held s)
    (cs_revoked s) (cs_issued_ids s) (cs_epoch s) (cs_open_handles s) (cs_handle_owners s).
Definition set_capabilities (m : gmap CapId Capability) (s : CapabilityState) : CapabilityState :=
  MkState (cs_issuer s) (cs_next_sequence s) (cs_subjects s) (cs_statuses s) m (cs_held s)
    (cs_revoked s) (cs_issued_ids s) (cs_epoch s) (cs_open_handles s) (cs_handle_owners s).
Definition set_held (m : gmap SubjectId (gset CapId)) (s : CapabilityState) : CapabilityState :=
  MkState (cs_issuer s) (cs_next_sequence s) (cs_subjects s) (cs_statuses s) (cs_capabilities s) m
    (cs_revoked s) (cs_issued_ids s) (cs_epoch s) (cs_open_handles s) (cs_handle_owners s).
Definition set_revoked (r : gset CapId) (s : CapabilityState) : CapabilityState :=
  MkState (cs_issuer s) (cs_next_sequence s) (cs_subjects s) (cs_statuses s) (cs_capabilities s)
    (cs_held s) r (cs_issued_ids s) (cs_epoch s) (cs_open_handles s) (cs_handle_owners s).
Definition set_issued_ids (r : gset CapId) (s : CapabilityState) : CapabilityState :=
  MkState (cs_issuer s) (cs_next_sequence s) (cs_subjects s) (cs_statuses s) (cs_capabilities s)
    (cs_held s) (cs_revoked s) r (cs_epoch s) (cs_open_handles s) (cs_handle_owners s).
Definition set_epoch (e : N) (s : CapabilityState) : CapabilityState :=
  MkState (cs_issuer s) (cs_next_sequence s) (cs_subjects s) (cs_statuses s) (cs_capabilities s)
    (cs_held s) (cs_revoked s) (cs_issued_ids s) e (cs_open_handles s) (cs_handle_owners s).
Definition set_open_handles (m : gmap HandleId OpenHandle) (s : CapabilityState) : CapabilityState :=
  MkState (cs_issuer s) (cs_next_sequence s) (cs_subjects s) (cs_statuses s) (cs_capabilities s)
    (cs_held s) (cs_revoked s) (cs_issued_ids s) (cs_epoch s) m (cs_handle_owners s).
Definition set_handle_owners (m : gmap HandleId SubjectId) (s : CapabilityState) : CapabilityState :=
  MkState (cs_issuer s) (cs_next_sequence s) (cs_subjects s) (cs_statuses s) (cs_capabilities s)
    (cs_held s) (cs_revoked s) (cs_issued_ids s) (cs_epoch s) (cs_open_handles s) m.

Abbreviation SM := (ST CapabilityState CapabilityStateError).
Abbreviation Query A := (CapabilityState → result CapabilityStateError A).

(** ** Queries *)

Definition is_pristine (self : CapabilityState) : bool :=
  bool_decide (cs_next_sequence self = Some 0%N)
  && bool_decide (size (cs_subjects self) = 0)
  && bool_decide (size (cs_statuses self) = 0)
  && bool_decide (size (cs_capabilities self) = 0)
  && bool_decide (size (cs_held self) = 0)
  && bool_decide (size (cs_revoked self) = 0)
  && bool_decide (size (cs_issued_ids self) = 0)
  && (cs_epoch self =? 0)%N
  && bool_decide (size (cs_open_handles self) = 0)
  && bool_decide (size (cs_handle_owners self) = 0).

Definition subject_status (self : CapabilityState) (subject : SubjectId) : option SubjectStatus :=
  cs_statuses self !! subject.

Definition subject_open_handle_count (self : CapabilityState) (subject : SubjectId) : nat :=
  size (filter (λ '(_, handle), oh_subject handle = subject) (cs_open_handles self)).

Definition object_open_handle_count (self : CapabilityState) (object : ObjectId) : nat :=
  size (filter (λ '(_, handle), oh_object handle = object) (cs_open_handles self)).

Definition is_held_by (self : CapabilityState) (subject : SubjectId) (capability : CapId) : bool :=
  match cs_held self !! subject with
  | Some capabilities => bool_decide (capability ∈ capabilities)
  | None => false
  end.

Definition is_revoked (self : CapabilityState) (capability : CapId) : bool :=
  bool_decide (capability ∈ cs_revoked self).

(** The loop of [is_effectively_active]; [None] is fuel exhaustion. *)
Fixpoint active_walk (self : CapabilityState) (now : MonotonicTime) (fuel : nat)
    (visited : gset CapId) (current : option CapId) : option bool :=
  match current with
  | None => Some true
  | Some current_id =>
      match fuel with
      | O => None
      | S fuel =>
          if bool_decide (current_id ∈ visited) then Some false
          else match cs_capabilities self !! current_id with
          | None => Some false
          | Some current_capability =>
              if bool_decide (current_id ∈ cs_revoked self)
                 || negb (TimeWindow_contains (cap_validity current_capability) now)
              then Some false
              else active_walk self now fuel ({[current_id]} ∪ visited)
                     (cm_parent (cap_metadata current_capability))
          end
      end
  end.

Definition is_effectively_active (self : CapabilityState) (capability : CapId)
    (now : MonotonicTime) : bool :=
  default false (active_walk self now (S (size (cs_capabilities self))) ∅ (Some capability)).

Definition active_capability (self : CapabilityState) (caller : SubjectId)
    (capability_id : CapId) (now : MonotonicTime) : option Capability :=
  if negb (bool_decide (subject_status self caller = Some Running)) then None
  else
    capability ← cs_capabilities self !! capability_id;
    if bool_decide (cm_subject (cap_metadata capability) = caller)
       && is_held_by self caller capability_id
       && is_effectively_active self capability_id now
    then Some capability else None.

Definition authorizes (self : CapabilityState) (caller : SubjectId) (capability_id : CapId)
    (request : CapabilityRequest) : bool :=
  match active_capability self caller capability_id (crq_time request) with
  | Some capability => capability_matches capability request
  | None => false
  end.

(** The loop of [delegation_depth]; [None] is fuel exhaustion. *)
Fixpoint depth_walk (self : CapabilityState) (fuel : nat) (visited : gset CapId) (depth : N)
    (current : option CapId) : option N :=
  match current with
  | None => Some depth
  | Some current_id =>
      match fuel with
      | O => None
      | S fuel =>
          if bool_decide (current_id ∈ visited) then Some (MAX_DELEGATION_DEPTH + 1)%N
          else
            let depth := (depth + 1)%N in
            if (MAX_DELEGATION_DEPTH <? depth)%N then Some depth
            else depth_walk self fuel ({[current_id]} ∪ visited) depth
                   (cs_capabilities self !! current_id
                      ≫= λ value, cm_parent (cap_metadata value))
      end
  end.

Definition delegation_depth (self : CapabilityState) (capability : CapId) : N :=
  default (MAX_DELEGATION_DEPTH + 1)%N
    (depth_walk self (N.to_nat MAX_DELEGATION_DEPTH + 1) ∅ 0 (Some capability)).

(** ** Guards *)

Definition ensure_subject_running (subject : SubjectId) : Query unit := λ self,
  match subject_status self subject with
  | None => Err (UnknownSubject subject)
  | Some Running => Ok tt
  | Some (Closing | Closed) => Err (SubjectNotRunning subject)
  end.

Definition validate_envelope (grant : CapabilityGrant) : Query unit := λ self,
  _ ← ensure_subject_running (grant_subject grant) self;
  subject ← ok_or (cs_subjects self !! grant_subject grant) (UnknownSubject (grant_subject grant));
  if StaticAuthorityEnvelope_contains (subj_envelope subject)
       (grant_validity grant) (grant_authority grant)
  then Ok tt else Err (GrantExceedsEnvelope (grant_subject grant)).

Definition next_authorization_epoch : Query N := λ self,
  ok_or (checked_add_u64 (cs_epoch self) 1) AuthorizationEpochExhausted.

Definition validate_capability_id (capability_id : CapId) : result CapabilityStateError unit :=
  if bool_decide (capability_id = []) then Err (InvalidCapabilityId capability_id) else Ok tt.

Definition ensure_capability_capacity : Query unit := λ self,
  if (MAX_CAPABILITIES_PER_SESSION <=? N.of_nat (size (cs_issued_ids self)))%N
  then Err CapabilityCountExceeded else Ok tt.

(** ** Capability identities *)

(** [format!("{}:{sequence}", self.issuer)]. *)
Definition sequential_id (issuer : IssuerId) (sequence : N) : CapId :=
  issuer ++ lit ":" ++ decimal sequence.

(** The probing loop of [allocate_capability_id]: the outcome and the new value
    of [next_capability_sequence]; [None] is fuel exhaustion. *)
Fixpoint allocate_loop (issuer : IssuerId) (issued : gset CapId) (fuel : nat) (sequence : N)
    : option (result CapabilityStateError CapId * option N) :=
  match fuel with
  | O => None
  | S fuel =>
      let next_sequence := checked_add_u64 sequence 1 in
      let capability_id := sequential_id issuer sequence in
      if negb (bool_decide (capability_id ∈ issued)) then Some (Ok capability_id, next_sequence)
      else match next_sequence with
      | Some next => allocate_loop issuer issued fuel next
      | None => Some (Err CapabilityIdExhausted, None)
      end
  end.

Definition allocate_capability_id : SM CapId := λ self,
  match cs_next_sequence self with
  | None => (Err CapabilityIdExhausted, self)
  | Some sequence =>
      match allocate_loop (cs_issuer self) (cs_issued_ids self)
              (S (size (cs_issued_ids self))) sequence with
      | Some (outcome, next) => (outcome, set_next_sequence next self)
      | None => (Err CapabilityIdExhausted, self)
      end
  end.

Definition issue_with_id (grant : CapabilityGrant) (parent : option CapId) (capability_id : CapId)
    : SM CapId := λ self,
  let metadata :=
    CapabilityMetadata_with_delegable
      (CapabilityMetadata_new capability_id (grant_subject grant) (cs_issuer self))
      (grant_delegable grant) in
  let metadata :=
    match parent with
    | Some parent => CapabilityMetadata_with_parent metadata parent
    | None => metadata
    end in
  let capability :=
    {| cap_metadata := metadata; cap_validity := grant_validity grant;
       cap_authority := grant_authority grant |} in
  let subject_id := cm_subject (cap_metadata capability) in
  let self := set_issued_ids ({[capability_id]} ∪ cs_issued_ids self) self in
  let entry := default ∅ (cs_held self !! subject_id) in
  let self := set_held (<[subject_id := {[capability_id]} ∪ entry]> (cs_held self)) self in
  let self := set_capabilities (<[capability_id := capability]> (cs_capabilities self)) self in
  (Ok capability_id, self).

Definition issue (grant : CapabilityGrant) (parent : option CapId) : SM CapId :=
  _ ← st_query ensure_capability_capacity;
  capability_id ← allocate_capability_id;
  issue_with_id grant parent capability_id.

(** ** Transitions *)

Definition register_subject (subject : Subject) : SM unit :=
  self ← st_get;
  if bool_decide (is_Some (cs_subjects self !! subj_id subject))
  then st_fail (DuplicateSubject (subj_id subject))
  else
    _ ← match subj_parent subject with
        | Some parent =>
            if bool_decide (is_Some (cs_subjects self !! parent)) then mret tt
            else st_fail (UnknownParentSubject parent)
        | None => mret tt
        end;
    _ ← match subj_parent subject with
        | Some parent => st_query (ensure_subject_running parent)
        | None => mret tt
        end;
    if (MAX_SUBJECTS_PER_SESSION <=? N.of_nat (size (cs_subjects self)))%N
    then st_fail SubjectCountExceeded
    else
      let subject_id := subj_id subject in
      _ ← st_modify (λ self, set_held (<[subject_id := ∅]> (cs_held self)) self);
      _ ← st_modify (λ self, set_statuses (<[subject_id := Running]> (cs_statuses self)) self);
      st_modify (λ self, set_subjects (<[subject_id := subject]> (cs_subjects self)) self).

Definition register_open_handle (handle : OpenHandle) : SM unit :=
  _ ← st_query (ensure_subject_running (oh_subject handle));
  self ← st_get;
  if bool_decide (is_Some (cs_handle_owners self !! oh_id handle))
  then st_fail (HandleIdAlreadyIssued (oh_id handle))
  else if (MAX_HANDLES_PER_SESSION <=? N.of_nat (size (cs_handle_owners self)))%N
  then st_fail HandleCountExceeded
  else
    _ ← st_modify (λ self,
          set_handle_owners (<[oh_id handle := oh_subject handle]> (cs_handle_owners self)) self);
    st_modify (λ self, set_open_handles (<[oh_id handle := handle]> (cs_open_handles self)) self).

Definition close_handle (caller : SubjectId) (handle : HandleId) : SM HandleCloseStatus :=
  self ← st_get;
  match cs_handle_owners self !! handle with
  | None => st_fail (UnknownHandle handle)
  | Some owner =>
      if negb (bool_decide (owner = caller)) then st_fail (HandleNotOwned caller handle)
      else match cs_open_handles self !! handle with
      | Some _ =>
          _ ← st_modify (λ self, set_open_handles (delete handle (cs_open_handles self)) self);
          mret HandleClosed
      | None => mret HandleAlreadyClosed
      end
  end.

Definition issue_root (grant : CapabilityGrant) : SM CapId :=
  _ ← st_query (validate_envelope grant);
  issue grant None.

Definition issue_root_with_id (capability_id : CapId) (grant : CapabilityGrant) : SM CapId :=
  _ ← st_query (validate_envelope grant);
  _ ← st_query (λ _, validate_capability_id capability_id);
  self ← st_get;
  if bool_decide (capability_id ∈ cs_issued_ids self)
  then st_fail (CapabilityIdAlreadyIssued capability_id)
  else
    _ ← st_query ensure_capability_capacity;
    issue_with_id grant None capability_id.

Definition derive (caller : SubjectId) (parent_id : CapId) (grant : CapabilityGrant)
    (now : MonotonicTime) : SM CapId :=
  _ ← st_query (ensure_subject_running caller);
  self ← st_get;
  parent ← st_query (λ self, ok_or (cs_capabilities self !! parent_id) (UnknownCapability parent_id));
  if negb (bool_decide (cm_subject (cap_metadata parent) = caller))
     || negb (is_held_by self caller parent_id)
  then st_fail (ParentNotHeld caller parent_id)
  else if negb (is_effectively_active self parent_id now)
  then st_fail (ParentChainInactive parent_id)
  else if negb (cm_delegable (cap_metadata parent))
  then st_fail (ParentNotDelegable parent_id)
  else if negb (TimeWindow_is_subset_of (grant_validity grant) (cap_validity parent))
          || negb (authority_body_below (grant_authority grant) (cap_authority parent))
  then st_fail (GrantExceedsParent parent_id)
  else if (MAX_DELEGATION_DEPTH <=? delegation_depth self parent_id)%N
  then st_fail (DelegationDepthExceeded parent_id)
  else
    _ ← st_query (validate_envelope grant);
    issue grant (Some parent_id).

Definition revoke_existing (capability : CapId) : SM RevocationStatus :=
  self ← st_get;
  if bool_decide (capability ∈ cs_revoked self) then mret AlreadyRevoked
  else
    next_epoch ← st_query next_authorization_epoch;
    _ ← st_modify (λ self, set_revoked ({[capability]} ∪ cs_revoked self) self);
    _ ← st_modify (set_epoch next_epoch);
    mret NewlyRevoked.

Definition revoke (capability : CapId) : SM RevocationStatus :=
  self ← st_get;
  if bool_decide (is_Some (cs_capabilities self !! capability)) then revoke_existing capability
  else st_fail (UnknownCapability capability).

Definition revoke_held_by (caller : SubjectId) (capability : CapId) : SM RevocationStatus :=
  self ← st_get;
  if bool_decide (is_Some (cs_capabilities self !! capability)) then
    if is_held_by self caller capability then revoke_existing capability
    else st_fail (CapabilityNotHeld caller capability)
  else st_fail (UnknownCapability capability).

Definition begin_subject_close (subject : SubjectId) : SM SubjectCloseStatus :=
  self ← st_get;
  match subject_status self subject with
  | None => st_fail (UnknownSubject subject)
  | Some Closing => mret CloseAlreadyClosing
  | Some Closed => mret CloseAlreadyClosed
  | Some Running =>
      next_epoch ← st_query next_authorization_epoch;
      _ ← match cs_held self !! subject with
          | Some capabilities =>
              st_modify (λ self, set_revoked (cs_revoked self ∪ capabilities) self)
          | None => mret tt
          end;
      _ ← st_modify (λ self, set_statuses (<[subject := Closing]> (cs_statuses self)) self);
      _ ← st_modify (set_epoch next_epoch);
      mret CloseStarted
  end.

Definition finish_subject_close (subject : SubjectId) : SM SubjectFinishStatus :=
  self ← st_get;
  match subject_status self subject with
  | None => st_fail (UnknownSubject subject)
  | Some Running => st_fail (SubjectNotClosing subject)
  | Some Closing =>
      if negb (bool_decide (subject_open_handle_count self subject = 0))
      then st_fail (SubjectHasOpenHandles subject)
      else
        _ ← st_modify (λ self, set_statuses (<[subject := Closed]> (cs_statuses self)) self);
        mret FinishClosed
  | Some Closed => mret FinishAlreadyClosed
  end.

(** ** Sequences of transitions

    One [state_op] is one call of a public method; [run_op] is the state it
    leaves, whether the call succeeds or fails. *)

Inductive state_op :=
  | OpRegisterSubject (subject : Subject)
  | OpRegisterOpenHandle (handle : OpenHandle)
  | OpCloseHandle (caller : SubjectId) (handle : HandleId)
  | OpIssueRoot (grant : CapabilityGrant)
  | OpIssueRootWithId (capability_id : CapId) (grant : CapabilityGrant)
  | OpDerive (caller : SubjectId) (parent : CapId) (grant : CapabilityGrant) (now : MonotonicTime)
  | OpRevoke (capability : CapId)
  | OpRevokeHeldBy (caller : SubjectId) (capability : CapId)
  | OpBeginSubjectClose (subject : SubjectId)
  | OpFinishSubjectClose (subject : SubjectId).

Definition run_op (op : state_op) (self : CapabilityState) : CapabilityState :=
  match op with
  | OpRegisterSubject subject => (register_subject subject self).2
  | OpRegisterOpenHandle handle => (register_open_handle handle self).2
  | OpCloseHandle caller handle => (close_handle caller handle self).2
  | OpIssueRoot grant => (issue_root grant self).2
  | OpIssueRootWithId id grant => (issue_root_with_id id grant self).2
  | OpDerive caller parent grant now => (derive caller parent grant now self).2
  | OpRevoke capability => (revoke capability self).2
  | OpRevokeHeldBy caller capability => (revoke_held_by caller capability self).2
  | OpBeginSubjectClose subject => (begin_subject_close subject self).2
  | OpFinishSubjectClose subject => (finish_subject_close subject self).2
  end.

Definition err_of {E A S} (outcome : result E A * S) : option E :=
  match outcome.1 with Ok _ => None | Err e => Some e end.

(** The error the call returns, if it fails. *)
Definition op_error (op : state_op) (self : CapabilityState) : option CapabilityStateError :=
  match op with
  | OpRegisterSubject subject => err_of (register_subject subject self)
  | OpRegisterOpenHandle handle => err_of (register_open_handle handle self)
  | OpCloseHandle caller handle => err_of (close_handle caller handle self)
  | OpIssueRoot grant => err_of (issue_root grant self)
  | OpIssueRootWithId id grant => err_of (issue_root_with_id id grant self)
  | OpDerive caller parent grant now => err_of (derive caller parent grant now self)
  | OpRevoke capability => err_of (revoke capability self)
  | OpRevokeHeldBy caller capability => err_of (revoke_held_by caller capability self)
  | OpBeginSubjectClose subject => err_of (begin_subject_close subject self)
  | OpFinishSubjectClose subject => err_of (finish_subject_close subject self)
  end.

Definition run_ops (ops : list state_op) (self : CapabilityState) : CapabilityState :=
  foldl (λ s op, run_op op s) self ops.

(** States of one session, from its constructor. *)
Definition reachable (self : CapabilityState) : Prop :=
  ∃ issuer ops, self = run_ops ops (CapabilityState_new issuer).
