(* ===== verification/StateInvariant.v ===== *)
(** * The capability state machine: abstract transitions, invariant, walks

    [transition] lists the atomic state changes a session can make, each with the
    guard that admits it; [run_op_transition] shows that every public method of
    [State] performs exactly one of them (a failing call performs [T_same] or,
    when the identity space is spent, [T_exhaust]).  [state_inv] is the session
    invariant, preserved by every transition.  Under it the ancestor walks of
    [is_effectively_active] and [delegation_depth] compute over the unique
    delegation chain of a capability. *)

From S2P Require Import Prelude Bytes Time Capability State.

(** ** Delegation chains *)

(** [ancestry caps id l]: [l] is [id] followed by its ancestors up to a root. *)
Inductive ancestry (caps : gmap CapId Capability) : CapId → list CapId → Prop :=
  | ancestry_root id c :
      caps !! id = Some c → cm_parent (cap_metadata c) = None → ancestry caps id [id]
  | ancestry_step id c p l :
      caps !! id = Some c → cm_parent (cap_metadata c) = Some p → ancestry caps p l →
      ancestry caps id (id :: l).

Lemma ancestry_det caps id l1 l2 : ancestry caps id l1 → ancestry caps id l2 → l1 = l2.
Proof.
  intros H1. revert l2. induction H1 as [id c Hc Hp|id c p l Hc Hp _ IH]; intros l2 H2;
    inversion H2; simplify_eq; [done|]. f_equal. by apply IH.
Qed.

Lemma ancestry_head caps id l : ancestry caps id l → ∃ l', l = id :: l'.
Proof. destruct 1; eauto. Qed.

Lemma ancestry_elem caps id l x : ancestry caps id l → x ∈ l → ∃ l1 l2, l = l1 ++ l2 ∧ ancestry caps x l2.
Proof.
  intros H Hx. induction H as [id c Hc Hp|id c p l Hc Hp Ha IH].
  - apply list_elem_of_singleton in Hx as ->. exists [], [id]. split; [done|by econstructor].
  - apply elem_of_cons in Hx as [-> |Hx].
    + exists [], (id :: l). split; [done|by econstructor].
    + destruct (IH Hx) as (l1 & l2 & -> & Hl2). exists (id :: l1), l2. done.
Qed.

Lemma ancestry_NoDup caps id l : ancestry caps id l → NoDup l.
Proof.
  induction 1 as [id c Hc Hp|id c p l Hc Hp Ha IH]; [by apply NoDup_singleton|].
  apply NoDup_cons. split; [|done]. intros Hin.
  destruct (ancestry_elem _ _ _ _ Ha Hin) as (l1 & l2 & -> & Hl2).
  assert (ancestry caps id (id :: l1 ++ l2)) as Hid by (by econstructor).
  pose proof (ancestry_det _ _ _ _ Hl2 Hid) as Heq. apply (f_equal length) in Heq.
  simpl in Heq. rewrite length_app in Heq. lia.
Qed.

Lemma ancestry_dom caps id l x : ancestry caps id l → x ∈ l → x ∈ dom caps.
Proof.
  intros Ha Hx. destruct (ancestry_elem _ _ _ _ Ha Hx) as (_ & l2 & _ & Hl2).
  apply elem_of_dom. inversion Hl2; eauto.
Qed.

Lemma ancestry_length caps id l : ancestry caps id l → length l ≤ size caps.
Proof.
  intros Ha. rewrite <- size_dom. rewrite <- (size_list_to_set (C := gset CapId) l)
    by (by eapply ancestry_NoDup).
  apply subseteq_size. intros x. rewrite elem_of_list_to_set. by eapply ancestry_dom.
Qed.

Lemma ancestry_mono caps caps' id l : caps ⊆ caps' → ancestry caps id l → ancestry caps' id l.
Proof.
  intros Hsub. induction 1; [eapply ancestry_root|eapply ancestry_step]; eauto using lookup_weaken.
Qed.

(** ** The loops terminate on every state, corrupt ones included *)

Lemma active_walk_total self now fuel visited current :
  visited ⊆ dom (cs_capabilities self) →
  size (cs_capabilities self) < fuel + size visited →
  active_walk self now fuel visited current ≠ None.
Proof.
  revert visited current. induction fuel as [|fuel IH]; intros visited [id|] Hsub Hsz; simpl; try done.
  { apply subseteq_size in Hsub. rewrite size_dom in Hsub. lia. }
  case_bool_decide as Hv; [done|].
  destruct (cs_capabilities self !! id) as [c|] eqn:Hc; [|done].
  case_match; [done|]. apply IH.
  - apply elem_of_dom_2 in Hc. set_solver.
  - rewrite size_union, size_singleton by set_solver. lia.
Qed.

Lemma depth_walk_total self fuel visited depth current :
  (MAX_DELEGATION_DEPTH < N.of_nat fuel + depth)%N → (depth <= MAX_DELEGATION_DEPTH)%N →
  depth_walk self fuel visited depth current ≠ None.
Proof.
  revert visited depth current.
  induction fuel as [|fuel IH]; intros visited depth [id|] Hf Hd; simpl; try done; [lia|].
  case_bool_decide; [done|]. destruct (N.ltb_spec MAX_DELEGATION_DEPTH (depth + 1)); [done|].
  apply IH; lia.
Qed.

Lemma sequential_id_inj issuer n m : sequential_id issuer n = sequential_id issuer m → n = m.
Proof. unfold sequential_id. intros H. simplify_list_eq. by apply decimal_inj. Qed.

(** Every probe that continues consumes one already issued identity. *)
Lemma allocate_loop_total issuer issued fuel sequence used :
  used ⊆ issued → size issued < fuel + size used →
  (∀ m, sequential_id issuer m ∈ used → (m < sequence)%N) →
  allocate_loop issuer issued fuel sequence ≠ None.
Proof.
  revert sequence used. induction fuel as [|fuel IH]; intros sequence used Hsub Hsz Hlt; simpl.
  { apply subseteq_size in Hsub. lia. }
  case_bool_decide as Hin; simpl; [|done].
  destruct (checked_add_u64 sequence 1) as [next|] eqn:Hn; [|done].
  apply checked_add_u64_Some in Hn as [-> _].
  assert (sequential_id issuer sequence ∉ used) as Hnew by (intros H; apply Hlt in H; lia).
  apply (IH _ ({[sequential_id issuer sequence]} ∪ used)).
  - set_solver.
  - rewrite size_union, size_singleton by set_solver. lia.
  - intros m [Hm%elem_of_singleton|Hm]%elem_of_union.
    + apply sequential_id_inj in Hm as ->. lia.
    + apply Hlt in Hm. lia.
Qed.

Lemma allocate_loop_fuel issuer issued sequence :
  allocate_loop issuer issued (S (size issued)) sequence ≠ None.
Proof. apply (allocate_loop_total _ _ _ _ ∅); [set_solver|rewrite size_empty; lia|set_solver]. Qed.

(** ** Abstract transitions *)

(** What a derivation establishes about the parent of a new capability. *)
Definition derivable (self : CapabilityState) (grant : CapabilityGrant) (parent : CapId) : Prop :=
  ∃ pc now, cs_capabilities self !! parent = Some pc ∧
    cm_delegable (cap_metadata pc) = true ∧
    is_effectively_active self parent now = true ∧
    is_held_by self (cm_subject (cap_metadata pc)) parent = true ∧
    subject_status self (cm_subject (cap_metadata pc)) = Some Running ∧
    TimeWindow_is_subset_of (grant_validity grant) (cap_validity pc) = true ∧
    authority_body_below (grant_authority grant) (cap_authority pc) = true ∧
    (delegation_depth self parent < MAX_DELEGATION_DEPTH)%N.

(** The capability record that [issue_with_id] stores. *)
Definition issued_capability (self : CapabilityState) (grant : CapabilityGrant)
    (parent : option CapId) (id : CapId) : Capability :=
  {| cap_metadata := {| cm_id := id; cm_subject := grant_subject grant;
                        cm_issuer := cs_issuer self; cm_parent := parent;
                        cm_delegable := grant_delegable grant |};
     cap_validity := grant_validity grant;
     cap_authority := grant_authority grant |}.

Inductive transition (self : CapabilityState) : CapabilityState → Prop :=
  | T_same : transition self self
  | T_exhaust : transition self (set_next_sequence None self)
  | T_register subject :
      cs_subjects self !! subj_id subject = None →
      (∀ parent, subj_parent subject = Some parent →
        is_Some (cs_subjects self !! parent) ∧ subject_status self parent = Some Running) →
      (N.of_nat (size (cs_subjects self)) < MAX_SUBJECTS_PER_SESSION)%N →
      transition self
        (set_subjects (<[subj_id subject := subject]> (cs_subjects self))
          (set_statuses (<[subj_id subject := Running]> (cs_statuses self))
            (set_held (<[subj_id subject := ∅]> (cs_held self)) self)))
  | T_open_handle handle :
      subject_status self (oh_subject handle) = Some Running →
      cs_handle_owners self !! oh_id handle = None →
      (N.of_nat (size (cs_handle_owners self)) < MAX_HANDLES_PER_SESSION)%N →
      transition self
        (set_open_handles (<[oh_id handle := handle]> (cs_open_handles self))
          (set_handle_owners (<[oh_id handle := oh_subject handle]> (cs_handle_owners self)) self))
  | T_close_handle caller handle :
      cs_handle_owners self !! handle = Some caller →
      transition self (set_open_handles (delete handle (cs_open_handles self)) self)
  | T_issue grant parent id next subject :
      subject_status self (grant_subject grant) = Some Running →
      cs_subjects self !! grant_subject grant = Some subject →
      StaticAuthorityEnvelope_contains (subj_envelope subject)
        (grant_validity grant) (grant_authority grant) = true →
      id ∉ cs_issued_ids self →
      next = cs_next_sequence self ∨ (∀ n, next = Some n → (n < u64_limit)%N) →
      (N.of_nat (size (cs_issued_ids self)) < MAX_CAPABILITIES_PER_SESSION)%N →
      (∀ p, parent = Some p → derivable self grant p) →
      transition self
        (set_capabilities (<[id := issued_capability self grant parent id]> (cs_capabilities self))
          (set_held (<[grant_subject grant :=
                       {[id]} ∪ default ∅ (cs_held self !! grant_subject grant)]> (cs_held self))
            (set_issued_ids ({[id]} ∪ cs_issued_ids self) (set_next_sequence next self))))
  | T_revoke id epoch :
      is_Some (cs_capabilities self !! id) → id ∉ cs_revoked self →
      checked_add_u64 (cs_epoch self) 1 = Some epoch →
      transition self (set_epoch epoch (set_revoked ({[id]} ∪ cs_revoked self) self))
  | T_begin_close subject epoch :
      subject_status self subject = Some Running →
      checked_add_u64 (cs_epoch self) 1 = Some epoch →
      transition self
        (set_epoch epoch
          (set_statuses (<[subject := Closing]> (cs_statuses self))
            (set_revoked (cs_revoked self ∪ default ∅ (cs_held self !! subject)) self)))
  | T_finish_close subject :
      subject_status self subject = Some Closing →
      subject_open_handle_count self subject = 0 →
      transition self (set_statuses (<[subject := Closed]> (cs_statuses self)) self).

Lemma ensure_subject_running_ok subject self r :
  ensure_subject_running subject self = Ok r ↔ subject_status self subject = Some Running.
Proof. unfold ensure_subject_running. destruct r. repeat case_match; naive_solver. Qed.

Lemma validate_envelope_ok grant self r :
  validate_envelope grant self = Ok r →
  subject_status self (grant_subject grant) = Some Running ∧
  ∃ subject, cs_subjects self !! grant_subject grant = Some subject ∧
    StaticAuthorityEnvelope_contains (subj_envelope subject)
      (grant_validity grant) (grant_authority grant) = true.
Proof.
  unfold validate_envelope. destruct (ensure_subject_running _ _) as [[]|] eqn:Hr; simpl; [|done].
  apply ensure_subject_running_ok in Hr. destruct (cs_subjects self !! _) as [s|]; simpl; [|done].
  destruct (StaticAuthorityEnvelope_contains _ _ _) eqn:He; naive_solver.
Qed.

Lemma issue_with_id_state grant parent id self :
  issue_with_id grant parent id self =
  (Ok id,
   set_capabilities (<[id := issued_capability self grant parent id]> (cs_capabilities self))
     (set_held (<[grant_subject grant :=
                  {[id]} ∪ default ∅ (cs_held self !! grant_subject grant)]> (cs_held self))
       (set_issued_ids ({[id]} ∪ cs_issued_ids self) self))).
Proof. by destruct parent. Qed.

Lemma set_next_sequence_id self : set_next_sequence (cs_next_sequence self) self = self.
Proof. by destruct self. Qed.

Lemma ensure_capability_capacity_ok self r :
  ensure_capability_capacity self = Ok r →
  (N.of_nat (size (cs_issued_ids self)) < MAX_CAPABILITIES_PER_SESSION)%N.
Proof. unfold ensure_capability_capacity. destruct (N.leb_spec MAX_CAPABILITIES_PER_SESSION
  (N.of_nat (size (cs_issued_ids self)))); [done|lia]. Qed.

(** A returned identity is fresh and the cursor stays within [u64]. *)
Lemma allocate_loop_ok_fresh issuer issued fuel sequence id next :
  allocate_loop issuer issued fuel sequence = Some (Ok id, next) →
  (id ∉ issued) ∧ (∀ n, next = Some n → (n < u64_limit)%N).
Proof.
  revert sequence. induction fuel as [|fuel IH]; intros sequence; simpl; [done|].
  case_bool_decide; simpl; [case_match; naive_solver|]. intros [= <- <-]. split; [done|].
  intros n Hn. by apply checked_add_u64_Some in Hn as [-> ?].
Qed.

Lemma allocate_loop_err issuer issued fuel sequence e next :
  allocate_loop issuer issued fuel sequence = Some (Err e, next) → next = None.
Proof.
  revert sequence. induction fuel as [|fuel IH]; intros sequence; simpl; [done|].
  case_bool_decide; simpl; [|naive_solver]. case_match; naive_solver.
Qed.

Lemma issue_transition grant parent self subject :
  subject_status self (grant_subject grant) = Some Running →
  cs_subjects self !! grant_subject grant = Some subject →
  StaticAuthorityEnvelope_contains (subj_envelope subject)
    (grant_validity grant) (grant_authority grant) = true →
  (∀ p, parent = Some p → derivable self grant p) →
  transition self (issue grant parent self).2.
Proof.
  intros Hrun Hsub Henv Hpar. unfold issue. unfold_st.
  destruct (ensure_capability_capacity self) as [[]|] eqn:Hcap; [|constructor].
  apply ensure_capability_capacity_ok in Hcap. unfold allocate_capability_id.
  destruct (cs_next_sequence self) as [seq|] eqn:Hseq; [|constructor].
  destruct (allocate_loop _ _ _ _) as [[[id|e] next]|] eqn:Hl; [| |constructor].
  - rewrite issue_with_id_state. simpl. apply allocate_loop_ok_fresh in Hl as [Hfresh Hnext].
    exact (T_issue self grant parent id next subject Hrun Hsub Henv Hfresh (or_intror Hnext) Hcap Hpar).
  - apply allocate_loop_err in Hl as ->. simpl. constructor.
Qed.

Lemma revoke_existing_transition id self :
  is_Some (cs_capabilities self !! id) → transition self (revoke_existing id self).2.
Proof.
  intros Hid. unfold revoke_existing. unfold_st. case_bool_decide; [constructor|].
  unfold next_authorization_epoch. destruct (checked_add_u64 _ _) as [e|] eqn:He; simpl; [|constructor].
  by apply T_revoke.
Qed.

Lemma register_subject_transition subject self : transition self (register_subject subject self).2.
Proof.
  unfold register_subject. unfold_st. case_bool_decide as Hd; [constructor|].
  rewrite <- eq_None_not_Some in Hd.
  set (guard1 := match subj_parent subject with Some _ => _ | None => _ end).
  set (guard2 := match subj_parent subject with Some _ => _ | None => _ end).
  assert (guard1 self = (Ok tt, self) ∧ guard2 self = (Ok tt, self) →
    ∀ parent, subj_parent subject = Some parent →
      is_Some (cs_subjects self !! parent) ∧ subject_status self parent = Some Running) as Hpar.
  { intros [H1 H2] parent Hp. unfold guard1, guard2 in *. rewrite Hp in *.
    case_bool_decide; [|done]. split; [done|]. injection H2 as H2.
    by apply ensure_subject_running_ok in H2. }
  assert (∃ r, guard1 self = (r, self)) as [r1 H1]
    by (unfold guard1; repeat case_match; eauto).
  assert (∃ r, guard2 self = (r, self)) as [r2 H2]
    by (unfold guard2; repeat case_match; eauto).
  rewrite H1. destruct r1 as [[]|]; [|constructor]. rewrite H2. destruct r2 as [[]|]; [|constructor].
  destruct (N.leb_spec MAX_SUBJECTS_PER_SESSION (N.of_nat (size (cs_subjects self)))); [constructor|].
  by apply T_register; [| apply Hpar|].
Qed.

Lemma register_open_handle_transition handle self :
  transition self (register_open_handle handle self).2.
Proof.
  unfold register_open_handle. unfold_st.
  destruct (ensure_subject_running _ _) as [[]|] eqn:Hr; [|constructor].
  apply ensure_subject_running_ok in Hr. case_bool_decide as Hd; [constructor|].
  rewrite <- eq_None_not_Some in Hd.
  destruct (N.leb_spec MAX_HANDLES_PER_SESSION (N.of_nat (size (cs_handle_owners self))));
    [constructor|]. by apply T_open_handle.
Qed.

Lemma close_handle_transition caller handle self : transition self (close_handle caller handle self).2.
Proof.
  unfold close_handle. unfold_st. destruct (cs_handle_owners self !! handle) as [o|] eqn:Ho; [|constructor].
  case_bool_decide; simpl; [subst o|constructor].
  destruct (cs_open_handles self !! handle); [|constructor]. by eapply T_close_handle.
Qed.

Lemma derive_transition caller parent grant now self :
  transition self (derive caller parent grant now self).2.
Proof.
  unfold derive. unfold_st.
  destruct (ensure_subject_running _ _) as [[]|] eqn:Hr; [|constructor].
  apply ensure_subject_running_ok in Hr.
  destruct (cs_capabilities self !! parent) as [pc|] eqn:Hpc; [simpl|constructor].
  repeat (case_match; [constructor|]). breflect. destruct_and!. subst caller.
  destruct (validate_envelope grant self) as [[]|] eqn:Hv; [|constructor].
  apply validate_envelope_ok in Hv as (Hrun & subject & Hsub & Henv).
  eapply issue_transition; [done..|]. intros p [= <-]. exists pc, now. by split_and!.
Qed.

(** Every public method performs one abstract transition. *)
Lemma run_op_transition op self : transition self (run_op op self).
Proof.
  destruct op as [subject|handle|caller handle|grant|id grant|caller parent grant now|id|caller id|
                  subject|subject]; simpl.
  - apply register_subject_transition.
  - apply register_open_handle_transition.
  - apply close_handle_transition.
  - unfold issue_root. unfold_st. destruct (validate_envelope grant self) as [[]|] eqn:Hv; [|constructor].
    apply validate_envelope_ok in Hv as (Hrun & subject & Hsub & Henv).
    by eapply issue_transition.
  - unfold issue_root_with_id. unfold_st.
    destruct (validate_envelope grant self) as [[]|] eqn:Hv; [|constructor].
    apply validate_envelope_ok in Hv as (Hrun & subject & Hsub & Henv).
    destruct (validate_capability_id id) as [[]|]; [|constructor].
    case_bool_decide as Hid; [constructor|].
    destruct (ensure_capability_capacity self) as [[]|] eqn:Hcap; [|constructor].
    apply ensure_capability_capacity_ok in Hcap. rewrite issue_with_id_state. simpl.
    pose proof (T_issue self grant None id (cs_next_sequence self) subject Hrun Hsub Henv Hid
      (or_introl eq_refl) Hcap) as HT.
    rewrite set_next_sequence_id in HT. by apply HT.
  - apply derive_transition.
  - unfold revoke. unfold_st. case_bool_decide; [|constructor]. by apply revoke_existing_transition.
  - unfold revoke_held_by. unfold_st. case_bool_decide; [|constructor].
    case_match; [|constructor]. by apply revoke_existing_transition.
  - unfold begin_subject_close. unfold_st. destruct (subject_status self subject) as [[]|] eqn:Hs;
      try constructor. unfold next_authorization_epoch.
    destruct (checked_add_u64 _ _) as [e|] eqn:He; simpl; [|constructor].
    pose proof (T_begin_close self subject e Hs He) as HT.
    destruct (cs_held self !! subject); simpl in *; [done|].
    rewrite (right_id_L ∅ (∪)) in HT. by destruct self.
  - unfold finish_subject_close. unfold_st. destruct (subject_status self subject) as [[]|] eqn:Hs;
      try constructor. case_bool_decide; simpl; constructor; done.
Qed.

(** ** The ancestor walks compute over the delegation chain *)

(** One capability is unrevoked and inside its validity window. *)
Definition live (self : CapabilityState) (now : MonotonicTime) (id : CapId) : bool :=
  match cs_capabilities self !! id with
  | Some c => negb (bool_decide (id ∈ cs_revoked self)) && TimeWindow_contains (cap_validity c) now
  | None => false
  end.

Lemma active_walk_spec self now fuel visited id l :
  ancestry (cs_capabilities self) id l → length l ≤ fuel → (∀ x, x ∈ l → x ∉ visited) →
  active_walk self now fuel visited (Some id) = Some (forallb (live self now) l).
Proof.
  intros Ha. revert fuel visited.
  induction Ha as [id c Hc Hp|id c p l Hc Hp Ha IH]; intros [|fuel] visited Hf Hv; simpl in Hf; try lia.
  - simpl. rewrite bool_decide_eq_false_2 by set_solver. unfold live. rewrite Hc, Hp.
    destruct (bool_decide _), (TimeWindow_contains _ _); simpl; by destruct fuel.
  - simpl. rewrite bool_decide_eq_false_2 by set_solver. unfold live at 1. rewrite Hc, Hp.
    destruct (bool_decide (id ∈ cs_revoked self)); simpl; [done|].
    destruct (TimeWindow_contains _ _); simpl; [|done]. apply IH; [lia|].
    intros x Hx. assert (x ≠ id); [|set_solver]. intros ->.
    assert (NoDup (id :: l)) as Hnd by (by eapply ancestry_NoDup, ancestry_step).
    by apply NoDup_cons in Hnd as [? _].
Qed.

Lemma is_effectively_active_chain self now id l :
  ancestry (cs_capabilities self) id l →
  is_effectively_active self id now = forallb (live self now) l.
Proof.
  intros Ha. unfold is_effectively_active. pose proof (ancestry_length _ _ _ Ha).
  by rewrite (active_walk_spec _ _ _ _ _ l) by (done || lia || set_solver).
Qed.

Lemma depth_walk_spec self fuel visited depth id l :
  ancestry (cs_capabilities self) id l → length l ≤ fuel → (∀ x, x ∈ l → x ∉ visited) →
  (depth + N.of_nat (length l) <= MAX_DELEGATION_DEPTH)%N →
  depth_walk self fuel visited depth (Some id) = Some (depth + N.of_nat (length l))%N.
Proof.
  intros Ha. revert fuel visited depth.
  induction Ha as [id c Hc Hp|id c p l Hc Hp Ha IH]; intros [|fuel] visited depth Hf Hv Hd;
    simpl length in *; try lia.
  - simpl. rewrite bool_decide_eq_false_2 by set_solver.
    destruct (N.ltb_spec MAX_DELEGATION_DEPTH (depth + 1)); [lia|]. rewrite Hc. simpl. rewrite Hp.
    by destruct fuel.
  - simpl. rewrite bool_decide_eq_false_2 by set_solver.
    destruct (N.ltb_spec MAX_DELEGATION_DEPTH (depth + 1)); [lia|]. rewrite Hc. simpl. rewrite Hp.
    rewrite IH; [f_equal; lia|lia| |lia].
    intros x Hx. assert (x ≠ id); [|set_solver]. intros ->.
    assert (NoDup (id :: l)) as Hnd by (by eapply ancestry_NoDup, ancestry_step).
    by apply NoDup_cons in Hnd as [? _].
Qed.

Lemma delegation_depth_chain self id l :
  ancestry (cs_capabilities self) id l → (N.of_nat (length l) <= MAX_DELEGATION_DEPTH)%N →
  delegation_depth self id = N.of_nat (length l).
Proof.
  intros Ha Hl. unfold delegation_depth. unfold MAX_DELEGATION_DEPTH in *.
  by rewrite (depth_walk_spec _ _ _ _ _ l) by (done || lia || set_solver).
Qed.

(** ** The session invariant *)

Record state_inv (self : CapabilityState) : Prop := {
  inv_statuses : dom (cs_statuses self) = dom (cs_subjects self);
  inv_subjects : ∀ id subject, cs_subjects self !! id = Some subject →
    subj_id subject = id ∧
    (∀ p, subj_parent subject = Some p → is_Some (cs_subjects self !! p));
  inv_issued : dom (cs_capabilities self) = cs_issued_ids self;
  inv_revoked : cs_revoked self ⊆ cs_issued_ids self;
  inv_capability : ∀ id c, cs_capabilities self !! id = Some c →
    cm_id (cap_metadata c) = id ∧ cm_issuer (cap_metadata c) = cs_issuer self ∧
    ∃ subject, cs_subjects self !! cm_subject (cap_metadata c) = Some subject ∧
      StaticAuthorityEnvelope_contains (subj_envelope subject) (cap_validity c) (cap_authority c) = true;
  inv_held_dom : dom (cs_held self) = dom (cs_subjects self);
  inv_held : ∀ subject id, is_held_by self subject id = true ↔
    ∃ c, cs_capabilities self !! id = Some c ∧ cm_subject (cap_metadata c) = subject;
  inv_parent : ∀ id c p, cs_capabilities self !! id = Some c → cm_parent (cap_metadata c) = Some p →
    ∃ pc, cs_capabilities self !! p = Some pc ∧ cm_delegable (cap_metadata pc) = true ∧
      weaker_than c pc = true;
  inv_chain : ∀ id, id ∈ dom (cs_capabilities self) →
    ∃ l, ancestry (cs_capabilities self) id l ∧ (N.of_nat (length l) <= MAX_DELEGATION_DEPTH)%N;
  inv_shutdown : ∀ id c, cs_capabilities self !! id = Some c →
    subject_status self (cm_subject (cap_metadata c)) = Some Running ∨ id ∈ cs_revoked self;
  inv_handles : ∀ id handle, cs_open_handles self !! id = Some handle →
    oh_id handle = id ∧ cs_handle_owners self !! id = Some (oh_subject handle) ∧
    ∃ status, subject_status self (oh_subject handle) = Some status ∧ status ≠ Closed;
  inv_bounds :
    (N.of_nat (size (cs_subjects self)) <= MAX_SUBJECTS_PER_SESSION)%N ∧
    (N.of_nat (size (cs_issued_ids self)) <= MAX_CAPABILITIES_PER_SESSION)%N ∧
    (N.of_nat (size (cs_handle_owners self)) <= MAX_HANDLES_PER_SESSION)%N;
  inv_words : (cs_epoch self < u64_limit)%N ∧
    (∀ n, cs_next_sequence self = Some n → (n < u64_limit)%N);
}.

Lemma CapabilityState_new_inv issuer : state_inv (CapabilityState_new issuer).
Proof.
  split; simpl; try set_solver.
  all: try (intros *; unfold is_held_by; rewrite ?lookup_empty; simpl; naive_solver).
  done.
Qed.

Lemma status_exists self subject :
  state_inv self → is_Some (subject_status self subject) ↔ is_Some (cs_subjects self !! subject).
Proof. intros I. unfold subject_status. rewrite <- !elem_of_dom. by rewrite (inv_statuses _ I). Qed.

Lemma transition_register_inv self subject :
  state_inv self → cs_subjects self !! subj_id subject = None →
  (∀ parent, subj_parent subject = Some parent →
    is_Some (cs_subjects self !! parent) ∧ subject_status self parent = Some Running) →
  (N.of_nat (size (cs_subjects self)) < MAX_SUBJECTS_PER_SESSION)%N →
  state_inv
    (set_subjects (<[subj_id subject := subject]> (cs_subjects self))
      (set_statuses (<[subj_id subject := Running]> (cs_statuses self))
        (set_held (<[subj_id subject := ∅]> (cs_held self)) self))).
Proof.
  intros I Hnew Hpar Hsz. destruct I as [Ist Isub Iiss Irev Icap Ihd Ih Ip Ich Ish Ihan [Ib1 Ib2] Iw].
  assert (∀ id s, cs_subjects self !! id = Some s → id ≠ subj_id subject) as Hne by congruence.
  split; simpl; try assumption.
  - rewrite !dom_insert_L. by rewrite Ist.
  - intros id s [[<- <-]|[? Hs]]%lookup_insert_Some.
    + split; [done|]. intros p Hp. apply Hpar in Hp as [[s' Hs'] _].
      rewrite lookup_insert_ne by (symmetry; eauto). eauto.
    + apply Isub in Hs as [? Hp]. split; [done|]. intros p [s' Hs']%Hp.
      rewrite lookup_insert_ne by (symmetry; eauto). eauto.
  - intros id c Hc. destruct (Icap _ _ Hc) as (? & ? & s & Hs & ?). split; [done|]. split; [done|].
    exists s. rewrite lookup_insert_ne by (symmetry; eauto). done.
  - rewrite !dom_insert_L. by rewrite Ihd.
  - intros s id. unfold is_held_by. simpl. destruct (decide (subj_id subject = s)) as [<-|Hn].
    + rewrite lookup_insert_eq. split; [intros; breflect; set_solver|].
      intros (c & Hc & Hs). destruct (Icap _ _ Hc) as (_ & _ & s & Hs' & _).
      rewrite Hs in Hs'. by eapply Hne in Hs'.
    + rewrite lookup_insert_ne by done. apply Ih.
  - intros id c Hc. destruct (Icap _ _ Hc) as (? & ? & s & Hs & ?). unfold subject_status. simpl.
    rewrite lookup_insert_ne by (symmetry; eauto). by eapply Ish.
  - intros id h Hh. destruct (Ihan _ _ Hh) as (? & ? & st & Hst & ?). split; [done|]. split; [done|].
    exists st. unfold subject_status in *. simpl. rewrite lookup_insert_ne; [done|].
    intros Heq. apply elem_of_dom_2 in Hst. rewrite Ist in Hst. apply elem_of_dom in Hst as [s Hs].
    by apply Hne in Hs.
  - split; [|done]. rewrite map_size_insert_None by done. lia.
Qed.

(** The chain of a freshly issued capability. *)
Lemma issue_chain self grant parent id :
  state_inv self → id ∉ cs_issued_ids self → (∀ p, parent = Some p → derivable self grant p) →
  let caps := <[id := issued_capability self grant parent id]> (cs_capabilities self) in
  ∃ l, ancestry caps id l ∧ (N.of_nat (length l) <= MAX_DELEGATION_DEPTH)%N.
Proof.
  intros I Hid Hpar caps. destruct parent as [p|].
  2:{ exists [id]. split; [|done]. eapply ancestry_root; [by apply lookup_insert_eq|done]. }
  destruct (Hpar p eq_refl) as (pc & now & Hpc & _ & _ & _ & _ & _ & _ & Hd).
  destruct (inv_chain _ I p) as (l & Hl & Hlen); [by eapply elem_of_dom_2|].
  rewrite (delegation_depth_chain _ _ l) in Hd by done.
  exists (id :: l). split; [|simpl; lia]. eapply ancestry_step; [by apply lookup_insert_eq|done|].
  eapply ancestry_mono; [|done]. apply insert_subseteq, not_elem_of_dom. by rewrite (inv_issued _ I).
Qed.

Lemma transition_issue_inv self grant parent id next subject :
  state_inv self →
  subject_status self (grant_subject grant) = Some Running →
  cs_subjects self !! grant_subject grant = Some subject →
  StaticAuthorityEnvelope_contains (subj_envelope subject)
    (grant_validity grant) (grant_authority grant) = true →
  id ∉ cs_issued_ids self →
  next = cs_next_sequence self ∨ (∀ n, next = Some n → (n < u64_limit)%N) →
  (N.of_nat (size (cs_issued_ids self)) < MAX_CAPABILITIES_PER_SESSION)%N →
  (∀ p, parent = Some p → derivable self grant p) →
  state_inv
    (set_capabilities (<[id := issued_capability self grant parent id]> (cs_capabilities self))
      (set_held (<[grant_subject grant :=
                   {[id]} ∪ default ∅ (cs_held self !! grant_subject grant)]> (cs_held self))
        (set_issued_ids ({[id]} ∪ cs_issued_ids self) (set_next_sequence next self)))).
Proof.
  intros I Hrun Hsub Henv Hid Hnext Hcap Hpar.
  pose proof (issue_chain _ _ _ _ I Hid Hpar) as Hchain.
  destruct I as [Ist Isub Iiss Irev Icap Ihd Ih Ip Ich Ish Ihan (Ib1 & Ib2 & Ib3) [Iw1 Iw2]].
  assert (cs_capabilities self !! id = None) as Hnone by (apply not_elem_of_dom; by rewrite Iiss).
  assert (cs_capabilities self ⊆ <[id := issued_capability self grant parent id]> (cs_capabilities self))
    as Hgrow by (by apply insert_subseteq).
  split; simpl; try assumption.
  - rewrite dom_insert_L. by rewrite Iiss.
  - set_solver.
  - intros i c [[<- <-]|[? Hc]]%lookup_insert_Some; [|by apply Icap].
    split; [done|]. split; [done|]. by exists subject.
  - rewrite dom_insert_L. rewrite Ihd. apply elem_of_dom_2 in Hsub. set_solver.
  - intros s i. unfold is_held_by. simpl. specialize (Ih s i). unfold is_held_by in Ih.
    destruct (decide (grant_subject grant = s)) as [<-|Hn].
    + rewrite lookup_insert_eq. rewrite bool_decide_eq_true, elem_of_union, elem_of_singleton.
      destruct (decide (i = id)) as [->|Hi].
      { rewrite lookup_insert_eq. split; [|by left]. intros _. by eexists. }
      rewrite lookup_insert_ne by done. rewrite <- Ih.
      destruct (cs_held self !! grant_subject grant); simpl; [|set_solver].
      rewrite bool_decide_eq_true. naive_solver.
    + rewrite lookup_insert_ne by done. rewrite Ih. split; intros (c & Hc & Hs); exists c.
      * split; [by eapply lookup_weaken|done].
      * apply lookup_insert_Some in Hc as [[<- <-]|[? ?]]; [done|done].
  - intros i c p [[<- <-]|[? Hc]]%lookup_insert_Some Hp.
    + destruct (Hpar p Hp) as (pc & now & Hpc & Hdel & _ & _ & _ & Hw & Ha & _).
      exists pc. split; [by eapply lookup_weaken|]. split; [done|]. unfold weaker_than. simpl.
      by rewrite Hw, Ha.
    + destruct (Ip _ _ _ Hc Hp) as (pc & Hpc & ?). exists pc. split; [by eapply lookup_weaken|done].
  - intros i. rewrite dom_insert_L, elem_of_union, elem_of_singleton. intros [->|Hi]; [done|].
    destruct (Ich _ Hi) as (l & Hl & ?). exists l. split; [by eapply ancestry_mono|done].
  - intros i c [[<- <-]|[? Hc]]%lookup_insert_Some; [by left|by eapply Ish].
  - split; [exact Ib1|]. split; [|exact Ib3]. rewrite size_union, size_singleton by set_solver. lia.
  - split; [done|]. by destruct Hnext as [->|].
Qed.

Lemma open_handle_count_zero self subject id handle :
  subject_open_handle_count self subject = 0 → cs_open_handles self !! id = Some handle →
  oh_subject handle ≠ subject.
Proof.
  unfold subject_open_handle_count. intros H0 Hh <-. apply map_size_empty_inv in H0.
  eapply (map_filter_empty_not_lookup _ _ id handle H0); [done|done].
Qed.

Lemma status_dom self subject status :
  subject_status self subject = Some status → subject ∈ dom (cs_statuses self).
Proof. apply elem_of_dom_2. Qed.

(** Changing one subject's status, with the revocations and epoch that go with it. *)
Lemma transition_status_inv self subject status revoked epoch :
  state_inv self → is_Some (subject_status self subject) →
  cs_revoked self ⊆ revoked → revoked ⊆ cs_issued_ids self → (epoch < u64_limit)%N →
  (∀ id c, cs_capabilities self !! id = Some c → cm_subject (cap_metadata c) = subject →
    id ∈ revoked) →
  (status = Closed → subject_open_handle_count self subject = 0) →
  state_inv (set_epoch epoch (set_statuses (<[subject := status]> (cs_statuses self))
    (set_revoked revoked self))).
Proof.
  intros I [old Hold%status_dom] Hgrow Hiss He Hall H0.
  destruct I as [Ist Isub Iiss Irev Icap Ihd Ih Ip Ich Ish Ihan Ib [Iw1 Iw2]].
  split; simpl; try assumption.
  - rewrite dom_insert_L, Ist. rewrite Ist in Hold. set_solver.
  - intros i c Hc. unfold subject_status. simpl.
    destruct (decide (subject = cm_subject (cap_metadata c))) as [->|Hn]; [right; by eapply Hall|].
    rewrite lookup_insert_ne by done. destruct (Ish _ _ Hc); [by left|right; set_solver].
  - intros i h Hh. destruct (Ihan _ _ Hh) as (? & ? & st & Hst & ?). split; [done|]. split; [done|].
    unfold subject_status in *. simpl. destruct (decide (subject = oh_subject h)) as [->|Hn].
    + rewrite lookup_insert_eq. exists status. split; [done|]. intros Hc.
      by eapply open_handle_count_zero; [apply H0|..].
    + rewrite lookup_insert_ne by done. eauto.
  - by split.
Qed.

Lemma held_capabilities self subject id :
  state_inv self →
  id ∈ default ∅ (cs_held self !! subject) ↔
  ∃ c, cs_capabilities self !! id = Some c ∧ cm_subject (cap_metadata c) = subject.
Proof.
  intros I. rewrite <- (inv_held _ I). unfold is_held_by.
  destruct (cs_held self !! subject); simpl; [|set_solver]. by rewrite bool_decide_eq_true.
Qed.

Lemma transition_inv self self' : state_inv self → transition self self' → state_inv self'.
Proof.
  intros I HT. destruct HT as
    [| |subject Hnew Hpar Hsz|handle Hrun Hnew Hsz|caller handle Ho|grant parent id next subject
     |id epoch Hid Hnr He|subject epoch Hrun He|subject Hst H0].
  - done.
  - destruct I as [Ist Isub Iiss Irev Icap Ihd Ih Ip Ich Ish Ihan Ib [Iw1 Iw2]]. by split.
  - by apply transition_register_inv.
  - destruct I as [Ist Isub Iiss Irev Icap Ihd Ih Ip Ich Ish Ihan (Ib1 & Ib2 & Ib3) Iw]. split; simpl; try assumption.
    + intros i h [[<- <-]|[? Hh]]%lookup_insert_Some.
      * rewrite lookup_insert_eq. split; [done|]. split; [done|]. by exists Running.
      * rewrite lookup_insert_ne by done. by apply Ihan.
    + split; [exact Ib1|]. split; [exact Ib2|]. rewrite map_size_insert_None by done. lia.
  - destruct I as [Ist Isub Iiss Irev Icap Ihd Ih Ip Ich Ish Ihan Ib Iw]. split; simpl; try assumption.
    intros i h [? Hh]%lookup_delete_Some. by apply Ihan.
  - by eapply transition_issue_inv.
  - destruct I as [Ist Isub Iiss Irev Icap Ihd Ih Ip Ich Ish Ihan Ib [Iw1 Iw2]]. split; simpl; try assumption.
    + apply elem_of_dom in Hid. rewrite Iiss in Hid. set_solver.
    + intros i c Hc. destruct (Ish _ _ Hc); [by left|right; set_solver].
    + split; [|done]. by apply checked_add_u64_Some in He as [_ ?].
  - apply transition_status_inv; try done.
    + set_solver.
    + pose proof (inv_revoked _ I). intros i [Hi|(c & Hc & _)%held_capabilities]%elem_of_union;
        [set_solver| |done]. rewrite <- (inv_issued _ I). by eapply elem_of_dom_2.
    + by apply checked_add_u64_Some in He as [_ ?].
    + intros i c Hc Hs. apply elem_of_union_r, held_capabilities; eauto.
  - pose proof (transition_status_inv self subject Closed (cs_revoked self) (cs_epoch self) I) as HT.
    destruct self. apply HT; [done|done|apply (inv_revoked _ I)|exact (proj1 (inv_words _ I))| |done].
    intros i c Hc <-. destruct (inv_shutdown _ I _ _ Hc); [congruence|done].
Qed.

Lemma run_ops_ind (P : CapabilityState → Prop) ops self :
  (∀ s s', P s → transition s s' → P s') → P self → P (run_ops ops self).
Proof.
  intros Hstep. revert self. induction ops as [|op ops IH]; intros self Hp; simpl; [done|].
  eapply IH, Hstep; [done|]. apply run_op_transition.
Qed.

Lemma reachable_inv self : reachable self → state_inv self.
Proof.
  intros (issuer & ops & ->). apply run_ops_ind; [apply transition_inv|apply CapabilityState_new_inv].
Qed.
