(* ===== verification/StateHistory.v ===== *)
(** * Session histories: what a sequence of calls can and cannot change

    [extends] is the preorder of states along a session.  Every transition
    respects it, so each fact about the future of a session is one field of
    [run_ops_extends]. *)

From S2P Require Import Prelude Bytes Time Path File Capability State StateInvariant.

Definition status_rank (status : SubjectStatus) : nat :=
  match status with Running => 0 | Closing => 1 | Closed => 2 end.

Record extends (s s' : CapabilityState) : Prop := {
  ext_issuer : cs_issuer s' = cs_issuer s;
  ext_capabilities : cs_capabilities s ⊆ cs_capabilities s';
  ext_subjects : cs_subjects s ⊆ cs_subjects s';
  ext_revoked : cs_revoked s ⊆ cs_revoked s';
  ext_owners : cs_handle_owners s ⊆ cs_handle_owners s';
  ext_status : ∀ x st, subject_status s x = Some st →
    ∃ st', subject_status s' x = Some st' ∧ status_rank st ≤ status_rank st';
  ext_epoch : (cs_epoch s <= cs_epoch s')%N;
  ext_same_epoch : cs_epoch s' = cs_epoch s →
    cs_revoked s' = cs_revoked s ∧
    (∀ x, is_Some (subject_status s x) →
       (subject_status s' x = Some Running ↔ subject_status s x = Some Running));
}.

#[export] Instance extends_preorder : PreOrder extends.
Proof.
  split.
  - intros s. split; try done. intros x st Hx. eauto.
  - intros a b c [A1 A2 A3 A4 A5 A6 A7 A8] [B1 B2 B3 B4 B5 B6 B7 B8]. split; try (by etrans).
    + intros x st (st' & (st'' & Hx & ?)%B6 & ?)%A6. exists st''. split; [done|lia].
    + intros He. destruct (A8 ltac:(lia)) as [Hr Hs]. destruct (B8 ltac:(lia)) as [Hr' Hs'].
      split; [congruence|]. intros x Hx. rewrite <- (Hs x Hx). apply Hs'.
      destruct Hx as [st (st' & ? & _)%A6]. eauto.
Qed.

(** The status map after an update that only advances one subject. *)
Lemma status_insert_mono self subject old new x st :
  subject_status self subject = Some old → status_rank old ≤ status_rank new →
  subject_status self x = Some st →
  ∃ st', <[subject := new]> (cs_statuses self) !! x = Some st' ∧ status_rank st ≤ status_rank st'.
Proof.
  intros Hs Hle Hx. destruct (decide (subject = x)) as [->|Hn].
  - rewrite lookup_insert_eq. exists new. by simplify_eq.
  - rewrite lookup_insert_ne by done. eauto.
Qed.

Lemma transition_extends self self' : state_inv self → transition self self' → extends self self'.
Proof.
  intros I HT. destruct HT as
    [| |subject Hnew Hpar Hsz|handle Hrun Hnew Hsz|caller handle Ho
     |grant parent id next subject Hrun Hsub Henv Hid Hnext Hcap Hpar
     |id epoch Hid Hnr He|subject epoch Hrun He|subject Hst H0];
    (split; [done|..]); simpl; try done; try lia; try set_solver; try naive_solver.
  - by apply insert_subseteq.
  - intros x st Hx. unfold subject_status in *. simpl. rewrite lookup_insert_ne; [eauto|].
    intros <-. apply elem_of_dom_2 in Hx. rewrite (inv_statuses _ I) in Hx.
    apply not_elem_of_dom in Hnew. done.
  - intros _. split; [done|]. intros x [st Hx]. unfold subject_status in *. simpl.
    rewrite lookup_insert_ne; [done|]. intros <-. apply elem_of_dom_2 in Hx.
    rewrite (inv_statuses _ I) in Hx. apply not_elem_of_dom in Hnew. done.
  - by apply insert_subseteq.
  - apply insert_subseteq, not_elem_of_dom. by rewrite (inv_issued _ I).
  - apply checked_add_u64_Some in He as [-> _]. lia.
  - apply checked_add_u64_Some in He as [-> _]. lia.
  - intros x st. apply status_insert_mono with Running; [done|simpl; lia].
  - apply checked_add_u64_Some in He as [-> _]. lia.
  - apply checked_add_u64_Some in He as [-> _]. lia.
  - intros x st. apply status_insert_mono with Closing; [done|simpl; lia].
  - intros _. split; [done|]. intros x [st Hx]. unfold subject_status in *. simpl.
    destruct (decide (subject = x)) as [->|Hn]; [|by rewrite lookup_insert_ne].
    rewrite lookup_insert_eq. naive_solver.
Qed.

Lemma run_ops_inv_extends ops self : state_inv self → state_inv (run_ops ops self) ∧ extends self (run_ops ops self).
Proof.
  intros I. apply run_ops_ind; [|by split].
  intros s s' [Is Hs] HT. split; [by eapply transition_inv|]. etrans; [done|]. by apply transition_extends.
Qed.

Lemma run_ops_extends ops self : reachable self → extends self (run_ops ops self).
Proof. intros H. by apply run_ops_inv_extends, reachable_inv. Qed.

Lemma reachable_run_ops ops self : reachable self → reachable (run_ops ops self).
Proof.
  intros (issuer & ops' & ->). exists issuer, (ops' ++ ops). unfold run_ops. by rewrite foldl_app.
Qed.

(** One call is the one-element sequence. *)
Lemma reachable_run_op op self : reachable self → reachable (run_op op self).
Proof. apply (reachable_run_ops [op]). Qed.

Lemma run_op_extends op self : reachable self → extends self (run_op op self).
Proof. apply (run_ops_extends [op]). Qed.

Lemma live_extends self self' now id :
  extends self self' → live self' now id = true → id ∈ dom (cs_capabilities self) →
  live self now id = true.
Proof.
  intros X Hl [c Hc]%elem_of_dom. unfold live in *.
  rewrite (lookup_weaken _ _ _ _ Hc (ext_capabilities _ _ X)) in Hl. rewrite Hc.
  breflect. destruct Hl as [Hr ?]. split; [|done]. pose proof (ext_revoked _ _ X). set_solver.
Qed.

Lemma live_not_revoked self now id : live self now id = true → id ∉ cs_revoked self.
Proof. unfold live. case_match; [|done]. intros Hl. breflect. by destruct Hl. Qed.

(** ** A concrete session, evaluated by the witnesses *)

Definition demo_window : TimeWindow := {| not_before := 0; expires_at := 100 |}.
Definition demo_path : CanonicalPath := {| cp_segments := [lit "src"] |}.

Definition demo_authority (effects : list FileEffect) : AuthorityBody :=
  AuthFile {| fa_repository := lit "repo"; fa_effects := FileEffects_from_effects effects;
              fa_path := PathPrefix demo_path |}.

Definition demo_root : AuthorityBody := demo_authority [ReadData; WriteData].
Definition demo_read : AuthorityBody := demo_authority [ReadData].

Definition demo_subject (id : SubjectId) : Subject :=
  {| subj_id := id; subj_parent := None;
     subj_envelope := {| env_validity := demo_window; env_authority := demo_root |} |}.

Definition demo_grant (subject : SubjectId) (authority : AuthorityBody) (delegable : bool)
    : CapabilityGrant :=
  {| grant_subject := subject; grant_validity := demo_window; grant_authority := authority;
     grant_delegable := delegable |}.

Definition demo_request : CapabilityRequest :=
  {| crq_time := 10;
     crq_authority := ReqFile {| fr_repository := lit "repo"; fr_effect := ReadData;
       fr_path := {| cp_segments := [lit "src"; lit "main.rs"] |} |} |}.

Definition demo_handle : OpenHandle :=
  {| oh_id := lit "h"; oh_subject := lit "worker"; oh_object := lit "inode" |}.

Definition agent : SubjectId := lit "agent".
Definition worker : SubjectId := lit "worker".
Definition root_id : CapId := lit "host:0".
Definition child_id : CapId := lit "host:1".

Definition demo_ops : list state_op :=
  [OpRegisterSubject (demo_subject agent);
   OpRegisterSubject (demo_subject worker);
   OpRegisterOpenHandle demo_handle;
   OpIssueRoot (demo_grant agent demo_root true);
   OpDerive agent root_id (demo_grant worker demo_read false) 5].

Definition demo_state : CapabilityState := run_ops demo_ops (CapabilityState_new (lit "host")).

Lemma demo_reachable : reachable demo_state.
Proof. by exists (lit "host"), demo_ops. Qed.

(** A session whose last capability sits at the maximum delegation depth. *)
Definition deep_ops : list state_op :=
  [OpRegisterSubject (demo_subject agent); OpIssueRoot (demo_grant agent demo_root true)] ++
  ((λ n, OpDerive agent (sequential_id (lit "host") (N.of_nat n)) (demo_grant agent demo_root true) 5)
     <$> seq 0 63).

Definition deep_state : CapabilityState := run_ops deep_ops (CapabilityState_new (lit "host")).
Definition deep_id : CapId := lit "host:63".
Definition deep_chain : list CapId :=
  (λ n, sequential_id (lit "host") (N.of_nat n)) <$> reverse (seq 0 64).

Lemma deep_reachable : reachable deep_state.
Proof. by exists (lit "host"), deep_ops. Qed.
