(* ===== verification/StateProps.v ===== *)
(** * Correctness of the capability state machine

    The properties of [state.rs]: the session invariant, attenuation along a
    delegation chain, permanence of revocation and shutdown, freshness of
    identities, atomicity of failing calls, the epoch contract, and exact success
    conditions.  Each is a short consequence of [StateInvariant] and
    [StateHistory]. *)

From S2P Require Import Prelude Bytes Time Path File Capability State StateInvariant StateHistory.

(** C10: every state a session can reach, by any sequence of successful and failing
    calls, satisfies the session invariant: registered subjects, held sets, parent
    links, chain lengths, shutdown and handle bookkeeping are mutually consistent. *)
Theorem session_invariant issuer ops : state_inv (run_ops ops (CapabilityState_new issuer)).
Proof. apply reachable_inv. by exists issuer, ops. Qed.

(** What one member of the delegation chain contributes to an authorization. *)
Definition chain_grants (self : CapabilityState) (request : CapabilityRequest) (id : CapId) : Prop :=
  ∃ c subject, cs_capabilities self !! id = Some c ∧ (id ∉ cs_revoked self) ∧
    capability_matches c request = true ∧
    cs_subjects self !! cm_subject (cap_metadata c) = Some subject ∧
    authority_matches (env_authority (subj_envelope subject)) (crq_authority request) = true ∧
    TimeWindow_contains (env_validity (subj_envelope subject)) (crq_time request) = true.

(** Along a chain of the invariant, a match at the leaf is a match at every ancestor. *)
Lemma chain_matches self id l request :
  state_inv self → ancestry (cs_capabilities self) id l →
  (∃ c, cs_capabilities self !! id = Some c ∧ capability_matches c request = true) →
  ∀ x, x ∈ l → ∃ c, cs_capabilities self !! x = Some c ∧ capability_matches c request = true.
Proof.
  intros I Ha. induction Ha as [id c Hc Hp|id c p l Hc Hp Ha IH]; intros Hm x Hx.
  - apply list_elem_of_singleton in Hx as ->. done.
  - apply elem_of_cons in Hx as [->|Hx]; [done|]. apply IH; [|done].
    destruct Hm as (c' & ? & Hm). simplify_eq.
    destruct (inv_parent _ I _ _ _ Hc Hp) as (pc & Hpc & _ & Hw). exists pc. split; [done|].
    by eapply weaker_than_sound.
Qed.

Lemma active_capability_Some self caller id now c :
  active_capability self caller id now = Some c →
  subject_status self caller = Some Running ∧ cs_capabilities self !! id = Some c ∧
  cm_subject (cap_metadata c) = caller ∧ is_held_by self caller id = true ∧
  is_effectively_active self id now = true.
Proof.
  unfold active_capability. case_bool_decide; simpl; [|done].
  destruct (cs_capabilities self !! id); simpl; [|done]. case_match; [|done].
  intros [= ->]. breflect. by destruct_and!.
Qed.

(** C9: attenuation.  When a reachable state authorizes a request, the caller is a
    running holder and every capability on the delegation chain up to the root is
    unrevoked, itself matches the request, and lies in an envelope of its subject
    that admits the request. *)
Theorem authorization_attenuates self caller id request :
  reachable self → authorizes self caller id request = true →
  subject_status self caller = Some Running ∧ is_held_by self caller id = true ∧
  ∃ l, ancestry (cs_capabilities self) id l ∧ Forall (chain_grants self request) l.
Proof.
  intros I%reachable_inv Hauth. unfold authorizes in Hauth.
  destruct (active_capability _ _ _ _) as [c|] eqn:Hact; [|done].
  apply active_capability_Some in Hact as (Hrun & Hc & _ & Hheld & Hact).
  split; [done|]. split; [done|]. destruct (inv_chain _ I id) as (l & Hl & _); [by eapply elem_of_dom_2|].
  exists l. split; [done|]. apply Forall_forall. intros x Hx.
  rewrite (is_effectively_active_chain _ _ _ l), forallb_forall in Hact by done.
  destruct (chain_matches _ _ _ request I Hl ltac:(eauto) x Hx) as (cx & Hcx & Hmx).
  destruct (inv_capability _ I _ _ Hcx) as (_ & _ & subject & Hs & Henv). exists cx, subject.
  unfold StaticAuthorityEnvelope_contains in Henv. pose proof Hmx as Hmx'.
  unfold capability_matches in Hmx'. breflect. destruct_and!.
  split_and!; try done.
  - eapply live_not_revoked, Hact. by apply list_elem_of_In.
  - by eapply authority_body_below_sound.
  - by eapply TimeWindow_subset_sound.
Qed.

Lemma authorization_attenuates_witness :
  authorizes demo_state worker child_id demo_request = true ∧
  ∃ l, ancestry (cs_capabilities demo_state) child_id l ∧ Forall (chain_grants demo_state demo_request) l.
Proof.
  assert (authorizes demo_state worker child_id demo_request = true) as H by (vm_compute; reflexivity).
  split; [exact H|].
  exact (proj2 (proj2 (authorization_attenuates _ _ _ _ demo_reachable H))).
Defined.

(** A revoked member of a chain disables the capability in every future state. *)
Lemma revoked_chain_dead self id l x ops now :
  reachable self → ancestry (cs_capabilities self) id l → x ∈ l → x ∈ cs_revoked self →
  is_effectively_active (run_ops ops self) id now = false.
Proof.
  intros Hr Hl Hx Hrev. pose proof (run_ops_extends ops _ Hr) as X.
  rewrite (is_effectively_active_chain _ _ _ l)
    by (eapply ancestry_mono; [apply (ext_capabilities _ _ X)|done]).
  apply not_true_is_false. rewrite forallb_forall. intros Hall.
  apply (live_not_revoked (run_ops ops self) now x).
  - apply Hall. by apply list_elem_of_In.
  - by apply (ext_revoked _ _ X).
Qed.

Lemma inactive_not_authorized self caller id request :
  is_effectively_active self id (crq_time request) = false → authorizes self caller id request = false.
Proof.
  intros H. unfold authorizes. destruct (active_capability _ _ _ _) as [c|] eqn:Hact; [|done].
  apply active_capability_Some in Hact. destruct_and!. congruence.
Qed.

(** C12: revocation is permanent and reaches every descendant.  Once [revoke x]
    returns successfully, no capability whose chain contains [x] authorizes
    anything, for any caller, after any further calls. *)
Theorem revocation_is_permanent self id l x status :
  reachable self → ancestry (cs_capabilities self) id l → x ∈ l →
  (revoke x self).1 = Ok status →
  ∀ ops caller request, authorizes (run_ops ops (revoke x self).2) caller id request = false.
Proof.
  intros Hr Hl Hx Hrev ops caller request. apply inactive_not_authorized.
  eapply revoked_chain_dead; [by apply (reachable_run_op (OpRevoke x))| |done|].
  - eapply ancestry_mono; [|done]. by apply ext_capabilities, (run_op_extends (OpRevoke x)).
  - unfold revoke, revoke_existing in *. unfold_st. case_bool_decide; [|done].
    case_bool_decide; [done|]. destruct (next_authorization_epoch self); [|done]. simpl. set_solver.
Qed.

Lemma demo_child_chain : ancestry (cs_capabilities demo_state) child_id [child_id; root_id].
Proof.
  eapply ancestry_step; [vm_compute; reflexivity|vm_compute; reflexivity|].
  eapply ancestry_root; vm_compute; reflexivity.
Qed.

Lemma revocation_is_permanent_witness :
  (revoke root_id demo_state).1 = Ok NewlyRevoked ∧
  ∀ ops caller request,
    authorizes (run_ops ops (revoke root_id demo_state).2) caller child_id request = false.
Proof.
  split; [vm_compute; reflexivity|].
  apply (revocation_is_permanent demo_state child_id [child_id; root_id] root_id NewlyRevoked).
  - exact demo_reachable.
  - exact demo_child_chain.
  - right. left.
  - vm_compute; reflexivity.
Defined.

(** Shutdown is permanent.  Once [begin_subject_close] starts, the subject never
    runs again, and neither its capabilities nor any capability delegated from them
    authorizes anything after any further calls. *)
Theorem shutdown_disables_descendants self subject id l x c :
  reachable self → ancestry (cs_capabilities self) id l → x ∈ l →
  cs_capabilities self !! x = Some c → cm_subject (cap_metadata c) = subject →
  (begin_subject_close subject self).1 = Ok CloseStarted →
  ∀ ops caller request,
    subject_status (run_ops ops (begin_subject_close subject self).2) subject ≠ Some Running ∧
    authorizes (run_ops ops (begin_subject_close subject self).2) caller id request = false.
Proof.
  intros Hr Hl Hx Hc Hs Hclose ops caller request.
  pose proof (reachable_run_op (OpBeginSubjectClose subject) _ Hr) as Hr'. simpl in Hr'.
  pose proof (run_op_extends (OpBeginSubjectClose subject) _ Hr) as X. simpl in X.
  assert (subject_status (begin_subject_close subject self).2 subject = Some Closing ∧
          x ∈ cs_revoked (begin_subject_close subject self).2) as [Hst Hrev].
  { assert (x ∈ default ∅ (cs_held self !! subject)) as Hheld
      by (apply held_capabilities; [by apply reachable_inv|eauto]).
    clear Hr' X. unfold begin_subject_close in *. unfold_st.
    destruct (subject_status self subject) as [[]|]; try done.
    destruct (next_authorization_epoch self); simpl in *; [|done].
    destruct (cs_held self !! subject); simpl in *; [|set_solver].
    unfold subject_status. simpl. rewrite lookup_insert_eq. set_solver. }
  split.
  - pose proof (ext_status _ _ (run_ops_extends ops _ Hr') _ _ Hst) as (st & -> & Hle).
    destruct st; simpl in Hle; [lia|done..].
  - apply inactive_not_authorized. eapply revoked_chain_dead; [done| |done|done].
    eapply ancestry_mono; [|done]. by apply ext_capabilities.
Qed.

Lemma shutdown_disables_descendants_witness :
  authorizes (begin_subject_close agent demo_state).2 worker child_id demo_request = false.
Proof.
  refine (proj2 (shutdown_disables_descendants demo_state agent child_id [child_id; root_id] root_id _
    demo_reachable demo_child_chain _ _ _ _ [] worker demo_request)).
  - right. left.
  - vm_compute; reflexivity.
  - vm_compute; reflexivity.
  - vm_compute; reflexivity.
Defined.

(** Capability records and handle owners are immutable for the whole session:
    an identity, once bound, keeps its record after any sequence of calls, and
    revocations are never undone. *)
Theorem session_records_immutable self ops :
  reachable self →
  cs_capabilities self ⊆ cs_capabilities (run_ops ops self) ∧
  cs_handle_owners self ⊆ cs_handle_owners (run_ops ops self) ∧
  cs_subjects self ⊆ cs_subjects (run_ops ops self) ∧
  cs_revoked self ⊆ cs_revoked (run_ops ops self).
Proof. intros X%(run_ops_extends ops). by destruct X. Qed.

Lemma session_records_immutable_witness :
  cs_capabilities demo_state ⊆ cs_capabilities (run_ops [OpRevoke root_id] demo_state).
Proof. exact (proj1 (session_records_immutable _ [OpRevoke root_id] demo_reachable)). Defined.

(** ** Failing calls *)

(** The outcome of a call that fails without touching the state, except that a
    spent identity space stays spent. *)
Definition atomic_failure {A} (self : CapabilityState)
    (outcome : result CapabilityStateError A * CapabilityState) : Prop :=
  ∀ e, outcome.1 = Err e →
    outcome.2 = self ∨ (e = CapabilityIdExhausted ∧ outcome.2 = set_next_sequence None self).

Lemma atomic_failure_query {A B} self (q : Query A) (k : A → SM B) :
  (∀ a, q self = Ok a → atomic_failure self (k a self)) →
  atomic_failure self ((st_query q ≫= k) self).
Proof. intros Hk. unfold_st. destruct (q self) as [a|e]; [by apply Hk|by left]. Qed.

Lemma issue_atomic grant parent self : atomic_failure self (issue grant parent self).
Proof.
  apply atomic_failure_query. intros [] _. unfold_st. unfold allocate_capability_id.
  destruct (cs_next_sequence self); [|by left].
  destruct (allocate_loop _ _ _ _) as [[[id|e'] next]|] eqn:Hl; [| |by left].
  - rewrite issue_with_id_state. by intros e.
  - pose proof (allocate_loop_err _ _ _ _ _ _ Hl) as ->. intros e. simpl. intros [= <-]. right.
    split; [|done]. clear -Hl. revert Hl. generalize (S (size (cs_issued_ids self))) n.
    intros fuel. induction fuel as [|fuel IH]; intros m; simpl; [done|].
    case_bool_decide; simpl; [|done]. case_match; [apply IH|naive_solver].
Qed.

Ltac atomic_cases :=
  unfold_st; intros ?;
  repeat (case_match; simplify_eq/=; try (by left); try done).

(** C39: a failing call leaves the state exactly as it was; the only exception is
    [CapabilityIdExhausted], which records that the identity counter is spent. *)
Theorem failed_calls_are_atomic op self e :
  op_error op self = Some e →
  run_op op self = self ∨
  (e = CapabilityIdExhausted ∧ run_op op self = set_next_sequence None self).
Proof.
  assert (∀ A (o : result CapabilityStateError A * CapabilityState),
    atomic_failure self o → err_of o = Some e →
    o.2 = self ∨ (e = CapabilityIdExhausted ∧ o.2 = set_next_sequence None self)) as Hlift.
  { intros A [[a|e'] s] Ho He; unfold err_of in He; simplify_eq/=. by apply Ho. }
  destruct op; simpl; apply Hlift; clear Hlift.
  - unfold register_subject. atomic_cases.
  - apply atomic_failure_query. intros _ _. atomic_cases.
  - unfold close_handle. atomic_cases.
  - apply atomic_failure_query. intros _ _. apply issue_atomic.
  - do 2 (apply atomic_failure_query; intros _ _). atomic_cases.
  - apply atomic_failure_query. intros _ _. unfold mbind at 1, ST_bind at 1, st_get. simpl.
    apply atomic_failure_query. intros pc _. repeat (case_match; [by intros ?; left|]).
    apply atomic_failure_query. intros _ _. apply issue_atomic.
  - unfold revoke, revoke_existing. atomic_cases.
  - unfold revoke_held_by, revoke_existing. atomic_cases.
  - unfold begin_subject_close. atomic_cases.
  - unfold finish_subject_close. atomic_cases.
Qed.

Lemma failed_calls_are_atomic_witness :
  run_op (OpRevoke (lit "nope")) demo_state = demo_state ∨
  (UnknownCapability (lit "nope") = CapabilityIdExhausted ∧
   run_op (OpRevoke (lit "nope")) demo_state = set_next_sequence None demo_state).
Proof. apply failed_calls_are_atomic. vm_compute. reflexivity. Defined.

(** ** The authorization epoch *)

Lemma active_same self self' id l now :
  extends self self' → cs_revoked self' = cs_revoked self →
  ancestry (cs_capabilities self) id l →
  is_effectively_active self' id now = is_effectively_active self id now.
Proof.
  intros X Hrev Hl. rewrite !(is_effectively_active_chain _ _ _ l);
    [|done|by eapply ancestry_mono; [apply (ext_capabilities _ _ X)|]].
  assert (∀ x, x ∈ l → live self' now x = live self now x) as Hlive.
  { intros x Hx. destruct (proj1 (elem_of_dom _ _) (ancestry_dom _ _ _ _ Hl Hx)) as [c Hc].
    unfold live. by rewrite Hc, Hrev, (lookup_weaken _ _ _ _ Hc (ext_capabilities _ _ X)). }
  clear Hl. induction l as [|y l IH]; simpl; [done|]. rewrite Hlive, IH; [done| |left].
  intros x Hx. apply Hlive. by right.
Qed.

Lemma held_same self self' caller id :
  state_inv self → state_inv self' → extends self self' → id ∈ dom (cs_capabilities self) →
  is_held_by self' caller id = is_held_by self caller id.
Proof.
  intros I I' X [c Hc]%elem_of_dom. apply eq_true_iff_eq. rewrite (inv_held _ I), (inv_held _ I').
  rewrite Hc, (lookup_weaken _ _ _ _ Hc (ext_capabilities _ _ X)). done.
Qed.

(** C11: the authorization epoch never decreases, and it is a sound cache key: when
    two states of one session carry the same epoch, every authorization decision
    about a capability that existed in the earlier one is the same in both. *)
Theorem epoch_is_sound_cache_key self ops :
  reachable self →
  (cs_epoch self <= cs_epoch (run_ops ops self))%N ∧
  (cs_epoch (run_ops ops self) = cs_epoch self →
   ∀ caller id request, id ∈ cs_issued_ids self →
     authorizes (run_ops ops self) caller id request = authorizes self caller id request).
Proof.
  intros I%reachable_inv. destruct (run_ops_inv_extends ops _ I) as [I' X].
  split; [apply (ext_epoch _ _ X)|]. intros He caller id request Hid.
  destruct (ext_same_epoch _ _ X He) as [Hrev Hrun]. rewrite <- (inv_issued _ I) in Hid.
  destruct (inv_chain _ I _ Hid) as (l & Hl & _). pose proof Hid as [c Hc]%elem_of_dom.
  unfold authorizes, active_capability. rewrite Hc, (lookup_weaken _ _ _ _ Hc (ext_capabilities _ _ X)).
  rewrite (active_same self _ _ l), (held_same self) by done. simpl.
  destruct (bool_decide (cm_subject (cap_metadata c) = caller)) eqn:Hs; simpl;
    [|repeat case_match; done].
  apply bool_decide_eq_true in Hs as <-.
  destruct (inv_capability _ I _ _ Hc) as (_ & _ & subject & Hsub & _).
  assert (is_Some (subject_status self (cm_subject (cap_metadata c)))) as Hst
    by (apply status_exists; eauto).
  by rewrite (bool_decide_ext _ _ (Hrun _ Hst)).
Qed.

Lemma epoch_is_sound_cache_key_witness :
  authorizes (run_ops [OpIssueRoot (demo_grant worker demo_read false)] demo_state)
    worker child_id demo_request = authorizes demo_state worker child_id demo_request.
Proof.
  refine (proj2 (epoch_is_sound_cache_key demo_state _ demo_reachable) _ worker child_id demo_request _).
  - vm_compute. reflexivity.
  - refine (bool_decide_eq_true_1 _ _). vm_compute. reflexivity.
Defined.

(** ** Termination *)

(** The three loops of the state machine terminate on every state, including
    states whose parent links are cyclic or dangling: the fuel the model supplies
    is never exhausted. *)
Theorem state_loops_terminate self now id sequence :
  is_Some (active_walk self now (S (size (cs_capabilities self))) ∅ (Some id)) ∧
  is_Some (depth_walk self (N.to_nat MAX_DELEGATION_DEPTH + 1) ∅ 0 (Some id)) ∧
  is_Some (allocate_loop (cs_issuer self) (cs_issued_ids self) (S (size (cs_issued_ids self))) sequence).
Proof.
  rewrite <- !not_eq_None_Some. split_and!.
  - apply active_walk_total; [set_solver|]. rewrite size_empty. lia.
  - by apply depth_walk_total.
  - apply allocate_loop_fuel.
Qed.

(** ** Delegation *)

(** On a reachable state [delegation_depth] is the length of the unique chain
    from the capability to its root, between 1 and [MAX_DELEGATION_DEPTH]. *)
Theorem delegation_depth_is_chain_length self id :
  reachable self → id ∈ cs_issued_ids self →
  ∃ l, ancestry (cs_capabilities self) id l ∧ delegation_depth self id = N.of_nat (length l) ∧
    (1 <= delegation_depth self id <= MAX_DELEGATION_DEPTH)%N.
Proof.
  intros I%reachable_inv Hid. rewrite <- (inv_issued _ I) in Hid.
  destruct (inv_chain _ I _ Hid) as (l & Hl & Hlen). exists l. split; [done|].
  rewrite (delegation_depth_chain _ _ l) by done. split; [done|].
  destruct (ancestry_head _ _ _ Hl) as [l' ->]. simpl in *. lia.
Qed.

Lemma delegation_depth_is_chain_length_witness :
  ∃ l, ancestry (cs_capabilities demo_state) child_id l ∧
    delegation_depth demo_state child_id = N.of_nat (length l) ∧
    (1 <= delegation_depth demo_state child_id <= MAX_DELEGATION_DEPTH)%N.
Proof.
  apply delegation_depth_is_chain_length; [exact demo_reachable|].
  refine (bool_decide_eq_true_1 _ _). vm_compute. reflexivity.
Defined.

(** The counter cannot be spent while it is far enough from [u64::MAX]. *)
Lemma allocate_loop_succeeds issuer issued fuel sequence used :
  used ⊆ issued → size issued < fuel + size used →
  (∀ m, sequential_id issuer m ∈ used → (m < sequence)%N) →
  (sequence + N.of_nat (size issued) < u64_limit + N.of_nat (size used))%N →
  ∃ id next, allocate_loop issuer issued fuel sequence = Some (Ok id, next).
Proof.
  revert sequence used. induction fuel as [|fuel IH]; intros sequence used Hsub Hsz Hlt Hroom; simpl.
  { apply subseteq_size in Hsub. lia. }
  case_bool_decide as Hin; simpl; [|eauto].
  assert (sequential_id issuer sequence ∉ used) as Hnew by (intros H; apply Hlt in H; lia).
  assert (size ({[sequential_id issuer sequence]} ∪ used) = S (size used)) as Hsz'
    by (rewrite size_union, size_singleton by set_solver; lia).
  assert ({[sequential_id issuer sequence]} ∪ used ⊆ issued) as Hsub' by set_solver.
  pose proof (subseteq_size _ _ Hsub') as Hle.
  destruct (checked_add_u64 sequence 1) as [next|] eqn:Hn.
  2:{ apply checked_add_u64_None in Hn. lia. }
  apply checked_add_u64_Some in Hn as [-> _].
  apply (IH _ ({[sequential_id issuer sequence]} ∪ used)); [done|lia| |lia].
  intros m [Hm%elem_of_singleton|Hm]%elem_of_union.
  - apply sequential_id_inj in Hm as ->. lia.
  - apply Hlt in Hm. lia.
Qed.

(** The guards of [derive] before the depth test. *)
Definition derive_admits (self : CapabilityState) (caller : SubjectId) (parent : CapId)
    (grant : CapabilityGrant) (now : MonotonicTime) (l : list CapId) : Prop :=
  ∃ pc, cs_capabilities self !! parent = Some pc ∧
    subject_status self caller = Some Running ∧ cm_subject (cap_metadata pc) = caller ∧
    ancestry (cs_capabilities self) parent l ∧ forallb (live self now) l = true ∧
    cm_delegable (cap_metadata pc) = true ∧
    TimeWindow_is_subset_of (grant_validity grant) (cap_validity pc) = true ∧
    authority_body_below (grant_authority grant) (cap_authority pc) = true.

Lemma derive_unfold self caller parent grant now l :
  state_inv self → derive_admits self caller parent grant now l →
  derive caller parent grant now self =
  if (MAX_DELEGATION_DEPTH <=? N.of_nat (length l))%N
  then (Err (DelegationDepthExceeded parent), self)
  else (_ ← st_query (validate_envelope grant); issue grant (Some parent)) self.
Proof.
  intros I (pc & Hpc & Hrun & Hs & Hl & Hlive & Hdel & Hsub & Hbelow).
  assert (is_held_by self caller parent = true) as Hheld by (apply (inv_held _ I); eauto).
  destruct (inv_chain _ I parent) as (l' & Hl' & Hlen); [by eapply elem_of_dom_2|].
  rewrite (ancestry_det _ _ _ _ Hl' Hl) in Hlen.
  unfold derive. unfold mbind at 1, ST_bind at 1, st_query at 1.
  rewrite (proj2 (ensure_subject_running_ok caller self tt) Hrun).
  unfold mbind at 1, ST_bind at 1, st_get. unfold mbind at 1, ST_bind at 1, st_query at 1.
  rewrite Hpc. simpl ok_or. cbv beta iota.
  rewrite Hs, bool_decide_refl, Hheld, (is_effectively_active_chain _ _ _ l), Hlive, Hdel, Hsub, Hbelow by done.
  rewrite (delegation_depth_chain _ _ l) by done. simpl. by case_match.
Qed.

(** A parent whose ancestry already has [MAX_DELEGATION_DEPTH] nodes is refused
    with [DelegationDepthExceeded] and the state is untouched, although every other
    guard admits the grant. *)
Theorem derive_rejects_full_depth self caller parent grant now l :
  reachable self → derive_admits self caller parent grant now l →
  N.of_nat (length l) = MAX_DELEGATION_DEPTH →
  derive caller parent grant now self = (Err (DelegationDepthExceeded parent), self).
Proof. intros I%reachable_inv Ha Hl. by rewrite (derive_unfold _ _ _ _ _ l), Hl by done. Qed.

Lemma issue_succeeds self grant parent sequence :
  (N.of_nat (size (cs_issued_ids self)) < MAX_CAPABILITIES_PER_SESSION)%N →
  cs_next_sequence self = Some sequence →
  (sequence + N.of_nat (size (cs_issued_ids self)) < u64_limit)%N →
  ∃ id next, (id ∉ cs_issued_ids self) ∧
    issue grant parent self = issue_with_id grant parent id (set_next_sequence next self).
Proof.
  intros Hcap Hseq Hroom. unfold issue. unfold_st.
  unfold ensure_capability_capacity.
  destruct (N.leb_spec MAX_CAPABILITIES_PER_SESSION (N.of_nat (size (cs_issued_ids self)))); [lia|].
  unfold allocate_capability_id. rewrite Hseq.
  destruct (allocate_loop_succeeds (cs_issuer self) (cs_issued_ids self)
    (S (size (cs_issued_ids self))) sequence ∅) as (id & next & Ha).
  - set_solver.
  - rewrite size_empty. lia.
  - set_solver.
  - rewrite size_empty. lia.
  - rewrite Ha. exists id, next. split; [|done]. by apply allocate_loop_ok_fresh in Ha as [? _].
Qed.

(** Derivation succeeds whenever its guards hold: the returned identity is new,
    it names exactly the granted authority with the caller's capability as parent,
    and it is active precisely while the parent is active and the granted window
    is open. *)
Theorem derive_succeeds self caller parent grant now l sequence :
  reachable self → derive_admits self caller parent grant now l →
  (N.of_nat (length l) < MAX_DELEGATION_DEPTH)%N →
  validate_envelope grant self = Ok tt →
  (N.of_nat (size (cs_issued_ids self)) < MAX_CAPABILITIES_PER_SESSION)%N →
  cs_next_sequence self = Some sequence →
  (sequence + N.of_nat (size (cs_issued_ids self)) < u64_limit)%N →
  let self' := (derive caller parent grant now self).2 in
  ∃ id, (derive caller parent grant now self).1 = Ok id ∧ (id ∉ cs_issued_ids self) ∧
    cs_capabilities self' !! id = Some (issued_capability self grant (Some parent) id) ∧
    ∀ t, is_effectively_active self' id t =
         TimeWindow_contains (grant_validity grant) t && is_effectively_active self parent t.
Proof.
  intros Hr Ha Hlen Henv Hcap Hseq Hroom self'. pose proof (reachable_inv _ Hr) as I.
  destruct (issue_succeeds self grant (Some parent) sequence Hcap Hseq Hroom) as (id & next & Hid & Hiss).
  assert (derive caller parent grant now self =
    issue_with_id grant (Some parent) id (set_next_sequence next self)) as Hd.
  { rewrite (derive_unfold _ _ _ _ _ l) by done.
    destruct (N.leb_spec MAX_DELEGATION_DEPTH (N.of_nat (length l))); [lia|].
    unfold_st. by rewrite Henv. }
  pose proof (run_op_extends (OpDerive caller parent grant now) _ Hr) as X. simpl in X. fold self' in X.
  subst self'. rewrite issue_with_id_state in Hd. rewrite Hd in X |- *. simpl.
  exists id. split; [done|]. split; [done|]. rewrite lookup_insert_eq. split; [done|].
  intros t. destruct Ha as (pc & Hpc & _ & _ & Hl & _).
  rewrite (is_effectively_active_chain _ _ _ (id :: l)).
  2:{ eapply ancestry_step; [by apply lookup_insert_eq|done|].
      eapply ancestry_mono; [apply (ext_capabilities _ _ X)|done]. }
  rewrite <- (active_same _ _ _ l t X eq_refl Hl), (is_effectively_active_chain _ _ _ l)
    by (eapply ancestry_mono; [apply (ext_capabilities _ _ X)|done]).
  cbn [forallb]. f_equal. unfold live. simpl. rewrite lookup_insert_eq. simpl.
  pose proof (inv_revoked _ I). by rewrite bool_decide_eq_false_2 by set_solver.
Qed.

(** An executable form of [ancestry], to evaluate chains in witnesses. *)
Fixpoint ancestryb (caps : gmap CapId Capability) (id : CapId) (l : list CapId) : bool :=
  match l with
  | [] => false
  | x :: l =>
      bool_decide (x = id) &&
      match caps !! id with
      | None => false
      | Some c =>
          match cm_parent (cap_metadata c), l with
          | None, [] => true
          | Some p, _ :: _ => ancestryb caps p l
          | _, _ => false
          end
      end
  end.

Lemma ancestryb_sound caps id l : ancestryb caps id l = true → ancestry caps id l.
Proof.
  revert id. induction l as [|x l IH]; intros id; simpl; [done|]. intros H.
  destruct (bool_decide_reflect (x = id)) as [->|]; simpl in H; [|done].
  destruct (caps !! id) as [c|] eqn:Hc; [|done].
  destruct (cm_parent (cap_metadata c)) as [p|] eqn:Hp, l as [|y l']; try done.
  - eapply ancestry_step; eauto.
  - eapply ancestry_root; eauto.
Qed.

Lemma derive_rejects_full_depth_witness :
  derive agent deep_id (demo_grant agent demo_root true) 5 deep_state =
  (Err (DelegationDepthExceeded deep_id), deep_state).
Proof.
  apply (derive_rejects_full_depth deep_state agent deep_id _ 5 deep_chain).
  - exact deep_reachable.
  - eexists. split_and!; [vm_compute; reflexivity..| |vm_compute; reflexivity|vm_compute; reflexivity
      |vm_compute; reflexivity|vm_compute; reflexivity].
    apply ancestryb_sound. vm_compute. reflexivity.
  - vm_compute. reflexivity.
Defined.

Lemma derive_succeeds_witness :
  ∃ id, (derive agent root_id (demo_grant worker demo_read false) 5 demo_state).1 = Ok id ∧
    (id ∉ cs_issued_ids demo_state).
Proof.
  edestruct (derive_succeeds demo_state agent root_id (demo_grant worker demo_read false) 5 [root_id] 2)
    as (id & Hid & Hfresh & _).
  - exact demo_reachable.
  - eexists. split_and!; [vm_compute; reflexivity..| |vm_compute; reflexivity|vm_compute; reflexivity
      |vm_compute; reflexivity|vm_compute; reflexivity].
    apply ancestryb_sound. vm_compute. reflexivity.
  - vm_compute. reflexivity.
  - vm_compute. reflexivity.
  - vm_compute. reflexivity.
  - vm_compute. reflexivity.
  - vm_compute. reflexivity.
  - exists id. split; assumption.
Defined.

(** ** Subject shutdown and handles *)

(** A finished subject stays finished and never again owns an open handle: after
    [finish_subject_close] succeeds, in every later state the subject is [Closed] and
    [register_open_handle] has never re-admitted one of its handles. *)
Theorem finished_subject_is_final self subject status :
  reachable self → (finish_subject_close subject self).1 = Ok status →
  ∀ ops, let self' := run_ops ops (finish_subject_close subject self).2 in
    subject_status self' subject = Some Closed ∧ subject_open_handle_count self' subject = 0.
Proof.
  intros Hr Hfin ops self'.
  pose proof (reachable_run_op (OpFinishSubjectClose subject) _ Hr) as Hr'. simpl in Hr'.
  assert (subject_status (finish_subject_close subject self).2 subject = Some Closed) as Hst.
  { clear Hr'. subst self'. unfold finish_subject_close in *. unfold_st.
    destruct (subject_status self subject) as [[]|] eqn:Hs; try done. case_bool_decide; [|done].
    simpl in *. unfold subject_status. simpl. apply lookup_insert_eq. }
  destruct (run_ops_inv_extends ops _ (reachable_inv _ Hr')) as [I' X]. fold self' in I', X.
  assert (subject_status self' subject = Some Closed) as Hst'.
  { destruct (ext_status _ _ X _ _ Hst) as (st & -> & Hle). destruct st; simpl in Hle; [lia|lia|done]. }
  split; [done|]. unfold subject_open_handle_count.
  apply map_size_empty_iff, map_empty. intros id. apply map_lookup_filter_None. right.
  intros handle Hh Hsub.
  destruct (inv_handles _ I' _ _ Hh) as (_ & _ & st & Hs & Hn). rewrite Hsub in Hs. congruence.
Qed.

Lemma finished_subject_is_final_witness :
  subject_open_handle_count
    (finish_subject_close agent (begin_subject_close agent demo_state).2).2 agent = 0.
Proof.
  refine (proj2 (finished_subject_is_final (begin_subject_close agent demo_state).2 agent
    FinishClosed _ _ [])).
  - apply (reachable_run_op (OpBeginSubjectClose agent)). exact demo_reachable.
  - vm_compute. reflexivity.
Defined.

(** [is_pristine] holds exactly of the state the constructor returns. *)
Theorem is_pristine_exact self :
  is_pristine self = true ↔ self = CapabilityState_new (cs_issuer self).
Proof.
  split; [|by intros ->]. unfold is_pristine. intros H. breflect. destruct_and!.
  destruct self; simpl in *. subst. unfold CapabilityState_new.
  repeat match goal with
  | H : size ?m = 0 |- _ => first [apply map_size_empty_inv in H | apply size_empty_inv, leibniz_equiv in H]; subst
  end. done.
Qed.

(** A handle identity is bound at most once per session and only its owner can
    close it: [close_handle] by anybody else fails, and re-registering a used
    identity fails even after the handle was closed. *)
Theorem handle_identity_is_owned self handle owner ops :
  reachable self → cs_handle_owners self !! handle = Some owner →
  let self' := run_ops ops self in
  (∀ caller, caller ≠ owner →
    close_handle caller handle self' = (Err (HandleNotOwned caller handle), self')) ∧
  (∀ h, oh_id h = handle → subject_status self' (oh_subject h) = Some Running →
    register_open_handle h self' = (Err (HandleIdAlreadyIssued handle), self')) ∧
  ((close_handle owner handle self').1 = Ok
     (if bool_decide (is_Some (cs_open_handles self' !! handle)) then HandleClosed else HandleAlreadyClosed) ∧
   cs_open_handles (close_handle owner handle self').2 = delete handle (cs_open_handles self')).
Proof.
  intros X%(run_ops_extends ops) Ho self'.
  pose proof (lookup_weaken _ _ _ _ Ho (ext_owners _ _ X)) as Ho'. fold self' in Ho'. split_and!.
  - intros caller Hn. unfold close_handle. unfold_st. rewrite Ho'. by rewrite bool_decide_eq_false_2.
  - intros h <- Hrun. unfold register_open_handle. unfold_st.
    rewrite (proj2 (ensure_subject_running_ok _ _ tt) Hrun).
    by rewrite bool_decide_eq_true_2 by eauto.
  - unfold close_handle. unfold_st. rewrite Ho', bool_decide_refl. simpl. by destruct (cs_open_handles self' !! handle).
  - unfold close_handle. unfold_st. rewrite Ho', bool_decide_refl. simpl.
    destruct (cs_open_handles self' !! handle) eqn:Hh; simpl; [done|]. by rewrite delete_id.
Qed.

Lemma handle_identity_is_owned_witness :
  close_handle agent (lit "h") (run_ops [OpRevoke root_id] demo_state) =
  (Err (HandleNotOwned agent (lit "h")), run_ops [OpRevoke root_id] demo_state).
Proof.
  apply (handle_identity_is_owned demo_state (lit "h") worker [OpRevoke root_id] demo_reachable).
  - vm_compute. reflexivity.
  - discriminate.
Defined.
