(* ===== verification/AuthorityClaims.v ===== *)
(** * Claims on the pure authority vocabulary

    Delegation and authorization decisions ([capability.rs], [file.rs]), canonical
    paths ([path.rs]), hosts and URL paths ([http.rs]) and branch names
    ([github.rs]), proved from the component lemmas. *)

From S2P Require Import Prelude Bytes Time Path BitSet AuthorityFamily File Http GitHub Capability StateHistory.

(** ** Delegation *)

(** Delegation attenuates, for every authority family.  A request the weaker
    capability permits is permitted by each capability above it in a delegation chain,
    and the comparison composes along the chain. *)
Theorem delegation_attenuates child middle parent :
  AuthorityBody_wf (cap_authority child) →
  weaker_than child middle = true → weaker_than middle parent = true →
  weaker_than child parent = true ∧
  ∀ request, capability_matches child request = true →
    capability_matches middle request = true ∧ capability_matches parent request = true.
Proof.
  intros Hwf H1 H2. split; [by eapply weaker_than_trans|]. intros request Hm.
  assert (capability_matches middle request = true) by (by eapply weaker_than_sound).
  split; [done|]. by eapply weaker_than_sound.
Qed.

Definition demo_capability (effects : list FileEffect) : Capability :=
  {| cap_metadata := CapabilityMetadata_new (lit "c") (lit "s") (lit "i");
     cap_validity := demo_window; cap_authority := demo_authority effects |}.

Lemma delegation_attenuates_witness :
  capability_matches (demo_capability [ReadData; WriteData; Truncate]) demo_request = true.
Proof.
  refine (proj2 (proj2 (delegation_attenuates (demo_capability [ReadData]) (demo_capability [ReadData; WriteData])
    (demo_capability [ReadData; WriteData; Truncate]) _ _ _) demo_request _)); try (vm_compute; reflexivity).
  split; [apply FileEffects_from_effects_wf|]. apply (bool_decide_unpack _). vm_compute. exact I.
Defined.

(** Some request is permitted: the effect set is not empty. *)
Definition grants_something (authority : FileAuthority) : Prop :=
  ∃ e, FileEffects_contains (fa_effects authority) e = true.

(** The path pattern's own path can take one more segment. *)
Definition has_room (pattern : PathPattern) : Prop :=
  ∃ q, CanonicalPath_child (PathPattern_path pattern) (lit "x") = Ok q.

Lemma has_room_some pattern :
  has_room pattern →
  is_Some (match CanonicalPath_child (PathPattern_path pattern) (lit "x") with
           | Ok q => Some q | Err _ => None end).
Proof. intros [q ->]. eauto. Qed.

Lemma pattern_matches_own_path pattern : path_matches pattern (PathPattern_path pattern) = true.
Proof. destruct pattern; simpl; [apply bool_decide_refl|apply at_or_below_refl]. Qed.

(** The file delegation test is exact.  For a child authority that grants some
    effect and whose path is not at the size limit, the syntactic comparison of
    repository, effect bits and path patterns succeeds exactly when every request on a
    canonical path that the child permits is permitted by the parent: no sound
    delegation is refused and no unsound one is accepted. *)
Theorem file_delegation_exact child parent :
  FileAuthority_wf child → grants_something child → has_room (fa_path child) →
  (file_body_below child parent = true ↔
   ∀ request, CanonicalPath_wf (fr_path request) →
     file_matches child request = true → file_matches parent request = true).
Proof.
  intros Hwf [e He] Hroom. split.
  { intros Hb request _. exact (family_below_sound child parent request Hb). }
  destruct Hwf as [Hbits Hpath]. intros H. unfold file_body_below, file_matches in *.
  assert (∀ e' path, CanonicalPath_wf path → FileEffects_contains (fa_effects child) e' = true →
    path_matches (fa_path child) path = true →
    fa_repository parent = fa_repository child ∧ FileEffects_contains (fa_effects parent) e' = true ∧
    path_matches (fa_path parent) path = true) as Hreq.
  { intros e' path Hwf' He' Hp.
    specialize (H {| fr_repository := fa_repository child; fr_effect := e'; fr_path := path |} Hwf').
    simpl in H. rewrite bool_decide_refl, He', Hp in H. specialize (H eq_refl). breflect. by destruct_and!. }
  pose proof (pattern_matches_own_path (fa_path child)) as Hself.
  destruct (Hreq e _ Hpath He Hself) as (Hrepo & _ & _). breflect. split_and!; [done| |].
  - apply FileEffects_subset_complete; [done|]. intros e' He'. by apply (Hreq e' _ Hpath He' Hself).
  - apply path_below_complete; [done|by apply has_room_some|]. intros path Hwf' Hp. by apply (Hreq e).
Qed.

Definition demo_file_authority (effects : list FileEffect) : FileAuthority :=
  {| fa_repository := lit "repo"; fa_effects := FileEffects_from_effects effects;
     fa_path := PathPrefix demo_path |}.

Lemma file_delegation_exact_witness :
  file_body_below (demo_file_authority [ReadData; WriteData]) (demo_file_authority [ReadData]) = false ∧
  ¬ (∀ request, CanonicalPath_wf (fr_path request) →
       file_matches (demo_file_authority [ReadData; WriteData]) request = true →
       file_matches (demo_file_authority [ReadData]) request = true).
Proof.
  split; [vm_compute; reflexivity|]. intros H. apply (file_delegation_exact (demo_file_authority [ReadData; WriteData])) in H.
  - vm_compute in H. discriminate.
  - split; [apply FileEffects_from_effects_wf|]. apply (bool_decide_unpack _). vm_compute. exact I.
  - exists ReadData. vm_compute. reflexivity.
  - eexists. vm_compute. reflexivity.
Defined.

(** ** Canonical paths *)

(** The constructor's loop runs through an already valid prefix. *)
Lemma new_loop_prefix rest tail done :
  segments_wf (done ++ rest) →
  CanonicalPath_new_loop (N.of_nat (length done)) (encoded_len done) done (rest ++ tail) =
  CanonicalPath_new_loop (N.of_nat (length (done ++ rest))) (encoded_len (done ++ rest)) (done ++ rest) tail.
Proof.
  revert done. induction rest as [|s rest IH]; intros done Hwf; [by rewrite app_nil_r|].
  rewrite cons_middle, (assoc_L (++)) in Hwf |- *.
  rewrite <- (IH _ Hwf). cbn [app CanonicalPath_new_loop].
  rewrite (proj2 (admit_segment_spec done s _ ltac:(by do 2 eapply segments_wf_app_l))
    (conj ltac:(by eapply segments_wf_app_l) eq_refl)). cbn [mbind result_bind].
  rewrite length_app. simpl. f_equal. lia.
Qed.

(** Growing a path is the same as building it from scratch.  On a canonical path,
    [child] returns exactly what [new] returns on the extended segment list, the error
    and its index included; and a child's parent is the path itself. *)
Theorem path_child_is_new self child :
  CanonicalPath_wf self →
  CanonicalPath_child self child = CanonicalPath_new (cp_segments self ++ [child]) ∧
  ∀ path, CanonicalPath_child self child = Ok path →
    CanonicalPath_wf path ∧ CanonicalPath_parent path = Some self.
Proof.
  intros Hwf. split.
  - rewrite CanonicalPath_child_unfold. unfold CanonicalPath_new, CanonicalPath_encoded_len.
    change (CanonicalPath_new_loop 0 0 [] ?l) with
      (CanonicalPath_new_loop (N.of_nat (length (@nil str))) (encoded_len []) [] l).
    rewrite new_loop_prefix by exact Hwf. cbn [app CanonicalPath_new_loop].
    destruct (admit_segment _ _ child) as [n|e]; done.
  - intros path Hc. split; [by eapply CanonicalPath_child_wf|].
    apply CanonicalPath_child_ok in Hc as [_ Hs]; [|done].
    unfold CanonicalPath_parent. rewrite Hs. destruct self as [segs]; cbn [cp_segments].
    destruct (segs ++ [child]) as [|a l] eqn:E; [by destruct segs|].
    by rewrite <- E, length_app, Nat.add_sub, take_app_length.
Qed.

Lemma path_child_is_new_witness :
  CanonicalPath_child demo_path (lit "..") = CanonicalPath_new [lit "src"; lit ".."] ∧
  CanonicalPath_new [lit "src"; lit ".."] =
    Err {| ips_index := 1; ips_reason := PathSegment_ParentDirectory |}.
Proof.
  split; [|vm_compute; reflexivity]. apply (path_child_is_new demo_path (lit "..")).
  apply (bool_decide_unpack _). vm_compute. exact I.
Defined.

(** A rename relocates exactly.  [rebase] succeeds exactly when the path lies at or
    below the source and the relocated path respects the limits; the result keeps the
    relative suffix, lies at or below the destination, is canonical, and moving it back
    restores the original path. *)
Theorem path_rebase_exact self source destination :
  CanonicalPath_wf self → CanonicalPath_wf destination →
  (∀ path, CanonicalPath_rebase self source destination = Some path ↔
    ∃ suffix, cp_segments self = cp_segments source ++ suffix ∧
      segments_wf (cp_segments destination ++ suffix) ∧
      cp_segments path = cp_segments destination ++ suffix) ∧
  (∀ path, CanonicalPath_rebase self source destination = Some path →
    CanonicalPath_wf path ∧ CanonicalPath_is_at_or_below path destination = true ∧
    (CanonicalPath_wf source → CanonicalPath_rebase path destination source = Some self)).
Proof.
  intros Hself Hdest. split; [intros path; by apply CanonicalPath_rebase_ok|].
  intros path (suffix & Hs & Hwf & Hp)%CanonicalPath_rebase_ok; [|done|done].
  assert (CanonicalPath_wf path) as Hpwf by (unfold CanonicalPath_wf; by rewrite Hp).
  split_and!; [done|unfold CanonicalPath_is_at_or_below; apply starts_with_spec; by exists suffix|].
  intros Hsource. apply CanonicalPath_rebase_ok; [done|done|]. exists suffix.
  split_and!; [done|by rewrite <- Hs|done].
Qed.

Lemma path_rebase_exact_witness :
  let a := {| cp_segments := [lit "a"; lit "f"] |} in
  let b := {| cp_segments := [lit "b"; lit "f"] |} in
  CanonicalPath_rebase b {| cp_segments := [lit "b"] |} {| cp_segments := [lit "a"] |} = Some a.
Proof.
  refine (proj2 (proj2 (proj2 (path_rebase_exact {| cp_segments := [lit "a"; lit "f"] |}
    {| cp_segments := [lit "a"] |} {| cp_segments := [lit "b"] |} _ _) _ _)) _);
    try (vm_compute; reflexivity); apply (bool_decide_unpack _); vm_compute; exact I.
Defined.

(** ** Hosts, URL paths and branch names *)

(** A canonical URL path has exactly one accepted spelling.  Parsing accepts a string
    exactly when it is the printed form of a path that satisfies the invariant, so
    printing and parsing are mutually inverse and no alias (dot segments, percent
    escapes, empty segments) is ever accepted. *)
Theorem url_path_has_one_spelling s path :
  CanonicalUrlPath_new s = Ok path ↔
  CanonicalUrlPath_wf path ∧ CanonicalUrlPath_to_string path = s.
Proof. apply CanonicalUrlPath_new_iff. Qed.

Lemma to_ascii_lowercase_app s t :
  to_ascii_lowercase (s ++ t) = to_ascii_lowercase s ++ to_ascii_lowercase t.
Proof. apply map_app. Qed.

Lemma CanonicalHost_new_ascii s host : CanonicalHost_new s = Ok host → is_ascii s = true.
Proof. unfold CanonicalHost_new. by destruct (is_ascii s). Qed.

(** Host comparison is by canonical form.  An accepted host is lower case, without a
    trailing dot, not an IP literal and made of valid labels; canonicalising it again
    changes nothing, and its spelling with one trailing dot denotes the same host. *)
Theorem host_canonical_form s host :
  CanonicalHost_new s = Ok host →
  CanonicalHost_wf host ∧ last (ch_name host) ≠ Some (chr ".") ∧
  CanonicalHost_new (ch_name host) = Ok host ∧
  CanonicalHost_new (ch_name host ++ lit ".") = Ok host.
Proof.
  intros H. pose proof (CanonicalHost_new_wf _ _ H) as Hwf.
  pose proof (CanonicalHost_new_canonical _ Hwf) as Hn. pose proof (CanonicalHost_wf_last _ Hwf) as Hlast.
  split_and!; [done|done|done|]. pose proof (CanonicalHost_new_ascii _ _ Hn) as Ha.
  revert Hn. unfold CanonicalHost_new. rewrite is_ascii_app, Ha. simpl.
  rewrite (proj2 (strip_suffix_byte_None (chr ".") (ch_name host)) Hlast).
  rewrite (proj2 (strip_suffix_byte_Some (chr ".") (ch_name host ++ lit ".") (ch_name host)) eq_refl).
  done.
Qed.

Lemma host_canonical_form_witness :
  CanonicalHost_new (lit "api.github.com.") = Ok {| ch_name := lit "api.github.com" |}.
Proof.
  apply (host_canonical_form (lit "API.GitHub.com.") {| ch_name := lit "api.github.com" |}).
  vm_compute. reflexivity.
Defined.

(** A branch name round trips, and containment respects segments.  Printing an
    accepted name gives back its spelling, each segment satisfies git's reference rules,
    and a name lies at or below another exactly when it is that name or continues it
    with a slash. *)
Theorem branch_name_roundtrip v w b a :
  BranchName_new v = Ok b → BranchName_new w = Ok a →
  BranchName_to_string b = v ∧ Forall valid_branch_segment (bn_segments b) ∧
  (BranchName_is_at_or_below b a = true ↔ v = w ∨ ∃ rest, v = w ++ lit "/" ++ rest).
Proof.
  intros Hb Ha. pose proof (BranchName_new_to_string _ _ Hb) as Hv. pose proof (BranchName_new_to_string _ _ Ha) as Hw.
  apply BranchName_new_segments in Hb as [Hbs Hbv]. apply BranchName_new_segments in Ha as [Has Hav].
  split_and!; [done|done|]. unfold BranchName_is_at_or_below. rewrite starts_with_spec, Hbs, Has. split.
  - intros [k Hk]. rewrite <- (join_split (chr "/") v), <- (join_split (chr "/") w), Hk.
    destruct k as [|x k]; [left; by rewrite app_nil_r|right]. exists (join (chr "/") (x :: k)).
    rewrite join_app by (done || apply split_not_nil). done.
  - intros [->|[rest ->]]; [done|]. change (lit "/" ++ rest) with (chr "/" :: rest).
    rewrite split_app. by eexists.
Qed.

Lemma branch_name_roundtrip_witness :
  ∃ b, BranchName_new (lit "release/1.0") = Ok b ∧ BranchName_to_string b = lit "release/1.0".
Proof.
  eexists. split; [vm_compute; reflexivity|].
  apply (branch_name_roundtrip (lit "release/1.0") (lit "release") _ {| bn_segments := [lit "release"] |});
    vm_compute; reflexivity.
Defined.
