(* ===== verification/ControlFrame.v ===== *)
(** * Control frames ([crates/egress-protocol/src/frame.rs])

    A four-byte big-endian length prefix and an opaque payload of at most
    [MAX_CONTROL_FRAME_BYTES].  The bound is checked on the prefix, before a
    payload buffer would be allocated. *)

From S2P Require Import Prelude Bytes.

Definition MAX_CONTROL_FRAME_BYTES : N := 1024 * 1024.
Definition CONTROL_FRAME_LENGTH_PREFIX_BYTES : nat := 4.

Record ControlFrame := { cf_payload : str; cf_wire_length : N }.

Inductive FrameError :=
  | FrameTooLarge (length : N)
  | TruncatedPrefix
  | TruncatedPayload (expected actual : N)
  | TrailingBytes (declared trailing : N).

Definition ValidatedFrameLength_from_network_prefix (prefix : str) : result FrameError N :=
  let length := from_be_bytes prefix in
  if (MAX_CONTROL_FRAME_BYTES <? length)%N then Err (FrameTooLarge length) else Ok length.

Definition ControlFrame_new (payload : str) : result FrameError ControlFrame :=
  let length := len payload in
  if (MAX_CONTROL_FRAME_BYTES <? length)%N then Err (FrameTooLarge length)
  else if negb (length <? 2 ^ 32)%N then Err (FrameTooLarge length)
  else Ok {| cf_payload := payload; cf_wire_length := length |}.

Definition ControlFrame_encoded_len (self : ControlFrame) : N :=
  N.of_nat CONTROL_FRAME_LENGTH_PREFIX_BYTES + len (cf_payload self).

Definition ControlFrame_encode (self : ControlFrame) : str :=
  be_bytes 4 (cf_wire_length self) ++ cf_payload self.

(** [get(..4)] fails on a shorter slice; [get(4..)] cannot fail after it. *)
Definition ControlFrame_decode_complete (encoded : str) : result FrameError ControlFrame :=
  if (length encoded <? CONTROL_FRAME_LENGTH_PREFIX_BYTES)%nat then Err TruncatedPrefix
  else
    length ← ValidatedFrameLength_from_network_prefix (take CONTROL_FRAME_LENGTH_PREFIX_BYTES encoded);
    let payload := drop CONTROL_FRAME_LENGTH_PREFIX_BYTES encoded in
    if (len payload <? length)%N then Err (TruncatedPayload length (len payload))
    else if (length <? len payload)%N then Err (TrailingBytes length (len payload - length)%N)
    else ControlFrame_new payload.

(** ** Properties *)

Lemma ControlFrame_new_ok payload frame :
  ControlFrame_new payload = Ok frame ↔
  (len payload <= MAX_CONTROL_FRAME_BYTES)%N ∧ frame = {| cf_payload := payload; cf_wire_length := len payload |}.
Proof.
  unfold ControlFrame_new. destruct (N.ltb_spec MAX_CONTROL_FRAME_BYTES (len payload)); [naive_solver lia|].
  destruct (N.ltb_spec (len payload) (2 ^ 32)); simpl; [naive_solver|].
  unfold MAX_CONTROL_FRAME_BYTES in *. lia.
Qed.

Lemma prefix_roundtrip n : (n <= MAX_CONTROL_FRAME_BYTES)%N → from_be_bytes (be_bytes 4 n) = n.
Proof. intros Hn. apply from_to_be_bytes. unfold MAX_CONTROL_FRAME_BYTES in Hn. simpl. lia. Qed.

Lemma decode_encode payload frame :
  ControlFrame_new payload = Ok frame → ControlFrame_decode_complete (ControlFrame_encode frame) = Ok frame.
Proof.
  intros Hf. pose proof Hf as [Hlen ->]%ControlFrame_new_ok.
  unfold ControlFrame_decode_complete, ControlFrame_encode, ValidatedFrameLength_from_network_prefix.
  cbn [cf_wire_length cf_payload]. unfold CONTROL_FRAME_LENGTH_PREFIX_BYTES.
  rewrite take_app_length', drop_app_length' by (by rewrite length_be_bytes).
  rewrite length_app, length_be_bytes, prefix_roundtrip by done. change (4 + ?n <? 4)%nat with false. cbv iota.
  destruct (N.ltb_spec MAX_CONTROL_FRAME_BYTES (len payload)); [lia|]. cbn [mbind result_bind].
  by rewrite N.ltb_irrefl.
Qed.

Lemma encode_decode encoded frame :
  ControlFrame_decode_complete encoded = Ok frame →
  ControlFrame_new (cf_payload frame) = Ok frame ∧ ControlFrame_encode frame = encoded.
Proof.
  unfold ControlFrame_decode_complete, ValidatedFrameLength_from_network_prefix, CONTROL_FRAME_LENGTH_PREFIX_BYTES.
  destruct (Nat.ltb_spec (length encoded) 4) as [|Hl]; [done|].
  destruct (N.ltb_spec MAX_CONTROL_FRAME_BYTES (from_be_bytes (take 4 encoded))); [done|]. cbn [mbind result_bind].
  destruct (N.ltb_spec (len (drop 4 encoded)) (from_be_bytes (take 4 encoded))); [done|].
  destruct (N.ltb_spec (from_be_bytes (take 4 encoded)) (len (drop 4 encoded))); [done|].
  intros Hf. pose proof Hf as [Hlen ->]%ControlFrame_new_ok. split; [done|].
  unfold ControlFrame_encode. cbn [cf_wire_length cf_payload].
  replace (len (drop 4 encoded)) with (from_be_bytes (take 4 encoded)) by lia.
  assert (length (take 4 encoded) = 4) as H4 by (rewrite length_take; lia).
  pose proof (to_from_be_bytes (take 4 encoded)) as Hb. rewrite H4 in Hb. rewrite Hb. apply take_drop.
Qed.

(** Control frames are in exact correspondence with their encodings.  A byte string
    decodes to a frame exactly when it is the encoding of that frame and the frame is
    one the constructor builds, so truncated, oversized and concatenated inputs are all
    refused and no frame has two encodings. *)
Theorem control_frame_codec_exact encoded frame :
  ControlFrame_decode_complete encoded = Ok frame ↔
  ControlFrame_new (cf_payload frame) = Ok frame ∧ ControlFrame_encode frame = encoded.
Proof.
  split; [apply encode_decode|]. intros [Hn <-]. by eapply decode_encode.
Qed.
