(* ===== verification/Budget.v ===== *)
(** * Session-wide resource budgets ([crates/egress-protocol/src/budget.rs])

    Request-count tokens, concurrent reservations and response bytes of one broker
    session.  Every counter is a [u64] with its checked arithmetic written out. *)

From S2P Require Import Prelude Bytes.

(** A 128-bit request identity: its sixteen bytes. *)
Abbreviation BrokerRequestId := str.

Record SessionBudgetLimits := {
  sbl_requests : N;
  sbl_response_bytes : N;
  sbl_concurrent : N;
}.

Record ResponseReservation := { rr_request : BrokerRequestId; rr_max_response_bytes : N }.

Inductive SessionBudgetError :=
  | RequestCountExhausted
  | ConcurrentRequestLimitReached
  | ResponseBytesExhausted (requested remaining : N)
  | ReservationAlreadyActive (request : BrokerRequestId)
  | UnknownReservation (request : BrokerRequestId)
  | ResponseExceedsReservation (request : BrokerRequestId) (received reserved : N)
  | AccountingInvariantBroken.

Record SessionBudget := {
  sb_limits : SessionBudgetLimits;
  sb_started : N;
  sb_committed : N;
  sb_reserved : N;
  sb_active : gmap BrokerRequestId ResponseReservation;
}.

Record SessionBudgetUsage := {
  sbu_started_requests : N;
  sbu_committed_response_bytes : N;
  sbu_reserved_response_bytes : N;
  sbu_active_requests : N;
}.

Definition active_len (self : SessionBudget) : N := N.of_nat (size (sb_active self)).

Definition SessionBudget_new (limits : SessionBudgetLimits) : SessionBudget :=
  {| sb_limits := limits; sb_started := 0; sb_committed := 0; sb_reserved := 0; sb_active := ∅ |}.

Definition SessionBudget_usage (self : SessionBudget) : SessionBudgetUsage :=
  {| sbu_started_requests := sb_started self; sbu_committed_response_bytes := sb_committed self;
     sbu_reserved_response_bytes := sb_reserved self; sbu_active_requests := active_len self |}.

Abbreviation BM := (ST SessionBudget SessionBudgetError).

Definition SessionBudget_start (request : BrokerRequestId) (max_response_bytes : N)
    : BM ResponseReservation :=
  self ← st_get;
  if bool_decide (is_Some (sb_active self !! request)) then st_fail (ReservationAlreadyActive request)
  else if (sbl_requests (sb_limits self) <=? sb_started self)%N then st_fail RequestCountExhausted
  else if (sbl_concurrent (sb_limits self) <=? active_len self)%N
  then st_fail ConcurrentRequestLimitReached
  else
    used_or_reserved ← st_query (λ self,
      ok_or (checked_add_u64 (sb_committed self) (sb_reserved self)) AccountingInvariantBroken);
    remaining ← st_query (λ self,
      ok_or (checked_sub_u64 (sbl_response_bytes (sb_limits self)) used_or_reserved)
        AccountingInvariantBroken);
    if (remaining <? max_response_bytes)%N
    then st_fail (ResponseBytesExhausted max_response_bytes remaining)
    else
      next_started ← st_query (λ self,
        ok_or (checked_add_u64 (sb_started self) 1) AccountingInvariantBroken);
      next_reserved ← st_query (λ self,
        ok_or (checked_add_u64 (sb_reserved self) max_response_bytes) AccountingInvariantBroken);
      let reservation := {| rr_request := request; rr_max_response_bytes := max_response_bytes |} in
      _ ← st_modify (λ self,
        {| sb_limits := sb_limits self; sb_started := next_started; sb_committed := sb_committed self;
           sb_reserved := next_reserved; sb_active := <[request := reservation]> (sb_active self) |});
      mret reservation.

Definition SessionBudget_complete (request : BrokerRequestId) (received_response_bytes : N) : BM unit :=
  reservation ← st_query (λ self, ok_or (sb_active self !! request) (UnknownReservation request));
  if (rr_max_response_bytes reservation <? received_response_bytes)%N
  then st_fail (ResponseExceedsReservation request received_response_bytes
                  (rr_max_response_bytes reservation))
  else
    next_committed ← st_query (λ self,
      ok_or (checked_add_u64 (sb_committed self) received_response_bytes) AccountingInvariantBroken);
    next_reserved ← st_query (λ self,
      ok_or (checked_sub_u64 (sb_reserved self) (rr_max_response_bytes reservation))
        AccountingInvariantBroken);
    st_modify (λ self,
      {| sb_limits := sb_limits self; sb_started := sb_started self; sb_committed := next_committed;
         sb_reserved := next_reserved; sb_active := delete request (sb_active self) |}).

Definition SessionBudget_abort (request : BrokerRequestId) : BM unit :=
  reservation ← st_query (λ self, ok_or (sb_active self !! request) (UnknownReservation request));
  next_reserved ← st_query (λ self,
    ok_or (checked_sub_u64 (sb_reserved self) (rr_max_response_bytes reservation))
      AccountingInvariantBroken);
  st_modify (λ self,
    {| sb_limits := sb_limits self; sb_started := sb_started self; sb_committed := sb_committed self;
       sb_reserved := next_reserved; sb_active := delete request (sb_active self) |}).

(** ** The public methods as operations *)

Inductive budget_op :=
  | BStart (request : BrokerRequestId) (max_response_bytes : N)
  | BComplete (request : BrokerRequestId) (received : N)
  | BAbort (request : BrokerRequestId).

Definition budget_error (op : budget_op) (self : SessionBudget) : option SessionBudgetError :=
  let err {A} (r : result SessionBudgetError A) := match r with Ok _ => None | Err e => Some e end in
  match op with
  | BStart request bytes => err (SessionBudget_start request bytes self).1
  | BComplete request received => err (SessionBudget_complete request received self).1
  | BAbort request => err (SessionBudget_abort request self).1
  end.

Definition run_budget_op (op : budget_op) (self : SessionBudget) : SessionBudget :=
  match op with
  | BStart request bytes => (SessionBudget_start request bytes self).2
  | BComplete request received => (SessionBudget_complete request received self).2
  | BAbort request => (SessionBudget_abort request self).2
  end.

Definition run_budget (ops : list budget_op) (self : SessionBudget) : SessionBudget :=
  foldl (λ s op, run_budget_op op s) self ops.

(** ** Invariant *)

(** The bytes held by the active reservations. *)
Definition reserved_sum (active : gmap BrokerRequestId ResponseReservation) : N :=
  map_fold (λ _ r sum, (rr_max_response_bytes r + sum)%N) 0%N active.

Record budget_inv (self : SessionBudget) : Prop := {
  bi_reserved : sb_reserved self = reserved_sum (sb_active self);
  bi_bytes : (sb_committed self + sb_reserved self <= sbl_response_bytes (sb_limits self))%N;
  bi_started : (sb_started self <= sbl_requests (sb_limits self))%N;
  bi_concurrent : (active_len self <= sbl_concurrent (sb_limits self))%N;
  bi_active_started : (active_len self <= sb_started self)%N;
}.

(** The limits are machine integers, the count and concurrency limits non-zero. *)
Definition limits_wf (limits : SessionBudgetLimits) : Prop :=
  (0 < sbl_requests limits < u64_limit)%N ∧ (sbl_response_bytes limits < u64_limit)%N ∧
  (0 < sbl_concurrent limits)%N.

Lemma reserved_sum_insert active request r :
  active !! request = None →
  reserved_sum (<[request := r]> active) = (rr_max_response_bytes r + reserved_sum active)%N.
Proof. intros H. unfold reserved_sum. rewrite map_fold_insert_L; [done|intros; lia|done]. Qed.

Lemma reserved_sum_delete active request r :
  active !! request = Some r →
  reserved_sum active = (rr_max_response_bytes r + reserved_sum (delete request active))%N.
Proof. intros H. unfold reserved_sum. rewrite (map_fold_delete_L _ _ request r); [done|intros; lia|done]. Qed.

(** ** What each call does on an accounted budget *)

Section calls.
  Context (self : SessionBudget) (I : budget_inv self) (L : limits_wf (sb_limits self)).

Definition may_start (request : BrokerRequestId) (bytes : N) : Prop :=
  sb_active self !! request = None ∧ (sb_started self < sbl_requests (sb_limits self))%N ∧
  (active_len self < sbl_concurrent (sb_limits self))%N ∧
  (sb_committed self + sb_reserved self + bytes <= sbl_response_bytes (sb_limits self))%N.

Definition started_budget (request : BrokerRequestId) (bytes : N) : SessionBudget :=
  {| sb_limits := sb_limits self; sb_started := sb_started self + 1; sb_committed := sb_committed self;
     sb_reserved := sb_reserved self + bytes;
     sb_active := <[request := {| rr_request := request; rr_max_response_bytes := bytes |}]>
                    (sb_active self) |}.

Definition released_budget (request : BrokerRequestId) (reserved received : N) : SessionBudget :=
  {| sb_limits := sb_limits self; sb_started := sb_started self; sb_committed := sb_committed self + received;
     sb_reserved := sb_reserved self - reserved; sb_active := delete request (sb_active self) |}.

Lemma start_result request bytes :
  SessionBudget_start request bytes self =
    (Ok {| rr_request := request; rr_max_response_bytes := bytes |}, started_budget request bytes) ∧
    may_start request bytes ∨
  ∃ e, SessionBudget_start request bytes self = (Err e, self) ∧ e ≠ AccountingInvariantBroken ∧
    ¬ may_start request bytes.
Proof.
  destruct I as [Hsum Hb Hs Hc Ha], L as (HL1 & HL2 & HL3). unfold SessionBudget_start, may_start. unfold_st.
  case_bool_decide as Hact; [right; eexists; split_and!; [done|done|]; intros (Hn & _); rewrite Hn in Hact; by destruct Hact|].
  apply eq_None_not_Some in Hact.
  destruct (N.leb_spec (sbl_requests (sb_limits self)) (sb_started self));
    [right; eexists; split_and!; [done|done|lia]|].
  destruct (N.leb_spec (sbl_concurrent (sb_limits self)) (active_len self));
    [right; eexists; split_and!; [done|done|lia]|].
  rewrite (proj2 (checked_add_u64_Some (sb_committed self) (sb_reserved self) _)) by (split; [done|lia]). simpl.
  rewrite (proj2 (checked_sub_u64_Some _ (sb_committed self + sb_reserved self) _)) by (split; [done|lia]). simpl.
  destruct (N.ltb_spec (sbl_response_bytes (sb_limits self) - (sb_committed self + sb_reserved self)) bytes);
    [right; eexists; split_and!; [done|done|lia]|].
  rewrite (proj2 (checked_add_u64_Some (sb_started self) 1 _)) by (split; [done|lia]). simpl.
  rewrite (proj2 (checked_add_u64_Some (sb_reserved self) bytes _)) by (split; [done|lia]). simpl.
  left. split_and!; [done|done|lia|lia|lia].
Qed.

Lemma active_reserved request r :
  sb_active self !! request = Some r → (rr_max_response_bytes r <= sb_reserved self)%N.
Proof. intros H. rewrite (bi_reserved _ I), (reserved_sum_delete _ _ _ H). lia. Qed.

Lemma complete_result request received :
  (∃ r, sb_active self !! request = Some r ∧ (received <= rr_max_response_bytes r)%N ∧
    SessionBudget_complete request received self
      = (Ok tt, released_budget request (rr_max_response_bytes r) received)) ∨
  ∃ e, SessionBudget_complete request received self = (Err e, self) ∧ e ≠ AccountingInvariantBroken ∧
    ¬ (∃ r, sb_active self !! request = Some r ∧ (received <= rr_max_response_bytes r)%N).
Proof.
  pose proof I as [Hsum Hb _ _ _]. destruct L as (_ & HL2 & _). unfold SessionBudget_complete. unfold_st.
  destruct (sb_active self !! request) as [r|] eqn:Hr; simpl; [|right; naive_solver].
  pose proof (active_reserved _ _ Hr).
  destruct (N.ltb_spec (rr_max_response_bytes r) received); [right; naive_solver lia|].
  rewrite (proj2 (checked_add_u64_Some (sb_committed self) received _)) by (split; [done|lia]). simpl.
  rewrite (proj2 (checked_sub_u64_Some (sb_reserved self) (rr_max_response_bytes r) _)) by (split; [done|lia]).
  left. eauto.
Qed.

Lemma abort_result request :
  (∃ r, sb_active self !! request = Some r ∧
    SessionBudget_abort request self = (Ok tt, released_budget request (rr_max_response_bytes r) 0)) ∨
  SessionBudget_abort request self = (Err (UnknownReservation request), self) ∧
    sb_active self !! request = None.
Proof.
  unfold SessionBudget_abort. unfold_st.
  destruct (sb_active self !! request) as [r|] eqn:Hr; simpl; [|by right].
  pose proof (active_reserved _ _ Hr).
  rewrite (proj2 (checked_sub_u64_Some (sb_reserved self) (rr_max_response_bytes r) _)) by (split; [done|lia]).
  left. exists r. split; [done|]. unfold released_budget. by rewrite N.add_0_r.
Qed.

Lemma started_budget_inv request bytes : may_start request bytes → budget_inv (started_budget request bytes).
Proof.
  intros (Hn & Hs & Hc & Hb). pose proof I as [Hsum _ _ _ Ha]. unfold active_len in *.
  split; unfold active_len; simpl; rewrite ?map_size_insert_None, ?reserved_sum_insert by done; simpl; lia.
Qed.

Lemma released_budget_inv request r received :
  sb_active self !! request = Some r → (received <= rr_max_response_bytes r)%N →
  budget_inv (released_budget request (rr_max_response_bytes r) received).
Proof.
  intros Hr Hle. pose proof (active_reserved _ _ Hr). pose proof I as [Hsum Hb Hs Hc Ha].
  pose proof (reserved_sum_delete _ _ _ Hr). unfold active_len in *.
  split; unfold active_len; simpl; rewrite ?map_size_delete_Some by eauto; lia.
Qed.
End calls.

Lemma run_budget_op_inv op self :
  budget_inv self → limits_wf (sb_limits self) →
  budget_inv (run_budget_op op self) ∧ sb_limits (run_budget_op op self) = sb_limits self ∧
  budget_error op self ≠ Some AccountingInvariantBroken ∧
  (is_Some (budget_error op self) → run_budget_op op self = self).
Proof.
  intros I L. destruct op as [request bytes|request received|request]; simpl.
  - destruct (start_result self I L request bytes) as [[-> H]|(e & -> & ? & _)]; simpl; [|naive_solver].
    split_and!; [by apply started_budget_inv|done|done|by intros []].
  - destruct (complete_result self I L request received) as [(r & Hr & Hle & ->)|(e & -> & ? & _)]; simpl;
      [|naive_solver]. split_and!; [by apply released_budget_inv|done|done|by intros []].
  - destruct (abort_result self I request) as [(r & Hr & ->)|[-> _]]; simpl; [|naive_solver].
    split_and!; [apply released_budget_inv; [done|done|lia]|done|done|by intros []].
Qed.

Lemma run_budget_inv ops limits :
  limits_wf limits →
  budget_inv (run_budget ops (SessionBudget_new limits)) ∧
  sb_limits (run_budget ops (SessionBudget_new limits)) = limits.
Proof.
  intros L. unfold run_budget. assert (budget_inv (SessionBudget_new limits)) as I.
  { split; unfold active_len; simpl; rewrite ?map_size_empty; [done|lia..]. }
  assert (sb_limits (SessionBudget_new limits) = limits) as HL by done.
  revert I HL. generalize (SessionBudget_new limits).
  induction ops as [|op ops IH]; intros s I HL; simpl; [done|].
  destruct (run_budget_op_inv op s I ltac:(by rewrite HL)) as (I' & HL' & _ & _).
  apply IH; [done|congruence].
Qed.

(** C34: a session never exceeds its budget.  After any sequence of starts, completions
    and aborts, successful or not, committed plus reserved response bytes, started
    requests and concurrent requests are within the limits, the reserved bytes are
    exactly those of the active reservations, and the accounting error is unreachable. *)
Theorem budget_never_exceeded ops limits :
  limits_wf limits →
  let self := run_budget ops (SessionBudget_new limits) in
  budget_inv self ∧ sb_limits self = limits ∧
  ∀ op, budget_error op self ≠ Some AccountingInvariantBroken.
Proof.
  intros L self. destruct (run_budget_inv ops limits L) as [I HL]. split_and!; [done|done|].
  intros op. apply run_budget_op_inv; [done|subst self; by rewrite HL].
Qed.

Definition demo_limits : SessionBudgetLimits :=
  {| sbl_requests := 3; sbl_response_bytes := 100; sbl_concurrent := 2 |}.
Definition demo_budget_ops : list budget_op :=
  [BStart (lit "a") 60; BStart (lit "b") 60; BStart (lit "c") 40; BComplete (lit "a") 10; BAbort (lit "c")].

Lemma demo_limits_wf : limits_wf demo_limits.
Proof. unfold limits_wf, u64_limit; simpl. lia. Qed.

Lemma budget_never_exceeded_witness :
  budget_inv (run_budget demo_budget_ops (SessionBudget_new demo_limits)).
Proof. apply (budget_never_exceeded demo_budget_ops demo_limits). exact demo_limits_wf. Defined.

(** The budget refuses exactly what would exceed it.  On a reachable budget, a
    request starts exactly when its identity is not active and the count, concurrency
    and byte limits all have room for it; a completion succeeds exactly within its
    reservation; an abort exactly when the request is active; and a refused call leaves
    the accounting unchanged. *)
Theorem budget_calls_exact ops limits :
  limits_wf limits →
  let self := run_budget ops (SessionBudget_new limits) in
  (∀ request bytes, is_ok (SessionBudget_start request bytes self).1 = true ↔ may_start self request bytes) ∧
  (∀ request received, is_ok (SessionBudget_complete request received self).1 = true ↔
     ∃ r, sb_active self !! request = Some r ∧ (received <= rr_max_response_bytes r)%N) ∧
  (∀ request, is_ok (SessionBudget_abort request self).1 = true ↔ is_Some (sb_active self !! request)) ∧
  (∀ op, is_Some (budget_error op self) → run_budget_op op self = self).
Proof.
  intros L self. destruct (run_budget_inv ops limits L) as [I HL].
  assert (limits_wf (sb_limits self)) as L' by (subst self; by rewrite HL). split_and!.
  - intros request bytes. by destruct (start_result self I L' request bytes) as [[-> H]|(e & -> & _ & H)].
  - intros request received.
    destruct (complete_result self I L' request received) as [(r & Hr & Hle & ->)|(e & -> & _ & H)]; [|done].
    split; [eauto|done].
  - intros request. destruct (abort_result self I request) as [(r & -> & ->)|[-> ->]]; [by split; eauto|].
    split; [done|by intros []].
  - intros op. by apply run_budget_op_inv.
Qed.

Lemma budget_calls_exact_witness :
  ¬ may_start (run_budget demo_budget_ops (SessionBudget_new demo_limits)) (lit "d") 91 ∧
  may_start (run_budget demo_budget_ops (SessionBudget_new demo_limits)) (lit "d") 90.
Proof.
  pose proof (proj1 (budget_calls_exact demo_budget_ops demo_limits demo_limits_wf)) as H. split.
  - intros Hd. apply H in Hd. vm_compute in Hd. discriminate.
  - apply H. vm_compute. reflexivity.
Defined.
