(* ===== verification/ReplayGuard.v ===== *)
(** * Broker sessions and replay protection ([crates/egress-protocol/src/session.rs])

    Identities are their fixed-width bytes.  SHA-256 is the [sha2] crate's; it is
    the argument [sha256] of the definitions that hash a payload, and no property
    below assumes anything of it. *)

From S2P Require Import Prelude Bytes Budget.

Abbreviation BrokerSessionId := str.
Abbreviation PayloadHash := str.

Record BrokerEnvelope := {
  be_session : BrokerSessionId;
  be_sequence : N;
  be_request : BrokerRequestId;
  be_payload_hash : PayloadHash;
}.

Record AcceptedRequest := { ar_sequence : N; ar_payload_hash : PayloadHash }.

Inductive EnvelopeAcceptance := AcceptNew | AcceptDuplicate.

Inductive EnvelopeError :=
  | WrongSession (expected received : BrokerSessionId)
  | OutOfOrderSequence (expected received : N)
  | EnvelopeSequenceExhausted
  | RequestIdentityMismatch (request : BrokerRequestId)
  | PayloadHashMismatch
  | RequestCapacityExhausted.

Record SessionReplayGuard := {
  rg_session : BrokerSessionId;
  rg_next_sequence : option N;
  rg_capacity : N;
  rg_accepted : gmap BrokerRequestId AcceptedRequest;
}.

#[export] Instance BrokerEnvelope_eq_dec : EqDecision BrokerEnvelope.
Proof. solve_decision. Defined.
#[export] Instance EnvelopeAcceptance_eq_dec : EqDecision EnvelopeAcceptance.
Proof. solve_decision. Defined.
#[export] Instance EnvelopeError_eq_dec : EqDecision EnvelopeError.
Proof. solve_decision. Defined.

Definition SessionReplayGuard_new (session : BrokerSessionId) (capacity : N) : SessionReplayGuard :=
  {| rg_session := session; rg_next_sequence := Some 0%N; rg_capacity := capacity; rg_accepted := ∅ |}.

Abbreviation GM := (ST SessionReplayGuard EnvelopeError).

Definition SessionReplayGuard_accept (envelope : BrokerEnvelope) : GM EnvelopeAcceptance :=
  self ← st_get;
  if negb (bool_decide (be_session envelope = rg_session self))
  then st_fail (WrongSession (rg_session self) (be_session envelope))
  else match rg_accepted self !! be_request envelope with
  | Some accepted =>
      if (ar_sequence accepted =? be_sequence envelope)%N
         && bool_decide (ar_payload_hash accepted = be_payload_hash envelope)
      then mret AcceptDuplicate
      else st_fail (RequestIdentityMismatch (be_request envelope))
  | None =>
      expected ← st_query (λ self, ok_or (rg_next_sequence self) EnvelopeSequenceExhausted);
      if negb (be_sequence envelope =? expected)%N
      then st_fail (OutOfOrderSequence expected (be_sequence envelope))
      else if (rg_capacity self <=? N.of_nat (size (rg_accepted self)))%N
      then st_fail RequestCapacityExhausted
      else
        _ ← st_modify (λ self,
          {| rg_session := rg_session self;
             rg_next_sequence := checked_add_u64 (be_sequence envelope) 1;
             rg_capacity := rg_capacity self;
             rg_accepted := <[be_request envelope :=
               {| ar_sequence := be_sequence envelope; ar_payload_hash := be_payload_hash envelope |}]>
               (rg_accepted self) |});
        mret AcceptNew
  end.

Section hashing.
  Context (sha256 : str → PayloadHash).

Definition of_canonical_payload (payload : str) : PayloadHash := sha256 payload.

Definition from_canonical_payload (session : BrokerSessionId) (sequence : N)
    (request : BrokerRequestId) (payload : str) : BrokerEnvelope :=
  {| be_session := session; be_sequence := sequence; be_request := request;
     be_payload_hash := of_canonical_payload payload |}.

Definition binds_canonical_payload (self : BrokerEnvelope) (payload : str) : bool :=
  bool_decide (be_payload_hash self = of_canonical_payload payload).

Definition accept_payload (envelope : BrokerEnvelope) (payload : str) : GM EnvelopeAcceptance :=
  self ← st_get;
  if negb (bool_decide (be_session envelope = rg_session self)) then SessionReplayGuard_accept envelope
  else if negb (binds_canonical_payload envelope payload) then st_fail PayloadHashMismatch
  else SessionReplayGuard_accept envelope.

(** ** Runs *)

Abbreviation call_record := (BrokerEnvelope * str * result EnvelopeError EnvelopeAcceptance)%type.

(** A sequence of calls with the result each returned. *)
Fixpoint run_guard (calls : list (BrokerEnvelope * str)) (self : SessionReplayGuard)
    : list call_record * SessionReplayGuard :=
  match calls with
  | [] => ([], self)
  | (envelope, payload) :: rest =>
      let '(r, self) := accept_payload envelope payload self in
      let '(trace, self) := run_guard rest self in ((envelope, payload, r) :: trace, self)
  end.

(** The envelopes admitted for dispatch, in order. *)
Definition admitted (trace : list call_record) : list BrokerEnvelope :=
  omap (λ '(envelope, _, r), if bool_decide (r = Ok AcceptNew) then Some envelope else None) trace.

(** ** Invariant: the table is exactly the admitted envelopes *)

Definition retained (e : BrokerEnvelope) : AcceptedRequest :=
  {| ar_sequence := be_sequence e; ar_payload_hash := be_payload_hash e |}.

Record guard_inv (session : BrokerSessionId) (capacity : N) (self : SessionReplayGuard)
    (l : list BrokerEnvelope) : Prop := {
  gi_session : rg_session self = session;
  gi_capacity : rg_capacity self = capacity;
  gi_table : rg_accepted self = list_to_map ((λ e, (be_request e, retained e)) <$> l);
  gi_distinct : NoDup (be_request <$> l);
  gi_order : ∀ i e, l !! i = Some e → be_sequence e = N.of_nat i ∧ be_session e = session;
  gi_next : rg_next_sequence self =
    if (N.of_nat (length l) <? u64_limit)%N then Some (N.of_nat (length l)) else None;
  gi_bound : (N.of_nat (length l) <= capacity)%N;
}.

Lemma guard_inv_lookup session capacity self l request a :
  guard_inv session capacity self l →
  rg_accepted self !! request = Some a ↔ ∃ e, e ∈ l ∧ be_request e = request ∧ retained e = a.
Proof.
  intros G. rewrite (gi_table _ _ _ _ G), <- elem_of_list_to_map, list_elem_of_fmap.
  - split; [intros (e & [= -> ->] & ?); eauto|intros (e & ? & <- & <-); eauto].
  - rewrite <- list_fmap_compose. apply (gi_distinct _ _ _ _ G).
Qed.

Lemma guard_inv_size session capacity self l :
  guard_inv session capacity self l → size (rg_accepted self) = length l.
Proof.
  intros G. rewrite (gi_table _ _ _ _ G), map_size_list_to_map, length_fmap; [done|].
  rewrite <- list_fmap_compose. apply (gi_distinct _ _ _ _ G).
Qed.

Lemma guard_inv_new session capacity : guard_inv session capacity (SessionReplayGuard_new session capacity) [].
Proof. split; try done; [constructor|simpl; lia]. Qed.

(** An envelope of the table's session with the same identity is the admitted one. *)
Lemma retained_inj session capacity self l e e' :
  guard_inv session capacity self l → e' ∈ l → be_session e = session →
  be_request e' = be_request e → retained e' = retained e → e' = e.
Proof.
  intros G [i Hi]%list_elem_of_lookup He Hr Ha. apply (gi_order _ _ _ _ G) in Hi as [_ Hs].
  destruct e, e'. unfold retained in Ha. simpl in *. congruence.
Qed.

(** One call against the admitted envelopes. *)
Inductive guard_call (session : BrokerSessionId) (capacity : N) (l : list BrokerEnvelope)
    (e : BrokerEnvelope) (payload : str) : result EnvelopeError EnvelopeAcceptance → list BrokerEnvelope → Prop :=
  | gc_new :
      be_session e = session → be_payload_hash e = sha256 payload → be_request e ∉ be_request <$> l →
      be_sequence e = N.of_nat (length l) → (be_sequence e < u64_limit)%N → (N.of_nat (length l) < capacity)%N →
      guard_call session capacity l e payload (Ok AcceptNew) (l ++ [e])
  | gc_duplicate :
      be_payload_hash e = sha256 payload → e ∈ l → guard_call session capacity l e payload (Ok AcceptDuplicate) l
  | gc_refused error : e ∉ l ∨ be_payload_hash e ≠ sha256 payload → guard_call session capacity l e payload (Err error) l.

Lemma accept_payload_spec session capacity self l e payload r self' :
  guard_inv session capacity self l → accept_payload e payload self = (r, self') →
  ∃ l', guard_call session capacity l e payload r l' ∧ guard_inv session capacity self' l'.
Proof.
  intros G. pose proof (λ a, guard_inv_lookup session capacity self l (be_request e) a G) as Hlk.
  pose proof (gi_session _ _ _ _ G) as Hses. pose proof (gi_next _ _ _ _ G) as Hnext.
  pose proof (guard_inv_size _ _ _ _ G) as Hsz. pose proof (gi_capacity _ _ _ _ G) as Hcap.
  assert (∀ i e', l !! i = Some e' → be_session e' = session) as Hin by (intros i e' Hi; by apply (gi_order _ _ _ _ G) in Hi as [_ ?]).
  unfold accept_payload, SessionReplayGuard_accept, binds_canonical_payload, of_canonical_payload. unfold_st.
  rewrite Hses. case_bool_decide as Hs; simpl.
  2:{ rewrite Hses, (bool_decide_eq_false_2 _ Hs); simpl.
      intros [= <- <-]. exists l. split; [|done]. apply gc_refused. left. intros [i Hi]%list_elem_of_lookup. eauto. }
  case_bool_decide as Hp; simpl; [|intros [= <- <-]; exists l; split; [|done]; apply gc_refused; by right].
  rewrite Hses, (bool_decide_eq_true_2 _ Hs); simpl.
  destruct (rg_accepted self !! be_request e) as [a|] eqn:Ha.
  - pose proof (proj1 (Hlk a) eq_refl) as (e' & Hin' & Hr & Hret).
    destruct (N.eqb_spec (ar_sequence a) (be_sequence e)) as [Hq|Hq]; simpl.
    + case_bool_decide as Hh; intros [= <- <-]; exists l; (split; [|done]).
      * apply gc_duplicate; [done|]. replace e with e'; [done|].
        eapply retained_inj; [done..|]. rewrite Hret. destruct a. unfold retained. simpl in *. congruence.
      * apply gc_refused. left. intros He. apply Hh. assert (Some a = Some (retained e)) as [= ->]; [|done].
        apply Hlk. eauto.
    + intros [= <- <-]; exists l; (split; [|done]). apply gc_refused. left. intros He. apply Hq.
      assert (Some a = Some (retained e)) as [= ->]; [|done]. apply Hlk. eauto.
  - assert (be_request e ∉ be_request <$> l) as Hfresh.
    { intros (e' & Hr & He')%list_elem_of_fmap. by assert (None = Some (retained e')) by (apply Hlk; eauto). }
    assert (e ∉ l) as Hnew by (intros He; apply Hfresh, list_elem_of_fmap; eauto).
    assert (∀ error, guard_call session capacity l e payload (Err error) l) as Href by (intros; apply gc_refused; by left).
    rewrite Hnext, Hcap, Hsz.
    destruct (N.ltb_spec (N.of_nat (length l)) u64_limit) as [Hlt|]; simpl; [|intros [= <- <-]; eauto].
    destruct (N.eqb_spec (be_sequence e) (N.of_nat (length l))) as [Hq|]; simpl; [|intros [= <- <-]; eauto].
    destruct (N.leb_spec capacity (N.of_nat (length l))) as [|Hc]; simpl; [intros [= <- <-]; eauto|].
    intros [= <- <-]. exists (l ++ [e]). split; [apply gc_new; try done; lia|].
    destruct G as [G1 G2 G3 G4 G5 G6 G7]. split; simpl; rewrite ?length_app; simpl.
    + done.
    + done.
    + rewrite fmap_app. simpl. rewrite list_to_map_snoc, G3; [done|]. by rewrite <- list_fmap_compose.
    + rewrite fmap_app. apply NoDup_app. split_and!; [done| |apply NoDup_singleton].
      intros x Hx ->%list_elem_of_singleton. done.
    + intros i e' [Hi|[Hi Hx]]%lookup_app_Some; [eauto|]. apply list_lookup_singleton_Some in Hx as [H0 <-].
      split; [|done]. rewrite Hq. lia.
    + unfold checked_add_u64. rewrite Hq. replace (N.of_nat (length l) + 1)%N with (N.of_nat (length l + 1)) by lia. done.
    + lia.
Qed.

Lemma guard_call_admitted session capacity l e payload r l' :
  guard_call session capacity l e payload r l' → l' = l ++ admitted [(e, payload, r)].
Proof. unfold admitted. destruct 1; simpl; by rewrite ?app_nil_r. Qed.

Lemma admitted_app t1 t2 : admitted (t1 ++ t2) = admitted t1 ++ admitted t2.
Proof. apply omap_app. Qed.

Lemma run_guard_spec session capacity calls self l tr self' :
  guard_inv session capacity self l → run_guard calls self = (tr, self') →
  guard_inv session capacity self' (l ++ admitted tr) ∧
  ∀ i e payload r, tr !! i = Some (e, payload, r) →
    guard_call session capacity (l ++ admitted (take i tr)) e payload r (l ++ admitted (take (S i) tr)).
Proof.
  revert self l tr. induction calls as [|[e payload] calls IH]; intros self l tr G; simpl.
  { intros [= <- <-]. rewrite app_nil_r. split; [done|]. intros i ???. by rewrite lookup_nil. }
  destruct (accept_payload e payload self) as [r self1] eqn:Hacc.
  destruct (run_guard calls self1) as [tr1 self2] eqn:Hrun. intros [= <- <-].
  apply (accept_payload_spec session capacity self l) in Hacc as (l' & Hc & G'); [|done].
  destruct (IH self1 l' tr1 G' Hrun) as [G2 Hall]. pose proof (guard_call_admitted _ _ _ _ _ _ _ Hc) as Hl'.
  assert (∀ t, l ++ admitted ((e, payload, r) :: t) = l' ++ admitted t) as Hcons.
  { intros t. rewrite Hl', <- (assoc_L (++)). f_equal. apply (admitted_app [_] t). }
  rewrite Hcons. split; [done|]. intros [|i] e' payload' r'; cbn [lookup list_lookup take].
  - intros [= <- <- <-]. rewrite Hcons, take_0. simpl. by rewrite !app_nil_r.
  - intros Hi. rewrite !Hcons. by apply Hall.
Qed.
End hashing.

(** C32: the replay guard admits each request at most once.  Over any sequence of calls
    on a fresh session, whatever hash function is used, the envelopes admitted for
    dispatch carry pairwise distinct request identities and the consecutive sequence
    numbers 0, 1, 2, ..., belong to the session and stay within the capacity; each call
    is answered as [guard_call] tabulates against the envelopes admitted before it, and
    an exact retry of an admitted envelope is always answered [Duplicate]. *)
Theorem replay_guard_at_most_once sha256 session capacity calls :
  let '(tr, self) := run_guard sha256 calls (SessionReplayGuard_new session capacity) in
  let l := admitted tr in
  NoDup (be_request <$> l) ∧ (N.of_nat (length l) <= capacity)%N ∧
  (∀ i e, l !! i = Some e → be_sequence e = N.of_nat i ∧ be_session e = session) ∧
  (∀ i e payload r, tr !! i = Some (e, payload, r) →
     guard_call sha256 session capacity (admitted (take i tr)) e payload r (admitted (take (S i) tr)) ∧
     (e ∈ admitted (take i tr) → be_payload_hash e = sha256 payload → r = Ok AcceptDuplicate)).
Proof.
  destruct (run_guard _ _ _) as [tr self] eqn:Hrun.
  destruct (run_guard_spec sha256 session capacity calls _ [] tr self (guard_inv_new _ _) Hrun) as [G Hall].
  simpl in *. split_and!; [apply G|apply G|apply G|]. intros i e payload r Hi.
  pose proof (Hall _ _ _ _ Hi) as Hc. split; [done|]. intros Hin Hp.
  destruct Hc as [Hs Hh Hf|Hh He|error [He|He]]; try done.
  exfalso. apply Hf, list_elem_of_fmap. eauto.
Qed.
