(* ===== verification/Operation.v ===== *)
(** * The closed broker request universe ([crates/egress-protocol/src/operation.rs]) *)

From S2P Require Import Prelude Bytes Time Http GitHub Capability.

Inductive BrokerOperationKind := KindPublicFetch | KindGitHub.

Inductive BrokerOperation :=
  | OpPublicFetch (request : HttpFetchRequest)
  | OpGitHub (request : GitHubRequest).

#[export] Instance BrokerOperation_eq_dec : EqDecision BrokerOperation.
Proof. solve_decision. Defined.

Definition BrokerOperation_kind (self : BrokerOperation) : BrokerOperationKind :=
  match self with OpPublicFetch _ => KindPublicFetch | OpGitHub _ => KindGitHub end.

Definition as_public_fetch (self : BrokerOperation) : option HttpFetchRequest :=
  match self with OpPublicFetch request => Some request | OpGitHub _ => None end.

Definition as_github (self : BrokerOperation) : option GitHubRequest :=
  match self with OpPublicFetch _ => None | OpGitHub request => Some request end.

Definition public_response_byte_limit (self : BrokerOperation) : option N :=
  match self with OpPublicFetch request => Some (hr_max_response_bytes request) | OpGitHub _ => None end.

Definition authority_request (self : BrokerOperation) : AuthorityRequest :=
  match self with
  | OpPublicFetch request => ReqHttpFetch request
  | OpGitHub request => ReqGitHub request
  end.

Definition capability_request_at (self : BrokerOperation) (time : MonotonicTime) : CapabilityRequest :=
  {| crq_time := time; crq_authority := authority_request self |}.

Definition is_safe_public_fetch_method (method : HttpFetchMethod) : bool :=
  match method with Get | Head => true end.
