(* ===== verification/Cbor.v ===== *)
(** * Canonical CBOR for one broker request ([crates/egress-protocol/src/cbor.rs])

    The fixed grammar of definite-length arrays, minimal-width heads, byte and text
    strings.  A [Decoder] is its input and cursor.  SHA-256 is an argument, as in
    [ReplayGuard]. *)

From S2P Require Import Prelude Bytes Http GitHub Capability ControlFrame Budget ReplayGuard Operation.

Definition BROKER_CBOR_PROTOCOL_VERSION : N := 1.
Definition OUTER_REQUEST_ITEMS : N := 6.
Definition PUBLIC_FETCH_ITEMS : N := 5.
Definition GITHUB_ITEMS : N := 6.
Definition PUBLIC_FETCH_OPERATION : N := 0.
Definition GITHUB_OPERATION : N := 1.
Definition GET_METHOD : N := 0.
Definition HEAD_METHOD : N := 1.
Definition PUBLISH_BRANCH_OPERATION : N := 0.
Definition CREATE_PULL_REQUEST_OPERATION : N := 1.
Definition SESSION_ID_BYTES : N := 16.
Definition REQUEST_ID_BYTES : N := 16.
Definition PAYLOAD_HASH_BYTES : N := 32.

Inductive CborError :=
  | ControlPayloadTooLarge (length : N)
  | Truncated
  | UnexpectedMajorType (expected received : N)
  | NonCanonicalInteger
  | IndefiniteLength
  | UnsupportedAdditionalInformation (additional_information : N)
  | UnexpectedArrayLength (expected received : N)
  | UnexpectedByteStringLength (expected received : N)
  | InvalidUtf8
  | UnsupportedProtocolVersion (received : N)
  | UnknownOperationFamily (received : N)
  | UnknownPublicFetchMethod (received : N)
  | UnknownGitHubOperation (received : N)
  | InvalidAuthorityValue (field : string)
  | CborPayloadHashMismatch
  | TrailingPayloadBytes
  | TrailingRequestBytes.

(** ** Writer *)

(** [(major << 5) | additional]: the initial byte of a head. *)
Definition initial_byte (major additional : N) : byte := N2b (N.lor (N.shiftl major 5) additional).

Definition write_head (major value : N) : str :=
  if (value <? 24)%N then [initial_byte major value]
  else if (value <? 2 ^ 8)%N then initial_byte major 24 :: be_bytes 1 value
  else if (value <? 2 ^ 16)%N then initial_byte major 25 :: be_bytes 2 value
  else if (value <? 2 ^ 32)%N then initial_byte major 26 :: be_bytes 4 value
  else initial_byte major 27 :: be_bytes 8 value.

Definition write_array (item_count : N) : str := write_head 4 item_count.
Definition write_bytes (bytes : str) : str := write_head 2 (len bytes) ++ bytes.
Definition write_text (value : str) : str := write_head 3 (len value) ++ value.
Definition write_unsigned (value : N) : str := write_head 0 value.

Definition encode_operation (operation : BrokerOperation) : str :=
  match operation with
  | OpPublicFetch request =>
      write_array PUBLIC_FETCH_ITEMS ++ write_unsigned PUBLIC_FETCH_OPERATION ++
      write_unsigned (match hr_method request with Get => GET_METHOD | Head => HEAD_METHOD end) ++
      write_text (ch_name (hr_host request)) ++
      write_text (CanonicalUrlPath_to_string (hr_path request)) ++
      write_unsigned (hr_max_response_bytes request)
  | OpGitHub request =>
      write_array GITHUB_ITEMS ++ write_unsigned GITHUB_OPERATION ++
      write_text (gr_installation request) ++ write_text (gr_repository request) ++
      write_unsigned (match gr_operation request with
                      | PublishBranch => PUBLISH_BRANCH_OPERATION
                      | CreatePullRequest => CREATE_PULL_REQUEST_OPERATION
                      end) ++
      write_text (BranchName_to_string (gr_base request)) ++
      write_text (BranchName_to_string (gr_head request))
  end.

(** ** Decoder *)

Record Decoder := { d_input : str; d_cursor : N }.

Abbreviation Dec := (ST Decoder CborError).

Definition Decoder_new (input : str) : Decoder := {| d_input := input; d_cursor := 0 |}.

Definition dec_take (length : N) : Dec str := λ self,
  match checked_add_u64 (d_cursor self) length with
  | None => (Err Truncated, self)
  | Some finish =>
      match get_range (d_input self) (d_cursor self) finish with
      | None => (Err Truncated, self)
      | Some bytes => (Ok bytes, {| d_input := d_input self; d_cursor := finish |})
      end
  end.

Definition uses_minimal_width (additional_information value : N) : bool :=
  if (additional_information <=? 23)%N then true
  else if (additional_information =? 24)%N then (24 <=? value)%N
  else if (additional_information =? 25)%N then (2 ^ 8 - 1 <? value)%N
  else if (additional_information =? 26)%N then (2 ^ 16 - 1 <? value)%N
  else if (additional_information =? 27)%N then (2 ^ 32 - 1 <? value)%N
  else false.

(** The argument of a head: immediate, or the next 1, 2, 4 or 8 bytes. *)
Definition dec_argument (additional_information : N) : Dec N :=
  if (additional_information <=? 23)%N then mret additional_information
  else if (additional_information =? 24)%N then bytes ← dec_take 1; mret (from_be_bytes bytes)
  else if (additional_information =? 25)%N then bytes ← dec_take 2; mret (from_be_bytes bytes)
  else if (additional_information =? 26)%N then bytes ← dec_take 4; mret (from_be_bytes bytes)
  else if (additional_information =? 27)%N then bytes ← dec_take 8; mret (from_be_bytes bytes)
  else if (additional_information =? 31)%N then st_fail IndefiniteLength
  else st_fail (UnsupportedAdditionalInformation additional_information).

Definition dec_head (expected_major : N) : Dec N :=
  bytes ← dec_take 1;
  initial ← st_query (λ _, ok_or (b2N <$> head bytes) Truncated);
  let received_major := N.shiftr initial 5 in
  if negb (received_major =? expected_major)%N
  then st_fail (UnexpectedMajorType expected_major received_major)
  else
    let additional_information := N.land initial 31 in
    value ← dec_argument additional_information;
    if negb (uses_minimal_width additional_information value) then st_fail NonCanonicalInteger
    else mret value.

Definition dec_array_length : Dec N := dec_head 4.
Definition dec_unsigned : Dec N := dec_head 0.

Definition dec_array (expected : N) : Dec unit :=
  received ← dec_array_length;
  if negb (received =? expected)%N then st_fail (UnexpectedArrayLength expected received) else mret tt.

Definition dec_bytes : Dec str :=
  length ← dec_head 2;
  dec_take length.

Definition dec_fixed_bytes (length : N) : Dec str :=
  bytes ← dec_bytes;
  if negb (len bytes =? length)%N then st_fail (UnexpectedByteStringLength length (len bytes))
  else mret bytes.

Definition dec_text : Dec str :=
  length ← dec_head 3;
  bytes ← dec_take length;
  if utf8_valid bytes then mret bytes else st_fail InvalidUtf8.

(** [finish] and [finish_payload] differ in the error only. *)
Definition dec_finish (error : CborError) : Dec unit :=
  self ← st_get;
  if (d_cursor self =? len (d_input self))%N then mret tt else st_fail error.

Definition validated {A E} (field : string) (outcome : result E A) : Dec A :=
  st_query (λ _, map_err (λ _, InvalidAuthorityValue field) outcome).

Definition decode_public_fetch (item_count : N) : Dec BrokerOperation :=
  if negb (item_count =? PUBLIC_FETCH_ITEMS)%N
  then st_fail (UnexpectedArrayLength PUBLIC_FETCH_ITEMS item_count)
  else
    received ← dec_unsigned;
    method ← (if (received =? GET_METHOD)%N then mret Get
              else if (received =? HEAD_METHOD)%N then mret Head
              else st_fail (UnknownPublicFetchMethod received));
    text ← dec_text;
    host ← validated "HTTP host" (CanonicalHost_new text);
    text ← dec_text;
    path ← validated "HTTP URL path" (CanonicalUrlPath_new text);
    max_response_bytes ← dec_unsigned;
    mret (OpPublicFetch {| hr_method := method; hr_host := host; hr_path := path;
                           hr_max_response_bytes := max_response_bytes |}).

Definition decode_github (item_count : N) : Dec BrokerOperation :=
  if negb (item_count =? GITHUB_ITEMS)%N
  then st_fail (UnexpectedArrayLength GITHUB_ITEMS item_count)
  else
    installation ← dec_text;
    repository ← dec_text;
    received ← dec_unsigned;
    operation ← (if (received =? PUBLISH_BRANCH_OPERATION)%N then mret PublishBranch
                 else if (received =? CREATE_PULL_REQUEST_OPERATION)%N then mret CreatePullRequest
                 else st_fail (UnknownGitHubOperation received));
    text ← dec_text;
    base ← validated "GitHub base branch" (BranchName_new text);
    text ← dec_text;
    head ← validated "GitHub head branch" (BranchName_new text);
    mret (OpGitHub {| gr_installation := installation; gr_repository := repository;
                      gr_operation := operation; gr_base := base; gr_head := head |}).

Definition decode_operation_reader : Dec BrokerOperation :=
  item_count ← dec_array_length;
  family ← dec_unsigned;
  operation ← (if (family =? PUBLIC_FETCH_OPERATION)%N then decode_public_fetch item_count
               else if (family =? GITHUB_OPERATION)%N then decode_github item_count
               else st_fail (UnknownOperationFamily family));
  _ ← dec_finish TrailingPayloadBytes;
  mret operation.

Definition decode_operation (encoded : str) : result CborError BrokerOperation :=
  (decode_operation_reader (Decoder_new encoded)).1.

(** ** Requests *)

Record CanonicalBrokerRequest := {
  cbr_envelope : BrokerEnvelope;
  cbr_operation : BrokerOperation;
  cbr_canonical_payload : str;
}.

#[export] Instance CanonicalBrokerRequest_eq_dec : EqDecision CanonicalBrokerRequest.
Proof. solve_decision. Defined.

Definition CanonicalBrokerRequest_encode (self : CanonicalBrokerRequest) : result CborError str :=
  let envelope := cbr_envelope self in
  let encoded :=
    write_array OUTER_REQUEST_ITEMS ++ write_unsigned BROKER_CBOR_PROTOCOL_VERSION ++
    write_bytes (be_session envelope) ++ write_unsigned (be_sequence envelope) ++
    write_bytes (be_request envelope) ++ write_bytes (be_payload_hash envelope) ++
    write_bytes (cbr_canonical_payload self) in
  if (MAX_CONTROL_FRAME_BYTES <? len encoded)%N then Err (ControlPayloadTooLarge (len encoded))
  else Ok encoded.

(** The fields of the outer array, up to [decoder.finish()]. *)
Definition decode_fields : Dec (str * N * str * str * str) :=
  _ ← dec_array OUTER_REQUEST_ITEMS;
  version ← dec_unsigned;
  if negb (version =? BROKER_CBOR_PROTOCOL_VERSION)%N then st_fail (UnsupportedProtocolVersion version)
  else
    session ← dec_fixed_bytes SESSION_ID_BYTES;
    sequence ← dec_unsigned;
    request ← dec_fixed_bytes REQUEST_ID_BYTES;
    received_payload_hash ← dec_fixed_bytes PAYLOAD_HASH_BYTES;
    canonical_payload ← dec_bytes;
    _ ← dec_finish TrailingRequestBytes;
    mret (session, sequence, request, received_payload_hash, canonical_payload).

Section requests.
  Context (sha256 : str → PayloadHash).

Definition CanonicalBrokerRequest_new (session : BrokerSessionId) (sequence : N)
    (request : BrokerRequestId) (operation : BrokerOperation) : CanonicalBrokerRequest :=
  let canonical_payload := encode_operation operation in
  {| cbr_envelope := from_canonical_payload sha256 session sequence request canonical_payload;
     cbr_operation := operation; cbr_canonical_payload := canonical_payload |}.

Definition CanonicalBrokerRequest_decode (encoded : str) : result CborError CanonicalBrokerRequest :=
  if (MAX_CONTROL_FRAME_BYTES <? len encoded)%N then Err (ControlPayloadTooLarge (len encoded))
  else
    '(session, sequence, request, received_payload_hash, canonical_payload) ←
      (decode_fields (Decoder_new encoded)).1;
    operation ← decode_operation canonical_payload;
    if negb (bool_decide (of_canonical_payload sha256 canonical_payload = received_payload_hash))
    then Err CborPayloadHashMismatch
    else
      Ok {| cbr_envelope := from_canonical_payload sha256 session sequence request canonical_payload;
            cbr_operation := operation; cbr_canonical_payload := canonical_payload |}.
End requests.
