(* ===== verification/Grammar.v ===== *)
(** * Exact grammars of monadic decoders

    [gram m P]: the decoder [m] accepts, at any position, exactly the encodings that
    [P] relates to the value it returns.  The combinators carry [gram] through the
    monadic structure, so each decoder inherits an exact grammar from its parts.
    The error type is arbitrary: the request decoder of [cbor.rs] and the response
    decoder of [response.rs] share these lemmas, which also cover the minimal-width
    heads both of them read. *)

From S2P Require Import Prelude Bytes Cbor.

(** A decoder between the consumed prefix and the remaining bytes. *)
Definition dec_at (pre rest : str) : Decoder := {| d_input := pre ++ rest; d_cursor := len pre |}.

Definition gram {E A} (m : ST Decoder E A) (P : str → A → Prop) : Prop :=
  ∀ pre rest, (len (pre ++ rest) < u64_limit)%N → ∀ v d',
    m (dec_at pre rest) = (Ok v, d') ↔
    ∃ enc rest', rest = enc ++ rest' ∧ P enc v ∧ d' = dec_at (pre ++ enc) rest'.

Lemma gram_iff {E A} (m : ST Decoder E A) P Q : gram m P → (∀ e v, P e v ↔ Q e v) → gram m Q.
Proof.
  intros H HPQ pre rest Hl v d'. etrans; [by apply H|].
  split; intros (enc & rest' & ? & ? & ?); exists enc, rest'; split_and!; try done; by apply HPQ.
Qed.

Lemma gram_ret {E A} (a : A) : gram (E:=E) (mret a) (λ e v, e = [] ∧ v = a).
Proof.
  intros pre rest _ v d'. split.
  - intros [= <- <-]. exists [], rest. by rewrite app_nil_r.
  - intros (enc & rest' & -> & [-> ->] & ->). by rewrite app_nil_r.
Qed.

Lemma gram_query {E A} (r : result E A) : gram (st_query (λ _, r)) (λ e v, e = [] ∧ r = Ok v).
Proof.
  intros pre rest _ v d'. unfold st_query. split.
  - intros [= -> <-]. exists [], rest. by rewrite app_nil_r.
  - intros (enc & rest' & -> & [-> ->] & ->). by rewrite app_nil_r.
Qed.

Lemma gram_fail {E A} (e : E) : gram (A:=A) (st_fail e) (λ _ _, False).
Proof. intros pre rest _ v d'. split; [done|]. by intros (enc & rest' & _ & [] & _). Qed.

Lemma gram_bind {E A B} (m : ST Decoder E A) (k : A → ST Decoder E B) P Q :
  gram m P → (∀ a, gram (k a) (Q a)) →
  gram (m ≫= k) (λ e b, ∃ a e1 e2, e = e1 ++ e2 ∧ P e1 a ∧ Q a e2 b).
Proof.
  intros Hm Hk pre rest Hl v d'. unfold mbind, ST_bind. split.
  - destruct (m (dec_at pre rest)) as [[a|err] d1] eqn:Hrun; [|done]. intros H.
    apply Hm in Hrun as (e1 & r1 & -> & HP & ->); [|done].
    apply Hk in H as (e2 & r2 & -> & HQ & ->); [|by rewrite <- (assoc_L (++))].
    exists (e1 ++ e2), r2. rewrite <- !(assoc_L (++)). split_and!; [done| |done]. eauto 10.
  - intros (enc & rest' & -> & (a & e1 & e2 & -> & HP & HQ) & ->).
    assert (m (dec_at pre ((e1 ++ e2) ++ rest')) = (Ok a, dec_at (pre ++ e1) (e2 ++ rest'))) as ->.
    { apply Hm; [done|]. exists e1, (e2 ++ rest'). by rewrite <- (assoc_L (++)). }
    apply Hk; [by rewrite <- !(assoc_L (++)) in *|]. exists e2, rest'. by rewrite (assoc_L (++)).
Qed.

(** A test that refuses the other values. *)
Lemma gram_if_fail {E A} (b : bool) (e : E) (m : ST Decoder E A) P :
  gram m P → gram (if negb b then st_fail e else m) (λ enc v, b = true ∧ P enc v).
Proof.
  intros Hm. destruct b; simpl.
  - eapply gram_iff; [done|]. naive_solver.
  - eapply gram_iff; [apply gram_fail|]. naive_solver.
Qed.

(** Any reader with the body of [Decoder::take]. *)
Lemma gram_take_of {E} (e : E) (m : N → ST Decoder E str) n :
  (∀ self, m n self =
    match checked_add_u64 (d_cursor self) n with
    | None => (Err e, self)
    | Some finish =>
        match get_range (d_input self) (d_cursor self) finish with
        | None => (Err e, self)
        | Some bytes => (Ok bytes, {| d_input := d_input self; d_cursor := finish |})
        end
    end) →
  gram (m n) (λ e v, e = v ∧ len v = n).
Proof.
  intros Hm pre rest Hl v d'. rewrite Hm. unfold dec_at. cbn [d_input d_cursor]. rewrite len_app in Hl. split.
  - destruct (checked_add_u64 (len pre) n) as [f|] eqn:Hf; [|done].
    destruct (get_range _ _ f) as [slice|] eqn:Hg; [|done]. intros [= <- <-].
    apply checked_add_u64_Some in Hf as [-> _]. apply get_range_prefixed in Hg as (rest' & -> & Hn).
    exists slice, rest'. rewrite <- (assoc_L (++)), len_app. split_and!; [done|done|lia|f_equal; lia].
  - intros (enc & rest' & -> & [-> <-] & ->). rewrite len_app in Hl.
    rewrite (proj2 (checked_add_u64_Some (len pre) (len v) _)) by (split; [done|lia]).
    rewrite (proj2 (get_range_prefixed pre (v ++ rest') _ v)) by eauto. by rewrite len_app, <- (assoc_L (++)).
Qed.

(** A two-way choice on a code, refusing the others. *)
Lemma gram_choice {E A} (code n1 n2 : N) (err : E) (m1 m2 : ST Decoder E A) P1 P2 :
  gram m1 P1 → gram m2 P2 → n1 ≠ n2 →
  gram (if (code =? n1)%N then m1 else if (code =? n2)%N then m2 else st_fail err)
    (λ e v, code = n1 ∧ P1 e v ∨ code = n2 ∧ P2 e v).
Proof.
  intros H1 H2 Hn. destruct (N.eqb_spec code n1) as [->|].
  { eapply gram_iff; [done|]. naive_solver. }
  destruct (N.eqb_spec code n2) as [->|].
  { eapply gram_iff; [done|]. naive_solver. }
  eapply gram_iff; [apply gram_fail|]. naive_solver.
Qed.

(** A decoder that must consume everything that remains. *)
Definition gram_end {E A} (m : ST Decoder E A) (P : str → A → Prop) : Prop :=
  ∀ pre rest, (len (pre ++ rest) < u64_limit)%N → ∀ v, (m (dec_at pre rest)).1 = Ok v ↔ P rest v.

Lemma gram_end_bind {E A B} (m : ST Decoder E A) (k : A → ST Decoder E B) P Q :
  gram m P → (∀ a, gram_end (k a) (Q a)) →
  gram_end (m ≫= k) (λ e b, ∃ a e1 e2, e = e1 ++ e2 ∧ P e1 a ∧ Q a e2 b).
Proof.
  intros Hm Hk pre rest Hl v. unfold mbind, ST_bind. split.
  - destruct (m (dec_at pre rest)) as [[a|err] d1] eqn:Hrun; [|done]. intros H.
    apply Hm in Hrun as (e1 & r1 & -> & HP & ->); [|done].
    apply Hk in H; [|by rewrite <- (assoc_L (++))]. eauto 10.
  - intros (a & e1 & e2 & -> & HP & HQ).
    assert (m (dec_at pre (e1 ++ e2)) = (Ok a, dec_at (pre ++ e1) e2)) as ->.
    { apply Hm; [done|]. exists e1, e2. done. }
    apply Hk; [by rewrite <- (assoc_L (++))|done].
Qed.

Lemma gram_end_if_fail {E A} (b : bool) (e : E) (m : ST Decoder E A) P :
  gram_end m P → gram_end (if negb b then st_fail e else m) (λ enc v, b = true ∧ P enc v).
Proof.
  intros Hm pre rest Hl v. destruct b; simpl; [|naive_solver]. rewrite (Hm pre rest Hl v). naive_solver.
Qed.

(** ** Heads *)

Lemma initial_byte_parts major additional :
  (major < 8)%N → (additional < 32)%N →
  N.shiftr (b2N (initial_byte major additional)) 5 = major ∧
  N.land (b2N (initial_byte major additional)) 31 = additional.
Proof.
  intros Hm Ha.
  assert (forallb (λ m, forallb (λ a,
    (N.shiftr (b2N (initial_byte (N.of_nat m) (N.of_nat a))) 5 =? N.of_nat m)%N
    && (N.land (b2N (initial_byte (N.of_nat m) (N.of_nat a))) 31 =? N.of_nat a)%N)
    (seq 0 32)) (seq 0 8) = true) as H by (vm_compute; reflexivity).
  rewrite forallb_forall in H. specialize (H (N.to_nat major) ltac:(apply in_seq; lia)).
  rewrite forallb_forall in H. specialize (H (N.to_nat additional) ltac:(apply in_seq; lia)).
  rewrite !N2Nat.id in H. by breflect.
Qed.

Lemma initial_byte_of b : initial_byte (N.shiftr (b2N b) 5) (N.land (b2N b) 31) = b.
Proof. by destruct b. Qed.

(** The argument width an additional information selects. *)
Definition argument_width (additional : N) : option nat :=
  if (additional =? 24)%N then Some 1 else if (additional =? 25)%N then Some 2
  else if (additional =? 26)%N then Some 4 else if (additional =? 27)%N then Some 8 else None.

Definition argument (additional : N) (e : str) (v : N) : Prop :=
  ((additional <= 23)%N ∧ e = [] ∧ v = additional) ∨
  argument_width additional = Some (length e) ∧ v = from_be_bytes e.

Lemma minimal_head major b e v :
  N.shiftr (b2N b) 5 = major → argument (N.land (b2N b) 31) e v →
  uses_minimal_width (N.land (b2N b) 31) v = true → write_head major v = b :: e ∧ (v < u64_limit)%N.
Proof.
  intros Hm Harg Hmin. pose proof (initial_byte_of b) as Hb. rewrite Hm in Hb. set (a := N.land (b2N b) 31) in *.
  pose proof (from_be_bytes_lt e) as Hlt. pose proof (to_from_be_bytes e) as Hbe.
  destruct Harg as [(Ha & -> & ->)|[Hw ->]].
  { unfold write_head, u64_limit. destruct (N.ltb_spec a 24); [|lia]. rewrite Hb. split; [done|lia]. }
  assert (a = 24%N ∧ length e = 1 ∨ a = 25%N ∧ length e = 2 ∨ a = 26%N ∧ length e = 4 ∨ a = 27%N ∧ length e = 8) as Hcases.
  { unfold argument_width in Hw. repeat case_match; breflect; naive_solver. }
  clearbody a. unfold write_head, u64_limit.
  destruct Hcases as [[-> Hl]|[[-> Hl]|[[-> Hl]|[-> Hl]]]]; rewrite Hl in *;
    unfold uses_minimal_width in Hmin; simpl in Hmin, Hlt; rewrite ?N.leb_le, ?N.ltb_lt in Hmin;
    repeat match goal with |- context [(?x <? ?y)%N] => destruct (N.ltb_spec x y) end;
    try (exfalso; simpl in *; lia); rewrite Hb, Hbe; (split; [done|lia]).
Qed.

Lemma written_head major v :
  (major < 8)%N → (v < u64_limit)%N →
  ∃ b e, write_head major v = b :: e ∧ N.shiftr (b2N b) 5 = major ∧ argument (N.land (b2N b) 31) e v ∧
    uses_minimal_width (N.land (b2N b) 31) v = true.
Proof.
  intros Hm Hv. unfold write_head, u64_limit in *.
  assert (∀ w n, (v < 256 ^ N.of_nat w)%N → (n < 32)%N → argument_width n = Some w → uses_minimal_width n v = true →
    ∃ b e, initial_byte major n :: be_bytes w v = b :: e ∧ N.shiftr (b2N b) 5 = major ∧
      argument (N.land (b2N b) 31) e v ∧ uses_minimal_width (N.land (b2N b) 31) v = true) as Hwide.
  { intros w n Hw Hn Hwidth Hmin. destruct (initial_byte_parts major n Hm Hn) as [H1 H2].
    eexists _, _. split; [done|]. rewrite H2. split_and!; [done| |done]. right.
    by rewrite length_be_bytes, from_to_be_bytes. }
  unfold uses_minimal_width in *.
  destruct (N.ltb_spec v 24).
  { destruct (initial_byte_parts major v Hm ltac:(lia)) as [H1 H2]. eexists _, _. split; [done|]. rewrite H2.
    split_and!; [done|left; split_and!; [lia|done|done]|]. by destruct (N.leb_spec v 23); [|lia]. }
  repeat match goal with |- context [(v <? ?y)%N] => destruct (N.ltb_spec v y) end; apply Hwide;
    simpl; rewrite ?N.leb_le, ?N.ltb_lt; try done; simpl in *; lia.
Qed.

