(* ===== verification/CborProps.v ===== *)
(** * Exactness of the broker's CBOR grammar

    The decoders of [cbor.rs] as exact grammars, up to whole requests: a control
    payload is accepted exactly when it is the encoding of a well-formed request. *)

From S2P Require Import Prelude Bytes Http GitHub Capability ControlFrame Budget ReplayGuard Operation Cbor Grammar.

Lemma gram_take n : gram (dec_take n) (λ e v, e = v ∧ len v = n).
Proof. by apply (gram_take_of Truncated). Qed.

(** ** Heads *)

Lemma gram_be n w : N.of_nat w = n → gram (bytes ← dec_take n; mret (from_be_bytes bytes))
  (λ e v, length e = w ∧ v = from_be_bytes e).
Proof.
  intros Hw. eapply gram_iff; [eapply gram_bind; [apply gram_take|intros a; apply gram_ret]|].
  intros e v. unfold len. split.
  - intros (a & e1 & e2 & -> & [-> Hl] & [-> ->]). rewrite app_nil_r. split; [lia|done].
  - intros [Hl ->]. exists e, e, []. rewrite app_nil_r. split_and!; [done|done|lia|done|done].
Qed.

Lemma gram_argument additional : gram (dec_argument additional) (argument additional).
Proof.
  unfold dec_argument, argument, argument_width. destruct (N.leb_spec additional 23).
  { eapply gram_iff; [apply gram_ret|]. intros e v. repeat case_match; breflect; naive_solver lia. }
  repeat match goal with
  | |- context [if (?a =? ?b)%N then _ else _] => destruct (N.eqb_spec a b); subst; cbv iota beta
  end; try lia;
  try (eapply gram_iff; [first [exact (gram_be 1 1 eq_refl)|exact (gram_be 2 2 eq_refl)
         |exact (gram_be 4 4 eq_refl)|exact (gram_be 8 8 eq_refl)]|]; intros e v; simpl;
       split; [intros [<- ->]; by right|intros [(? & _ & _)|[[= <-] ->]]; [lia|done]]);
  (eapply gram_iff; [apply gram_fail|]; intros e v; split; [done|intros [(? & _ & _)|[? _]]; [lia|done]]).
Qed.

Lemma gram_head major :
  (major < 8)%N → gram (dec_head major) (λ e v, e = write_head major v ∧ (v < u64_limit)%N).
Proof.
  intros Hm. eapply gram_iff.
  { unfold dec_head. eapply gram_bind; [apply gram_take|]. intros bytes. eapply gram_bind; [apply gram_query|].
    intros initial. apply gram_if_fail. eapply gram_bind; [apply gram_argument|]. intros v.
    apply gram_if_fail, gram_ret. }
  intros e v. split.
  - intros (bs & e1 & e2 & -> & [-> Hl] & i & e3 & e4 & -> & [-> Hi] & Hmaj & v' & e5 & e6 & -> & Harg & Hmin & -> & ->).
    destruct bs as [|b [|b' bs]]; [done| |unfold len in Hl; simpl in Hl; lia]. simpl in Hi. injection Hi as <-.
    apply N.eqb_eq in Hmaj. destruct (minimal_head _ _ _ _ Hmaj Harg Hmin) as [-> ?]. by rewrite app_nil_r.
  - intros [-> Hv]. destruct (written_head major v Hm Hv) as (b & e & -> & Hb & Harg & Hmin).
    exists [b], [b], e. split_and!; [done|done|done|]. exists (b2N b), [], e. split_and!; [done|done|done|by apply N.eqb_eq|].
    exists v, e, []. by rewrite app_nil_r.
Qed.

(** ** Strings, arrays and fields *)

Lemma gram_unsigned : gram dec_unsigned (λ e v, e = write_unsigned v ∧ (v < u64_limit)%N).
Proof. by apply gram_head. Qed.

Lemma gram_array_length : gram dec_array_length (λ e v, e = write_array v ∧ (v < u64_limit)%N).
Proof. by apply gram_head. Qed.

Lemma gram_array n : (n < u64_limit)%N → gram (dec_array n) (λ e _, e = write_array n).
Proof.
  intros Hn. eapply gram_iff.
  { unfold dec_array. eapply gram_bind; [apply gram_array_length|]. intros r. apply gram_if_fail, gram_ret. }
  intros e []. split.
  - intros (r & e1 & e2 & -> & [-> _] & Hr & -> & _). apply N.eqb_eq in Hr. by rewrite Hr, app_nil_r.
  - intros ->. exists n, (write_array n), []. rewrite app_nil_r, N.eqb_refl. done.
Qed.

(** A string of the given major type. *)
Lemma gram_string major :
  (major < 8)%N →
  gram (length ← dec_head major; dec_take length)
    (λ e v, e = write_head major (len v) ++ v ∧ (len v < u64_limit)%N).
Proof.
  intros Hm. eapply gram_iff; [eapply gram_bind; [by apply gram_head|intros n; apply gram_take]|].
  intros e v. split.
  - by intros (n & e1 & e2 & -> & [-> Hn] & [-> <-]).
  - intros [-> Hv]. eauto 10.
Qed.

Lemma gram_bytes : gram dec_bytes (λ e v, e = write_bytes v ∧ (len v < u64_limit)%N).
Proof. by apply gram_string. Qed.

Lemma gram_fixed_bytes n :
  (n < u64_limit)%N → gram (dec_fixed_bytes n) (λ e v, e = write_bytes v ∧ len v = n).
Proof.
  intros Hn. eapply gram_iff.
  { unfold dec_fixed_bytes. eapply gram_bind; [apply gram_bytes|]. intros b. apply gram_if_fail, gram_ret. }
  intros e v. split.
  - intros (b & e1 & e2 & -> & [-> _] & Hl & -> & ->). apply N.eqb_eq in Hl. by rewrite app_nil_r.
  - intros [-> <-]. exists v, (write_bytes v), []. by rewrite app_nil_r, N.eqb_refl.
Qed.

Lemma gram_utf8 b :
  gram (if utf8_valid b then mret b else st_fail InvalidUtf8) (λ e v, utf8_valid b = true ∧ e = [] ∧ v = b).
Proof.
  destruct (utf8_valid b).
  - eapply gram_iff; [apply gram_ret|]. naive_solver.
  - eapply gram_iff; [apply gram_fail|]. naive_solver.
Qed.

Lemma gram_text : gram dec_text (λ e v, e = write_text v ∧ (len v < u64_limit)%N ∧ utf8_valid v = true).
Proof.
  eapply gram_iff.
  { unfold dec_text. eapply gram_bind; [by apply gram_head|]. intros n.
    eapply gram_bind; [apply gram_take|]. intros b. apply gram_utf8. }
  intros e v. split.
  - intros (n & e1 & e2 & -> & [-> ?] & b & e3 & e4 & -> & [-> <-] & ? & -> & ->). by rewrite app_nil_r.
  - intros (-> & Hl & Hu). exists (len v), (write_head 3 (len v)), v. split_and!; [done|done|done|].
    exists v, v, []. by rewrite app_nil_r.
Qed.

Lemma gram_validated {A E} field (r : result E A) : gram (validated field r) (λ e v, e = [] ∧ r = Ok v).
Proof. eapply gram_iff; [apply gram_query|]. intros e v. destruct r; simpl; naive_solver. Qed.

Lemma gram_end_finish {A} err (a : A) : gram_end (_ ← dec_finish err; mret a) (λ e v, e = [] ∧ v = a).
Proof.
  intros pre rest Hl v. unfold dec_finish, dec_at. unfold_st. rewrite len_app.
  destruct (N.eqb_spec (len pre) (len pre + len rest)) as [He|He]; simpl.
  - assert (rest = []) as -> by (destruct rest; [done|unfold len in He; simpl in He; lia]). naive_solver.
  - split; [done|]. intros [-> _]. by rewrite N.add_0_r in He.
Qed.

(** ** Operations *)

Definition enc_fetch (method : HttpFetchMethod) (host path : str) (max_response_bytes : N) : str :=
  write_array PUBLIC_FETCH_ITEMS ++ write_unsigned PUBLIC_FETCH_OPERATION ++
  write_unsigned (match method with Get => GET_METHOD | Head => HEAD_METHOD end) ++
  write_text host ++ write_text path ++ write_unsigned max_response_bytes.

(** The payloads the grammar gives to an operation: for GitHub the encoder's own
    output; for a fetch, the encoder's output up to the spelling of the host. *)
Definition op_accepts (bytes : str) (operation : BrokerOperation) : Prop :=
  match operation with
  | OpPublicFetch request =>
      ∃ host, CanonicalHost_new host = Ok (hr_host request) ∧ CanonicalUrlPath_wf (hr_path request) ∧
        (hr_max_response_bytes request < u64_limit)%N ∧
        bytes = enc_fetch (hr_method request) host (CanonicalUrlPath_to_string (hr_path request))
                  (hr_max_response_bytes request)
  | OpGitHub request =>
      utf8_valid (gr_installation request) = true ∧ utf8_valid (gr_repository request) = true ∧
      BranchName_wf (gr_base request) ∧ BranchName_wf (gr_head request) ∧
      bytes = encode_operation operation
  end.

Lemma CanonicalHost_new_utf8 s host : CanonicalHost_new s = Ok host → utf8_valid s = true.
Proof.
  unfold CanonicalHost_new. destruct (is_ascii s) eqn:Ha; [|done]. intros _. by apply is_ascii_utf8_valid.
Qed.

Lemma len_write_text s : (len s <= len (write_text s))%N.
Proof. unfold write_text. rewrite len_app. lia. Qed.

Definition fetch_body (e : str) (operation : BrokerOperation) : Prop :=
  ∃ request host, operation = OpPublicFetch request ∧ CanonicalHost_new host = Ok (hr_host request) ∧
    CanonicalUrlPath_wf (hr_path request) ∧ (hr_max_response_bytes request < u64_limit)%N ∧
    (len host < u64_limit)%N ∧
    e = write_unsigned (match hr_method request with Get => GET_METHOD | Head => HEAD_METHOD end) ++
      write_text host ++ write_text (CanonicalUrlPath_to_string (hr_path request)) ++
      write_unsigned (hr_max_response_bytes request).

Lemma gram_public_fetch count :
  gram (decode_public_fetch count) (λ e op, (count =? PUBLIC_FETCH_ITEMS)%N = true ∧ fetch_body e op).
Proof.
  unfold decode_public_fetch. apply gram_if_fail. eapply gram_iff.
  { eapply gram_bind; [apply gram_unsigned|]. intros code.
    eapply gram_bind; [apply gram_choice; [apply gram_ret|apply gram_ret|done]|]. intros method.
    eapply gram_bind; [apply gram_text|]. intros host_text.
    eapply gram_bind; [apply gram_validated|]. intros host.
    eapply gram_bind; [apply gram_text|]. intros path_text.
    eapply gram_bind; [apply gram_validated|]. intros path.
    eapply gram_bind; [apply gram_unsigned|]. intros max. apply gram_ret. }
  intros e op. unfold fetch_body. split.
  - intros (code & e1 & ? & -> & [-> _] & method & ? & ? & -> & Hcode & ht & ? & ? & -> & (-> & Hhl & _) &
      host & ? & ? & -> & [-> Hhost] & pt & ? & ? & -> & (-> & _ & _) & path & ? & ? & -> & [-> Hpath] &
      max & ? & ? & -> & [-> Hmax] & -> & ->).
    apply CanonicalUrlPath_new_iff in Hpath as [Hpwf Hps].
    exists {| hr_method := method; hr_host := host; hr_path := path; hr_max_response_bytes := max |}, ht.
    simpl. rewrite Hps, app_nil_r. split_and!; try done.
    by destruct Hcode as [(-> & -> & ->)|(-> & -> & ->)].
  - intros (request & host & -> & Hh & Hp & Hmax & Hhl & ->). pose proof Hp as (_ & _ & Hpl & Hpa).
    set (code := match hr_method request with Get => GET_METHOD | Head => HEAD_METHOD end).
    exists code, (write_unsigned code). eexists. split_and!; [done|done|by unfold code; destruct (hr_method request)|].
    exists (hr_method request), []. eexists. split_and!; [done|unfold code; destruct (hr_method request); naive_solver|].
    exists host, (write_text host). eexists. split_and!; [done|done|done|by eapply CanonicalHost_new_utf8|].
    exists (hr_host request), []. eexists. split_and!; [done|done|done|].
    exists (CanonicalUrlPath_to_string (hr_path request)), (write_text (CanonicalUrlPath_to_string (hr_path request))).
    eexists. split_and!; [done|done| |by apply is_ascii_utf8_valid|].
    { unfold MAX_CANONICAL_URL_PATH_BYTES, u64_limit in *. lia. }
    exists (hr_path request), []. eexists. split_and!; [done|done|by apply CanonicalUrlPath_new_iff|].
    exists (hr_max_response_bytes request), (write_unsigned (hr_max_response_bytes request)), [].
    rewrite app_nil_r. split_and!; [done|done|done|done|]. by destruct request.
Qed.

Definition github_body (e : str) (operation : BrokerOperation) : Prop :=
  ∃ request, operation = OpGitHub request ∧
    utf8_valid (gr_installation request) = true ∧ utf8_valid (gr_repository request) = true ∧
    BranchName_wf (gr_base request) ∧ BranchName_wf (gr_head request) ∧
    (len (gr_installation request) < u64_limit)%N ∧ (len (gr_repository request) < u64_limit)%N ∧
    (len (BranchName_to_string (gr_base request)) < u64_limit)%N ∧
    (len (BranchName_to_string (gr_head request)) < u64_limit)%N ∧
    e = write_text (gr_installation request) ++ write_text (gr_repository request) ++
      write_unsigned (match gr_operation request with
                      | PublishBranch => PUBLISH_BRANCH_OPERATION
                      | CreatePullRequest => CREATE_PULL_REQUEST_OPERATION
                      end) ++
      write_text (BranchName_to_string (gr_base request)) ++
      write_text (BranchName_to_string (gr_head request)).

Lemma gram_github count :
  gram (decode_github count) (λ e op, (count =? GITHUB_ITEMS)%N = true ∧ github_body e op).
Proof.
  unfold decode_github. apply gram_if_fail. eapply gram_iff.
  { eapply gram_bind; [apply gram_text|]. intros installation.
    eapply gram_bind; [apply gram_text|]. intros repository.
    eapply gram_bind; [apply gram_unsigned|]. intros code.
    eapply gram_bind; [apply gram_choice; [apply gram_ret|apply gram_ret|done]|]. intros operation.
    eapply gram_bind; [apply gram_text|]. intros base_text.
    eapply gram_bind; [apply gram_validated|]. intros base.
    eapply gram_bind; [apply gram_text|]. intros head_text.
    eapply gram_bind; [apply gram_validated|]. intros head. apply gram_ret. }
  intros e op. unfold github_body. split.
  - intros (inst & ? & ? & -> & (-> & Hil & Hiu) & repo & ? & ? & -> & (-> & Hrl & Hru) & code & ? & ? & -> & [-> _] &
      o & ? & ? & -> & Hcode & bt & ? & ? & -> & (-> & Hbl & Hbu) & base & ? & ? & -> & [-> Hbase] &
      ht & ? & ? & -> & (-> & Hhl & Hhu) & hd & ? & ? & -> & [-> Hhead] & -> & ->).
    exists {| gr_installation := inst; gr_repository := repo; gr_operation := o; gr_base := base; gr_head := hd |}.
    simpl. rewrite (BranchName_new_to_string _ _ Hbase), (BranchName_new_to_string _ _ Hhead), !app_nil_r.
    split_and!; try done; [exact (BranchName_new_wf _ _ Hbu Hbase)|exact (BranchName_new_wf _ _ Hhu Hhead)|].
    by destruct Hcode as [(-> & -> & ->)|(-> & -> & ->)].
  - intros (r & -> & Hiu & Hru & [Hbn Hbu] & [Hhn Hhu] & Hil & Hrl & Hbl & Hhl & ->).
    set (code := match gr_operation r with PublishBranch => PUBLISH_BRANCH_OPERATION | _ => _ end).
    eexists (gr_installation r), (write_text _), _. split_and!; [done|done|done|done|].
    eexists (gr_repository r), (write_text _), _. split_and!; [done|done|done|done|].
    exists code, (write_unsigned code). eexists. split_and!; [done|done|by unfold code; destruct (gr_operation r)|].
    exists (gr_operation r), []. eexists. split_and!; [done|unfold code; destruct (gr_operation r); naive_solver|].
    eexists (BranchName_to_string (gr_base r)), (write_text _), _. split_and!; [done|done|done|done|].
    exists (gr_base r), []. eexists. split_and!; [done|done|done|].
    eexists (BranchName_to_string (gr_head r)), (write_text _), []. rewrite app_nil_r. split_and!; [done|done|done|done|].
    exists (gr_head r), [], []. split_and!; [done|done|done|done|]. by destruct r.
Qed.

(** The operation decoder accepts exactly [op_accepts]. *)
Lemma decode_operation_exact bytes op :
  (len bytes < u64_limit)%N → decode_operation bytes = Ok op ↔ op_accepts bytes op.
Proof.
  intros Hl. unfold decode_operation, decode_operation_reader.
  etrans.
  { eapply (gram_end_bind _ _ _ _ gram_array_length (λ count, gram_end_bind _ _ _ _ gram_unsigned (λ family,
      gram_end_bind _ _ _ _ (gram_choice family _ _ _ _ _ _ _ (gram_public_fetch count) (gram_github count) _)
        (λ op, gram_end_finish _ op))) [] bytes Hl op).
    Unshelve. done. }
  split.
  - intros (count & ? & ? & -> & [-> Hc] & family & ? & ? & -> & [-> _] & op' & ? & ? & -> & Hop & -> & ->).
    rewrite app_nil_r. destruct Hop as [(-> & Hn & r & host & -> & Hh & Hp & Hm & _ & ->)|
      (-> & Hn & r & -> & ? & ? & ? & ? & _ & _ & _ & _ & ->)]; apply N.eqb_eq in Hn; subst count; simpl; [eauto 10|by split_and!].
  - destruct op as [r|r]; cbn [op_accepts encode_operation].
    + intros (host & Hh & Hp & Hm & ->). exists PUBLIC_FETCH_ITEMS. eexists _, _. split_and!; [done|done|done|].
      exists PUBLIC_FETCH_OPERATION. eexists _, _. split_and!; [done|done|done|].
      eexists (OpPublicFetch r), _, []. rewrite app_nil_r. split_and!; [done|left|done|done].
      split_and!; [done|done|]. exists r, host. split_and!; try done.
      unfold enc_fetch in Hl. rewrite !len_app in Hl. pose proof (len_write_text host). lia.
    + intros (? & ? & ? & ? & ->). cbn [encode_operation] in Hl. exists GITHUB_ITEMS. eexists _, _. split_and!; [done|done|done|].
      exists GITHUB_OPERATION. eexists _, _. split_and!; [done|done|done|].
      eexists (OpGitHub r), _, []. rewrite app_nil_r. split_and!; [done|right|done|done].
      split_and!; [done|done|]. exists r. rewrite !len_app in Hl.
      pose proof (len_write_text (gr_installation r)). pose proof (len_write_text (gr_repository r)).
      pose proof (len_write_text (BranchName_to_string (gr_base r))).
      pose proof (len_write_text (BranchName_to_string (gr_head r))). split_and!; try done; lia.
Qed.

(** ** Requests *)

Definition enc_fields (session : str) (sequence : N) (request hash payload : str) : str :=
  write_array OUTER_REQUEST_ITEMS ++ write_unsigned BROKER_CBOR_PROTOCOL_VERSION ++
  write_bytes session ++ write_unsigned sequence ++ write_bytes request ++ write_bytes hash ++
  write_bytes payload.

Lemma decode_fields_exact bytes session sequence request hash payload :
  (len bytes < u64_limit)%N →
  (decode_fields (Decoder_new bytes)).1 = Ok (session, sequence, request, hash, payload) ↔
  len session = SESSION_ID_BYTES ∧ len request = REQUEST_ID_BYTES ∧ len hash = PAYLOAD_HASH_BYTES ∧
  (sequence < u64_limit)%N ∧ (len payload < u64_limit)%N ∧
  bytes = enc_fields session sequence request hash payload.
Proof.
  intros Hl. unfold decode_fields. etrans.
  { exact (gram_end_bind _ _ _ _ (gram_array OUTER_REQUEST_ITEMS eq_refl) (λ _,
      gram_end_bind _ _ _ _ gram_unsigned (λ version, gram_end_if_fail _ _ _ _
        (gram_end_bind _ _ _ _ (gram_fixed_bytes SESSION_ID_BYTES eq_refl) (λ session,
        gram_end_bind _ _ _ _ gram_unsigned (λ sequence,
        gram_end_bind _ _ _ _ (gram_fixed_bytes REQUEST_ID_BYTES eq_refl) (λ request,
        gram_end_bind _ _ _ _ (gram_fixed_bytes PAYLOAD_HASH_BYTES eq_refl) (λ hash,
        gram_end_bind _ _ _ _ gram_bytes (λ payload,
        gram_end_finish _ (session, sequence, request, hash, payload))))))))) [] bytes Hl _). }
  split.
  - intros (? & ? & ? & -> & -> & version & ? & ? & -> & [-> _] & Hv & s & ? & ? & -> & [-> Hs] & q & ? & ? & -> & [-> Hq] &
      i & ? & ? & -> & [-> Hi] & h & ? & ? & -> & [-> Hh] & p & ? & ? & -> & [-> Hp] & -> & [= -> -> -> -> ->]).
    apply N.eqb_eq in Hv as ->. rewrite app_nil_r. by split_and!.
  - intros (Hs & Hi & Hh & Hq & Hp & ->). unfold enc_fields.
    eexists tt, _, _. split_and!; [done|done|]. exists BROKER_CBOR_PROTOCOL_VERSION. eexists _, _. split_and!; [done|done|done|done|].
    eexists session, _, _. split_and!; [done|done|done|]. eexists sequence, _, _. split_and!; [done|done|done|].
    eexists request, _, _. split_and!; [done|done|done|]. eexists hash, _, _. split_and!; [done|done|done|].
    eexists payload, _, []. rewrite app_nil_r. split_and!; done.
Qed.

(** The fields of a request carry their Rust types, the hash is the payload's, and the
    payload decodes to the operation. *)
Definition request_wf (sha256 : str → PayloadHash) (r : CanonicalBrokerRequest) : Prop :=
  let e := cbr_envelope r in
  len (be_session e) = SESSION_ID_BYTES ∧ len (be_request e) = REQUEST_ID_BYTES ∧
  len (be_payload_hash e) = PAYLOAD_HASH_BYTES ∧ (be_sequence e < u64_limit)%N ∧
  be_payload_hash e = sha256 (cbr_canonical_payload r) ∧
  decode_operation (cbr_canonical_payload r) = Ok (cbr_operation r).

Lemma encode_ok r bytes :
  CanonicalBrokerRequest_encode r = Ok bytes ↔
  bytes = enc_fields (be_session (cbr_envelope r)) (be_sequence (cbr_envelope r)) (be_request (cbr_envelope r))
    (be_payload_hash (cbr_envelope r)) (cbr_canonical_payload r) ∧ (len bytes <= MAX_CONTROL_FRAME_BYTES)%N.
Proof.
  unfold CanonicalBrokerRequest_encode. fold (enc_fields (be_session (cbr_envelope r)) (be_sequence (cbr_envelope r))
    (be_request (cbr_envelope r)) (be_payload_hash (cbr_envelope r)) (cbr_canonical_payload r)).
  set (x := enc_fields _ _ _ _ _). destruct (N.ltb_spec MAX_CONTROL_FRAME_BYTES (len x)); naive_solver lia.
Qed.

Lemma control_frame_addressable n : (n <= MAX_CONTROL_FRAME_BYTES)%N → (n < u64_limit)%N.
Proof. unfold MAX_CONTROL_FRAME_BYTES, u64_limit. lia. Qed.

Lemma len_enc_fields s q i h p : (len p <= len (enc_fields s q i h p))%N.
Proof. unfold enc_fields, write_bytes. rewrite !len_app. lia. Qed.

(** A payload that decodes carries a well-formed request. *)
Lemma decoded_request sha256 bytes r :
  CanonicalBrokerRequest_decode sha256 bytes = Ok r →
  request_wf sha256 r ∧ (len bytes <= MAX_CONTROL_FRAME_BYTES)%N ∧ (len (cbr_canonical_payload r) < u64_limit)%N ∧
  bytes = enc_fields (be_session (cbr_envelope r)) (be_sequence (cbr_envelope r)) (be_request (cbr_envelope r))
    (be_payload_hash (cbr_envelope r)) (cbr_canonical_payload r).
Proof.
  unfold CanonicalBrokerRequest_decode, request_wf, of_canonical_payload, from_canonical_payload.
  destruct (N.ltb_spec MAX_CONTROL_FRAME_BYTES (len bytes)) as [|Hl]; [done|].
  pose proof (control_frame_addressable _ Hl) as Ha.
  destruct (decode_fields _).1 as [[[[[s q] i] h] p]|] eqn:Hf; simpl; [|done].
  apply decode_fields_exact in Hf as (Hs & Hi & Hh & Hq & Hp & ->); [|done].
  destruct (decode_operation p) as [op|] eqn:Hop; simpl; [|done].
  case_bool_decide as Heq; simpl; [|done]. intros [= <-]. simpl. unfold of_canonical_payload. subst h. by split_and!.
Qed.

(** What the decoded operation guarantees. *)
Lemma decoded_operation sha256 bytes r :
  CanonicalBrokerRequest_decode sha256 bytes = Ok r →
  match cbr_operation r with
  | OpPublicFetch request => CanonicalHost_wf (hr_host request) ∧ CanonicalUrlPath_wf (hr_path request) ∧
      (hr_max_response_bytes request < u64_limit)%N
  | OpGitHub _ => True
  end.
Proof.
  intros ((_ & _ & _ & _ & _ & Hop) & _ & Hp & _)%decoded_request. apply decode_operation_exact in Hop; [|done].
  destruct (cbr_operation r) as [q|q]; [|done]. destruct Hop as (host & Hh & ? & ? & _).
  split_and!; [by eapply CanonicalHost_new_wf|done|done].
Qed.

(** C35: the broker's wire format is exact.  A control payload decodes to a request
    exactly when it is that request's encoding within the frame limit and the request is
    well formed: fixed-width identities, a 64-bit sequence, the hash of the carried
    operation bytes, and operation bytes that decode to the carried operation. *)
Theorem cbor_wire_exact sha256 bytes r :
  CanonicalBrokerRequest_decode sha256 bytes = Ok r ↔
  CanonicalBrokerRequest_encode r = Ok bytes ∧ request_wf sha256 r.
Proof.
  rewrite encode_ok. split.
  - intros (Hwf & Hl & _ & Hb)%decoded_request. done.
  - unfold CanonicalBrokerRequest_decode, request_wf, of_canonical_payload, from_canonical_payload.
    destruct (N.ltb_spec MAX_CONTROL_FRAME_BYTES (len bytes)) as [|Hl]; [naive_solver lia|].
    pose proof (control_frame_addressable _ Hl) as Ha.
    destruct r as [[s q i h] op p]; simpl. intros [[Hb _] (Hs & Hi & Hh & Hq & -> & Hop)].
    assert ((decode_fields (Decoder_new bytes)).1 = Ok (s, q, i, sha256 p, p)) as ->.
    { apply decode_fields_exact; [done|]. split_and!; try done.
      apply (f_equal len) in Hb. pose proof (len_enc_fields s q i (sha256 p) p). lia. }
    simpl. rewrite Hop. simpl. by rewrite bool_decide_eq_true_2.
Qed.

(** The operations the constructors build. *)
Definition op_wf (operation : BrokerOperation) : Prop :=
  match operation with
  | OpPublicFetch request =>
      CanonicalHost_wf (hr_host request) ∧ CanonicalUrlPath_wf (hr_path request) ∧
      (hr_max_response_bytes request < u64_limit)%N
  | OpGitHub request =>
      utf8_valid (gr_installation request) = true ∧ utf8_valid (gr_repository request) = true ∧
      BranchName_wf (gr_base request) ∧ BranchName_wf (gr_head request)
  end.

Lemma op_wf_accepts op : op_wf op → op_accepts (encode_operation op) op.
Proof.
  destruct op as [r|r]; cbn [op_wf op_accepts].
  - intros (Hh & Hp & Hm). exists (ch_name (hr_host r)). split_and!; try done. by apply CanonicalHost_new_canonical.
  - intros (? & ? & ? & ?). by split_and!.
Qed.

(** Operations round trip, and their encoding is unique up to the host's spelling.  A
    well-formed operation is decoded from its own encoding; whatever other bytes decode to
    it are the encoding of the same fetch with another spelling of the same host. *)
Theorem cbor_operation_roundtrip op :
  op_wf op → (len (encode_operation op) < u64_limit)%N →
  decode_operation (encode_operation op) = Ok op ∧
  ∀ bytes, (len bytes < u64_limit)%N → decode_operation bytes = Ok op →
    bytes = encode_operation op ∨
    ∃ request host, op = OpPublicFetch request ∧ CanonicalHost_new host = Ok (hr_host request) ∧
      bytes = enc_fetch (hr_method request) host (CanonicalUrlPath_to_string (hr_path request))
                (hr_max_response_bytes request).
Proof.
  intros Hwf Hlen. split; [apply decode_operation_exact; [done|by apply op_wf_accepts]|].
  intros bytes Hl Hd. apply decode_operation_exact in Hd; [|done].
  destruct op as [r|r]; [right|left].
  - destruct Hd as (host & Hh & _ & _ & ->). by exists r, host.
  - by destruct Hd as (_ & _ & _ & _ & ->).
Qed.

Definition demo_fetch (host : CanonicalHost) : BrokerOperation :=
  OpPublicFetch {| hr_method := Get; hr_host := host; hr_path := {| cup_segments := [lit "v1"] |};
                   hr_max_response_bytes := 300 |}.

Lemma cbor_operation_roundtrip_witness :
  let op := demo_fetch {| ch_name := lit "example.com" |} in
  decode_operation (encode_operation op) = Ok op.
Proof.
  intros op. apply (cbor_operation_roundtrip op); [|vm_compute; reflexivity]. split_and!.
  - apply (CanonicalHost_new_wf (lit "example.com")). vm_compute. reflexivity.
  - apply (CanonicalUrlPath_new_iff (lit "/v1")). vm_compute. reflexivity.
  - vm_compute. reflexivity.
Defined.

(** Operation bytes are not unique.  Two different payloads, spelling the host with
    and without capitals, decode to the same operation, and only one of them is what the
    encoder produces for it. *)
Theorem cbor_host_spelling_not_unique :
  ∃ p1 p2 op, p1 ≠ p2 ∧ decode_operation p1 = Ok op ∧ decode_operation p2 = Ok op ∧ encode_operation op = p1.
Proof.
  exists (encode_operation (demo_fetch {| ch_name := lit "example.com" |})),
    (enc_fetch Get (lit "Example.COM") (lit "/v1") 300), (demo_fetch {| ch_name := lit "example.com" |}).
  split_and!; [vm_compute; discriminate|vm_compute; reflexivity|vm_compute; reflexivity|reflexivity].
Qed.
