(* ===== verification/Response.v ===== *)
(** * Canonical broker responses ([crates/egress-protocol/src/response.rs])

    The closed response schema, its CBOR encoder and decoder, and the bounded chunk
    sequences that carry a response larger than one control frame.  The encoder
    emits a response as a list of parts ([response_parts] is the sequence of calls
    [for_each_part] makes to its consumer).  SHA-256 is an argument.  [usize] has 64
    bits, so the conversions between [usize] and [u64] cannot fail. *)

From S2P Require Import Prelude Bytes Http GitHub ControlFrame Budget ReplayGuard Cbor.

Definition BROKER_RESPONSE_VERSION : N := 1.
Definition MAX_PUBLIC_WIRE_BODY_BYTES : N := 32 * 1024 * 1024.
Definition MAX_GITHUB_WIRE_RESPONSE_BYTES : N := 1024 * 1024.
Definition BROKER_RESPONSE_CHUNK_VERSION : N := 1.
Definition MAX_HOST_BYTES : N := 253.
Definition MAX_PATH_BYTES : N := 8 * 1024.
Definition MAX_OBJECT_ID_BYTES : N := 64.
Definition RESPONSE_DIGEST_BYTES : N := 32.
Definition MAX_EXPANDED_CANONICAL_RESPONSE_BYTES : N :=
  32 * 1024 * 1024 + MAX_HOST_BYTES + MAX_PATH_BYTES + 128.
Definition MAX_RESPONSE_CHUNK_BYTES : N := MAX_CONTROL_FRAME_BYTES - 128.
Definition RESPONSE_ITEMS : N := 4.
Definition RESPONSE_CHUNK_ITEMS : N := 7.
Definition RESPONSE_PUBLIC_ITEMS : N := 4.
Definition RESPONSE_GITHUB_ITEMS : N := 4.
Definition PUBLIC_SUCCESS : N := 0.
Definition GITHUB_SUCCESS : N := 1.
Definition REJECTED : N := 2.

Inductive ResponseCborError :=
  | Response_PayloadTooLarge (length : N)
  | Response_Truncated
  | Response_UnexpectedMajorType (expected received : N)
  | Response_NonCanonicalInteger
  | Response_IndefiniteLength
  | Response_UnexpectedArrayLength (expected received : N)
  | Response_UnexpectedByteStringLength (expected received : N)
  | Response_UnsupportedVersion (received : N)
  | UnknownOutcome (received : N)
  | UnknownRejection (received : N)
  | Response_InvalidValue
  | Response_TrailingBytes.

(** ** Typed outcomes *)

Record PublicWireResponse := {
  pwr_status : N;
  pwr_host : CanonicalHost;
  pwr_path : CanonicalUrlPath;
  pwr_body : str;
}.

Definition PublicWireResponse_new (status : N) (host : CanonicalHost) (path : CanonicalUrlPath)
    (body : str) : result ResponseCborError PublicWireResponse :=
  if negb (in_range 100 599 status)
     || (MAX_HOST_BYTES <? len (ch_name host))%N
     || (MAX_PATH_BYTES <? len (CanonicalUrlPath_to_string path))%N
  then Err Response_InvalidValue
  else if (MAX_PUBLIC_WIRE_BODY_BYTES <? len body)%N then Err (Response_PayloadTooLarge (len body))
  else Ok {| pwr_status := status; pwr_host := host; pwr_path := path; pwr_body := body |}.

Definition valid_object_id (value : str) : bool :=
  ((len value =? 40)%N || (len value =? 64)%N)
  && forallb (λ byte, is_ascii_digit byte || in_range 97 102 (b2N byte)) value.

Record GitHubWireResponse := {
  gwr_operation : GitHubOperation;
  gwr_response_bytes : N;
  gwr_pull_request_number : option N;
  gwr_object_id : option str;
}.

Definition GitHubWireResponse_new (operation : GitHubOperation) (response_bytes : N)
    (pull_request_number : option N) (object_id : option str)
    : result ResponseCborError GitHubWireResponse :=
  if (MAX_GITHUB_WIRE_RESPONSE_BYTES <? response_bytes)%N
  then Err (Response_PayloadTooLarge response_bytes)
  else
    let mismatch :=
      match operation with
      | PublishBranch =>
          bool_decide (is_Some pull_request_number)
          || negb (match object_id with Some value => valid_object_id value | None => false end)
      | CreatePullRequest =>
          match pull_request_number with None => true | Some number => (number =? 0)%N end
          || bool_decide (is_Some object_id)
      end in
    if mismatch then Err Response_InvalidValue
    else Ok {| gwr_operation := operation; gwr_response_bytes := response_bytes;
               gwr_pull_request_number := pull_request_number; gwr_object_id := object_id |}.

Inductive BrokerWireRejection :=
  | Wire_NotAuthorized
  | Wire_Budget
  | Wire_OperationMismatch
  | Wire_PublicFetch
  | Wire_GitHub
  | Wire_AccountingInvariant
  | Wire_AuditUnavailable
  | Wire_CommittedButUnrecorded.

Definition BrokerWireRejection_code (self : BrokerWireRejection) : N :=
  match self with
  | Wire_NotAuthorized => 0
  | Wire_Budget => 1
  | Wire_OperationMismatch => 2
  | Wire_PublicFetch => 3
  | Wire_GitHub => 4
  | Wire_AccountingInvariant => 5
  | Wire_AuditUnavailable => 6
  | Wire_CommittedButUnrecorded => 7
  end.

Definition BrokerWireRejection_from_code (code : N) : result ResponseCborError BrokerWireRejection :=
  match code with
  | 0 => Ok Wire_NotAuthorized
  | 1 => Ok Wire_Budget
  | 2 => Ok Wire_OperationMismatch
  | 3 => Ok Wire_PublicFetch
  | 4 => Ok Wire_GitHub
  | 5 => Ok Wire_AccountingInvariant
  | 6 => Ok Wire_AuditUnavailable
  | 7 => Ok Wire_CommittedButUnrecorded
  | _ => Err (UnknownRejection code)
  end%N.

Inductive BrokerWireOutcome :=
  | WirePublic (response : PublicWireResponse)
  | WireGitHub (response : GitHubWireResponse)
  | WireRejected (rejection : BrokerWireRejection).

Record CanonicalBrokerResponse := {
  rsp_request : BrokerRequestId;
  rsp_outcome : BrokerWireOutcome;
}.

#[export] Instance PublicWireResponse_eq_dec : EqDecision PublicWireResponse.
Proof. solve_decision. Defined.
#[export] Instance GitHubWireResponse_eq_dec : EqDecision GitHubWireResponse.
Proof. solve_decision. Defined.
#[export] Instance BrokerWireRejection_eq_dec : EqDecision BrokerWireRejection.
Proof. solve_decision. Defined.
#[export] Instance BrokerWireOutcome_eq_dec : EqDecision BrokerWireOutcome.
Proof. solve_decision. Defined.
#[export] Instance CanonicalBrokerResponse_eq_dec : EqDecision CanonicalBrokerResponse.
Proof. solve_decision. Defined.

Definition github_operation_code (operation : GitHubOperation) : N :=
  match operation with PublishBranch => 0 | CreatePullRequest => 1 end.

Definition github_operation_from_code (code : N) : result ResponseCborError GitHubOperation :=
  match code with
  | 0 => Ok PublishBranch
  | 1 => Ok CreatePullRequest
  | _ => Err (UnknownOutcome code)
  end%N.

(** ** Encoder *)

(** The nine-byte buffer of a head and the number of bytes in use. *)
Definition encoded_head (major value : N) : str * nat :=
  let buffer (initial : byte) (argument : str) :=
    initial :: argument ++ replicate (8 - length argument) (N2b 0) in
  if (value <? 24)%N then (buffer (initial_byte major (value mod 256)) [], 1)
  else if (value <? 2 ^ 8)%N then (buffer (initial_byte major 24) (be_bytes 1 value), 2)
  else if (value <? 2 ^ 16)%N then (buffer (initial_byte major 25) (be_bytes 2 value), 3)
  else if (value <? 2 ^ 32)%N then (buffer (initial_byte major 26) (be_bytes 4 value), 5)
  else (buffer (initial_byte major 27) (be_bytes 8 value), 9).

(** [write_head] and [emit_head]. *)
Definition emit_head (major value : N) : str :=
  let '(encoded, length) := encoded_head major value in take length encoded.

Definition emit_bytes (bytes : str) : list str := [emit_head 2 (len bytes); bytes].
Definition emit_text (text : str) : list str := [emit_head 3 (len text); text].

Definition emit_optional_unsigned (value : option N) : list str :=
  match value with Some value => [emit_head 0 value] | None => [[N2b 246]] end.

Definition emit_optional_text (value : option str) : list str :=
  match value with Some value => emit_text value | None => [[N2b 246]] end.

(** [CanonicalResponseEncoding::for_each_part]. *)
Definition response_parts (self : CanonicalBrokerResponse) : list str :=
  [emit_head 4 RESPONSE_ITEMS; emit_head 0 BROKER_RESPONSE_VERSION] ++ emit_bytes (rsp_request self) ++
  match rsp_outcome self with
  | WirePublic response =>
      [emit_head 0 PUBLIC_SUCCESS; emit_head 4 RESPONSE_PUBLIC_ITEMS; emit_head 0 (pwr_status response)] ++
      emit_text (ch_name (pwr_host response)) ++
      emit_text (CanonicalUrlPath_to_string (pwr_path response)) ++
      emit_bytes (pwr_body response)
  | WireGitHub response =>
      [emit_head 0 GITHUB_SUCCESS; emit_head 4 RESPONSE_GITHUB_ITEMS;
       emit_head 0 (github_operation_code (gwr_operation response));
       emit_head 0 (gwr_response_bytes response)] ++
      emit_optional_unsigned (gwr_pull_request_number response) ++
      emit_optional_text (gwr_object_id response)
  | WireRejected rejection =>
      [emit_head 0 REJECTED; emit_head 0 (BrokerWireRejection_code rejection)]
  end.

Definition usize_max : N := u64_limit - 1.

Definition saturating_add (a b : N) : N := N.min (a + b) usize_max.

Definition total_length (self : CanonicalBrokerResponse) : N :=
  foldl (λ total part, saturating_add total (len part)) 0%N (response_parts self).

Definition encode_with_limit (self : CanonicalBrokerResponse) (maximum : N)
    : result ResponseCborError str :=
  let encoded_length := total_length self in
  if (maximum <? encoded_length)%N then Err (Response_PayloadTooLarge encoded_length)
  else Ok (foldl (λ output part, output ++ part) [] (response_parts self)).

Definition CanonicalBrokerResponse_encode (self : CanonicalBrokerResponse)
    : result ResponseCborError str :=
  encode_with_limit self MAX_CONTROL_FRAME_BYTES.

(** ** Decoder: its input and cursor are those of [Cbor] *)

Abbreviation RDec := (ST Decoder ResponseCborError).

Definition rdec_peek : RDec byte :=
  self ← st_get;
  st_query (λ _, ok_or (d_input self !! N.to_nat (d_cursor self)) Response_Truncated).

Definition rdec_advance : RDec unit :=
  st_modify (λ self, {| d_input := d_input self; d_cursor := d_cursor self + 1 |}).

Definition rdec_byte : RDec byte :=
  byte ← rdec_peek;
  _ ← rdec_advance;
  mret byte.

(** [take] and [fixed_raw]. *)
Definition rdec_take (length : N) : RDec str := λ self,
  match checked_add_u64 (d_cursor self) length with
  | None => (Err Response_Truncated, self)
  | Some finish =>
      match get_range (d_input self) (d_cursor self) finish with
      | None => (Err Response_Truncated, self)
      | Some bytes => (Ok bytes, {| d_input := d_input self; d_cursor := finish |})
      end
  end.

(** [(value > bound).then_some(value).ok_or(NonCanonicalInteger)]. *)
Definition rdec_minimal (bound value : N) : RDec N :=
  if (bound <? value)%N then mret value else st_fail Response_NonCanonicalInteger.

Definition rdec_head (expected_major : N) : RDec N :=
  initial ← rdec_byte;
  let received := N.shiftr (b2N initial) 5 in
  if negb (received =? expected_major)%N
  then st_fail (Response_UnexpectedMajorType expected_major received)
  else
    let information := N.land (b2N initial) 31 in
    if (information <=? 23)%N then mret information
    else if (information =? 24)%N then
      byte ← rdec_byte; rdec_minimal 23 (b2N byte)
    else if (information =? 25)%N then
      bytes ← rdec_take 2; rdec_minimal (2 ^ 8 - 1) (from_be_bytes bytes)
    else if (information =? 26)%N then
      bytes ← rdec_take 4; rdec_minimal (2 ^ 16 - 1) (from_be_bytes bytes)
    else if (information =? 27)%N then
      bytes ← rdec_take 8; rdec_minimal (2 ^ 32 - 1) (from_be_bytes bytes)
    else if (information =? 31)%N then st_fail Response_IndefiniteLength
    else st_fail Response_InvalidValue.

Definition rdec_array (expected : N) : RDec unit :=
  received ← rdec_head 4;
  if (received =? expected)%N then mret tt else st_fail (Response_UnexpectedArrayLength expected received).

Definition rdec_unsigned : RDec N := rdec_head 0.

Definition rdec_bytes (maximum : N) : RDec str :=
  length ← rdec_head 2;
  if (maximum <? length)%N then st_fail (Response_PayloadTooLarge length) else rdec_take length.

Definition rdec_fixed_bytes (n : N) : RDec str :=
  bytes ← rdec_bytes n;
  if negb (len bytes =? n)%N then st_fail (Response_UnexpectedByteStringLength n (len bytes))
  else mret bytes.

Definition rdec_text (maximum : N) : RDec str :=
  length ← rdec_head 3;
  if (maximum <? length)%N then st_fail (Response_PayloadTooLarge length)
  else
    bytes ← rdec_take length;
    if utf8_valid bytes then mret bytes else st_fail Response_InvalidValue.

(** [optional_unsigned] and [optional_text]: a null byte, or the item. *)
Definition rdec_optional {A} (item : RDec A) : RDec (option A) :=
  byte ← rdec_peek;
  if (b2N byte =? 246)%N then _ ← rdec_advance; mret None
  else value ← item; mret (Some value).

(** [.map_err(|_| ResponseCborError::InvalidValue)]. *)
Definition rdec_valid {A E} (outcome : result E A) : RDec A :=
  st_query (λ _, map_err (λ _, Response_InvalidValue) outcome).

Definition public_response : RDec PublicWireResponse :=
  _ ← rdec_array RESPONSE_PUBLIC_ITEMS;
  status ← rdec_unsigned;
  if negb (status <? 2 ^ 16)%N then st_fail Response_InvalidValue
  else
    host_text ← rdec_text MAX_HOST_BYTES;
    path_text ← rdec_text MAX_PATH_BYTES;
    body ← rdec_bytes MAX_PUBLIC_WIRE_BODY_BYTES;
    host ← rdec_valid (CanonicalHost_new host_text);
    path ← rdec_valid (CanonicalUrlPath_new path_text);
    st_query (λ _, PublicWireResponse_new status host path body).

Definition github_response : RDec GitHubWireResponse :=
  _ ← rdec_array RESPONSE_GITHUB_ITEMS;
  code ← rdec_unsigned;
  operation ← st_query (λ _, github_operation_from_code code);
  response_bytes ← rdec_unsigned;
  pull_request_number ← rdec_optional rdec_unsigned;
  object_id ← rdec_optional (rdec_text MAX_OBJECT_ID_BYTES);
  st_query (λ _, GitHubWireResponse_new operation response_bytes pull_request_number object_id).

Definition rdec_outcome : RDec BrokerWireOutcome :=
  tag ← rdec_unsigned;
  if (tag =? PUBLIC_SUCCESS)%N then response ← public_response; mret (WirePublic response)
  else if (tag =? GITHUB_SUCCESS)%N then response ← github_response; mret (WireGitHub response)
  else if (tag =? REJECTED)%N then
    code ← rdec_unsigned;
    rejection ← st_query (λ _, BrokerWireRejection_from_code code);
    mret (WireRejected rejection)
  else st_fail (UnknownOutcome tag).

Definition rdec_finish : RDec unit :=
  self ← st_get;
  if (d_cursor self =? len (d_input self))%N then mret tt else st_fail Response_TrailingBytes.

Definition decode_response_reader : RDec CanonicalBrokerResponse :=
  _ ← rdec_array RESPONSE_ITEMS;
  version ← rdec_unsigned;
  if negb (version =? BROKER_RESPONSE_VERSION)%N then st_fail (Response_UnsupportedVersion version)
  else
    request ← rdec_fixed_bytes REQUEST_ID_BYTES;
    outcome ← rdec_outcome;
    _ ← rdec_finish;
    mret {| rsp_request := request; rsp_outcome := outcome |}.

Definition decode_with_limit (encoded : str) (maximum : N)
    : result ResponseCborError CanonicalBrokerResponse :=
  if (maximum <? len encoded)%N then Err (Response_PayloadTooLarge (len encoded))
  else (decode_response_reader (Decoder_new encoded)).1.

Definition CanonicalBrokerResponse_decode (encoded : str)
    : result ResponseCborError CanonicalBrokerResponse :=
  decode_with_limit encoded MAX_CONTROL_FRAME_BYTES.
