(* ===== verification/ResponseChunk.v ===== *)
(** * Chunked broker responses ([crates/egress-protocol/src/response.rs])

    A response that does not fit one control frame travels as an ordered sequence of
    chunks, each bound to the request and to the digest of the whole encoding.  The
    sender never materialises the encoding: [copy_range] cuts a chunk out of the
    parts.  SHA-256 is the argument [sha256]. *)

From S2P Require Import Prelude Bytes ControlFrame Budget ReplayGuard Cbor Response.

Inductive ResponseChunkError :=
  | Chunk_Response (error : ResponseCborError)
  | EmptySequence
  | InvalidMetadata
  | EncodedChunkTooLarge (length : N)
  | RequestBindingMismatch (index : N)
  | InconsistentMetadata (index : N)
  | DuplicateChunk (index : N)
  | MissingChunk (index : N)
  | ReorderedChunk (expected received : N)
  | InvalidChunkLength (index expected received : N)
  | TotalLengthMismatch (declared received : N)
  | DigestMismatch
  | ResponseRequestMismatch.

Abbreviation CR := (result ResponseChunkError).

Definition checked_mul_u64 (a b : N) : option N := if (a * b <? u64_limit)%N then Some (a * b)%N else None.

(** ** Sizing *)

Definition canonical_chunk_count (total_length : N) : CR N :=
  if (total_length =? 0)%N || (MAX_EXPANDED_CANONICAL_RESPONSE_BYTES <? total_length)%N
  then Err InvalidMetadata
  else Ok ((total_length + MAX_RESPONSE_CHUNK_BYTES - 1) / MAX_RESPONSE_CHUNK_BYTES)%N.

Definition chunk_offset (index : N) : CR N :=
  ok_or (checked_mul_u64 index MAX_RESPONSE_CHUNK_BYTES) InvalidMetadata.

Definition canonical_chunk_length (total_length index : N) : CR N :=
  offset ← ok_or (checked_mul_u64 index MAX_RESPONSE_CHUNK_BYTES) InvalidMetadata;
  remaining ← ok_or (checked_sub_u64 total_length offset) InvalidMetadata;
  Ok (N.min remaining MAX_RESPONSE_CHUNK_BYTES).

(** ** Cutting a range out of the parts *)

(** One call of the consumer in [copy_range].  The slice is inside the part: it
    starts at or after [position] and ends at or before [part_end]. *)
Definition copy_part (start finish : N) (acc : N * str) (part : str) : N * str :=
  let '(position, output) := acc in
  let part_end := saturating_add position (len part) in
  let overlap_start := N.max start position in
  let overlap_end := N.min finish part_end in
  (part_end,
   if (overlap_start <? overlap_end)%N
   then output ++ default [] (get_range part (overlap_start - position) (overlap_end - position))
   else output).

(** Appends the range to [output]. *)
Definition copy_range (self : CanonicalBrokerResponse) (start length : N) (output : str) : CR str :=
  finish ← ok_or (checked_add_u64 start length) InvalidMetadata;
  if negb (finish <=? total_length self)%N then Err InvalidMetadata
  else
    let '(_, copied) := foldl (copy_part start finish) (0%N, output) (response_parts self) in
    if negb (len copied - len output =? length)%N then Err InvalidMetadata else Ok copied.

(** ** Chunks *)

Record CanonicalResponseChunk := {
  crc_request : BrokerRequestId;
  crc_index : N;
  crc_count : N;
  crc_total_length : N;
  crc_digest : str;
  crc_bytes : str;
}.

#[export] Instance CanonicalResponseChunk_eq_dec : EqDecision CanonicalResponseChunk.
Proof. solve_decision. Defined.

Definition chunk_validate (self : CanonicalResponseChunk) : CR unit :=
  expected_count ← canonical_chunk_count (crc_total_length self);
  if negb (crc_count self =? expected_count)%N || (crc_count self <=? crc_index self)%N
  then Err InvalidMetadata
  else
    expected ← canonical_chunk_length (crc_total_length self) (crc_index self);
    if negb (len (crc_bytes self) =? expected)%N
    then Err (InvalidChunkLength (crc_index self) expected (len (crc_bytes self)))
    else Ok tt.

Definition chunk_from_parts (request : BrokerRequestId) (index count total_length : N)
    (digest bytes : str) : CR CanonicalResponseChunk :=
  let chunk := {| crc_request := request; crc_index := index; crc_count := count;
                  crc_total_length := total_length; crc_digest := digest; crc_bytes := bytes |} in
  _ ← chunk_validate chunk;
  Ok chunk.

Definition write_bytes_item (bytes : str) : str := emit_head 2 (len bytes) ++ bytes.

(** The fields before the chunk's bytes. *)
Definition chunk_header (request : BrokerRequestId) (index count total_length : N) (digest : str) : str :=
  emit_head 4 RESPONSE_CHUNK_ITEMS ++ emit_head 0 BROKER_RESPONSE_CHUNK_VERSION ++
  write_bytes_item request ++ emit_head 0 index ++ emit_head 0 count ++ emit_head 0 total_length ++
  write_bytes_item digest.

Definition bounded_chunk (output : str) : CR str :=
  if (MAX_CONTROL_FRAME_BYTES <? len output)%N then Err (EncodedChunkTooLarge (len output)) else Ok output.

Definition chunk_encode (self : CanonicalResponseChunk) : CR str :=
  _ ← chunk_validate self;
  bounded_chunk (chunk_header (crc_request self) (crc_index self) (crc_count self)
                   (crc_total_length self) (crc_digest self) ++ write_bytes_item (crc_bytes self)).

(** The fields of the chunk array, up to the end of the input. *)
Definition chunk_reader : RDec (str * N * N * N * str * str) :=
  _ ← rdec_array RESPONSE_CHUNK_ITEMS;
  version ← rdec_unsigned;
  if negb (version =? BROKER_RESPONSE_CHUNK_VERSION)%N then st_fail (Response_UnsupportedVersion version)
  else
    request ← rdec_fixed_bytes REQUEST_ID_BYTES;
    index ← rdec_unsigned;
    count ← rdec_unsigned;
    total_length ← rdec_unsigned;
    digest ← rdec_fixed_bytes RESPONSE_DIGEST_BYTES;
    bytes ← rdec_bytes MAX_RESPONSE_CHUNK_BYTES;
    _ ← rdec_finish;
    mret (request, index, count, total_length, digest, bytes).

Definition chunk_decode (encoded : str) : CR CanonicalResponseChunk :=
  if (MAX_CONTROL_FRAME_BYTES <? len encoded)%N then Err (EncodedChunkTooLarge (len encoded))
  else
    '(request, index, count, total_length, digest, bytes) ←
      map_err Chunk_Response (chunk_reader (Decoder_new encoded)).1;
    chunk_from_parts request index count total_length digest bytes.

(** ** Chunk sequences *)

Record CanonicalChunkSequence := {
  ccs_response : CanonicalBrokerResponse;
  ccs_count : N;
  ccs_digest : str;
}.

Definition sequence_chunk (self : CanonicalChunkSequence) (index : N) : CR CanonicalResponseChunk :=
  let response := ccs_response self in
  length ← canonical_chunk_length (total_length response) index;
  offset ← chunk_offset index;
  bytes ← copy_range response offset length [];
  chunk_from_parts (rsp_request response) index (ccs_count self) (total_length response)
    (ccs_digest self) bytes.

Definition sequence_encoded_chunk (self : CanonicalChunkSequence) (index : N) : CR str :=
  let response := ccs_response self in
  length ← canonical_chunk_length (total_length response) index;
  offset ← chunk_offset index;
  output ← copy_range response offset length
    (chunk_header (rsp_request response) index (ccs_count self) (total_length response)
       (ccs_digest self) ++ emit_head 2 length);
  bounded_chunk output.

(** [CanonicalResponseChunks] and [CanonicalResponseChunkPayloads]. *)
Record ChunkIter := { ci_sequence : CanonicalChunkSequence; ci_next_index : N }.

Definition ci_remaining (self : ChunkIter) : N := (ccs_count (ci_sequence self) - ci_next_index self)%N.

(** [Iterator::next] of both. *)
Definition ci_next {A} (item : CanonicalChunkSequence → N → CR A) (self : ChunkIter)
    : option (CR A) * ChunkIter :=
  if (ccs_count (ci_sequence self) <=? ci_next_index self)%N then (None, self)
  else (Some (item (ci_sequence self) (ci_next_index self)),
        {| ci_sequence := ci_sequence self; ci_next_index := saturating_add (ci_next_index self) 1 |}).

(** What the iterator yields, with the exact size it announces as fuel. *)
Fixpoint ci_drain {A} (item : CanonicalChunkSequence → N → CR A) (fuel : nat) (self : ChunkIter)
    : list (CR A) * ChunkIter :=
  match fuel with
  | O => ([], self)
  | S fuel =>
      match ci_next item self with
      | (None, self) => ([], self)
      | (Some x, self) => let '(xs, self) := ci_drain item fuel self in (x :: xs, self)
      end
  end.

Definition ci_items {A} (item : CanonicalChunkSequence → N → CR A) (self : ChunkIter) : list (CR A) :=
  (ci_drain item (N.to_nat (ci_remaining self)) self).1.

Section digests.
  Context (sha256 : str → str).

(** [digest.update] on every part, then [finalize]. *)
Definition encoding_digest (self : CanonicalBrokerResponse) : str :=
  sha256 (foldl (λ input part, input ++ part) [] (response_parts self)).

Definition CanonicalChunkSequence_new (response : CanonicalBrokerResponse) : CR CanonicalChunkSequence :=
  if (MAX_EXPANDED_CANONICAL_RESPONSE_BYTES <? total_length response)%N
  then Err (Chunk_Response (Response_PayloadTooLarge (total_length response)))
  else
    count ← canonical_chunk_count (total_length response);
    Ok {| ccs_response := response; ccs_count := count; ccs_digest := encoding_digest response |}.

(** [chunk_iter] and [encoded_chunk_iter]. *)
Definition chunk_iter (self : CanonicalBrokerResponse) : CR ChunkIter :=
  sequence ← CanonicalChunkSequence_new self;
  Ok {| ci_sequence := sequence; ci_next_index := 0 |}.

Definition chunks (self : CanonicalBrokerResponse) : CR (list CanonicalResponseChunk) :=
  iter ← chunk_iter self;
  collect (ci_items sequence_chunk iter).

Definition encoded_chunks (self : CanonicalBrokerResponse) : CR (list str) :=
  iter ← chunk_iter self;
  collect (ci_items sequence_encoded_chunk iter).

(** ** Reassembly *)

(** One chunk of the first loop; [None] is the panic of [seen[index]] out of range. *)
Definition check_chunk (first : CanonicalResponseChunk) (seen : list bool) (chunk : CanonicalResponseChunk)
    : option (CR (list bool)) :=
  match chunk_validate chunk with
  | Err e => Some (Err e)
  | Ok _ =>
      if negb (bool_decide (crc_request chunk = crc_request first))
      then Some (Err (RequestBindingMismatch (crc_index chunk)))
      else if negb (crc_count chunk =? crc_count first)%N
              || negb (crc_total_length chunk =? crc_total_length first)%N
              || negb (bool_decide (crc_digest chunk = crc_digest first))
      then Some (Err (InconsistentMetadata (crc_index chunk)))
      else
        let index := N.to_nat (crc_index chunk) in
        match seen !! index with
        | None => None
        | Some true => Some (Err (DuplicateChunk (crc_index chunk)))
        | Some false => Some (Ok (<[index := true]> seen))
        end
  end.

Fixpoint check_chunks (first : CanonicalResponseChunk) (seen : list bool)
    (chunks : list CanonicalResponseChunk) : option (CR (list bool)) :=
  match chunks with
  | [] => Some (Ok seen)
  | chunk :: rest =>
      match check_chunk first seen chunk with
      | Some (Ok seen) => check_chunks first seen rest
      | stopped => stopped
      end
  end.

(** [seen.iter().position(|present| !present)]. *)
Fixpoint first_missing (index : N) (seen : list bool) : option N :=
  match seen with
  | [] => None
  | true :: rest => first_missing (index + 1) rest
  | false :: _ => Some index
  end.

Fixpoint check_order (expected : N) (chunks : list CanonicalResponseChunk) : CR unit :=
  match chunks with
  | [] => Ok tt
  | chunk :: rest =>
      if negb (crc_index chunk =? expected)%N then Err (ReorderedChunk expected (crc_index chunk))
      else check_order (expected + 1) rest
  end.

(** After the first loop: order, length, digest and the decoded response. *)
Definition finish_reassembly (first : CanonicalResponseChunk) (chunks : list CanonicalResponseChunk)
    (seen : list bool) : CR CanonicalBrokerResponse :=
  match first_missing 0 seen with
  | Some index => Err (MissingChunk index)
  | None =>
      _ ← check_order 0 chunks;
      let received := foldl (λ sum chunk, sum + len (crc_bytes chunk))%N 0%N chunks in
      if negb (received =? crc_total_length first)%N
      then Err (TotalLengthMismatch (crc_total_length first) received)
      else
        let encoded := foldl (λ output chunk, output ++ crc_bytes chunk) [] chunks in
        if negb (bool_decide (sha256 encoded = crc_digest first)) then Err DigestMismatch
        else
          response ← map_err Chunk_Response
            (decode_with_limit encoded MAX_EXPANDED_CANONICAL_RESPONSE_BYTES);
          if negb (bool_decide (rsp_request response = crc_request first))
          then Err ResponseRequestMismatch
          else Ok response
  end.

(** [None] is a panic. *)
Definition reassemble_response_chunks (chunks : list CanonicalResponseChunk)
    : option (CR CanonicalBrokerResponse) :=
  match chunks with
  | [] => Some (Err EmptySequence)
  | first :: _ =>
      match chunk_validate first with
      | Err e => Some (Err e)
      | Ok _ =>
          match check_chunks first (replicate (N.to_nat (crc_count first)) false) chunks with
          | None => None
          | Some (Err e) => Some (Err e)
          | Some (Ok seen) => Some (finish_reassembly first chunks seen)
          end
      end
  end.
End digests.
