(* ===== verification/ResponseProps.v ===== *)
(** * Exactness of the response grammar

    The response decoder accepts exactly the encodings of well-formed responses, up
    to the spelling of the host. *)

From S2P Require Import Prelude Bytes Http GitHub ControlFrame Budget ReplayGuard Cbor Grammar CborProps Response.

(** ** Heads *)

Lemma emit_head_write major value : emit_head major value = write_head major value.
Proof.
  unfold emit_head, encoded_head, write_head.
  destruct (N.ltb_spec value 24).
  { rewrite N.mod_small by lia. done. }
  repeat match goal with |- context [if ?c then _ else _] => destruct c end; reflexivity.
Qed.

Lemma gram_rtake n : gram (rdec_take n) (λ e v, e = v ∧ len v = n).
Proof. by apply (gram_take_of Response_Truncated). Qed.

Lemma rdec_peek_at pre rest :
  rdec_peek (dec_at pre rest) = (ok_or (head rest) Response_Truncated, dec_at pre rest).
Proof.
  unfold rdec_peek, dec_at. unfold_st. cbn [d_input d_cursor]. unfold len. rewrite Nat2N.id.
  rewrite lookup_app_r by done. rewrite Nat.sub_diag. by destruct rest.
Qed.

Lemma rdec_advance_at pre b rest :
  rdec_advance (dec_at pre (b :: rest)) = (Ok tt, dec_at (pre ++ [b]) rest).
Proof.
  unfold rdec_advance, dec_at. unfold_st. cbn [d_input d_cursor]. rewrite <- (assoc_L (++)), len_app. done.
Qed.

Lemma gram_rbyte : gram rdec_byte (λ e v, e = [v]).
Proof.
  intros pre rest _ v d'. unfold rdec_byte, mbind, ST_bind. rewrite rdec_peek_at.
  destruct rest as [|b rest]; cbn [head ok_or].
  - split; [done|]. intros (enc & rest' & He & -> & _). by destruct rest'.
  - rewrite rdec_advance_at. split.
    + intros [= <- <-]. by exists [b], rest.
    + intros (enc & rest' & He & -> & ->). injection He as -> ->. done.
Qed.

Lemma gram_minimal bound value :
  gram (rdec_minimal bound value) (λ e v, e = [] ∧ v = value ∧ (bound <? value)%N = true).
Proof.
  unfold rdec_minimal. destruct (bound <? value)%N.
  - eapply gram_iff; [apply gram_ret|]. naive_solver.
  - eapply gram_iff; [apply gram_fail|]. naive_solver.
Qed.

(** A wide argument of [w] bytes above its bound. *)
Lemma gram_wide n w bound :
  N.of_nat w = n →
  gram (bytes ← rdec_take n; rdec_minimal bound (from_be_bytes bytes))
    (λ e v, length e = w ∧ v = from_be_bytes e ∧ (bound <? v)%N = true).
Proof.
  intros Hw. eapply gram_iff; [eapply gram_bind; [apply gram_rtake|intros a; apply gram_minimal]|].
  intros e v. unfold len. split.
  - intros (a & e1 & e2 & -> & [-> Hl] & -> & -> & Hb). rewrite app_nil_r. split_and!; [lia|done|done].
  - intros (Hl & -> & Hb). exists e, e, []. rewrite app_nil_r. split_and!; try done. lia.
Qed.

Lemma gram_wide_byte :
  gram (byte ← rdec_byte; rdec_minimal 23 (b2N byte))
    (λ e v, length e = 1 ∧ v = from_be_bytes e ∧ (23 <? v)%N = true).
Proof.
  eapply gram_iff; [eapply gram_bind; [apply gram_rbyte|intros a; apply gram_minimal]|].
  intros e v. split.
  - intros (a & e1 & e2 & -> & -> & -> & -> & Hb). done.
  - intros (Hl & -> & Hb). destruct e as [|b [|]]; [done| |done]. exists b, [b], []. done.
Qed.

Lemma gram_rhead major :
  (major < 8)%N → gram (rdec_head major) (λ e v, e = write_head major v ∧ (v < u64_limit)%N).
Proof.
  intros Hm. unfold rdec_head.
  assert (∀ a, gram (if (a <=? 23)%N then mret a
    else if (a =? 24)%N then byte ← rdec_byte; rdec_minimal 23 (b2N byte)
    else if (a =? 25)%N then bytes ← rdec_take 2; rdec_minimal (2 ^ 8 - 1) (from_be_bytes bytes)
    else if (a =? 26)%N then bytes ← rdec_take 4; rdec_minimal (2 ^ 16 - 1) (from_be_bytes bytes)
    else if (a =? 27)%N then bytes ← rdec_take 8; rdec_minimal (2 ^ 32 - 1) (from_be_bytes bytes)
    else if (a =? 31)%N then st_fail Response_IndefiniteLength else st_fail Response_InvalidValue)
    (λ e v, argument a e v ∧ uses_minimal_width a v = true)) as Harg.
  { intros a. unfold argument, argument_width, uses_minimal_width. destruct (N.leb_spec a 23).
    { eapply gram_iff; [apply gram_ret|]. intros e v. repeat case_match; breflect; naive_solver lia. }
    repeat match goal with
    | |- context [if (?a =? ?b)%N then _ else _] => destruct (N.eqb_spec a b); subst; cbv iota beta
    end; try lia;
    try (eapply gram_iff; [apply gram_fail|]; intros e v; naive_solver lia);
    (eapply gram_iff; [first [exact gram_wide_byte|exact (gram_wide 2 2 _ eq_refl)
       |exact (gram_wide 4 4 _ eq_refl)|exact (gram_wide 8 8 _ eq_refl)]|]);
    intros e v; simpl; rewrite ?N.leb_le, ?N.ltb_lt;
    (split; [intros (<- & -> & ?); split; [by right|lia]|
             intros [[(? & _ & _)|[[= <-] ->]] ?]; [lia|split_and!; [done|done|lia]]]). }
  eapply gram_iff.
  { eapply gram_bind; [apply gram_rbyte|]. intros b. apply gram_if_fail, Harg. }
  intros e v. split.
  - intros (b & e1 & e2 & -> & -> & Hb & Ha & Hmin). apply N.eqb_eq in Hb.
    by destruct (minimal_head _ _ _ _ Hb Ha Hmin) as [-> ?].
  - intros [-> Hv]. destruct (written_head major v Hm Hv) as (b & e & -> & Hb & Ha & Hmin).
    exists b, [b], e. by rewrite Hb, N.eqb_refl.
Qed.

Lemma gram_runsigned : gram rdec_unsigned (λ e v, e = write_unsigned v ∧ (v < u64_limit)%N).
Proof. by apply gram_rhead. Qed.

Lemma gram_if {E A} (b : bool) (e : E) (m : ST Decoder E A) P :
  gram m P → gram (if b then m else st_fail e) (λ enc v, b = true ∧ P enc v).
Proof. intros Hm. pose proof (gram_if_fail b e m P Hm) as H. by destruct b. Qed.

Lemma gram_rarray n : (n < u64_limit)%N → gram (rdec_array n) (λ e _, e = write_array n).
Proof.
  intros Hn. eapply gram_iff.
  { unfold rdec_array. eapply gram_bind; [by apply gram_rhead|]. intros r. apply gram_if, gram_ret. }
  intros e []. split.
  - intros (r & e1 & e2 & -> & [-> _] & Hr & -> & _). apply N.eqb_eq in Hr. by rewrite Hr, app_nil_r.
  - intros ->. exists n, (write_array n), []. rewrite app_nil_r, N.eqb_refl. done.
Qed.

Lemma gram_guard {E A} (b : bool) (e : E) (m : ST Decoder E A) P :
  gram m P → gram (if b then st_fail e else m) (λ enc v, b = false ∧ P enc v).
Proof.
  intros Hm. pose proof (gram_if_fail (negb b) e m P Hm) as H. rewrite negb_involutive in H.
  eapply gram_iff; [exact H|]. intros enc v. destruct b; naive_solver.
Qed.

Lemma gram_rbytes n :
  (n < u64_limit)%N → gram (rdec_bytes n) (λ e v, e = write_bytes v ∧ (len v <= n)%N).
Proof.
  intros Hn. eapply gram_iff.
  { unfold rdec_bytes. eapply gram_bind; [by apply gram_rhead|]. intros l. apply gram_guard, gram_rtake. }
  intros e v. split.
  - intros (l & e1 & e2 & -> & [-> _] & Hl & -> & <-). by apply N.ltb_ge in Hl.
  - intros [-> Hl]. exists (len v), (write_head 2 (len v)), v. split_and!; try done; [lia|by apply N.ltb_ge].
Qed.

Lemma gram_rfixed n :
  (n < u64_limit)%N → gram (rdec_fixed_bytes n) (λ e v, e = write_bytes v ∧ len v = n).
Proof.
  intros Hn. eapply gram_iff.
  { unfold rdec_fixed_bytes. eapply gram_bind; [by apply gram_rbytes|]. intros b. apply gram_if_fail, gram_ret. }
  intros e v. split.
  - intros (b & e1 & e2 & -> & [-> _] & Hl & -> & ->). apply N.eqb_eq in Hl. by rewrite app_nil_r.
  - intros [-> <-]. exists v, (write_bytes v), []. by rewrite app_nil_r, N.eqb_refl.
Qed.

Lemma gram_rtext n :
  (n < u64_limit)%N →
  gram (rdec_text n) (λ e v, e = write_text v ∧ (len v <= n)%N ∧ utf8_valid v = true).
Proof.
  intros Hn. eapply gram_iff.
  { unfold rdec_text. eapply gram_bind; [by apply gram_rhead|]. intros l. apply gram_guard.
    eapply gram_bind; [apply gram_rtake|]. intros b. apply gram_if, gram_ret. }
  intros e v. split.
  - intros (l & e1 & e2 & -> & [-> _] & Hl & b & ? & ? & -> & [-> <-] & Hu & -> & ->).
    apply N.ltb_ge in Hl. by rewrite app_nil_r.
  - intros (-> & Hl & Hu). exists (len v), (write_head 3 (len v)), v. split_and!; try done; [lia|by apply N.ltb_ge|].
    exists v, v, []. by rewrite app_nil_r.
Qed.

Lemma gram_rvalid {A E} (r : result E A) : gram (rdec_valid r) (λ e v, e = [] ∧ r = Ok v).
Proof. eapply gram_iff; [apply gram_query|]. intros e v. destruct r; simpl; naive_solver. Qed.

Lemma gram_end_rfinish {A} (a : A) : gram_end (_ ← rdec_finish; mret a) (λ e v, e = [] ∧ v = a).
Proof.
  intros pre rest Hl v. unfold rdec_finish, dec_at. unfold_st. rewrite len_app.
  destruct (N.eqb_spec (len pre) (len pre + len rest)) as [He|He]; simpl.
  - assert (rest = []) as -> by (destruct rest; [done|unfold len in He; simpl in He; lia]). naive_solver.
  - split; [done|]. intros [-> _]. by rewrite N.add_0_r in He.
Qed.

(** ** Optional items *)

(** The encodings of an item never start with the null byte. *)
Definition not_null {A} (P : str → A → Prop) : Prop :=
  ∀ e v, P e v → ∃ b e', e = b :: e' ∧ b2N b ≠ 246%N.

Lemma gram_optional {A} (item : RDec A) P :
  gram item P → not_null P →
  gram (rdec_optional item) (λ e v, match v with None => e = [N2b 246] | Some a => P e a end).
Proof.
  intros Hi Hn pre rest Hl v d'. unfold rdec_optional, mbind, ST_bind. rewrite rdec_peek_at.
  destruct rest as [|b rest]; cbn [head ok_or].
  { split; [done|]. intros (enc & rest' & He & HP & _). symmetry in He. apply app_nil in He as [-> ->].
    destruct v as [a|]; [|done]. apply Hn in HP as (b & e' & ? & _). done. }
  destruct (N.eqb_spec (b2N b) 246) as [Hb|Hb].
  - assert (b = N2b 246) as -> by (apply b2N_inj; by rewrite Hb). rewrite rdec_advance_at. split.
    + intros [= <- <-]. exists [N2b 246], rest. done.
    + intros (enc & rest' & He & HP & ->). destruct v as [a|].
      * apply Hn in HP as (b & e' & -> & Hne). injection He as <- _. done.
      * subst enc. injection He as ->. done.
  - split.
    + destruct (item _) as [[a|e] d1] eqn:Hrun; [|done]. intros [= <- <-].
      apply Hi in Hrun; [|done]. exact Hrun.
    + intros (enc & rest' & He & HP & ->). destruct v as [a|]; [|by subst enc; injection He as -> _].
      assert (item (dec_at pre (b :: rest)) = (Ok a, dec_at (pre ++ enc) rest')) as ->; [|done].
      apply Hi; [done|]. eauto.
Qed.

Lemma written_not_null major v e :
  (major < 7)%N → (v < u64_limit)%N → ∃ b e', write_head major v ++ e = b :: e' ∧ b2N b ≠ 246%N.
Proof.
  intros Hm Hv. destruct (written_head major v ltac:(lia) Hv) as (b & e' & -> & Hb & _).
  exists b, (e' ++ e). split; [done|]. intros Heq. rewrite Heq in Hb. change (N.shiftr 246 5) with 7%N in Hb. lia.
Qed.

(** ** Responses *)

(** The values the constructors build, at their Rust widths. *)
Definition outcome_wf (outcome : BrokerWireOutcome) : Prop :=
  match outcome with
  | WirePublic p =>
      PublicWireResponse_new (pwr_status p) (pwr_host p) (pwr_path p) (pwr_body p) = Ok p ∧
      CanonicalHost_wf (pwr_host p) ∧ CanonicalUrlPath_wf (pwr_path p)
  | WireGitHub g =>
      GitHubWireResponse_new (gwr_operation g) (gwr_response_bytes g) (gwr_pull_request_number g)
        (gwr_object_id g) = Ok g ∧
      (∀ n, gwr_pull_request_number g = Some n → (n < u64_limit)%N)
  | WireRejected _ => True
  end.

Definition response_wf (self : CanonicalBrokerResponse) : Prop :=
  len (rsp_request self) = REQUEST_ID_BYTES ∧ outcome_wf (rsp_outcome self).

(** The encoding with a given spelling of the host. *)
Definition enc_outcome (host : str) (outcome : BrokerWireOutcome) : str :=
  match outcome with
  | WirePublic p =>
      write_unsigned PUBLIC_SUCCESS ++ write_array RESPONSE_PUBLIC_ITEMS ++ write_unsigned (pwr_status p) ++
      write_text host ++ write_text (CanonicalUrlPath_to_string (pwr_path p)) ++ write_bytes (pwr_body p)
  | WireGitHub g =>
      write_unsigned GITHUB_SUCCESS ++ write_array RESPONSE_GITHUB_ITEMS ++
      write_unsigned (github_operation_code (gwr_operation g)) ++ write_unsigned (gwr_response_bytes g) ++
      match gwr_pull_request_number g with Some n => write_unsigned n | None => [N2b 246] end ++
      match gwr_object_id g with Some s => write_text s | None => [N2b 246] end
  | WireRejected r => write_unsigned REJECTED ++ write_unsigned (BrokerWireRejection_code r)
  end.

Definition enc_response (host : str) (self : CanonicalBrokerResponse) : str :=
  write_array RESPONSE_ITEMS ++ write_unsigned BROKER_RESPONSE_VERSION ++ write_bytes (rsp_request self) ++
  enc_outcome host (rsp_outcome self).

(** The host text as it may be spelled; other outcomes carry none. *)
Definition spelling (host : str) (outcome : BrokerWireOutcome) : Prop :=
  match outcome with
  | WirePublic p => CanonicalHost_new host = Ok (pwr_host p) ∧ (len host <= MAX_HOST_BYTES)%N
  | _ => True
  end.

Definition canonical_spelling (outcome : BrokerWireOutcome) : str :=
  match outcome with WirePublic p => ch_name (pwr_host p) | _ => [] end.

Lemma foldl_app_concat (l : list str) acc : foldl (λ output part, output ++ part) acc l = acc ++ concat l.
Proof.
  revert acc. induction l as [|x l IH]; intros acc; simpl; [by rewrite app_nil_r|].
  by rewrite IH, (assoc_L (++)).
Qed.

Lemma concat_parts self :
  concat (response_parts self) = enc_response (canonical_spelling (rsp_outcome self)) self.
Proof.
  unfold response_parts, enc_response, emit_bytes, emit_text, emit_optional_unsigned, emit_optional_text, emit_text.
  destruct self as [req [p|g|r]]; cbn [rsp_request rsp_outcome enc_outcome canonical_spelling].
  - rewrite !emit_head_write. simpl concat. unfold write_text, write_bytes. by rewrite <- !(assoc_L (++)), !app_nil_r.
  - rewrite !emit_head_write. destruct (gwr_pull_request_number g), (gwr_object_id g);
      rewrite ?emit_head_write; simpl concat; unfold write_text, write_bytes; by rewrite <- ?(assoc_L (++)), ?app_nil_r.
  - rewrite !emit_head_write. simpl concat. unfold write_bytes. by rewrite <- ?(assoc_L (++)), ?app_nil_r.
Qed.

Lemma github_code_iff code op :
  github_operation_from_code code = Ok op ↔ code = github_operation_code op.
Proof.
  split; [|by intros ->; destruct op].
  unfold github_operation_from_code. intros H. split_matches.
Qed.

Lemma rejection_code_iff code r :
  BrokerWireRejection_from_code code = Ok r ↔ code = BrokerWireRejection_code r.
Proof.
  split; [|by intros ->; destruct r].
  unfold BrokerWireRejection_from_code. intros H. split_matches.
Qed.

Lemma PublicWireResponse_new_ok status host path body p :
  PublicWireResponse_new status host path body = Ok p ↔
  p = {| pwr_status := status; pwr_host := host; pwr_path := path; pwr_body := body |} ∧
  (100 <= status <= 599)%N ∧ (len (ch_name host) <= MAX_HOST_BYTES)%N ∧
  (len (CanonicalUrlPath_to_string path) <= MAX_PATH_BYTES)%N ∧ (len body <= MAX_PUBLIC_WIRE_BODY_BYTES)%N.
Proof.
  unfold PublicWireResponse_new, in_range.
  repeat match goal with |- context [(?a <=? ?b)%N] => destruct (N.leb_spec a b) end;
  repeat match goal with |- context [(?a <? ?b)%N] => destruct (N.ltb_spec a b) end; simpl; naive_solver lia.
Qed.

Definition public_body (e : str) (p : PublicWireResponse) : Prop :=
  ∃ host, CanonicalHost_new host = Ok (pwr_host p) ∧ (len host <= MAX_HOST_BYTES)%N ∧
    PublicWireResponse_new (pwr_status p) (pwr_host p) (pwr_path p) (pwr_body p) = Ok p ∧
    CanonicalUrlPath_wf (pwr_path p) ∧
    e = write_array RESPONSE_PUBLIC_ITEMS ++ write_unsigned (pwr_status p) ++ write_text host ++
        write_text (CanonicalUrlPath_to_string (pwr_path p)) ++ write_bytes (pwr_body p).

Lemma gram_public_response : gram public_response public_body.
Proof.
  eapply gram_iff.
  { unfold public_response. eapply gram_bind; [by apply gram_rarray|]. intros ?.
    eapply gram_bind; [apply gram_runsigned|]. intros status. apply gram_if_fail.
    eapply gram_bind; [by apply gram_rtext|]. intros ht. eapply gram_bind; [by apply gram_rtext|]. intros pt.
    eapply gram_bind; [by apply gram_rbytes|]. intros body.
    eapply gram_bind; [apply gram_rvalid|]. intros host. eapply gram_bind; [apply gram_rvalid|]. intros path.
    apply gram_query. }
  intros e p. split.
  - intros (? & ? & ? & -> & -> & status & ? & ? & -> & [-> _] & _ & ht & ? & ? & -> & (-> & Hhl & _) &
      pt & ? & ? & -> & (-> & _ & _) & body & ? & ? & -> & [-> _] & host & ? & ? & -> & [-> Hhost] &
      path & ? & ? & -> & [-> Hpath] & -> & Hnew).
    apply CanonicalUrlPath_new_iff in Hpath as [Hwf Hps]. pose proof Hnew as Hok.
    apply PublicWireResponse_new_ok in Hok as [-> _]. exists ht. simpl. rewrite !app_nil_r, Hps. by split_and!.
  - intros (host & Hh & Hhl & Hnew & Hwf & ->). pose proof Hnew as (_ & Hs & _ & Hpl & Hbl)%PublicWireResponse_new_ok.
    pose proof Hwf as (_ & _ & _ & Hpa).
    eexists tt, _, _. split_and!; [done|done|].
    eexists (pwr_status p), _, _. split_and!; [done|done|unfold u64_limit; lia|apply N.ltb_lt; lia|].
    eexists host, _, _. split_and!; [done|done|done|by eapply CanonicalHost_new_utf8|].
    eexists (CanonicalUrlPath_to_string (pwr_path p)), _, _. split_and!; [done|done|done|by apply is_ascii_utf8_valid|].
    eexists (pwr_body p), _, []. rewrite app_nil_r. split_and!; [done|done|done|].
    eexists (pwr_host p), [], []. split_and!; [done|done|done|].
    eexists (pwr_path p), [], []. split_and!; [done|done| |done|done]. by apply CanonicalUrlPath_new_iff.
Qed.

Lemma GitHubWireResponse_new_ok op n pr id g :
  GitHubWireResponse_new op n pr id = Ok g →
  g = {| gwr_operation := op; gwr_response_bytes := n; gwr_pull_request_number := pr; gwr_object_id := id |} ∧
  (n <= MAX_GITHUB_WIRE_RESPONSE_BYTES)%N ∧
  (∀ s, id = Some s → valid_object_id s = true).
Proof.
  unfold GitHubWireResponse_new. destruct (N.ltb_spec MAX_GITHUB_WIRE_RESPONSE_BYTES n); [done|].
  destruct op, pr as [k|], id as [s|]; simpl;
    try (destruct (valid_object_id s) eqn:Hs); try (destruct (k =? 0)%N); simpl; intros Hg; simplify_eq; naive_solver.
Qed.

Lemma valid_object_id_text s :
  valid_object_id s = true → (len s <= MAX_OBJECT_ID_BYTES)%N ∧ utf8_valid s = true.
Proof.
  unfold valid_object_id, MAX_OBJECT_ID_BYTES. intros [Hl Hc]%andb_true_iff. split.
  { apply orb_true_iff in Hl as [Hl|Hl]; apply N.eqb_eq in Hl; lia. }
  apply is_ascii_utf8_valid. unfold is_ascii. apply forallb_forall. intros b Hb.
  rewrite forallb_forall in Hc. specialize (Hc b Hb). unfold is_ascii_byte, is_ascii_digit, in_range in *.
  breflect. lia.
Qed.

Definition github_answer (e : str) (g : GitHubWireResponse) : Prop :=
  GitHubWireResponse_new (gwr_operation g) (gwr_response_bytes g) (gwr_pull_request_number g)
    (gwr_object_id g) = Ok g ∧
  (∀ n, gwr_pull_request_number g = Some n → (n < u64_limit)%N) ∧
  e = write_array RESPONSE_GITHUB_ITEMS ++ write_unsigned (github_operation_code (gwr_operation g)) ++
      write_unsigned (gwr_response_bytes g) ++
      match gwr_pull_request_number g with Some n => write_unsigned n | None => [N2b 246] end ++
      match gwr_object_id g with Some s => write_text s | None => [N2b 246] end.

Lemma gram_github_response : gram github_response github_answer.
Proof.
  eapply gram_iff.
  { unfold github_response. eapply gram_bind; [by apply gram_rarray|]. intros ?.
    eapply gram_bind; [apply gram_runsigned|]. intros code. eapply gram_bind; [apply gram_query|]. intros op.
    eapply gram_bind; [apply gram_runsigned|]. intros n.
    eapply gram_bind; [apply (gram_optional _ _ gram_runsigned)|].
    { intros e v [-> Hv]. rewrite <- (app_nil_r (write_unsigned v)). by apply written_not_null. }
    intros pr. eapply gram_bind; [apply (gram_optional _ _ (gram_rtext MAX_OBJECT_ID_BYTES eq_refl))|].
    { intros e v (-> & Hl & _). apply written_not_null; [done|]. unfold MAX_OBJECT_ID_BYTES, u64_limit in *. lia. }
    intros id. apply gram_query. }
  intros e g. split.
  - intros (? & ? & ? & -> & -> & code & ? & ? & -> & [-> _] & op & ? & ? & -> & [-> Hop%github_code_iff] &
      n & ? & ? & -> & [-> _] & pr & e1 & ? & -> & Hpr & id & e2 & ? & -> & Hid & -> & Hnew).
    unfold github_answer. pose proof Hnew as [-> _]%GitHubWireResponse_new_ok. simpl. subst code. rewrite app_nil_r.
    split_and!; [done| |].
    + intros k ->. apply Hpr.
    + simpl. do 3 f_equal. f_equal; [destruct pr; [by destruct Hpr|done]|destruct id; [by destruct Hid|done]].
  - intros (Hnew & Hpr & ->). pose proof Hnew as (_ & Hn & Hid)%GitHubWireResponse_new_ok.
    eexists tt, _, _. split_and!; [done|done|].
    eexists (github_operation_code (gwr_operation g)), _, _. split_and!; [done|done|by destruct (gwr_operation g)|].
    eexists (gwr_operation g), [], _. split_and!; [done|done|by apply github_code_iff|].
    eexists (gwr_response_bytes g), _, _.
    split_and!; [done|done|unfold MAX_GITHUB_WIRE_RESPONSE_BYTES, u64_limit in *; lia|].
    eexists (gwr_pull_request_number g), _, _. split_and!; [done|destruct (gwr_pull_request_number g); [split; [done|by apply Hpr]|done]|].
    eexists (gwr_object_id g), _, []. rewrite app_nil_r. split_and!; [done| |done|done].
    destruct (gwr_object_id g) as [s|]; [|done]. split; [done|]. apply valid_object_id_text. by apply Hid.
Qed.

Lemma gram_map {E A B} (m : ST Decoder E A) (f : A → B) P :
  gram m P → gram (a ← m; mret (f a)) (λ e b, ∃ a, b = f a ∧ P e a).
Proof.
  intros Hm. eapply gram_iff; [eapply gram_bind; [exact Hm|intros a; apply gram_ret]|]. intros e b. split.
  - intros (a & e1 & e2 & -> & HP & -> & ->). rewrite app_nil_r. eauto.
  - intros (a & -> & HP). exists a, e, []. by rewrite app_nil_r.
Qed.

Lemma gram_outcome :
  gram rdec_outcome (λ e o, ∃ host, spelling host o ∧ outcome_wf o ∧ e = enc_outcome host o).
Proof.
  eapply gram_iff.
  { unfold rdec_outcome. eapply gram_bind; [apply gram_runsigned|]. intros tag.
    instantiate (1 := λ tag e o,
      tag = PUBLIC_SUCCESS ∧ (∃ p, o = WirePublic p ∧ public_body e p) ∨
      tag = GITHUB_SUCCESS ∧ (∃ g, o = WireGitHub g ∧ github_answer e g) ∨
      tag = REJECTED ∧ (∃ r, o = WireRejected r ∧ e = write_unsigned (BrokerWireRejection_code r))). simpl.
    destruct (N.eqb_spec tag PUBLIC_SUCCESS) as [->|].
    { eapply gram_iff; [apply gram_map, gram_public_response|]. naive_solver. }
    destruct (N.eqb_spec tag GITHUB_SUCCESS) as [->|].
    { eapply gram_iff; [apply gram_map, gram_github_response|]. naive_solver. }
    destruct (N.eqb_spec tag REJECTED) as [->|]; [|eapply gram_iff; [apply gram_fail|]; naive_solver].
    eapply gram_iff.
    { eapply gram_bind; [apply gram_runsigned|]. intros code. eapply gram_map, gram_query. }
    intros e o. split.
    - intros (code & ? & ? & -> & [-> _] & r & -> & -> & Hr%rejection_code_iff). subst code.
      right; right. split; [done|]. exists r. by rewrite app_nil_r.
    - intros [[? _]|[[? _]|[_ (r & -> & ->)]]]; [done..|].
      eexists (BrokerWireRejection_code r), _, []. rewrite app_nil_r. split_and!; [done|done|by destruct r|].
      exists r. split_and!; [done|done|by apply rejection_code_iff]. }
  intros e o. split.
  - intros (tag & ? & ? & -> & [-> _] & [[-> (p & -> & host & Hh & Hl & Hn & Hp & ->)]|
      [[-> (g & -> & Hn & Hpr & ->)]|[-> (r & -> & ->)]]]).
    + exists host. cbn [spelling outcome_wf enc_outcome]. split_and!; try done. by eapply CanonicalHost_new_wf.
    + by exists [].
    + by exists [].
  - intros (host & Hs & Hwf & ->). destruct o as [p|g|r]; cbn [enc_outcome spelling outcome_wf] in *.
    + destruct Hs, Hwf as (? & ? & ?). eexists PUBLIC_SUCCESS, _, _. split_and!; [done|done|done|].
      left. split; [done|]. exists p. split; [done|]. exists host. by split_and!.
    + destruct Hwf. eexists GITHUB_SUCCESS, _, _. split_and!; [done|done|done|]. right; left. split; [done|].
      exists g. split; [done|]. by split_and!.
    + eexists REJECTED, _, _. split_and!; [done|done|done|]. right; right. split; [done|]. by exists r.
Qed.

(** The decoder accepts exactly the encodings of well-formed responses, under any
    accepted spelling of the host. *)
Lemma decode_with_limit_exact bytes maximum r :
  (maximum < u64_limit)%N →
  decode_with_limit bytes maximum = Ok r ↔
  (len bytes <= maximum)%N ∧ response_wf r ∧
  ∃ host, spelling host (rsp_outcome r) ∧ bytes = enc_response host r.
Proof.
  intros Hm. unfold decode_with_limit. destruct (N.ltb_spec maximum (len bytes)) as [|Hl]; [naive_solver lia|].
  unfold decode_response_reader. etrans.
  { refine (gram_end_bind _ _ _ _ (gram_rarray RESPONSE_ITEMS eq_refl) (λ _,
      gram_end_bind _ _ _ _ gram_runsigned (λ version, gram_end_if_fail _ _ _ _
        (gram_end_bind _ _ _ _ (gram_rfixed REQUEST_ID_BYTES eq_refl) (λ request,
        gram_end_bind _ _ _ _ gram_outcome (λ outcome,
        gram_end_rfinish {| rsp_request := request; rsp_outcome := outcome |}))))) [] bytes _ _). simpl. lia. }
  split.
  - intros (? & ? & ? & -> & -> & version & ? & ? & -> & [-> _] & Hv & req & ? & ? & -> & [-> Hreq] &
      o & ? & ? & -> & (host & Hs & Hwf & ->) & -> & ->). apply N.eqb_eq in Hv as ->. rewrite app_nil_r.
    split_and!; [by rewrite app_nil_r in Hl|done|]. by exists host.
  - intros (_ & [Hreq Hwf] & host & Hs & ->). unfold enc_response.
    eexists tt, _, _. split_and!; [done|done|]. exists BROKER_RESPONSE_VERSION. eexists _, _.
    split_and!; [done|done|done|done|]. eexists (rsp_request r), _, _. split_and!; [done|done|done|].
    eexists (rsp_outcome r), _, []. rewrite app_nil_r. split_and!; [done|by exists host|done|]. by destruct r.
Qed.

Lemma total_length_eq self : total_length self = N.min (len (concat (response_parts self))) usize_max.
Proof.
  unfold total_length.
  assert (∀ (l : list str) acc, (acc <= usize_max)%N → foldl (λ total part, saturating_add total (len part)) acc l =
    N.min (acc + len (concat l)) usize_max) as H.
  { induction l as [|x l IH]; intros acc Hacc; simpl.
    - change (len []) with 0%N. lia.
    - rewrite IH, len_app; unfold saturating_add; lia. }
  by rewrite H.
Qed.

Lemma encode_with_limit_ok self maximum bytes :
  (maximum < usize_max)%N →
  encode_with_limit self maximum = Ok bytes ↔
  bytes = enc_response (canonical_spelling (rsp_outcome self)) self ∧ (len bytes <= maximum)%N.
Proof.
  intros Hm. unfold encode_with_limit. rewrite total_length_eq, foldl_app_concat, concat_parts, app_nil_l.
  set (x := enc_response _ _). destruct (N.ltb_spec maximum (N.min (len x) usize_max)); naive_solver lia.
Qed.

Lemma canonical_spelling_ok outcome : outcome_wf outcome → spelling (canonical_spelling outcome) outcome.
Proof.
  destruct outcome as [p|g|r]; [|done..]. intros (Hn & Hh & _). simpl.
  apply PublicWireResponse_new_ok in Hn as (_ & _ & ? & _). split; [by apply CanonicalHost_new_canonical|done].
Qed.

(** What the encoder writes is read back, at any limit it fits. *)
Lemma response_decode_encode r maximum bytes :
  (maximum < usize_max)%N → response_wf r → encode_with_limit r maximum = Ok bytes →
  decode_with_limit bytes maximum = Ok r.
Proof.
  intros Hm Hwf [-> Hl]%encode_with_limit_ok; [|done]. apply decode_with_limit_exact; [unfold usize_max in Hm; lia|].
  split_and!; [done|done|]. eexists. split; [|done]. apply canonical_spelling_ok, Hwf.
Qed.

(** Responses are read back exactly: a well-formed response whose encoding fits the
    frame is decoded from it; conversely whatever decodes is well formed and is the
    encoding of the decoded response, unless it is a public success whose host text
    is another spelling of the same canonical host. *)
Theorem response_wire_exact r bytes :
  (response_wf r → CanonicalBrokerResponse_encode r = Ok bytes → CanonicalBrokerResponse_decode bytes = Ok r) ∧
  (CanonicalBrokerResponse_decode bytes = Ok r →
     response_wf r ∧
     (CanonicalBrokerResponse_encode r = Ok bytes ∨
      ∃ p host, rsp_outcome r = WirePublic p ∧ host ≠ ch_name (pwr_host p) ∧
        CanonicalHost_new host = Ok (pwr_host p) ∧ bytes = enc_response host r)).
Proof.
  split; [by apply response_decode_encode|]. intros (Hl & Hwf & host & Hs & Hb)%decode_with_limit_exact; [|done].
  split; [done|]. unfold CanonicalBrokerResponse_encode. rewrite encode_with_limit_ok by done.
  destruct r as [req [p|g|o]]; [|by left..]. destruct (decide (host = ch_name (pwr_host p))) as [->|]; [by left|].
  right. exists p, host. by destruct Hs.
Qed.

Definition demo_response : CanonicalBrokerResponse :=
  {| rsp_request := replicate 16 (N2b 7);
     rsp_outcome := WirePublic {| pwr_status := 200; pwr_host := {| ch_name := lit "example.com" |};
       pwr_path := {| cup_segments := [lit "v1"] |}; pwr_body := replicate 300 (N2b 65) |} |}.

Lemma demo_response_wf : response_wf demo_response.
Proof.
  split; [done|]. split_and!; [done| |].
  - apply (CanonicalHost_new_wf (lit "example.com")). vm_compute. reflexivity.
  - apply (CanonicalUrlPath_new_iff (lit "/v1")). vm_compute. reflexivity.
Qed.

(** A response's bytes are not unique: capitals in the host text are accepted and
    lost, so re-encoding a decoded response does not give the received bytes back. *)
Theorem response_host_spelling_not_unique :
  let bytes := enc_response (lit "Example.COM") demo_response in
  CanonicalBrokerResponse_decode bytes = Ok demo_response ∧
  is_ok (CanonicalBrokerResponse_encode demo_response) = true ∧
  CanonicalBrokerResponse_encode demo_response ≠ Ok bytes.
Proof. split_and!; [vm_compute; reflexivity..|vm_compute; discriminate]. Qed.
