(* ===== verification/ResponseChunkProps.v ===== *)
(** * Chunk sequences carry exactly one response

    The canonical cut of a byte string into chunks, that the sender produces it
    without materialising the encoding, and that reassembly accepts nothing else. *)

From S2P Require Import Prelude Bytes Http ControlFrame Budget ReplayGuard Cbor Grammar CborProps Response ResponseChunk ResponseProps.

(** ** Cutting a list into pieces of [K] *)

Section cuts.
  Context {A : Type} (K : nat).

Definition cut (l : list A) (i : nat) : list A := take K (drop (i * K) l).

Lemma concat_cuts (l : list A) j n :
  concat (cut l <$> seq j n) = take (n * K) (drop (j * K) l).
Proof.
  revert j. induction n as [|n IH]; intros j; [done|]. cbn [seq fmap list_fmap concat]. rewrite IH. unfold cut.
  replace (S j * K) with (j * K + K) by lia. rewrite <- drop_drop. replace (S n * K) with (K + n * K) by lia.
  by rewrite take_take_drop.
Qed.

Lemma length_cut (l : list A) i : length (cut l i) = Nat.min K (length l - i * K).
Proof. unfold cut. by rewrite length_take, length_drop. Qed.

(** Pieces of the canonical lengths are the cuts of their concatenation. *)
Lemma cut_concat (bs : list (list A)) i b :
  (∀ j c, bs !! j = Some c → length c <= K ∧ (S j < length bs → length c = K)) →
  bs !! i = Some b → cut (concat bs) i = b.
Proof.
  unfold cut. revert i. induction bs as [|c bs IH]; intros i Hbs Hi; [done|].
  assert (length c <= K ∧ (bs ≠ [] → length c = K)) as [Hc HcK].
  { destruct (Hbs 0 c eq_refl) as [? H]. split; [done|]. intros. apply H. destruct bs; simpl in *; [done|lia]. }
  destruct i as [|i]; simpl in Hi.
  - injection Hi as ->. simpl concat. rewrite Nat.mul_0_l, drop_0. destruct (decide (bs = [])) as [->|Hne].
    + simpl concat. rewrite app_nil_r. by apply take_ge.
    + rewrite <- (HcK Hne). by rewrite take_app_length.
  - assert (bs ≠ []) as Hne by (intros ->; done). simpl. rewrite drop_app_ge by (rewrite HcK by done; lia).
    replace (K + i * K - length c) with (i * K) by (rewrite HcK by done; lia). apply IH; [|done].
    intros j d Hj. destruct (Hbs (S j) d Hj) as [? H]. split; [done|]. intros. apply H. simpl. lia.
Qed.
End cuts.

(** ** Ranges of the parts *)

Lemma fold_copy_part start finish parts pos out :
  (pos + len (concat parts) <= usize_max)%N →
  foldl (copy_part start finish) (pos, out) parts =
  ((pos + len (concat parts))%N,
   out ++ take (N.to_nat (finish - N.max start pos)) (drop (N.to_nat (start - pos)) (concat parts))).
Proof.
  revert pos out. induction parts as [|p parts IH]; intros pos out Hb.
  { cbn [foldl concat]. rewrite drop_nil, take_nil, app_nil_r. f_equal. change (len []) with 0%N. lia. }
  cbn [foldl concat] in *. rewrite len_app in Hb.
  assert (copy_part start finish (pos, out) p =
    ((pos + len p)%N, out ++ take (N.to_nat (finish - N.max start pos)) (drop (N.to_nat (start - pos)) p))) as ->.
  { unfold copy_part, saturating_add. rewrite N.min_l by lia. f_equal.
    destruct (N.ltb_spec (N.max start pos) (N.min finish (pos + len p))) as [Hlt|Hge].
    - f_equal. unfold get_range. rewrite (proj2 (N.leb_le _ _)) by lia. rewrite (proj2 (N.leb_le _ _)) by lia. simpl.
      replace (N.to_nat (N.max start pos - pos)) with (N.to_nat (start - pos)) by lia.
      destruct (N.le_ge_cases finish (pos + len p)).
      + f_equal. lia.
      + unfold len in *. rewrite !take_ge; [done|rewrite length_drop; lia..].
    - destruct (N.le_gt_cases finish (N.max start pos)).
      + replace (N.to_nat (finish - N.max start pos)) with 0 by lia. by rewrite app_nil_r.
      + unfold len in *. rewrite drop_ge by lia. by rewrite take_nil, app_nil_r. }
  rewrite IH by lia. rewrite len_app, N.add_assoc. f_equal. rewrite <- (assoc_L (++)). f_equal.
  rewrite drop_app, take_app, length_drop. unfold len in *. do 2 f_equal; [lia|f_equal; lia].
Qed.

(** The encoding as one string. *)
Definition encoding (self : CanonicalBrokerResponse) : str := concat (response_parts self).

Lemma copy_range_exact self start length out :
  (len (encoding self) < usize_max)%N → (start + length <= len (encoding self))%N →
  copy_range self start length out =
  Ok (out ++ take (N.to_nat length) (drop (N.to_nat start) (encoding self))).
Proof.
  intros Hb Hl. unfold copy_range, encoding in *. set (l := concat (response_parts self)) in *.
  rewrite (proj2 (checked_add_u64_Some start length _)) by (split; [done|unfold usize_max in *; lia]).
  unfold mbind, result_bind. cbn [ok_or].
  rewrite total_length_eq. fold l. rewrite N.min_l by lia. rewrite (proj2 (N.leb_le _ _)) by lia. cbn [negb].
  rewrite fold_copy_part by (fold l; lia). fold l.
  replace (start + length - N.max start 0)%N with length by lia. rewrite N.sub_0_r.
  rewrite len_app. unfold len at 1 2 3. rewrite length_take, length_drop.
  destruct (N.eqb_spec (N.of_nat (List.length out) + N.of_nat (Nat.min (N.to_nat length)
    (List.length l - N.to_nat start)) - N.of_nat (List.length out)) length) as [|Hne]; [done|].
  unfold len in *. lia.
Qed.

(** ** The canonical cut of an encoding *)

Definition chunk_size : nat := N.to_nat MAX_RESPONSE_CHUNK_BYTES.
#[global] Opaque chunk_size.

Lemma chunk_size_N : N.of_nat chunk_size = MAX_RESPONSE_CHUNK_BYTES.
Proof. Transparent chunk_size. unfold chunk_size. apply N2Nat.id. Opaque chunk_size. Qed.

Definition chunk_total (n : N) : N := ((n + MAX_RESPONSE_CHUNK_BYTES - 1) / MAX_RESPONSE_CHUNK_BYTES)%N.

Definition chunk_piece (request digest bytes : str) (i : nat) : CanonicalResponseChunk :=
  {| crc_request := request; crc_index := N.of_nat i; crc_count := chunk_total (len bytes);
     crc_total_length := len bytes; crc_digest := digest; crc_bytes := cut chunk_size bytes i |}.

Definition canonical_chunks (request digest bytes : str) : list CanonicalResponseChunk :=
  chunk_piece request digest bytes <$> seq 0 (N.to_nat (chunk_total (len bytes))).

Definition expandable (n : N) : Prop := (0 < n <= MAX_EXPANDED_CANONICAL_RESPONSE_BYTES)%N.

Lemma chunk_total_spec n :
  (0 < n)%N →
  (n <= chunk_total n * MAX_RESPONSE_CHUNK_BYTES < n + MAX_RESPONSE_CHUNK_BYTES)%N.
Proof.
  intros Hn. unfold chunk_total.
  change MAX_RESPONSE_CHUNK_BYTES with 1048448%N.
  pose proof (N.div_mod' (n + 1048448 - 1) 1048448). pose proof (N.mod_lt (n + 1048448 - 1) 1048448 ltac:(done)).
  generalize dependent ((n + 1048448 - 1) / 1048448)%N. generalize dependent ((n + 1048448 - 1) mod 1048448)%N.
  intros r Hr q Hq. lia.
Qed.

Lemma chunk_index_lt n i : (0 < n)%N → (i < chunk_total n)%N → (i * MAX_RESPONSE_CHUNK_BYTES < n)%N.
Proof.
  intros Hn Hi. pose proof (chunk_total_spec n Hn). change MAX_RESPONSE_CHUNK_BYTES with 1048448%N in *. lia.
Qed.

Lemma canonical_chunk_count_ok n c : canonical_chunk_count n = Ok c ↔ expandable n ∧ c = chunk_total n.
Proof.
  unfold canonical_chunk_count, expandable, chunk_total.
  destruct (N.eqb_spec n 0), (N.ltb_spec MAX_EXPANDED_CANONICAL_RESPONSE_BYTES n); simpl; naive_solver lia.
Qed.

(** The arithmetic of a chunk position that exists. *)
Lemma chunk_position n i :
  expandable n → (i < chunk_total n)%N →
  chunk_offset i = Ok (i * MAX_RESPONSE_CHUNK_BYTES)%N ∧
  canonical_chunk_length n i = Ok (N.min (n - i * MAX_RESPONSE_CHUNK_BYTES) MAX_RESPONSE_CHUNK_BYTES).
Proof.
  intros [Hn Hm] Hi. pose proof (chunk_index_lt n i Hn Hi) as Hlt.
  unfold chunk_offset, canonical_chunk_length, checked_mul_u64, checked_sub_u64.
  set (o := (i * MAX_RESPONSE_CHUNK_BYTES)%N) in *.
  assert (o < u64_limit)%N as Ho.
  { unfold u64_limit. change MAX_EXPANDED_CANONICAL_RESPONSE_BYTES with 33563005%N in Hm. lia. }
  rewrite (proj2 (N.ltb_lt _ _) Ho). split; [done|]. unfold mbind, result_bind. cbn [ok_or].
  by rewrite (proj2 (N.leb_le _ _)) by lia.
Qed.

Lemma chunk_validate_ok c :
  chunk_validate c = Ok tt ↔
  expandable (crc_total_length c) ∧ crc_count c = chunk_total (crc_total_length c) ∧
  (crc_index c < crc_count c)%N ∧
  len (crc_bytes c) =
    N.min (crc_total_length c - crc_index c * MAX_RESPONSE_CHUNK_BYTES) MAX_RESPONSE_CHUNK_BYTES.
Proof.
  unfold chunk_validate, mbind, result_bind.
  destruct (canonical_chunk_count _) as [count|e] eqn:Hc.
  2: { split; [done|]. intros [Hx _]. by rewrite (proj2 (canonical_chunk_count_ok _ _) (conj Hx eq_refl)) in Hc. }
  apply canonical_chunk_count_ok in Hc as [Hx ->].
  destruct (N.eqb_spec (crc_count c) (chunk_total (crc_total_length c))) as [Heq|]; [|cbn; naive_solver].
  destruct (N.leb_spec (crc_count c) (crc_index c)) as [|Hi]; [cbn; naive_solver lia|]. cbn [negb orb].
  rewrite Heq in Hi. rewrite (proj2 (chunk_position _ _ Hx Hi)).
  destruct (N.eqb_spec (len (crc_bytes c)) (N.min (crc_total_length c - crc_index c * MAX_RESPONSE_CHUNK_BYTES)
    MAX_RESPONSE_CHUNK_BYTES)); cbn [negb]; rewrite <- Heq in Hi; naive_solver.
Qed.

Lemma chunk_piece_valid request digest bytes i :
  expandable (len bytes) → (N.of_nat i < chunk_total (len bytes))%N →
  chunk_validate (chunk_piece request digest bytes i) = Ok tt.
Proof.
  intros Hx Hi. apply chunk_validate_ok. cbn [chunk_piece crc_total_length crc_count crc_index crc_bytes].
  split_and!; [done|done|done|]. unfold len at 1. rewrite length_cut. pose proof chunk_size_N. unfold len. lia.
Qed.

(** ** The sender *)

Lemma ci_drain_items {A} (item : CanonicalChunkSequence → N → CR A) s j fuel :
  N.of_nat (j + fuel) = ccs_count s → (ccs_count s < usize_max)%N →
  ci_drain item fuel {| ci_sequence := s; ci_next_index := N.of_nat j |} =
  ((λ i, item s (N.of_nat i)) <$> seq j fuel, {| ci_sequence := s; ci_next_index := ccs_count s |}).
Proof.
  revert j. induction fuel as [|fuel IH]; intros j Hj Hm.
  { cbn. rewrite Nat.add_0_r in Hj. by rewrite Hj. }
  cbn [ci_drain seq fmap list_fmap]. unfold ci_next. cbn [ci_sequence ci_next_index].
  destruct (N.leb_spec (ccs_count s) (N.of_nat j)); [lia|].
  unfold saturating_add. rewrite N.min_l by lia. replace (N.of_nat j + 1)%N with (N.of_nat (S j)) by lia.
  by rewrite IH by lia.
Qed.

(** The iterators yield one item per index and are then exhausted. *)
Lemma ci_items_all {A} (item : CanonicalChunkSequence → N → CR A) s :
  (ccs_count s < usize_max)%N →
  ci_items item {| ci_sequence := s; ci_next_index := 0 |} =
  (λ i, item s (N.of_nat i)) <$> seq 0 (N.to_nat (ccs_count s)).
Proof.
  intros Hm. unfold ci_items, ci_remaining. cbn [ci_sequence ci_next_index]. rewrite N.sub_0_r.
  by rewrite (ci_drain_items item s 0) by lia.
Qed.

Section sender.
  Context (sha256 : str → str) (r : CanonicalBrokerResponse).
  Hypothesis Hx : expandable (len (encoding r)).

Let sequence : CanonicalChunkSequence :=
  {| ccs_response := r; ccs_count := chunk_total (len (encoding r)); ccs_digest := sha256 (encoding r) |}.

Lemma encoding_bounded : (len (encoding r) < usize_max)%N.
Proof. destruct Hx as [_ H]. change MAX_EXPANDED_CANONICAL_RESPONSE_BYTES with 33563005%N in H. unfold usize_max, u64_limit. lia. Qed.

Lemma total_length_encoding : total_length r = len (encoding r).
Proof. rewrite total_length_eq. fold (encoding r). pose proof encoding_bounded. lia. Qed.

Lemma chunk_total_bounded : (chunk_total (len (encoding r)) < usize_max)%N.
Proof.
  pose proof encoding_bounded. destruct Hx as [Hn _]. pose proof (chunk_total_spec _ Hn).
  change MAX_RESPONSE_CHUNK_BYTES with 1048448%N in *. unfold usize_max, u64_limit in *. lia.
Qed.

Lemma sequence_new_ok : CanonicalChunkSequence_new sha256 r = Ok sequence.
Proof.
  unfold CanonicalChunkSequence_new. rewrite total_length_encoding.
  destruct (N.ltb_spec MAX_EXPANDED_CANONICAL_RESPONSE_BYTES (len (encoding r))); [destruct Hx; lia|].
  unfold mbind, result_bind. rewrite (proj2 (canonical_chunk_count_ok _ _) (conj Hx eq_refl)).
  unfold encoding_digest. by rewrite foldl_app_concat.
Qed.

Lemma copied_piece i out :
  (N.of_nat i < chunk_total (len (encoding r)))%N →
  let o := (N.of_nat i * MAX_RESPONSE_CHUNK_BYTES)%N in
  copy_range r o (N.min (len (encoding r) - o) MAX_RESPONSE_CHUNK_BYTES) out =
  Ok (out ++ cut chunk_size (encoding r) i).
Proof.
  intros Hi o. destruct Hx as [Hn _]. pose proof (chunk_index_lt _ _ Hn Hi) as Hlt. fold o in Hlt.
  rewrite copy_range_exact by (try apply encoding_bounded; lia). f_equal. f_equal. unfold cut.
  pose proof chunk_size_N. replace (N.to_nat o) with (i * chunk_size) by lia.
  destruct (N.le_ge_cases (len (encoding r) - o) MAX_RESPONSE_CHUNK_BYTES).
  - unfold len in *. rewrite !take_ge; [done|rewrite length_drop; lia..].
  - f_equal. lia.
Qed.

Lemma sequence_chunk_ok i :
  (N.of_nat i < chunk_total (len (encoding r)))%N →
  sequence_chunk sequence (N.of_nat i) =
  Ok (chunk_piece (rsp_request r) (sha256 (encoding r)) (encoding r) i).
Proof.
  intros Hi. unfold sequence_chunk. cbn [ccs_response sequence]. rewrite total_length_encoding.
  destruct (chunk_position _ _ Hx Hi) as [Ho Hl]. unfold mbind, result_bind. rewrite Hl, Ho, copied_piece by done.
  rewrite app_nil_l. unfold chunk_from_parts. cbn [ccs_count ccs_digest sequence].
  pose proof (chunk_piece_valid (rsp_request r) (sha256 (encoding r)) _ _ Hx Hi) as Hv.
  unfold chunk_piece in *. unfold mbind, result_bind. by rewrite Hv.
Qed.

(** The streaming encoder writes what encoding the typed chunk would. *)
Lemma sequence_encoded_chunk_ok i :
  (N.of_nat i < chunk_total (len (encoding r)))%N →
  sequence_encoded_chunk sequence (N.of_nat i) =
  chunk_encode (chunk_piece (rsp_request r) (sha256 (encoding r)) (encoding r) i).
Proof.
  intros Hi. unfold sequence_encoded_chunk. cbn [ccs_response sequence]. rewrite total_length_encoding.
  destruct (chunk_position _ _ Hx Hi) as [Ho Hl]. unfold mbind, result_bind. rewrite Hl, Ho, copied_piece by done.
  pose proof (chunk_piece_valid (rsp_request r) (sha256 (encoding r)) _ _ Hx Hi) as Hv.
  unfold chunk_encode, mbind, result_bind. rewrite Hv. apply chunk_validate_ok in Hv as (_ & _ & _ & Hlen).
  cbn [ccs_count ccs_digest sequence chunk_piece crc_request crc_index crc_count crc_total_length crc_digest crc_bytes] in *.
  unfold write_bytes_item at 1. rewrite Hlen. by rewrite <- !(assoc_L (++)).
Qed.

Lemma chunks_ok :
  chunks sha256 r = Ok (canonical_chunks (rsp_request r) (sha256 (encoding r)) (encoding r)) ∧
  encoded_chunks sha256 r =
    collect (chunk_encode <$> canonical_chunks (rsp_request r) (sha256 (encoding r)) (encoding r)).
Proof.
  unfold chunks, encoded_chunks, chunk_iter, mbind, result_bind. rewrite sequence_new_ok.
  rewrite !ci_items_all by apply chunk_total_bounded. cbn [sequence ccs_count]. unfold canonical_chunks.
  split.
  - apply collect_Ok, Forall2_fmap_r, Forall_Forall2_diag, Forall_seq. intros i Hi. apply sequence_chunk_ok. lia.
  - f_equal. rewrite <- list_fmap_compose. apply list_fmap_ext. intros k i [-> Hk]%lookup_seq.
    apply sequence_encoded_chunk_ok. lia.
Qed.
End sender.

(** ** One chunk on the wire *)

Lemma len_write_head major v : (len (write_head major v) <= 9)%N.
Proof. unfold write_head, len. repeat case_match; simpl; rewrite ?length_be_bytes; lia. Qed.

(** The fixed-width fields of a chunk have their Rust types. *)
Definition chunk_typed (c : CanonicalResponseChunk) : Prop :=
  len (crc_request c) = REQUEST_ID_BYTES ∧ len (crc_digest c) = RESPONSE_DIGEST_BYTES.

Lemma len_chunk_header c :
  chunk_typed c →
  (len (chunk_header (crc_request c) (crc_index c) (crc_count c) (crc_total_length c) (crc_digest c)) <= 111)%N.
Proof.
  intros [Hr Hd]. unfold chunk_header, write_bytes_item. rewrite !len_app, !emit_head_write, Hr, Hd.
  pose proof (len_write_head 0 (crc_index c)). pose proof (len_write_head 0 (crc_count c)).
  pose proof (len_write_head 0 (crc_total_length c)).
  change (len (write_head 4 RESPONSE_CHUNK_ITEMS)) with 1%N. change (len (write_head 0 BROKER_RESPONSE_CHUNK_VERSION)) with 1%N.
  change (len (write_head 2 REQUEST_ID_BYTES)) with 1%N. change (len (write_head 2 RESPONSE_DIGEST_BYTES)) with 2%N.
  change REQUEST_ID_BYTES with 16%N. change RESPONSE_DIGEST_BYTES with 32%N. lia.
Qed.

Definition enc_chunk (c : CanonicalResponseChunk) : str :=
  write_array RESPONSE_CHUNK_ITEMS ++ write_unsigned BROKER_RESPONSE_CHUNK_VERSION ++
  write_bytes (crc_request c) ++ write_unsigned (crc_index c) ++ write_unsigned (crc_count c) ++
  write_unsigned (crc_total_length c) ++ write_bytes (crc_digest c) ++ write_bytes (crc_bytes c).

Lemma enc_chunk_eq c :
  chunk_header (crc_request c) (crc_index c) (crc_count c) (crc_total_length c) (crc_digest c) ++
  write_bytes_item (crc_bytes c) = enc_chunk c.
Proof. unfold chunk_header, write_bytes_item, enc_chunk, write_bytes. rewrite !emit_head_write. by rewrite <- !(assoc_L (++)). Qed.

(** Every valid chunk fits one control frame. *)
Lemma chunk_encode_fits c :
  chunk_typed c → chunk_validate c = Ok tt →
  chunk_encode c = Ok (enc_chunk c) ∧ (len (enc_chunk c) <= MAX_CONTROL_FRAME_BYTES)%N.
Proof.
  intros Ht Hv. unfold chunk_encode, mbind, result_bind, bounded_chunk. rewrite Hv, enc_chunk_eq.
  assert (len (enc_chunk c) <= MAX_CONTROL_FRAME_BYTES)%N as Hl.
  { rewrite <- enc_chunk_eq, len_app. pose proof (len_chunk_header c Ht).
    apply chunk_validate_ok in Hv as (_ & _ & _ & Hb). unfold write_bytes_item. rewrite len_app, emit_head_write.
    pose proof (len_write_head 2 (len (crc_bytes c))).
    change MAX_RESPONSE_CHUNK_BYTES with 1048448%N in Hb. change MAX_CONTROL_FRAME_BYTES with 1048576%N. lia. }
  by rewrite (proj2 (N.ltb_ge _ _) Hl).
Qed.

Lemma chunk_encode_ok c e : chunk_encode c = Ok e → chunk_validate c = Ok tt ∧ e = enc_chunk c.
Proof.
  unfold chunk_encode, mbind, result_bind, bounded_chunk. rewrite enc_chunk_eq.
  destruct (chunk_validate c) as [[]|]; [|done]. case_match; [done|]. by intros [= <-].
Qed.

Lemma valid_chunk_u64 c :
  chunk_validate c = Ok tt →
  (crc_index c < u64_limit)%N ∧ (crc_count c < u64_limit)%N ∧ (crc_total_length c < u64_limit)%N ∧
  (len (crc_bytes c) <= MAX_RESPONSE_CHUNK_BYTES)%N.
Proof.
  intros ([Hn Hm] & Hc & Hi & Hb)%chunk_validate_ok. pose proof (chunk_total_spec _ Hn) as Ht. rewrite <- Hc in Ht.
  change MAX_RESPONSE_CHUNK_BYTES with 1048448%N in *.
  change MAX_EXPANDED_CANONICAL_RESPONSE_BYTES with 33563005%N in Hm. unfold u64_limit. lia.
Qed.

Lemma chunk_reader_exact e request index count total digest bytes :
  (len e < u64_limit)%N →
  let c := {| crc_request := request; crc_index := index; crc_count := count; crc_total_length := total;
              crc_digest := digest; crc_bytes := bytes |} in
  (chunk_reader (Decoder_new e)).1 = Ok (request, index, count, total, digest, bytes) ↔
  chunk_typed c ∧ (index < u64_limit)%N ∧ (count < u64_limit)%N ∧ (total < u64_limit)%N ∧
  (len bytes <= MAX_RESPONSE_CHUNK_BYTES)%N ∧ e = enc_chunk c.
Proof.
  intros Hl c. unfold chunk_reader. etrans.
  { refine (gram_end_bind _ _ _ _ (gram_rarray RESPONSE_CHUNK_ITEMS eq_refl) (λ _,
      gram_end_bind _ _ _ _ gram_runsigned (λ version, gram_end_if_fail _ _ _ _
        (gram_end_bind _ _ _ _ (gram_rfixed REQUEST_ID_BYTES eq_refl) (λ request,
        gram_end_bind _ _ _ _ gram_runsigned (λ index, gram_end_bind _ _ _ _ gram_runsigned (λ count,
        gram_end_bind _ _ _ _ gram_runsigned (λ total,
        gram_end_bind _ _ _ _ (gram_rfixed RESPONSE_DIGEST_BYTES eq_refl) (λ digest,
        gram_end_bind _ _ _ _ (gram_rbytes MAX_RESPONSE_CHUNK_BYTES eq_refl) (λ bytes,
        gram_end_rfinish (request, index, count, total, digest, bytes)))))))))) [] e Hl _). }
  unfold chunk_typed, enc_chunk. cbn [c crc_request crc_index crc_count crc_total_length crc_digest crc_bytes]. split.
  - intros (? & ? & ? & -> & -> & version & ? & ? & -> & [-> _] & Hv & q & ? & ? & -> & [-> Hq] &
      i & ? & ? & -> & [-> Hi] & n & ? & ? & -> & [-> Hn] & t & ? & ? & -> & [-> Ht] & d & ? & ? & -> & [-> Hd] &
      b & ? & ? & -> & [-> Hb] & -> & [= -> -> -> -> -> ->]).
    apply N.eqb_eq in Hv as ->. rewrite app_nil_r. by split_and!.
  - intros ([Hq Hd] & Hi & Hn & Ht & Hb & ->). eexists tt, _, _. split_and!; [done|done|].
    exists BROKER_RESPONSE_CHUNK_VERSION. eexists _, _. split_and!; [done|done|done|done|].
    eexists request, _, _. split_and!; [done|done|done|]. eexists index, _, _. split_and!; [done|done|done|].
    eexists count, _, _. split_and!; [done|done|done|]. eexists total, _, _. split_and!; [done|done|done|].
    eexists digest, _, _. split_and!; [done|done|done|]. eexists bytes, _, []. rewrite app_nil_r. by split_and!.
Qed.

(** The chunk codec is exact: one encoding per chunk. *)
Lemma chunk_decode_exact e c :
  chunk_decode e = Ok c ↔ chunk_typed c ∧ chunk_encode c = Ok e.
Proof.
  unfold chunk_decode. split.
  - destruct (N.ltb_spec MAX_CONTROL_FRAME_BYTES (len e)) as [|Hl]; [done|]. unfold mbind, result_bind.
    destruct (chunk_reader _).1 as [[[[[[q i] n] t] d] b]|] eqn:Hr; cbn [map_err]; [|done].
    apply chunk_reader_exact in Hr as (Ht & _ & _ & _ & _ & ->); [|by apply control_frame_addressable].
    unfold chunk_from_parts, mbind, result_bind. destruct (chunk_validate _) as [[]|] eqn:Hv; [|done]. intros [= <-].
    split; [done|]. by apply chunk_encode_fits.
  - intros [Ht He]. pose proof He as [Hv ->]%chunk_encode_ok. destruct (chunk_encode_fits c Ht Hv) as [_ Hl].
    rewrite (proj2 (N.ltb_ge _ _) Hl). destruct (valid_chunk_u64 c Hv) as (? & ? & ? & ?).
    destruct c as [q i n t d b]. unfold mbind, result_bind.
    rewrite (proj2 (chunk_reader_exact _ q i n t d b (control_frame_addressable _ Hl))) by by split_and!.
    cbn [map_err]. unfold chunk_from_parts, mbind, result_bind. by rewrite Hv.
Qed.

(** ** Reassembly *)

(** A chunk of the sequence [first] starts. *)
Definition of_sequence (first c : CanonicalResponseChunk) : Prop :=
  chunk_validate c = Ok tt ∧ crc_request c = crc_request first ∧ crc_count c = crc_count first ∧
  crc_total_length c = crc_total_length first ∧ crc_digest c = crc_digest first.

Lemma check_chunk_spec first seen c :
  length seen = N.to_nat (crc_count first) →
  match check_chunk first seen c with
  | None => False
  | Some (Err _) => of_sequence first c → seen !! N.to_nat (crc_index c) = Some true
  | Some (Ok seen') => of_sequence first c ∧ seen !! N.to_nat (crc_index c) = Some false ∧
                       seen' = <[N.to_nat (crc_index c) := true]> seen
  end.
Proof.
  intros Hl. unfold check_chunk, of_sequence. destruct (chunk_validate c) as [[]|] eqn:Hv; [|naive_solver].
  destruct (bool_decide_reflect (crc_request c = crc_request first)); cbn [negb]; [|naive_solver].
  destruct (N.eqb_spec (crc_count c) (crc_count first)) as [Hc|]; cbn [negb orb]; [|naive_solver].
  destruct (N.eqb_spec (crc_total_length c) (crc_total_length first)); cbn [negb orb]; [|naive_solver].
  destruct (bool_decide_reflect (crc_digest c = crc_digest first)); cbn [negb]; [|naive_solver].
  apply chunk_validate_ok in Hv as (_ & _ & Hi & _).
  destruct (lookup_lt_is_Some_2 seen (N.to_nat (crc_index c))) as [b Hb]; [lia|]. rewrite Hb. by destruct b.
Qed.

Lemma check_chunks_total first seen cs :
  length seen = N.to_nat (crc_count first) → check_chunks first seen cs ≠ None.
Proof.
  revert seen. induction cs as [|c cs IH]; intros seen Hl; [done|]. cbn [check_chunks].
  pose proof (check_chunk_spec first seen c Hl) as Hc. destruct (check_chunk first seen c) as [[seen'|e]|]; [|done..].
  destruct Hc as (_ & _ & ->). apply IH. by rewrite length_insert.
Qed.

Lemma check_chunks_ok first seen cs seen' :
  length seen = N.to_nat (crc_count first) → check_chunks first seen cs = Some (Ok seen') →
  Forall (of_sequence first) cs ∧ length seen' = length seen ∧
  ∀ i, seen' !! i = Some true → seen !! i = Some true ∨ i ∈ (N.to_nat ∘ crc_index <$> cs).
Proof.
  revert seen. induction cs as [|c cs IH]; intros seen Hl.
  { intros [= <-]. split_and!; [done|done|]. by left. }
  cbn [check_chunks]. pose proof (check_chunk_spec first seen c Hl) as Hc.
  destruct (check_chunk first seen c) as [[seen1|e]|]; [|done..]. destruct Hc as (Hof & _ & ->).
  intros (Hall & Hlen & Hin)%IH; [|by rewrite length_insert]. rewrite length_insert in Hlen.
  split_and!; [by constructor|done|]. intros i Hi. rewrite fmap_cons, elem_of_cons.
  destruct (Hin i Hi) as [Hs|]; [|by right; right].
  apply list_lookup_insert_Some in Hs as [(<- & _ & _)|[_ Hs]]; [by right; left|by left].
Qed.

Lemma first_missing_None j seen : first_missing j seen = None ↔ ∀ i, i < length seen → seen !! i = Some true.
Proof.
  revert j. induction seen as [|b seen IH]; intros j; cbn [first_missing length]; [naive_solver lia|]. destruct b.
  - rewrite IH. split.
    + intros H [|i] Hi; [done|]. apply H. lia.
    + intros H i Hi. apply (H (S i)). lia.
  - split; [done|]. intros H. by specialize (H 0 ltac:(lia)).
Qed.

Lemma check_order_ok j cs :
  check_order j cs = Ok tt ↔ ∀ i c, cs !! i = Some c → crc_index c = (j + N.of_nat i)%N.
Proof.
  revert j. induction cs as [|c cs IH]; intros j; cbn [check_order]; [naive_solver|].
  destruct (N.eqb_spec (crc_index c) j) as [Hc|Hc]; cbn [negb].
  - rewrite IH. split.
    + intros H [|i] d Hd; [injection Hd as <-; lia|]. specialize (H i d Hd). lia.
    + intros H i d Hd. specialize (H (S i) d Hd). lia.
  - split; [done|]. intros H. specialize (H 0 c eq_refl). lia.
Qed.

Lemma fold_bytes cs acc :
  foldl (λ output c, output ++ crc_bytes c) acc cs = acc ++ concat (crc_bytes <$> cs).
Proof.
  revert acc. induction cs as [|c cs IH]; intros acc; cbn; [by rewrite app_nil_r|]. rewrite IH.
  by rewrite (assoc_L (++)).
Qed.

Lemma fold_lengths cs acc :
  foldl (λ sum c, sum + len (crc_bytes c))%N acc cs = (acc + len (concat (crc_bytes <$> cs)))%N.
Proof.
  revert acc. induction cs as [|c cs IH]; intros acc; [cbn [foldl fmap list_fmap concat]; change (len []) with 0%N; lia|]. cbn [foldl fmap list_fmap concat].
  rewrite IH, len_app. lia.
Qed.

(** An ordered, complete sequence is the canonical cut of its concatenation. *)
Lemma ordered_is_canonical first cs :
  Forall (of_sequence first) cs → length cs = N.to_nat (crc_count first) →
  (∀ i c, cs !! i = Some c → crc_index c = N.of_nat i) → cs ≠ [] →
  len (concat (crc_bytes <$> cs)) = crc_total_length first →
  cs = canonical_chunks (crc_request first) (crc_digest first) (concat (crc_bytes <$> cs)).
Proof.
  intros Hof Hlen Hidx Hne Htot. set (bytes := concat (crc_bytes <$> cs)) in *. rewrite Forall_lookup in Hof.
  assert (expandable (crc_total_length first) ∧ crc_count first = chunk_total (crc_total_length first)) as [Hx Hc].
  { destruct cs as [|c cs]; [done|]. destruct (Hof 0 c eq_refl) as (Hv & _ & Hc & Ht & _).
    apply chunk_validate_ok in Hv as (? & ? & _ & _). rewrite <- Ht. naive_solver congruence. }
  apply list_eq. intros i. unfold canonical_chunks. rewrite list_lookup_fmap, Htot, <- Hc.
  destruct (cs !! i) as [c|] eqn:Hi.
  2: { apply lookup_ge_None in Hi. rewrite (proj2 (lookup_ge_None (seq _ _) _)); [done|]. rewrite length_seq. lia. }
  pose proof (lookup_lt_Some _ _ _ Hi) as Hlt. rewrite lookup_seq_lt by lia. cbn [fmap option_fmap option_map Nat.add].
  destruct (Hof i c Hi) as (Hv & Hr & Hcc & Ht & Hd). f_equal. unfold chunk_piece. rewrite Htot, <- Hc.
  assert (cut chunk_size bytes i = crc_bytes c) as ->.
  { apply cut_concat; [|by rewrite list_lookup_fmap, Hi].
    intros j b Hb. rewrite list_lookup_fmap in Hb. destruct (cs !! j) as [d|] eqn:Hj; [|done]. injection Hb as <-.
    destruct (Hof j d Hj) as (Hvd & _ & Hcd & Htd & _). apply chunk_validate_ok in Hvd as (_ & _ & _ & Hb).
    rewrite Htd, (Hidx j d Hj) in Hb. pose proof chunk_size_N as HK. split; [unfold len in Hb; lia|].
    rewrite length_fmap. intros HS. destruct Hx as [Hn _].
    pose proof (chunk_index_lt _ (N.of_nat (S j)) Hn ltac:(rewrite <- Hc; lia)) as Hnext. unfold len in Hb. lia. }
  destruct c as [q k n t d b]. cbn in *. specialize (Hidx i _ Hi). cbn in Hidx. by subst.
Qed.

Lemma check_canonical request digest bytes j n :
  expandable (len bytes) → N.of_nat (j + n) = chunk_total (len bytes) →
  check_chunks (chunk_piece request digest bytes 0) (replicate j true ++ replicate n false)
    (chunk_piece request digest bytes <$> seq j n) = Some (Ok (replicate (j + n) true)).
Proof.
  intros Hx. revert j. induction n as [|n IH]; intros j Hj.
  { cbn. by rewrite app_nil_r, Nat.add_0_r. }
  cbn [seq fmap list_fmap check_chunks]. unfold check_chunk.
  rewrite chunk_piece_valid by (try done; lia).
  cbn [chunk_piece crc_request crc_count crc_total_length crc_digest crc_index].
  rewrite !bool_decide_eq_true_2, !N.eqb_refl by done. cbn [negb orb]. rewrite Nat2N.id.
  rewrite lookup_app_r by (rewrite length_replicate; lia). rewrite length_replicate, Nat.sub_diag. cbn [replicate lookup list_lookup].
  rewrite insert_app_r_alt by (rewrite length_replicate; lia). rewrite length_replicate, Nat.sub_diag. cbn [insert list_insert].
  specialize (IH (S j) ltac:(lia)). rewrite replicate_S_end, <- (assoc_L (++)) in IH.
  replace (j + S n) with (S j + n) by lia. exact IH.
Qed.

Lemma canonical_chunks_bytes request digest bytes :
  (0 < len bytes)%N → concat (crc_bytes <$> canonical_chunks request digest bytes) = bytes.
Proof.
  intros Hn. unfold canonical_chunks. rewrite <- list_fmap_compose.
  change (crc_bytes ∘ chunk_piece request digest bytes) with (cut chunk_size bytes).
  rewrite concat_cuts. cbn [Nat.mul drop]. apply take_ge. pose proof (chunk_total_spec _ Hn). pose proof chunk_size_N.
  unfold len in *. lia.
Qed.

Lemma canonical_chunks_cons request digest bytes :
  (0 < len bytes)%N →
  ∃ rest, canonical_chunks request digest bytes = chunk_piece request digest bytes 0 :: rest.
Proof.
  intros Hn. pose proof (chunk_total_spec _ Hn) as H. unfold canonical_chunks.
  destruct (N.to_nat (chunk_total (len bytes))) eqn:E; [|by eexists].
  assert (chunk_total (len bytes) = 0%N) as Hz by lia. rewrite Hz in H. lia.
Qed.

Section reassembly.
  Context (sha256 : str → str).

(** The canonical sequence of a decodable encoding is accepted. *)
Lemma reassemble_canonical bytes r :
  decode_with_limit bytes MAX_EXPANDED_CANONICAL_RESPONSE_BYTES = Ok r →
  reassemble_response_chunks sha256 (canonical_chunks (rsp_request r) (sha256 bytes) bytes) = Some (Ok r).
Proof.
  intros Hd. pose proof Hd as (Hl & _ & host & _ & Hb)%decode_with_limit_exact; [|done].
  assert (expandable (len bytes)) as Hx.
  { split; [|done]. subst bytes. unfold enc_response. rewrite len_app. change (len (write_array RESPONSE_ITEMS)) with 1%N. lia. }
  pose proof (canonical_chunks_bytes (rsp_request r) (sha256 bytes) bytes ltac:(apply Hx)) as Hcat.
  destruct (canonical_chunks_cons (rsp_request r) (sha256 bytes) bytes ltac:(apply Hx)) as [rest Hcs].
  pose proof (chunk_total_spec (len bytes) ltac:(apply Hx)) as Htot.
  unfold reassemble_response_chunks. rewrite Hcs.
  rewrite chunk_piece_valid; [|done|change MAX_RESPONSE_CHUNK_BYTES with 1048448%N in Htot; destruct Hx; lia].
  rewrite <- Hcs. change (crc_count (chunk_piece _ _ bytes 0)) with (chunk_total (len bytes)).
  pose proof (check_canonical (rsp_request r) (sha256 bytes) bytes 0 (N.to_nat (chunk_total (len bytes))) Hx ltac:(lia)) as Hck.
  cbn [replicate app Nat.add] in Hck. unfold canonical_chunks at 1. rewrite Hck.
  unfold finish_reassembly. rewrite (proj2 (first_missing_None 0 _)).
  2: { intros i Hi. rewrite length_replicate in Hi. by apply lookup_replicate_2. }
  unfold mbind, result_bind. rewrite (proj2 (check_order_ok 0 _)).
  2: { intros i c. unfold canonical_chunks. rewrite list_lookup_fmap. destruct (seq _ _ !! i) eqn:Hs; [|done].
       apply lookup_seq in Hs as [-> _]. by intros [= <-]. }
  rewrite fold_lengths, fold_bytes, Hcat, app_nil_l, N.add_0_l. cbn [chunk_piece crc_total_length crc_digest crc_request].
  rewrite N.eqb_refl, bool_decide_eq_true_2 by done. cbn [negb]. rewrite Hd. cbn [map_err].
  by rewrite bool_decide_eq_true_2 by done.
Qed.

(** Nothing else is. *)
Lemma reassemble_only_canonical cs r :
  reassemble_response_chunks sha256 cs = Some (Ok r) →
  ∃ bytes, decode_with_limit bytes MAX_EXPANDED_CANONICAL_RESPONSE_BYTES = Ok r ∧
    cs = canonical_chunks (rsp_request r) (sha256 bytes) bytes.
Proof.
  destruct cs as [|first rest]; [done|]. unfold reassemble_response_chunks. set (cs := first :: rest).
  destruct (chunk_validate first) as [[]|] eqn:Hv; [|done].
  destruct (check_chunks _ _ cs) as [[seen|]|] eqn:Hck; [|done..]. intros [= Hfin].
  apply check_chunks_ok in Hck as (Hof & Hlen & Hseen); [|by rewrite length_replicate]. rewrite length_replicate in Hlen.
  unfold finish_reassembly in Hfin. destruct (first_missing 0 seen) eqn:Hmiss; [done|].
  rewrite first_missing_None in Hmiss. unfold mbind, result_bind in Hfin.
  destruct (check_order 0 cs) as [[]|] eqn:Hord; [|done]. rewrite check_order_ok in Hord.
  rewrite fold_lengths, fold_bytes, N.add_0_l, app_nil_l in Hfin. set (bytes := concat (crc_bytes <$> cs)) in *.
  destruct (N.eqb_spec (len bytes) (crc_total_length first)) as [Htot|]; cbn [negb] in Hfin; [|done].
  destruct (bool_decide_reflect (sha256 bytes = crc_digest first)) as [Hd|]; cbn [negb] in Hfin; [|done].
  destruct (decode_with_limit _ _) as [response|] eqn:Hdec; cbn [map_err] in Hfin; [|done].
  destruct (bool_decide_reflect (rsp_request response = crc_request first)) as [Hr|]; cbn [negb] in Hfin; [|done].
  injection Hfin as <-. exists bytes. split; [done|]. rewrite Hr, Hd.
  apply ordered_is_canonical; [done| |done|done|done]. apply Nat.le_antisymm.
  - destruct (last cs) as [c|] eqn:Hlast; [|by apply last_None in Hlast].
    rewrite last_lookup in Hlast. pose proof (Hord _ _ Hlast) as Hi.
    rewrite Forall_lookup in Hof. destruct (Hof _ _ Hlast) as (Hvc & _ & Hcc & _).
    apply chunk_validate_ok in Hvc as (_ & _ & Hic & _). cbn [length] in *. lia.
  - apply Nat.nlt_ge. intros Hlt. pose proof (Hmiss (length cs) ltac:(lia)) as Hs. apply Hseen in Hs as [Hs|Hs].
    + apply lookup_replicate in Hs as [? _]. done.
    + apply list_elem_of_fmap in Hs as (c & Hi & (k & Hk)%list_elem_of_lookup).
      pose proof (lookup_lt_Some _ _ _ Hk). pose proof (Hord _ _ Hk). unfold compose in Hi. lia.
Qed.

Lemma reassemble_total cs : reassemble_response_chunks sha256 cs ≠ None.
Proof.
  destruct cs as [|first rest]; [done|]. unfold reassemble_response_chunks.
  destruct (chunk_validate first) as [[]|]; [|done].
  pose proof (check_chunks_total first (replicate (N.to_nat (crc_count first)) false) (first :: rest)
    ltac:(by rewrite length_replicate)). destruct (check_chunks _ _ _) as [[]|]; done.
Qed.
End reassembly.

(** ** Claims *)

Definition body_bytes (outcome : BrokerWireOutcome) : N :=
  match outcome with WirePublic p => len (pwr_body p) | _ => 0 end.

(** An encoding adds at most 8573 bytes to the body. *)
Lemma response_overhead r : response_wf r → (0 < len (encoding r) <= body_bytes (rsp_outcome r) + 8573)%N.
Proof.
  intros [Hr Hwf]. unfold encoding. rewrite concat_parts. unfold enc_response, write_bytes.
  rewrite !len_app, Hr.
  change (len (write_array RESPONSE_ITEMS)) with 1%N. change (len (write_unsigned BROKER_RESPONSE_VERSION)) with 1%N.
  change (len (write_head 2 REQUEST_ID_BYTES)) with 1%N. change REQUEST_ID_BYTES with 16%N.
  split; [lia|].
  assert (len (enc_outcome (canonical_spelling (rsp_outcome r)) (rsp_outcome r)) <=
    body_bytes (rsp_outcome r) + 8554)%N; [|lia].
  destruct (rsp_outcome r) as [p|g|o]; cbn [enc_outcome canonical_spelling outcome_wf body_bytes] in *.
  - destruct Hwf as [(_ & _ & Hh & Hp & Hb)%PublicWireResponse_new_ok _]. unfold write_text, write_bytes.
    rewrite !len_app. unfold write_unsigned, write_array.
    pose proof (len_write_head 3 (len (ch_name (pwr_host p)))).
    pose proof (len_write_head 3 (len (CanonicalUrlPath_to_string (pwr_path p)))).
    pose proof (len_write_head 2 (len (pwr_body p))). pose proof (len_write_head 0 (pwr_status p)).
    change (len (write_head 0 PUBLIC_SUCCESS)) with 1%N. change (len (write_head 4 RESPONSE_PUBLIC_ITEMS)) with 1%N.
    change MAX_HOST_BYTES with 253%N in *. change MAX_PATH_BYTES with 8192%N in *.
    change MAX_PUBLIC_WIRE_BODY_BYTES with 33554432%N in *. lia.
  - destruct Hwf as [(_ & _ & Hid)%GitHubWireResponse_new_ok _]. rewrite !len_app. unfold write_unsigned, write_array.
    pose proof (len_write_head 0 GITHUB_SUCCESS). pose proof (len_write_head 4 RESPONSE_GITHUB_ITEMS).
    pose proof (len_write_head 0 (github_operation_code (gwr_operation g))).
    pose proof (len_write_head 0 (gwr_response_bytes g)).
    assert (len (match gwr_pull_request_number g with Some n => write_head 0 n | None => [N2b 246] end) <= 9)%N.
    { destruct (gwr_pull_request_number g); [apply len_write_head|done]. }
    assert (len (match gwr_object_id g with Some s => write_text s | None => [N2b 246] end) <= 73)%N; [|lia].
    destruct (gwr_object_id g) as [s|]; [|done]. unfold write_text. rewrite len_app.
    pose proof (len_write_head 3 (len s)). destruct (valid_object_id_text s (Hid s eq_refl)).
    change MAX_OBJECT_ID_BYTES with 64%N in *. lia.
  - rewrite len_app. unfold write_unsigned. pose proof (len_write_head 0 REJECTED).
    pose proof (len_write_head 0 (BrokerWireRejection_code o)). lia.
Qed.

Lemma body_bytes_bound r : response_wf r → (body_bytes (rsp_outcome r) <= MAX_PUBLIC_WIRE_BODY_BYTES)%N.
Proof.
  intros [_ Hwf]. destruct (rsp_outcome r) as [p|g|o]; cbn [body_bytes outcome_wf] in *; [|done..].
  by destruct Hwf as [(_ & _ & _ & _ & Hb)%PublicWireResponse_new_ok _].
Qed.

(** The encoding of a well-formed response fits the reassembly bound. *)
Lemma response_expandable r : response_wf r → expandable (len (encoding r)).
Proof.
  intros Hwf. pose proof (response_overhead r Hwf). pose proof (body_bytes_bound r Hwf). unfold expandable.
  change MAX_EXPANDED_CANONICAL_RESPONSE_BYTES with 33563005%N.
  change MAX_PUBLIC_WIRE_BODY_BYTES with 33554432%N in *. lia.
Qed.

(** Sending any well-formed response in chunks always succeeds, without ever holding
    the whole encoding: the typed iterator and the streaming one agree chunk by
    chunk, every payload fits one control frame and decodes to its chunk, and
    reassembling the chunks gives the response back. *)
Theorem response_chunks_roundtrip sha256 r :
  response_wf r → (∀ s, len (sha256 s) = RESPONSE_DIGEST_BYTES) →
  ∃ cs payloads, chunks sha256 r = Ok cs ∧ encoded_chunks sha256 r = Ok payloads ∧
    Forall2 (λ c payload, chunk_encode c = Ok payload ∧ chunk_decode payload = Ok c ∧
                          (len payload <= MAX_CONTROL_FRAME_BYTES)%N) cs payloads ∧
    reassemble_response_chunks sha256 cs = Some (Ok r).
Proof.
  intros Hwf Hsha. pose proof (response_expandable r Hwf) as Hx. destruct (chunks_ok sha256 r Hx) as [Hc He].
  set (cs := canonical_chunks (rsp_request r) (sha256 (encoding r)) (encoding r)) in *.
  assert (Forall2 (λ c payload, chunk_encode c = Ok payload ∧ chunk_decode payload = Ok c ∧
    (len payload <= MAX_CONTROL_FRAME_BYTES)%N) cs (enc_chunk <$> cs)) as Hall.
  { apply Forall2_fmap_r, Forall_Forall2_diag. unfold cs, canonical_chunks. apply Forall_fmap, Forall_seq. intros i Hi.
    assert (chunk_typed (chunk_piece (rsp_request r) (sha256 (encoding r)) (encoding r) i)) as Ht
      by (split; [apply Hwf|apply Hsha]).
    destruct (chunk_encode_fits _ Ht ltac:(apply chunk_piece_valid; [done|lia])) as [Henc Hl].
    split_and!; [done|by apply chunk_decode_exact|done]. }
  exists cs, (enc_chunk <$> cs). split_and!; [done| |done|].
  - rewrite He. apply collect_Ok. eapply Forall2_impl; [done|]. naive_solver.
  - apply reassemble_canonical. apply (response_decode_encode r); [done|done|].
    apply encode_with_limit_ok; [done|]. unfold encoding. rewrite concat_parts. split; [done|].
    rewrite <- concat_parts. apply Hx.
Qed.

(** C36: reassembly never panics and accepts exactly the canonical chunk sequences: a list
    of chunks yields a response if and only if it is the ordered cut of one encoding
    of that response, every chunk bound to its request and to its digest.  Anything
    missing, repeated, reordered, resized or mixed between responses is refused. *)
Theorem reassembly_exact sha256 cs :
  reassemble_response_chunks sha256 cs ≠ None ∧
  ∀ r, reassemble_response_chunks sha256 cs = Some (Ok r) ↔
    ∃ bytes, decode_with_limit bytes MAX_EXPANDED_CANONICAL_RESPONSE_BYTES = Ok r ∧
      cs = canonical_chunks (rsp_request r) (sha256 bytes) bytes.
Proof.
  split; [apply reassemble_total|]. intros r. split; [apply reassemble_only_canonical|].
  intros (bytes & Hd & ->). by apply reassemble_canonical.
Qed.

Lemma response_chunks_roundtrip_witness :
  let sha256 := λ s : str, replicate 32 (default (N2b 0) (last s)) in
  ∃ cs payloads, chunks sha256 demo_response = Ok cs ∧ encoded_chunks sha256 demo_response = Ok payloads ∧
    Forall2 (λ c payload, chunk_encode c = Ok payload ∧ chunk_decode payload = Ok c ∧
                          (len payload <= MAX_CONTROL_FRAME_BYTES)%N) cs payloads ∧
    reassemble_response_chunks sha256 cs = Some (Ok demo_response).
Proof.
  intros sha256. apply (response_chunks_roundtrip sha256 demo_response); [exact demo_response_wf|].
  intros s. reflexivity.
Defined.
