(* ===== verification/BrokerWalState.v ===== *)
(** * The durable state of one broker session ([crates/egress-broker/src/durable.rs])

    What the broker's write-ahead log records: the accepted requests with their
    phase, and the session budget.  [RecoveredState] is advanced by the same
    functions when a record is written and when it is recovered. *)

From S2P Require Import Prelude Bytes Budget ReplayGuard Response ResponseChunk.

Record DurableSessionConfig := {
  dsc_session : BrokerSessionId;
  dsc_replay_capacity : N;
  dsc_budget_limits : SessionBudgetLimits;
}.

Inductive BudgetSettlement :=
  | SettleNotStarted
  | SettleAbort
  | SettleComplete (response_bytes : N).

(** [DurableCanonicalResponse]: the typed response; its wire payloads are computed
    from it on demand. *)
Inductive DurableRequestPhase :=
  | AcceptedPending
  | RetryableBudget
  | Final (response : CanonicalBrokerResponse).

Record DurableRequest := {
  dr_sequence : N;
  dr_request : BrokerRequestId;
  dr_payload_hash : PayloadHash;
  dr_response_cap : N;
  dr_phase : DurableRequestPhase;
  dr_reservation : option N;
  dr_final_settlement : option BudgetSettlement;
}.

#[export] Instance SessionBudgetLimits_eq_dec : EqDecision SessionBudgetLimits.
Proof. solve_decision. Defined.
#[export] Instance DurableSessionConfig_eq_dec : EqDecision DurableSessionConfig.
Proof. solve_decision. Defined.
#[export] Instance BudgetSettlement_eq_dec : EqDecision BudgetSettlement.
Proof. solve_decision. Defined.
#[export] Instance DurableRequestPhase_eq_dec : EqDecision DurableRequestPhase.
Proof. solve_decision. Defined.

(** The error of an operating-system call is a number. *)
Inductive DurableWalError :=
  | Wal_Io (error : N)
  | Wal_Locked
  | Wal_Symlink
  | Wal_NotRegularFile
  | Wal_PathIdentityChanged
  | Wal_WrongOwner (expected actual : N)
  | Wal_UnsafePermissions (mode : N)
  | Wal_UnsafeParentDirectory
  | Wal_TooLarge (length maximum : N)
  | Wal_RecordTooLarge (length : N)
  | Wal_TruncatedRecord
  | Wal_InvalidMagic
  | Wal_UnsupportedVersion (version : N)
  | Wal_SequenceMismatch (expected actual : N)
  | Wal_ChecksumMismatch
  | Wal_InvalidRecord (reason : string)
  | Wal_ConfigurationMismatch (expected recovered : DurableSessionConfig)
  | Wal_OutOfOrderSequence (expected received : N)
  | Wal_RequestIdentityMismatch (request : BrokerRequestId)
  | Wal_RequestCapacityExhausted
  | Wal_UnknownRequest (request : BrokerRequestId)
  | Wal_InvalidTransition (request : BrokerRequestId)
  | Wal_ResponseRequestMismatch (expected received : BrokerRequestId)
  | Wal_Budget (error : SessionBudgetError)
  | Wal_Response (error : ResponseCborError)
  | Wal_ResponseChunk (error : ResponseChunkError)
  | Wal_SequenceExhausted
  | Wal_DurabilityUncertain (error : N)
  | Wal_Sealed.

Abbreviation WR := (result DurableWalError).

(** ** The budget counters *)

Inductive BudgetEvent :=
  | EventReserve (request : BrokerRequestId) (response_cap : N)
  | EventAbort (request : BrokerRequestId)
  | EventComplete (request : BrokerRequestId) (response_bytes : N).

Record BudgetState := {
  bst_started_requests : N;
  bst_committed_response_bytes : N;
  bst_reserved_response_bytes : N;
  bst_active : gmap BrokerRequestId N;
}.

Definition BudgetState_empty : BudgetState :=
  {| bst_started_requests := 0; bst_committed_response_bytes := 0; bst_reserved_response_bytes := 0;
     bst_active := ∅ |}.

Definition validate_reserve (self : BudgetState) (request : BrokerRequestId) (response_cap : N)
    (limits : SessionBudgetLimits) : WR unit :=
  if bool_decide (is_Some (bst_active self !! request))
  then Err (Wal_Budget (ReservationAlreadyActive request))
  else if (sbl_requests limits <=? bst_started_requests self)%N then Err (Wal_Budget RequestCountExhausted)
  else if (sbl_concurrent limits <=? N.of_nat (size (bst_active self)))%N
  then Err (Wal_Budget ConcurrentRequestLimitReached)
  else
    used ← ok_or (checked_add_u64 (bst_committed_response_bytes self) (bst_reserved_response_bytes self))
             (Wal_Budget AccountingInvariantBroken);
    remaining ← ok_or (checked_sub_u64 (sbl_response_bytes limits) used)
                  (Wal_Budget AccountingInvariantBroken);
    if (remaining <? response_cap)%N
    then Err (Wal_Budget (ResponseBytesExhausted response_cap remaining))
    else
      _ ← ok_or (_ ← checked_add_u64 (bst_started_requests self) 1;
                 checked_add_u64 (bst_reserved_response_bytes self) response_cap)
            (Wal_Budget AccountingInvariantBroken);
      Ok tt.

(** Runs after [validate_reserve], which bounds the sums. *)
Definition budget_apply_reserve (request : BrokerRequestId) (response_cap : N) (self : BudgetState)
    : BudgetState :=
  {| bst_started_requests := bst_started_requests self + 1;
     bst_committed_response_bytes := bst_committed_response_bytes self;
     bst_reserved_response_bytes := bst_reserved_response_bytes self + response_cap;
     bst_active := <[request := response_cap]> (bst_active self) |}.

Definition validate_settlement (self : BudgetState) (request : BrokerRequestId)
    (settlement : BudgetSettlement) : WR unit :=
  match settlement with
  | SettleNotStarted =>
      if bool_decide (is_Some (bst_active self !! request)) then Err (Wal_InvalidTransition request)
      else Ok tt
  | SettleAbort =>
      if negb (bool_decide (is_Some (bst_active self !! request)))
      then Err (Wal_Budget (UnknownReservation request))
      else Ok tt
  | SettleComplete response_bytes =>
      response_cap ← ok_or (bst_active self !! request) (Wal_Budget (UnknownReservation request));
      if (response_cap <? response_bytes)%N
      then Err (Wal_Budget (ResponseExceedsReservation request response_bytes response_cap))
      else
        _ ← ok_or (_ ← checked_add_u64 (bst_committed_response_bytes self) response_bytes;
                   checked_sub_u64 (bst_reserved_response_bytes self) response_cap)
              (Wal_Budget AccountingInvariantBroken);
        Ok tt
  end.

(** Runs after [validate_settlement]: the reservation exists. *)
Definition budget_apply_settlement (request : BrokerRequestId) (settlement : BudgetSettlement)
    (self : BudgetState) : BudgetState :=
  let response_cap := default 0%N (bst_active self !! request) in
  match settlement with
  | SettleNotStarted => self
  | SettleAbort =>
      {| bst_started_requests := bst_started_requests self;
         bst_committed_response_bytes := bst_committed_response_bytes self;
         bst_reserved_response_bytes := bst_reserved_response_bytes self - response_cap;
         bst_active := delete request (bst_active self) |}
  | SettleComplete response_bytes =>
      {| bst_started_requests := bst_started_requests self;
         bst_committed_response_bytes := bst_committed_response_bytes self + response_bytes;
         bst_reserved_response_bytes := bst_reserved_response_bytes self - response_cap;
         bst_active := delete request (bst_active self) |}
  end.

(** ** The recovered state *)

Record RecoveredState := {
  rs_config : DurableSessionConfig;
  rs_requests : list DurableRequest;
  rs_request_indexes : gmap BrokerRequestId nat;
  rs_budget : BudgetState;
  rs_budget_events : list BudgetEvent;
  rs_next_wal_sequence : option N;
}.

Definition RecoveredState_new (config : DurableSessionConfig) : RecoveredState :=
  {| rs_config := config; rs_requests := []; rs_request_indexes := ∅; rs_budget := BudgetState_empty;
     rs_budget_events := []; rs_next_wal_sequence := Some 1%N |}.

Abbreviation RM := (ST RecoveredState DurableWalError).

Definition rs_with_requests (requests : list DurableRequest) (self : RecoveredState) : RecoveredState :=
  {| rs_config := rs_config self; rs_requests := requests; rs_request_indexes := rs_request_indexes self;
     rs_budget := rs_budget self; rs_budget_events := rs_budget_events self;
     rs_next_wal_sequence := rs_next_wal_sequence self |}.
Definition rs_with_indexes (indexes : gmap BrokerRequestId nat) (self : RecoveredState) : RecoveredState :=
  {| rs_config := rs_config self; rs_requests := rs_requests self; rs_request_indexes := indexes;
     rs_budget := rs_budget self; rs_budget_events := rs_budget_events self;
     rs_next_wal_sequence := rs_next_wal_sequence self |}.
Definition rs_with_budget (budget : BudgetState) (self : RecoveredState) : RecoveredState :=
  {| rs_config := rs_config self; rs_requests := rs_requests self;
     rs_request_indexes := rs_request_indexes self; rs_budget := budget;
     rs_budget_events := rs_budget_events self; rs_next_wal_sequence := rs_next_wal_sequence self |}.
Definition rs_push_event (event : BudgetEvent) (self : RecoveredState) : RecoveredState :=
  {| rs_config := rs_config self; rs_requests := rs_requests self;
     rs_request_indexes := rs_request_indexes self; rs_budget := rs_budget self;
     rs_budget_events := rs_budget_events self ++ [event];
     rs_next_wal_sequence := rs_next_wal_sequence self |}.
Definition rs_with_next (next : option N) (self : RecoveredState) : RecoveredState :=
  {| rs_config := rs_config self; rs_requests := rs_requests self;
     rs_request_indexes := rs_request_indexes self; rs_budget := rs_budget self;
     rs_budget_events := rs_budget_events self; rs_next_wal_sequence := next |}.

(** [request] and [request_mut]: the index of the entry and the entry. *)
Definition rs_find (self : RecoveredState) (request : BrokerRequestId) : WR (nat * DurableRequest) :=
  index ← ok_or (rs_request_indexes self !! request) (Wal_UnknownRequest request);
  entry ← ok_or (rs_requests self !! index) (Wal_InvalidRecord "request index is inconsistent");
  Ok (index, entry).

Definition rs_request (self : RecoveredState) (request : BrokerRequestId) : WR DurableRequest :=
  '(_, entry) ← rs_find self request;
  Ok entry.

(** Writing through the reference [request_mut] returns. *)
Definition rs_update (request : BrokerRequestId) (f : DurableRequest → DurableRequest) : RM unit :=
  '(index, entry) ← st_query (λ self, rs_find self request);
  st_modify (λ self, rs_with_requests (<[index := f entry]> (rs_requests self)) self).

(** Assigning the phase, the reservation and, when given, the settlement. *)
Definition entry_with (phase : DurableRequestPhase) (reservation : option N)
    (settlement : option BudgetSettlement) (entry : DurableRequest) : DurableRequest :=
  {| dr_sequence := dr_sequence entry; dr_request := dr_request entry;
     dr_payload_hash := dr_payload_hash entry; dr_response_cap := dr_response_cap entry;
     dr_phase := phase; dr_reservation := reservation;
     dr_final_settlement := match settlement with Some _ => settlement | None => dr_final_settlement entry end |}.

Definition accepted_request (sequence : N) (request : BrokerRequestId) (payload_hash : PayloadHash)
    (response_cap : N) : DurableRequest :=
  {| dr_sequence := sequence; dr_request := request; dr_payload_hash := payload_hash;
     dr_response_cap := response_cap; dr_phase := AcceptedPending; dr_reservation := None;
     dr_final_settlement := None |}.

Definition apply_accept_parts (sequence : N) (request : BrokerRequestId) (payload_hash : PayloadHash)
    (response_cap : N) : RM unit :=
  self ← st_get;
  let expected := N.of_nat (length (rs_requests self)) in
  if negb (sequence =? expected)%N then st_fail (Wal_OutOfOrderSequence expected sequence)
  else if (dsc_replay_capacity (rs_config self) <=? expected)%N then st_fail Wal_RequestCapacityExhausted
  else if bool_decide (is_Some (rs_request_indexes self !! request))
  then st_fail (Wal_RequestIdentityMismatch request)
  else
    let index := length (rs_requests self) in
    _ ← st_modify (λ self,
      rs_with_requests (rs_requests self ++ [accepted_request sequence request payload_hash response_cap]) self);
    st_modify (λ self, rs_with_indexes (<[request := index]> (rs_request_indexes self)) self).

Definition apply_accept (envelope : BrokerEnvelope) (response_cap : N) : RM unit :=
  self ← st_get;
  if negb (bool_decide (be_session envelope = dsc_session (rs_config self)))
  then st_fail (Wal_InvalidRecord "accepted request belongs to another session")
  else apply_accept_parts (be_sequence envelope) (be_request envelope) (be_payload_hash envelope) response_cap.

Definition is_final (phase : DurableRequestPhase) : bool :=
  match phase with Final _ => true | _ => false end.

Definition is_accepted_pending (phase : DurableRequestPhase) : bool :=
  match phase with AcceptedPending => true | _ => false end.

(** The phase test of [reserve] and [apply_reserve]. *)
Definition check_reserve (request : BrokerRequestId) (entry : DurableRequest) : WR unit :=
  if is_final (dr_phase entry) || bool_decide (is_Some (dr_reservation entry))
  then Err (Wal_InvalidTransition request) else Ok tt.

Definition apply_reserve (request : BrokerRequestId) : RM unit :=
  entry ← st_query (λ self, rs_request self request);
  _ ← st_query (λ _, check_reserve request entry);
  let response_cap := dr_response_cap entry in
  _ ← st_query (λ self,
        validate_reserve (rs_budget self) request response_cap (dsc_budget_limits (rs_config self)));
  _ ← st_modify (λ self, rs_with_budget (budget_apply_reserve request response_cap (rs_budget self)) self);
  _ ← st_modify (rs_push_event (EventReserve request response_cap));
  rs_update request (entry_with AcceptedPending (Some response_cap) None).

(** The phase test of [mark_retryable_budget] and [apply_retryable]. *)
Definition check_retryable (request : BrokerRequestId) (entry : DurableRequest) : WR unit :=
  if negb (is_accepted_pending (dr_phase entry)) || bool_decide (is_Some (dr_reservation entry))
  then Err (Wal_InvalidTransition request) else Ok tt.

Definition apply_retryable (request : BrokerRequestId) : RM unit :=
  entry ← st_query (λ self, rs_request self request);
  _ ← st_query (λ _, check_retryable request entry);
  rs_update request (λ entry, entry_with RetryableBudget (dr_reservation entry) None entry).

(** The phase and reservation tests of [finalize] and [apply_final]. *)
Definition check_final (request : BrokerRequestId) (settlement : BudgetSettlement)
    (entry : DurableRequest) : WR unit :=
  if is_final (dr_phase entry) then Err (Wal_InvalidTransition request)
  else
    match settlement with
    | SettleNotStarted =>
        if bool_decide (is_Some (dr_reservation entry)) then Err (Wal_InvalidTransition request) else Ok tt
    | _ =>
        if negb (bool_decide (is_Some (dr_reservation entry))) then Err (Wal_InvalidTransition request)
        else Ok tt
    end.

Definition settlement_event (request : BrokerRequestId) (settlement : BudgetSettlement)
    : option BudgetEvent :=
  match settlement with
  | SettleNotStarted => None
  | SettleAbort => Some (EventAbort request)
  | SettleComplete response_bytes => Some (EventComplete request response_bytes)
  end.

Definition apply_final (request : BrokerRequestId) (settlement : BudgetSettlement)
    (response : CanonicalBrokerResponse) : RM unit :=
  entry ← st_query (λ self, rs_request self request);
  _ ← st_query (λ _, check_final request settlement entry);
  _ ← st_query (λ self, validate_settlement (rs_budget self) request settlement);
  _ ← st_modify (λ self, rs_with_budget (budget_apply_settlement request settlement (rs_budget self)) self);
  _ ← st_modify (λ self,
        match settlement_event request settlement with
        | Some event => rs_push_event event self
        | None => self
        end);
  rs_update request (entry_with (Final response) None (Some settlement)).

Definition validate_duplicate (self : RecoveredState) (envelope : BrokerEnvelope) (response_cap : N)
    : WR (option DurableRequest) :=
  match rs_request_indexes self !! be_request envelope with
  | None => Ok None
  | Some index =>
      entry ← ok_or (rs_requests self !! index) (Wal_InvalidRecord "request index is inconsistent");
      if (dr_sequence entry =? be_sequence envelope)%N
         && bool_decide (dr_payload_hash entry = be_payload_hash envelope)
         && (dr_response_cap entry =? response_cap)%N
      then Ok (Some entry)
      else Err (Wal_RequestIdentityMismatch (be_request envelope))
  end.

(** [DurableBrokerView::restore_budget]. *)
Definition replay_event (event : BudgetEvent) (budget : SessionBudget) : result SessionBudgetError SessionBudget :=
  match event with
  | EventReserve request response_cap =>
      let '(r, budget) := SessionBudget_start request response_cap budget in _ ← r; Ok budget
  | EventAbort request => let '(r, budget) := SessionBudget_abort request budget in _ ← r; Ok budget
  | EventComplete request response_bytes =>
      let '(r, budget) := SessionBudget_complete request response_bytes budget in _ ← r; Ok budget
  end.

Fixpoint replay_events (events : list BudgetEvent) (budget : SessionBudget) : WR SessionBudget :=
  match events with
  | [] => Ok budget
  | event :: rest =>
      budget ← map_err (λ _, Wal_InvalidRecord "budget history cannot reconstruct the session budget")
                 (replay_event event budget);
      replay_events rest budget
  end.

Definition restore_budget (self : RecoveredState) : WR SessionBudget :=
  replay_events (rs_budget_events self) (SessionBudget_new (dsc_budget_limits (rs_config self))).
