(* ===== verification/BrokerWal.v ===== *)
(** * The broker's write-ahead log ([crates/egress-broker/src/durable.rs])

    Record payloads, frames, the append-only writer and recovery.  The file is its
    bytes.  What the operating system decides during an append (path, lock and
    ownership checks before and after, a failing or torn write) is the argument
    [WalIo]; recovery takes the bytes it reads and the verdict of the truncation.
    SHA-256 is an argument. *)

From S2P Require Import Prelude Bytes ControlFrame Budget ReplayGuard Cbor Response ResponseChunk BrokerWalState.

Definition WAL_MAGIC : str := lit "EGBWAL01".
Definition WAL_VERSION : N := 1.
Definition INIT_KIND : N := 0.
Definition ACCEPT_KIND : N := 1.
Definition RESERVE_KIND : N := 2.
Definition RETRYABLE_BUDGET_KIND : N := 3.
Definition FINAL_KIND : N := 4.
Definition WAL_HEADER_LEN : N := 8 + 2 + 1 + 1 + 8 + 4.
Definition WAL_CHECKSUM_LEN : N := 8.
Definition INIT_PAYLOAD_LEN : N := 16 + 8 + 8 + 8 + 8.
Definition ACCEPT_PAYLOAD_LEN : N := 8 + 16 + 32 + 8.
Definition REQUEST_PAYLOAD_LEN : N := 16.
Definition FINAL_PREFIX_LEN : N := 16 + 1 + 7 + 8 + 4.
Definition MAX_RECORD_PAYLOAD_BYTES : N := MAX_EXPANDED_CANONICAL_RESPONSE_BYTES + 64 * 1024.
Definition MAX_FINAL_WIRE_PAYLOADS : N :=
  (MAX_EXPANDED_CANONICAL_RESPONSE_BYTES + MAX_RESPONSE_CHUNK_BYTES - 1) / MAX_RESPONSE_CHUNK_BYTES.
Definition MAX_TERMINAL_RECORD_OVERHEAD : N := MAX_RECORD_PAYLOAD_BYTES - 32 * 1024 * 1024.
Definition MAX_DURABLE_BROKER_WAL_BYTES : N := 128 * 1024 * 1024.

(** FNV-1a over both slices in order. *)
Definition wal_checksum_parts (first second : str) : N :=
  foldl (λ state byte, (N.lxor state (b2N byte) * 1099511628211) mod u64_limit)%N
    14695981039346656037%N (first ++ second).

Definition wal_checksum (bytes : str) : N := wal_checksum_parts bytes [].

(** ** Reading fields: the value and the cursor after it *)

Definition wal_read_fixed (width : nat) (bytes : str) (cursor : N) : WR (str * N) :=
  finish ← ok_or (checked_add_u64 cursor (N.of_nat width)) Wal_TruncatedRecord;
  value ← ok_or (get_range bytes cursor finish) Wal_TruncatedRecord;
  Ok (value, finish).

Definition wal_read_uint (width : nat) (bytes : str) (cursor : N) : WR (N * N) :=
  '(value, cursor) ← wal_read_fixed width bytes cursor;
  Ok (from_le_bytes value, cursor).

Definition wal_read_byte (bytes : str) (cursor : N) : WR (N * N) :=
  byte ← ok_or (bytes !! N.to_nat cursor) Wal_TruncatedRecord;
  Ok (b2N byte, cursor + 1)%N.

(** ** Record payloads *)

Definition encode_init (config : DurableSessionConfig) : str :=
  dsc_session config ++ le_bytes 8 (dsc_replay_capacity config) ++
  le_bytes 8 (sbl_requests (dsc_budget_limits config)) ++
  le_bytes 8 (sbl_response_bytes (dsc_budget_limits config)) ++
  le_bytes 8 (sbl_concurrent (dsc_budget_limits config)).

Definition nonzero (value : N) (reason : string) : WR N :=
  if (value =? 0)%N then Err (Wal_InvalidRecord reason) else Ok value.

Definition decode_init (payload : str) : WR DurableSessionConfig :=
  if negb (len payload =? INIT_PAYLOAD_LEN)%N
  then Err (Wal_InvalidRecord "session record has the wrong length")
  else
    '(session, cursor) ← wal_read_fixed 16 payload 0;
    '(value, cursor) ← wal_read_uint 8 payload cursor;
    replay_capacity ← nonzero value "replay capacity must be non-zero";
    '(value, cursor) ← wal_read_uint 8 payload cursor;
    max_requests ← nonzero value "request budget must be non-zero";
    '(max_response_bytes, cursor) ← wal_read_uint 8 payload cursor;
    '(value, cursor) ← wal_read_uint 8 payload cursor;
    concurrency ← nonzero value "concurrency budget must be non-zero";
    Ok {| dsc_session := session; dsc_replay_capacity := replay_capacity;
          dsc_budget_limits := {| sbl_requests := max_requests; sbl_response_bytes := max_response_bytes;
                                  sbl_concurrent := concurrency |} |}.

Definition encode_accept (envelope : BrokerEnvelope) (response_cap : N) : str :=
  le_bytes 8 (be_sequence envelope) ++ be_request envelope ++ be_payload_hash envelope ++
  le_bytes 8 response_cap.

Definition decode_accept (payload : str) : WR (N * BrokerRequestId * PayloadHash * N) :=
  if negb (len payload =? ACCEPT_PAYLOAD_LEN)%N
  then Err (Wal_InvalidRecord "accept record has the wrong length")
  else
    '(sequence, cursor) ← wal_read_uint 8 payload 0;
    '(request, cursor) ← wal_read_fixed 16 payload cursor;
    '(payload_hash, cursor) ← wal_read_fixed 32 payload cursor;
    '(response_cap, cursor) ← wal_read_uint 8 payload cursor;
    Ok (sequence, request, payload_hash, response_cap).

Definition decode_request (payload : str) : WR BrokerRequestId :=
  if negb (len payload =? REQUEST_PAYLOAD_LEN)%N
  then Err (Wal_InvalidRecord "request mutation has the wrong length")
  else
    '(request, _) ← wal_read_fixed 16 payload 0;
    Ok request.

(** The settlement byte and the bytes it charges. *)
Definition settlement_code (settlement : BudgetSettlement) : N * N :=
  match settlement with
  | SettleNotStarted => (0, 0)
  | SettleAbort => (1, 0)
  | SettleComplete response_bytes => (2, response_bytes)
  end%N.

(** Fails only on counts or lengths of 2^32 or more. *)
Definition encode_final (request : BrokerRequestId) (settlement : BudgetSettlement)
    (wire_payloads : list str) : WR str :=
  if negb (N.of_nat (length wire_payloads) <? 2 ^ 32)%N then Err (Wal_RecordTooLarge usize_max)
  else
    let '(kind, response_bytes) := settlement_code settlement in
    items ← collect ((λ wire_payload,
      if negb (len wire_payload <? 2 ^ 32)%N then Err (Wal_RecordTooLarge (len wire_payload))
      else Ok (le_bytes 4 (len wire_payload) ++ wire_payload)) <$> wire_payloads);
    Ok (request ++ [N2b kind] ++ replicate 7 (N2b 0) ++ le_bytes 8 response_bytes ++
        le_bytes 4 (N.of_nat (length wire_payloads)) ++ concat items).

Definition decode_settlement (kind response_bytes : N) : WR BudgetSettlement :=
  if (kind =? 0)%N && (response_bytes =? 0)%N then Ok SettleNotStarted
  else if (kind =? 1)%N && (response_bytes =? 0)%N then Ok SettleAbort
  else if (kind =? 2)%N then Ok (SettleComplete response_bytes)
  else Err (Wal_InvalidRecord "final settlement encoding is invalid").

(** The loop over [wire_payload_count] payloads. *)
Fixpoint read_wire_payloads (count : nat) (payload : str) (cursor : N) : WR (list str * N) :=
  match count with
  | O => Ok ([], cursor)
  | S count =>
      '(length, cursor) ← wal_read_uint 4 payload cursor;
      finish ← ok_or (checked_add_u64 cursor length) Wal_TruncatedRecord;
      wire_payload ← ok_or (get_range payload cursor finish) Wal_TruncatedRecord;
      '(rest, cursor) ← read_wire_payloads count payload finish;
      Ok (wire_payload :: rest, cursor)
  end.

(** [encode_frame_header]: the 24 header bytes. *)
Definition wal_header_bytes (sequence kind payload_length : N) : str :=
  WAL_MAGIC ++ le_bytes 2 WAL_VERSION ++ [N2b kind] ++ [N2b 0] ++ le_bytes 8 sequence ++
  le_bytes 4 payload_length.

Definition encode_frame_header (sequence kind payload_length : N) : WR str :=
  if (MAX_RECORD_PAYLOAD_BYTES <? payload_length)%N then Err (Wal_RecordTooLarge payload_length)
  else Ok (wal_header_bytes sequence kind payload_length).

(** Header, payload, checksum of both. *)
Definition wal_frame (sequence kind : N) (payload : str) : str :=
  let header := wal_header_bytes sequence kind (len payload) in
  header ++ payload ++ le_bytes 8 (wal_checksum_parts header payload).

Definition encode_frame (sequence kind : N) (payload : str) : WR str :=
  header ← encode_frame_header sequence kind (len payload);
  Ok (header ++ payload ++ le_bytes 8 (wal_checksum_parts header payload)).

Definition maximum_terminal_frame_bytes (response_cap : N) : N :=
  WAL_HEADER_LEN + (N.min response_cap MAX_PUBLIC_WIRE_BODY_BYTES + MAX_TERMINAL_RECORD_OVERHEAD)
  + WAL_CHECKSUM_LEN.

Definition wal_too_large (length : N) : DurableWalError := Wal_TooLarge length MAX_DURABLE_BROKER_WAL_BYTES.

(** ** The writer *)

Record DurableBrokerWal := {
  bw_file : str;
  bw_state : RecoveredState;
  bw_length : N;
  bw_sealed : bool;
}.

(** What the operating system decides during one append: the verdicts of the two
    target checks, and a failing write or sync with the number of frame bytes that
    reached the file. *)
Record WalIo := {
  wio_before : option DurableWalError;
  wio_write : option (nat * N);
  wio_after : option DurableWalError;
}.

Definition wal_io_ok : WalIo := {| wio_before := None; wio_write := None; wio_after := None |}.

Abbreviation WM := (ST DurableBrokerWal DurableWalError).

Definition wal_seal (self : DurableBrokerWal) : DurableBrokerWal :=
  {| bw_file := bw_file self; bw_state := bw_state self; bw_length := bw_length self; bw_sealed := true |}.
Definition wal_with_file (file : str) (self : DurableBrokerWal) : DurableBrokerWal :=
  {| bw_file := file; bw_state := bw_state self; bw_length := bw_length self; bw_sealed := bw_sealed self |}.
Definition wal_with_state (state : RecoveredState) (self : DurableBrokerWal) : DurableBrokerWal :=
  {| bw_file := bw_file self; bw_state := state; bw_length := bw_length self; bw_sealed := bw_sealed self |}.
Definition wal_with_length (length : N) (self : DurableBrokerWal) : DurableBrokerWal :=
  {| bw_file := bw_file self; bw_state := bw_state self; bw_length := length; bw_sealed := bw_sealed self |}.

Inductive TerminalHeadroomChange :=
  | Preserve
  | AddHeadroom (response_cap : N)
  | Release (request : BrokerRequestId).

Definition add_headroom (total : WR N) (response_cap : N) : WR N :=
  total ← total;
  ok_or (checked_add_u64 total (maximum_terminal_frame_bytes response_cap)) (wal_too_large (u64_limit - 1)).

(** The fold over the active reservations visits them in key order; the sum does not
    depend on the order. *)
Definition protected_terminal_headroom (self : RecoveredState) (change : TerminalHeadroomChange) : WR N :=
  let released := match change with Release request => Some request | _ => None end in
  let headroom := map_fold (λ request response_cap total,
      if bool_decide (Some request = released) then total else add_headroom total response_cap)
    (Ok 0%N) (bst_active (rs_budget self)) in
  match change with
  | AddHeadroom response_cap => add_headroom headroom response_cap
  | _ => headroom
  end.

Definition ensure_writable (self : DurableBrokerWal) : WR unit :=
  if bw_sealed self then Err Wal_Sealed else Ok tt.

(** Fails and seals the writer. *)
Definition seal_with {A} (error : DurableWalError) : WM A :=
  _ ← st_modify wal_seal;
  st_fail error.

Definition wal_validate_append_target (verdict : option DurableWalError) : WM unit :=
  match verdict with Some error => seal_with error | None => mret tt end.

Definition wal_append (io : WalIo) (kind : N) (payload : str) (headroom_change : TerminalHeadroomChange)
    : WM unit :=
  _ ← wal_validate_append_target (wio_before io);
  sequence ← st_query (λ self, ok_or (rs_next_wal_sequence (bw_state self)) Wal_SequenceExhausted);
  header ← st_query (λ _, encode_frame_header sequence kind (len payload));
  let frame_size := (WAL_HEADER_LEN + len payload + WAL_CHECKSUM_LEN)%N in
  self ← st_get;
  _ ← match headroom_change with
      | Release request =>
          response_cap ← st_query (λ self,
            ok_or (bst_active (rs_budget (bw_state self)) !! request) (Wal_InvalidTransition request));
          if (maximum_terminal_frame_bytes response_cap <? frame_size)%N
          then seal_with (Wal_RecordTooLarge frame_size) else mret tt
      | _ => mret tt
      end;
  next_length ← st_query (λ self,
    ok_or (checked_add_u64 (bw_length self) frame_size) (wal_too_large (u64_limit - 1)));
  protected_headroom ← match protected_terminal_headroom (bw_state self) headroom_change with
                       | Ok headroom => mret headroom
                       | Err error => seal_with error
                       end;
  projected_length ← st_query (λ _,
    ok_or (checked_add_u64 next_length protected_headroom) (wal_too_large (u64_limit - 1)));
  if (MAX_DURABLE_BROKER_WAL_BYTES <? projected_length)%N then seal_with (wal_too_large projected_length)
  else
    let frame := header ++ payload ++ le_bytes 8 (wal_checksum_parts header payload) in
    _ ← match wio_write io with
        | Some (written, error) =>
            _ ← st_modify (λ self, wal_with_file (bw_file self ++ take written frame) self);
            seal_with (Wal_DurabilityUncertain error)
        | None => st_modify (λ self, wal_with_file (bw_file self ++ frame) self)
        end;
    _ ← wal_validate_append_target (wio_after io);
    _ ← st_modify (wal_with_length next_length);
    st_modify (λ self, wal_with_state (rs_with_next (checked_add_u64 sequence 1) (bw_state self)) self).

(** A transition of the in-memory state. *)
Definition on_state (transition : RM unit) : WM unit := λ self,
  let '(r, state) := transition (bw_state self) in (r, wal_with_state state self).

Inductive DurableAcceptance :=
  | AcceptedNew
  | ExactDuplicate (request : DurableRequest).

Definition wal_accept (io : WalIo) (envelope : BrokerEnvelope) (response_cap : N) : WM DurableAcceptance :=
  _ ← st_query ensure_writable;
  self ← st_get;
  if negb (bool_decide (be_session envelope = dsc_session (rs_config (bw_state self))))
  then st_fail (Wal_InvalidRecord "request belongs to another durable session")
  else
    duplicate ← st_query (λ self, validate_duplicate (bw_state self) envelope response_cap);
    match duplicate with
    | Some request => mret (ExactDuplicate request)
    | None =>
        let expected := N.of_nat (length (rs_requests (bw_state self))) in
        if negb (be_sequence envelope =? expected)%N
        then st_fail (Wal_OutOfOrderSequence expected (be_sequence envelope))
        else if (dsc_replay_capacity (rs_config (bw_state self)) <=? expected)%N
        then st_fail Wal_RequestCapacityExhausted
        else
          _ ← wal_append io ACCEPT_KIND (encode_accept envelope response_cap) Preserve;
          _ ← on_state (apply_accept envelope response_cap);
          mret AcceptedNew
    end.

Definition wal_reserve (io : WalIo) (request : BrokerRequestId) : WM unit :=
  _ ← st_query ensure_writable;
  entry ← st_query (λ self, rs_request (bw_state self) request);
  _ ← st_query (λ _, check_reserve request entry);
  _ ← st_query (λ self, validate_reserve (rs_budget (bw_state self)) request (dr_response_cap entry)
        (dsc_budget_limits (rs_config (bw_state self))));
  _ ← wal_append io RESERVE_KIND request (AddHeadroom (dr_response_cap entry));
  on_state (apply_reserve request).

Definition wal_mark_retryable_budget (io : WalIo) (request : BrokerRequestId) : WM unit :=
  _ ← st_query ensure_writable;
  entry ← st_query (λ self, rs_request (bw_state self) request);
  _ ← st_query (λ _, check_retryable request entry);
  _ ← wal_append io RETRYABLE_BUDGET_KIND request Preserve;
  on_state (apply_retryable request).

(** [read_only_view]: the state it exposes. *)
Definition read_only_view (self : DurableBrokerWal) : WR RecoveredState :=
  if bw_sealed self then Err Wal_Sealed else Ok (bw_state self).

(** [DurableBrokerView::request]. *)
Definition view_request (state : RecoveredState) (request : BrokerRequestId) : option DurableRequest :=
  index ← rs_request_indexes state !! request;
  rs_requests state !! index.

(** The initial frame reaches the file and is synced. *)
Definition wal_create (config : DurableSessionConfig) : WR DurableBrokerWal :=
  frame ← encode_frame 0 INIT_KIND (encode_init config);
  Ok {| bw_file := frame; bw_state := RecoveredState_new config; bw_length := len frame;
        bw_sealed := false |}.

Section responses.
  Context (sha256 : str → str).

(** One direct payload, or the chunk sequence of a response beyond one frame. *)
Definition canonical_wire_payloads (response : CanonicalBrokerResponse) : WR (list str) :=
  match CanonicalBrokerResponse_encode response with
  | Ok payload => Ok [payload]
  | Err (Response_PayloadTooLarge _) =>
      chunks ← map_err Wal_ResponseChunk (chunks sha256 response);
      collect ((λ chunk, map_err Wal_ResponseChunk (chunk_encode chunk)) <$> chunks)
  | Err error => Err (Wal_Response error)
  end.

(** [from_chunks] never panics ([reassemble_total]); its [None] is not reachable. *)
Definition from_chunks (chunks : list CanonicalResponseChunk) : result ResponseChunkError CanonicalBrokerResponse :=
  default (Err EmptySequence) (reassemble_response_chunks sha256 chunks).

Definition decode_wire_payloads (wire_payloads : list str) : WR CanonicalBrokerResponse :=
  match wire_payloads with
  | [] => Err (Wal_InvalidRecord "terminal response has no wire payload")
  | first :: rest =>
      let chunked :=
        chunks ← collect ((λ payload, map_err Wal_ResponseChunk (chunk_decode payload)) <$> wire_payloads);
        map_err Wal_ResponseChunk (from_chunks chunks) in
      match rest, CanonicalBrokerResponse_decode first with
      | [], Ok response => Ok response
      | _, _ => chunked
      end
  end.

Definition from_wire_payloads (request : BrokerRequestId) (wire_payloads : list str)
    : WR CanonicalBrokerResponse :=
  response ← decode_wire_payloads wire_payloads;
  if negb (bool_decide (rsp_request response = request))
  then Err (Wal_ResponseRequestMismatch request (rsp_request response))
  else
    canonical ← canonical_wire_payloads response;
    if negb (bool_decide (canonical = wire_payloads))
    then Err (Wal_InvalidRecord "terminal response payloads are not the canonical wire sequence")
    else Ok response.

Definition decode_final (payload : str)
    : WR (BrokerRequestId * BudgetSettlement * CanonicalBrokerResponse) :=
  if (len payload <? FINAL_PREFIX_LEN)%N then Err (Wal_InvalidRecord "final record is too short")
  else
    '(request, cursor) ← wal_read_fixed 16 payload 0;
    '(settlement_kind, cursor) ← wal_read_byte payload cursor;
    '(reserved, cursor) ← wal_read_fixed 7 payload cursor;
    if negb (bool_decide (reserved = replicate 7 (N2b 0)))
    then Err (Wal_InvalidRecord "final record reserved bits are non-zero")
    else
      '(response_bytes, cursor) ← wal_read_uint 8 payload cursor;
      '(wire_payload_count, cursor) ← wal_read_uint 4 payload cursor;
      if (wire_payload_count =? 0)%N then Err (Wal_InvalidRecord "final response has no wire payload")
      else
        settlement ← decode_settlement settlement_kind response_bytes;
        let remaining := (len payload - cursor)%N in
        if (MAX_FINAL_WIRE_PAYLOADS <? wire_payload_count)%N || (remaining / 4 <? wire_payload_count)%N
        then Err (Wal_RecordTooLarge wire_payload_count)
        else
          '(wire_payloads, cursor) ← read_wire_payloads (N.to_nat wire_payload_count) payload cursor;
          if negb (cursor =? len payload)%N
          then Err (Wal_InvalidRecord "final response payload sequence has trailing bytes")
          else
            response ← from_wire_payloads request wire_payloads;
            Ok (request, settlement, response).

Definition wal_finalize (io : WalIo) (request : BrokerRequestId) (response : CanonicalBrokerResponse)
    (settlement : BudgetSettlement) : WM unit :=
  _ ← st_query ensure_writable;
  if negb (bool_decide (rsp_request response = request))
  then st_fail (Wal_ResponseRequestMismatch request (rsp_request response))
  else
    entry ← st_query (λ self, rs_request (bw_state self) request);
    _ ← st_query (λ _, check_final request settlement entry);
    let releases_headroom := bool_decide (is_Some (dr_reservation entry)) in
    _ ← st_query (λ self, validate_settlement (rs_budget (bw_state self)) request settlement);
    wire_payloads ← st_query (λ _, canonical_wire_payloads response);
    payload ← st_query (λ _, encode_final request settlement wire_payloads);
    let headroom := if releases_headroom then Release request else Preserve in
    _ ← wal_append io FINAL_KIND payload headroom;
    on_state (apply_final request settlement response).

(** ** Recovery *)

Inductive TailPolicy := RejectTail | RepairTail.

Definition validate_frame_kind (kind expected_sequence : N) : WR unit :=
  if (kind =? INIT_KIND)%N then
    if (expected_sequence =? 0)%N then Ok tt else Err (Wal_InvalidRecord "session record is repeated")
  else if ((kind =? ACCEPT_KIND)%N || (kind =? RESERVE_KIND)%N || (kind =? RETRYABLE_BUDGET_KIND)%N
           || (kind =? FINAL_KIND)%N) && (0 <? expected_sequence)%N
  then Ok tt
  else Err (Wal_InvalidRecord "frame kind is unknown").

Definition validate_frame_shape (kind expected_sequence payload_length : N) : WR unit :=
  _ ← validate_frame_kind kind expected_sequence;
  let valid_length :=
    if (kind =? INIT_KIND)%N then (payload_length =? INIT_PAYLOAD_LEN)%N
    else if (kind =? ACCEPT_KIND)%N then (payload_length =? ACCEPT_PAYLOAD_LEN)%N
    else if (kind =? RESERVE_KIND)%N || (kind =? RETRYABLE_BUDGET_KIND)%N
    then (payload_length =? REQUEST_PAYLOAD_LEN)%N
    else if (kind =? FINAL_KIND)%N
    then (FINAL_PREFIX_LEN <=? payload_length)%N && (payload_length <=? MAX_RECORD_PAYLOAD_BYTES)%N
    else false in
  if negb valid_length then Err (Wal_InvalidRecord "frame kind and payload length are inconsistent")
  else Ok tt.

(** [bytes] is shorter than a header: its fields must agree as far as they go. *)
Definition validate_partial_header (bytes : str) (expected_sequence : N) : WR unit :=
  let magic_length := Nat.min (length bytes) 8 in
  if negb (bool_decide (take magic_length bytes = take magic_length WAL_MAGIC)) then Err Wal_InvalidMagic
  else
    let version := from_le_bytes (default [] (get_range bytes 8 10)) in
    if (10 <=? len bytes)%N && negb (version =? WAL_VERSION)%N then Err (Wal_UnsupportedVersion version)
    else
      _ ← match bytes !! 10 with
          | Some kind => validate_frame_kind (b2N kind) expected_sequence
          | None => Ok tt
          end;
      _ ← match bytes !! 11 with
          | Some reserved =>
              if negb (b2N reserved =? 0)%N then Err (Wal_InvalidRecord "frame reserved bits are non-zero")
              else Ok tt
          | None => Ok tt
          end;
      let sequence := from_le_bytes (default [] (get_range bytes 12 20)) in
      if (20 <=? len bytes)%N && negb (sequence =? expected_sequence)%N
      then Err (Wal_SequenceMismatch expected_sequence sequence)
      else Ok tt.

(** A complete valid frame of the given sequence at [frame_start]. *)
Definition complete_frame_at (bytes : str) (expected_sequence frame_start : N) : bool :=
  bool_decide (get_range bytes frame_start (frame_start + 8) = Some WAL_MAGIC) &&
  match get_range bytes frame_start (frame_start + WAL_HEADER_LEN) with
  | None => false
  | Some header =>
      let field a b := from_le_bytes (default [] (get_range header a b)) in
      let sequence := field 12%N 20%N in
      let payload_length := field 20%N 24%N in
      (field 8%N 10%N =? WAL_VERSION)%N && (field 11%N 12%N =? 0)%N && (sequence =? expected_sequence)%N
      && (payload_length <=? MAX_RECORD_PAYLOAD_BYTES)%N
      && is_ok (validate_frame_shape (field 10%N 11%N) sequence payload_length)
      && match get_range bytes frame_start
                 (frame_start + (WAL_HEADER_LEN + payload_length + WAL_CHECKSUM_LEN)) with
         | None => false
         | Some frame =>
             let payload_end := (WAL_HEADER_LEN + payload_length)%N in
             (from_le_bytes (drop (N.to_nat payload_end) frame)
              =? wal_checksum (take (N.to_nat payload_end) frame))%N
         end
  end.

(** Whether such a frame starts anywhere from [start] on. *)
Definition has_complete_following_frame (bytes : str) (start expected_sequence : N) : bool :=
  match get_range bytes start (len bytes) with
  | None => false
  | Some search =>
      existsb (λ relative, complete_frame_at bytes expected_sequence (start + N.of_nat relative))
        (seq 0 (length search - 8 + 1))
  end.

Definition recovered_state (state : option RecoveredState) : WR RecoveredState :=
  ok_or state (Wal_InvalidRecord "mutation appears before the session record").

Definition run_recovered (transition : RM unit) (state : RecoveredState) : WR (option RecoveredState) :=
  let '(r, state) := transition state in _ ← r; Ok (Some state).

Definition apply_recovered_frame (state : option RecoveredState) (kind expected_sequence : N) (payload : str)
    : WR (option RecoveredState) :=
  if (kind =? INIT_KIND)%N then
    if (expected_sequence =? 0)%N then config ← decode_init payload; Ok (Some (RecoveredState_new config))
    else Err (Wal_InvalidRecord "session record is repeated")
  else if (kind =? ACCEPT_KIND)%N then
    recovered ← ok_or state (Wal_InvalidRecord "request appears before the session record");
    '(sequence, request, payload_hash, response_cap) ← decode_accept payload;
    run_recovered (apply_accept_parts sequence request payload_hash response_cap) recovered
  else if (kind =? RESERVE_KIND)%N then
    request ← decode_request payload;
    recovered ← recovered_state state;
    run_recovered (apply_reserve request) recovered
  else if (kind =? RETRYABLE_BUDGET_KIND)%N then
    request ← decode_request payload;
    recovered ← recovered_state state;
    run_recovered (apply_retryable request) recovered
  else if (kind =? FINAL_KIND)%N then
    '(request, settlement, response) ← decode_final payload;
    recovered ← recovered_state state;
    run_recovered (apply_final request settlement response) recovered
  else Err (Wal_InvalidRecord "frame kind is unknown").

Record ParsedWal := { pw_state : RecoveredState; pw_verified_length : N }.

Definition finish_parsed_wal (state : option RecoveredState) (expected_sequence verified_length : N)
    : WR ParsedWal :=
  state ← ok_or state (Wal_InvalidRecord "WAL has no session record");
  Ok {| pw_state := rs_with_next (Some expected_sequence) state; pw_verified_length := verified_length |}.

Definition finish_torn_tail (state : option RecoveredState) (expected_sequence verified_length : N)
    (tail_policy : TailPolicy) : WR ParsedWal :=
  match tail_policy with
  | RejectTail => Err Wal_TruncatedRecord
  | RepairTail => finish_parsed_wal state expected_sequence verified_length
  end.

(** One iteration: the next frame is applied, or the log ends in a torn tail. *)
Inductive frame_step :=
  | Advance (offset : N) (state : option RecoveredState)
  | TornTail.

Definition wal_parse_frame (bytes : str) (offset expected_sequence : N) (state : option RecoveredState)
    : WR frame_step :=
  let frame_start := offset in
  if (len bytes - frame_start <? WAL_HEADER_LEN)%N then
    _ ← validate_partial_header (drop (N.to_nat frame_start) bytes) expected_sequence;
    Ok TornTail
  else if negb (bool_decide (get_range bytes offset (offset + 8) = Some WAL_MAGIC)) then Err Wal_InvalidMagic
  else
    '(version, offset) ← wal_read_uint 2 bytes (offset + 8)%N;
    if negb (version =? WAL_VERSION)%N then Err (Wal_UnsupportedVersion version)
    else
      '(kind, offset) ← wal_read_byte bytes offset;
      '(reserved, offset) ← wal_read_byte bytes offset;
      if negb (reserved =? 0)%N then Err (Wal_InvalidRecord "frame reserved bits are non-zero")
      else
        '(sequence, offset) ← wal_read_uint 8 bytes offset;
        if negb (sequence =? expected_sequence)%N
        then Err (Wal_SequenceMismatch expected_sequence sequence)
        else
          '(payload_length, offset) ← wal_read_uint 4 bytes offset;
          if (MAX_RECORD_PAYLOAD_BYTES <? payload_length)%N then Err (Wal_RecordTooLarge payload_length)
          else
            _ ← validate_frame_shape kind expected_sequence payload_length;
            let frame_length := (WAL_HEADER_LEN + payload_length + WAL_CHECKSUM_LEN)%N in
            if (len bytes - frame_start <? frame_length)%N then
              if has_complete_following_frame bytes (frame_start + WAL_HEADER_LEN)
                   (saturating_add expected_sequence 1)
              then Err Wal_TruncatedRecord
              else Ok TornTail
            else
              let payload_end := (offset + payload_length)%N in
              let payload := default [] (get_range bytes offset payload_end) in
              '(stored_checksum, offset) ← wal_read_uint 8 bytes payload_end;
              if negb (stored_checksum
                       =? wal_checksum (default [] (get_range bytes frame_start payload_end)))%N
              then Err Wal_ChecksumMismatch
              else
                state ← apply_recovered_frame state kind expected_sequence payload;
                Ok (Advance offset state).

(** The recovery loop; [None] is fuel exhaustion. *)
Fixpoint parse_wal_loop (fuel : nat) (bytes : str) (tail_policy : TailPolicy) (offset expected_sequence : N)
    (state : option RecoveredState) : option (WR ParsedWal) :=
  if negb (offset <? len bytes)%N then Some (finish_parsed_wal state expected_sequence offset)
  else match fuel with
  | O => None
  | S fuel =>
      match wal_parse_frame bytes offset expected_sequence state with
      | Err error => Some (Err error)
      | Ok TornTail => Some (finish_torn_tail state expected_sequence offset tail_policy)
      | Ok (Advance offset state) =>
          match checked_add_u64 expected_sequence 1 with
          | None => Some (Err Wal_SequenceExhausted)
          | Some next => parse_wal_loop fuel bytes tail_policy offset next state
          end
      end
  end.

Definition parse_wal (bytes : str) (tail_policy : TailPolicy) : WR ParsedWal :=
  if (MAX_DURABLE_BROKER_WAL_BYTES <? len bytes)%N then Err (wal_too_large (len bytes))
  else default (Err Wal_TruncatedRecord) (parse_wal_loop (length bytes) bytes tail_policy 0 0 None).

Definition validate_recovered_headroom (state : RecoveredState) (wal_length : N) : WR unit :=
  headroom ← map_fold (λ _ response_cap total, add_headroom total response_cap) (Ok 0%N)
               (bst_active (rs_budget state));
  projected ← ok_or (checked_add_u64 wal_length headroom) (wal_too_large (u64_limit - 1));
  if (MAX_DURABLE_BROKER_WAL_BYTES <? projected)%N then Err (wal_too_large projected) else Ok tt.

(** [read_and_parse] under [TailPolicy::Repair]: the parsed state and the file, cut to
    its verified length; [repair] is the error of a failing truncation. *)
Definition read_and_repair (bytes : str) (repair : option N) : WR (RecoveredState * str) :=
  if (MAX_DURABLE_BROKER_WAL_BYTES <? len bytes)%N then Err (wal_too_large (len bytes))
  else
    parsed ← parse_wal bytes RepairTail;
    if (pw_verified_length parsed <? len bytes)%N then
      match repair with
      | Some error => Err (Wal_DurabilityUncertain error)
      | None => Ok (pw_state parsed, take (N.to_nat (pw_verified_length parsed)) bytes)
      end
    else Ok (pw_state parsed, bytes).

(** [DurableBrokerWal::open] on a file that passes the ownership and lock checks. *)
Definition wal_open (bytes : str) (repair : option N) (expected : DurableSessionConfig)
    : WR DurableBrokerWal :=
  '(state, file) ← read_and_repair bytes repair;
  _ ← validate_recovered_headroom state (len file);
  if negb (bool_decide (rs_config state = expected))
  then Err (Wal_ConfigurationMismatch expected (rs_config state))
  else Ok {| bw_file := file; bw_state := state; bw_length := len file; bw_sealed := false |}.

(** [DurableBrokerView::open]: the state of a log that must end in a whole frame. *)
Definition view_open (bytes : str) : WR RecoveredState :=
  if (MAX_DURABLE_BROKER_WAL_BYTES <? len bytes)%N then Err (wal_too_large (len bytes))
  else
    parsed ← parse_wal bytes RejectTail;
    if (pw_verified_length parsed <? len bytes)%N then Err Wal_TruncatedRecord else Ok (pw_state parsed).
End responses.
