(* ===== verification/BrokerWalInvariant.v ===== *)
(** * Invariant of the durable broker state

    The budget counters of the log mirror the protocol's [SessionBudget] call by
    call, the two request indexes agree, and every transition preserves both. *)

From S2P Require Import Prelude Bytes Budget ReplayGuard Cbor Response ResponseChunk ResponseProps BrokerWalState.

(** ** The protocol budget the counters stand for *)

Definition mirror_active (active : gmap BrokerRequestId N) : gmap BrokerRequestId ResponseReservation :=
  map_imap (λ request cap, Some {| rr_request := request; rr_max_response_bytes := cap |}) active.

Definition mirror (limits : SessionBudgetLimits) (b : BudgetState) : SessionBudget :=
  {| sb_limits := limits; sb_started := bst_started_requests b; sb_committed := bst_committed_response_bytes b;
     sb_reserved := bst_reserved_response_bytes b; sb_active := mirror_active (bst_active b) |}.

Lemma mirror_lookup active request :
  mirror_active active !! request =
  (λ cap, {| rr_request := request; rr_max_response_bytes := cap |}) <$> active !! request.
Proof. unfold mirror_active. rewrite map_lookup_imap. by destruct (active !! request). Qed.

Lemma mirror_insert active request cap :
  mirror_active (<[request := cap]> active) =
  <[request := {| rr_request := request; rr_max_response_bytes := cap |}]> (mirror_active active).
Proof.
  apply map_eq. intros r. rewrite mirror_lookup. destruct (decide (r = request)) as [->|Hne].
  - by rewrite !lookup_insert_eq.
  - by rewrite !lookup_insert_ne, mirror_lookup by done.
Qed.

Lemma mirror_delete active request :
  mirror_active (delete request active) = delete request (mirror_active active).
Proof.
  apply map_eq. intros r. rewrite mirror_lookup. destruct (decide (r = request)) as [->|Hne].
  - by rewrite !lookup_delete_eq.
  - by rewrite !lookup_delete_ne, mirror_lookup by done.
Qed.

Lemma mirror_size active : size (mirror_active active) = size active.
Proof.
  rewrite <- !size_dom. f_equal. apply set_eq. intros r. rewrite !elem_of_dom, mirror_lookup.
  by rewrite fmap_is_Some.
Qed.

(** Reserving is [SessionBudget::start], error for error. *)
Lemma reserve_is_start limits b request cap :
  SessionBudget_start request cap (mirror limits b) =
  match validate_reserve b request cap limits with
  | Ok _ => (Ok {| rr_request := request; rr_max_response_bytes := cap |},
             mirror limits (budget_apply_reserve request cap b))
  | Err (Wal_Budget e) => (Err e, mirror limits b)
  | Err _ => (Err AccountingInvariantBroken, mirror limits b)
  end.
Proof.
  unfold SessionBudget_start, validate_reserve, active_len. unfold_st. cbn [mirror sb_active sb_limits sb_started
    sb_committed sb_reserved]. rewrite mirror_lookup, mirror_size.
  destruct (bst_active b !! request) eqn:Ha; cbn [fmap option_fmap option_map].
  { rewrite !bool_decide_eq_true_2 by eauto. done. }
  rewrite !bool_decide_eq_false_2 by (by intros []).
  destruct (_ <=? _)%N; [done|]. destruct (_ <=? _)%N; [done|].
  destruct (checked_add_u64 _ _) as [used|]; cbn [ok_or mbind result_bind]; [|done].
  destruct (checked_sub_u64 _ _) as [remaining|]; cbn [ok_or mbind result_bind]; [|done].
  destruct (_ <? _)%N; [done|]. change (sb_started (mirror limits b)) with (bst_started_requests b).
  change (sb_reserved (mirror limits b)) with (bst_reserved_response_bytes b).
  destruct (checked_add_u64 (bst_started_requests b) 1) as [s|] eqn:Hs; cbn [ok_or mbind option_bind result_bind]; [|done].
  destruct (checked_add_u64 (bst_reserved_response_bytes b) cap) as [r|] eqn:Hr; cbn [ok_or mbind result_bind]; [|done].
  apply checked_add_u64_Some in Hs as [-> _]. apply checked_add_u64_Some in Hr as [-> _].
  unfold mirror, budget_apply_reserve. cbn. by rewrite mirror_insert.
Qed.

(** Completing is [SessionBudget::complete]. *)
Lemma settle_is_complete limits b request received :
  SessionBudget_complete request received (mirror limits b) =
  match validate_settlement b request (SettleComplete received) with
  | Ok _ => (Ok tt, mirror limits (budget_apply_settlement request (SettleComplete received) b))
  | Err (Wal_Budget e) => (Err e, mirror limits b)
  | Err _ => (Err AccountingInvariantBroken, mirror limits b)
  end.
Proof.
  unfold SessionBudget_complete, validate_settlement. unfold_st. cbn [mirror sb_active sb_limits sb_started
    sb_committed sb_reserved]. rewrite mirror_lookup.
  destruct (bst_active b !! request) as [cap|] eqn:Ha; cbn [fmap option_fmap option_map ok_or rr_max_response_bytes mbind result_bind]; [|done].
  destruct (_ <? _)%N; [done|]. change (sb_committed (mirror limits b)) with (bst_committed_response_bytes b).
  change (sb_reserved (mirror limits b)) with (bst_reserved_response_bytes b).
  destruct (checked_add_u64 _ _) as [c|] eqn:Hc; cbn [ok_or mbind option_bind result_bind]; [|done].
  destruct (checked_sub_u64 _ _) as [r|] eqn:Hr; cbn [ok_or mbind result_bind]; [|done].
  apply checked_add_u64_Some in Hc as [-> _]. apply checked_sub_u64_Some in Hr as [-> _].
  unfold mirror, budget_apply_settlement. rewrite ?Ha. cbn. rewrite ?Ha. by rewrite mirror_delete.
Qed.

(** Aborting is [SessionBudget::abort] while the accounting holds. *)
Lemma settle_is_abort limits b request :
  budget_inv (mirror limits b) →
  SessionBudget_abort request (mirror limits b) =
  match validate_settlement b request SettleAbort with
  | Ok _ => (Ok tt, mirror limits (budget_apply_settlement request SettleAbort b))
  | Err _ => (Err (UnknownReservation request), mirror limits b)
  end.
Proof.
  intros I. unfold validate_settlement.
  destruct (abort_result _ I request) as [(r & Hr & ->)|[-> Hr]];
    cbn [mirror sb_active] in Hr; rewrite mirror_lookup in Hr;
    destruct (bst_active b !! request) as [cap|] eqn:Ha; try done.
  injection Hr as <-. rewrite bool_decide_eq_true_2 by eauto. cbn [negb rr_max_response_bytes].
  unfold released_budget, mirror, budget_apply_settlement. rewrite ?Ha. cbn. rewrite ?Ha. by rewrite mirror_delete, N.add_0_r.
Qed.

(** A settlement keeps the accounting. *)
Lemma settlement_inv limits b request settlement :
  budget_inv (mirror limits b) → limits_wf limits → validate_settlement b request settlement = Ok tt →
  budget_inv (mirror limits (budget_apply_settlement request settlement b)).
Proof.
  intros I L Hv. destruct settlement as [| |received].
  - done.
  - pose proof (settle_is_abort limits b request I) as Heq. rewrite Hv in Heq.
    pose proof (run_budget_op_inv (BAbort request) _ I L) as [HI _]. cbn in HI. by rewrite Heq in HI.
  - pose proof (settle_is_complete limits b request received) as Heq. rewrite Hv in Heq.
    pose proof (run_budget_op_inv (BComplete request received) _ I L) as [HI _]. cbn in HI. by rewrite Heq in HI.
Qed.

Lemma reserve_inv limits b request cap :
  budget_inv (mirror limits b) → limits_wf limits → validate_reserve b request cap limits = Ok tt →
  budget_inv (mirror limits (budget_apply_reserve request cap b)).
Proof.
  intros I L Hv. pose proof (reserve_is_start limits b request cap) as Heq. rewrite Hv in Heq.
  pose proof (run_budget_op_inv (BStart request cap) _ I L) as [HI _]. cbn in HI. by rewrite Heq in HI.
Qed.

(** ** Well-formed states *)

Definition config_wf (config : DurableSessionConfig) : Prop :=
  len (dsc_session config) = SESSION_ID_BYTES ∧ (0 < dsc_replay_capacity config < u64_limit)%N ∧
  limits_wf (dsc_budget_limits config) ∧ (sbl_concurrent (dsc_budget_limits config) < u64_limit)%N.

(** What an entry's fields may be, given the active reservations. *)
Definition entry_wf (active : gmap BrokerRequestId N) (i : nat) (e : DurableRequest) : Prop :=
  dr_sequence e = N.of_nat i ∧ len (dr_request e) = REQUEST_ID_BYTES ∧
  len (dr_payload_hash e) = PAYLOAD_HASH_BYTES ∧ (dr_response_cap e < u64_limit)%N ∧
  dr_reservation e = active !! dr_request e ∧
  (∀ cap, dr_reservation e = Some cap → cap = dr_response_cap e ∧ dr_phase e = AcceptedPending) ∧
  match dr_phase e with
  | Final response => response_wf response ∧ rsp_request response = dr_request e ∧ is_Some (dr_final_settlement e)
  | _ => dr_final_settlement e = None
  end.

Record state_wf (s : RecoveredState) : Prop := {
  sw_config : config_wf (rs_config s);
  sw_index : ∀ r i, rs_request_indexes s !! r = Some i ↔ ∃ e, rs_requests s !! i = Some e ∧ dr_request e = r;
  sw_entries : ∀ i e, rs_requests s !! i = Some e → entry_wf (bst_active (rs_budget s)) i e;
  sw_active : ∀ r, is_Some (bst_active (rs_budget s) !! r) → is_Some (rs_request_indexes s !! r);
  sw_capacity : (N.of_nat (length (rs_requests s)) <= dsc_replay_capacity (rs_config s))%N;
  sw_budget : budget_inv (mirror (dsc_budget_limits (rs_config s)) (rs_budget s));
  sw_events : restore_budget s = Ok (mirror (dsc_budget_limits (rs_config s)) (rs_budget s));
}.

Lemma state_wf_next next s : state_wf s → state_wf (rs_with_next next s).
Proof. by intros [? ? ? ? ? ? ?]; split. Qed.

Lemma new_state_wf config : config_wf config → state_wf (RecoveredState_new config).
Proof.
  intros Hc. split; cbn; try done.
  - intros r i. rewrite lookup_empty. split; [done|]. by intros (e & ? & _).
  - intros r [c Hc']. by rewrite lookup_empty in Hc'.
  - destruct Hc as (_ & ? & _). lia.
  - split; unfold active_len; cbn; rewrite ?mirror_size, ?map_size_empty; try lia. done.
Qed.

Lemma rs_find_wf s r :
  state_wf s →
  match rs_request_indexes s !! r with
  | None => rs_find s r = Err (Wal_UnknownRequest r)
  | Some i => ∃ e, rs_find s r = Ok (i, e) ∧ rs_requests s !! i = Some e ∧ dr_request e = r
  end.
Proof.
  intros Hw. unfold rs_find. destruct (rs_request_indexes s !! r) as [i|] eqn:Hi; [|done].
  apply (sw_index _ Hw) in Hi as (e & He & Hr). exists e. cbn. by rewrite He.
Qed.

Lemma rs_request_ok s r e :
  state_wf s → rs_request s r = Ok e →
  ∃ i, rs_request_indexes s !! r = Some i ∧ rs_requests s !! i = Some e ∧ dr_request e = r ∧ rs_find s r = Ok (i, e).
Proof.
  intros Hw. pose proof (rs_find_wf s r Hw) as Hf. unfold rs_request.
  destruct (rs_request_indexes s !! r) as [i|]; [|by rewrite Hf].
  destruct Hf as (e' & -> & He & Hr). intros [= <-]. eauto 10.
Qed.

Lemma replay_events_snoc events event b limits :
  replay_events events (SessionBudget_new limits) = Ok b →
  replay_events (events ++ [event]) (SessionBudget_new limits) =
  map_err (λ _, Wal_InvalidRecord "budget history cannot reconstruct the session budget") (replay_event event b).
Proof.
  generalize (SessionBudget_new limits). induction events as [|ev events IH]; intros b0; cbn.
  - intros [= ->]. by destruct (replay_event event b).
  - destruct (replay_event ev b0) as [b1|]; cbn; [|done]. apply IH.
Qed.

(** Replacing one entry together with the budget. *)
Lemma update_wf s r i e e' b events next :
  state_wf s → rs_request_indexes s !! r = Some i → rs_requests s !! i = Some e →
  dr_request e' = r → entry_wf (bst_active b) i e' →
  (∀ r', r' ≠ r → bst_active b !! r' = bst_active (rs_budget s) !! r') →
  budget_inv (mirror (dsc_budget_limits (rs_config s)) b) →
  replay_events events (SessionBudget_new (dsc_budget_limits (rs_config s))) =
    Ok (mirror (dsc_budget_limits (rs_config s)) b) →
  state_wf {| rs_config := rs_config s; rs_requests := <[i := e']> (rs_requests s);
              rs_request_indexes := rs_request_indexes s; rs_budget := b; rs_budget_events := events;
              rs_next_wal_sequence := next |}.
Proof.
  intros Hw Hi He Hr He' Hact Hinv Hrep. destruct Hw as [Hc Hidx Hent Hin Hcap _ _].
  pose proof (lookup_lt_Some _ _ _ He) as Hlt. split; cbn; try done.
  - intros r' j. rewrite Hidx. split; intros (d & Hd & Hrd).
    + destruct (decide (j = i)) as [->|Hne].
      * exists e'. rewrite list_lookup_insert_eq by done. split; [done|].
        apply Hidx in Hi as (e1 & He1 & <-). congruence.
      * exists d. by rewrite list_lookup_insert_ne.
    + apply list_lookup_insert_Some in Hd as [(<- & <- & _)|[Hne Hd]]; [|eauto].
      apply Hidx in Hi as (e1 & He1 & Hr1). exists e1. split; [done|congruence].
  - intros j d Hd. apply list_lookup_insert_Some in Hd as [(<- & <- & _)|[Hne Hd]]; [done|].
    specialize (Hent j d Hd). unfold entry_wf in *. destruct Hent as (? & ? & ? & ? & Hres & ? & ?).
    split_and!; try done. rewrite Hres. symmetry. apply Hact. intros Heq.
    assert (rs_request_indexes s !! r = Some j) as Hj by (apply Hidx; eauto). congruence.
  - intros r' Hr'. destruct (decide (r' = r)) as [->|Hne]; [eauto|]. apply Hin. by rewrite <- Hact.
  - by rewrite length_insert.
Qed.

(** ** The transitions *)

(** The state after overwriting the entry of [r]. *)
Definition put_entry (r : BrokerRequestId) (e : DurableRequest) (s : RecoveredState) : RecoveredState :=
  rs_with_requests (<[default 0 (rs_request_indexes s !! r) := e]> (rs_requests s)) s.

Definition reserved_state (r : BrokerRequestId) (e : DurableRequest) (s : RecoveredState) : RecoveredState :=
  put_entry r (entry_with AcceptedPending (Some (dr_response_cap e)) None e)
    (rs_push_event (EventReserve r (dr_response_cap e))
       (rs_with_budget (budget_apply_reserve r (dr_response_cap e) (rs_budget s)) s)).

Definition retryable_state (r : BrokerRequestId) (e : DurableRequest) (s : RecoveredState) : RecoveredState :=
  put_entry r (entry_with RetryableBudget (dr_reservation e) None e) s.

Definition final_state (r : BrokerRequestId) (settlement : BudgetSettlement)
    (response : CanonicalBrokerResponse) (e : DurableRequest) (s : RecoveredState) : RecoveredState :=
  put_entry r (entry_with (Final response) None (Some settlement) e)
    (match settlement_event r settlement with Some event => rs_push_event event | None => id end
       (rs_with_budget (budget_apply_settlement r settlement (rs_budget s)) s)).

Definition accepted_state (sequence : N) (r : BrokerRequestId) (hash : PayloadHash) (cap : N)
    (s : RecoveredState) : RecoveredState :=
  rs_with_indexes (<[r := length (rs_requests s)]> (rs_request_indexes s))
    (rs_with_requests (rs_requests s ++ [accepted_request sequence r hash cap]) s).

Lemma apply_accept_parts_ok sequence r hash cap s :
  sequence = N.of_nat (length (rs_requests s)) → (sequence < dsc_replay_capacity (rs_config s))%N →
  rs_request_indexes s !! r = None →
  apply_accept_parts sequence r hash cap s = (Ok tt, accepted_state sequence r hash cap s).
Proof.
  intros -> Hc Hr. unfold apply_accept_parts. unfold_st. rewrite N.eqb_refl. cbn [negb].
  destruct (N.leb_spec (dsc_replay_capacity (rs_config s)) (N.of_nat (length (rs_requests s)))); [lia|].
  by rewrite Hr, bool_decide_eq_false_2 by (by intros []).
Qed.

Lemma rs_request_find s r e :
  rs_request s r = Ok e →
  rs_find s r = Ok (default 0 (rs_request_indexes s !! r), e).
Proof.
  unfold rs_request, rs_find. destruct (rs_request_indexes s !! r) as [i|]; cbn; [|done].
  destruct (rs_requests s !! i) as [d|]; cbn; [|done]. by intros [= <-].
Qed.

Lemma apply_reserve_ok r e s :
  rs_request s r = Ok e → check_reserve r e = Ok tt →
  validate_reserve (rs_budget s) r (dr_response_cap e) (dsc_budget_limits (rs_config s)) = Ok tt →
  apply_reserve r s = (Ok tt, reserved_state r e s).
Proof.
  intros Hr Hc Hv. unfold apply_reserve, rs_update. unfold_st. rewrite Hr, Hc, Hv.
  unfold rs_find. cbn. pose proof (rs_request_find _ _ _ Hr) as Hf. unfold rs_find in Hf. by rewrite Hf.
Qed.

Lemma apply_retryable_ok r e s :
  rs_request s r = Ok e → check_retryable r e = Ok tt → apply_retryable r s = (Ok tt, retryable_state r e s).
Proof.
  intros Hr Hc. unfold apply_retryable, rs_update. unfold_st. rewrite Hr, Hc.
  by rewrite (rs_request_find _ _ _ Hr).
Qed.

Lemma apply_final_ok r settlement response e s :
  rs_request s r = Ok e → check_final r settlement e = Ok tt →
  validate_settlement (rs_budget s) r settlement = Ok tt →
  apply_final r settlement response s = (Ok tt, final_state r settlement response e s).
Proof.
  intros Hr Hc Hv. unfold apply_final, rs_update. unfold_st. rewrite Hr, Hc, Hv.
  pose proof (rs_request_find _ _ _ Hr) as Hf. unfold rs_find in *.
  destruct settlement; cbn; by rewrite Hf.
Qed.

Lemma accepted_state_wf sequence r hash cap s :
  state_wf s → sequence = N.of_nat (length (rs_requests s)) →
  (sequence < dsc_replay_capacity (rs_config s))%N → rs_request_indexes s !! r = None →
  len r = REQUEST_ID_BYTES → len hash = PAYLOAD_HASH_BYTES → (cap < u64_limit)%N →
  state_wf (accepted_state sequence r hash cap s).
Proof.
  intros [Hc Hidx Hent Hin Hcap Hinv Hev] -> Hlt Hr Hlr Hlh Hlc.
  assert (bst_active (rs_budget s) !! r = None) as Hna.
  { apply eq_None_not_Some. intros Hs. apply Hin in Hs as [? Hs]. congruence. }
  split; cbn; try done.
  - intros r' i. destruct (decide (r' = r)) as [->|Hne].
    + rewrite lookup_insert_eq. split.
      * intros [= <-]. eexists. rewrite lookup_app_r, Nat.sub_diag by done. cbn. done.
      * intros (e & He & Hre). apply lookup_app_Some in He as [He|[Hle He]].
        { assert (rs_request_indexes s !! r = Some i) by (apply Hidx; eauto). congruence. }
        apply list_lookup_singleton_Some in He as [Hz _]. f_equal. lia.
    + rewrite lookup_insert_ne, Hidx by done. split; intros (e & He & Hre).
      * exists e. split; [|done]. by apply lookup_app_l_Some.
      * exists e. apply lookup_app_Some in He as [He|[Hle He]]; [done|].
        apply list_lookup_singleton_Some in He as [_ <-]. cbn in Hre. congruence.
  - intros i e He. apply lookup_app_Some in He as [He|[Hle He]]; [by apply Hent|].
    apply list_lookup_singleton_Some in He as [Hz <-].
    unfold entry_wf. cbn. rewrite Hna. split_and!; try done. lia.
  - intros r' Hr'. destruct (decide (r' = r)) as [->|Hne]; [rewrite lookup_insert_eq; eauto|].
    rewrite lookup_insert_ne by done. by apply Hin.
  - rewrite length_app. cbn. lia.
Qed.

Lemma check_reserve_ok r e : check_reserve r e = Ok tt ↔ is_final (dr_phase e) = false ∧ dr_reservation e = None.
Proof.
  unfold check_reserve. destruct (is_final (dr_phase e)); cbn; [naive_solver|].
  case_bool_decide as H; [destruct H as [? ->]; naive_solver|]. apply eq_None_not_Some in H. naive_solver.
Qed.

Lemma validate_reserve_fresh b r cap limits :
  validate_reserve b r cap limits = Ok tt → bst_active b !! r = None.
Proof. unfold validate_reserve. case_bool_decide as H; [done|]. intros _. by apply eq_None_not_Some. Qed.

Lemma not_final_settlement active i e :
  entry_wf active i e → is_final (dr_phase e) = false → dr_final_settlement e = None.
Proof. intros (_ & _ & _ & _ & _ & _ & Hf) Hn. by destruct (dr_phase e). Qed.

Lemma reserved_state_wf r e s :
  state_wf s → rs_request s r = Ok e → check_reserve r e = Ok tt →
  validate_reserve (rs_budget s) r (dr_response_cap e) (dsc_budget_limits (rs_config s)) = Ok tt →
  state_wf (reserved_state r e s).
Proof.
  intros Hw Hr Hc Hv. destruct (rs_request_ok _ _ _ Hw Hr) as (i & Hi & He & Hre & _).
  pose proof (sw_entries _ Hw _ _ He) as Hent. apply check_reserve_ok in Hc as [Hnf Hnr].
  unfold reserved_state, put_entry. cbn. rewrite Hi. cbn. apply (update_wf s r i e); try done.
  - pose proof (not_final_settlement _ _ _ Hent Hnf) as Hns. destruct Hent as (? & ? & ? & ? & _ & _ & _).
    unfold entry_wf, entry_with. cbn. rewrite Hre, lookup_insert_eq. split_and!; try done; [by rewrite <- Hre|].
    by intros c [= <-].
  - intros r' Hne. cbn. by rewrite lookup_insert_ne.
  - apply reserve_inv; [apply Hw|apply (sw_config _ Hw)|done].
  - etrans; [eapply replay_events_snoc; apply (sw_events _ Hw)|].
    unfold replay_event. by rewrite reserve_is_start, Hv.
Qed.

Lemma retryable_state_wf r e s :
  state_wf s → rs_request s r = Ok e → check_retryable r e = Ok tt → state_wf (retryable_state r e s).
Proof.
  intros Hw Hr Hc. destruct (rs_request_ok _ _ _ Hw Hr) as (i & Hi & He & Hre & _).
  pose proof (sw_entries _ Hw _ _ He) as Hent. unfold check_retryable in Hc.
  destruct (dr_phase e) eqn:Hph; try done. cbn in Hc. case_bool_decide as Hres; [done|].
  apply eq_None_not_Some in Hres.
  unfold retryable_state, put_entry. rewrite Hi. cbn. apply (update_wf s r i e); try done; [|apply Hw|apply Hw].
  pose proof (not_final_settlement _ _ _ Hent ltac:(by rewrite Hph)) as Hns.
  destruct Hent as (? & ? & ? & ? & Hact & _ & _). unfold entry_wf, entry_with. cbn. split_and!; try done.
  rewrite Hres. done.
Qed.

Lemma check_final_ok r settlement e :
  check_final r settlement e = Ok tt ↔
  is_final (dr_phase e) = false ∧ (settlement = SettleNotStarted ↔ dr_reservation e = None).
Proof.
  unfold check_final. destruct (is_final (dr_phase e)); [naive_solver|].
  destruct (dr_reservation e) as [c|]; destruct settlement; cbn; naive_solver.
Qed.

(** The event of a settlement replays to the settled budget. *)
Lemma settlement_replays s r settlement :
  state_wf s → validate_settlement (rs_budget s) r settlement = Ok tt →
  let limits := dsc_budget_limits (rs_config s) in
  let b := budget_apply_settlement r settlement (rs_budget s) in
  replay_events
    (rs_budget_events (match settlement_event r settlement with Some event => rs_push_event event | None => id end
       (rs_with_budget b s))) (SessionBudget_new limits) = Ok (mirror limits b).
Proof.
  intros Hw Hv limits b. destruct settlement as [| |n]; cbn [settlement_event].
  - apply Hw.
  - unfold limits. cbn [rs_push_event rs_with_budget rs_budget_events].
    etrans; [eapply replay_events_snoc; apply (sw_events _ Hw)|]. unfold replay_event.
    by rewrite settle_is_abort, Hv by apply Hw.
  - unfold limits. cbn [rs_push_event rs_with_budget rs_budget_events].
    etrans; [eapply replay_events_snoc; apply (sw_events _ Hw)|]. unfold replay_event.
    by rewrite settle_is_complete, Hv.
Qed.

Lemma settlement_active b r settlement :
  validate_settlement b r settlement = Ok tt →
  bst_active (budget_apply_settlement r settlement b) = delete r (bst_active b).
Proof.
  destruct settlement; cbn; [|done..]. case_bool_decide as H; [done|]. intros _.
  apply eq_None_not_Some in H. by rewrite delete_id.
Qed.

Lemma final_state_wf r settlement response e s :
  state_wf s → rs_request s r = Ok e → check_final r settlement e = Ok tt →
  validate_settlement (rs_budget s) r settlement = Ok tt →
  response_wf response → rsp_request response = r →
  state_wf (final_state r settlement response e s).
Proof.
  intros Hw Hr Hc Hv Hresp Hrr. destruct (rs_request_ok _ _ _ Hw Hr) as (i & Hi & He & Hre & _).
  pose proof (sw_entries _ Hw _ _ He) as (? & ? & ? & ? & _ & _ & _).
  pose proof (settlement_replays s r settlement Hw Hv) as Hrep. cbv zeta in Hrep.
  pose proof (settlement_active _ _ _ Hv) as Hact.
  unfold final_state, put_entry.
  set (X := match settlement_event r settlement with Some _ => _ | None => _ end _) in *.
  assert (X = {| rs_config := rs_config s; rs_requests := rs_requests s; rs_request_indexes := rs_request_indexes s;
    rs_budget := budget_apply_settlement r settlement (rs_budget s); rs_budget_events := rs_budget_events X;
    rs_next_wal_sequence := rs_next_wal_sequence s |}) as -> by (subst X; by destruct settlement).
  clearbody X. cbn. rewrite Hi. cbn. apply (update_wf s r i e); try done.
  - unfold entry_wf, entry_with. cbn. rewrite Hre, Hact, lookup_delete_eq. split_and!; try done. by rewrite <- Hre.
  - intros r' Hne. cbn [rs_budget]. by rewrite Hact, lookup_delete_ne.
  - apply settlement_inv; [apply Hw|apply (sw_config _ Hw)|done].
Qed.
