(* ===== verification/BrokerWalHistory.v ===== *)
(** * How a request's durable entry may change

    Along every operation, crash and reopening an entry keeps its identity, a final
    entry never changes, and a reserved one can only become final. *)

From S2P Require Import Prelude Bytes ControlFrame Budget ReplayGuard Cbor Response ResponseChunk ResponseProps.
From S2P Require Import BrokerWalState BrokerWal BrokerWalInvariant.

(** A reserved or final request: its effect may have run. *)
Definition entry_spent (e : DurableRequest) : Prop := is_Some (dr_reservation e) ∨ is_final (dr_phase e) = true.

Record entry_later (e e' : DurableRequest) : Prop := {
  el_sequence : dr_sequence e' = dr_sequence e;
  el_request : dr_request e' = dr_request e;
  el_hash : dr_payload_hash e' = dr_payload_hash e;
  el_cap : dr_response_cap e' = dr_response_cap e;
  el_final : is_final (dr_phase e) = true → e' = e;
  el_spent : entry_spent e → entry_spent e';
}.

#[export] Instance entry_later_refl : Reflexive entry_later.
Proof. by split. Qed.

#[export] Instance entry_later_trans : Transitive entry_later.
Proof.
  intros e1 e2 e3 [? ? ? ? Hf1 Hs1] [? ? ? ? Hf2 Hs2]. split; [congruence..| |auto].
  intros Hf. specialize (Hf1 Hf). subst e2. auto.
Qed.

(** Every entry of [s] is still there in [s'], possibly later. *)
Definition state_later (s s' : RecoveredState) : Prop :=
  ∀ r e, view_request s r = Some e → ∃ e', view_request s' r = Some e' ∧ entry_later e e'.

#[export] Instance state_later_refl : Reflexive state_later.
Proof. intros s r e He. by exists e. Qed.

#[export] Instance state_later_trans : Transitive state_later.
Proof.
  intros s1 s2 s3 H12 H23 r e He. destruct (H12 r e He) as (e2 & He2 & L12). destruct (H23 r e2 He2) as (e3 & He3 & L23).
  exists e3. split; [done|]. by etrans.
Qed.

Lemma view_request_next next s r : view_request (rs_with_next next s) r = view_request s r.
Proof. done. Qed.

(** ** The transitions *)

Lemma view_request_Some s r e :
  state_wf s → view_request s r = Some e ↔ rs_request s r = Ok e.
Proof.
  intros Hw. unfold view_request, rs_request, rs_find. destruct (rs_request_indexes s !! r) as [i|] eqn:Hi; cbn; [|done].
  apply (sw_index _ Hw) in Hi as (d & Hd & _). rewrite Hd. cbn. naive_solver.
Qed.

(** Overwriting one entry. *)
Lemma put_entry_view s s0 r e e' r' :
  state_wf s → rs_request s r = Ok e → rs_request_indexes s0 = rs_request_indexes s → rs_requests s0 = rs_requests s →
  view_request (put_entry r e' s0) r' = if decide (r' = r) then Some e' else view_request s r'.
Proof.
  intros Hw Hr Hi0 Hr0. destruct (rs_request_ok _ _ _ Hw Hr) as (i & Hi & He & Hre & _).
  pose proof (lookup_lt_Some _ _ _ He) as Hlt.
  unfold view_request, put_entry. cbn [rs_with_requests rs_request_indexes rs_requests]. rewrite Hi0, Hr0, Hi.
  cbn [default from_option]. unfold id. destruct (decide (r' = r)) as [->|Hne].
  - rewrite Hi. cbn. by apply list_lookup_insert_eq.
  - destruct (rs_request_indexes s !! r') as [j|] eqn:Hj; cbn; [|done]. apply list_lookup_insert_ne.
    intros <-. apply (sw_index _ Hw) in Hj as (d & Hd & Hrd). congruence.
Qed.

Lemma put_entry_later s s0 r e e' :
  state_wf s → rs_request s r = Ok e → entry_later e e' → rs_request_indexes s0 = rs_request_indexes s →
  rs_requests s0 = rs_requests s → state_later s (put_entry r e' s0) ∧ view_request (put_entry r e' s0) r = Some e'.
Proof.
  intros Hw Hr Hl Hi0 Hr0. split; [|rewrite (put_entry_view s s0 r e) by done; by destruct (decide (r = r))].
  intros r' d Hd. rewrite (put_entry_view s s0 r e) by done. destruct (decide (r' = r)) as [->|].
  - exists e'. split; [done|]. apply (view_request_Some _ _ _ Hw) in Hd. congruence.
  - by exists d.
Qed.

Lemma reserved_later s r e :
  state_wf s → rs_request s r = Ok e → check_reserve r e = Ok tt →
  state_later s (reserved_state r e s) ∧
  view_request (reserved_state r e s) r = Some (entry_with AcceptedPending (Some (dr_response_cap e)) None e).
Proof.
  intros Hw Hr [Hf Hn]%check_reserve_ok. unfold reserved_state. apply (put_entry_later _ _ _ e); try done.
  split; cbn; try done; [by rewrite Hf|]. intros _. left. eauto.
Qed.

Lemma retryable_later s r e :
  state_wf s → rs_request s r = Ok e → check_retryable r e = Ok tt →
  state_later s (retryable_state r e s) ∧
  view_request (retryable_state r e s) r = Some (entry_with RetryableBudget (dr_reservation e) None e).
Proof.
  intros Hw Hr Hc. unfold check_retryable in Hc. destruct (dr_phase e) eqn:Hp; try done. cbn in Hc.
  case_bool_decide as Hn; [done|]. unfold retryable_state. apply (put_entry_later _ _ _ e); try done.
  split; cbn; try done; [by rewrite Hp|]. intros [Hs|Hs]; [by left|by rewrite Hp in Hs].
Qed.

Lemma final_later s r settlement response e :
  state_wf s → rs_request s r = Ok e → check_final r settlement e = Ok tt →
  state_later s (final_state r settlement response e s) ∧
  view_request (final_state r settlement response e s) r = Some (entry_with (Final response) None (Some settlement) e).
Proof.
  intros Hw Hr [Hf _]%check_final_ok. unfold final_state. apply (put_entry_later _ _ _ e); try done.
  - split; cbn; try done; [by rewrite Hf|]. intros _. by right.
  - by destruct settlement.
  - by destruct settlement.
Qed.

Lemma accepted_later s sequence r hash cap :
  state_wf s → rs_request_indexes s !! r = None →
  state_later s (accepted_state sequence r hash cap s) ∧
  view_request (accepted_state sequence r hash cap s) r = Some (accepted_request sequence r hash cap).
Proof.
  intros Hw Hr. split.
  - intros r' e He. exists e. split; [|done]. unfold view_request in *. cbn.
    assert (r' ≠ r) as Hne by (intros ->; by rewrite Hr in He). rewrite lookup_insert_ne by done.
    destruct (rs_request_indexes s !! r') as [i|]; cbn in *; [|done]. by apply lookup_app_l_Some.
  - unfold view_request. cbn. rewrite lookup_insert_eq. cbn. rewrite lookup_app_r, Nat.sub_diag by done. done.
Qed.

(** ** The other requests *)

Lemma reserved_view_ne s r e r' :
  state_wf s → rs_request s r = Ok e → r' ≠ r → view_request (reserved_state r e s) r' = view_request s r'.
Proof. intros. unfold reserved_state. rewrite (put_entry_view s _ r e) by done. by rewrite decide_False. Qed.

Lemma retryable_view_ne s r e r' :
  state_wf s → rs_request s r = Ok e → r' ≠ r → view_request (retryable_state r e s) r' = view_request s r'.
Proof. intros. unfold retryable_state. rewrite (put_entry_view s _ r e) by done. by rewrite decide_False. Qed.

Lemma final_view_ne s r settlement response e r' :
  state_wf s → rs_request s r = Ok e → r' ≠ r →
  view_request (final_state r settlement response e s) r' = view_request s r'.
Proof.
  intros. unfold final_state. rewrite (put_entry_view s _ r e) by (done || by destruct settlement). by rewrite decide_False.
Qed.

Lemma accepted_view_ne s sequence r hash cap r' :
  state_wf s → r' ≠ r → view_request (accepted_state sequence r hash cap s) r' = view_request s r'.
Proof.
  intros Hw Hne. unfold view_request. cbn. rewrite lookup_insert_ne by done.
  destruct (rs_request_indexes s !! r') as [i|] eqn:Hi; cbn; [|done].
  apply (sw_index _ Hw) in Hi as (d & Hd & _). rewrite Hd. by apply lookup_app_l_Some.
Qed.
