(* ===== verification/BrokerWalCodec.v ===== *)
(** * Record payloads of the broker log are read back

    Every payload the writer produces decodes to what was encoded, the response of
    a final record through its canonical wire payloads, and a final record fits the
    space its reservation protects. *)

From S2P Require Import Prelude Bytes ControlFrame Budget ReplayGuard Cbor CborProps Response ResponseChunk.
From S2P Require Import ResponseProps ResponseChunkProps BrokerWalState BrokerWal BrokerWalInvariant.

(** ** Fields *)

Lemma wal_read_fixed_at w bytes cursor v P Q :
  bytes = P ++ v ++ Q → cursor = len P → length v = w → addressable bytes →
  wal_read_fixed w bytes cursor = Ok (v, (cursor + N.of_nat w)%N).
Proof.
  unfold addressable. intros Hb -> <- Ha. pose proof Ha as Ha'. rewrite Hb, !len_app in Ha'. unfold wal_read_fixed.
  assert (checked_add_u64 (len P) (N.of_nat (length v)) = Some (len P + len v)%N) as ->
    by (apply checked_add_u64_Some; unfold len in *; lia).
  cbn [ok_or mbind result_bind]. by rewrite (get_range_at _ _ _ v P Q) by done.
Qed.

Lemma wal_read_uint_at w bytes cursor n P Q :
  bytes = P ++ le_bytes w n ++ Q → cursor = len P → (n < 256 ^ N.of_nat w)%N → addressable bytes →
  wal_read_uint w bytes cursor = Ok (n, (cursor + N.of_nat w)%N).
Proof.
  intros Hb Hc Hn Ha. unfold wal_read_uint. rewrite (wal_read_fixed_at _ _ _ _ _ _ Hb Hc) by (done || apply length_le_bytes).
  cbn [mbind result_bind]. by rewrite from_to_le_bytes.
Qed.

Lemma wal_read_byte_at bytes cursor n P Q :
  bytes = P ++ [N2b n] ++ Q → cursor = len P → (n < 256)%N →
  wal_read_byte bytes cursor = Ok (n, (cursor + 1)%N).
Proof.
  intros -> -> Hn. unfold wal_read_byte, len. rewrite Nat2N.id, lookup_app_r, Nat.sub_diag by done.
  cbn [app lookup list_lookup ok_or mbind result_bind]. by rewrite b2N_N2b, N.mod_small.
Qed.

Lemma len_WAL_MAGIC : len WAL_MAGIC = 8%N.
Proof. reflexivity. Qed.

(** ** Session, accept and request payloads *)

Lemma decode_encode_init config : config_wf config → decode_init (encode_init config) = Ok config.
Proof.
  intros (Hs & [Hr0 Hr] & (Hq & Hb & Hc0) & Hc). unfold decode_init. set (payload := encode_init config).
  assert (len payload = 48%N) as Hl by (unfold payload, encode_init; rewrite !len_app, Hs, !len_le_bytes; reflexivity).
  rewrite Hl. cbn [negb]. change (48 =? INIT_PAYLOAD_LEN)%N with true. cbn [negb].
  assert (addressable payload) as Ha by (unfold addressable; rewrite Hl; done).
  destruct config as [session capacity [q b c]]. cbn in *. unfold payload, encode_init in *. cbn in *.
  assert (length session = 16) as Hs' by (unfold len, SESSION_ID_BYTES in Hs; lia).
  erewrite (wal_read_fixed_at 16 _ 0 session []); [|done..]. cbn [mbind result_bind].
  erewrite (wal_read_uint_at 8 _ _ capacity session); [|done|by rewrite Hs|done|done]. cbn [mbind result_bind].
  erewrite (wal_read_uint_at 8 _ _ q (session ++ le_bytes 8 capacity));
    [|by rewrite <- !(assoc_L (++))|by rewrite len_app, Hs, len_le_bytes|apply Hq|done]. 
  unfold nonzero. destruct (N.eqb_spec capacity 0); [lia|]. cbn [mbind result_bind].
  destruct (N.eqb_spec q 0); [lia|]. cbn [mbind result_bind].
  erewrite (wal_read_uint_at 8 _ _ b (session ++ le_bytes 8 capacity ++ le_bytes 8 q));
    [|by rewrite <- !(assoc_L (++))|by rewrite !len_app, Hs, !len_le_bytes|done|done]. cbn [mbind result_bind].
  erewrite (wal_read_uint_at 8 _ _ c (session ++ le_bytes 8 capacity ++ le_bytes 8 q ++ le_bytes 8 b) []);
    [|by rewrite <- !(assoc_L (++)), app_nil_r|by rewrite !len_app, Hs, !len_le_bytes|done|done].
  cbn [mbind result_bind]. destruct (N.eqb_spec c 0); [lia|]. done.
Qed.

(** The fixed-width fields of an envelope have their Rust types. *)
Definition envelope_typed (e : BrokerEnvelope) : Prop :=
  (be_sequence e < u64_limit)%N ∧ len (be_request e) = REQUEST_ID_BYTES ∧ len (be_payload_hash e) = PAYLOAD_HASH_BYTES.

Lemma len_encode_accept envelope cap : envelope_typed envelope → len (encode_accept envelope cap) = ACCEPT_PAYLOAD_LEN.
Proof. intros (_ & Hr & Hh). unfold encode_accept. by rewrite !len_app, !len_le_bytes, Hr, Hh. Qed.

Lemma decode_encode_accept envelope cap :
  envelope_typed envelope → (cap < u64_limit)%N →
  decode_accept (encode_accept envelope cap) =
  Ok (be_sequence envelope, be_request envelope, be_payload_hash envelope, cap).
Proof.
  intros He Hc. unfold decode_accept. rewrite len_encode_accept by done. rewrite N.eqb_refl. cbn [negb].
  assert (addressable (encode_accept envelope cap)) as Ha by (unfold addressable; rewrite len_encode_accept; done).
  destruct He as (Hs & Hr & Hh). unfold encode_accept in *.
  set (s := be_sequence envelope) in *. set (r := be_request envelope) in *. set (h := be_payload_hash envelope) in *.
  erewrite (wal_read_uint_at 8 _ 0 s []); [|done..]. cbn [mbind result_bind].
  erewrite (wal_read_fixed_at 16 _ _ r (le_bytes 8 s)); [|done|by rewrite len_le_bytes
    |unfold len, REQUEST_ID_BYTES in Hr; lia|done]. cbn [mbind result_bind].
  erewrite (wal_read_fixed_at 32 _ _ h (le_bytes 8 s ++ r)); [|by rewrite <- !(assoc_L (++))
    |by rewrite len_app, len_le_bytes, Hr|unfold len, PAYLOAD_HASH_BYTES in Hh; lia|done]. cbn [mbind result_bind].
  erewrite (wal_read_uint_at 8 _ _ cap (le_bytes 8 s ++ r ++ h) []); [done|by rewrite <- !(assoc_L (++)), app_nil_r
    |by rewrite !len_app, len_le_bytes, Hr, Hh|done|done].
Qed.

Lemma decode_request_id request : len request = REQUEST_ID_BYTES → decode_request request = Ok request.
Proof.
  intros Hr. unfold decode_request. rewrite Hr. cbn [negb]. change (REQUEST_ID_BYTES =? REQUEST_PAYLOAD_LEN)%N with true.
  cbn [negb]. rewrite (wal_read_fixed_at 16 _ 0 request [] []); [done|by rewrite app_nil_r|done
    |unfold len, REQUEST_ID_BYTES in Hr; lia|unfold addressable; by rewrite Hr].
Qed.

(** ** Final payloads *)

Definition wire_items (ws : list str) : str := concat ((λ w, le_bytes 4 (len w) ++ w) <$> ws).

Definition final_payload (request : BrokerRequestId) (settlement : BudgetSettlement) (ws : list str) : str :=
  request ++ [N2b (settlement_code settlement).1] ++ replicate 7 (N2b 0) ++
  le_bytes 8 (settlement_code settlement).2 ++ le_bytes 4 (N.of_nat (length ws)) ++ wire_items ws.

Lemma collect_total {E A B} (f : A → B) (g : A → result E B) l :
  Forall (λ x, g x = Ok (f x)) l → collect (g <$> l) = Ok (f <$> l).
Proof. induction 1 as [|x l Hx Hl IH]; [done|]. cbn. rewrite Hx. cbn. by rewrite IH. Qed.

Lemma encode_final_eq request settlement ws :
  (N.of_nat (length ws) < 2 ^ 32)%N → Forall (λ w, (len w < 2 ^ 32)%N) ws →
  encode_final request settlement ws = Ok (final_payload request settlement ws).
Proof.
  intros Hn Hws. unfold encode_final, final_payload. destruct (N.ltb_spec (N.of_nat (length ws)) (2 ^ 32)); [|lia].
  cbn [negb]. destruct (settlement_code settlement) as [kind bytes].
  erewrite (collect_total (λ w, le_bytes 4 (len w) ++ w)); [done|].
  eapply Forall_impl; [exact Hws|]. intros w Hw. cbv beta in *. destruct (N.ltb_spec (len w) (2 ^ 32)); [done|lia].
Qed.

Lemma read_wire_payloads_at ws payload P :
  payload = P ++ wire_items ws → addressable payload → Forall (λ w, (len w < 2 ^ 32)%N) ws →
  read_wire_payloads (length ws) payload (len P) = Ok (ws, len payload).
Proof.
  intros Hp Ha. revert P Hp. induction ws as [|w ws IH]; intros P Hp Hws.
  { cbn. unfold wire_items in Hp. cbn in Hp. by rewrite Hp, app_nil_r. }
  apply Forall_cons in Hws as [Hw Hws']. change (wire_items (w :: ws)) with ((le_bytes 4 (len w) ++ w) ++ wire_items ws) in Hp.
  rewrite <- (assoc_L (++)) in Hp. cbn [length read_wire_payloads].
  rewrite (wal_read_uint_at 4 _ _ _ _ _ Hp) by done. cbn [mbind result_bind].
  assert (payload = (P ++ le_bytes 4 (len w) ++ w) ++ wire_items ws) as Hp' by (rewrite Hp; by rewrite <- !(assoc_L (++))).
  assert ((len P + N.of_nat 4)%N = len (P ++ le_bytes 4 (len w))) as -> by (by rewrite len_app, len_le_bytes).
  assert (checked_add_u64 (len (P ++ le_bytes 4 (len w))) (len w) = Some (len (P ++ le_bytes 4 (len w) ++ w))) as ->.
  { apply checked_add_u64_Some. unfold addressable in Ha. rewrite Hp', !len_app in Ha. rewrite !len_app. lia. }
  cbn [ok_or mbind result_bind]. rewrite (get_range_at _ _ _ w (P ++ le_bytes 4 (len w)) (wire_items ws));
    [|rewrite Hp; by rewrite <- !(assoc_L (++))|done|rewrite !len_app; lia].
  cbn [ok_or mbind result_bind]. rewrite (IH _ Hp' Hws'). done.
Qed.

Lemma decode_settlement_code settlement :
  decode_settlement (settlement_code settlement).1 (settlement_code settlement).2 = Ok settlement.
Proof. by destruct settlement. Qed.

Lemma len_final_payload request settlement ws :
  len request = REQUEST_ID_BYTES → len (final_payload request settlement ws) = (FINAL_PREFIX_LEN + len (wire_items ws))%N.
Proof.
  intros Hr. unfold final_payload. rewrite !len_app, !len_le_bytes, Hr.
  change (len (replicate 7 _)) with 7%N. change (len [_]) with 1%N. unfold FINAL_PREFIX_LEN, REQUEST_ID_BYTES. lia.
Qed.

Section wire.
  Context (sha256 : str → str) (Hsha : ∀ s, len (sha256 s) = RESPONSE_DIGEST_BYTES).

(** The chunk payloads of a response. *)
Definition chunk_payloads (r : CanonicalBrokerResponse) : list str :=
  enc_chunk <$> canonical_chunks (rsp_request r) (sha256 (encoding r)) (encoding r).

Lemma chunk_payloads_ok r :
  response_wf r →
  Forall (λ c, chunk_encode c = Ok (enc_chunk c) ∧ chunk_decode (enc_chunk c) = Ok c ∧
               (len (enc_chunk c) <= MAX_CONTROL_FRAME_BYTES)%N ∧ (len (enc_chunk c) <= len (crc_bytes c) + 120)%N)
    (canonical_chunks (rsp_request r) (sha256 (encoding r)) (encoding r)).
Proof.
  intros Hwf. pose proof (response_expandable r Hwf) as Hx. unfold canonical_chunks. apply Forall_fmap, Forall_seq.
  intros i Hi. set (c := chunk_piece (rsp_request r) (sha256 (encoding r)) (encoding r) i).
  assert (chunk_typed c) as Ht by (split; [apply Hwf|apply Hsha]).
  destruct (chunk_encode_fits c Ht ltac:(apply chunk_piece_valid; [done|lia])) as [Henc Hl].
  unfold compose. fold c. clearbody c. split_and!; [done|by apply chunk_decode_exact|done|].
  rewrite <- enc_chunk_eq, len_app. unfold write_bytes_item. rewrite len_app, emit_head_write.
  pose proof (len_chunk_header c Ht). pose proof (len_write_head 2 (len (crc_bytes c))). lia.
Qed.

Lemma response_decodes r :
  response_wf r → decode_with_limit (encoding r) MAX_EXPANDED_CANONICAL_RESPONSE_BYTES = Ok r.
Proof.
  intros Hwf. pose proof (response_expandable r Hwf) as Hx. apply (response_decode_encode r); [done|done|].
  apply encode_with_limit_ok; [done|]. unfold encoding in *. rewrite concat_parts in *. split; [done|apply Hx].
Qed.

(** More than one frame's worth of encoding takes at least two chunks. *)
Lemma long_chunks r :
  (MAX_CONTROL_FRAME_BYTES < len (encoding r))%N → ∃ a b rest, chunk_payloads r = a :: b :: rest.
Proof.
  intros Hl. unfold chunk_payloads, canonical_chunks. pose proof (chunk_total_spec (len (encoding r)) ltac:(lia)) as Ht.
  change MAX_RESPONSE_CHUNK_BYTES with 1048448%N in Ht. change MAX_CONTROL_FRAME_BYTES with 1048576%N in Hl.
  destruct (N.to_nat (chunk_total (len (encoding r)))) as [|[|n]] eqn:E; [lia..|]. cbn. eauto.
Qed.

Lemma chunk_count_bound r : response_wf r → (N.of_nat (length (chunk_payloads r)) <= MAX_FINAL_WIRE_PAYLOADS)%N.
Proof.
  intros Hwf. pose proof (response_expandable r Hwf) as [Hn Hm]. unfold chunk_payloads, canonical_chunks.
  rewrite !length_fmap, length_seq, N2Nat.id. unfold chunk_total, MAX_FINAL_WIRE_PAYLOADS.
  apply N.Div0.div_le_mono. lia.
Qed.

Lemma len_wire_items_chunks r :
  response_wf r → (len (wire_items (chunk_payloads r)) <= len (encoding r) + 124 * N.of_nat (length (chunk_payloads r)))%N.
Proof.
  intros Hwf. pose proof (chunk_payloads_ok r Hwf) as Hall. pose proof (response_expandable r Hwf) as [Hn _].
  pose proof (canonical_chunks_bytes (rsp_request r) (sha256 (encoding r)) (encoding r) Hn) as Hcat.
  unfold chunk_payloads, wire_items. set (cs := canonical_chunks _ _ _) in *. rewrite <- Hcat. clearbody cs. clear Hcat.
  induction Hall as [|c cs (_ & _ & _ & Hl) _ IH]; [done|]. cbn [fmap list_fmap concat length].
  rewrite !len_app, len_le_bytes. cbn [length] in IH. lia.
Qed.

(** The canonical wire payloads of any well-formed response exist, are read back to
    it, and add at most 12665 bytes to its body. *)
Lemma canonical_wire_payloads_ok r :
  response_wf r →
  ∃ ws, canonical_wire_payloads sha256 r = Ok ws ∧ decode_wire_payloads sha256 ws = Ok r ∧
    (0 < N.of_nat (length ws) <= MAX_FINAL_WIRE_PAYLOADS)%N ∧ Forall (λ w, (len w < 2 ^ 32)%N) ws ∧
    (len (wire_items ws) <= body_bytes (rsp_outcome r) + 12665)%N.
Proof.
  intros Hwf. pose proof (response_overhead r Hwf) as [Hpos Hover]. unfold canonical_wire_payloads.
  destruct (N.leb_spec (len (encoding r)) MAX_CONTROL_FRAME_BYTES) as [Hs|Hs].
  - assert (CanonicalBrokerResponse_encode r = Ok (encoding r)) as He.
    { apply encode_with_limit_ok; [done|]. unfold encoding in *. rewrite concat_parts in *. done. }
    rewrite He. exists [encoding r]. split_and!; try done.
    + unfold decode_wire_payloads, CanonicalBrokerResponse_decode. by rewrite (response_decode_encode r MAX_CONTROL_FRAME_BYTES _ eq_refl Hwf He).
    + apply Forall_singleton. change MAX_CONTROL_FRAME_BYTES with 1048576%N in Hs. lia.
    + unfold wire_items. cbn [fmap list_fmap concat]. rewrite !len_app, len_le_bytes. change (len []) with 0%N. lia.
  - pose proof (response_expandable r Hwf) as Hx. destruct (chunks_ok sha256 r Hx) as [Hc _].
    assert (CanonicalBrokerResponse_encode r = Err (Response_PayloadTooLarge (len (encoding r)))) as He.
    { unfold CanonicalBrokerResponse_encode, encode_with_limit. rewrite (total_length_encoding r Hx).
      destruct (N.ltb_spec MAX_CONTROL_FRAME_BYTES (len (encoding r))); [done|lia]. }
    pose proof (chunk_payloads_ok r Hwf) as Hall. rewrite He, Hc. unfold mbind, result_bind. cbn [map_err].
    exists (chunk_payloads r). split_and!.
    + apply collect_total. eapply Forall_impl; [exact Hall|]. intros c (-> & _). done.
    + destruct (long_chunks r Hs) as (a & b & rest & Hab).
      assert (collect ((λ payload, map_err Wal_ResponseChunk (chunk_decode payload)) <$> chunk_payloads r) =
        Ok (canonical_chunks (rsp_request r) (sha256 (encoding r)) (encoding r))) as Hdec.
      { unfold chunk_payloads. rewrite <- list_fmap_compose. etrans; [apply (collect_total id)|by rewrite list_fmap_id].
        eapply Forall_impl; [exact Hall|]. intros c (_ & Hd & _). unfold compose. by rewrite Hd. }
      unfold decode_wire_payloads. rewrite Hab in *. unfold mbind, result_bind. rewrite Hdec. unfold from_chunks.
      by rewrite (reassemble_canonical sha256 _ r (response_decodes r Hwf)).
    + destruct (long_chunks r Hs) as (a & b & rest & ->). cbn [length]. lia.
    + by apply chunk_count_bound.
    + unfold chunk_payloads. apply Forall_fmap. eapply Forall_impl; [exact Hall|]. intros c (_ & _ & Hl & _).
      change MAX_CONTROL_FRAME_BYTES with 1048576%N in Hl. unfold compose. lia.
    + pose proof (len_wire_items_chunks r Hwf). pose proof (chunk_count_bound r Hwf) as Hcb.
      change MAX_FINAL_WIRE_PAYLOADS with 33%N in Hcb. lia.
Qed.

Definition settlement_typed (settlement : BudgetSettlement) : Prop := ((settlement_code settlement).2 < u64_limit)%N.

(** The fields before the payloads are read back. *)
Lemma decode_final_fields request settlement ws :
  len request = REQUEST_ID_BYTES → settlement_typed settlement →
  (0 < N.of_nat (length ws) <= MAX_FINAL_WIRE_PAYLOADS)%N → Forall (λ w, (len w < 2 ^ 32)%N) ws →
  addressable (final_payload request settlement ws) →
  decode_final sha256 (final_payload request settlement ws) =
  (response ← from_wire_payloads sha256 request ws; Ok (request, settlement, response)).
Proof.
  intros Hr Hs Hn Hws Ha. pose proof (len_final_payload request settlement ws Hr) as Hl. unfold decode_final.
  set (p := final_payload request settlement ws) in *. rewrite Hl.
  destruct (N.ltb_spec (FINAL_PREFIX_LEN + len (wire_items ws)) FINAL_PREFIX_LEN); [lia|].
  pose proof (decode_settlement_code settlement) as Hdec. unfold settlement_typed in Hs.
  set (kind := (settlement_code settlement).1) in *. set (bytes := (settlement_code settlement).2) in *.
  assert (kind < 256)%N as Hk by (unfold kind; by destruct settlement).
  assert (length request = 16) as Hr' by (unfold len, REQUEST_ID_BYTES in Hr; lia).
  erewrite (wal_read_fixed_at 16 p 0 request []); [|done..]. cbn [mbind result_bind].
  erewrite (wal_read_byte_at p _ kind request); [|done|by rewrite Hr|done]. cbn [mbind result_bind].
  erewrite (wal_read_fixed_at 7 p _ (replicate 7 (N2b 0)) (request ++ [N2b kind]));
    [|unfold p, final_payload; by rewrite <- !(assoc_L (++))|by rewrite len_app, Hr|done|done]. cbn [mbind result_bind].
  rewrite bool_decide_eq_true_2 by done. cbn [negb].
  erewrite (wal_read_uint_at 8 p _ bytes (request ++ [N2b kind] ++ replicate 7 (N2b 0)));
    [|unfold p, final_payload; by rewrite <- !(assoc_L (++))|by rewrite !len_app, Hr|done|done]. cbn [mbind result_bind].
  erewrite (wal_read_uint_at 4 p _ (N.of_nat (length ws))
    (request ++ [N2b kind] ++ replicate 7 (N2b 0) ++ le_bytes 8 bytes));
    [|unfold p, final_payload; by rewrite <- !(assoc_L (++))|by rewrite !len_app, Hr, len_le_bytes
     |change MAX_FINAL_WIRE_PAYLOADS with 33%N in Hn; cbn; lia|done]. cbn [mbind result_bind].
  destruct (N.eqb_spec (N.of_nat (length ws)) 0); [lia|]. rewrite Hdec. cbn [mbind result_bind].
  destruct (N.ltb_spec MAX_FINAL_WIRE_PAYLOADS (N.of_nat (length ws))); [lia|].
  assert (4 * N.of_nat (length ws) <= len (wire_items ws))%N as Hitems.
  { clear. induction ws as [|w ws IH]; [done|]. unfold wire_items in *. cbn [fmap list_fmap concat length].
    rewrite !len_app, len_le_bytes. lia. }
  change (0 + N.of_nat 16 + 1 + N.of_nat 7 + N.of_nat 8 + N.of_nat 4)%N with FINAL_PREFIX_LEN.
  replace (FINAL_PREFIX_LEN + len (wire_items ws) - FINAL_PREFIX_LEN)%N with (len (wire_items ws)) by lia.
  destruct (N.ltb_spec (len (wire_items ws) / 4) (N.of_nat (length ws))) as [Hd|_].
  { exfalso. assert (N.of_nat (length ws) <= len (wire_items ws) / 4)%N by (apply N.div_le_lower_bound; lia). lia. }
  cbn [orb]. rewrite Nat2N.id.
  assert (read_wire_payloads (length ws) p FINAL_PREFIX_LEN = Ok (ws, len p)) as ->.
  { assert (FINAL_PREFIX_LEN = len (request ++ [N2b kind] ++ replicate 7 (N2b 0) ++ le_bytes 8 bytes ++
      le_bytes 4 (N.of_nat (length ws)))) as -> by (by rewrite !len_app, !len_le_bytes, Hr).
    apply read_wire_payloads_at; [unfold p, final_payload; by rewrite <- !(assoc_L (++))|done|done]. }
  cbn [mbind result_bind]. by rewrite Hl, N.eqb_refl.
Qed.

(** A final record decodes to the settlement and response it was written for. *)
Lemma final_roundtrip r request settlement :
  response_wf r → rsp_request r = request → settlement_typed settlement →
  ∃ ws, canonical_wire_payloads sha256 r = Ok ws ∧
    encode_final request settlement ws = Ok (final_payload request settlement ws) ∧
    decode_final sha256 (final_payload request settlement ws) = Ok (request, settlement, r) ∧
    (FINAL_PREFIX_LEN <= len (final_payload request settlement ws) <= body_bytes (rsp_outcome r) + 12701)%N.
Proof.
  intros Hwf Hr Hs. destruct (canonical_wire_payloads_ok r Hwf) as (ws & Hc & Hd & Hn & Hws & Hl).
  assert (len request = REQUEST_ID_BYTES) as Hlr by (rewrite <- Hr; apply Hwf).
  pose proof (len_final_payload request settlement ws Hlr) as Hlp. change FINAL_PREFIX_LEN with 36%N in *.
  exists ws. split_and!; [done| | |lia|lia].
  - apply encode_final_eq; [change MAX_FINAL_WIRE_PAYLOADS with 33%N in Hn; lia|done].
  - rewrite decode_final_fields; try done.
    + unfold from_wire_payloads. rewrite Hd. cbn [mbind result_bind]. rewrite bool_decide_eq_true_2 by done. cbn [negb].
      rewrite Hc. cbn [mbind result_bind]. by rewrite bool_decide_eq_true_2 by done.
    + pose proof (body_bytes_bound r Hwf). unfold addressable. change MAX_PUBLIC_WIRE_BODY_BYTES with 33554432%N in *.
      unfold u64_limit. lia.
Qed.
End wire.
