(* ===== verification/BrokerWalFrames.v ===== *)
(** * Recovery of the broker log, frame by frame

    A frame the writer produced is read back whatever surrounds it; cut anywhere
    inside, it is a torn tail, unless its own bytes contain a complete frame of the
    next sequence.  [wparsed] is the progress of the recovery loop. *)

From S2P Require Import Prelude Bytes ControlFrame Budget ReplayGuard Response ResponseChunk.
From S2P Require Import BrokerWalState BrokerWal BrokerWalInvariant BrokerWalCodec.

Lemma len_wal_header n kind plen : len (wal_header_bytes n kind plen) = WAL_HEADER_LEN.
Proof. unfold wal_header_bytes. rewrite !len_app, !len_le_bytes, len_WAL_MAGIC. by change (len [_]) with 1%N. Qed.

Lemma len_wal_frame n kind payload :
  len (wal_frame n kind payload) = (WAL_HEADER_LEN + len payload + WAL_CHECKSUM_LEN)%N.
Proof. unfold wal_frame. rewrite !len_app, len_wal_header, len_le_bytes. unfold WAL_CHECKSUM_LEN. lia. Qed.

Lemma wal_checksum_lt first second : (wal_checksum_parts first second < u64_limit)%N.
Proof.
  unfold wal_checksum_parts. destruct (first ++ second) as [|b bytes] using rev_ind; [done|].
  rewrite foldl_app. simpl. apply N.mod_lt. done.
Qed.

Lemma get_range_take bytes k a b slice :
  get_range bytes a b = Some slice → (b <= N.of_nat k)%N → get_range (take k bytes) a b = Some slice.
Proof.
  rewrite !get_range_Some. intros (pre & post & -> & -> & ->) Hk. exists pre, (take (k - length pre - length slice) post).
  split; [|done]. unfold len in Hk. rewrite take_app_ge, take_app_ge by lia. done.
Qed.

Lemma wal_read_uint_extend w bytes more c r :
  wal_read_uint w bytes c = Ok r → wal_read_uint w (bytes ++ more) c = Ok r.
Proof.
  unfold wal_read_uint, wal_read_fixed. destruct (checked_add_u64 _ _) as [f|]; cbn [ok_or mbind result_bind]; [|done].
  destruct (get_range bytes c f) as [v|] eqn:Hg; cbn [ok_or mbind result_bind]; [|done].
  by rewrite (get_range_extend _ more _ _ _ Hg).
Qed.

Lemma wal_read_uint_ok w bytes c v f :
  wal_read_uint w bytes c = Ok (v, f) → f = (c + N.of_nat w)%N ∧ (f <= len bytes)%N.
Proof.
  unfold wal_read_uint, wal_read_fixed.
  destruct (checked_add_u64 c (N.of_nat w)) as [e|] eqn:He; cbn; [|done]. apply checked_add_u64_Some in He as [-> _].
  destruct (get_range bytes c (c + N.of_nat w)) eqn:Hg; cbn; [|done]. intros [= _ <-]. split; [done|].
  apply get_range_Some in Hg as (P & Q & -> & -> & ->). rewrite !len_app. lia.
Qed.

Lemma wal_read_byte_extend bytes more c r :
  wal_read_byte bytes c = Ok r → wal_read_byte (bytes ++ more) c = Ok r.
Proof.
  unfold wal_read_byte. destruct (bytes !! N.to_nat c) eqn:Hb; cbn [ok_or mbind result_bind]; [|done].
  by rewrite (lookup_app_l_Some _ _ _ _ Hb).
Qed.

Lemma wal_read_byte_ok bytes c v f : wal_read_byte bytes c = Ok (v, f) → f = (c + 1)%N.
Proof. unfold wal_read_byte. destruct (bytes !! N.to_nat c); cbn; [|done]. by intros [= _ <-]. Qed.

Section frames.
  Context (sha256 : str → str).

Abbreviation parse_frame := (wal_parse_frame sha256).
Abbreviation apply_frame := (apply_recovered_frame sha256).

(** What the writer puts in a frame's header. *)
Record frame_typed (n kind : N) (payload : str) : Prop := {
  ft_kind : (kind < 256)%N;
  ft_sequence : (n < u64_limit)%N;
  ft_length : (len payload <= MAX_RECORD_PAYLOAD_BYTES)%N;
  ft_shape : validate_frame_shape kind n (len payload) = Ok tt;
}.

(** A field inside a buffer that starts with a header. *)
Lemma header_field n kind plen pre rest k w v :
  let H := wal_header_bytes n kind plen in
  let B := pre ++ H ++ rest in
  H = take k H ++ v ++ drop (k + w) H → length (take k H) = k → length v = w →
  B = (pre ++ take k H) ++ v ++ (drop (k + w) H ++ rest) ∧ (len pre + N.of_nat k)%N = len (pre ++ take k H).
Proof.
  intros H B HP Hk Hv. split.
  - unfold B. rewrite HP at 1. by rewrite <- !(assoc_L (++)).
  - rewrite len_app. unfold len at 3. by rewrite Hk.
Qed.

(** After a complete header of the expected sequence, the payload and its checksum. *)
Lemma wal_parse_frame_header pre n kind plen rest st :
  (kind < 256)%N → (n < u64_limit)%N → (plen <= MAX_RECORD_PAYLOAD_BYTES)%N →
  validate_frame_shape kind n plen = Ok tt →
  let B := pre ++ wal_header_bytes n kind plen ++ rest in
  addressable B →
  parse_frame B (len pre) n st =
  if (len rest <? plen + WAL_CHECKSUM_LEN)%N then
    if has_complete_following_frame B (len pre + WAL_HEADER_LEN) (saturating_add n 1)
    then Err Wal_TruncatedRecord else Ok TornTail
  else
    let payload_end := (len pre + N.of_nat 24 + plen)%N in
    '(stored, offset) ← wal_read_uint 8 B payload_end;
    if negb (stored =? wal_checksum (default [] (get_range B (len pre) payload_end)))%N
    then Err Wal_ChecksumMismatch
    else
      state ← apply_frame st kind n (default [] (get_range B (len pre + N.of_nat 24) payload_end));
      Ok (Advance offset state).
Proof.
  intros Hk Hn Hp Hshape B Ha. set (H := wal_header_bytes n kind plen) in *.
  assert (len B = (len pre + 24 + len rest)%N) as HB
    by (unfold B; rewrite !len_app; unfold H; rewrite len_wal_header; unfold WAL_HEADER_LEN; lia).
  unfold wal_parse_frame. change WAL_HEADER_LEN with 24%N in *.
  destruct (N.ltb_spec (len B - len pre) 24) as [Hl|_]; [lia|].
  rewrite (get_range_at B (len pre) (len pre + 8) WAL_MAGIC pre (drop 8 H ++ rest)) by done.
  rewrite bool_decide_eq_true_2 by done. cbn [negb]. change 8%N with (N.of_nat 8).
  assert (∀ k w v offset, H = take k H ++ le_bytes w v ++ drop (k + w) H → length (take k H) = k →
    offset = (len pre + N.of_nat k)%N → (v < 256 ^ N.of_nat w)%N →
    wal_read_uint w B offset = Ok (v, (len pre + N.of_nat (k + w))%N)) as Hfield.
  { intros k w v offset HP Hlk -> Hv.
    destruct (header_field n kind plen pre rest k w (le_bytes w v) HP Hlk (length_le_bytes w v)) as [EB Eo].
    rewrite (wal_read_uint_at w B _ v _ _ EB Eo Hv Ha). do 2 f_equal. lia. }
  assert (∀ k v offset, H = take k H ++ [N2b v] ++ drop (k + 1) H → length (take k H) = k →
    offset = (len pre + N.of_nat k)%N → (v < 256)%N →
    wal_read_byte B offset = Ok (v, (len pre + N.of_nat (k + 1))%N)) as Hbyte.
  { intros k v offset HP Hlk -> Hv.
    destruct (header_field n kind plen pre rest k 1 [N2b v] HP Hlk eq_refl) as [EB Eo].
    rewrite (wal_read_byte_at B _ v _ _ EB Eo Hv). do 2 f_equal. lia. }
  rewrite (Hfield 8 2 WAL_VERSION _ eq_refl eq_refl eq_refl) by done.
  cbn [mbind result_bind]. change (8 + 2) with 10. rewrite N.eqb_refl. cbn [negb].
  rewrite (Hbyte 10 kind _ eq_refl eq_refl eq_refl) by done.
  cbn [mbind result_bind]. change (10 + 1) with 11.
  rewrite (Hbyte 11 0%N _ eq_refl eq_refl eq_refl) by done.
  cbn [mbind result_bind]. change (11 + 1) with 12. rewrite N.eqb_refl. cbn [negb].
  rewrite (Hfield 12 8 n _ eq_refl eq_refl eq_refl) by done.
  cbn [mbind result_bind]. change (12 + 8) with 20. rewrite N.eqb_refl. cbn [negb].
  rewrite (Hfield 20 4 plen _ eq_refl eq_refl eq_refl)
    by (change MAX_RECORD_PAYLOAD_BYTES with 33628541%N in Hp; cbn; lia).
  cbn [mbind result_bind]. change (20 + 4) with 24.
  destruct (N.ltb_spec MAX_RECORD_PAYLOAD_BYTES plen); [lia|]. rewrite Hshape. cbn [mbind result_bind].
  replace (len B - len pre <? 24 + plen + WAL_CHECKSUM_LEN)%N with (len rest <? plen + WAL_CHECKSUM_LEN)%N; [done|].
  unfold WAL_CHECKSUM_LEN. destruct (N.ltb_spec (len rest) (plen + 8)), (N.ltb_spec (len B - len pre) (24 + plen + 8)); lia || done.
Qed.

(** A whole frame is applied, whatever surrounds it. *)
Lemma wal_parse_frame_app pre n kind payload post st :
  frame_typed n kind payload → addressable (pre ++ wal_frame n kind payload ++ post) →
  parse_frame (pre ++ wal_frame n kind payload ++ post) (len pre) n st =
  (state ← apply_frame st kind n payload; Ok (Advance (len pre + len (wal_frame n kind payload)) state)).
Proof.
  intros [Hk Hn Hl Hshape]. rewrite len_wal_frame. unfold wal_frame. set (H := wal_header_bytes n kind (len payload)).
  set (c := wal_checksum_parts H payload). set (B := pre ++ (H ++ payload ++ le_bytes 8 c) ++ post). intros Ha.
  assert (B = pre ++ H ++ payload ++ le_bytes 8 c ++ post) as E by (unfold B; by rewrite <- !(assoc_L (++))).
  assert (len H = 24%N) as HH by apply len_wal_header.
  rewrite E in Ha |- *. etrans; [by apply wal_parse_frame_header|]. fold H.
  rewrite !len_app, len_le_bytes. unfold WAL_CHECKSUM_LEN.
  destruct (N.ltb_spec (len payload + (N.of_nat 8 + len post)) (len payload + 8)); [lia|]. cbv zeta.
  rewrite (wal_read_uint_at 8 _ _ c (pre ++ H ++ payload) post); [|by rewrite <- !(assoc_L (++))
    |rewrite !len_app; lia|apply wal_checksum_lt|done]. cbn [mbind result_bind].
  rewrite (get_range_at _ (len pre) _ (H ++ payload) pre (le_bytes 8 c ++ post));
    [|by rewrite <- !(assoc_L (++))|done|rewrite len_app; lia].
  rewrite (get_range_at _ (len pre + N.of_nat 24) _ payload (pre ++ H) (le_bytes 8 c ++ post));
    [|by rewrite <- !(assoc_L (++))|rewrite len_app; lia|lia].
  unfold default, from_option, id, wal_checksum. fold c.
  assert (c = wal_checksum_parts (H ++ payload) []) as Hc by (unfold c, wal_checksum_parts; by rewrite app_nil_r).
  rewrite <- Hc, N.eqb_refl. cbn [negb]. destruct (apply_frame st kind n payload); cbn [mbind result_bind]; [|done].
  do 2 f_equal. unfold WAL_HEADER_LEN. lia.
Qed.

(** The bytes of a torn frame before its payload: the partial header agrees. *)
Lemma partial_header_ok n kind payload k :
  frame_typed n kind payload → (N.of_nat k < WAL_HEADER_LEN)%N →
  validate_partial_header (take k (wal_frame n kind payload)) n = Ok tt.
Proof.
  intros [Hk Hn Hl Hshape] Hlt. set (F := wal_frame n kind payload). unfold validate_partial_header.
  change WAL_HEADER_LEN with 24%N in Hlt. pose proof (len_wal_frame n kind payload) as HF. fold F in HF.
  change WAL_HEADER_LEN with 24%N in HF. change WAL_CHECKSUM_LEN with 8%N in HF.
  assert (length (take k F) = k) as Hlen by (rewrite length_take; unfold len in HF; lia).
  rewrite Hlen. unfold len. rewrite Hlen.
  assert (take (k `min` 8) (take k F) = take (k `min` 8) WAL_MAGIC) as ->.
  { rewrite take_take. replace ((k `min` 8) `min` k) with (k `min` 8) by lia. unfold F, wal_frame, wal_header_bytes.
    rewrite <- !(assoc_L (++)), take_app_le; [done|]. change (length WAL_MAGIC) with 8. lia. }
  rewrite bool_decide_eq_true_2 by done. cbn [negb].
  assert (∀ a b slice P Q, F = P ++ slice ++ Q → len P = a → (a + len slice)%N = b → (b <= N.of_nat k)%N →
    get_range (take k F) a b = Some slice) as Hget.
  { intros a b slice P Q EF <- <- Hb. apply get_range_take; [|done]. by apply (get_range_at _ _ _ _ P Q). }
  assert (∀ i, i < k → (take k F) !! i = F !! i) as Hlook by (intros; by apply lookup_take_lt).
  assert ((10 <=? N.of_nat k)%N && negb (from_le_bytes (default [] (get_range (take k F) 8 10)) =? WAL_VERSION)%N = false) as ->.
  { destruct (N.leb_spec 10 (N.of_nat k)) as [H10|]; [|done].
    erewrite (Hget 8%N 10%N (le_bytes 2 WAL_VERSION) WAL_MAGIC);
      [done|unfold F, wal_frame, wal_header_bytes; by rewrite <- !(assoc_L (++))|done|done|done]. }
  assert (match take k F !! 10 with Some kind0 => validate_frame_kind (b2N kind0) n | None => Ok tt end = Ok tt) as ->.
  { destruct (decide (10 < k)); [|by rewrite lookup_take_ge by lia]. rewrite Hlook by done.
    change (F !! 10) with (Some (N2b kind)). cbv iota. rewrite b2N_N2b, N.mod_small by done.
    unfold validate_frame_shape in Hshape. by destruct (validate_frame_kind kind n) as [[]|]. }
  cbn [mbind result_bind].
  assert (match take k F !! 11 with Some r => if negb (b2N r =? 0)%N then Err (Wal_InvalidRecord "frame reserved bits are non-zero") else Ok tt | None => Ok tt end = Ok tt) as ->.
  { destruct (decide (11 < k)); [|by rewrite lookup_take_ge by lia]. by rewrite Hlook. }
  cbn [mbind result_bind]. destruct (N.leb_spec 20 (N.of_nat k)) as [H20|]; [|done].
  erewrite (Hget 12%N 20%N (le_bytes 8 n) (WAL_MAGIC ++ le_bytes 2 WAL_VERSION ++ [N2b kind] ++ [N2b 0]));
    [|unfold F, wal_frame, wal_header_bytes; by rewrite <- !(assoc_L (++))|done|done|done].
  cbn [default from_option]. unfold id. by rewrite from_to_le_bytes, N.eqb_refl.
Qed.

(** A frame cut strictly inside: a torn tail, or a refusal when a complete frame of
    the next sequence lies in what was written of it. *)
Lemma wal_parse_frame_torn pre n kind payload k st :
  frame_typed n kind payload → addressable (pre ++ wal_frame n kind payload) →
  (N.of_nat k < len (wal_frame n kind payload))%N →
  let B := pre ++ take k (wal_frame n kind payload) in
  parse_frame B (len pre) n st =
  if (WAL_HEADER_LEN <=? N.of_nat k)%N && has_complete_following_frame B (len pre + WAL_HEADER_LEN) (saturating_add n 1)
  then Err Wal_TruncatedRecord else Ok TornTail.
Proof.
  intros Ht Ha Hlt B. set (F := wal_frame n kind payload) in *.
  assert (len (take k F) = N.of_nat k) as Hlen by (unfold len in *; rewrite length_take; lia).
  destruct (N.leb_spec WAL_HEADER_LEN (N.of_nat k)) as [Hbig|Hsmall]; cbn [andb].
  - assert (take k F = wal_header_bytes n kind (len payload) ++ take (k - 24) (payload ++ le_bytes 8 (wal_checksum_parts (wal_header_bytes n kind (len payload)) payload))) as E.
    { unfold F, wal_frame. rewrite take_app_ge; [done|]. change (length (wal_header_bytes n kind (len payload))) with 24.
      change WAL_HEADER_LEN with 24%N in Hbig. lia. }
    unfold B. destruct Ht as [Hk Hn Hl Hshape]. rewrite E, wal_parse_frame_header; try done.
    + rewrite <- E. fold B. pose proof Hlen as Hlen'. rewrite E, len_app, len_wal_header in Hlen'.
      unfold F in Hlt. rewrite len_wal_frame in Hlt.
      match goal with |- context [(len ?r <? _)%N] => destruct (N.ltb_spec (len r) (len payload + WAL_CHECKSUM_LEN)) end; [done|lia].
    + rewrite <- E. unfold addressable in *. rewrite len_app in *. rewrite Hlen. lia.
  - unfold wal_parse_frame, B. rewrite len_app, Hlen.
    destruct (N.ltb_spec (len pre + N.of_nat k - len pre) WAL_HEADER_LEN); [|lia].
    unfold len. rewrite Nat2N.id, drop_app_length. unfold F. by rewrite partial_header_ok.
Qed.

(** An applied frame consumes at least a header and a checksum, inside the buffer. *)
Lemma wal_parse_frame_progress bytes o n st o' st' :
  parse_frame bytes o n st = Ok (Advance o' st') → (o + 32 <= o')%N ∧ (o' <= len bytes)%N.
Proof.
  unfold wal_parse_frame.
  destruct (_ <? _)%N; [by destruct (validate_partial_header _ _)|].
  repeat match goal with
  | |- context [if negb ?b then Err _ else _] => destruct b; cbn [negb]; [|done]
  | |- context [wal_read_uint ?w bytes ?c] => destruct (wal_read_uint w bytes c) as [[? ?]|] eqn:?; cbn [mbind result_bind]; [|done]
  | |- context [wal_read_byte bytes ?c] => destruct (wal_read_byte bytes c) as [[? ?]|] eqn:?; cbn [mbind result_bind]; [|done]
  | |- context [(MAX_RECORD_PAYLOAD_BYTES <? ?x)%N] => destruct (MAX_RECORD_PAYLOAD_BYTES <? x)%N; [done|]
  | |- context [validate_frame_shape ?a ?b ?c] => destruct (validate_frame_shape a b c); cbn [mbind result_bind]; [|done]
  | |- context [has_complete_following_frame] => destruct (_ <? _)%N; [by destruct (has_complete_following_frame _ _ _)|]
  end.
  destruct (apply_frame _ _ _ _); cbn [mbind result_bind]; [|done]. intros [= <- _].
  repeat match goal with H : wal_read_uint _ _ _ = Ok _ |- _ => apply wal_read_uint_ok in H as [? ?]
    | H : wal_read_byte _ _ = Ok _ |- _ => apply wal_read_byte_ok in H end. subst. lia.
Qed.

Lemma wal_parse_frame_extend bytes more o n st o' st' :
  (o <= len bytes)%N → parse_frame bytes o n st = Ok (Advance o' st') →
  parse_frame (bytes ++ more) o n st = Ok (Advance o' st').
Proof.
  intros Hoff. unfold wal_parse_frame.
  assert (∀ fl, (len bytes - o <? fl)%N = false → (len (bytes ++ more) - o <? fl)%N = false) as Hmore.
  { intros fl. rewrite !N.ltb_ge, len_app. lia. }
  destruct (len bytes - o <? WAL_HEADER_LEN)%N eqn:H24; [by destruct (validate_partial_header _ _)|].
  rewrite (Hmore _ H24). case_bool_decide as Hm; cbn [negb]; [|done].
  rewrite (get_range_extend _ _ _ _ _ Hm), bool_decide_eq_true_2 by done. cbn [negb].
  repeat match goal with
  | |- context [wal_read_uint ?w bytes ?c] =>
      let E := fresh "Hread" in
      destruct (wal_read_uint w bytes c) as [[? ?]|] eqn:E; cbn [mbind result_bind]; [|done];
      rewrite (wal_read_uint_extend _ _ more _ _ E); cbn [mbind result_bind]
  | |- context [wal_read_byte bytes ?c] =>
      let E := fresh "Hread" in
      destruct (wal_read_byte bytes c) as [[? ?]|] eqn:E; cbn [mbind result_bind]; [|done];
      rewrite (wal_read_byte_extend _ more _ _ E); cbn [mbind result_bind]
  | |- context [(len bytes - o <? ?fl)%N] =>
      let E := fresh "Hlen" in
      destruct (len bytes - o <? fl)%N eqn:E; [by destruct (has_complete_following_frame _ _ _)|]; rewrite (Hmore _ E)
  | |- context [(MAX_RECORD_PAYLOAD_BYTES <? ?x)%N] => destruct (MAX_RECORD_PAYLOAD_BYTES <? x)%N; [done|]
  | |- context [validate_frame_shape ?a ?b ?c] => destruct (validate_frame_shape a b c); cbn [mbind result_bind]; [|done]
  | |- context [if negb ?b then Err _ else _] =>
      lazymatch b with context [wal_checksum _] => fail | _ => destruct b; cbn [negb]; [|done] end
  end.
  repeat match goal with H : wal_read_uint _ _ _ = Ok _ |- _ => apply wal_read_uint_ok in H as [? ?]
    | H : wal_read_byte _ _ = Ok _ |- _ => apply wal_read_byte_ok in H end. subst.
  match goal with |- context [get_range bytes ?a (?a + ?b)] =>
    destruct (get_range_total bytes a (a + b)) as [payload Hp]; [lia..|];
    destruct (get_range_total bytes o (a + b)) as [body Hb]; [lia..|] end.
  by rewrite !(get_range_extend _ more _ _ _ Hp), !(get_range_extend _ more _ _ _ Hb), Hp, Hb.
Qed.

(** ** Progress of the recovery loop *)

Abbreviation parse_loop := (parse_wal_loop sha256).

Inductive wparsed (bytes : str) : N → N → option RecoveredState → Prop :=
  | wparsed_start : wparsed bytes 0 0 None
  | wparsed_frame o n st o' st' n' :
      wparsed bytes o n st → (o < len bytes)%N → parse_frame bytes o n st = Ok (Advance o' st') →
      checked_add_u64 n 1 = Some n' → wparsed bytes o' n' st'.

Lemma wparsed_bounds bytes o n st : wparsed bytes o n st → (32 * n <= o)%N ∧ (o <= len bytes)%N.
Proof.
  induction 1 as [|o n st o' st' n' Hp IH Ho Hf Hn]; [lia|].
  apply wal_parse_frame_progress in Hf as [? ?]. apply checked_add_u64_Some in Hn as [-> _]. lia.
Qed.

Lemma wparsed_extend bytes more o n st : wparsed bytes o n st → wparsed (bytes ++ more) o n st.
Proof.
  induction 1 as [|o n st o' st' n' Hp IH Ho Hf Hn]; [constructor|].
  eapply wparsed_frame; [done|rewrite len_app; lia| |done]. apply wal_parse_frame_extend; [lia|done].
Qed.

Lemma wparsed_loop bytes policy o n st :
  wparsed bytes o n st →
  ∀ fuel, parse_loop (N.to_nat n + fuel) bytes policy 0 0 None = parse_loop fuel bytes policy o n st.
Proof.
  induction 1 as [|o n st o' st' n' Hp IH Ho Hf Hn]; intros fuel; [done|].
  pose proof Hn as [-> _]%checked_add_u64_Some. replace (N.to_nat (n + 1) + fuel) with (N.to_nat n + S fuel) by lia.
  rewrite IH. cbn [parse_wal_loop]. destruct (N.ltb_spec o (len bytes)); [|lia]. cbn [negb]. by rewrite Hf, Hn.
Qed.

(** Once the loop stands at a completed parse, recovery continues from there with fuel left. *)
Lemma parse_wal_parsed bytes policy o n st :
  wparsed bytes o n st → (len bytes <= MAX_DURABLE_BROKER_WAL_BYTES)%N →
  ∃ fuel : nat, ((o < len bytes)%N → 0 < fuel) ∧
    parse_wal sha256 bytes policy = default (Err Wal_TruncatedRecord) (parse_loop fuel bytes policy o n st).
Proof.
  intros Hp Hmax. pose proof (wparsed_bounds _ _ _ _ Hp) as Hb.
  exists (length bytes - N.to_nat n). unfold parse_wal. split; [unfold len in *; lia|].
  destruct (N.ltb_spec MAX_DURABLE_BROKER_WAL_BYTES (len bytes)); [lia|].
  rewrite <- (wparsed_loop _ policy _ _ _ Hp). do 2 f_equal. unfold len in *. lia.
Qed.

(** Recovery never exhausts its fuel: every frame consumes at least 32 bytes. *)
Lemma wal_parse_loop_total fuel bytes policy o n st :
  (len bytes - o <= N.of_nat fuel)%N → parse_loop fuel bytes policy o n st ≠ None.
Proof.
  revert o n st. induction fuel as [|fuel IH]; intros o n st Hf; cbn [parse_wal_loop];
    destruct (N.ltb_spec o (len bytes)); cbn [negb]; try done; [lia|].
  destruct (parse_frame bytes o n st) as [[o' st'|]|] eqn:Hp; [|done..].
  apply wal_parse_frame_progress in Hp as [? ?]. destruct (checked_add_u64 n 1); [|done]. apply IH. lia.
Qed.

Lemma parse_wal_complete bytes policy n st :
  wparsed bytes (len bytes) n (Some st) → (len bytes <= MAX_DURABLE_BROKER_WAL_BYTES)%N →
  parse_wal sha256 bytes policy = Ok {| pw_state := rs_with_next (Some n) st; pw_verified_length := len bytes |}.
Proof.
  intros Hp Hmax. destruct (parse_wal_parsed _ policy _ _ _ Hp Hmax) as (fuel & _ & ->).
  destruct fuel; cbn [parse_wal_loop]; by rewrite N.ltb_irrefl.
Qed.

(** A torn tail after a completed parse. *)
Lemma parse_wal_torn bytes o n st :
  wparsed bytes o n (Some st) → (o < len bytes)%N → (len bytes <= MAX_DURABLE_BROKER_WAL_BYTES)%N →
  parse_frame bytes o n (Some st) = Ok TornTail →
  parse_wal sha256 bytes RepairTail = Ok {| pw_state := rs_with_next (Some n) st; pw_verified_length := o |} ∧
  parse_wal sha256 bytes RejectTail = Err Wal_TruncatedRecord.
Proof.
  intros Hp Ho Hmax Hf. split.
  - destruct (parse_wal_parsed _ RepairTail _ _ _ Hp Hmax) as (fuel & Hfuel & ->).
    destruct fuel as [|fuel]; [specialize (Hfuel Ho); lia|]. cbn [parse_wal_loop].
    destruct (N.ltb_spec o (len bytes)); [|lia]. cbn [negb]. by rewrite Hf.
  - destruct (parse_wal_parsed _ RejectTail _ _ _ Hp Hmax) as (fuel & Hfuel & ->).
    destruct fuel as [|fuel]; [specialize (Hfuel Ho); lia|]. cbn [parse_wal_loop].
    destruct (N.ltb_spec o (len bytes)); [|lia]. cbn [negb]. by rewrite Hf.
Qed.

Lemma parse_wal_refused bytes policy o n st e :
  wparsed bytes o n st → (o < len bytes)%N → (len bytes <= MAX_DURABLE_BROKER_WAL_BYTES)%N →
  parse_frame bytes o n st = Err e → parse_wal sha256 bytes policy = Err e.
Proof.
  intros Hp Ho Hmax Hf. destruct (parse_wal_parsed _ policy _ _ _ Hp Hmax) as (fuel & Hfuel & ->).
  destruct fuel as [|fuel]; [specialize (Hfuel Ho); lia|]. cbn [parse_wal_loop].
  destruct (N.ltb_spec o (len bytes)); [|lia]. cbn [negb]. by rewrite Hf.
Qed.
End frames.
