(* ===== verification/BrokerWalWriter.v ===== *)
(** * The writer of the broker log

    The file is a prefix that recovery reads back to the in-memory state, followed by
    nothing, or, once the writer is sealed, by part of the one record it was writing.
    Space for the final record of every active reservation is always left. *)

From S2P Require Import Prelude Bytes ControlFrame Budget ReplayGuard Cbor Response ResponseChunk ResponseProps.
From S2P Require Import ResponseChunkProps BrokerWalState BrokerWal BrokerWalInvariant BrokerWalHistory BrokerWalCodec BrokerWalFrames.

(** ** The protected space *)

Definition hsum (active : gmap BrokerRequestId N) : N :=
  map_fold (λ _ cap sum, maximum_terminal_frame_bytes cap + sum)%N 0%N active.

Lemma hsum_insert active r cap :
  active !! r = None → hsum (<[r := cap]> active) = (maximum_terminal_frame_bytes cap + hsum active)%N.
Proof. intros H. unfold hsum. rewrite map_fold_insert_L; [done|intros; lia|done]. Qed.

Lemma hsum_delete active r cap :
  active !! r = Some cap → hsum active = (maximum_terminal_frame_bytes cap + hsum (delete r active))%N.
Proof. intros H. rewrite <- (insert_delete_id active r cap H) at 1. apply hsum_insert, lookup_delete_eq. Qed.

Lemma terminal_frame_bound cap : (maximum_terminal_frame_bytes cap <= 33628573)%N.
Proof.
  unfold maximum_terminal_frame_bytes. change WAL_HEADER_LEN with 24%N. change MAX_PUBLIC_WIRE_BODY_BYTES with 33554432%N.
  change MAX_TERMINAL_RECORD_OVERHEAD with 74109%N. change WAL_CHECKSUM_LEN with 8%N. lia.
Qed.

(** The running sum of the code is [hsum], or the overflow error. *)
Definition headroom_sum (total : N) : WR N :=
  if (total <? u64_limit)%N then Ok total else Err (wal_too_large (u64_limit - 1)).

Lemma add_headroom_sum total cap :
  add_headroom (headroom_sum total) cap = headroom_sum (maximum_terminal_frame_bytes cap + total).
Proof.
  unfold add_headroom, headroom_sum. destruct (N.ltb_spec total u64_limit); cbn [mbind result_bind].
  - unfold checked_add_u64. rewrite (N.add_comm total). by destruct (_ <? _)%N.
  - destruct (N.ltb_spec (maximum_terminal_frame_bytes cap + total) u64_limit); [lia|done].
Qed.

Lemma headroom_fold active :
  map_fold (λ _ cap total, add_headroom total cap) (Ok 0%N) active = headroom_sum (hsum active).
Proof.
  apply (map_fold_weak_ind (λ r m, r = headroom_sum (hsum m))); [done|].
  intros i cap m r Hi ->. by rewrite add_headroom_sum, hsum_insert.
Qed.

Lemma headroom_fold_released active released :
  map_fold (λ request cap total, if bool_decide (Some request = released) then total else add_headroom total cap)
    (Ok 0%N) active = headroom_sum (hsum (match released with Some r => delete r active | None => active end)).
Proof.
  apply (map_fold_weak_ind (λ x m, x = headroom_sum (hsum (match released with Some r => delete r m | None => m end)))).
  { destruct released; [by rewrite delete_empty|done]. }
  intros i cap m x Hi ->. case_bool_decide as Hr.
  - subst released. by rewrite delete_insert_id, delete_id.
  - rewrite add_headroom_sum. destruct released as [r|]; [|by rewrite hsum_insert].
    rewrite delete_insert_ne by congruence. by rewrite hsum_insert by (by rewrite lookup_delete_ne by congruence).
Qed.

(** The active reservations after a change. *)
Definition changed_active (change : TerminalHeadroomChange) (r : BrokerRequestId)
    (active : gmap BrokerRequestId N) : gmap BrokerRequestId N :=
  match change with
  | Preserve => active
  | AddHeadroom cap => <[r := cap]> active
  | Release r' => delete r' active
  end.

Lemma protected_headroom_eq s change r :
  (∀ cap, change = AddHeadroom cap → bst_active (rs_budget s) !! r = None) →
  protected_terminal_headroom s change = headroom_sum (hsum (changed_active change r (bst_active (rs_budget s)))).
Proof.
  intros Hnew. unfold protected_terminal_headroom. rewrite headroom_fold_released.
  destruct change as [|cap|r']; [done| |done]. cbn [changed_active].
  by rewrite add_headroom_sum, hsum_insert by eauto.
Qed.

(** ** What recovery reads back *)

Section writer.
  Context (sha256 : str → str) (Hsha : ∀ s, len (sha256 s) = RESPONSE_DIGEST_BYTES).

Abbreviation apply_frame := (apply_recovered_frame sha256).

(** Recovered states carry the initial next sequence until the loop ends. *)
Abbreviation unnumbered := (rs_with_next (Some 1%N)).

Definition recovered_to (good : str) (n : N) (s : RecoveredState) : Prop :=
  wparsed sha256 good (len good) n (Some (unnumbered s)).

Definition fits (length : N) (s : RecoveredState) : Prop :=
  (length + hsum (bst_active (rs_budget s)) <= MAX_DURABLE_BROKER_WAL_BYTES)%N.

(** The record that takes [s] to [s'] as number [n]. *)
Record record_for (n : N) (s s' : RecoveredState) (kind : N) (payload : str) : Prop := {
  rf_typed : (0 < n < u64_limit)%N → frame_typed n kind payload;
  rf_applies : apply_frame (Some (unnumbered s)) kind n payload = Ok (Some (unnumbered s'));
  rf_wf : state_wf s';
  rf_later : state_later s s';
}.

Record wal_inv (w : DurableBrokerWal) : Prop := {
  wi_state : state_wf (bw_state w);
  wi_disk : ∃ good n tail, bw_file w = good ++ tail ∧ bw_length w = len good ∧
    rs_next_wal_sequence (bw_state w) = Some n ∧ recovered_to good n (bw_state w) ∧
    fits (len good) (bw_state w) ∧
    (tail = [] ∨ bw_sealed w = true ∧ ∃ kind payload k s',
       record_for n (bw_state w) s' kind payload ∧ rs_config s' = rs_config (bw_state w) ∧ tail = take k (wal_frame n kind payload) ∧
       fits (len good + len (wal_frame n kind payload)) s');
}.

Lemma wal_inv_open w :
  wal_inv w → bw_sealed w = false →
  ∃ n, bw_length w = len (bw_file w) ∧ rs_next_wal_sequence (bw_state w) = Some n ∧ (1 <= n)%N ∧ (n + 1 < u64_limit)%N ∧
    recovered_to (bw_file w) n (bw_state w) ∧ fits (len (bw_file w)) (bw_state w).
Proof.
  intros [_ (good & n & tail & Hf & Hl & Hn & Hp & Hfit & Ht)] Hs. destruct Ht as [->|[? _]]; [|congruence].
  rewrite app_nil_r in Hf. rewrite Hf. exists n. pose proof (wparsed_bounds _ _ _ _ _ Hp) as [Hb _].
  unfold fits in *. change MAX_DURABLE_BROKER_WAL_BYTES with 134217728%N in *. unfold u64_limit.
  split_and!; try done; [|lia]. inversion Hp as [|? n0 ? ? ? ? ? ? ? Hc]; subst; [].
  apply checked_add_u64_Some in Hc as [-> _]. lia.
Qed.

Lemma wal_addressable bytes s : fits (len bytes) s → addressable bytes.
Proof. unfold fits, addressable. change MAX_DURABLE_BROKER_WAL_BYTES with 134217728%N. unfold u64_limit. lia. Qed.

(** A whole record extends what recovery reads back. *)
Lemma recovered_extend good n s s' kind payload :
  recovered_to good n s → (1 <= n)%N → (n + 1 < u64_limit)%N → record_for n s s' kind payload →
  addressable (good ++ wal_frame n kind payload) → recovered_to (good ++ wal_frame n kind payload) (n + 1) s'.
Proof.
  intros Hp Hn0 Hn [Ht Ha Hw _] Haddr. unfold recovered_to. rewrite len_app.
  eapply wparsed_frame; [by apply wparsed_extend| | |by apply checked_add_u64_Some].
  - rewrite len_app, len_wal_frame. change WAL_CHECKSUM_LEN with 8%N. lia.
  - rewrite <- (app_nil_r (wal_frame n kind payload)). rewrite wal_parse_frame_app; [|apply Ht; lia|by rewrite app_nil_r].
    rewrite Ha. cbn [mbind result_bind]. by rewrite app_nil_r.
Qed.

(** Sealing an open writer, with part of a record behind the prefix. *)
Lemma wal_inv_torn w n kind payload k s' :
  wal_inv w → bw_sealed w = false → rs_next_wal_sequence (bw_state w) = Some n →
  record_for n (bw_state w) s' kind payload → rs_config s' = rs_config (bw_state w) →
  fits (len (bw_file w) + len (wal_frame n kind payload)) s' →
  wal_inv (wal_seal (wal_with_file (bw_file w ++ take k (wal_frame n kind payload)) w)).
Proof.
  intros Hi Hs Hn Hr Hcfg Hfit. destruct (wal_inv_open w Hi Hs) as (n' & Hl & Hn' & _ & _ & Hp & Hf). simplify_eq.
  split; [apply Hi|]. exists (bw_file w), n, (take k (wal_frame n kind payload)). cbn. split_and!; try done.
  right. split; [done|]. by exists kind, payload, k, s'.
Qed.

Lemma wal_inv_seal w : wal_inv w → wal_inv (wal_seal w).
Proof.
  intros [Hw (good & n & tail & Hf & Hl & Hn & Hp & Hfit & Ht)]. split; [done|]. exists good, n, tail. cbn.
  split_and!; try done. destruct Ht as [->|[_ Ht]]; [by left|by right].
Qed.

(** A record the writer may append: the state it leads to and the change of the
    protected space it announces agree. *)
Record appendable (w : DurableBrokerWal) (n kind : N) (payload : str) (change : TerminalHeadroomChange)
    (s' : RecoveredState) : Prop := {
  ap_open : bw_sealed w = false;
  ap_next : rs_next_wal_sequence (bw_state w) = Some n;
  ap_record : record_for n (bw_state w) s' kind payload;
  ap_active : ∃ r, bst_active (rs_budget s') = changed_active change r (bst_active (rs_budget (bw_state w))) ∧
    (∀ cap, change = AddHeadroom cap → bst_active (rs_budget (bw_state w)) !! r = None);
  ap_release : ∀ r, change = Release r → is_Some (bst_active (rs_budget (bw_state w)) !! r);
}.

(** The space a released reservation guarantees its final record. *)
Definition overflows_release (w : DurableBrokerWal) (change : TerminalHeadroomChange) (size : N) : bool :=
  match change with
  | Release r => (maximum_terminal_frame_bytes (default 0%N (bst_active (rs_budget (bw_state w)) !! r)) <? size)%N
  | _ => false
  end.

Lemma hsum_changed change r active :
  (∀ cap, change = AddHeadroom cap → active !! r = None) →
  (hsum (changed_active change r active) <= hsum active + 33628573)%N.
Proof.
  intros Hnew. destruct change as [|cap|r']; cbn [changed_active]; [lia| |].
  - rewrite hsum_insert by eauto. pose proof (terminal_frame_bound cap). lia.
  - destruct (active !! r') as [c|] eqn:Ha; [rewrite (hsum_delete _ _ _ Ha)|rewrite delete_id by done]; lia.
Qed.

(** [append] without its overflow branches, which the size bounds exclude. *)
Lemma wal_append_eq io w n kind payload change s' :
  wal_inv w → appendable w n kind payload change s' →
  let F := wal_frame n kind payload in
  wal_append io kind payload change w =
  match wio_before io with
  | Some e => (Err e, wal_seal w)
  | None =>
      if overflows_release w change (len F) then (Err (Wal_RecordTooLarge (len F)), wal_seal w)
      else
        let projected := (len (bw_file w) + len F + hsum (bst_active (rs_budget s')))%N in
        if (MAX_DURABLE_BROKER_WAL_BYTES <? projected)%N then (Err (wal_too_large projected), wal_seal w)
        else
          match wio_write io with
          | Some (k, e) => (Err (Wal_DurabilityUncertain e), wal_seal (wal_with_file (bw_file w ++ take k F) w))
          | None =>
              match wio_after io with
              | Some e => (Err e, wal_seal (wal_with_file (bw_file w ++ F) w))
              | None => (Ok tt, {| bw_file := bw_file w ++ F;
                                   bw_state := rs_with_next (Some (n + 1)%N) (bw_state w);
                                   bw_length := len (bw_file w ++ F); bw_sealed := false |})
              end
          end
  end.
Proof.
  intros Hi [Hs Hn Hrec (r & Hact & Hnew) Hrel] F.
  destruct (wal_inv_open w Hi Hs) as (n' & Hl & Hn' & Hn0 & Hseq & Hp & Hfit). simplify_eq.
  destruct (rf_typed _ _ _ _ _ Hrec ltac:(lia)) as [_ _ Hmax _].
  unfold wal_append, wal_validate_append_target, seal_with. unfold_st.
  destruct (wio_before io) as [e|]; [done|]. rewrite Hn. cbn [ok_or].
  unfold encode_frame_header. destruct (N.ltb_spec MAX_RECORD_PAYLOAD_BYTES (len payload)); [lia|].
  set (fs := (WAL_HEADER_LEN + len payload + WAL_CHECKSUM_LEN)%N).
  assert (len F = fs) as HF by apply len_wal_frame. rewrite HF.
  pose proof (protected_headroom_eq (bw_state w) change r Hnew) as Hprot. rewrite <- Hact in Hprot.
  pose proof (hsum_changed change r _ Hnew) as Hh. rewrite <- Hact in Hh. unfold fits in Hfit.
  assert (fs <= 33628573)%N as Hfs.
  { unfold fs. change MAX_RECORD_PAYLOAD_BYTES with 33628541%N in Hmax. change WAL_HEADER_LEN with 24%N.
    change WAL_CHECKSUM_LEN with 8%N. lia. }
  set (active := bst_active (rs_budget (bw_state w))) in *. clearbody fs. set (h := hsum (bst_active (rs_budget s'))) in *.
  change MAX_DURABLE_BROKER_WAL_BYTES with 134217728%N in *.
  assert (checked_add_u64 (bw_length w) fs = Some (len (bw_file w) + fs)%N) as Hadd1.
  { apply checked_add_u64_Some. unfold u64_limit. rewrite Hl. lia. }
  assert (checked_add_u64 (len (bw_file w) + fs) h = Some (len (bw_file w) + fs + h)%N) as Hadd2.
  { apply checked_add_u64_Some. unfold u64_limit. lia. }
  assert (headroom_sum h = Ok h) as Hsum.
  { unfold headroom_sum. destruct (N.ltb_spec h u64_limit) as [|Hbig]; [done|]. unfold u64_limit in Hbig. lia. }
  assert (checked_add_u64 n 1 = Some (n + 1)%N) as Hadd3 by (by apply checked_add_u64_Some).
  destruct change as [|cap|r']; cbn [overflows_release].
  3: destruct (Hrel r' eq_refl) as [cap Hcap]; unfold active in Hcap; rewrite Hcap; cbn [ok_or default from_option]; unfold id;
     destruct (maximum_terminal_frame_bytes cap <? fs)%N; [done|].
  all: rewrite Hadd1; cbn [ok_or]; rewrite Hprot, Hsum; cbn [ok_or]; rewrite Hadd2; cbn [ok_or];
       destruct (134217728 <? len (bw_file w) + fs + h)%N; [done|];
       destruct (wio_write io) as [[k e]|]; [done|]; destruct (wio_after io) as [e|]; [done|];
       rewrite Hadd3; unfold wal_with_state, wal_with_length, wal_with_file; cbn [bw_file bw_state bw_length bw_sealed]; rewrite Hs, (len_app (bw_file w) F), HF; done.
Qed.

(** An append followed by the transition it records. *)
Lemma append_then io w n kind payload change s' transition :
  wal_inv w → appendable w n kind payload change s' →
  (∀ next, transition (rs_with_next next (bw_state w)) = (Ok tt, rs_with_next next s')) →
  (wal_append io kind payload change ≫= λ _, on_state transition) w =
  match wal_append io kind payload change w with
  | (Ok _, w') => (Ok tt, wal_with_state (rs_with_next (Some (n + 1)%N) s') w')
  | (Err e, w') => (Err e, w')
  end.
Proof.
  intros Hi Ha Htr. unfold mbind, ST_bind. rewrite (wal_append_eq io w _ _ _ _ _ Hi Ha).
  destruct (wio_before io); [done|]. destruct (overflows_release _ _ _); [done|]. cbv zeta.
  destruct (_ <? _)%N; [done|]. destruct (wio_write io) as [[k e]|]; [done|]. destruct (wio_after io); [done|].
  unfold on_state. cbn [bw_state]. by rewrite Htr.
Qed.

(** ** The records of the four operations *)

Lemma accept_record s n envelope cap :
  state_wf s → envelope_typed envelope → (cap < u64_limit)%N →
  be_sequence envelope = N.of_nat (length (rs_requests s)) → (be_sequence envelope < dsc_replay_capacity (rs_config s))%N →
  rs_request_indexes s !! be_request envelope = None →
  record_for n s (accepted_state (be_sequence envelope) (be_request envelope) (be_payload_hash envelope) cap s)
    ACCEPT_KIND (encode_accept envelope cap).
Proof.
  intros Hw He Hc Hs Hcap Hr. split.
  - intros [Hn0 Hn]. split; [done|done|by rewrite len_encode_accept|].
    rewrite len_encode_accept by done. unfold validate_frame_shape, validate_frame_kind. cbn.
    destruct (N.ltb_spec 0 n); [done|lia].
  - unfold apply_recovered_frame. cbn [N.eqb Pos.eqb INIT_KIND ACCEPT_KIND ok_or mbind result_bind].
    rewrite decode_encode_accept by done. cbn [mbind result_bind]. unfold run_recovered.
    by rewrite apply_accept_parts_ok.
  - destruct He as (? & ? & ?). by apply accepted_state_wf.
  - by apply accepted_later.
Qed.

Lemma request_frame_typed n kind r :
  kind = RESERVE_KIND ∨ kind = RETRYABLE_BUDGET_KIND → len r = REQUEST_ID_BYTES → (0 < n < u64_limit)%N →
  frame_typed n kind r.
Proof.
  intros Hk Hl [Hn0 Hn]. split; [by destruct Hk as [-> | ->]|done|by rewrite Hl|].
  rewrite Hl. unfold validate_frame_shape, validate_frame_kind.
  destruct (N.ltb_spec 0 n); [by destruct Hk as [-> | ->]|lia].
Qed.

Lemma reserve_record s n r e :
  state_wf s → rs_request s r = Ok e → check_reserve r e = Ok tt →
  validate_reserve (rs_budget s) r (dr_response_cap e) (dsc_budget_limits (rs_config s)) = Ok tt →
  record_for n s (reserved_state r e s) RESERVE_KIND r.
Proof.
  intros Hw Hr Hc Hv. destruct (rs_request_ok _ _ _ Hw Hr) as (i & Hi & He & Hre & _).
  assert (len r = REQUEST_ID_BYTES) as Hl by (rewrite <- Hre; apply (sw_entries _ Hw _ _ He)). split.
  - apply request_frame_typed; auto.
  - unfold apply_recovered_frame. cbn [N.eqb Pos.eqb INIT_KIND ACCEPT_KIND RESERVE_KIND].
    rewrite decode_request_id by done. cbn [recovered_state ok_or mbind result_bind]. unfold run_recovered.
    by rewrite (apply_reserve_ok r e).
  - by apply reserved_state_wf.
  - by apply reserved_later.
Qed.

Lemma retryable_record s n r e :
  state_wf s → rs_request s r = Ok e → check_retryable r e = Ok tt →
  record_for n s (retryable_state r e s) RETRYABLE_BUDGET_KIND r.
Proof.
  intros Hw Hr Hc. destruct (rs_request_ok _ _ _ Hw Hr) as (i & Hi & He & Hre & _).
  assert (len r = REQUEST_ID_BYTES) as Hl by (rewrite <- Hre; apply (sw_entries _ Hw _ _ He)). split.
  - apply request_frame_typed; auto.
  - unfold apply_recovered_frame. cbn [N.eqb Pos.eqb INIT_KIND ACCEPT_KIND RESERVE_KIND RETRYABLE_BUDGET_KIND].
    rewrite decode_request_id by done. cbn [recovered_state ok_or mbind result_bind]. unfold run_recovered.
    by rewrite (apply_retryable_ok r e).
  - by apply retryable_state_wf.
  - by apply retryable_later.
Qed.

(** A settlement that passes validation charges a machine integer. *)
Lemma settlement_machine s r settlement :
  state_wf s → validate_settlement (rs_budget s) r settlement = Ok tt → settlement_typed settlement.
Proof.
  intros Hw Hv. unfold settlement_typed. destruct settlement as [| |bytes]; [done..|]. cbn in *.
  destruct (bst_active (rs_budget s) !! r) as [cap|] eqn:Ha; cbn in Hv; [|done].
  destruct (N.ltb_spec cap bytes) as [|Hle]; [done|].
  destruct (checked_add_u64 (bst_committed_response_bytes (rs_budget s)) bytes) as [c|] eqn:Hc; cbn in Hv; [|done].
  apply checked_add_u64_Some in Hc as [-> Hc]. unfold u64_limit in *. lia.
Qed.

Lemma final_record s n r e settlement response :
  state_wf s → rs_request s r = Ok e → check_final r settlement e = Ok tt →
  validate_settlement (rs_budget s) r settlement = Ok tt → response_wf response → rsp_request response = r →
  ∃ ws, canonical_wire_payloads sha256 response = Ok ws ∧
    encode_final r settlement ws = Ok (final_payload r settlement ws) ∧
    record_for n s (final_state r settlement response e s) FINAL_KIND (final_payload r settlement ws) ∧
    (len (final_payload r settlement ws) <= body_bytes (rsp_outcome response) + 12701)%N.
Proof.
  intros Hw Hr Hc Hv Hresp Hrr.
  destruct (final_roundtrip sha256 Hsha response r settlement Hresp Hrr (settlement_machine _ _ _ Hw Hv))
    as (ws & Hcan & Henc & Hdec & Hlo & Hhi).
  pose proof (body_bytes_bound response Hresp) as Hb.
  assert (len (final_payload r settlement ws) <= MAX_RECORD_PAYLOAD_BYTES)%N as Hmax.
  { change MAX_RECORD_PAYLOAD_BYTES with 33628541%N. change MAX_PUBLIC_WIRE_BODY_BYTES with 33554432%N in Hb. lia. }
  exists ws. split_and!; try done. split.
  - intros [Hn0 Hn]. split; [done|done|done|]. unfold validate_frame_shape, validate_frame_kind.
    cbn [N.eqb Pos.eqb INIT_KIND ACCEPT_KIND RESERVE_KIND RETRYABLE_BUDGET_KIND FINAL_KIND orb andb].
    destruct (N.ltb_spec 0 n); [|lia]. cbn [mbind result_bind].
    destruct (N.leb_spec FINAL_PREFIX_LEN (len (final_payload r settlement ws))); [|lia].
    destruct (N.leb_spec (len (final_payload r settlement ws)) MAX_RECORD_PAYLOAD_BYTES); [done|lia].
  - unfold apply_recovered_frame. cbn [N.eqb Pos.eqb INIT_KIND ACCEPT_KIND RESERVE_KIND RETRYABLE_BUDGET_KIND FINAL_KIND].
    rewrite Hdec. cbn [recovered_state ok_or mbind result_bind]. unfold run_recovered.
    rewrite (apply_final_ok r settlement response e) by done. unfold final_state. by destruct settlement.
  - by apply final_state_wf.
  - by apply final_later.
Qed.
End writer.
