(* ===== verification/BrokerWalProps.v ===== *)
(** * What the broker log guarantees

    The operations of a log's life, crashes and reopenings included, keep the
    writer's invariant; the theorems say what a reopened log knows. *)

From S2P Require Import Prelude Bytes ControlFrame Budget ReplayGuard Cbor Response ResponseChunk ResponseProps.
From S2P Require Import ResponseChunkProps BrokerWalState BrokerWal BrokerWalInvariant BrokerWalHistory BrokerWalCodec BrokerWalFrames BrokerWalWriter.

Inductive wal_op :=
  | WAccept (envelope : BrokerEnvelope) (response_cap : N)
  | WReserve (request : BrokerRequestId)
  | WRetryable (request : BrokerRequestId)
  | WFinalize (request : BrokerRequestId) (response : CanonicalBrokerResponse) (settlement : BudgetSettlement).

(** The arguments have their Rust types; a response was built by its constructors. *)
Definition wal_op_typed (op : wal_op) : Prop :=
  match op with
  | WAccept envelope cap => envelope_typed envelope ∧ (cap < u64_limit)%N
  | WFinalize _ response _ => response_wf response
  | _ => True
  end.

Section log.
  Context (sha256 : str → str).

Definition wal_step (io : WalIo) (op : wal_op) : WM unit :=
  match op with
  | WAccept envelope cap => _ ← wal_accept io envelope cap; mret tt
  | WReserve request => wal_reserve io request
  | WRetryable request => wal_mark_retryable_budget io request
  | WFinalize request response settlement => wal_finalize sha256 io request response settlement
  end.

(** An event of a log's life: an operation with what the operating system does to
    it, or a restart that reopens whatever is on disk. *)
Inductive wal_event :=
  | WStep (io : WalIo) (op : wal_op)
  | WRestart (repair : option N).

Definition wal_event_typed (ev : wal_event) : Prop :=
  match ev with WStep _ op => wal_op_typed op | WRestart _ => True end.

(** A reopening that fails leaves no usable writer. *)
Definition wal_live (ev : wal_event) (w : DurableBrokerWal) : DurableBrokerWal :=
  match ev with
  | WStep io op => (wal_step io op w).2
  | WRestart repair => match wal_open sha256 (bw_file w) repair (rs_config (bw_state w)) with
                       | Ok w' => w'
                       | Err _ => wal_seal w
                       end
  end.

Definition wal_life (events : list wal_event) (w : DurableBrokerWal) : DurableBrokerWal :=
  foldl (λ w ev, wal_live ev w) w events.

Context (Hsha : ∀ s, len (sha256 s) = RESPONSE_DIGEST_BYTES).
Abbreviation inv := (wal_inv sha256).

(** ** One operation *)

(** The state an operation records. *)
Definition op_effect (op : wal_op) (s s' : RecoveredState) : Prop :=
  match op with
  | WAccept envelope cap => rs_request_indexes s !! be_request envelope = None ∧
      s' = accepted_state (be_sequence envelope) (be_request envelope) (be_payload_hash envelope) cap s
  | WReserve request => ∃ e, rs_request s request = Ok e ∧ check_reserve request e = Ok tt ∧
      validate_reserve (rs_budget s) request (dr_response_cap e) (dsc_budget_limits (rs_config s)) = Ok tt ∧
      s' = reserved_state request e s
  | WRetryable request => ∃ e, rs_request s request = Ok e ∧ check_retryable request e = Ok tt ∧
      s' = retryable_state request e s
  | WFinalize request response settlement => ∃ e, rs_request s request = Ok e ∧ rsp_request response = request ∧
      check_final request settlement e = Ok tt ∧ validate_settlement (rs_budget s) request settlement = Ok tt ∧
      s' = final_state request settlement response e s
  end.

(** An accept of a request already in the log succeeds without a record. *)
Definition op_repeats (op : wal_op) (s : RecoveredState) : Prop :=
  match op with
  | WAccept envelope cap => ∃ e, validate_duplicate s envelope cap = Ok (Some e)
  | _ => False
  end.

(** What an operation does to an open log: refuse without a trace, or append the one
    record that takes the state to [s']. *)
Definition step_shape (op : wal_op) (w : DurableBrokerWal) : Prop :=
  (∃ r, (r = Ok tt → op_repeats op (bw_state w)) ∧ ∀ io, wal_step io op w = (r, w)) ∨
  ∃ n kind payload change s', appendable sha256 w n kind payload change s' ∧ rs_config s' = rs_config (bw_state w) ∧
    op_effect op (bw_state w) s' ∧
    ∀ io, wal_step io op w = match wal_append io kind payload change w with
                             | (Ok _, w') => (Ok tt, wal_with_state (rs_with_next (Some (n + 1)%N) s') w')
                             | (Err e, w') => (Err e, w')
                             end.

Ltac refused := eexists; split; [|intros io; reflexivity]; done.

Lemma accept_shape envelope cap w :
  inv w → bw_sealed w = false → envelope_typed envelope → (cap < u64_limit)%N → step_shape (WAccept envelope cap) w.
Proof.
  intros Hi Hs Ht Hc. destruct (wal_inv_open _ w Hi Hs) as (n & _ & Hn & _). pose proof (wi_state _ _ Hi) as Hw.
  unfold step_shape, wal_step, wal_accept, ensure_writable. unfold mbind, ST_bind, st_query, st_get, st_fail, mret, ST_ret.
  rewrite Hs. case_bool_decide as Hsess; cbn [negb]; [|left; refused].
  destruct (validate_duplicate (bw_state w) envelope cap) as [[d|]|e] eqn:Hd;
    [left; eexists; split; [intros _; exists d; exact Hd|intros io; reflexivity]| |left; refused].
  destruct (N.eqb_spec (be_sequence envelope) (N.of_nat (length (rs_requests (bw_state w))))) as [Hseq|]; cbn [negb]; [|left; refused].
  destruct (N.leb_spec (dsc_replay_capacity (rs_config (bw_state w))) (N.of_nat (length (rs_requests (bw_state w))))) as [|Hcap];
    [left; refused|].
  assert (rs_request_indexes (bw_state w) !! be_request envelope = None) as Hfresh.
  { unfold validate_duplicate in Hd. destruct (rs_request_indexes (bw_state w) !! be_request envelope) as [i|]; [|done].
    destruct (rs_requests (bw_state w) !! i); cbn in Hd; [|done]. by destruct (_ && _). }
  right. set (s' := accepted_state (be_sequence envelope) (be_request envelope) (be_payload_hash envelope) cap (bw_state w)).
  assert (appendable sha256 w n ACCEPT_KIND (encode_accept envelope cap) Preserve s') as Hap.
  { split; try done; [apply accept_record; try done; lia|by exists (be_request envelope)]. }
  exists n, ACCEPT_KIND, (encode_accept envelope cap), Preserve, s'. split_and!; [done|done|done|]. intros io.
  assert (∀ next, apply_accept envelope cap (rs_with_next next (bw_state w)) = (Ok tt, rs_with_next next s')) as Htr.
  { intros next. unfold apply_accept. unfold_st. rewrite bool_decide_eq_true_2 by done. cbn [negb].
    rewrite apply_accept_parts_ok; [done|done|cbn; lia|done]. }
  pose proof (append_then sha256 io w _ _ _ _ _ _ Hi Hap Htr) as Happ. unfold mbind, ST_bind in Happ.
  destruct (wal_append io ACCEPT_KIND (encode_accept envelope cap) Preserve w) as [[[]|e] w']; [|done]. by rewrite Happ.
Qed.

Lemma reserve_shape request w : inv w → bw_sealed w = false → step_shape (WReserve request) w.
Proof.
  intros Hi Hs. destruct (wal_inv_open _ w Hi Hs) as (n & _ & Hn & _). pose proof (wi_state _ _ Hi) as Hw.
  assert (ensure_writable w = Ok tt) as He by (unfold ensure_writable; by rewrite Hs).
  destruct (rs_request (bw_state w) request) as [e|e] eqn:Hr;
    [|left; exists (Err e); split; [done|]; intros io; cbn [wal_step]; unfold wal_reserve; by erewrite st_query_ok, st_query_err by done].
  destruct (check_reserve request e) as [[]|e'] eqn:Hc;
    [|left; exists (Err e'); split; [done|]; intros io; cbn [wal_step]; unfold wal_reserve; by erewrite !st_query_ok, st_query_err by done].
  destruct (validate_reserve (rs_budget (bw_state w)) request (dr_response_cap e) (dsc_budget_limits (rs_config (bw_state w)))) as [[]|e'] eqn:Hv;
    [|left; exists (Err e'); split; [done|]; intros io; cbn [wal_step]; unfold wal_reserve; by erewrite !st_query_ok, st_query_err by done].
  right. exists n, RESERVE_KIND, request, (AddHeadroom (dr_response_cap e)), (reserved_state request e (bw_state w)).
  assert (appendable sha256 w n RESERVE_KIND request (AddHeadroom (dr_response_cap e)) (reserved_state request e (bw_state w))) as Hap.
  { split; try done; [by apply reserve_record|exists request; split; [done|]]. intros. by eapply validate_reserve_fresh. }
  split_and!; [done|done|by exists e|]. intros io. cbn [wal_step]. unfold wal_reserve. erewrite !st_query_ok by done.
  apply append_then with (sha256 := sha256); [done|done|]. intros next. by rewrite (apply_reserve_ok request e).
Qed.

Lemma retryable_shape request w : inv w → bw_sealed w = false → step_shape (WRetryable request) w.
Proof.
  intros Hi Hs. destruct (wal_inv_open _ w Hi Hs) as (n & _ & Hn & _). pose proof (wi_state _ _ Hi) as Hw.
  assert (ensure_writable w = Ok tt) as He by (unfold ensure_writable; by rewrite Hs).
  destruct (rs_request (bw_state w) request) as [e|e] eqn:Hr;
    [|left; exists (Err e); split; [done|]; intros io; cbn [wal_step]; unfold wal_mark_retryable_budget; by erewrite st_query_ok, st_query_err by done].
  destruct (check_retryable request e) as [[]|e'] eqn:Hc;
    [|left; exists (Err e'); split; [done|]; intros io; cbn [wal_step]; unfold wal_mark_retryable_budget; by erewrite !st_query_ok, st_query_err by done].
  right. exists n, RETRYABLE_BUDGET_KIND, request, Preserve, (retryable_state request e (bw_state w)).
  assert (appendable sha256 w n RETRYABLE_BUDGET_KIND request Preserve (retryable_state request e (bw_state w))) as Hap.
  { split; try done; [by apply retryable_record|by exists request]. }
  split_and!; [done|done|by exists e|]. intros io. cbn [wal_step]. unfold wal_mark_retryable_budget. erewrite !st_query_ok by done.
  apply append_then with (sha256 := sha256); [done|done|]. intros next. by rewrite (apply_retryable_ok request e).
Qed.

(** The record of a finalisation that passes the checks. *)
Lemma final_appendable request response settlement w e :
  inv w → bw_sealed w = false → response_wf response → rsp_request response = request →
  rs_request (bw_state w) request = Ok e → check_final request settlement e = Ok tt →
  validate_settlement (rs_budget (bw_state w)) request settlement = Ok tt →
  let change := if bool_decide (is_Some (dr_reservation e)) then Release request else Preserve in
  let s' := final_state request settlement response e (bw_state w) in
  ∃ n payload, appendable sha256 w n FINAL_KIND payload change s' ∧ rs_config s' = rs_config (bw_state w) ∧
    (len payload <= body_bytes (rsp_outcome response) + 12701)%N ∧
    ∀ io, wal_finalize sha256 io request response settlement w =
      match wal_append io FINAL_KIND payload change w with
      | (Ok _, w') => (Ok tt, wal_with_state (rs_with_next (Some (n + 1)%N) s') w')
      | (Err e, w') => (Err e, w')
      end.
Proof.
  intros Hi Hs Hresp Hrr Hr Hc Hv change s'. destruct (wal_inv_open _ w Hi Hs) as (n & _ & Hn & _).
  pose proof (wi_state _ _ Hi) as Hw.
  destruct (final_record sha256 Hsha (bw_state w) n request e settlement response Hw Hr Hc Hv Hresp Hrr)
    as (ws & Hcan & Henc & Hrec & Hlen).
  destruct (rs_request_ok _ _ _ Hw Hr) as (i & _ & He & Hre & _).
  pose proof (sw_entries _ Hw _ _ He) as (_ & _ & _ & _ & Hres & _). rewrite Hre in Hres.
  exists n, (final_payload request settlement ws).
  assert (appendable sha256 w n FINAL_KIND (final_payload request settlement ws) change s') as Hap.
  { split; try done.
    - exists request. split; [|by intros cap; unfold change; case_bool_decide]. pose proof (settlement_active _ _ _ Hv) as Hact.
      assert (bst_active (rs_budget s') = delete request (bst_active (rs_budget (bw_state w)))) as ->
        by (unfold s', final_state; by destruct settlement).
      unfold change. case_bool_decide as Hb; [done|]. cbn [changed_active]. apply delete_id.
      rewrite <- Hres. by apply eq_None_not_Some.
    - intros r. unfold change. case_bool_decide as Hb; [|done]. intros [= <-]. by rewrite <- Hres. }
  split_and!; [done|unfold s', final_state; by destruct settlement|done|]. intros io.
  assert (ensure_writable w = Ok tt) as Hen by (unfold ensure_writable; by rewrite Hs).
  unfold wal_finalize. erewrite st_query_ok by done. rewrite bool_decide_eq_true_2 by done. cbn [negb].
  erewrite !st_query_ok by done. fold change. apply append_then with (sha256 := sha256); [done|done|].
  intros next. rewrite (apply_final_ok request settlement response e) by done. unfold s', final_state. by destruct settlement.
Qed.

Lemma finalize_shape request response settlement w :
  inv w → bw_sealed w = false → response_wf response → step_shape (WFinalize request response settlement) w.
Proof.
  intros Hi Hs Hresp. assert (ensure_writable w = Ok tt) as Hen by (unfold ensure_writable; by rewrite Hs).
  unfold step_shape. cbn [wal_step].
  destruct (bool_decide (rsp_request response = request)) eqn:Hrr.
  2:{ left. eexists. split; [|intros io; unfold wal_finalize; erewrite st_query_ok by done; by rewrite Hrr]. done. }
  destruct (rs_request (bw_state w) request) as [e|e] eqn:Hr.
  2:{ left. exists (Err e). split; [done|]. intros io. unfold wal_finalize. erewrite st_query_ok by done. rewrite Hrr. cbn [negb].
      by erewrite st_query_err. }
  destruct (check_final request settlement e) as [[]|e'] eqn:Hc.
  2:{ left. exists (Err e'). split; [done|]. intros io. unfold wal_finalize. erewrite st_query_ok by done. rewrite Hrr. cbn [negb].
      by erewrite st_query_ok, st_query_err by done. }
  destruct (validate_settlement (rs_budget (bw_state w)) request settlement) as [[]|e'] eqn:Hv.
  2:{ left. exists (Err e'). split; [done|]. intros io. unfold wal_finalize. erewrite st_query_ok by done. rewrite Hrr. cbn [negb].
      by erewrite !st_query_ok, st_query_err by done. }
  apply bool_decide_eq_true in Hrr. right.
  destruct (final_appendable request response settlement w e Hi Hs Hresp Hrr Hr Hc Hv) as (n & payload & Hap & Hcfg & _ & Hstep).
  eexists n, FINAL_KIND, payload, _, _. split_and!; [exact Hap|done|by exists e|done].
Qed.

Lemma wal_step_shape op w : inv w → bw_sealed w = false → wal_op_typed op → step_shape op w.
Proof.
  intros Hi Hs Ht. destruct op as [envelope cap|request|request|request response settlement]; cbn in Ht.
  - destruct Ht. by apply accept_shape.
  - by apply reserve_shape.
  - by apply retryable_shape.
  - by apply finalize_shape.
Qed.

(** A sealed log refuses every operation. *)
Lemma wal_step_sealed io op w : bw_sealed w = true → wal_step io op w = (Err Wal_Sealed, w).
Proof.
  intros Hs. assert (ensure_writable w = Err Wal_Sealed) as He by (unfold ensure_writable; by rewrite Hs).
  destruct op; cbn [wal_step]; unfold wal_accept, wal_reserve, wal_mark_retryable_budget, wal_finalize;
    by erewrite ?(st_bind_err (st_query ensure_writable ≫= _)), ?st_query_err by (done || by rewrite st_query_err with (e := Wal_Sealed)).
Qed.

(** A log as it is opened from [file]. *)
Definition opened (file : str) (n : N) (s : RecoveredState) : DurableBrokerWal :=
  {| bw_file := file; bw_state := rs_with_next (Some n) s; bw_length := len file; bw_sealed := false |}.

(** The disk and memory after one operation. *)
Lemma wal_step_cases io op w :
  inv w → bw_sealed w = false → wal_op_typed op →
  let '(r, w') := wal_step io op w in
  inv w' ∧ rs_config (bw_state w') = rs_config (bw_state w) ∧
  (w' = w ∧ (r = Ok tt → op_repeats op (bw_state w)) ∨ w' = wal_seal w ∧ r ≠ Ok tt ∨
   ∃ n kind payload change s', appendable sha256 w n kind payload change s' ∧ op_effect op (bw_state w) s' ∧
     fits (len (bw_file w) + len (wal_frame n kind payload)) s' ∧
     wal_step wal_io_ok op w = (Ok tt, opened (bw_file w ++ wal_frame n kind payload) (n + 1) s') ∧
     ((∃ k, r ≠ Ok tt ∧ w' = wal_seal (wal_with_file (bw_file w ++ take k (wal_frame n kind payload)) w)) ∨
      r = Ok tt ∧ w' = opened (bw_file w ++ wal_frame n kind payload) (n + 1) s')).
Proof.
  intros Hi Hs Ht. destruct (wal_step_shape op w Hi Hs Ht) as [(r & Hrep & Hr)|(n & kind & payload & change & s' & Hap & Hcfg & Heff & Hstep)].
  { rewrite Hr. auto. }
  pose proof (Hstep wal_io_ok) as Hgood. rewrite (wal_append_eq sha256 wal_io_ok w n kind payload change s' Hi Hap) in Hgood.
  rewrite Hstep, (wal_append_eq sha256 io w n kind payload change s' Hi Hap). cbn [wal_io_ok wio_before wio_write wio_after] in Hgood.
  pose proof Hap as [_ Hn Hrec _ _]. pose proof (wal_inv_seal _ _ Hi) as Hseal.
  destruct (wio_before io); [by split_and!; [| |right; left]|].
  destruct (overflows_release _ _ _); [by split_and!; [| |right; left]|]. cbv zeta.
  destruct (N.ltb_spec MAX_DURABLE_BROKER_WAL_BYTES
    (len (bw_file w) + len (wal_frame n kind payload) + hsum (bst_active (rs_budget s')))) as [|Hfit]; [by split_and!; [| |right; left]|].
  cbv zeta in Hgood. unfold wal_with_state in Hgood. cbn [bw_file bw_state bw_length bw_sealed] in Hgood.
  fold (opened (bw_file w ++ wal_frame n kind payload) (n + 1) s') in Hgood.
  assert (∀ k, inv (wal_seal (wal_with_file (bw_file w ++ take k (wal_frame n kind payload)) w))) as Htorn
    by (intros k; by eapply wal_inv_torn).
  destruct (wio_write io) as [[k e]|].
  { split_and!; [done|done|]. right; right. exists n, kind, payload, change, s'. split_and!; try done. left. by exists k. }
  destruct (wio_after io) as [e|].
  { specialize (Htorn (length (wal_frame n kind payload))). rewrite firstn_all in Htorn. split_and!; [done|done|].
    right; right. exists n, kind, payload, change, s'. split_and!; try done. left.
    exists (length (wal_frame n kind payload)). rewrite firstn_all. done. }
  destruct (wal_inv_open _ w Hi Hs) as (n' & Hl & Hn' & Hn0 & Hseq & Hp & Hf). simplify_eq.
  split_and!; [|done|right; right; exists n, kind, payload, change, s'; split_and!; try done; by right].
  assert (fits (len (bw_file w ++ wal_frame n kind payload)) s') as Hfit' by (unfold fits; rewrite len_app; lia).
  split; cbn; [apply state_wf_next, Hrec|].
  exists (bw_file w ++ wal_frame n kind payload), (n + 1)%N, []. rewrite app_nil_r. split_and!; try done; [|by left].
  apply (recovered_extend sha256 _ n (bw_state w) s'); try done. by eapply wal_addressable.
Qed.

(** ** Reopening *)

Lemma headroom_fits s length : fits length s → validate_recovered_headroom s length = Ok tt.
Proof.
  unfold fits, validate_recovered_headroom. rewrite headroom_fold. set (h := hsum _). clearbody h.
  change MAX_DURABLE_BROKER_WAL_BYTES with 134217728%N. intros Hf. unfold headroom_sum.
  destruct (N.ltb_spec h u64_limit) as [|Hb]; [|unfold u64_limit in Hb; lia]. cbn [mbind result_bind].
  assert (checked_add_u64 length h = Some (length + h)%N) as -> by (apply checked_add_u64_Some; unfold u64_limit; lia).
  cbn [ok_or mbind result_bind]. destruct (N.ltb_spec 134217728 (length + h)); [lia|done].
Qed.

Lemma fits_file file s : fits (len file) s → (len file <= MAX_DURABLE_BROKER_WAL_BYTES)%N.
Proof. unfold fits. lia. Qed.

(** A log without a torn tail is read back to the state that wrote it. *)
Lemma open_complete file n s repair :
  recovered_to sha256 file n s → fits (len file) s →
  wal_open sha256 file repair (rs_config s) = Ok (opened file n s) ∧ view_open sha256 file = Ok (rs_with_next (Some n) s).
Proof.
  intros Hp Hf. pose proof (fits_file _ _ Hf) as Hl. unfold recovered_to in Hp.
  unfold wal_open, view_open, read_and_repair. destruct (N.ltb_spec MAX_DURABLE_BROKER_WAL_BYTES (len file)); [lia|].
  rewrite !(parse_wal_complete sha256 file _ _ _ Hp) by done. cbn [mbind result_bind pw_verified_length pw_state].
  rewrite N.ltb_irrefl. cbn [mbind result_bind]. split; [|done].
  rewrite headroom_fits by done. cbn [mbind result_bind]. by rewrite bool_decide_eq_true_2 by done.
Qed.

(** A log that ends in part of one record: the state before it, the state after it, or
    a refusal when those bytes contain a complete frame of the following sequence. *)
Lemma open_torn file n s s' kind payload k :
  recovered_to sha256 file n s → fits (len file) s → (1 <= n)%N → (n + 1 < u64_limit)%N →
  record_for sha256 n s s' kind payload → rs_config s' = rs_config s →
  fits (len file + len (wal_frame n kind payload)) s' →
  let F := wal_frame n kind payload in
  let B := file ++ take k F in
  let r := wal_open sha256 B None (rs_config s) in
  r = Ok (opened file n s) ∨ r = Ok (opened (file ++ F) (n + 1) s') ∨
  r = Err Wal_TruncatedRecord ∧ has_complete_following_frame B (len file + WAL_HEADER_LEN) (n + 1) = true.
Proof.
  intros Hp Hf Hn0 Hn Hrec Hcfg Hfit' F B r. pose proof (fits_file _ _ Hf) as Hl.
  assert (len (file ++ F) <= MAX_DURABLE_BROKER_WAL_BYTES)%N as HlF by (rewrite len_app; unfold fits in Hfit'; unfold F; lia).
  assert (addressable (file ++ F)) as Ha.
  { apply (wal_addressable _ s'). unfold fits in *. rewrite len_app. unfold F. lia. }
  destruct (decide (length F <= k)) as [Hk|Hk].
  { right; left. unfold r, B. rewrite take_ge by done. rewrite <- Hcfg.
    apply open_complete; [by apply (recovered_extend sha256 _ n s s')|unfold fits in *; rewrite len_app; unfold F; lia]. }
  destruct (decide (k = 0)) as [->|Hk0].
  { left. unfold r, B. rewrite take_0, app_nil_r. by apply open_complete. }
  assert (len (take k F) = N.of_nat k) as HlB by (unfold len; rewrite length_take; lia).
  assert (len B <= MAX_DURABLE_BROKER_WAL_BYTES)%N as HmB by (unfold B; rewrite len_app in *; unfold len in *; lia).
  assert (len file < len B)%N as HlfB by (unfold B; rewrite len_app; lia).
  pose proof (rf_typed _ _ _ _ _ _ Hrec ltac:(lia)) as Ht.
  pose proof (wal_parse_frame_torn sha256 file n kind payload k (Some (rs_with_next (Some 1%N) s)) Ht Ha) as Htorn.
  fold F in Htorn. cbv zeta in Htorn. fold B in Htorn. specialize (Htorn ltac:(unfold len; lia)).
  assert (saturating_add n 1 = (n + 1)%N) as Hsat by (unfold saturating_add, usize_max; unfold u64_limit in *; lia).
  rewrite Hsat in Htorn. pose proof (wparsed_extend sha256 file (take k F) _ _ _ Hp) as Hp'. fold B in Hp'.
  unfold r, wal_open, read_and_repair. destruct (N.ltb_spec MAX_DURABLE_BROKER_WAL_BYTES (len B)); [lia|].
  destruct (_ && _) eqn:Hforged.
  - right; right. apply andb_true_iff in Hforged as [_ Hforged].
    by rewrite (parse_wal_refused sha256 B RepairTail _ _ _ _ Hp' HlfB HmB Htorn).
  - left. rewrite (proj1 (parse_wal_torn sha256 B _ _ _ Hp' HlfB HmB Htorn)). cbn [mbind result_bind pw_verified_length pw_state].
    destruct (N.ltb_spec (len file) (len B)); [|lia]. cbn [mbind result_bind].
    assert (take (N.to_nat (len file)) B = file) as ->
      by (unfold B, len; rewrite Nat2N.id; apply take_app_length).
    rewrite headroom_fits by done. cbn [mbind result_bind]. by rewrite bool_decide_eq_true_2 by done.
Qed.

(** ** A log's life *)

Lemma opened_inv file n s : recovered_to sha256 file n s → fits (len file) s → state_wf s → inv (opened file n s).
Proof.
  intros Hp Hf Hw. split; cbn; [by apply state_wf_next|]. exists file, n, []. rewrite app_nil_r. split_and!; try done. by left.
Qed.

Lemma open_repair bytes repair config w :
  wal_open sha256 bytes repair config = Ok w → wal_open sha256 bytes None config = Ok w.
Proof.
  unfold wal_open, read_and_repair. destruct (_ <? _)%N; [done|]. destruct (parse_wal _ _ _); cbn [mbind result_bind]; [|done].
  destruct (_ <? _)%N; [|done]. by destruct repair.
Qed.

Lemma wal_inv_reopen w repair w' :
  inv w → wal_open sha256 (bw_file w) repair (rs_config (bw_state w)) = Ok w' →
  inv w' ∧ rs_config (bw_state w') = rs_config (bw_state w) ∧ state_later (bw_state w) (bw_state w').
Proof.
  intros [Hw (good & n & tail & Hf & Hl & Hn & Hp & Hfit & Ht)] Ho%open_repair. rewrite Hf in Ho.
  assert (inv (opened good n (bw_state w))) as Hi by (by apply opened_inv).
  destruct Ht as [->|[_ (kind & payload & k & s' & Hrec & Hcfg & -> & Hfit')]].
  { rewrite app_nil_r, (proj1 (open_complete _ _ _ None Hp Hfit)) in Ho. injection Ho as <-. split_and!; [done|done|by intros r e He; exists e]. }
  destruct (wal_inv_open sha256 _ Hi eq_refl) as (n' & _ & Hn' & Hn0 & Hn1 & _). injection Hn' as <-.
  destruct (open_torn good n (bw_state w) s' kind payload k Hp Hfit Hn0 Hn1 Hrec Hcfg Hfit') as [Hr|[Hr|[Hr _]]];
    rewrite Hr in Ho; [|injection Ho as <-|done].
  - injection Ho as <-. split_and!; [done|done|by intros r e He; exists e].
  - split; [|split; [done|apply Hrec]]. apply opened_inv; [|unfold fits in *; rewrite len_app; lia|apply Hrec].
    apply (recovered_extend sha256 _ n (bw_state w) s'); try done. apply (wal_addressable _ s').
    unfold fits in *. rewrite len_app. lia.
Qed.

Lemma wal_live_inv ev w :
  inv w → wal_event_typed ev → inv (wal_live ev w) ∧ rs_config (bw_state (wal_live ev w)) = rs_config (bw_state w).
Proof.
  intros Hi Ht. destruct ev as [io op|repair]; cbn [wal_live wal_event_typed] in *.
  - destruct (bw_sealed w) eqn:Hs; [by rewrite wal_step_sealed|].
    pose proof (wal_step_cases io op w Hi Hs Ht) as Hc. destruct (wal_step io op w) as [r w']. cbn. naive_solver.
  - destruct (wal_open _ _ _ _) as [w'|] eqn:Ho; [destruct (wal_inv_reopen _ _ _ Hi Ho) as (? & ? & _); done|]. split; [by apply wal_inv_seal|done].
Qed.

Lemma wal_life_inv events w :
  inv w → Forall wal_event_typed events →
  inv (wal_life events w) ∧ rs_config (bw_state (wal_life events w)) = rs_config (bw_state w).
Proof.
  intros Hi Hev. revert w Hi. induction Hev as [|ev events Ht _ IH]; intros w Hi; [done|].
  destruct (wal_live_inv ev w Hi Ht) as [Hi' <-]. apply (IH _ Hi').
Qed.

(** A new log. *)
Lemma wal_create_ok config :
  config_wf config →
  ∃ w, wal_create config = Ok w ∧ inv w ∧ rs_config (bw_state w) = config ∧ bw_sealed w = false.
Proof.
  intros Hc. pose proof Hc as (Hs & _). unfold wal_create, encode_frame, encode_frame_header.
  assert (len (encode_init config) = INIT_PAYLOAD_LEN) as Hl
    by (unfold encode_init; rewrite !len_app, Hs, !len_le_bytes; reflexivity).
  rewrite Hl. change (MAX_RECORD_PAYLOAD_BYTES <? INIT_PAYLOAD_LEN)%N with false. cbn [mbind result_bind]. rewrite <- Hl.
  change (wal_header_bytes 0 INIT_KIND (len (encode_init config)) ++ encode_init config ++
    le_bytes 8 (wal_checksum_parts (wal_header_bytes 0 INIT_KIND (len (encode_init config))) (encode_init config)))
    with (wal_frame 0 INIT_KIND (encode_init config)).
  set (F := wal_frame 0 INIT_KIND (encode_init config)).
  assert (len F = 80%N) as HF by (unfold F; rewrite len_wal_frame, Hl; reflexivity).
  eexists. split; [done|]. split; [|done]. split; cbn [bw_state]; [by apply new_state_wf|].
  exists F, 1%N, []. rewrite app_nil_r. split_and!; try done; [| |by left].
  - assert (len F = (len [] + len F)%N) as Hz by done.
    eapply (wparsed_frame sha256 F 0 0 None); [constructor|by rewrite HF| |done].
    rewrite <- (app_nil_l F) at 1. rewrite <- (app_nil_r F) at 1. change 0%N with (len []) at 1. unfold F.
    rewrite wal_parse_frame_app; [|split; [done|done|by rewrite Hl|by rewrite Hl]|unfold addressable; rewrite app_nil_r; fold F; by rewrite app_nil_l, HF].
    unfold apply_recovered_frame. cbn [N.eqb INIT_KIND]. by rewrite decode_encode_init.
  - unfold fits. rewrite HF. done.
Qed.

(** ** Summary of one operation, for its callers *)

Lemma wal_step_result io op w :
  inv w → wal_op_typed op →
  let '(r, w') := wal_step io op w in
  inv w' ∧ rs_config (bw_state w') = rs_config (bw_state w) ∧ state_later (bw_state w) (bw_state w') ∧
  match r with
  | Ok _ => bw_sealed w' = false ∧ bw_sealed w = false ∧
      (w' = w ∧ op_repeats op (bw_state w) ∨
       ∃ n s', op_effect op (bw_state w) s' ∧ bw_state w' = rs_with_next n s')
  | Err _ => bw_state w' = bw_state w
  end.
Proof.
  intros Hi Ht. destruct (bw_sealed w) eqn:Hs; [rewrite wal_step_sealed by done; by split_and!|].
  pose proof (wal_step_cases io op w Hi Hs Ht) as Hc. destruct (wal_step io op w) as [r w'].
  destruct Hc as (Hi' & Hcfg & [[-> Hrep]|[[-> Hne]|(n & kind & payload & change & s' & Hap & Heff & _ & _ & Hd)]]).
  - split_and!; try done. destruct r as [[]|]; [|done]. split_and!; auto.
  - split_and!; try done. by destruct r as [[]|].
  - destruct Hd as [(k & Hne & ->)|[-> ->]].
    + split_and!; try done. by destruct r as [[]|].
    + split_and!; try done; [apply Hap|]. right. by exists (Some (n + 1)%N), s'.
Qed.

(** The two ways an accept succeeds. *)
Lemma wal_accept_result io envelope cap w acceptance w' :
  wal_accept io envelope cap w = (Ok acceptance, w') →
  match acceptance with
  | ExactDuplicate e => w' = w ∧ bw_sealed w = false ∧ validate_duplicate (bw_state w) envelope cap = Ok (Some e)
  | AcceptedNew => validate_duplicate (bw_state w) envelope cap = Ok None
  end ∧ be_session envelope = dsc_session (rs_config (bw_state w)).
Proof.
  unfold wal_accept, ensure_writable. unfold mbind, ST_bind, st_query, st_get, st_fail, mret, ST_ret.
  destruct (bw_sealed w) eqn:Hs; [done|]. case_bool_decide as Hsess; cbn [negb]; [|done].
  destruct (validate_duplicate (bw_state w) envelope cap) as [[e|]|]; [by intros [= <- <-]| |done].
  destruct (negb _); [done|]. destruct (_ <=? _)%N; [done|].
  destruct (wal_append _ _ _ _ w) as [[[]|] w1]; [|done]. destruct (on_state _ w1) as [[[]|] w2]; [|done].
  by intros [= <- <-].
Qed.

Lemma validate_duplicate_Some s envelope cap e :
  validate_duplicate s envelope cap = Ok (Some e) →
  view_request s (be_request envelope) = Some e ∧ dr_sequence e = be_sequence envelope ∧
  dr_payload_hash e = be_payload_hash envelope ∧ dr_response_cap e = cap.
Proof.
  unfold validate_duplicate, view_request. destruct (rs_request_indexes s !! be_request envelope) as [i|]; [|done].
  cbn. destruct (rs_requests s !! i) as [d|]; cbn; [|done].
  destruct (N.eqb_spec (dr_sequence d) (be_sequence envelope)); cbn; [|done].
  case_bool_decide; cbn; [|done]. destruct (N.eqb_spec (dr_response_cap d) cap); [|done]. by intros [= <-].
Qed.

Lemma validate_duplicate_None s envelope cap :
  validate_duplicate s envelope cap = Ok None → rs_request_indexes s !! be_request envelope = None.
Proof.
  unfold validate_duplicate. destruct (rs_request_indexes s !! be_request envelope) as [i|]; [|done].
  destruct (rs_requests s !! i) as [d|]; cbn; [|done]. by destruct (_ && _).
Qed.
End log.
