(* ===== verification/BrokerWalClaims.v ===== *)
(** * Theorems on the broker's write-ahead log *)

From S2P Require Import Prelude Bytes ControlFrame Budget ReplayGuard Cbor Response ResponseChunk ResponseProps.
From S2P Require Import ResponseChunkProps BrokerWalState BrokerWal BrokerWalInvariant BrokerWalHistory BrokerWalCodec BrokerWalFrames BrokerWalWriter BrokerWalProps.

(** A request with an active reservation passes the checks of its finalisation. *)
Lemma reserved_checks s request e cap settlement :
  state_wf s → view_request s request = Some e → dr_reservation e = Some cap →
  settlement = SettleAbort ∨ (∃ n, settlement = SettleComplete n ∧ (n <= cap)%N) →
  rs_request s request = Ok e ∧ bst_active (rs_budget s) !! request = Some cap ∧
  check_final request settlement e = Ok tt ∧ validate_settlement (rs_budget s) request settlement = Ok tt.
Proof.
  intros Hw Hview Hcap Hset.
  unfold view_request in Hview. destruct (rs_request_indexes s !! request) as [i|] eqn:Hix; cbn in Hview; [|done].
  assert (rs_request s request = Ok e) as Hr by (unfold rs_request, rs_find; rewrite Hix; cbn; by rewrite Hview).
  pose proof (sw_entries _ Hw _ _ Hview) as (_ & _ & _ & _ & Hres & Hph & _).
  destruct (rs_request_ok _ _ _ Hw Hr) as (j & _ & _ & Hre & _). rewrite Hre, Hcap in Hres. symmetry in Hres.
  destruct (Hph cap Hcap) as [Hce Hpend]. split_and!; [done|done| |].
  { apply check_final_ok. rewrite Hpend, Hcap. split; [done|]. naive_solver. }
  destruct Hset as [->|(m & -> & Hm)]; [cbn; by rewrite Hres|].
  pose proof (settle_is_complete (dsc_budget_limits (rs_config s)) (rs_budget s) request m) as Hsc.
  destruct (complete_result _ (sw_budget _ Hw) (proj1 (proj2 (proj2 (sw_config _ Hw)))) request m)
    as [(r & _ & _ & Hok)|(er & _ & _ & Hno)].
  - rewrite Hok in Hsc. by destruct (validate_settlement _ _ _) as [[]|[]].
  - destruct Hno. eexists. cbn [mirror sb_active]. by rewrite mirror_lookup, Hres.
Qed.

(** The entry of a finalised request. *)
Lemma final_state_view s next request settlement response e :
  view_request s request = Some e →
  view_request (rs_with_next next (final_state request settlement response e s)) request =
  Some (entry_with (Final response) None (Some settlement) e).
Proof.
  unfold view_request. destruct (rs_request_indexes s !! request) as [i|] eqn:Hix; cbn [mbind option_bind]; [|done].
  intros Hview. assert (rs_request_indexes (rs_with_next next (final_state request settlement response e s)) =
    rs_request_indexes s) as -> by (unfold final_state; by destruct settlement).
  rewrite Hix. cbn [mbind option_bind].
  assert (rs_requests (rs_with_next next (final_state request settlement response e s)) =
    <[i := entry_with (Final response) None (Some settlement) e]> (rs_requests s)) as ->
    by (unfold final_state, put_entry; destruct settlement; cbn; by rewrite Hix).
  apply list_lookup_insert_eq. by eapply lookup_lt_Some.
Qed.

(** A reserved request of an open log can be finalised with any response within its cap. *)
Lemma reserved_finalize_ok sha256 w request e cap response settlement :
  (∀ s, len (sha256 s) = RESPONSE_DIGEST_BYTES) → wal_inv sha256 w →
  bw_sealed w = false → view_request (bw_state w) request = Some e → dr_reservation e = Some cap →
  response_wf response → rsp_request response = request → (body_bytes (rsp_outcome response) <= cap)%N →
  settlement = SettleAbort ∨ (∃ n, settlement = SettleComplete n ∧ (n <= cap)%N) →
  ∃ w', wal_finalize sha256 wal_io_ok request response settlement w = (Ok tt, w') ∧ bw_sealed w' = false ∧
    view_request (bw_state w') request = Some (entry_with (Final response) None (Some settlement) e).
Proof.
  intros Hsha Hi Hs Hview Hcap Hresp Hrr Hbody Hset.
  pose proof (wi_state _ _ Hi) as Hw. destruct (wal_inv_open _ w Hi Hs) as (n & _ & _ & _ & _ & _ & Hf).
  destruct (reserved_checks _ _ _ _ _ Hw Hview Hcap Hset) as (Hr & Hres & Hc & Hv).
  destruct (final_appendable sha256 Hsha request response settlement w e Hi Hs Hresp Hrr Hr Hc Hv)
    as (n' & payload & Hap & Hcs & Hlen & Hstep).
  rewrite Hstep, (wal_append_eq sha256 wal_io_ok w _ _ _ _ _ Hi Hap). rewrite Hcap. cbn [wal_io_ok wio_before wio_write wio_after].
  rewrite bool_decide_eq_true_2 by eauto. cbn [overflows_release]. rewrite Hres. cbn [default from_option]. unfold id.
  assert (len (wal_frame n' FINAL_KIND payload) <= maximum_terminal_frame_bytes cap)%N as Hroom.
  { rewrite len_wal_frame. unfold maximum_terminal_frame_bytes. pose proof (body_bytes_bound response Hresp) as Hb.
    change MAX_TERMINAL_RECORD_OVERHEAD with 74109%N. lia. }
  destruct (N.ltb_spec (maximum_terminal_frame_bytes cap) (len (wal_frame n' FINAL_KIND payload))); [lia|]. cbv zeta.
  assert (bst_active (rs_budget (final_state request settlement response e (bw_state w))) =
    delete request (bst_active (rs_budget (bw_state w)))) as Hact.
  { rewrite <- (settlement_active _ _ _ Hv). unfold final_state. by destruct settlement. }
  rewrite Hact. pose proof (hsum_delete _ _ _ Hres) as Hsum. unfold fits in Hf.
  destruct (N.ltb_spec MAX_DURABLE_BROKER_WAL_BYTES
    (len (bw_file w) + len (wal_frame n' FINAL_KIND payload) + hsum (delete request (bst_active (rs_budget (bw_state w)))))); [lia|].
  eexists. split; [done|]. split; [done|]. by apply final_state_view.
Qed.

Section claims.
  Context (sha256 : str → str) (Hsha : ∀ s, len (sha256 s) = RESPONSE_DIGEST_BYTES).
  Context (config : DurableSessionConfig) (w0 : DurableBrokerWal) (events : list wal_event).
  Context (Hconfig : config_wf config) (Hcreate : wal_create config = Ok w0) (Hevents : Forall wal_event_typed events).

Abbreviation final := (wal_life sha256 events w0).

Lemma life_inv : wal_inv sha256 final ∧ rs_config (bw_state final) = config.
Proof using Hsha Hconfig Hcreate Hevents.
  destruct (wal_create_ok sha256 config Hconfig) as (w1 & H1 & Hi & Hcfg & _).
  rewrite Hcreate in H1. injection H1 as <-.
  destruct (wal_life_inv sha256 Hsha events w0 Hi Hevents) as [Hinv Hc]. by rewrite Hc.
Qed.

(** C27: reopening an unsealed log, after any history of operations, failures, torn writes
    and restarts, gives back exactly the writer that wrote it: file, requests,
    outcomes, budget and next sequence; a read-only view shows the same state.  No
    tail is ever cut off. *)
Theorem wal_reopen_exact repair :
  bw_sealed final = false →
  wal_open sha256 (bw_file final) repair config = Ok final ∧ view_open sha256 (bw_file final) = Ok (bw_state final).
Proof using Hsha Hconfig Hcreate Hevents.
  intros Hs. destruct life_inv as [Hi Hcfg]. set (w := final) in *. clearbody w.
  destruct (wal_inv_open _ w Hi Hs) as (n & Hl & Hn & _ & _ & Hp & Hf).
  destruct (open_complete sha256 _ _ _ repair Hp Hf) as [Ho Hv]. rewrite Hcfg in Ho. rewrite Ho, Hv.
  unfold opened. destruct w as [file [c rq idx b ev nx] l sealed]. cbn in *. by subst.
Qed.

(** C28: an operation is atomic across a crash: whatever the operating system does to its
    append, the log reopens to the writer before the operation or to the writer
    after its success, and nothing in between.  The one refusal is a torn record
    whose own bytes hold a complete valid frame with the following sequence. *)
Theorem wal_crash_atomic io op :
  bw_sealed final = false → wal_op_typed op →
  let file := bw_file (wal_step sha256 io op final).2 in
  wal_open sha256 file None config = Ok final ∨
  wal_open sha256 file None config = Ok (wal_step sha256 wal_io_ok op final).2 ∨
  wal_open sha256 file None config = Err Wal_TruncatedRecord ∧
    ∃ n, rs_next_wal_sequence (bw_state final) = Some n ∧
      has_complete_following_frame file (len (bw_file final) + WAL_HEADER_LEN) (n + 1) = true.
Proof using Hsha Hconfig Hcreate Hevents.
  intros Hs Ht. destruct life_inv as [Hi Hcfg]. set (w := final) in *. clearbody w.
  destruct (wal_inv_open _ w Hi Hs) as (n & Hl & Hn & Hn0 & Hn1 & Hp & Hf).
  assert (opened (bw_file w) n (bw_state w) = w) as Hw.
  { unfold opened. destruct w as [file [c rq idx b ev nx] l sealed]. cbn in *. by subst. }
  pose proof (proj1 (open_complete sha256 _ _ _ None Hp Hf)) as Ho. rewrite Hcfg, Hw in Ho.
  pose proof (wal_step_cases sha256 Hsha io op w Hi Hs Ht) as Hc. destruct (wal_step sha256 io op w) as [r w'].
  destruct Hc as (Hi' & Hcfg' & [[-> _]|[[-> _]|(m & kind & payload & change & s' & Hap & _ & Hfit & Hok & Hdisk)]]); [by left|by left|].
  destruct Hap as [_ Hm Hrec _ _]. assert (m = n) as -> by congruence. rewrite Hok. cbn [snd].
  assert (rs_config s' = rs_config (bw_state w)) as Hcs.
  { pose proof (wal_step_cases sha256 Hsha wal_io_ok op w Hi Hs Ht) as Hc. rewrite Hok in Hc. apply Hc. }
  assert (∃ k, bw_file w' = bw_file w ++ take k (wal_frame n kind payload)) as [k ->].
  { destruct Hdisk as [(k & _ & ->)|[_ ->]]; [by exists k|]. exists (length (wal_frame n kind payload)). by rewrite firstn_all. }
  destruct (open_torn sha256 (bw_file w) n (bw_state w) s' kind payload k Hp Hf Hn0 Hn1 Hrec Hcs Hfit)
    as [Hr|[Hr|[Hr Hforged]]]; rewrite Hcfg in Hr; rewrite Hr; [left; by rewrite Hw|by auto|eauto 10].
Qed.

(** C29: a reserved request is finalised by every writer that has not sealed itself: for any
    response within its cap, under either settlement, the final record passes every check and
    fits the space the log kept for it, however full the log is, and the request ends final with
    that response.  A writer that has sealed itself (a write failed, or a record was refused for
    lack of space) refuses without any change; reopening its log is an event of the history, so
    the statement then applies to the reopened writer. *)
Theorem reserved_request_finalizes request e cap response settlement :
  view_request (bw_state final) request = Some e → dr_reservation e = Some cap →
  response_wf response → rsp_request response = request → (body_bytes (rsp_outcome response) <= cap)%N →
  settlement = SettleAbort ∨ (∃ n, settlement = SettleComplete n ∧ (n <= cap)%N) →
  let finalized := wal_finalize sha256 wal_io_ok request response settlement final in
  if bw_sealed final then finalized = (Err Wal_Sealed, final)
  else ∃ w', finalized = (Ok tt, w') ∧ bw_sealed w' = false ∧
    view_request (bw_state w') request = Some (entry_with (Final response) None (Some settlement) e).
Proof using Hsha Hconfig Hcreate Hevents.
  destruct life_inv as [Hi Hcfg]. intros Hview Hcap Hresp Hrr Hbody Hset. cbv zeta.
  destruct (bw_sealed final) eqn:Hs; [|by apply (reserved_finalize_ok _ _ _ e cap)].
  exact (wal_step_sealed sha256 wal_io_ok (WFinalize request response settlement) final Hs).
Qed.

(** The budget a reader rebuilds by replaying the logged events is the one the counters
    describe, event history and counters never disagree, and reservations never
    exceed the session's allowance. *)
Theorem wal_budget_restored :
  let s := bw_state final in
  ∃ b, restore_budget s = Ok b ∧ sb_limits b = dsc_budget_limits config ∧
    sb_started b = bst_started_requests (rs_budget s) ∧ sb_committed b = bst_committed_response_bytes (rs_budget s) ∧
    sb_reserved b = bst_reserved_response_bytes (rs_budget s) ∧
    (∀ r, rr_max_response_bytes <$> sb_active b !! r = bst_active (rs_budget s) !! r) ∧
    (sb_committed b + reserved_sum (sb_active b) <= sbl_response_bytes (sb_limits b))%N ∧
    (sb_started b <= sbl_requests (sb_limits b))%N.
Proof using Hsha Hconfig Hcreate Hevents.
  intros s. destruct life_inv as [Hi Hcfg]. fold s in Hcfg. pose proof (wi_state _ _ Hi) as Hw. fold s in Hw.
  pose proof (sw_budget _ Hw) as [Hsum Hb Hst _ _].
  eexists. split; [apply (sw_events _ Hw)|]. split_and!; try done; [by rewrite <- Hcfg| |].
  - intros r. cbn [mirror sb_active]. rewrite mirror_lookup. by destruct (bst_active (rs_budget s) !! r).
  - rewrite <- Hsum. apply Hb.
Qed.
End claims.
