(* ===== verification/BrokerWalDemo.v ===== *)
(** * A concrete broker log

    Instances of the log theorems, and a torn record that recovery takes for lost
    history. *)

From S2P Require Import Prelude Bytes ControlFrame Budget ReplayGuard Cbor Http Response ResponseChunk ResponseProps.
From S2P Require Import ResponseChunkProps BrokerWalState BrokerWal BrokerWalInvariant BrokerWalHistory BrokerWalCodec BrokerWalFrames BrokerWalWriter BrokerWalProps BrokerWalClaims.

(** A function with 32-byte digests. *)
Definition demo_digest (s : str) : str := replicate 32 (default (N2b 0) (last s)).

Lemma demo_digest_len s : len (demo_digest s) = RESPONSE_DIGEST_BYTES.
Proof. reflexivity. Qed.

Definition demo_wal_config : DurableSessionConfig :=
  {| dsc_session := replicate 16 (N2b 1); dsc_replay_capacity := 4;
     dsc_budget_limits := {| sbl_requests := 4; sbl_response_bytes := 100000; sbl_concurrent := 2 |} |}.

Lemma demo_wal_config_wf : config_wf demo_wal_config.
Proof. repeat split. Qed.

Definition demo_wal : DurableBrokerWal :=
  match wal_create demo_wal_config with
  | Ok w => w
  | Err _ => {| bw_file := []; bw_state := RecoveredState_new demo_wal_config; bw_length := 0; bw_sealed := true |}
  end.

Lemma demo_wal_created : wal_create demo_wal_config = Ok demo_wal.
Proof. vm_compute. reflexivity. Qed.

Definition demo_request (n : N) : BrokerRequestId := replicate 16 (N2b n).

Definition demo_envelope (sequence : N) : BrokerEnvelope :=
  {| be_session := replicate 16 (N2b 1); be_sequence := sequence; be_request := demo_request (sequence + 7);
     be_payload_hash := replicate 32 (N2b 9) |}.

Definition torn_io (written : nat) : WalIo :=
  {| wio_before := None; wio_write := Some (written, 5%N); wio_after := None |}.

(** Accepts, loses the second accept in a torn write, restarts, then reserves. *)
Definition demo_events : list wal_event :=
  [WStep wal_io_ok (WAccept (demo_envelope 0) 1000); WStep (torn_io 50) (WAccept (demo_envelope 1) 1000);
   WRestart None; WStep wal_io_ok (WReserve (demo_request 7))].

Lemma demo_events_typed : Forall wal_event_typed demo_events.
Proof. repeat constructor. Qed.

Lemma wal_reopen_exact_witness :
  let w := wal_life demo_digest demo_events demo_wal in
  wal_open demo_digest (bw_file w) None demo_wal_config = Ok w ∧ view_open demo_digest (bw_file w) = Ok (bw_state w).
Proof.
  apply (wal_reopen_exact demo_digest demo_digest_len demo_wal_config demo_wal demo_events demo_wal_config_wf
    demo_wal_created demo_events_typed None). vm_compute. reflexivity.
Defined.

Lemma wal_crash_atomic_witness :
  let w := wal_life demo_digest demo_events demo_wal in
  let file := bw_file (wal_step demo_digest (torn_io 60) (WAccept (demo_envelope 1) 10) w).2 in
  wal_open demo_digest file None demo_wal_config = Ok w ∨
  wal_open demo_digest file None demo_wal_config = Ok (wal_step demo_digest wal_io_ok (WAccept (demo_envelope 1) 10) w).2 ∨
  wal_open demo_digest file None demo_wal_config = Err Wal_TruncatedRecord ∧
    ∃ n, rs_next_wal_sequence (bw_state w) = Some n ∧
      has_complete_following_frame file (len (bw_file w) + WAL_HEADER_LEN) (n + 1) = true.
Proof.
  apply (wal_crash_atomic demo_digest demo_digest_len demo_wal_config demo_wal demo_events demo_wal_config_wf
    demo_wal_created demo_events_typed (torn_io 60) (WAccept (demo_envelope 1) 10)).
  - vm_compute. reflexivity.
  - repeat constructor.
Defined.

(** A response of one public fetch. *)
Definition demo_answer (body : str) : CanonicalBrokerResponse :=
  {| rsp_request := demo_request 7;
     rsp_outcome := WirePublic {| pwr_status := 200; pwr_host := {| ch_name := lit "example.com" |};
       pwr_path := {| cup_segments := [lit "v1"] |}; pwr_body := body |} |}.

Lemma demo_answer_wf body : (len body <= MAX_PUBLIC_WIRE_BODY_BYTES)%N → response_wf (demo_answer body).
Proof.
  intros Hb. split; [done|]. split_and!.
  - by apply PublicWireResponse_new_ok.
  - apply (CanonicalHost_new_wf (lit "example.com")). vm_compute. reflexivity.
  - apply (CanonicalUrlPath_new_iff (lit "/v1")). vm_compute. reflexivity.
Qed.

Definition demo_entry : DurableRequest :=
  {| dr_sequence := 0; dr_request := demo_request 7; dr_payload_hash := replicate 32 (N2b 9); dr_response_cap := 1000;
     dr_phase := AcceptedPending; dr_reservation := Some 1000%N; dr_final_settlement := None |}.

(** The writer seals itself after the reservation; then it is reopened. *)
Definition demo_sealed_events : list wal_event :=
  [WStep wal_io_ok (WAccept (demo_envelope 0) 1000); WStep wal_io_ok (WReserve (demo_request 7));
   WStep (torn_io 50) (WAccept (demo_envelope 1) 1000)].

Lemma demo_sealed_typed restarts : Forall wal_event_typed (demo_sealed_events ++ replicate restarts (WRestart None)).
Proof. apply Forall_app. split; [repeat constructor|]. by apply Forall_replicate. Qed.

Lemma reserved_request_finalizes_witness :
  wal_finalize demo_digest wal_io_ok (demo_request 7) (demo_answer (lit "body")) (SettleComplete 4)
    (wal_life demo_digest (demo_sealed_events ++ replicate 0 (WRestart None)) demo_wal)
  = (Err Wal_Sealed, wal_life demo_digest (demo_sealed_events ++ replicate 0 (WRestart None)) demo_wal) ∧
  ∃ w', wal_finalize demo_digest wal_io_ok (demo_request 7) (demo_answer (lit "body")) (SettleComplete 4)
          (wal_life demo_digest (demo_sealed_events ++ replicate 1 (WRestart None)) demo_wal) = (Ok tt, w') ∧
    bw_sealed w' = false ∧
    view_request (bw_state w') (demo_request 7) =
      Some (entry_with (Final (demo_answer (lit "body"))) None (Some (SettleComplete 4)) demo_entry).
Proof.
  assert (Hset : SettleComplete 4 = SettleAbort ∨ ∃ n, SettleComplete 4 = SettleComplete n ∧ (n <= 1000)%N)
    by (right; by exists 4%N).
  assert (Hrun : ∀ restarts, view_request (bw_state (wal_life demo_digest
      (demo_sealed_events ++ replicate restarts (WRestart None)) demo_wal)) (demo_request 7) = Some demo_entry →
    let final := wal_life demo_digest (demo_sealed_events ++ replicate restarts (WRestart None)) demo_wal in
    let finalized := wal_finalize demo_digest wal_io_ok (demo_request 7) (demo_answer (lit "body")) (SettleComplete 4) final in
    if bw_sealed final then finalized = (Err Wal_Sealed, final)
    else ∃ w', finalized = (Ok tt, w') ∧ bw_sealed w' = false ∧ view_request (bw_state w') (demo_request 7) =
      Some (entry_with (Final (demo_answer (lit "body"))) None (Some (SettleComplete 4)) demo_entry)).
  { intros restarts Hv. exact (reserved_request_finalizes demo_digest demo_digest_len demo_wal_config demo_wal
      (demo_sealed_events ++ replicate restarts (WRestart None)) demo_wal_config_wf demo_wal_created
      (demo_sealed_typed restarts) (demo_request 7) demo_entry 1000 (demo_answer (lit "body")) (SettleComplete 4)
      Hv eq_refl (demo_answer_wf (lit "body") ltac:(done)) eq_refl ltac:(done) Hset). }
  pose proof (Hrun 0 ltac:(vm_compute; reflexivity)) as H0. pose proof (Hrun 1 ltac:(vm_compute; reflexivity)) as H1.
  cbv zeta in H0, H1. clear Hrun.
  assert (S0 : bw_sealed (wal_life demo_digest (demo_sealed_events ++ replicate 0 (WRestart None)) demo_wal) = true)
    by (vm_compute; reflexivity).
  assert (S1 : bw_sealed (wal_life demo_digest (demo_sealed_events ++ replicate 1 (WRestart None)) demo_wal) = false)
    by (vm_compute; reflexivity).
  rewrite S0 in H0. rewrite S1 in H1. exact (conj H0 H1).
Defined.

Lemma wal_budget_restored_witness :
  let s := bw_state (wal_life demo_digest demo_events demo_wal) in
  ∃ b, restore_budget s = Ok b ∧ sb_limits b = dsc_budget_limits demo_wal_config ∧
    sb_started b = bst_started_requests (rs_budget s) ∧ sb_committed b = bst_committed_response_bytes (rs_budget s) ∧
    sb_reserved b = bst_reserved_response_bytes (rs_budget s) ∧
    (∀ r, rr_max_response_bytes <$> sb_active b !! r = bst_active (rs_budget s) !! r) ∧
    (sb_committed b + reserved_sum (sb_active b) <= sbl_response_bytes (sb_limits b))%N ∧
    (sb_started b <= sbl_requests (sb_limits b))%N.
Proof.
  apply (wal_budget_restored demo_digest demo_digest_len demo_wal_config demo_wal demo_events demo_wal_config_wf
    demo_wal_created demo_events_typed).
Defined.

(** The torn tail of one final record can make a log unopenable.  A response body that
    contains a complete frame carrying the following sequence is enough: when the
    write of its final record is cut short behind that frame, recovery takes the
    record for a damaged one with history after it and refuses the log.  Cut before
    it, the same record is repaired away. *)
Theorem embedded_frame_blocks_recovery :
  let w := wal_life demo_digest demo_events demo_wal in
  let forged := wal_frame 4 RESERVE_KIND (demo_request 8) in
  let op := WFinalize (demo_request 7) (demo_answer (forged ++ lit "rest")) (SettleComplete (len forged + 4)) in
  let after written := wal_open demo_digest (bw_file (wal_step demo_digest (torn_io written) op w).2) None demo_wal_config in
  rs_next_wal_sequence (bw_state w) = Some 3%N ∧
  after 60 = Ok w ∧ after 160 = Err Wal_TruncatedRecord.
Proof. vm_compute. split_and!; reflexivity. Qed.
