(* ===== verification/DurableRecord.v ===== *)
(** * Durable audit records ([crates/authority-core/src/durable_audit.rs])

    Receipts, evidence, verdicts and the three payload grammars of the write-ahead
    journal: attempt metadata (START), terminal outcome (FINISH) and provider
    verdict (RECONCILE).  The writer appends to a byte buffer; the reader carries
    the payload and an offset.  A diagnostic string built with [format!] is kept as
    its fixed text and its arguments. *)

From S2P Require Import Prelude Bytes Path File Http GitHub Capability.

Definition u32_limit : N := 2 ^ 32.
Definition MAX_RECORD_PAYLOAD : N := 8 * 1024 * 1024.
Definition MAX_COMMIT_UNKNOWN_EVIDENCE_BYTES : N := 64 * 1024.
Definition MAX_COMMIT_RECEIPT_BYTES : N := 64 * 1024.
Definition ATTEMPT_PAYLOAD_VERSION : N := 2.
Definition RECONCILE_PAYLOAD_VERSION : N := 1.
Definition RECONCILED_COMMITTED : N := 1.
Definition RECONCILED_NOT_COMMITTED : N := 2.

Abbreviation AttemptId := N.

Inductive AttemptOutcome := Started | Denied | FailedBeforeCommit | Committed | CommitUnknown.

#[export] Instance AttemptOutcome_eq_dec : EqDecision AttemptOutcome.
Proof. solve_decision. Defined.

(** ** Errors *)

Inductive diagnostic :=
  | Text (text : str)
  | TextNumber (text : str) (number : N)
  | TextNumbers (text : str) (first second : N)
  | TextPathError (error : InvalidPathSegment)
  | TextHostError (error : InvalidCanonicalHost)
  | TextUrlError (error : InvalidCanonicalUrlPath)
  | TextBranchError (error : InvalidBranchName).

Inductive DurableAuditError :=
  | Durable_Io (kind message : str)
  | Durable_Locked
  | Durable_Symlink
  | Durable_NotRegularFile
  | Durable_PathIdentityChanged
  | Durable_WrongOwner (expected actual : N)
  | Durable_UnsafePermissions (mode : N)
  | Durable_UnsafeParentDirectory
  | Durable_LockPoisoned
  | Durable_JournalUnavailable
  | Durable_JournalFull (length max_length : N)
  | Durable_CapacityExceeded (current projected capacity : N)
  | Durable_InvalidCapacity (requested maximum : N)
  | Durable_InvalidMagic
  | Durable_UnsupportedVersion (version : N)
  | Durable_TruncatedRecord
  | Durable_ChecksumMismatch (sequence : N)
  | Durable_SequenceMismatch (expected actual : N)
  | Durable_ReplayDetected (attempt_id : AttemptId)
  | Durable_InvalidRecord (message : diagnostic)
  | Durable_RecordTooLarge (length : N)
  | Durable_SequenceExhausted.

Definition invalid_payload (message : diagnostic) : DurableAuditError := Durable_InvalidRecord message.

(** [u32::try_from(length)]. *)
Definition u32_length (length : N) : result DurableAuditError N :=
  if (length <? u32_limit)%N then Ok length else Err (Durable_RecordTooLarge length).

(** ** Receipts, evidence and verdicts *)

Record CommitReceipt := { rcpt_attempt_id : AttemptId; rcpt_token : str }.

Definition CommitReceipt_new (attempt_id : AttemptId) (token : str) : CommitReceipt :=
  {| rcpt_attempt_id := attempt_id; rcpt_token := token |}.

Definition CommitReceipt_kernel_success (attempt_id : AttemptId) : CommitReceipt :=
  CommitReceipt_new attempt_id (lit "kernel-executor-returned-success").

Definition validate_commit_unknown_token (token : str) : result DurableAuditError unit :=
  if bool_decide (token = [])
  then Err (Durable_InvalidRecord (Text (lit "CommitUnknown evidence cannot be empty")))
  else if (MAX_COMMIT_UNKNOWN_EVIDENCE_BYTES <? len token)%N
  then Err (Durable_RecordTooLarge (len token))
  else Ok tt.

Record CommitUnknownEvidence := { cue_attempt_id : AttemptId; cue_token : str }.

Definition CommitUnknownEvidence_new (attempt_id : AttemptId) (token : str)
    : result DurableAuditError CommitUnknownEvidence :=
  _ ← validate_commit_unknown_token token;
  Ok {| cue_attempt_id := attempt_id; cue_token := token |}.

Inductive ReconciledCommit :=
  | ReconciledCommitted (receipt : CommitReceipt)
  | ReconciledNotCommitted.

#[export] Instance CommitReceipt_eq_dec : EqDecision CommitReceipt.
Proof. solve_decision. Defined.
#[export] Instance CommitUnknownEvidence_eq_dec : EqDecision CommitUnknownEvidence.
Proof. solve_decision. Defined.
#[export] Instance ReconciledCommit_eq_dec : EqDecision ReconciledCommit.
Proof. solve_decision. Defined.

(** ** The payload writer *)

Abbreviation Writer := (ST str DurableAuditError).

Definition pw_byte (value : N) : Writer unit := st_modify (λ bytes, bytes ++ [N2b value]).
Definition pw_u32 (value : N) : Writer unit := st_modify (λ bytes, bytes ++ le_bytes 4 value).
Definition pw_u64 (value : N) : Writer unit := st_modify (λ bytes, bytes ++ le_bytes 8 value).
Definition pw_bytes (value : str) : Writer unit := st_modify (λ bytes, bytes ++ value).

Definition pw_string (value : str) : Writer unit :=
  length ← st_query (λ _, u32_length (len value));
  _ ← pw_u32 length;
  _ ← pw_bytes value;
  bytes ← st_get;
  if (MAX_RECORD_PAYLOAD <? len bytes)%N then st_fail (Durable_RecordTooLarge (len bytes))
  else mret tt.

Fixpoint pw_strings (segments : list str) : Writer unit :=
  match segments with
  | [] => mret tt
  | segment :: rest => _ ← pw_string segment; pw_strings rest
  end.

(** A counted segment list: the length as [u32], then each segment. *)
Definition pw_segments (segments : list str) : Writer unit :=
  count ← st_query (λ _, u32_length (N.of_nat (length segments)));
  _ ← pw_u32 count;
  pw_strings segments.

(** ** The payload reader *)

Record PayloadReader := { pr_bytes : str; pr_offset : N }.

Abbreviation Reader := (ST PayloadReader DurableAuditError).

Definition PayloadReader_new (bytes : str) : PayloadReader := {| pr_bytes := bytes; pr_offset := 0 |}.

Definition pr_take (length : N) : Reader str := λ self,
  match checked_add_u64 (pr_offset self) length with
  | None => (Err (invalid_payload (Text (lit "attempt payload length overflowed"))), self)
  | Some finish =>
      match get_range (pr_bytes self) (pr_offset self) finish with
      | None => (Err (invalid_payload (Text (lit "attempt payload ended early"))), self)
      | Some slice => (Ok slice, {| pr_bytes := pr_bytes self; pr_offset := finish |})
      end
  end.

Definition pr_byte : Reader N := bytes ← pr_take 1; mret (from_le_bytes bytes).
Definition pr_u32 : Reader N := bytes ← pr_take 4; mret (from_le_bytes bytes).
Definition pr_u64 : Reader N := bytes ← pr_take 8; mret (from_le_bytes bytes).

Definition pr_string : Reader str :=
  length ← pr_u32;
  bytes ← pr_take length;
  if utf8_valid bytes then mret bytes
  else st_fail (invalid_payload (Text (lit "attempt payload string is not UTF-8"))).

Fixpoint pr_strings (count : nat) : Reader (list str) :=
  match count with
  | O => mret []
  | S count => segment ← pr_string; rest ← pr_strings count; mret (segment :: rest)
  end.

Definition pr_segments : Reader (list str) :=
  count ← pr_u32;
  pr_strings (N.to_nat count).

Definition pr_is_exhausted (self : PayloadReader) : bool := (pr_offset self =? len (pr_bytes self))%N.

(** ** Attempt metadata (START) *)

Record DurableAttemptMetadata := {
  dam_state_instance : N;
  dam_caller : SubjectId;
  dam_capability_id : CapId;
  dam_authorization_epoch : N;
  dam_requests : CapabilityRequestSet;
}.

Definition encode_authority_request (request : AuthorityRequest) : Writer unit :=
  match request with
  | ReqFile request =>
      _ ← pw_byte 1;
      _ ← pw_string (fr_repository request);
      _ ← pw_byte (FileEffect_tag (fr_effect request));
      pw_segments (cp_segments (fr_path request))
  | ReqHttpFetch request =>
      _ ← pw_byte 2;
      _ ← pw_byte (HttpFetchMethod_discriminant (hr_method request));
      _ ← pw_string (ch_name (hr_host request));
      _ ← pw_segments (cup_segments (hr_path request));
      pw_u64 (hr_max_response_bytes request)
  | ReqGitHub request =>
      _ ← pw_byte 3;
      _ ← pw_string (gr_installation request);
      _ ← pw_string (gr_repository request);
      _ ← pw_byte (GitHubOperation_discriminant (gr_operation request));
      _ ← pw_segments (bn_segments (gr_base request));
      pw_segments (bn_segments (gr_head request))
  end.

Fixpoint encode_requests (requests : list CapabilityRequest) : Writer unit :=
  match requests with
  | [] => mret tt
  | request :: rest =>
      _ ← pw_u64 (crq_time request);
      _ ← encode_authority_request (crq_authority request);
      encode_requests rest
  end.

Definition encode_attempt_payload (state_instance : N) (caller : SubjectId) (capability_id : CapId)
    (requests : CapabilityRequestSet) (authorization_epoch : N) : result DurableAuditError str :=
  if negb (crs_complete requests)
  then Err (Durable_InvalidRecord
    (TextNumber (lit "effect request set exceeds the request limit") (N.of_nat MAX_REQUESTS_PER_EFFECT)))
  else
    let write : Writer unit :=
      _ ← pw_byte ATTEMPT_PAYLOAD_VERSION;
      _ ← pw_u64 state_instance;
      _ ← pw_string caller;
      _ ← pw_string capability_id;
      _ ← pw_u64 authorization_epoch;
      count ← st_query (λ _, u32_length (N.of_nat (length (CapabilityRequestSet_iter requests))));
      _ ← pw_u32 count;
      encode_requests (CapabilityRequestSet_iter requests) in
    match write [] with
    | (Err error, _) => Err error
    | (Ok _, payload) =>
        if (MAX_RECORD_PAYLOAD <? len payload)%N then Err (Durable_RecordTooLarge (len payload))
        else Ok payload
    end.

Definition decode_file_effect (tag : N) : result DurableAuditError FileEffect :=
  ok_or (FileEffect_from_tag tag)
    (invalid_payload (TextNumber (lit "attempt payload holds unknown file effect") tag)).

Definition decode_http_method (tag : N) : result DurableAuditError HttpFetchMethod :=
  match tag with
  | 0 => Ok Get
  | 1 => Ok Head
  | _ => Err (invalid_payload (TextNumber (lit "attempt payload holds unknown HTTP method") tag))
  end%N.

Definition decode_github_operation (tag : N) : result DurableAuditError GitHubOperation :=
  match tag with
  | 0 => Ok PublishBranch
  | 1 => Ok CreatePullRequest
  | _ => Err (invalid_payload (TextNumber (lit "attempt payload holds unknown GitHub operation") tag))
  end%N.

Definition decode_url_path (segments : list str) : result DurableAuditError CanonicalUrlPath :=
  if bool_decide (segments = []) then Ok CanonicalUrlPath_root
  else map_err (λ error, invalid_payload (TextUrlError error))
         (CanonicalUrlPath_new (lit "/" ++ join (chr "/") segments)).

Definition decode_branch (segments : list str) : result DurableAuditError BranchName :=
  map_err (λ error, invalid_payload (TextBranchError error))
    (BranchName_new (join (chr "/") segments)).

Definition lift {S A} (outcome : result DurableAuditError A) : ST S DurableAuditError A :=
  st_query (λ _, outcome).

Definition decode_authority_request : Reader AuthorityRequest :=
  tag ← pr_byte;
  match tag with
  | 1 =>
      repository ← pr_string;
      tag ← pr_byte;
      effect ← lift (decode_file_effect tag);
      segments ← pr_segments;
      path ← lift (map_err (λ error, invalid_payload (TextPathError error)) (CanonicalPath_new segments));
      mret (ReqFile {| fr_repository := repository; fr_effect := effect; fr_path := path |})
  | 2 =>
      tag ← pr_byte;
      method ← lift (decode_http_method tag);
      name ← pr_string;
      host ← lift (map_err (λ error, invalid_payload (TextHostError error)) (CanonicalHost_new name));
      segments ← pr_segments;
      path ← lift (decode_url_path segments);
      max_response_bytes ← pr_u64;
      mret (ReqHttpFetch {| hr_method := method; hr_host := host; hr_path := path;
                            hr_max_response_bytes := max_response_bytes |})
  | 3 =>
      installation ← pr_string;
      repository ← pr_string;
      tag ← pr_byte;
      operation ← lift (decode_github_operation tag);
      segments ← pr_segments;
      base ← lift (decode_branch segments);
      segments ← pr_segments;
      head ← lift (decode_branch segments);
      mret (ReqGitHub {| gr_installation := installation; gr_repository := repository;
                         gr_operation := operation; gr_base := base; gr_head := head |})
  | _ => st_fail (invalid_payload (TextNumber (lit "attempt payload holds unknown authority tag") tag))
  end%N.

Fixpoint decode_requests (count : nat) : Reader (list CapabilityRequest) :=
  match count with
  | O => mret []
  | S count =>
      time ← pr_u64;
      authority ← decode_authority_request;
      rest ← decode_requests count;
      mret ({| crq_time := time; crq_authority := authority |} :: rest)
  end.

Definition decode_attempt_reader : Reader DurableAttemptMetadata :=
  version ← pr_byte;
  state_instance ←
    match version with
    | 1 => mret 0
    | 2 => pr_u64
    | _ => st_fail (invalid_payload (TextNumber (lit "unsupported attempt payload version") version))
    end%N;
  caller ← pr_string;
  capability_id ← pr_string;
  authorization_epoch ← pr_u64;
  count ← pr_u32;
  if (count =? 0)%N then st_fail (invalid_payload (Text (lit "attempt payload authorized no request")))
  else if (N.of_nat MAX_REQUESTS_PER_EFFECT <? count)%N
  then st_fail (Durable_InvalidRecord
    (TextNumber (lit "attempt payload exceeds the request limit") (N.of_nat MAX_REQUESTS_PER_EFFECT)))
  else
    requests ← decode_requests (N.to_nat count);
    self ← st_get;
    if negb (pr_is_exhausted self)
    then st_fail (invalid_payload (Text (lit "attempt payload has trailing bytes")))
    else match requests with
    | [] => st_fail (invalid_payload (Text (lit "attempt payload authorized no request")))
    | first :: additional =>
        mret {| dam_state_instance := state_instance; dam_caller := caller;
                dam_capability_id := capability_id;
                dam_authorization_epoch := authorization_epoch;
                dam_requests := CapabilityRequestSet_new first additional |}
    end.

Definition decode_attempt_payload (payload : str) : result DurableAuditError DurableAttemptMetadata :=
  (decode_attempt_reader (PayloadReader_new payload)).1.

(** ** Terminal outcome (FINISH) *)

Definition outcome_code (outcome : AttemptOutcome) : N :=
  match outcome with
  | Started => 0 | Denied => 1 | FailedBeforeCommit => 2 | Committed => 3 | CommitUnknown => 4
  end.

Definition decode_outcome (code : N) : result DurableAuditError AttemptOutcome :=
  match code with
  | 1 => Ok Denied
  | 2 => Ok FailedBeforeCommit
  | 3 => Ok Committed
  | 4 => Ok CommitUnknown
  | _ => Err (Durable_InvalidRecord (Text (lit "unknown terminal outcome")))
  end%N.

Definition invalid_record (text : string) : DurableAuditError := Durable_InvalidRecord (Text (lit text)).

Definition validate_finish (outcome : AttemptOutcome) (receipt : option CommitReceipt)
    (evidence : option CommitUnknownEvidence) (attempt_id : AttemptId)
    : result DurableAuditError unit :=
  _ ← match receipt with
      | Some receipt =>
          if negb (rcpt_attempt_id receipt =? attempt_id)%N
          then Err (invalid_record "commit receipt belongs to another attempt") else Ok tt
      | None => Ok tt
      end;
  _ ← match receipt with
      | Some receipt =>
          if bool_decide (rcpt_token receipt = [])
          then Err (invalid_record "commit receipt token cannot be empty")
          else if (MAX_COMMIT_RECEIPT_BYTES <? len (rcpt_token receipt))%N
          then Err (Durable_RecordTooLarge (len (rcpt_token receipt))) else Ok tt
      | None => Ok tt
      end;
  _ ← match evidence with
      | Some evidence =>
          if negb (cue_attempt_id evidence =? attempt_id)%N
          then Err (invalid_record "commit-unknown evidence belongs to another attempt")
          else validate_commit_unknown_token (cue_token evidence)
      | None => Ok tt
      end;
  match outcome, receipt, evidence with
  | Started, _, _ => Err (invalid_record "Started is not a terminal outcome")
  | Committed, Some _, None => Ok tt
  | Committed, _, _ => Err (invalid_record "Committed requires only a commit receipt")
  | CommitUnknown, None, Some _ => Ok tt
  | CommitUnknown, _, _ =>
      Err (invalid_record "CommitUnknown requires only bounded ambiguity evidence")
  | (Denied | FailedBeforeCommit), None, None => Ok tt
  | (Denied | FailedBeforeCommit), _, _ =>
      Err (invalid_record "Denied and FailedBeforeCommit cannot carry terminal evidence")
  end.

Definition encode_finish_payload (attempt_id : AttemptId) (outcome : AttemptOutcome)
    (receipt : option CommitReceipt) (evidence : option CommitUnknownEvidence)
    : result DurableAuditError str :=
  _ ← validate_finish outcome receipt evidence attempt_id;
  let payload := [N2b (outcome_code outcome)] in
  match (match receipt with
         | Some receipt => Some (rcpt_token receipt)
         | None => cue_token <$> evidence
         end) with
  | Some token =>
      token_length ← u32_length (len token);
      Ok (payload ++ le_bytes 4 token_length ++ token)
  | None => Ok payload
  end.

Abbreviation FinishRecord := (AttemptOutcome * option CommitReceipt * option CommitUnknownEvidence)%type.

(** The branch of [decode_finish_payload] for outcomes that carry a token. *)
Definition decode_finish_token (outcome : AttemptOutcome) (token_limit : N) (empty : string)
    (build : str → result DurableAuditError FinishRecord) (rest : str)
    : result DurableAuditError FinishRecord :=
  if (len rest <? 4)%N then Err Durable_TruncatedRecord
  else
    let token_length := from_le_bytes (take 4 rest) in
    if (token_length =? 0)%N then Err (invalid_record empty)
    else if (token_limit <? token_length)%N then Err (Durable_RecordTooLarge token_length)
    else if negb (len rest =? 4 + token_length)%N
    then Err (invalid_record "terminal evidence length does not match finish payload")
    else build (drop 4 rest).

Definition decode_finish_payload (payload : str) (attempt_id : AttemptId)
    : result DurableAuditError FinishRecord :=
  match payload with
  | [] => Err (invalid_record "empty finish payload")
  | code :: rest =>
      outcome ← decode_outcome (b2N code);
      match outcome with
      | Committed =>
          decode_finish_token outcome MAX_COMMIT_RECEIPT_BYTES "commit receipt token cannot be empty"
            (λ token, Ok (outcome, Some (CommitReceipt_new attempt_id token), None)) rest
      | CommitUnknown =>
          decode_finish_token outcome MAX_COMMIT_UNKNOWN_EVIDENCE_BYTES
            "CommitUnknown evidence cannot be empty"
            (λ token, evidence ← CommitUnknownEvidence_new attempt_id token;
                      Ok (outcome, None, Some evidence)) rest
      | _ =>
          if negb (bool_decide (rest = []))
          then Err (invalid_record "non-committed finish payload has trailing bytes")
          else Ok (outcome, None, None)
      end
  end.

(** ** Provider verdict (RECONCILE) *)

Definition encode_reconcile_payload (verdict : ReconciledCommit) : result DurableAuditError str :=
  let write : Writer unit :=
    _ ← pw_byte RECONCILE_PAYLOAD_VERSION;
    match verdict with
    | ReconciledCommitted receipt =>
        _ ← pw_byte RECONCILED_COMMITTED;
        _ ← pw_u64 (rcpt_attempt_id receipt);
        length ← st_query (λ _, u32_length (len (rcpt_token receipt)));
        _ ← pw_u32 length;
        pw_bytes (rcpt_token receipt)
    | ReconciledNotCommitted => pw_byte RECONCILED_NOT_COMMITTED
    end in
  match write [] with
  | (Err error, _) => Err error
  | (Ok _, payload) =>
      if (MAX_RECORD_PAYLOAD <? len payload)%N then Err (Durable_RecordTooLarge (len payload))
      else Ok payload
  end.

Definition decode_reconcile_reader (attempt_id : AttemptId) : Reader ReconciledCommit :=
  version ← pr_byte;
  if negb (version =? RECONCILE_PAYLOAD_VERSION)%N
  then st_fail (invalid_payload (TextNumber (lit "unsupported reconciliation payload version") version))
  else
    tag ← pr_byte;
    verdict ←
      (if (tag =? RECONCILED_COMMITTED)%N then
         recorded ← pr_u64;
         if negb (recorded =? attempt_id)%N
         then st_fail (invalid_payload (Text (lit "reconciled receipt belongs to another attempt")))
         else
           length ← pr_u32;
           token ← pr_take length;
           if bool_decide (token = [])
           then st_fail (invalid_payload (Text (lit "reconciled receipt token is empty")))
           else mret (ReconciledCommitted (CommitReceipt_new attempt_id token))
       else if (tag =? RECONCILED_NOT_COMMITTED)%N then mret ReconciledNotCommitted
       else st_fail (invalid_payload (TextNumber (lit "unknown reconciliation verdict") tag)));
    self ← st_get;
    if negb (pr_is_exhausted self)
    then st_fail (invalid_payload (Text (lit "reconciliation payload has trailing bytes")))
    else mret verdict.

Definition decode_reconcile_payload (payload : str) (attempt_id : AttemptId)
    : result DurableAuditError ReconciledCommit :=
  (decode_reconcile_reader attempt_id (PayloadReader_new payload)).1.
