(* ===== verification/DurableRecordProps.v ===== *)
(** * Round trips of the durable payload grammars

    [reader_at pre rest] is a reader that consumed [pre] and still holds [rest];
    each primitive consumes exactly what its writer appended.  The encoders and
    decoders of START, FINISH and RECONCILE payloads are then inverse. *)

From S2P Require Import Prelude Bytes Path File Http GitHub Capability StateInvariant DurableRecord.

(** A reader positioned between the consumed prefix and the remaining bytes. *)
Definition reader_at (pre rest : str) : PayloadReader :=
  {| pr_bytes := pre ++ rest; pr_offset := len pre |}.

Lemma pr_take_app pre slice rest :
  addressable (pre ++ slice ++ rest) →
  pr_take (len slice) (reader_at pre (slice ++ rest)) = (Ok slice, reader_at (pre ++ slice) rest).
Proof.
  unfold addressable. rewrite !len_app. intros Hlt. unfold pr_take, reader_at. cbn [pr_offset pr_bytes].
  assert (checked_add_u64 (len pre) (len slice) = Some (len pre + len slice)%N) as ->
    by (apply checked_add_u64_Some; lia).
  rewrite get_range_app. by rewrite len_app, (assoc_L (++)).
Qed.

(** ** Writers and readers as encodings

    [writes m enc]: when it succeeds, [m] appends exactly [enc], and it succeeds
    whenever the result is of admissible size.  [parses m enc v]:
    inside any payload of admissible size, [m] consumes exactly [enc] and returns
    [v].  Both compose along [≫=]. *)

Definition writes (m : Writer unit) (enc : str) : Prop :=
  ∀ buf, (∀ u buf', m buf = (Ok u, buf') → buf' = buf ++ enc) ∧
    ((len (buf ++ enc) <= MAX_RECORD_PAYLOAD)%N → m buf = (Ok tt, buf ++ enc)).

Definition parses {A} (m : Reader A) (enc : str) (v : A) : Prop :=
  ∀ pre rest, (len (pre ++ enc ++ rest) <= MAX_RECORD_PAYLOAD)%N →
    m (reader_at pre (enc ++ rest)) = (Ok v, reader_at (pre ++ enc) rest).

Lemma writes_bind m (k : unit → Writer unit) e1 e2 :
  writes m e1 → (∀ u, writes (k u) e2) → writes (m ≫= k) (e1 ++ e2).
Proof.
  intros H1 H2 buf. unfold mbind, ST_bind. rewrite (assoc_L (++)). split.
  - intros u buf'. destruct (m buf) as [[[]|] b1] eqn:Hm; [|done].
    intros Hk%H2. rewrite Hk. by apply H1 in Hm as ->.
  - intros Hlen. rewrite (proj2 (H1 buf)) by (rewrite !len_app in *; lia). by apply H2.
Qed.

Lemma writes_query {A} (q : result DurableAuditError A) (k : A → Writer unit) enc :
  (∀ a, q = Ok a → writes (k a) enc) →
  ((len enc <= MAX_RECORD_PAYLOAD)%N → is_ok q = true) → writes (st_query (λ _, q) ≫= k) enc.
Proof.
  intros Hk Hq buf. unfold mbind, ST_bind, st_query. destruct q as [a|e].
  - by apply Hk.
  - split; [done|]. rewrite len_app. intros Hlen. by discriminate Hq; lia.
Qed.

Lemma parses_bind {A B} (m : Reader A) (k : A → Reader B) e1 e2 a b :
  parses m e1 a → parses (k a) e2 b → parses (m ≫= k) (e1 ++ e2) b.
Proof.
  intros H1 H2 pre rest Hlen. unfold mbind, ST_bind. rewrite <- (assoc_L (++)) in *.
  rewrite H1 by done. rewrite H2 by (by rewrite <- (assoc_L (++))). by rewrite (assoc_L (++)).
Qed.

Lemma parses_bind_nil {A B} (m : Reader A) (k : A → Reader B) enc a b :
  parses m enc a → parses (k a) [] b → parses (m ≫= k) enc b.
Proof. intros H1 H2. rewrite <- (app_nil_r enc). by eapply parses_bind. Qed.

Lemma parses_ret {A} (a : A) : parses (mret a) [] a.
Proof. intros pre rest _. by rewrite app_nil_r. Qed.

Lemma parses_lift {A B} (o : result DurableAuditError A) a (k : A → Reader B) enc b :
  o = Ok a → parses (k a) enc b → parses (lift o ≫= k) enc b.
Proof. intros -> Hk. apply Hk. Qed.

Lemma parses_take slice n : n = len slice → parses (pr_take n) slice slice.
Proof.
  intros -> pre rest Hlen. apply pr_take_app. unfold addressable.
  unfold MAX_RECORD_PAYLOAD, u64_limit in *. lia.
Qed.

Lemma parses_le w n (k : str → N) :
  (∀ bs, k bs = from_le_bytes bs) → (n < 256 ^ N.of_nat w)%N →
  parses (bytes ← pr_take (N.of_nat w); mret (k bytes)) (le_bytes w n) n.
Proof.
  intros Hk Hn. eapply parses_bind_nil.
  - apply parses_take. unfold len. by rewrite length_le_bytes.
  - rewrite Hk, from_to_le_bytes by done. apply parses_ret.
Qed.

Lemma parses_byte n : (n < 256)%N → parses pr_byte [N2b n] n.
Proof.
  intros Hn. replace [N2b n] with (le_bytes 1 n) by done. by apply (parses_le 1).
Qed.

Lemma parses_u32 n : (n < u32_limit)%N → parses pr_u32 (le_bytes 4 n) n.
Proof. intros Hn. by apply (parses_le 4). Qed.

Lemma parses_u64 n : (n < u64_limit)%N → parses pr_u64 (le_bytes 8 n) n.
Proof. intros Hn. by apply (parses_le 8). Qed.

(** A parser is only ever run inside a payload that holds its encoding. *)
Lemma parses_bounded {A} (m : Reader A) enc v :
  ((len enc <= MAX_RECORD_PAYLOAD)%N → parses m enc v) → parses m enc v.
Proof. intros H pre rest Hlen. apply H; [|done]. rewrite !len_app in Hlen. lia. Qed.

(** ** Strings and segments *)

Definition enc_string (s : str) : str := le_bytes 4 (len s) ++ s.

Lemma writes_modify enc : writes (st_modify (λ bytes, bytes ++ enc)) enc.
Proof. intros buf. split; [by intros u buf' [= _ <-]|done]. Qed.

Lemma u32_length_ok n m : u32_length n = Ok m → m = n.
Proof. unfold u32_length. case_match; naive_solver. Qed.

Lemma u32_length_fits n : (n <= MAX_RECORD_PAYLOAD)%N → is_ok (u32_length n) = true.
Proof.
  intros Hn. unfold u32_length. destruct (N.ltb_spec n u32_limit); [done|].
  unfold u32_limit, MAX_RECORD_PAYLOAD in *. lia.
Qed.

Lemma writes_string s : writes (pw_string s) (enc_string s).
Proof.
  apply writes_query; unfold enc_string.
  2:{ rewrite len_app. intros. apply u32_length_fits. lia. }
  intros n ->%u32_length_ok.
  apply writes_bind; [apply writes_modify|]. intros _. rewrite <- (app_nil_r s) at 2.
  apply writes_bind; [apply writes_modify|]. intros _ buf. unfold_st. rewrite app_nil_r.
  destruct (N.ltb_spec MAX_RECORD_PAYLOAD (len buf)).
  - split; [done|]. lia.
  - split; [by intros u buf' [= _ <-]|done].
Qed.

Lemma parses_string s : utf8_valid s = true → parses pr_string (enc_string s) s.
Proof.
  intros Hu. apply parses_bounded. unfold enc_string. rewrite len_app, len_le_bytes. intros Hlen.
  eapply parses_bind.
  - apply parses_u32. unfold MAX_RECORD_PAYLOAD, u32_limit in *. lia.
  - eapply parses_bind_nil; [by apply parses_take|]. rewrite Hu. apply parses_ret.
Qed.

Definition enc_strings (ws : list str) : str := concat (map enc_string ws).
Definition enc_segments (ws : list str) : str := le_bytes 4 (N.of_nat (length ws)) ++ enc_strings ws.

Lemma writes_strings ws : writes (pw_strings ws) (enc_strings ws).
Proof.
  induction ws as [|w ws IH]; simpl.
  - intros buf. unfold enc_strings. simpl. rewrite app_nil_r.
    split; [by intros u buf' [= _ <-]|done].
  - apply writes_bind; [apply writes_string|done].
Qed.

Lemma len_enc_strings ws : (4 * N.of_nat (length ws) <= len (enc_strings ws))%N.
Proof.
  induction ws as [|w ws IH]; [done|]. change (enc_strings (w :: ws)) with (enc_string w ++ enc_strings ws).
  rewrite len_app. unfold enc_string at 1. rewrite len_app, len_le_bytes. simpl length. lia.
Qed.

Lemma writes_segments ws : writes (pw_segments ws) (enc_segments ws).
Proof.
  apply writes_query; unfold enc_segments.
  2:{ pose proof (len_enc_strings ws). rewrite len_app. intros. apply u32_length_fits. lia. }
  intros n ->%u32_length_ok.
  apply writes_bind; [apply writes_modify|]. intros _. apply writes_strings.
Qed.

Lemma parses_strings ws :
  Forall (λ w, utf8_valid w = true) ws → parses (pr_strings (length ws)) (enc_strings ws) ws.
Proof.
  induction 1 as [|w ws Hw _ IH]; simpl; [apply parses_ret|].
  eapply parses_bind; [by apply parses_string|].
  eapply parses_bind_nil; [done|]. apply parses_ret.
Qed.

Lemma parses_segments ws :
  Forall (λ w, utf8_valid w = true) ws → parses pr_segments (enc_segments ws) ws.
Proof.
  intros Hws. apply parses_bounded. unfold enc_segments. rewrite len_app, len_le_bytes. intros Hlen.
  pose proof (len_enc_strings ws). eapply parses_bind.
  - apply parses_u32. unfold MAX_RECORD_PAYLOAD, u32_limit in *. lia.
  - rewrite Nat2N.id. by apply parses_strings.
Qed.

(** ** Requests *)

Abbreviation utf8_strings ws := (Forall (λ w, utf8_valid w = true) ws).

(** A request as the typed constructors build it. *)
Definition AuthorityRequest_wf (request : AuthorityRequest) : Prop :=
  match request with
  | ReqFile r =>
      utf8_strings (fr_repository r :: cp_segments (fr_path r)) ∧ CanonicalPath_wf (fr_path r)
  | ReqHttpFetch r =>
      CanonicalHost_wf (hr_host r) ∧ CanonicalUrlPath_wf (hr_path r) ∧
      (hr_max_response_bytes r < u64_limit)%N
  | ReqGitHub r =>
      utf8_strings (gr_installation r :: gr_repository r ::
                    bn_segments (gr_base r) ++ bn_segments (gr_head r)) ∧
      BranchName_wf (gr_base r) ∧ BranchName_wf (gr_head r)
  end.

Definition CapabilityRequest_wf (request : CapabilityRequest) : Prop :=
  (crq_time request < u64_limit)%N ∧ AuthorityRequest_wf (crq_authority request).

Definition enc_authority (request : AuthorityRequest) : str :=
  match request with
  | ReqFile r =>
      [N2b 1] ++ enc_string (fr_repository r) ++ [N2b (FileEffect_tag (fr_effect r))] ++
      enc_segments (cp_segments (fr_path r))
  | ReqHttpFetch r =>
      [N2b 2] ++ [N2b (HttpFetchMethod_discriminant (hr_method r))] ++
      enc_string (ch_name (hr_host r)) ++ enc_segments (cup_segments (hr_path r)) ++
      le_bytes 8 (hr_max_response_bytes r)
  | ReqGitHub r =>
      [N2b 3] ++ enc_string (gr_installation r) ++ enc_string (gr_repository r) ++
      [N2b (GitHubOperation_discriminant (gr_operation r))] ++
      enc_segments (bn_segments (gr_base r)) ++ enc_segments (bn_segments (gr_head r))
  end.

Create HintDb codec.
#[local] Hint Resolve writes_modify writes_string writes_segments : codec.
Ltac write_steps := repeat (apply writes_bind; [solve [eauto with codec | apply writes_modify]|intros _]);
                    eauto with codec; try apply writes_modify.

Lemma writes_authority r : writes (encode_authority_request r) (enc_authority r).
Proof. destruct r; cbn [encode_authority_request enc_authority]; unfold pw_byte, pw_u64; write_steps. Qed.

Lemma is_ascii_elem_of s ws w :
  is_ascii (concat (map (λ w, s ++ w) ws)) = true → w ∈ ws → is_ascii w = true.
Proof.
  induction ws as [|x ws IH]; intros Ha Hw; [by apply not_elem_of_nil in Hw|].
  simpl in Ha. rewrite !is_ascii_app in Ha. breflect. destruct_and!. apply elem_of_cons in Hw as [->|Hw]; [done|by apply IH].
Qed.

Lemma url_segments_utf8 path : CanonicalUrlPath_wf path → utf8_strings (cup_segments path).
Proof.
  intros (_ & _ & _ & Ha). apply Forall_forall. intros w Hw. apply is_ascii_utf8_valid.
  unfold CanonicalUrlPath_to_string, CanonicalUrlPath_is_root in Ha. case_bool_decide as Hr.
  - rewrite Hr in Hw. by apply not_elem_of_nil in Hw.
  - by eapply is_ascii_elem_of.
Qed.

Lemma decode_url_path_segments path :
  CanonicalUrlPath_wf path → decode_url_path (cup_segments path) = Ok path.
Proof.
  intros Hwf. unfold decode_url_path. case_bool_decide as Hr; [by destruct path; simpl in *; subst|].
  rewrite (proj2 (CanonicalUrlPath_new_iff _ path)); [done|]. split; [done|].
  unfold CanonicalUrlPath_to_string, CanonicalUrlPath_is_root.
  rewrite bool_decide_eq_false_2 by done. by rewrite url_concat_join.
Qed.

Lemma decode_branch_segments branch : BranchName_wf branch → decode_branch (bn_segments branch) = Ok branch.
Proof. intros [Hb _]. unfold decode_branch. unfold BranchName_to_string in Hb. by rewrite Hb. Qed.

Lemma parses_tagged {A} n (m : N → Reader A) enc v :
  (n < 256)%N → parses (m n) enc v → parses (pr_byte ≫= m) ([N2b n] ++ enc) v.
Proof. intros Hn Hm. eapply parses_bind; [by apply parses_byte|done]. Qed.

Lemma FileEffect_tag_lt e : (FileEffect_tag e < 256)%N.
Proof. by destruct e. Qed.
Lemma HttpFetchMethod_discriminant_lt m : (HttpFetchMethod_discriminant m < 256)%N.
Proof. by destruct m. Qed.
Lemma GitHubOperation_discriminant_lt o : (GitHubOperation_discriminant o < 256)%N.
Proof. by destruct o. Qed.

Lemma parses_file r :
  AuthorityRequest_wf (ReqFile r) →
  parses decode_authority_request (enc_authority (ReqFile r)) (ReqFile r).
Proof.
  destruct r as [repo effect path]. intros [Hu Hp]. simpl in Hu, Hp. apply Forall_cons in Hu as [Hu Hs].
  apply parses_tagged; [done|]. cbv iota. eapply parses_bind; [by apply parses_string|].
  apply parses_tagged; [apply FileEffect_tag_lt|].
  eapply parses_lift; [unfold decode_file_effect; by rewrite FileEffect_from_tag_tag|].
  eapply parses_bind_nil; [by apply parses_segments|].
  eapply parses_lift; [|apply parses_ret].
  cbn [fr_path]. by rewrite (proj2 (CanonicalPath_new_ok _ path) (conj Hp eq_refl)).
Qed.

Lemma parses_http r :
  AuthorityRequest_wf (ReqHttpFetch r) →
  parses decode_authority_request (enc_authority (ReqHttpFetch r)) (ReqHttpFetch r).
Proof.
  destruct r as [method host path max]. intros (Hh & Hp & Hmax). simpl in Hh, Hp, Hmax.
  apply parses_tagged; [done|]. cbv iota.
  apply parses_tagged; [apply HttpFetchMethod_discriminant_lt|].
  eapply parses_lift; [by destruct method|].
  eapply parses_bind; [apply parses_string, is_ascii_utf8_valid, Hh|].
  eapply parses_lift; [by rewrite CanonicalHost_new_canonical|].
  eapply parses_bind; [by apply parses_segments, url_segments_utf8|].
  eapply parses_lift; [by apply decode_url_path_segments|].
  eapply parses_bind_nil; [by apply parses_u64|]. by destruct method; apply parses_ret.
Qed.

Lemma parses_github r :
  AuthorityRequest_wf (ReqGitHub r) →
  parses decode_authority_request (enc_authority (ReqGitHub r)) (ReqGitHub r).
Proof.
  destruct r as [inst repo op base head]. intros (Hu & Hb & Hh). simpl in Hu, Hb, Hh.
  rewrite !Forall_cons, Forall_app in Hu. destruct Hu as (? & ? & ? & ?).
  apply parses_tagged; [done|]. cbv iota.
  eapply parses_bind; [by apply parses_string|]. eapply parses_bind; [by apply parses_string|].
  apply parses_tagged; [apply GitHubOperation_discriminant_lt|].
  eapply parses_lift; [by destruct op|].
  eapply parses_bind; [by apply parses_segments|].
  eapply parses_lift; [by apply decode_branch_segments|].
  eapply parses_bind_nil; [by apply parses_segments|].
  eapply parses_lift; [by apply decode_branch_segments|]. by destruct op; apply parses_ret.
Qed.

Lemma parses_authority r :
  AuthorityRequest_wf r → parses decode_authority_request (enc_authority r) r.
Proof. destruct r; [apply parses_file|apply parses_http|apply parses_github]. Qed.

(** ** Whole payloads *)

Definition enc_request (request : CapabilityRequest) : str :=
  le_bytes 8 (crq_time request) ++ enc_authority (crq_authority request).

Definition enc_requests (requests : list CapabilityRequest) : str := concat (map enc_request requests).

Lemma writes_requests requests : writes (encode_requests requests) (enc_requests requests).
Proof.
  induction requests as [|r rs IH].
  - intros buf. unfold enc_requests. simpl. rewrite app_nil_r.
    split; [by intros u buf' [= _ <-]|done].
  - change (enc_requests (r :: rs)) with (enc_request r ++ enc_requests rs). unfold enc_request.
    rewrite <- (assoc_L (++)). cbn [encode_requests]. apply writes_bind; [apply writes_modify|]. intros _.
    apply writes_bind; [apply writes_authority|done].
Qed.

Lemma parses_requests requests :
  Forall CapabilityRequest_wf requests →
  parses (decode_requests (length requests)) (enc_requests requests) requests.
Proof.
  induction 1 as [|[time auth] rs [Ht Ha] _ IH]; [apply parses_ret|].
  change (enc_requests (?r :: rs)) with (enc_request r ++ enc_requests rs). unfold enc_request.
  rewrite <- (assoc_L (++)). simpl length. cbn [decode_requests].
  eapply parses_bind; [by apply parses_u64|]. eapply parses_bind; [by apply parses_authority|].
  eapply parses_bind_nil; [done|]. apply parses_ret.
Qed.

Definition enc_attempt (m : DurableAttemptMetadata) : str :=
  [N2b ATTEMPT_PAYLOAD_VERSION] ++ le_bytes 8 (dam_state_instance m) ++ enc_string (dam_caller m) ++
  enc_string (dam_capability_id m) ++ le_bytes 8 (dam_authorization_epoch m) ++
  le_bytes 4 (N.of_nat (length (CapabilityRequestSet_iter (dam_requests m)))) ++
  enc_requests (CapabilityRequestSet_iter (dam_requests m)).

(** Metadata of one attempt: a complete bounded set of well-formed requests. *)
Definition metadata_wf (m : DurableAttemptMetadata) : Prop :=
  (dam_state_instance m < u64_limit)%N ∧ (dam_authorization_epoch m < u64_limit)%N ∧
  utf8_valid (dam_caller m) = true ∧ utf8_valid (dam_capability_id m) = true ∧
  crs_complete (dam_requests m) = true ∧
  CapabilityRequestSet_len (dam_requests m) ≤ MAX_REQUESTS_PER_EFFECT ∧
  Forall CapabilityRequest_wf (CapabilityRequestSet_iter (dam_requests m)).

Lemma CapabilityRequestSet_new_bounded set :
  crs_complete set = true → CapabilityRequestSet_len set ≤ MAX_REQUESTS_PER_EFFECT →
  CapabilityRequestSet_new (crs_first set) (crs_additional set) = set.
Proof.
  destruct set as [first additional complete]. unfold CapabilityRequestSet_len, CapabilityRequestSet_new.
  cbn [crs_first crs_additional crs_complete]. unfold MAX_REQUESTS_PER_EFFECT. intros -> Hlen.
  rewrite take_ge, drop_ge by lia. done.
Qed.

Lemma encode_attempt_payload_exact m :
  crs_complete (dam_requests m) = true →
  CapabilityRequestSet_len (dam_requests m) ≤ MAX_REQUESTS_PER_EFFECT →
  let encode := encode_attempt_payload (dam_state_instance m) (dam_caller m) (dam_capability_id m)
                  (dam_requests m) (dam_authorization_epoch m) in
  ∀ payload, encode = Ok payload ↔
    payload = enc_attempt m ∧ (len (enc_attempt m) <= MAX_RECORD_PAYLOAD)%N.
Proof.
  intros Hc Hlen encode payload. subst encode. unfold encode_attempt_payload. rewrite Hc. simpl negb. cbv iota.
  set (w := pw_byte _ ≫= _). assert (writes w (enc_attempt m)) as Hw.
  { subst w. unfold enc_attempt, pw_byte, pw_u64, pw_u32.
    repeat (apply writes_bind; [solve [apply writes_modify|apply writes_string]|intros _]).
    apply writes_query.
    - intros n ->%u32_length_ok. apply writes_bind; [apply writes_modify|intros _; apply writes_requests].
    - intros _. apply u32_length_fits. unfold CapabilityRequestSet_len, MAX_REQUESTS_PER_EFFECT in Hlen.
      unfold CapabilityRequestSet_iter, MAX_RECORD_PAYLOAD. simpl length. lia. }
  clearbody w. destruct (Hw []) as [H1 H2]. simpl in H1, H2. split.
  - destruct (w []) as [[[]|e] buf] eqn:E; [|done]. rewrite (H1 _ _ eq_refl).
    destruct (N.ltb_spec MAX_RECORD_PAYLOAD (len (enc_attempt m))); [done|].
    by intros [= <-].
  - intros [-> Hle]. rewrite H2 by done.
    destruct (N.ltb_spec MAX_RECORD_PAYLOAD (len (enc_attempt m))); [lia|done].
Qed.

(** [parses_all m enc v]: [m] accepts exactly the payload [enc], to its last byte. *)
Definition parses_all {A} (m : Reader A) (enc : str) (v : A) : Prop :=
  ∀ pre, (len (pre ++ enc) <= MAX_RECORD_PAYLOAD)%N → (m (reader_at pre enc)).1 = Ok v.

Lemma parses_all_bind {A B} (m : Reader A) (k : A → Reader B) e1 e2 a b :
  parses m e1 a → parses_all (k a) e2 b → parses_all (m ≫= k) (e1 ++ e2) b.
Proof.
  intros Hm Hk pre Hlen. unfold mbind, ST_bind. rewrite Hm by done. apply Hk.
  by rewrite <- (assoc_L (++)).
Qed.

(** The trailing-bytes test succeeds once everything is consumed. *)
Lemma parses_all_end {A} (e : DurableAuditError) (k : Reader A) v :
  parses_all k [] v →
  parses_all (self ← st_get; if negb (pr_is_exhausted self) then st_fail e else k) [] v.
Proof.
  intros Hk pre Hlen. unfold mbind, ST_bind, st_get. unfold pr_is_exhausted, reader_at at 1. simpl.
  rewrite app_nil_r, N.eqb_refl. simpl. by apply Hk.
Qed.

Lemma parses_all_run {A} (m : Reader A) enc v :
  parses_all m enc v → (len enc <= MAX_RECORD_PAYLOAD)%N → (m (PayloadReader_new enc)).1 = Ok v.
Proof. intros Hm. apply (Hm []). Qed.

(** START payloads round trip.  Every well-formed attempt whose encoding fits the
    record limit is encoded, and decoding the stored bytes returns exactly the
    state instance, caller, capability, epoch and request set that were recorded. *)
Theorem attempt_payload_roundtrip m :
  metadata_wf m → (len (enc_attempt m) <= MAX_RECORD_PAYLOAD)%N →
  encode_attempt_payload (dam_state_instance m) (dam_caller m) (dam_capability_id m)
    (dam_requests m) (dam_authorization_epoch m) = Ok (enc_attempt m) ∧
  decode_attempt_payload (enc_attempt m) = Ok m.
Proof.
  intros (Hi & He & Hc & Hid & Hcomplete & Hlen & Hreq) Hsize.
  split; [by apply encode_attempt_payload_exact|].
  apply parses_all_run; [|done]. clear Hsize. unfold enc_attempt, decode_attempt_reader.
  assert (1 ≤ length (CapabilityRequestSet_iter (dam_requests m)) ≤ 16) as Hcount
    by (unfold CapabilityRequestSet_iter; simpl length; unfold CapabilityRequestSet_len, MAX_REQUESTS_PER_EFFECT in Hlen; lia).
  eapply parses_all_bind; [by apply parses_byte|]. cbv iota.
  eapply parses_all_bind; [by apply parses_u64|].
  do 2 (eapply parses_all_bind; [by apply parses_string|]).
  eapply parses_all_bind; [by apply parses_u64|].
  eapply parses_all_bind; [apply parses_u32; unfold u32_limit; lia|].
  set (n := length _) in *. destruct (N.eqb_spec (N.of_nat n) 0); [lia|].
  destruct (N.ltb_spec (N.of_nat MAX_REQUESTS_PER_EFFECT) (N.of_nat n));
    [unfold MAX_REQUESTS_PER_EFFECT in *; lia|]. subst n. rewrite Nat2N.id.
  rewrite <- (app_nil_r (enc_requests _)). eapply parses_all_bind; [by apply parses_requests|].
  apply parses_all_end. intros pre _. cbn [CapabilityRequestSet_iter].
  rewrite CapabilityRequestSet_new_bounded by done. by destruct m.
Qed.

Definition demo_metadata : DurableAttemptMetadata :=
  {| dam_state_instance := 3; dam_caller := lit "agent"; dam_capability_id := lit "host:0";
     dam_authorization_epoch := 7;
     dam_requests := CapabilityRequestSet_one
       {| crq_time := 10;
          crq_authority := ReqFile {| fr_repository := lit "repo"; fr_effect := ReadData;
            fr_path := {| cp_segments := [lit "src"; lit "main.rs"] |} |} |} |}.

Lemma attempt_payload_roundtrip_witness :
  decode_attempt_payload (enc_attempt demo_metadata) = Ok demo_metadata.
Proof.
  apply (attempt_payload_roundtrip demo_metadata).
  - refine (conj _ (conj _ (conj _ (conj _ (conj _ (conj _ _)))))); [vm_compute; reflexivity..| |].
    + vm_compute. lia.
    + apply Forall_singleton. split; [vm_compute; reflexivity|]. split.
      * repeat constructor.
      * refine (bool_decide_eq_true_1 _ _). vm_compute. reflexivity.
  - vm_compute. discriminate.
Defined.

(** ** FINISH and RECONCILE payloads *)

Lemma token_finish_roundtrip outcome limit empty build token :
  token ≠ [] → (len token <= limit)%N → (limit < u32_limit)%N →
  decode_finish_token outcome limit empty build (le_bytes 4 (len token) ++ token) = build token.
Proof.
  intros Hne Hlim Hu. unfold decode_finish_token.
  rewrite len_app, len_le_bytes, take_app_length', drop_app_length' by (by rewrite length_le_bytes).
  rewrite from_to_le_bytes by (change (256 ^ N.of_nat 4)%N with u32_limit; lia).
  destruct (N.ltb_spec (N.of_nat 4 + len token) 4); [lia|].
  destruct (N.eqb_spec (len token) 0) as [H0|_].
  { unfold len in H0. by destruct token. }
  destruct (N.ltb_spec limit (len token)); [lia|].
  destruct (N.eqb_spec (N.of_nat 4 + len token) (4 + len token)); [done|lia].
Qed.

(** Every admitted terminal record is encoded and decoded back. *)
Lemma finish_payload_decodes attempt_id outcome receipt evidence :
  validate_finish outcome receipt evidence attempt_id = Ok tt →
  ∃ payload, encode_finish_payload attempt_id outcome receipt evidence = Ok payload ∧
    decode_finish_payload payload attempt_id = Ok (outcome, receipt, evidence).
Proof.
  intros Hv. unfold encode_finish_payload. rewrite Hv. unfold validate_finish in Hv.
  destruct receipt as [[rid token]|]; simpl in Hv.
  - destruct (N.eqb_spec rid attempt_id) as [->|]; simpl in Hv; [|done].
    case_bool_decide as Hne; [done|]. destruct (N.ltb_spec MAX_COMMIT_RECEIPT_BYTES (len token)); [done|].
    destruct evidence as [ev|]; [destruct (if negb _ then _ else _); simpl in Hv; by destruct outcome|].
    simpl in Hv. destruct outcome; try done. cbn [rcpt_token mbind result_bind].
    unfold u32_length. destruct (N.ltb_spec (len token) u32_limit);
      [|unfold MAX_COMMIT_RECEIPT_BYTES, u32_limit in *; lia].
    eexists. split; [done|]. cbn [decode_finish_payload app].
    change (decode_outcome (b2N (N2b (outcome_code Committed)))) with (Ok (E := DurableAuditError) Committed).
    cbn [mbind result_bind].
    by rewrite token_finish_roundtrip.
  - destruct evidence as [[eid token]|]; simpl in Hv.
    + destruct (N.eqb_spec eid attempt_id) as [->|]; simpl in Hv; [|done].
      destruct (validate_commit_unknown_token token) as [[]|] eqn:Ht; simpl in Hv; [|done].
      destruct outcome; try done. cbn [fmap option_fmap option_map cue_token mbind result_bind]. pose proof Ht as Ht'. unfold validate_commit_unknown_token in Ht'.
      case_bool_decide; [done|]. destruct (N.ltb_spec MAX_COMMIT_UNKNOWN_EVIDENCE_BYTES (len token)); [done|].
      unfold u32_length. destruct (N.ltb_spec (len token) u32_limit);
        [|unfold MAX_COMMIT_UNKNOWN_EVIDENCE_BYTES, u32_limit in *; lia].
      eexists. split; [done|]. cbn [decode_finish_payload app].
      change (decode_outcome (b2N (N2b (outcome_code CommitUnknown)))) with (Ok (E := DurableAuditError) CommitUnknown).
    cbn [mbind result_bind].
      rewrite token_finish_roundtrip by done. unfold CommitUnknownEvidence_new. by rewrite Ht.
    + eexists. split; [done|]. by destruct outcome.
Qed.

(** FINISH payloads round trip: every terminal record that [validate_finish]
    admits is encoded, and decoding it for the same attempt returns the same
    outcome, receipt and evidence. *)
Theorem finish_payload_roundtrip attempt_id outcome receipt evidence :
  validate_finish outcome receipt evidence attempt_id = Ok tt →
  ∃ payload, encode_finish_payload attempt_id outcome receipt evidence = Ok payload ∧
    decode_finish_payload payload attempt_id = Ok (outcome, receipt, evidence).
Proof. apply finish_payload_decodes. Qed.

Lemma finish_payload_roundtrip_witness :
  ∃ payload,
    encode_finish_payload 4 Committed (Some (CommitReceipt_kernel_success 4)) None = Ok payload ∧
    decode_finish_payload payload 4 = Ok (Committed, Some (CommitReceipt_kernel_success 4), None).
Proof. apply finish_payload_roundtrip. vm_compute. reflexivity. Defined.

Definition enc_reconcile (verdict : ReconciledCommit) : str :=
  [N2b RECONCILE_PAYLOAD_VERSION] ++
  match verdict with
  | ReconciledCommitted receipt =>
      [N2b RECONCILED_COMMITTED] ++ le_bytes 8 (rcpt_attempt_id receipt) ++
      le_bytes 4 (len (rcpt_token receipt)) ++ rcpt_token receipt
  | ReconciledNotCommitted => [N2b RECONCILED_NOT_COMMITTED]
  end.

Lemma encode_reconcile_exact verdict payload :
  encode_reconcile_payload verdict = Ok payload ↔
  payload = enc_reconcile verdict ∧ (len (enc_reconcile verdict) <= MAX_RECORD_PAYLOAD)%N.
Proof.
  unfold encode_reconcile_payload. set (w := pw_byte _ ≫= _).
  assert (writes w (enc_reconcile verdict)) as Hw.
  { subst w. unfold enc_reconcile. apply writes_bind; [apply writes_modify|intros _].
    destruct verdict as [[id token]|]; [|apply writes_modify]. cbn [rcpt_attempt_id rcpt_token].
    do 2 (apply writes_bind; [apply writes_modify|intros _]). apply writes_query.
    - intros n ->%u32_length_ok. apply writes_bind; [apply writes_modify|intros _; apply writes_modify].
    - rewrite len_app. intros. apply u32_length_fits. lia. }
  clearbody w. destruct (Hw []) as [H1 H2]. simpl in H1, H2. split.
  - destruct (w []) as [[[]|e] buf] eqn:E; [|done]. rewrite (H1 _ _ eq_refl).
    destruct (N.ltb_spec MAX_RECORD_PAYLOAD (len (enc_reconcile verdict))); [done|]. by intros [= <-].
  - intros [-> Hle]. rewrite H2 by done.
    destruct (N.ltb_spec MAX_RECORD_PAYLOAD (len (enc_reconcile verdict))); [lia|done].
Qed.

(** A verdict the decoder accepts back: its receipt names the attempt and is not empty. *)
Definition verdict_wf (attempt_id : AttemptId) (verdict : ReconciledCommit) : Prop :=
  match verdict with
  | ReconciledCommitted receipt => rcpt_attempt_id receipt = attempt_id ∧ rcpt_token receipt ≠ []
  | ReconciledNotCommitted => True
  end.

Lemma decode_reconcile_roundtrip attempt_id verdict :
  verdict_wf attempt_id verdict → (attempt_id < u64_limit)%N →
  (len (enc_reconcile verdict) <= MAX_RECORD_PAYLOAD)%N →
  decode_reconcile_payload (enc_reconcile verdict) attempt_id = Ok verdict.
Proof.
  intros Hwf Hid Hlen. apply parses_all_run; [|done]. unfold decode_reconcile_reader, enc_reconcile in *.
  eapply parses_all_bind; [by apply parses_byte|]. simpl negb. cbv iota.
  destruct verdict as [[rid token]|]; simpl in Hwf.
  - destruct Hwf as [-> Hne]. cbn [rcpt_attempt_id rcpt_token] in *.
    eapply parses_all_bind; [by apply parses_byte|].
    rewrite N.eqb_refl. rewrite <- (app_nil_r (le_bytes 8 _ ++ _)).
    eapply parses_all_bind; [|apply parses_all_end; intros pre _; reflexivity].
    eapply parses_bind; [by apply parses_u64|]. rewrite N.eqb_refl. simpl negb. cbv iota.
    eapply parses_bind.
    { apply parses_u32. rewrite !len_app in Hlen. unfold MAX_RECORD_PAYLOAD, u32_limit in *. lia. }
    eapply parses_bind_nil; [by apply parses_take|]. rewrite bool_decide_eq_false_2 by done.
    apply parses_ret.
  - rewrite <- (app_nil_r [N2b RECONCILED_NOT_COMMITTED]).
    eapply parses_all_bind; [by apply parses_byte|]. change (@nil byte) with (@nil byte ++ []).
    eapply parses_all_bind; [apply parses_ret|]. apply parses_all_end. intros pre _. reflexivity.
Qed.

(** An empty receipt token is encoded by the writer and refused by the reader. *)
Lemma empty_receipt_not_decodable attempt_id :
  (attempt_id < u64_limit)%N →
  let verdict := ReconciledCommitted (CommitReceipt_new attempt_id []) in
  encode_reconcile_payload verdict = Ok (enc_reconcile verdict) ∧
  decode_reconcile_payload (enc_reconcile verdict) attempt_id =
    Err (invalid_payload (Text (lit "reconciled receipt token is empty"))).
Proof.
  intros Hid verdict.
  assert (len (enc_reconcile verdict) = 14%N) as Hlen.
  { unfold verdict, enc_reconcile. cbn [rcpt_attempt_id rcpt_token CommitReceipt_new].
    by rewrite !len_app, !len_le_bytes. }
  assert (len (enc_reconcile verdict) <= MAX_RECORD_PAYLOAD)%N as Hle by (by rewrite Hlen).
  split; [by apply encode_reconcile_exact|]. clear Hlen. unfold decode_reconcile_payload.
  change (PayloadReader_new (enc_reconcile verdict)) with (reader_at [] (enc_reconcile verdict)).
  unfold enc_reconcile in *. subst verdict. cbn [rcpt_attempt_id rcpt_token CommitReceipt_new] in *.
  unfold decode_reconcile_reader, mbind, ST_bind.
  rewrite (parses_byte RECONCILE_PAYLOAD_VERSION eq_refl) by done. rewrite N.eqb_refl. cbn [negb]. cbv iota.
  rewrite (parses_byte RECONCILED_COMMITTED eq_refl) by (rewrite <- (assoc_L (++)); done).
  rewrite N.eqb_refl.
  rewrite (parses_u64 _ Hid) by (rewrite <- !(assoc_L (++)); done). rewrite N.eqb_refl. cbn [negb]. cbv iota.
  rewrite (parses_u32 (len []) eq_refl) by (rewrite <- !(assoc_L (++)); done).
  match goal with |- context [pr_take _ (reader_at ?p [])] =>
    pose proof (parses_take [] _ eq_refl p []) as Htake;
    change (@nil byte ++ []) with (@nil byte) in Htake end.
  rewrite Htake by (rewrite <- !(assoc_L (++)); done). done.
Qed.
