(* ===== verification/Journal.v ===== *)
(** * The write-ahead journal ([crates/authority-core/src/durable_audit.rs])

    Frames, their checksum, the recovery parser, and the writer that owns the
    journal.  The file is its byte contents.  What the operating system decides
    during an append (directory, lock and metadata checks, a failing or torn
    write) is the argument [AppendIo]; everything else is computed as in the
    source.  The journal mutex is never poisoned: no statement between lock and
    unlock panics. *)

From stdpp Require Import sorting.
From S2P Require Import Prelude Bytes Capability DurableRecord.

Definition MAGIC : str := lit "AUTHWAL1".
Definition VERSION : N := 1.
Definition START_KIND : N := 1.
Definition FINISH_KIND : N := 2.
Definition RECONCILE_KIND : N := 3.
Definition HEADER_LEN : N := 8 + 2 + 1 + 1 + 8 + 8 + 4.
Definition CHECKSUM_LEN : N := 8.
Definition MAX_JOURNAL_BYTES : N := 128 * 1024 * 1024.

(** FNV-1a: [(hash ^ byte).wrapping_mul(prime)] folded over the bytes. *)
Definition checksum (bytes : str) : N :=
  foldl (λ hash byte, (N.lxor hash (b2N byte) * 1099511628211) mod u64_limit)%N
    14695981039346656037%N bytes.

(** ** Attempts *)

Record DurableAttemptState := {
  das_attempt_id : AttemptId;
  das_start_sequence : N;
  das_payload : str;
  das_outcome : AttemptOutcome;
  das_finish_sequence : option N;
  das_receipt : option CommitReceipt;
  das_evidence : option CommitUnknownEvidence;
  das_reconciliation : option ReconciledCommit;
}.

#[export] Instance DurableAttemptState_eq_dec : EqDecision DurableAttemptState.
Proof. solve_decision. Defined.

Abbreviation AttemptMap := (gmap AttemptId DurableAttemptState).

(** The attempt a START record creates. *)
Definition started_attempt (attempt_id : AttemptId) (sequence : N) (payload : str)
    : DurableAttemptState :=
  {| das_attempt_id := attempt_id; das_start_sequence := sequence; das_payload := payload;
     das_outcome := Started; das_finish_sequence := None; das_receipt := None;
     das_evidence := None; das_reconciliation := None |}.

(** The attempt after a FINISH record. *)
Definition finished_attempt (attempt : DurableAttemptState) (sequence : N) (record : FinishRecord)
    : DurableAttemptState :=
  {| das_attempt_id := das_attempt_id attempt; das_start_sequence := das_start_sequence attempt;
     das_payload := das_payload attempt; das_outcome := record.1.1;
     das_finish_sequence := Some sequence; das_receipt := record.1.2;
     das_evidence := record.2; das_reconciliation := das_reconciliation attempt |}.

(** The attempt after a RECONCILE record. *)
Definition reconciled_attempt (attempt : DurableAttemptState) (verdict : ReconciledCommit)
    : DurableAttemptState :=
  {| das_attempt_id := das_attempt_id attempt; das_start_sequence := das_start_sequence attempt;
     das_payload := das_payload attempt; das_outcome := das_outcome attempt;
     das_finish_sequence := das_finish_sequence attempt; das_receipt := das_receipt attempt;
     das_evidence := das_evidence attempt; das_reconciliation := Some verdict |}.

(** [attempts.keys().next_back()]. *)
Definition last_attempt (attempts : AttemptMap) : option AttemptId :=
  map_fold (λ id _ acc, Some (match acc with Some m => N.max id m | None => id end)) None attempts.

Definition next_attempt_sequence (attempts : AttemptMap) : option N :=
  match last_attempt attempts with
  | Some attempt_id => checked_add_u64 attempt_id 1
  | None => Some 0%N
  end.

(** [attempts.values()]: in identity order. *)
Definition attempt_order (a b : DurableAttemptState) : Prop :=
  (das_attempt_id a <= das_attempt_id b)%N.

#[export] Instance attempt_order_dec : RelDecision attempt_order.
Proof. intros a b. unfold attempt_order. apply _. Defined.

Definition attempt_values (attempts : AttemptMap) : list DurableAttemptState :=
  merge_sort attempt_order (snd <$> map_to_list attempts).

(** ** Recovery *)

Definition read_le (width : nat) (bytes : str) (offset : N) : result DurableAuditError (N * N) :=
  finish ← ok_or (checked_add_u64 offset (N.of_nat width)) Durable_TruncatedRecord;
  value ← ok_or (get_range bytes offset finish) Durable_TruncatedRecord;
  Ok (from_le_bytes value, finish).

Definition apply_reconcile_frame (attempts : AttemptMap) (attempt_id : AttemptId) (payload : str)
    : result DurableAuditError AttemptMap :=
  verdict ← decode_reconcile_payload payload attempt_id;
  match attempts !! attempt_id with
  | None => Err (Durable_ReplayDetected attempt_id)
  | Some attempt =>
      if negb (bool_decide (das_outcome attempt = CommitUnknown))
      then Err (invalid_record "only an unknown commit can be reconciled")
      else if bool_decide (is_Some (das_reconciliation attempt))
      then Err (Durable_ReplayDetected attempt_id)
      else Ok (<[attempt_id := reconciled_attempt attempt verdict]> attempts)
  end.

(** The [match kind] of one validated frame. *)
Definition apply_frame (attempts : AttemptMap) (sequence kind attempt_id : N) (payload : str)
    : result DurableAuditError AttemptMap :=
  if (kind =? START_KIND)%N then
    if bool_decide (is_Some (attempts !! attempt_id)) then Err (Durable_ReplayDetected attempt_id)
    else Ok (<[attempt_id := started_attempt attempt_id sequence payload]> attempts)
  else if (kind =? FINISH_KIND)%N then
    record ← decode_finish_payload payload attempt_id;
    match attempts !! attempt_id with
    | None => Err (Durable_ReplayDetected attempt_id)
    | Some attempt =>
        if negb (bool_decide (das_outcome attempt = Started))
        then Err (Durable_ReplayDetected attempt_id)
        else Ok (<[attempt_id := finished_attempt attempt sequence record]> attempts)
    end
  else if (kind =? RECONCILE_KIND)%N then apply_reconcile_frame attempts attempt_id payload
  else Err (invalid_record "unknown journal record kind").

(** One iteration of the recovery loop: the offset after the frame and the new attempts. *)
Definition parse_frame (bytes : str) (offset expected_sequence : N) (attempts : AttemptMap)
    : result DurableAuditError (N * AttemptMap) :=
  if (len bytes - offset <? HEADER_LEN + CHECKSUM_LEN)%N then Err Durable_TruncatedRecord
  else
    let frame_start := offset in
    if negb (bool_decide (get_range bytes offset (offset + len MAGIC) = Some MAGIC))
    then Err Durable_InvalidMagic
    else
      '(version, offset) ← read_le 2 bytes (offset + len MAGIC)%N;
      if negb (version =? VERSION)%N then Err (Durable_UnsupportedVersion version)
      else
        '(kind, offset) ← read_le 1 bytes offset;
        '(reserved, offset) ← read_le 1 bytes offset;
        if negb (reserved =? 0)%N then Err (invalid_record "reserved frame bits are non-zero")
        else
          '(sequence, offset) ← read_le 8 bytes offset;
          if negb (sequence =? expected_sequence)%N
          then Err (Durable_SequenceMismatch expected_sequence sequence)
          else
            '(attempt_id, offset) ← read_le 8 bytes offset;
            '(payload_length, offset) ← read_le 4 bytes offset;
            if (MAX_RECORD_PAYLOAD <? payload_length)%N then Err (Durable_RecordTooLarge payload_length)
            else
              let frame_length := (HEADER_LEN + payload_length + CHECKSUM_LEN)%N in
              if (len bytes - frame_start <? frame_length)%N then Err Durable_TruncatedRecord
              else
                let payload_end := (offset + payload_length)%N in
                let payload := default [] (get_range bytes offset payload_end) in
                '(stored_checksum, offset) ← read_le 8 bytes payload_end;
                if negb (checksum (default [] (get_range bytes frame_start payload_end))
                         =? stored_checksum)%N
                then Err (Durable_ChecksumMismatch sequence)
                else
                  attempts ← apply_frame attempts sequence kind attempt_id payload;
                  Ok (offset, attempts).

(** The recovery loop; [None] is fuel exhaustion. *)
Fixpoint parse_loop (fuel : nat) (bytes : str) (offset expected_sequence : N) (attempts : AttemptMap)
    : option (result DurableAuditError (option N * AttemptMap)) :=
  if negb (offset <? len bytes)%N then Some (Ok (Some expected_sequence, attempts))
  else match fuel with
  | O => None
  | S fuel =>
      match parse_frame bytes offset expected_sequence attempts with
      | Err error => Some (Err error)
      | Ok (offset, attempts) =>
          match checked_add_u64 expected_sequence 1 with
          | None => Some (Err Durable_SequenceExhausted)
          | Some next => parse_loop fuel bytes offset next attempts
          end
      end
  end.

Definition capacity_exceeded (current capacity : N) : DurableAuditError :=
  Durable_CapacityExceeded current current capacity.

Definition parse_journal (bytes : str) (maximum_length : N)
    : result DurableAuditError (option N * AttemptMap) :=
  if (maximum_length <? len bytes)%N then Err (capacity_exceeded (len bytes) maximum_length)
  else default (Err Durable_TruncatedRecord) (parse_loop (length bytes) bytes 0 0 ∅).

(** ** The writer *)

Record DurableState := {
  ds_file : str;
  ds_next_sequence : option N;
  ds_attempts : AttemptMap;
  ds_unusable : bool;
  ds_length : N;
  ds_capacity : N;
}.

Definition validate_capacity (capacity : N) : result DurableAuditError unit :=
  if (MAX_JOURNAL_BYTES <? capacity)%N then Err (Durable_InvalidCapacity capacity MAX_JOURNAL_BYTES)
  else Ok tt.

(** [create_with_max_bytes] on a path the operating system lets it create. *)
Definition journal_create (max_bytes : N) : result DurableAuditError DurableState :=
  _ ← validate_capacity max_bytes;
  Ok {| ds_file := []; ds_next_sequence := Some 0%N; ds_attempts := ∅; ds_unusable := false;
        ds_length := 0; ds_capacity := max_bytes |}.

(** [open_with_max_bytes] on a file with contents [bytes] that passes the ownership
    and identity checks. *)
Definition journal_open (bytes : str) (max_bytes : N) : result DurableAuditError DurableState :=
  _ ← validate_capacity max_bytes;
  _ ← (if (max_bytes <? len bytes)%N then Err (capacity_exceeded (len bytes) max_bytes) else Ok tt);
  '(next_sequence, attempts) ← parse_journal bytes max_bytes;
  Ok {| ds_file := bytes; ds_next_sequence := next_sequence; ds_attempts := attempts;
        ds_unusable := false; ds_length := len bytes; ds_capacity := max_bytes |}.

(** What the operating system decides during one append: the verdict of the
    directory, lock and journal metadata checks before and after the write, and a
    failing write or sync with the number of frame bytes that reached the file. *)
Record AppendIo := {
  io_before : option DurableAuditError;
  io_write : option (nat * DurableAuditError);
  io_after : option DurableAuditError;
}.

Definition io_ok : AppendIo := {| io_before := None; io_write := None; io_after := None |}.

Definition validate_append_target (verdict : option DurableAuditError) (state : DurableState)
    (expected_length : N) : result DurableAuditError unit :=
  match verdict with
  | Some error => Err error
  | None =>
      let actual_length := len (ds_file state) in
      if (ds_capacity state <? actual_length)%N
      then Err (capacity_exceeded actual_length (ds_capacity state))
      else if negb (actual_length =? expected_length)%N
      then Err (Durable_InvalidRecord
        (TextNumbers (lit "journal length changed outside the exclusive writer")
           expected_length actual_length))
      else Ok tt
  end.

Abbreviation JM := (ST DurableState DurableAuditError).

Definition set_unusable (state : DurableState) : DurableState :=
  {| ds_file := ds_file state; ds_next_sequence := ds_next_sequence state;
     ds_attempts := ds_attempts state; ds_unusable := true;
     ds_length := ds_length state; ds_capacity := ds_capacity state |}.
Definition set_file (file : str) (state : DurableState) : DurableState :=
  {| ds_file := file; ds_next_sequence := ds_next_sequence state;
     ds_attempts := ds_attempts state; ds_unusable := ds_unusable state;
     ds_length := ds_length state; ds_capacity := ds_capacity state |}.
Definition set_length (n : N) (state : DurableState) : DurableState :=
  {| ds_file := ds_file state; ds_next_sequence := ds_next_sequence state;
     ds_attempts := ds_attempts state; ds_unusable := ds_unusable state;
     ds_length := n; ds_capacity := ds_capacity state |}.
Definition set_record (next : option N) (attempts : AttemptMap) (state : DurableState) : DurableState :=
  {| ds_file := ds_file state; ds_next_sequence := next; ds_attempts := attempts;
     ds_unusable := ds_unusable state; ds_length := ds_length state;
     ds_capacity := ds_capacity state |}.

(** The serialized frame: header, payload, checksum of both. *)
Definition frame_body (sequence kind attempt_id : N) (payload : str) : str :=
  MAGIC ++ le_bytes 2 VERSION ++ [N2b kind] ++ [N2b 0] ++ le_bytes 8 sequence ++
  le_bytes 8 attempt_id ++ le_bytes 4 (len payload) ++ payload.

Definition frame (sequence kind attempt_id : N) (payload : str) : str :=
  let body := frame_body sequence kind attempt_id payload in body ++ le_bytes 8 (checksum body).

Definition append_frame (io : AppendIo) (sequence kind attempt_id : N) (payload : str) : JM unit :=
  λ state,
  match validate_append_target (io_before io) state (ds_length state) with
  | Err error => (Err error, set_unusable state)
  | Ok _ =>
      if (MAX_RECORD_PAYLOAD <? len payload)%N
      then (Err (Durable_RecordTooLarge (len payload)), state)
      else
        let bytes := frame sequence kind attempt_id payload in
        match checked_add_u64 (ds_length state) (len bytes) with
        | None =>
            (Err (Durable_CapacityExceeded (ds_length state) (u64_limit - 1) (ds_capacity state)), state)
        | Some new_length =>
            if (ds_capacity state <? new_length)%N
            then (Err (Durable_CapacityExceeded (ds_length state) new_length (ds_capacity state)), state)
            else match io_write io with
            | Some (written, error) =>
                (Err error, set_unusable (set_file (ds_file state ++ take written bytes) state))
            | None =>
                let state := set_file (ds_file state ++ bytes) state in
                match validate_append_target (io_after io) state new_length with
                | Err error => (Err error, set_unusable state)
                | Ok _ => (Ok tt, set_length new_length state)
                end
            end
        end
  end.

Definition ensure_usable : DurableState → result DurableAuditError unit := λ state,
  if ds_unusable state then Err Durable_JournalUnavailable else Ok tt.

Definition next_sequence : DurableState → result DurableAuditError N := λ state,
  ok_or (ds_next_sequence state) Durable_SequenceExhausted.

Definition begin_attempt (io : AppendIo) (state_instance : N) (attempt_id : AttemptId)
    (caller : SubjectId) (capability_id : CapId) (requests : CapabilityRequestSet)
    (authorization_epoch : N) : JM unit :=
  payload ← lift (encode_attempt_payload state_instance caller capability_id requests authorization_epoch);
  _ ← st_query ensure_usable;
  state ← st_get;
  if bool_decide (is_Some (ds_attempts state !! attempt_id))
  then st_fail (Durable_ReplayDetected attempt_id)
  else
    sequence ← st_query next_sequence;
    _ ← append_frame io sequence START_KIND attempt_id payload;
    st_modify (λ state,
      set_record (checked_add_u64 sequence 1)
        (<[attempt_id := started_attempt attempt_id sequence payload]> (ds_attempts state)) state).

Definition finish_attempt (io : AppendIo) (attempt_id : AttemptId) (outcome : AttemptOutcome)
    (receipt : option CommitReceipt) (evidence : option CommitUnknownEvidence) : JM unit :=
  payload ← lift (encode_finish_payload attempt_id outcome receipt evidence);
  _ ← st_query ensure_usable;
  state ← st_get;
  match ds_attempts state !! attempt_id with
  | None => st_fail (Durable_ReplayDetected attempt_id)
  | Some attempt =>
      if negb (bool_decide (das_outcome attempt = Started))
      then st_fail (Durable_ReplayDetected attempt_id)
      else
        sequence ← st_query next_sequence;
        _ ← append_frame io sequence FINISH_KIND attempt_id payload;
        state ← st_get;
        match ds_attempts state !! attempt_id with
        | None => st_fail (invalid_record "attempt disappeared during finish")
        | Some attempt =>
            st_modify (λ state,
              set_record (checked_add_u64 sequence 1)
                (<[attempt_id := finished_attempt attempt sequence (outcome, receipt, evidence)]>
                   (ds_attempts state)) state)
        end
  end.

Definition reconcile_attempt (io : AppendIo) (attempt_id : AttemptId) (verdict : ReconciledCommit)
    : JM unit :=
  _ ← lift (match verdict with
            | ReconciledCommitted receipt =>
                if negb (rcpt_attempt_id receipt =? attempt_id)%N
                then Err (invalid_record "reconciled receipt belongs to another attempt") else Ok tt
            | ReconciledNotCommitted => Ok tt
            end);
  payload ← lift (encode_reconcile_payload verdict);
  _ ← st_query ensure_usable;
  state ← st_get;
  match ds_attempts state !! attempt_id with
  | None => st_fail (Durable_ReplayDetected attempt_id)
  | Some attempt =>
      if negb (bool_decide (das_outcome attempt = CommitUnknown))
      then st_fail (invalid_record "only an unknown commit can be reconciled")
      else if bool_decide (is_Some (das_reconciliation attempt))
      then st_fail (Durable_ReplayDetected attempt_id)
      else
        sequence ← st_query next_sequence;
        _ ← append_frame io sequence RECONCILE_KIND attempt_id payload;
        state ← st_get;
        match ds_attempts state !! attempt_id with
        | None => st_fail (invalid_record "attempt disappeared during reconciliation")
        | Some attempt =>
            st_modify (λ state,
              set_record (checked_add_u64 sequence 1)
                (<[attempt_id := reconciled_attempt attempt verdict]> (ds_attempts state)) state)
        end
  end.

Definition journal_attempts : DurableState → result DurableAuditError (list DurableAttemptState) :=
  λ state,
  _ ← ensure_usable state;
  Ok (attempt_values (ds_attempts state)).

Definition journal_next_attempt_sequence : DurableState → result DurableAuditError (option N) :=
  λ state,
  _ ← ensure_usable state;
  Ok (next_attempt_sequence (ds_attempts state)).
