(* ===== verification/JournalProps.v ===== *)
(** * Recovery correctness of the write-ahead journal

    [parsed bytes offset n attempts]: recovery has consumed [n] frames up to
    [offset].  Appending a frame extends a completed parse by one step, so the
    writer's in-memory attempts are always what reopening the file would rebuild. *)

From S2P Require Import Prelude Bytes Path File Capability StateInvariant DurableRecord DurableRecordProps Journal.

(** ** Reading inside a larger buffer *)

Lemma read_le_extend w bytes more offset r :
  read_le w bytes offset = Ok r → read_le w (bytes ++ more) offset = Ok r.
Proof.
  unfold read_le. destruct (checked_add_u64 _ _) as [finish|]; simpl; [|done].
  destruct (get_range bytes offset finish) as [v|] eqn:Hv; simpl; [|done].
  by rewrite (get_range_extend _ more _ _ _ Hv).
Qed.

Lemma read_le_ok w bytes offset v finish :
  read_le w bytes offset = Ok (v, finish) → finish = (offset + N.of_nat w)%N ∧ (finish <= len bytes)%N.
Proof.
  unfold read_le. destruct (checked_add_u64 _ _) as [f|] eqn:Hf; simpl; [|done].
  apply checked_add_u64_Some in Hf as [-> _].
  destruct (get_range bytes offset _) as [s|] eqn:Hs; simpl; [|done]. intros [= _ <-].
  split; [done|]. apply get_range_Some in Hs as (pre & post & -> & -> & ->). rewrite !len_app. lia.
Qed.

Lemma read_le_app w pre n post :
  (n < 256 ^ N.of_nat w)%N → addressable (pre ++ le_bytes w n ++ post) →
  read_le w (pre ++ le_bytes w n ++ post) (len pre) = Ok (n, (len pre + N.of_nat w)%N).
Proof.
  unfold addressable. intros Hn Ha. rewrite !len_app, len_le_bytes in Ha. unfold read_le.
  assert (checked_add_u64 (len pre) (N.of_nat w) = Some (len pre + N.of_nat w)%N) as ->
    by (apply checked_add_u64_Some; lia). simpl.
  pose proof (get_range_app pre (le_bytes w n) post) as Hr. rewrite len_le_bytes in Hr. rewrite Hr. simpl.
  by rewrite from_to_le_bytes.
Qed.

Lemma len_MAGIC : len MAGIC = 8%N.
Proof. reflexivity. Qed.

(** A frame that parses consumes at least a header and a checksum, inside the buffer. *)
Lemma parse_frame_progress bytes offset n m offset' m' :
  parse_frame bytes offset n m = Ok (offset', m') →
  (offset + 40 <= offset')%N ∧ (offset' <= len bytes)%N.
Proof.
  unfold parse_frame. case_match; [done|]. case_match; [done|].
  repeat match goal with
  | |- context [read_le ?w bytes ?o] =>
      destruct (read_le w bytes o) as [[? ?]|] eqn:?; simpl; [|done]
  | |- context [if ?b then Err _ else _] => destruct b; [done|]
  end.
  destruct (apply_frame _ _ _ _ _); simpl; [|done]. intros [= <- <-].
  repeat match goal with H : read_le _ _ _ = Ok _ |- _ => apply read_le_ok in H end.
  destruct_and!. subst. rewrite len_MAGIC in *. lia.
Qed.

Lemma parse_frame_extend bytes more offset n m r :
  (offset <= len bytes)%N → parse_frame bytes offset n m = Ok r →
  parse_frame (bytes ++ more) offset n m = Ok r.
Proof.
  intros Hoff. unfold parse_frame.
  destruct (N.ltb_spec (len bytes - offset) (HEADER_LEN + CHECKSUM_LEN)); [done|].
  destruct (N.ltb_spec (len (bytes ++ more) - offset) (HEADER_LEN + CHECKSUM_LEN)) as [Hl|_];
    [rewrite len_app in Hl; lia|].
  case_bool_decide as Hm; [|done]. rewrite (get_range_extend _ _ _ _ _ Hm).
  rewrite bool_decide_eq_true_2 by done. cbn [negb]. cbv zeta.
  repeat match goal with
  | |- context [read_le ?w bytes ?o] =>
      let E := fresh "Hread" in
      destruct (read_le w bytes o) as [[? ?]|] eqn:E; cbn [mbind result_bind]; [|done];
      rewrite (read_le_extend _ _ more _ _ E); cbn [mbind result_bind]
  | |- context [(len bytes - offset <? ?fl)%N] =>
      destruct (N.ltb_spec (len bytes - offset) fl); [done|];
      destruct (N.ltb_spec (len (bytes ++ more) - offset) fl) as [Hl|_]; [rewrite len_app in Hl; lia|]
  | |- context [if ?b then Err _ else _] =>
      lazymatch b with context [checksum _] => fail | _ => destruct b; [done|] end
  end.
  repeat match goal with H : read_le _ _ _ = Ok _ |- _ => apply read_le_ok in H end. destruct_and!. subst.
  match goal with |- context [get_range bytes ?a (?a + ?b)] =>
    destruct (get_range_total bytes a (a + b)) as [payload Hp]; [lia..|];
    destruct (get_range_total bytes offset (a + b)) as [body Hb]; [lia..|] end.
  by rewrite !(get_range_extend _ more _ _ _ Hp), !(get_range_extend _ more _ _ _ Hb), Hp, Hb.
Qed.

(** ** Reading back a written frame *)

Lemma read_le_at w bytes offset n P Q :
  bytes = P ++ le_bytes w n ++ Q → offset = len P → (n < 256 ^ N.of_nat w)%N → addressable bytes →
  read_le w bytes offset = Ok (n, (offset + N.of_nat w)%N).
Proof. intros -> -> Hn Ha. by apply read_le_app. Qed.

Lemma len_frame_body sequence kind id payload :
  len (frame_body sequence kind id payload) = (HEADER_LEN + len payload)%N.
Proof.
  unfold frame_body. rewrite !len_app, !len_le_bytes, len_MAGIC.
  change (len [?x]) with 1%N. unfold HEADER_LEN. lia.
Qed.

Lemma len_frame sequence kind id payload :
  len (frame sequence kind id payload) = (HEADER_LEN + len payload + CHECKSUM_LEN)%N.
Proof. unfold frame. rewrite len_app, len_frame_body, len_le_bytes. unfold CHECKSUM_LEN. lia. Qed.

Lemma checksum_lt bytes : (checksum bytes < u64_limit)%N.
Proof.
  unfold checksum. destruct bytes as [|b bytes] using rev_ind; [done|].
  rewrite foldl_app. simpl. apply N.mod_lt. done.
Qed.

(** The 32 header bytes of a frame. *)
Definition frame_header (sequence kind id payload_length : N) : str :=
  MAGIC ++ le_bytes 2 VERSION ++ [N2b kind] ++ [N2b 0] ++ le_bytes 8 sequence ++
  le_bytes 8 id ++ le_bytes 4 payload_length.

Lemma frame_body_header sequence kind id payload :
  frame_body sequence kind id payload = frame_header sequence kind id (len payload) ++ payload.
Proof. unfold frame_body, frame_header. by rewrite <- !(assoc_L (++)). Qed.

(** After a complete header of the expected sequence, [parse_frame] continues with
    the payload and checksum checks. *)
Lemma parse_frame_header pre sequence kind id plen rest m :
  (kind < 256)%N → (sequence < u64_limit)%N → (id < u64_limit)%N → (plen < u32_limit)%N →
  (8 <= len rest)%N →
  let B := pre ++ frame_header sequence kind id plen ++ rest in
  addressable B →
  parse_frame B (len pre) sequence m =
  if (MAX_RECORD_PAYLOAD <? plen)%N then Err (Durable_RecordTooLarge plen)
  else if (len B - len pre <? HEADER_LEN + plen + CHECKSUM_LEN)%N then Err Durable_TruncatedRecord
  else
    let payload_end := (len pre + N.of_nat 32 + plen)%N in
    '(stored, offset) ← read_le 8 B payload_end;
    if negb (checksum (default [] (get_range B (len pre) payload_end)) =? stored)%N
    then Err (Durable_ChecksumMismatch sequence)
    else
      attempts ← apply_frame m sequence kind id
                   (default [] (get_range B (len pre + N.of_nat 32) payload_end));
      Ok (offset, attempts).
Proof.
  intros Hk Hs Hid Hp Hr B Ha. set (H := frame_header sequence kind id plen) in *.
  assert (len B = (len pre + 32 + len rest)%N) as HB.
  { unfold B. rewrite !len_app. change (len H) with 32%N. lia. }
  unfold parse_frame.
  destruct (N.ltb_spec (len B - len pre) (HEADER_LEN + CHECKSUM_LEN)) as [Hl|_];
    [unfold HEADER_LEN, CHECKSUM_LEN in Hl; lia|].
  rewrite (get_range_at B (len pre) (len pre + len MAGIC) MAGIC pre (drop 8 H ++ rest)) by done.
  rewrite bool_decide_eq_true_2 by done. cbn [negb]. change (len MAGIC) with (N.of_nat 8).
  assert (∀ k w n offset, H = take k H ++ le_bytes w n ++ drop (k + w) H →
    len (take k H) = N.of_nat k → offset = (len pre + N.of_nat k)%N → (n < 256 ^ N.of_nat w)%N →
    read_le w B offset = Ok (n, (len pre + N.of_nat (k + w))%N)) as Hfield.
  { intros k w n offset HP Hk' -> Hn.
    rewrite (read_le_at w B _ n (pre ++ take k H) (drop (k + w) H ++ rest)); [do 2 f_equal; lia| |
      by rewrite len_app, Hk'|done|done].
    unfold B. rewrite HP at 1. by rewrite <- !(assoc_L (++)). }
  rewrite (Hfield 8 2 VERSION _ eq_refl eq_refl eq_refl) by done.
  cbn [mbind result_bind]. change (8 + 2) with 10. rewrite N.eqb_refl. cbn [negb].
  rewrite (Hfield 10 1 kind _ eq_refl eq_refl eq_refl) by done.
  cbn [mbind result_bind]. change (10 + 1) with 11.
  rewrite (Hfield 11 1 0%N _ eq_refl eq_refl eq_refl) by done.
  cbn [mbind result_bind]. change (11 + 1) with 12. rewrite N.eqb_refl. cbn [negb].
  rewrite (Hfield 12 8 sequence _ eq_refl eq_refl eq_refl) by done.
  cbn [mbind result_bind]. change (12 + 8) with 20. rewrite N.eqb_refl. cbn [negb].
  rewrite (Hfield 20 8 id _ eq_refl eq_refl eq_refl) by done.
  cbn [mbind result_bind]. change (20 + 8) with 28.
  by rewrite (Hfield 28 4 plen _ eq_refl eq_refl eq_refl) by done.
Qed.

(** The header fields and payload of a written frame are read back, whatever surrounds it. *)
Lemma parse_frame_app pre sequence kind id payload post m :
  (kind < 256)%N → (sequence < u64_limit)%N → (id < u64_limit)%N →
  (len payload <= MAX_RECORD_PAYLOAD)%N →
  addressable (pre ++ frame sequence kind id payload ++ post) →
  parse_frame (pre ++ frame sequence kind id payload ++ post) (len pre) sequence m =
  (attempts ← apply_frame m sequence kind id payload;
   Ok ((len pre + len (frame sequence kind id payload))%N, attempts)).
Proof.
  intros Hk Hs Hid Hp. rewrite len_frame. unfold frame. set (body := frame_body _ _ _ _).
  set (sum := le_bytes 8 (checksum body)).
  assert (body = frame_header sequence kind id (len payload) ++ payload) as Eb by apply frame_body_header.
  assert (pre ++ (body ++ sum) ++ post =
    pre ++ frame_header sequence kind id (len payload) ++ payload ++ sum ++ post) as E
    by (rewrite Eb; by rewrite <- !(assoc_L (++))).
  assert (len sum = 8%N) as Hsum by apply len_le_bytes. rewrite E. intros Ha.
  rewrite parse_frame_header; [|done..|unfold MAX_RECORD_PAYLOAD, u32_limit in *; lia
    |rewrite !len_app, Hsum; lia|done].
  destruct (N.ltb_spec MAX_RECORD_PAYLOAD (len payload)); [lia|]. rewrite <- E in *.
  assert (len body = (32 + len payload)%N) as Hbody by apply len_frame_body.
  set (B := pre ++ (body ++ sum) ++ post) in *.
  assert (len B = (len pre + 32 + len payload + 8 + len post)%N) as HB
    by (unfold B; rewrite !len_app, Hbody, Hsum; lia).
  destruct (N.ltb_spec (len B - len pre) (HEADER_LEN + len payload + CHECKSUM_LEN)) as [Hl|_];
    [unfold HEADER_LEN, CHECKSUM_LEN in Hl; lia|]. cbv zeta.
  rewrite (read_le_at 8 B _ (checksum body) (pre ++ body) post); [|unfold B; by rewrite <- !(assoc_L (++))
    |rewrite len_app, Hbody; lia|apply checksum_lt|done]. cbn [mbind result_bind].
  rewrite (get_range_at B (len pre) _ body pre (sum ++ post));
    [|unfold B; by rewrite <- !(assoc_L (++))|done|lia].
  rewrite (get_range_at B (len pre + N.of_nat 32) _ payload
    (pre ++ frame_header sequence kind id (len payload)) (sum ++ post));
    [|rewrite E; by rewrite <- !(assoc_L (++))|rewrite len_app; reflexivity|done].
  unfold default, from_option, Datatypes.id. rewrite N.eqb_refl. cbn [negb].
  destruct (apply_frame _ _ _ _ _); cbn [mbind result_bind]; [|done].
  do 2 f_equal. unfold HEADER_LEN, CHECKSUM_LEN. lia.
Qed.

(** ** Progress of the recovery loop *)

Inductive parsed (bytes : str) : N → N → AttemptMap → Prop :=
  | parsed_start : parsed bytes 0 0 ∅
  | parsed_frame o n m o' m' n' :
      parsed bytes o n m → (o < len bytes)%N → parse_frame bytes o n m = Ok (o', m') →
      checked_add_u64 n 1 = Some n' → parsed bytes o' n' m'.

Lemma parsed_bounds bytes o n m : parsed bytes o n m → (40 * n <= o)%N ∧ (o <= len bytes)%N.
Proof.
  induction 1 as [|o n m o' m' n' Hp IH Ho Hf Hn]; [lia|].
  apply parse_frame_progress in Hf as [? ?]. apply checked_add_u64_Some in Hn as [-> _]. lia.
Qed.

Lemma parsed_extend bytes more o n m : parsed bytes o n m → parsed (bytes ++ more) o n m.
Proof.
  induction 1 as [|o n m o' m' n' Hp IH Ho Hf Hn]; [constructor|].
  eapply parsed_frame; [done|rewrite len_app; lia| |done]. apply parse_frame_extend; [lia|done].
Qed.

Lemma parse_loop_step fuel bytes o n m o' m' n' :
  (o < len bytes)%N → parse_frame bytes o n m = Ok (o', m') → checked_add_u64 n 1 = Some n' →
  parse_loop (S fuel) bytes o n m = parse_loop fuel bytes o' n' m'.
Proof.
  intros Ho Hf Hn. simpl. destruct (N.ltb_spec o (len bytes)); [|lia]. simpl. by rewrite Hf, Hn.
Qed.

Lemma parsed_loop bytes o n m :
  parsed bytes o n m → ∀ fuel, parse_loop (N.to_nat n + fuel) bytes 0 0 ∅ = parse_loop fuel bytes o n m.
Proof.
  induction 1 as [|o n m o' m' n' Hp IH Ho Hf Hn]; intros fuel; [done|].
  rewrite <- (parse_loop_step _ _ _ _ _ _ _ _ Ho Hf Hn), <- IH.
  apply checked_add_u64_Some in Hn as [-> _]. f_equal. lia.
Qed.

(** Once [n] frames are consumed, the parser continues from there with spare fuel. *)
Lemma parse_journal_parsed bytes maximum o n m :
  parsed bytes o n m → (len bytes <= maximum)%N →
  ∃ fuel, (len bytes - n <= N.of_nat fuel)%N ∧
    parse_journal bytes maximum = default (Err Durable_TruncatedRecord) (parse_loop fuel bytes o n m).
Proof.
  intros Hp Hmax. pose proof (parsed_bounds _ _ _ _ Hp) as Hb.
  exists (length bytes - N.to_nat n). unfold parse_journal, len in *.
  destruct (N.ltb_spec maximum (N.of_nat (length bytes))); [lia|]. split; [lia|].
  rewrite <- (parsed_loop _ _ _ _ Hp). do 2 f_equal. lia.
Qed.

Lemma parse_loop_done fuel bytes n m :
  parse_loop fuel bytes (len bytes) n m = Some (Ok (Some n, m)).
Proof. destruct fuel; simpl; by rewrite N.ltb_irrefl. Qed.

Lemma parsed_complete bytes maximum n m :
  parsed bytes (len bytes) n m → (len bytes <= maximum)%N →
  parse_journal bytes maximum = Ok (Some n, m).
Proof.
  intros Hp Hmax. destruct (parse_journal_parsed _ _ _ _ _ Hp Hmax) as (fuel & _ & ->).
  by rewrite parse_loop_done.
Qed.

(** The loop never exhausts its fuel: each frame consumes at least forty bytes. *)
Lemma parse_loop_total fuel bytes o n m :
  (len bytes - o <= N.of_nat fuel)%N → parse_loop fuel bytes o n m ≠ None.
Proof.
  revert o n m. induction fuel as [|fuel IH]; intros o n m Hf; simpl;
    destruct (N.ltb_spec o (len bytes)); simpl; try done; [lia|].
  destruct (parse_frame bytes o n m) as [[o' m']|] eqn:Hp; [|done].
  apply parse_frame_progress in Hp as [? ?]. destruct (checked_add_u64 n 1); [|done]. apply IH. lia.
Qed.

(** A torn frame, cut anywhere strictly inside, is reported as truncated. *)
Lemma parse_frame_torn pre sequence kind id payload k m :
  (kind < 256)%N → (sequence < u64_limit)%N → (id < u64_limit)%N →
  (len payload <= MAX_RECORD_PAYLOAD)%N → addressable (pre ++ frame sequence kind id payload) →
  (N.of_nat k < len (frame sequence kind id payload))%N →
  parse_frame (pre ++ take k (frame sequence kind id payload)) (len pre) sequence m =
  Err Durable_TruncatedRecord.
Proof.
  intros Hk Hs Hid Hp Ha Hlt. set (F := frame sequence kind id payload) in *.
  assert (len (take k F) = N.of_nat k) as Hlen by (unfold len in *; rewrite length_take; lia).
  destruct (decide (k < 40)) as [Hsmall|Hbig].
  { unfold parse_frame. rewrite len_app, Hlen.
    destruct (N.ltb_spec (len pre + N.of_nat k - len pre) (HEADER_LEN + CHECKSUM_LEN)) as [|Hl]; [done|].
    unfold HEADER_LEN, CHECKSUM_LEN in Hl. lia. }
  assert (take k F = frame_header sequence kind id (len payload) ++ drop 32 (take k F)) as E.
  { rewrite <- (take_drop 32 (take k F)) at 1. f_equal. rewrite take_take.
    replace (32 `min` k) with 32 by lia. unfold F, frame. rewrite frame_body_header, <- (assoc_L (++)).
    by rewrite take_app_length'. }
  rewrite E. rewrite parse_frame_header; [|done..|unfold MAX_RECORD_PAYLOAD, u32_limit in *; lia| |].
  - destruct (N.ltb_spec MAX_RECORD_PAYLOAD (len payload)); [lia|]. rewrite <- E, len_app, Hlen.
    destruct (N.ltb_spec (len pre + N.of_nat k - len pre) (HEADER_LEN + len payload + CHECKSUM_LEN))
      as [|Hl]; [done|]. unfold F in Hlt. rewrite len_frame in Hlt. lia.
  - unfold len in *. rewrite length_drop. lia.
  - rewrite <- E. unfold addressable in *. rewrite len_app in *. lia.
Qed.

(** ** The writer's invariant *)

(** A frame the writer may have left, whole or torn, after the recovered prefix. *)
Definition pending_frame (st : DurableState) (good : str) (n : N) (tail : str) : Prop :=
  ∃ kind id payload k m', tail = take k (frame n kind id payload) ∧
    (kind < 256)%N ∧ (id < u64_limit)%N ∧ (len payload <= MAX_RECORD_PAYLOAD)%N ∧
    apply_frame (ds_attempts st) n kind id payload = Ok m' ∧
    (len good + len (frame n kind id payload) <= ds_capacity st)%N.

(** Attempts are stored under their own [u64] identity. *)
Definition ids_ok (m : AttemptMap) : Prop :=
  ∀ id a, m !! id = Some a → das_attempt_id a = id ∧ (id < u64_limit)%N.

Record journal_inv (st : DurableState) : Prop := {
  ji_capacity : (ds_capacity st <= MAX_JOURNAL_BYTES)%N;
  ji_disk : ∃ good n tail, ds_file st = good ++ tail ∧ ds_length st = len good ∧
    (len good <= ds_capacity st)%N ∧ ds_next_sequence st = Some n ∧
    parsed good (len good) n (ds_attempts st) ∧
    (tail = [] ∨ ds_unusable st = true ∧ pending_frame st good n tail);
  ji_ids : ids_ok (ds_attempts st);
}.

(** In a usable journal memory and disk agree exactly. *)
Lemma journal_inv_usable st :
  journal_inv st → ds_unusable st = false →
  ds_length st = len (ds_file st) ∧ (len (ds_file st) <= ds_capacity st)%N ∧
  ∃ n, ds_next_sequence st = Some n ∧ parsed (ds_file st) (len (ds_file st)) n (ds_attempts st).
Proof.
  intros [_ (good & n & tail & Hf & Hl & Hc & Hn & Hp & Ht) _] Hu.
  destruct Ht as [->|[? _]]; [|congruence]. rewrite app_nil_r in Hf. rewrite Hf. eauto.
Qed.

Lemma sequence_fits st n :
  journal_inv st → ds_unusable st = false → ds_next_sequence st = Some n → (n + 1 < u64_limit)%N.
Proof.
  intros Hi Hu Hn. destruct (journal_inv_usable _ Hi Hu) as (_ & Hc & n' & Hn' & Hp). simplify_eq.
  apply parsed_bounds in Hp. pose proof (ji_capacity _ Hi). unfold MAX_JOURNAL_BYTES, u64_limit in *. lia.
Qed.

Lemma journal_addressable n : (n <= MAX_JOURNAL_BYTES)%N → (n < u64_limit)%N.
Proof. unfold MAX_JOURNAL_BYTES, u64_limit. lia. Qed.

(** Sealing a usable journal, with or without a pending frame on disk, keeps it recoverable. *)
Lemma journal_inv_sealed st n tail :
  journal_inv st → ds_unusable st = false → ds_next_sequence st = Some n →
  tail = [] ∨ pending_frame st (ds_file st) n tail →
  journal_inv (set_unusable (set_file (ds_file st ++ tail) st)).
Proof.
  intros Hi Hu Hn Ht. destruct (journal_inv_usable _ Hi Hu) as (Hl & Hc & n' & Hn' & Hp). simplify_eq.
  destruct Hi as [Hcap _ Hids]. split; simpl; [done| |done].
  exists (ds_file st), n, tail. split_and!; try done. destruct Ht; [by left|by right].
Qed.

(** One append: it either fails and keeps the invariant, or extends disk by exactly
    the frame that takes the recovered attempts to [m']. *)
Lemma append_frame_cases io st n kind id payload m' :
  journal_inv st → ds_unusable st = false → ds_next_sequence st = Some n →
  (kind < 256)%N → (id < u64_limit)%N →
  apply_frame (ds_attempts st) n kind id payload = Ok m' →
  ids_ok m' →
  let '(r, st') := append_frame io n kind id payload st in
  ds_attempts st' = ds_attempts st ∧
  match r with
  | Err _ => journal_inv st'
  | Ok _ => ds_file st' = ds_file st ++ frame n kind id payload ∧ ds_unusable st' = false ∧
            journal_inv (set_record (checked_add_u64 n 1) m' st')
  end.
Proof.
  intros Hi Hu Hn Hk Hid Happ Hids. unfold append_frame.
  pose proof (journal_inv_sealed st n [] Hi Hu Hn (or_introl eq_refl)) as Hseal.
  destruct (validate_append_target (io_before io) st (ds_length st)) as [[]|e] eqn:Hv; [|].
  2:{ split; [done|]. rewrite app_nil_r in Hseal. by destruct st. }
  destruct (N.ltb_spec MAX_RECORD_PAYLOAD (len payload)) as [|Hpl]; [by split|].
  set (F := frame n kind id payload).
  destruct (checked_add_u64 (ds_length st) (len F)) as [new|] eqn:Hnew; [|by split].
  apply checked_add_u64_Some in Hnew as [-> Hnew].
  destruct (N.ltb_spec (ds_capacity st) (ds_length st + len F)) as [|Hcap]; [by split|].
  destruct (journal_inv_usable _ Hi Hu) as (Hl & Hc & n' & Hn' & Hp). simplify_eq.
  assert (∀ k, pending_frame st (ds_file st) n (take k F)) as Hpend.
  { intros k. exists kind, id, payload, k, m'. fold F. rewrite Hl in Hcap. done. }
  destruct (io_write io) as [[written e]|].
  { split; [done|]. apply (journal_inv_sealed st n (take written F)); auto. }
  destruct (validate_append_target (io_after io) _ _) as [[]|e].
  2:{ split; [done|]. apply (journal_inv_sealed st n F); auto. right.
      specialize (Hpend (length F)). by rewrite firstn_all in Hpend. }
  pose proof (sequence_fits _ _ Hi Hu Hn) as Hseq.
  assert (checked_add_u64 n 1 = Some (n + 1)%N) as Hadd by (by apply checked_add_u64_Some).
  split; [done|]. split; [done|]. split; [done|]. split; simpl; [apply Hi| |done].
  exists (ds_file st ++ F), (n + 1)%N, []. rewrite app_nil_r, len_app, Hl, Hadd in *.
  split_and!; try done; [|by left].
  eapply parsed_frame; [by apply parsed_extend|rewrite len_app; unfold F; rewrite len_frame; unfold CHECKSUM_LEN; lia| |done].
  rewrite <- (app_nil_r F). unfold F. rewrite parse_frame_app; [|done|lia|done|done|].
  - by rewrite Happ, app_nil_r.
  - unfold addressable. rewrite app_nil_r, len_app. fold F. apply journal_addressable.
    pose proof (ji_capacity _ Hi). lia.
Qed.

(** ** Operations of a journal's life *)

Inductive journal_op :=
  | JBegin (io : AppendIo) (state_instance : N) (attempt_id : AttemptId) (caller : SubjectId)
      (capability_id : CapId) (requests : CapabilityRequestSet) (authorization_epoch : N)
  | JFinish (io : AppendIo) (attempt_id : AttemptId) (outcome : AttemptOutcome)
      (receipt : option CommitReceipt) (evidence : option CommitUnknownEvidence)
  | JReconcile (io : AppendIo) (attempt_id : AttemptId) (verdict : ReconciledCommit).

Definition journal_step (op : journal_op) : JM unit :=
  match op with
  | JBegin io inst id caller cap reqs epoch => begin_attempt io inst id caller cap reqs epoch
  | JFinish io id outcome receipt evidence => finish_attempt io id outcome receipt evidence
  | JReconcile io id verdict => reconcile_attempt io id verdict
  end.

Definition journal_run (ops : list journal_op) (st : DurableState) : DurableState :=
  foldl (λ st op, (journal_step op st).2) st ops.

(** Identities are [u64]; a reconciled receipt carries a token. *)
Definition journal_op_wf (op : journal_op) : Prop :=
  match op with
  | JBegin _ _ id _ _ _ _ | JFinish _ id _ _ _ => (id < u64_limit)%N
  | JReconcile _ id (ReconciledCommitted receipt) => (id < u64_limit)%N ∧ rcpt_token receipt ≠ []
  | JReconcile _ id ReconciledNotCommitted => (id < u64_limit)%N
  end.

(** What one operation does to a journal that satisfies the invariant. *)
Definition step_ok (st : DurableState) (outcome : result DurableAuditError unit * DurableState) : Prop :=
  journal_inv outcome.2.

Lemma step_ok_lift {A} st (r : result DurableAuditError A) (k : A → JM unit) :
  journal_inv st → (∀ a, r = Ok a → step_ok st (k a st)) → step_ok st ((lift r ≫= k) st).
Proof. intros Hi Hk. unfold lift, st_query, mbind, ST_bind. destruct r; [by apply Hk|done]. Qed.

Lemma step_ok_usable st (k : unit → JM unit) :
  journal_inv st → (ds_unusable st = false → step_ok st (k tt st)) →
  step_ok st ((st_query ensure_usable ≫= k) st).
Proof.
  intros Hi Hk. unfold st_query, mbind, ST_bind, ensure_usable. destruct (ds_unusable st); [done|by apply Hk].
Qed.

Lemma step_ok_sequence st (k : N → JM unit) :
  journal_inv st → (∀ n, ds_next_sequence st = Some n → step_ok st (k n st)) →
  step_ok st ((st_query next_sequence ≫= k) st).
Proof.
  intros Hi Hk. unfold st_query, mbind, ST_bind, next_sequence.
  destruct (ds_next_sequence st); simpl; [by apply Hk|done].
Qed.

Lemma insert_ids (m : AttemptMap) id a :
  ids_ok m → das_attempt_id a = id → (id < u64_limit)%N → ids_ok (<[id := a]> m).
Proof. intros Hm Ha Hid i x [[<- <-]|[_ Hx]]%lookup_insert_Some; [done|by apply Hm]. Qed.

Lemma begin_attempt_inv io inst id caller cap reqs epoch st :
  journal_inv st → (id < u64_limit)%N → journal_inv (begin_attempt io inst id caller cap reqs epoch st).2.
Proof.
  intros Hi Hid. apply (step_ok_lift st); [done|]. intros payload _.
  apply step_ok_usable; [done|]. intros Hu. unfold mbind at 1, ST_bind at 1, st_get.
  case_bool_decide as Hnew; [done|]. apply eq_None_not_Some in Hnew.
  apply step_ok_sequence; [done|]. intros n Hn.
  pose proof (append_frame_cases io st n START_KIND id payload
    (<[id := started_attempt id n payload]> (ds_attempts st)) Hi Hu Hn eq_refl Hid) as Hc.
  unfold mbind, ST_bind, step_ok. destruct (append_frame _ _ _ _ _ st) as [[[]|e] st'].
  - destruct Hc as (Ha & _ & _ & Hc).
    + unfold apply_frame. simpl. by rewrite Hnew.
    + apply insert_ids; [apply Hi|done|done].
    + simpl. by rewrite Ha.
  - apply Hc; [unfold apply_frame; simpl; by rewrite Hnew|apply insert_ids; [apply Hi|done|done]].
Qed.

Lemma finish_attempt_inv io id outcome receipt evidence st :
  journal_inv st → (id < u64_limit)%N →
  journal_inv (finish_attempt io id outcome receipt evidence st).2.
Proof.
  intros Hi Hid. apply (step_ok_lift st); [done|]. intros payload Henc.
  apply step_ok_usable; [done|]. intros Hu. unfold mbind at 1, ST_bind at 1, st_get.
  destruct (ds_attempts st !! id) as [a|] eqn:Ha; [|done].
  case_bool_decide as Hst; simpl negb; cbv iota; [|done].
  apply step_ok_sequence; [done|]. intros n Hn.
  assert (decode_finish_payload payload id = Ok (outcome, receipt, evidence)) as Hdec.
  { destruct (validate_finish outcome receipt evidence id) as [[]|] eqn:Hv.
    - destruct (finish_payload_decodes _ _ _ _ Hv) as (p & Hp & Hd). congruence.
    - unfold encode_finish_payload in Henc. by rewrite Hv in Henc. }
  set (m' := <[id := finished_attempt a n (outcome, receipt, evidence)]> (ds_attempts st)).
  assert (apply_frame (ds_attempts st) n FINISH_KIND id payload = Ok m') as Happ.
  { unfold apply_frame. simpl. rewrite Hdec. simpl. rewrite Ha.
    by rewrite bool_decide_eq_true_2 by done. }
  assert (ids_ok m') as Hids by (apply insert_ids; [apply Hi|exact (proj1 (ji_ids _ Hi _ _ Ha))|done]).
  pose proof (append_frame_cases io st n FINISH_KIND id payload m' Hi Hu Hn eq_refl Hid Happ Hids) as Hc.
  unfold mbind, ST_bind, step_ok. destruct (append_frame _ _ _ _ _ st) as [[[]|e] st'];
    destruct Hc as [Hsame Hc]; [|done]. simpl. rewrite Hsame, Ha. simpl. rewrite Hsame. apply Hc.
Qed.

Lemma reconcile_attempt_inv io id verdict st :
  journal_inv st → journal_op_wf (JReconcile io id verdict) →
  journal_inv (reconcile_attempt io id verdict st).2.
Proof.
  intros Hi Hwf. apply (step_ok_lift st); [done|]. intros [] Hown.
  apply (step_ok_lift st); [done|]. intros payload Henc.
  apply step_ok_usable; [done|]. intros Hu. unfold mbind at 1, ST_bind at 1, st_get.
  destruct (ds_attempts st !! id) as [a|] eqn:Ha; [|done].
  case_bool_decide as Hst; simpl negb; cbv iota; [|done]. case_bool_decide as Hrec; [done|].
  apply step_ok_sequence; [done|]. intros n Hn.
  apply encode_reconcile_exact in Henc as [-> Hlen].
  assert (id < u64_limit)%N as Hid by (destruct verdict; apply Hwf).
  assert (verdict_wf id verdict) as Hv.
  { destruct verdict as [receipt|]; [|done]. destruct Hwf as [_ Hne]. split; [|done].
    by destruct (N.eqb_spec (rcpt_attempt_id receipt) id). }
  set (m' := <[id := reconciled_attempt a verdict]> (ds_attempts st)).
  assert (apply_frame (ds_attempts st) n RECONCILE_KIND id (enc_reconcile verdict) = Ok m') as Happ.
  { unfold apply_frame. simpl. unfold apply_reconcile_frame.
    rewrite decode_reconcile_roundtrip by done. simpl. rewrite Ha.
    rewrite bool_decide_eq_true_2 by done. simpl. by rewrite bool_decide_eq_false_2. }
  assert (ids_ok m') as Hids by (apply insert_ids; [apply Hi|exact (proj1 (ji_ids _ Hi _ _ Ha))|done]).
  pose proof (append_frame_cases io st n RECONCILE_KIND id _ m' Hi Hu Hn eq_refl Hid Happ Hids) as Hc.
  unfold mbind, ST_bind, step_ok. destruct (append_frame _ _ _ _ _ st) as [[[]|e] st'];
    destruct Hc as [Hsame Hc]; [|done]. simpl. rewrite Hsame, Ha. simpl. rewrite Hsame. apply Hc.
Qed.

Lemma journal_step_inv op st : journal_inv st → journal_op_wf op → journal_inv (journal_step op st).2.
Proof.
  intros Hi Hwf. destruct op; [by apply begin_attempt_inv|by apply finish_attempt_inv|].
  by apply reconcile_attempt_inv.
Qed.

Lemma journal_run_inv ops st : journal_inv st → Forall journal_op_wf ops → journal_inv (journal_run ops st).
Proof.
  intros Hi Hops. revert st Hi. induction Hops as [|op ops Hop _ IH]; intros st Hi; [done|].
  simpl. by apply IH, journal_step_inv.
Qed.

Lemma journal_create_inv max st : journal_create max = Ok st → journal_inv st.
Proof.
  unfold journal_create, validate_capacity.
  destruct (N.ltb_spec MAX_JOURNAL_BYTES max); simpl; [done|]. intros [= <-].
  split; simpl; [done| |by intros ? ? ?]. exists [], 0%N, []. split_and!; try done; [|constructor|by left].
  unfold len. simpl. lia.
Qed.

(** ** Any history, interrupted or not *)

(** Identities are [u64]. *)
Definition journal_op_typed (op : journal_op) : Prop :=
  match op with JBegin _ _ id _ _ _ _ | JFinish _ id _ _ _ | JReconcile _ id _ => (id < u64_limit)%N end.

Definition op_io (op : journal_op) : AppendIo :=
  match op with JBegin io _ _ _ _ _ _ | JFinish io _ _ _ _ | JReconcile io _ _ => io end.

(** The same call, when the operating system refuses nothing. *)
Definition obliging (op : journal_op) : journal_op :=
  match op with
  | JBegin _ inst id caller cap reqs epoch => JBegin io_ok inst id caller cap reqs epoch
  | JFinish _ id outcome receipt evidence => JFinish io_ok id outcome receipt evidence
  | JReconcile _ id verdict => JReconcile io_ok id verdict
  end.

(** The frame a call appends, and the attempts it then records. *)
Definition planned (op : journal_op) (st : DurableState)
    : result DurableAuditError (N * N * AttemptId * str * AttemptMap) :=
  match op with
  | JBegin _ inst id caller cap reqs epoch =>
      payload ← encode_attempt_payload inst caller cap reqs epoch;
      _ ← ensure_usable st;
      if bool_decide (is_Some (ds_attempts st !! id)) then Err (Durable_ReplayDetected id)
      else n ← next_sequence st;
           Ok (n, START_KIND, id, payload, <[id := started_attempt id n payload]> (ds_attempts st))
  | JFinish _ id outcome receipt evidence =>
      payload ← encode_finish_payload id outcome receipt evidence;
      _ ← ensure_usable st;
      match ds_attempts st !! id with
      | None => Err (Durable_ReplayDetected id)
      | Some a =>
          if negb (bool_decide (das_outcome a = Started)) then Err (Durable_ReplayDetected id)
          else n ← next_sequence st;
               Ok (n, FINISH_KIND, id, payload,
                   <[id := finished_attempt a n (outcome, receipt, evidence)]> (ds_attempts st))
      end
  | JReconcile _ id verdict =>
      _ ← match verdict with
          | ReconciledCommitted receipt =>
              if negb (rcpt_attempt_id receipt =? id)%N
              then Err (invalid_record "reconciled receipt belongs to another attempt") else Ok tt
          | ReconciledNotCommitted => Ok tt
          end;
      payload ← encode_reconcile_payload verdict;
      _ ← ensure_usable st;
      match ds_attempts st !! id with
      | None => Err (Durable_ReplayDetected id)
      | Some a =>
          if negb (bool_decide (das_outcome a = CommitUnknown))
          then Err (invalid_record "only an unknown commit can be reconciled")
          else if bool_decide (is_Some (das_reconciliation a)) then Err (Durable_ReplayDetected id)
          else n ← next_sequence st;
               Ok (n, RECONCILE_KIND, id, payload, <[id := reconciled_attempt a verdict]> (ds_attempts st))
      end
  end.

Lemma append_frame_keeps_attempts io n kind id payload st :
  ds_attempts (append_frame io n kind id payload st).2 = ds_attempts st.
Proof. unfold append_frame. by repeat case_match. Qed.

(** Every call is its plan, then one append. *)
Lemma journal_step_planned op st :
  journal_step op st =
  match planned op st with
  | Err e => (Err e, st)
  | Ok (n, kind, id, payload, m') =>
      match append_frame (op_io op) n kind id payload st with
      | (Err e, st') => (Err e, st')
      | (Ok _, st') => (Ok tt, set_record (checked_add_u64 n 1) m' st')
      end
  end.
Proof.
  destruct op as [io inst id caller cap reqs epoch|io id outcome receipt evidence|io id verdict];
    cbn [journal_step planned op_io]; unfold begin_attempt, finish_attempt, reconcile_attempt, lift; unfold_st.
  - destruct (encode_attempt_payload _ _ _ _ _) as [payload|]; [|done]. cbn [mbind result_bind].
    destruct (ensure_usable st); [|done]. cbn [mbind result_bind]. case_bool_decide; [done|].
    destruct (next_sequence st) as [n|]; [|done]. cbn [mbind result_bind].
    pose proof (append_frame_keeps_attempts io n START_KIND id payload st) as Ha.
    destruct (append_frame _ _ _ _ _ _) as [[[]|] st']; [|done]. cbn [snd] in Ha. by rewrite Ha.
  - destruct (encode_finish_payload _ _ _ _) as [payload|]; [|done]. cbn [mbind result_bind].
    destruct (ensure_usable st); [|done]. cbn [mbind result_bind].
    destruct (ds_attempts st !! id) as [x|] eqn:Hx; [|done]. case_bool_decide; cbn [negb]; [|done].
    destruct (next_sequence st) as [n|]; [|done]. cbn [mbind result_bind].
    pose proof (append_frame_keeps_attempts io n FINISH_KIND id payload st) as Ha.
    destruct (append_frame _ _ _ _ _ _) as [[[]|] st']; [|done]. cbn [snd] in Ha. by rewrite Ha, Hx, Ha.
  - destruct (match verdict with ReconciledCommitted _ => _ | _ => _ end); [|done]. cbn [mbind result_bind].
    destruct (encode_reconcile_payload verdict) as [payload|]; [|done]. cbn [mbind result_bind].
    destruct (ensure_usable st); [|done]. cbn [mbind result_bind].
    destruct (ds_attempts st !! id) as [x|] eqn:Hx; [|done]. case_bool_decide; cbn [negb]; [|done].
    case_bool_decide; [done|]. destruct (next_sequence st) as [n|]; [|done]. cbn [mbind result_bind].
    pose proof (append_frame_keeps_attempts io n RECONCILE_KIND id payload st) as Ha.
    destruct (append_frame _ _ _ _ _ _) as [[[]|] st']; [|done]. cbn [snd] in Ha. by rewrite Ha, Hx, Ha.
Qed.

Lemma planned_obliging op st : planned (obliging op) st = planned op st.
Proof. by destruct op. Qed.

Lemma planned_unusable op st : ds_unusable st = true → is_ok (planned op st) = false.
Proof.
  intros Hu. unfold planned, ensure_usable. rewrite Hu. destruct op; cbn [mbind result_bind];
    repeat match goal with |- context [mbind _ ?m] => destruct m; cbn [mbind result_bind]; try done end.
Qed.

(** ** Verdicts without a token *)

(** A recorded verdict of a commit carries the provider's token. *)
Definition carries_token (a : DurableAttemptState) : bool :=
  match das_reconciliation a with
  | Some (ReconciledCommitted receipt) => negb (bool_decide (rcpt_token receipt = []))
  | _ => true
  end.

Definition tokens_recorded (m : AttemptMap) : bool := bool_decide (map_Forall (λ _ a, carries_token a = true) m).

Definition empty_token : DurableAuditError := invalid_payload (Text (lit "reconciled receipt token is empty")).

(** What recovery makes of a journal that was written completely: what the writer recorded,
    or a refusal when it recorded a verdict without a token. *)
Definition recovery_of (st : DurableState) : result DurableAuditError (option N * AttemptMap) :=
  if tokens_recorded (ds_attempts st) then Ok (ds_next_sequence st, ds_attempts st) else Err empty_token.

Lemma tokens_insert (m : AttemptMap) id a :
  tokens_recorded m = true → carries_token a = true → tokens_recorded (<[id := a]> m) = true.
Proof. unfold tokens_recorded. rewrite !bool_decide_eq_true. intros Hm Ha. by apply map_Forall_insert_2. Qed.

Lemma tokens_missing (m : AttemptMap) id a :
  m !! id = Some a → carries_token a = false → tokens_recorded m = false.
Proof.
  intros Hm Ha. apply bool_decide_eq_false_2. intros Hall. specialize (Hall _ _ Hm). simpl in Hall. congruence.
Qed.

(** A verdict without a token stays recorded. *)
Lemma tokens_insert_false (m : AttemptMap) id a :
  tokens_recorded m = false → (∀ x, m !! id = Some x → carries_token x = false → carries_token a = false) →
  tokens_recorded (<[id := a]> m) = false.
Proof.
  intros Hm Ha. unfold tokens_recorded in Hm. apply bool_decide_eq_false in Hm.
  assert (∀ (i : AttemptId) (x : DurableAttemptState), Decision ((λ _ a, carries_token a = true) i x))
    by (intros; cbv beta; apply _).
  destruct (proj1 (map_not_Forall (K:=N) (M:=gmap N) (λ _ a, carries_token a = true) m) Hm) as (i & x & Hx & Hc). apply not_true_iff_false in Hc.
  destruct (decide (i = id)) as [->|Hne].
  - apply (tokens_missing _ id a); [apply lookup_insert_eq|by apply (Ha x)].
  - by apply (tokens_missing _ i x); [rewrite lookup_insert_ne|].
Qed.

Lemma apply_empty_token (m : AttemptMap) n id : (id < u64_limit)%N →
  apply_frame m n RECONCILE_KIND id (enc_reconcile (ReconciledCommitted (CommitReceipt_new id []))) = Err empty_token.
Proof.
  intros Hid. destruct (empty_receipt_not_decodable id Hid) as [_ Hdec].
  unfold apply_frame, apply_reconcile_frame. change (RECONCILE_KIND =? START_KIND)%N with false.
  change (RECONCILE_KIND =? FINISH_KIND)%N with false. change (RECONCILE_KIND =? RECONCILE_KIND)%N with true.
  cbv iota. by rewrite Hdec.
Qed.

(** What a planned frame does to a reader, and to the recorded tokens. *)
Lemma planned_spec op st n kind id payload m' :
  journal_op_typed op → planned op st = Ok (n, kind, id, payload, m') →
  ds_next_sequence st = Some n ∧ (kind < 256)%N ∧ (id < u64_limit)%N ∧
  (tokens_recorded (ds_attempts st) = false → tokens_recorded m' = false) ∧
  (tokens_recorded (ds_attempts st) = true →
     (apply_frame (ds_attempts st) n kind id payload = Ok m' ∧ tokens_recorded m' = true) ∨
     (kind = RECONCILE_KIND ∧ payload = enc_reconcile (ReconciledCommitted (CommitReceipt_new id [])) ∧
      tokens_recorded m' = false)).
Proof.
  destruct op as [io inst id' caller cap reqs epoch|io id' outcome receipt evidence|io id' verdict];
    cbn [journal_op_typed planned]; intros Hid H; unfold ensure_usable, next_sequence in H.
  - destruct (encode_attempt_payload _ _ _ _ _) as [p|]; [|done]. cbn [mbind result_bind] in H.
    destruct (ds_unusable st); [done|]. cbn [mbind result_bind] in H. case_bool_decide as Hn; [done|].
    apply eq_None_not_Some in Hn. destruct (ds_next_sequence st) as [k|]; [|done]. simplify_eq/=.
    split_and!; try done.
    + intros Ht. apply tokens_insert_false; [done|]. intros x. by rewrite Hn.
    + intros Ht. left. split; [unfold apply_frame; simpl; by rewrite Hn|by apply tokens_insert].
  - destruct (encode_finish_payload _ _ _ _) as [p|] eqn:Henc; [|done]. cbn [mbind result_bind] in H.
    destruct (ds_unusable st); [done|]. cbn [mbind result_bind] in H.
    destruct (ds_attempts st !! id') as [a|] eqn:Ha; [|done]. case_bool_decide as Ho; cbn [negb] in H; [|done].
    destruct (ds_next_sequence st) as [k|]; [|done]. simplify_eq/=. split_and!; try done.
    + intros Ht. apply tokens_insert_false; [done|]. intros x. rewrite Ha. by intros [= <-].
    + intros Ht. left. split.
      * destruct (validate_finish outcome receipt evidence id) as [[]|] eqn:Hv.
        -- destruct (finish_payload_decodes _ _ _ _ Hv) as (q & Hq & Hd). rewrite Henc in Hq. injection Hq as <-.
           unfold apply_frame. simpl. rewrite Hd. simpl. rewrite Ha. by rewrite bool_decide_eq_true_2.
        -- unfold encode_finish_payload in Henc. by rewrite Hv in Henc.
      * apply tokens_insert; [done|]. unfold tokens_recorded in Ht. apply bool_decide_eq_true in Ht. exact (Ht _ _ Ha).
  - destruct (match verdict with ReconciledCommitted _ => _ | _ => _ end) as [[]|] eqn:Hown; [|done].
    cbn [mbind result_bind] in H. destruct (encode_reconcile_payload verdict) as [p|] eqn:Henc; [|done].
    cbn [mbind result_bind] in H. destruct (ds_unusable st); [done|]. cbn [mbind result_bind] in H.
    destruct (ds_attempts st !! id') as [a|] eqn:Ha; [|done]. case_bool_decide as Ho; cbn [negb] in H; [|done].
    case_bool_decide as Hrec; [done|]. destruct (ds_next_sequence st) as [k|]; [|done]. simplify_eq/=.
    apply encode_reconcile_exact in Henc as [-> Hlen]. apply eq_None_not_Some in Hrec. split_and!; try done.
    + intros Ht. apply tokens_insert_false; [done|]. intros x. rewrite Ha. intros [= <-].
      unfold carries_token. by rewrite Hrec.
    + intros Ht. assert (verdict_wf id verdict ∨ verdict = ReconciledCommitted (CommitReceipt_new id [])) as [Hv| ->].
      { destruct verdict as [[rid token]|]; [|by left]. simpl in Hown. destruct (N.eqb_spec rid id) as [->|]; [|done].
        destruct token; [by right|by left]. }
      * left. split.
        -- unfold apply_frame. simpl. unfold apply_reconcile_frame.
           rewrite decode_reconcile_roundtrip by done. simpl. rewrite Ha.
           rewrite bool_decide_eq_true_2 by done. simpl. rewrite Hrec. by rewrite bool_decide_eq_false_2 by (by intros []).
        -- apply tokens_insert; [done|]. unfold carries_token. simpl. destruct verdict as [receipt|]; [|done].
           destruct Hv as [_ Hv]. by rewrite bool_decide_eq_false_2.
      * right. split_and!; [done|done|]. eapply (tokens_missing _ id); [apply lookup_insert_eq|done].
Qed.

(** ** What is on disk *)

(** Recovery gets as far as a verdict without a token. *)
Definition blocked (file : str) : Prop :=
  ∃ good k m id rest,
    file = good ++ frame k RECONCILE_KIND id (enc_reconcile (ReconciledCommitted (CommitReceipt_new id []))) ++ rest ∧
    parsed good (len good) k m ∧ (id < u64_limit)%N.

Definition disk_holds (file : str) (n : N) (m : AttemptMap) : Prop :=
  (40 * n <= len file)%N ∧
  (parsed file (len file) n m ∧ tokens_recorded m = true ∨ blocked file ∧ tokens_recorded m = false).

(** A journal that has not sealed itself: memory and disk agree. *)
Record usable_journal (st : DurableState) (n : N) : Prop := {
  uj_usable : ds_unusable st = false;
  uj_capacity : (ds_capacity st <= MAX_JOURNAL_BYTES)%N;
  uj_length : ds_length st = len (ds_file st);
  uj_room : (len (ds_file st) <= ds_capacity st)%N;
  uj_next : ds_next_sequence st = Some n;
  uj_disk : disk_holds (ds_file st) n (ds_attempts st)
}.

Lemma blocked_app file more : blocked file → blocked (file ++ more).
Proof.
  intros (good & k & m & id & rest & -> & Hp & Hid). exists good, k, m, id, (rest ++ more).
  by rewrite <- !(assoc_L (++)).
Qed.

Lemma len_empty_token id : len (enc_reconcile (ReconciledCommitted (CommitReceipt_new id []))) = 14%N.
Proof. unfold enc_reconcile. cbn [rcpt_attempt_id rcpt_token CommitReceipt_new]. by rewrite !len_app, !len_le_bytes. Qed.

Lemma parse_blocked file maximum :
  blocked file → (len file <= maximum)%N → (maximum <= MAX_JOURNAL_BYTES)%N → parse_journal file maximum = Err empty_token.
Proof.
  intros (good & k & m & id & rest & -> & Hp & Hid) Hfit Hmax. set (bad := enc_reconcile _). set (F := frame _ _ _ _) in *.
  destruct (parse_journal_parsed _ maximum _ _ _ (parsed_extend _ (F ++ rest) _ _ _ Hp) Hfit) as (fuel & Hf & ->).
  assert (0 < len F)%N as Hpos by (unfold F; rewrite len_frame; unfold HEADER_LEN; lia).
  pose proof (parsed_bounds _ _ _ _ Hp) as Hb. rewrite !len_app in Hf, Hfit.
  destruct fuel as [|fuel]; [lia|]. cbn [parse_loop]. rewrite !len_app.
  destruct (N.ltb_spec (len good) (len good + (len F + len rest))); [|lia]. cbn [negb]. unfold F, bad.
  rewrite parse_frame_app; [by rewrite apply_empty_token|done| |done|by rewrite len_empty_token|].
  - pose proof (journal_addressable maximum Hmax). lia.
  - unfold addressable. rewrite !len_app. apply journal_addressable. unfold F, bad in Hfit. lia.
Qed.

Lemma usable_recovery st n :
  usable_journal st n → parse_journal (ds_file st) (ds_capacity st) = recovery_of st.
Proof.
  intros [_ Hcap _ Hroom Hn [_ [[Hp Ht]|[Hb Ht]]]]; unfold recovery_of; rewrite Ht, ?Hn.
  - by apply parsed_complete.
  - by apply parse_blocked.
Qed.

(** A whole frame after a usable journal. *)
Lemma disk_holds_frame st n op kind id payload m' (F := frame n kind id payload) :
  usable_journal st n → journal_op_typed op → planned op st = Ok (n, kind, id, payload, m') →
  (len payload <= MAX_RECORD_PAYLOAD)%N → (len (ds_file st) + len F <= ds_capacity st)%N →
  disk_holds (ds_file st ++ F) (n + 1) m'.
Proof.
  intros [_ Hcap _ Hroom Hn [H40 Hd]] Ht Hpl Hlen HF.
  destruct (planned_spec _ _ _ _ _ _ _ Ht Hpl) as (_ & Hk & Hid & Hfalse & Htrue).
  assert (40 <= len F)%N as HF40 by (unfold F; rewrite len_frame; unfold HEADER_LEN, CHECKSUM_LEN; lia).
  assert (len (ds_file st ++ F) < u64_limit)%N as Haddr by (apply journal_addressable; rewrite len_app; lia).
  split; [rewrite len_app; lia|]. destruct Hd as [[Hp Htok]|[Hb Htok]].
  2:{ right. split; [by apply blocked_app|by apply Hfalse]. }
  destruct (Htrue Htok) as [[Happ Htok']|(-> & -> & Htok')].
  - left. split; [|done]. rewrite len_app in *.
    eapply parsed_frame; [by apply parsed_extend|rewrite len_app; lia| |apply checked_add_u64_Some; split; [done|lia]].
    rewrite <- (app_nil_r F). unfold F. rewrite parse_frame_app; [by rewrite Happ, app_nil_r|done|lia|done|done|].
    unfold addressable. by rewrite app_nil_r, len_app.
  - right. split; [|done]. exists (ds_file st), n, (ds_attempts st), id, []. by rewrite app_nil_r.
Qed.

(** What is left of a torn frame. *)
Lemma disk_torn st n op kind id payload m' k (F := frame n kind id payload) :
  usable_journal st n → journal_op_typed op → planned op st = Ok (n, kind, id, payload, m') →
  (len payload <= MAX_RECORD_PAYLOAD)%N → (len (ds_file st) + len F <= ds_capacity st)%N →
  (0 < N.of_nat k < len F)%N →
  parse_journal (ds_file st ++ take k F) (ds_capacity st) =
  if tokens_recorded (ds_attempts st) then Err Durable_TruncatedRecord else Err empty_token.
Proof.
  intros [_ Hcap _ Hroom Hn [H40 Hd]] Ht Hpl Hlen HF Hk.
  destruct (planned_spec _ _ _ _ _ _ _ Ht Hpl) as (_ & Hkind & Hid & _).
  assert (len (take k F) = N.of_nat k) as Hlt by (unfold len in *; rewrite length_take; lia).
  assert (len (ds_file st ++ take k F) <= ds_capacity st)%N as Hfit by (rewrite len_app; lia).
  destruct Hd as [[Hp Htok]|[Hb Htok]]; rewrite Htok; [|apply parse_blocked; [by apply blocked_app|done|done]].
  destruct (parse_journal_parsed _ (ds_capacity st) _ _ _ (parsed_extend _ (take k F) _ _ _ Hp) Hfit)
    as (fuel & Hfuel & ->). rewrite len_app in Hfuel.
  destruct fuel as [|fuel]; [lia|]. cbn [parse_loop]. rewrite len_app.
  destruct (N.ltb_spec (len (ds_file st)) (len (ds_file st) + len (take k F))); [|lia]. cbn [negb].
  unfold F. rewrite parse_frame_torn; try done; fold F.
  - pose proof (journal_addressable _ Hcap). lia.
  - unfold addressable. rewrite len_app. apply journal_addressable. lia.
  - lia.
Qed.

(** ** One append *)

(** The append of a frame to a usable journal: refused without effect, interrupted after [k] of
    its bytes, or done. *)
Lemma append_frame_outcome io st n kind id payload (F := frame n kind id payload) :
  usable_journal st n →
  (∃ e, append_frame io n kind id payload st = (Err e, st)) ∨
  (∃ e k, append_frame io n kind id payload st = (Err e, set_unusable (set_file (ds_file st ++ take k F) st)) ∧
     (k = 0 ∨ (len payload <= MAX_RECORD_PAYLOAD)%N ∧ (len (ds_file st) + len F <= ds_capacity st)%N)) ∨
  (append_frame io n kind id payload st =
     (Ok tt, set_length (len (ds_file st) + len F) (set_file (ds_file st ++ F) st)) ∧
   (len payload <= MAX_RECORD_PAYLOAD)%N ∧ (len (ds_file st) + len F <= ds_capacity st)%N).
Proof.
  intros [_ Hcap Hl Hroom _ _]. unfold append_frame.
  destruct (validate_append_target (io_before io) st (ds_length st)) as [[]|e].
  2:{ right; left. exists e, 0. rewrite app_nil_r. split; [by destruct st|by left]. }
  destruct (N.ltb_spec MAX_RECORD_PAYLOAD (len payload)) as [|Hpl]; [left; eauto|]. fold F.
  destruct (checked_add_u64 (ds_length st) (len F)) as [new|] eqn:Hnew; [|left; eauto].
  apply checked_add_u64_Some in Hnew as [-> _]. rewrite Hl.
  destruct (N.ltb_spec (ds_capacity st) (len (ds_file st) + len F)) as [|HF]; [left; eauto|].
  destruct (io_write io) as [[written e]|]; [right; left; eauto 8|].
  destruct (validate_append_target (io_after io) _ _) as [[]|e]; [by right; right|].
  right; left. exists e, (length F). rewrite firstn_all. auto.
Qed.

Lemma append_frame_obliging st n kind id payload (F := frame n kind id payload) :
  usable_journal st n → (len payload <= MAX_RECORD_PAYLOAD)%N → (len (ds_file st) + len F <= ds_capacity st)%N →
  append_frame io_ok n kind id payload st =
  (Ok tt, set_length (len (ds_file st) + len F) (set_file (ds_file st ++ F) st)).
Proof.
  intros [_ Hcap Hl Hroom _ _] Hp HF. unfold append_frame, validate_append_target. simpl.
  rewrite Hl. destruct (N.ltb_spec (ds_capacity st) (len (ds_file st))); [lia|].
  rewrite N.eqb_refl. simpl negb. cbv iota. destruct (N.ltb_spec MAX_RECORD_PAYLOAD (len payload)); [lia|]. fold F.
  assert (checked_add_u64 (len (ds_file st)) (len F) = Some (len (ds_file st) + len F)%N) as ->
    by (apply checked_add_u64_Some; split; [done|]; apply journal_addressable; lia).
  destruct (N.ltb_spec (ds_capacity st) (len (ds_file st) + len F)); [lia|].
  rewrite len_app. destruct (N.ltb_spec (ds_capacity st) (len (ds_file st) + len F)); [lia|].
  by rewrite N.eqb_refl.
Qed.

(** The state after a whole frame. *)
Lemma usable_appended st n op kind id payload m' (F := frame n kind id payload) :
  usable_journal st n → journal_op_typed op → planned op st = Ok (n, kind, id, payload, m') →
  (len payload <= MAX_RECORD_PAYLOAD)%N → (len (ds_file st) + len F <= ds_capacity st)%N →
  usable_journal (set_record (checked_add_u64 n 1) m'
    (set_length (len (ds_file st) + len F) (set_file (ds_file st ++ F) st))) (n + 1).
Proof.
  intros Hu Ht Hpl Hlen HF. pose proof (disk_holds_frame _ _ _ _ _ _ _ Hu Ht Hpl Hlen HF) as Hd.
  destruct Hu as [Hus Hcap Hl Hroom Hn [H40 _]]. split;
    cbn [ds_file ds_capacity ds_length ds_next_sequence ds_attempts ds_unusable set_record set_length set_file]; try done.
  - by rewrite len_app.
  - rewrite len_app. done.
  - apply checked_add_u64_Some. split; [done|]. pose proof (journal_addressable _ Hcap).
    unfold MAX_JOURNAL_BYTES, u64_limit in *. lia.
Qed.

(** ** Histories *)

(** Where a journal can be: usable, or sealed by a call that was interrupted after [k] bytes. *)
Definition sealed_by (st0 : DurableState) (ops : list journal_op) (st : DurableState) : Prop :=
  ∃ before op after n kind id payload m' k,
    ops = before ++ op :: after ∧ usable_journal (journal_run before st0) n ∧ journal_op_typed op ∧
    planned op (journal_run before st0) = Ok (n, kind, id, payload, m') ∧
    is_ok (journal_step op (journal_run before st0)).1 = false ∧ (journal_step op (journal_run before st0)).2 = st ∧
    st = set_unusable (set_file (ds_file (journal_run before st0) ++ take k (frame n kind id payload))
           (journal_run before st0)) ∧
    (k = 0 ∨ (len payload <= MAX_RECORD_PAYLOAD)%N ∧
       (len (ds_file (journal_run before st0)) + len (frame n kind id payload)
        <= ds_capacity (journal_run before st0))%N).

Lemma journal_run_snoc ops op st : journal_run (ops ++ [op]) st = (journal_step op (journal_run ops st)).2.
Proof. unfold journal_run. by rewrite foldl_app. Qed.

Lemma journal_create_usable max st : journal_create max = Ok st → usable_journal st 0.
Proof.
  unfold journal_create, validate_capacity. destruct (N.ltb_spec MAX_JOURNAL_BYTES max); simpl; [done|]. intros [= <-].
  split; simpl; try done; [unfold len; simpl; lia|]. split; [done|]. left. split; [constructor|done].
Qed.

Lemma journal_history st0 ops : usable_journal st0 0 → Forall journal_op_typed ops →
  (∃ n, usable_journal (journal_run ops st0) n) ∨ sealed_by st0 ops (journal_run ops st0).
Proof.
  intros H0. induction ops as [|op ops IH] using rev_ind; [by left; exists 0%N|].
  intros [Hops Hop]%Forall_app. apply Forall_cons in Hop as [Hop _]. rewrite journal_run_snoc, journal_step_planned.
  destruct (IH Hops) as [[n Hu]|(before & op' & after & n & kind & id & payload & m' & k & -> & Hu & Ht & Hpl & He & Hend & Hst & Hk)].
  - set (st := journal_run ops st0) in *.
    destruct (planned op st) as [[[[[n' kind] id] payload] m']|e] eqn:Hpl; [|left; by exists n].
    assert (n' = n) as ->.
    { destruct (planned_spec _ _ _ _ _ _ _ Hop Hpl) as (Hn & _). pose proof (uj_next _ _ Hu). congruence. }
    destruct (append_frame_outcome (op_io op) st n kind id payload Hu) as [(e & ->)|[(e & k & Happ & Hk)|(-> & Hlen & HF)]].
    + left. by exists n.
    + right. rewrite Happ. cbn [snd]. exists ops, op, [], n, kind, id, payload, m', k. fold st. rewrite journal_step_planned, Hpl, Happ. auto 12.
    + left. exists (n + 1)%N. by apply usable_appended with (op := op).
  - right. pose proof (planned_unusable op (journal_run (before ++ op' :: after) st0)) as Hun.
    rewrite Hst in Hun |- *. specialize (Hun eq_refl). destruct (planned op _); [done|]. cbn [snd].
    exists before, op', (after ++ [op]), n, kind, id, payload, m', k. rewrite <- (assoc_L (++)).
    split_and!; try done. congruence.
Qed.
