(* ===== verification/JournalClaims.v ===== *)
(** * Properties of the write-ahead journal

    Reopening, crash recovery, append-only history, shape of recovered attempts,
    termination of recovery, and the one record the writer accepts but recovery
    refuses. *)

From S2P Require Import Prelude Bytes Path File Capability StateInvariant DurableRecord DurableRecordProps Journal JournalProps.

(** ** Concrete journals for the witnesses *)

Definition demo_journal : DurableState :=
  {| ds_file := []; ds_next_sequence := Some 0%N; ds_attempts := ∅; ds_unusable := false;
     ds_length := 0; ds_capacity := 4096 |}.

Definition demo_journal_ops : list journal_op :=
  [JBegin io_ok 0 0 (lit "agent") (lit "host:0") (dam_requests demo_metadata) 7;
   JFinish io_ok 0 CommitUnknown None (Some {| cue_attempt_id := 0; cue_token := lit "timeout" |});
   JReconcile io_ok 0 (ReconciledCommitted (CommitReceipt_new 0 (lit "etag")));
   JBegin io_ok 0 1 (lit "agent") (lit "host:0") (dam_requests demo_metadata) 7].

Lemma demo_journal_ops_wf : Forall journal_op_wf demo_journal_ops.
Proof. repeat constructor; done. Qed.

(** C18: reopening a journal restores exactly the writer's state.  After any sequence of
    begin, finish and reconcile calls, successful or not, as long as the writer has not sealed
    itself, opening the file it wrote rebuilds the same attempts, next sequence and length;
    with one exception, stated here: a journal in which a commit was reconciled with an empty
    token (the writer accepts it) is refused by every later open. *)
Theorem reopen_restores_journal max st ops :
  journal_create max = Ok st → Forall journal_op_typed ops →
  let s := journal_run ops st in
  ds_unusable s = false →
  journal_open (ds_file s) (ds_capacity s) = if tokens_recorded (ds_attempts s) then Ok s else Err empty_token.
Proof.
  intros H0%journal_create_usable Hops s Hu.
  destruct (journal_history _ _ H0 Hops) as [[n Hr]|(b & op & a & n & kind & id & p & m' & k & _ & _ & _ & _ & _ & _ & Hs & _)].
  2:{ unfold s in Hu. by rewrite Hs in Hu. }
  fold s in Hr. pose proof (usable_recovery _ _ Hr) as Hrec. destruct Hr as [_ Hcap Hl Hroom _ _].
  unfold journal_open, validate_capacity.
  destruct (N.ltb_spec MAX_JOURNAL_BYTES (ds_capacity s)); [lia|]. cbn [mbind result_bind].
  destruct (N.ltb_spec (ds_capacity s) (len (ds_file s))); [lia|]. cbn [mbind result_bind]. rewrite Hrec.
  unfold recovery_of. destruct (tokens_recorded _); [|done]. cbn [mbind result_bind].
  f_equal. rewrite <- Hl, <- Hu. by destruct s.
Qed.

(** The commit is reconciled with an empty token. *)
Definition demo_empty_ops : list journal_op :=
  take 2 demo_journal_ops ++ [JReconcile io_ok 0 (ReconciledCommitted (CommitReceipt_new 0 []))].

Lemma demo_ops_typed : Forall journal_op_typed demo_journal_ops ∧ Forall journal_op_typed demo_empty_ops.
Proof. split; repeat constructor. Qed.

Lemma reopen_restores_journal_witness :
  journal_open (ds_file (journal_run demo_journal_ops demo_journal))
    (ds_capacity (journal_run demo_journal_ops demo_journal)) =
  Ok (journal_run demo_journal_ops demo_journal) ∧
  journal_open (ds_file (journal_run demo_empty_ops demo_journal))
    (ds_capacity (journal_run demo_empty_ops demo_journal)) = Err empty_token.
Proof.
  assert (Ht : tokens_recorded (ds_attempts (journal_run demo_journal_ops demo_journal)) = true) by by vm_compute.
  assert (He : tokens_recorded (ds_attempts (journal_run demo_empty_ops demo_journal)) = false) by by vm_compute.
  assert (Hc : journal_create 4096 = Ok demo_journal) by by vm_compute.
  pose proof (reopen_restores_journal 4096 demo_journal demo_journal_ops Hc (proj1 demo_ops_typed)
    ltac:(by vm_compute)) as H1.
  pose proof (reopen_restores_journal 4096 demo_journal demo_empty_ops Hc (proj2 demo_ops_typed)
    ltac:(by vm_compute)) as H2.
  cbv zeta in H1, H2. rewrite Ht in H1. rewrite He in H2. exact (conj H1 H2).
Defined.

(** C19: crash recovery never invents an outcome.  Whatever calls were made and whatever writes
    failed or were torn, at any byte, the file left on disk is recovered to what the writer
    recorded ([recovery_of]: its attempts and next sequence, or the refusal of a verdict without
    a token), or it is refused as truncated, or one interrupted call reached the disk with its
    whole frame, and then the file is recovered to what that very call would have recorded had
    it succeeded. *)
Theorem crash_recovery_is_faithful max st ops :
  journal_create max = Ok st → Forall journal_op_typed ops →
  let s := journal_run ops st in
  let recovered := parse_journal (ds_file s) (ds_capacity s) in
  recovered = recovery_of s ∨
  recovered = Err Durable_TruncatedRecord ∨
  ∃ before op after, ops = before ++ op :: after ∧
    let interrupted := journal_step op (journal_run before st) in
    let completed := journal_step (obliging op) (journal_run before st) in
    is_ok interrupted.1 = false ∧ ds_unusable interrupted.2 = true ∧
    completed.1 = Ok tt ∧ recovered = recovery_of completed.2.
Proof.
  intros H0%journal_create_usable Hops s. cbv zeta.
  destruct (journal_history _ _ H0 Hops)
    as [[n Hr]|(before & op & after & n & kind & id & payload & m' & k & Hsplit & Hu & Ht & Hpl & He & Hend & Hs & Hk)];
    [left; by eapply usable_recovery|]. fold s in Hs.
  set (s0 := journal_run before st) in *. set (F := frame n kind id payload) in *.
  assert (Hsame : recovery_of s = recovery_of s0) by by rewrite Hs.
  assert (Hcap : ds_capacity s = ds_capacity s0) by by rewrite Hs.
  assert (Hfile : ds_file s = ds_file s0 ++ take k F) by by rewrite Hs. rewrite Hfile, Hcap.
  destruct (decide (k = 0)) as [->|Hk0].
  { left. rewrite Hsame, take_0, app_nil_r. by eapply usable_recovery. }
  destruct Hk as [|[Hlen HF]]; [done|]. destruct (decide (length F ≤ k)) as [Hge|Hlt].
  - right; right. exists before, op, after. split; [done|]. rewrite take_ge by done.
    assert (journal_step (obliging op) s0 = (Ok tt, set_record (checked_add_u64 n 1) m'
      (set_length (len (ds_file s0) + len F) (set_file (ds_file s0 ++ F) s0)))) as Hdone.
    { rewrite journal_step_planned, planned_obliging, Hpl.
      assert (op_io (obliging op) = io_ok) as -> by by destruct op. by rewrite append_frame_obliging. }
    fold s0. rewrite Hdone. pose proof (usable_appended _ _ _ _ _ _ _ Hu Ht Hpl Hlen HF) as Hd. apply usable_recovery in Hd.
    rewrite Hend. split_and!; [exact He|by unfold s in Hs; rewrite Hs|done|exact Hd].
  - pose proof (disk_torn _ _ _ _ _ _ _ k Hu Ht Hpl Hlen HF) as Htorn. fold F in Htorn.
    rewrite Htorn by (unfold len; lia). rewrite Hsame. unfold recovery_of.
    destruct (tokens_recorded (ds_attempts s0)); [by right; left|by left].
Qed.

(** A journal whose second append is torn after ten bytes, and one whose second append reached
    the disk and was not acknowledged. *)
Definition torn_ops (written : nat) : list journal_op :=
  [JBegin io_ok 0 0 (lit "agent") (lit "host:0") (dam_requests demo_metadata) 7;
   JFinish {| io_before := None; io_write := Some (written, Durable_Io (lit "Other") (lit "disk"));
              io_after := None |} 0 Denied None None].

(** The next sequence a recovery found. *)
Definition next_of (r : result DurableAuditError (option N * AttemptMap)) : option (option N) :=
  match r with Ok (next, _) => Some next | Err _ => None end.

Lemma torn_ops_typed written : Forall journal_op_typed (torn_ops written).
Proof. repeat constructor. Qed.

Lemma crash_recovery_is_faithful_witness :
  let s := journal_run (torn_ops 4096) demo_journal in
  let recovered := parse_journal (ds_file s) (ds_capacity s) in
  recovered ≠ recovery_of s ∧ recovered ≠ Err Durable_TruncatedRecord ∧
  ∃ before op after, torn_ops 4096 = before ++ op :: after ∧
    (journal_step (obliging op) (journal_run before demo_journal)).1 = Ok tt ∧
    recovered = recovery_of (journal_step (obliging op) (journal_run before demo_journal)).2.
Proof.
  assert (Hc : journal_create 4096 = Ok demo_journal) by by vm_compute.
  pose proof (crash_recovery_is_faithful 4096 demo_journal (torn_ops 4096) Hc (torn_ops_typed 4096)) as H.
  cbv zeta in H |- *.
  assert (H1 : bool_decide (is_ok (parse_journal (ds_file (journal_run (torn_ops 4096) demo_journal))
    (ds_capacity (journal_run (torn_ops 4096) demo_journal))) = true) = true) by by vm_compute.
  assert (H2 : bool_decide ((next_of (parse_journal (ds_file (journal_run (torn_ops 4096) demo_journal))
    (ds_capacity (journal_run (torn_ops 4096) demo_journal)))) = (next_of (recovery_of (journal_run (torn_ops 4096) demo_journal)))) = false)
    by by vm_compute.
  apply bool_decide_eq_true in H1. apply bool_decide_eq_false in H2.
  set (r := parse_journal _ _) in *. set (r' := recovery_of (journal_run (torn_ops 4096) demo_journal)) in *.
  clearbody r r'. assert (N1 : r ≠ r') by (intros ->; by apply H2).
  assert (N2 : r ≠ Err Durable_TruncatedRecord) by by intros ->.
  split; [exact N1|]. split; [exact N2|].
  destruct H as [H|[H|(before & op & after & Hs & _ & _ & Hd & Hr)]]; [by destruct (N1 H)|by destruct (N2 H)|].
  exists before, op, after. exact (conj Hs (conj Hd Hr)).
Defined.

(** C40: recovery terminates on every byte string: the loop is never cut short by the
    fuel of the model. *)
Theorem recovery_terminates bytes : is_Some (parse_loop (length bytes) bytes 0 0 ∅).
Proof. apply not_eq_None_Some, parse_loop_total. unfold len. lia. Qed.

(** ** Append-only history *)

(** How one attempt may change: its start never, its terminal record and its
    provider verdict at most once. *)
Record attempt_evolves (a a' : DurableAttemptState) : Prop := {
  ev_start : das_attempt_id a' = das_attempt_id a ∧ das_start_sequence a' = das_start_sequence a ∧
             das_payload a' = das_payload a;
  ev_terminal : das_outcome a ≠ Started →
    das_outcome a' = das_outcome a ∧ das_finish_sequence a' = das_finish_sequence a ∧
    das_receipt a' = das_receipt a ∧ das_evidence a' = das_evidence a;
  ev_verdict : is_Some (das_reconciliation a) → das_reconciliation a' = das_reconciliation a;
}.

Record journal_extends (st st' : DurableState) : Prop := {
  jx_file : ds_file st `prefix_of` ds_file st';
  jx_attempts : ∀ id a, ds_attempts st !! id = Some a →
    ∃ a', ds_attempts st' !! id = Some a' ∧ attempt_evolves a a';
}.

Lemma attempt_evolves_refl a : attempt_evolves a a.
Proof. by split. Qed.

#[export] Instance attempt_evolves_trans : Transitive attempt_evolves.
Proof.
  intros a b c [(?&?&?) Ht Hv] [(?&?&?) Ht' Hv']. split; [split_and!; congruence| |].
  - intros Ho. destruct (Ht Ho) as (Ho' & ? & ? & ?). destruct Ht' as (? & ? & ? & ?); [congruence|].
    split_and!; congruence.
  - intros Hs. rewrite <- (Hv Hs). apply Hv'. by rewrite (Hv Hs).
Qed.

#[export] Instance journal_extends_preorder : PreOrder journal_extends.
Proof.
  split.
  - intros st. split; [done|]. eauto using attempt_evolves_refl.
  - intros a b c [Hf Ha] [Hf' Ha']. split; [by etrans|].
    intros id x (y & (z & ? & ?)%Ha' & ?)%Ha. exists z. split; [done|]. by etrans.
Qed.

Lemma append_frame_extends io n kind id payload st :
  journal_extends st (append_frame io n kind id payload st).2 ∧
  ds_attempts (append_frame io n kind id payload st).2 = ds_attempts st.
Proof.
  assert (∀ s, ds_file st `prefix_of` ds_file s → ds_attempts s = ds_attempts st →
    journal_extends st s ∧ ds_attempts s = ds_attempts st) as Hmk.
  { intros s Hf Ha. split; [|done]. split; [done|]. rewrite Ha. eauto using attempt_evolves_refl. }
  unfold append_frame. destruct (validate_append_target (io_before io) _ _); [|by apply Hmk].
  case_match; [by apply Hmk|]. destruct (checked_add_u64 _ _); [|by apply Hmk].
  case_match; [by apply Hmk|]. destruct (io_write io) as [[w e]|].
  - apply Hmk; [simpl; by apply prefix_app_r|done].
  - destruct (validate_append_target (io_after io) _ _); apply Hmk; try done; simpl; by apply prefix_app_r.
Qed.

Lemma set_record_extends st next id (a : option DurableAttemptState) a' :
  ds_attempts st !! id = a → (∀ x, a = Some x → attempt_evolves x a') →
  journal_extends st (set_record next (<[id := a']> (ds_attempts st)) st).
Proof.
  intros Ha He. split; [done|]. intros i x Hx. simpl. destruct (decide (id = i)) as [->|Hn].
  - rewrite lookup_insert_eq. exists a'. split; [done|]. apply He. congruence.
  - rewrite lookup_insert_ne by done. eauto using attempt_evolves_refl.
Qed.

Lemma journal_step_extends op st : journal_extends st (journal_step op st).2.
Proof.
  destruct op as [io inst id caller cap reqs epoch|io id outcome receipt evidence|io id verdict];
    simpl; unfold begin_attempt, finish_attempt, reconcile_attempt, lift; unfold_st.
  - destruct (encode_attempt_payload _ _ _ _ _); [|done]. destruct (ensure_usable st); [|done].
    case_bool_decide as Hn; [done|]. apply eq_None_not_Some in Hn.
    destruct (next_sequence st) as [n|]; [|done].
    destruct (append_frame_extends io n START_KIND id a st) as [Hx Hs].
    destruct (append_frame _ _ _ _ _ _) as [[[]|] st']; simpl in *; [|done]. etrans; [done|].
    eapply set_record_extends; [done|]. intros x. by rewrite Hs, Hn.
  - destruct (encode_finish_payload _ _ _ _); [|done]. destruct (ensure_usable st); [|done].
    destruct (ds_attempts st !! id) as [x|] eqn:Hx; [|done]. case_bool_decide as Ho; simpl; [|done].
    destruct (next_sequence st) as [n|]; [|done].
    destruct (append_frame_extends io n FINISH_KIND id a st) as [He Hs].
    destruct (append_frame _ _ _ _ _ _) as [[[]|] st']; simpl in *; [|done]. rewrite Hs, Hx. simpl.
    etrans; [done|]. eapply set_record_extends; [done|]. intros y. rewrite Hs, Hx. intros [= <-].
    split; [done|congruence|done].
  - destruct (match verdict with ReconciledCommitted _ => _ | _ => _ end); [|done].
    destruct (encode_reconcile_payload verdict); [|done]. destruct (ensure_usable st); [|done].
    destruct (ds_attempts st !! id) as [x|] eqn:Hx; [|done]. case_bool_decide as Ho; simpl; [|done].
    case_bool_decide as Hr; [done|]. destruct (next_sequence st) as [n|]; [|done].
    match goal with |- context [append_frame io n RECONCILE_KIND id ?p st] =>
      destruct (append_frame_extends io n RECONCILE_KIND id p st) as [He Hs] end.
    destruct (append_frame _ _ _ _ _ _) as [[[]|] st']; simpl in *; [|done]. rewrite Hs, Hx. simpl.
    etrans; [done|]. eapply set_record_extends; [done|]. intros y. rewrite Hs, Hx. intros [= <-].
    split; [done|done|]. by intros ?.
Qed.

(** The journal is append-only.  Whatever calls are made and however they fail, the
    bytes on disk only grow, an attempt's start record never changes, its terminal
    record is written at most once and its provider verdict at most once. *)
Theorem journal_is_append_only ops st : journal_extends st (journal_run ops st).
Proof.
  revert st. induction ops as [|op ops IH]; intros st; [done|]. simpl. etrans; [|apply IH].
  apply journal_step_extends.
Qed.

(** ** Recovered attempts are well formed *)

Definition attempt_wf (id : AttemptId) (a : DurableAttemptState) : Prop :=
  das_attempt_id a = id ∧
  match das_outcome a with
  | Started => das_finish_sequence a = None ∧ das_receipt a = None ∧ das_evidence a = None ∧
               das_reconciliation a = None
  | outcome => is_Some (das_finish_sequence a) ∧
      validate_finish outcome (das_receipt a) (das_evidence a) id = Ok tt ∧
      (is_Some (das_reconciliation a) → outcome = CommitUnknown)
  end.

(** The FINISH decoder only returns records the writer's validation admits. *)
Lemma decode_finish_valid payload id o r e :
  decode_finish_payload payload id = Ok (o, r, e) → validate_finish o r e id = Ok tt.
Proof.
  unfold decode_finish_payload. destruct payload as [|code rest]; [done|].
  destruct (decode_outcome (b2N code)) as [outcome|] eqn:Ho; cbn [mbind result_bind]; [|done].
  assert (outcome ≠ Started) as Hns.
  { intros ->. unfold decode_outcome in Ho. repeat case_match; done. }
  assert (∀ limit empty build, decode_finish_token outcome limit empty build rest = Ok (o, r, e) →
    ∃ token, token ≠ [] ∧ (len token <= limit)%N ∧ build token = Ok (o, r, e)) as Htok.
  { intros limit empty build. unfold decode_finish_token.
    destruct (N.ltb_spec (len rest) 4); [done|]. destruct (N.eqb_spec (from_le_bytes (take 4 rest)) 0); [done|].
    destruct (N.ltb_spec limit (from_le_bytes (take 4 rest))); [done|].
    destruct (N.eqb_spec (len rest) (4 + from_le_bytes (take 4 rest))); simpl; [|done].
    intros Hb. exists (drop 4 rest). split_and!; [|unfold len in *; rewrite length_drop; lia|done].
    intros Hd%(f_equal length). unfold len in *. rewrite length_drop in Hd. simpl in Hd. lia. }
  destruct outcome; try done.
  - case_bool_decide; simpl; [|done]. by intros [= <- <- <-].
  - case_bool_decide; simpl; [|done]. by intros [= <- <- <-].
  - intros (token & Hne & Hlen & [= <- <- <-])%Htok. unfold validate_finish. simpl.
    rewrite N.eqb_refl. simpl. rewrite bool_decide_eq_false_2 by done.
    destruct (N.ltb_spec MAX_COMMIT_RECEIPT_BYTES (len token)); [lia|done].
  - intros (token & Hne & Hlen & Hb)%Htok. unfold CommitUnknownEvidence_new in Hb.
    destruct (validate_commit_unknown_token token) as [[]|] eqn:Hv; simplify_eq/=.
    unfold validate_finish. simpl. rewrite N.eqb_refl. simpl. by rewrite Hv.
Qed.

Lemma validate_finish_terminal o r e id : validate_finish o r e id = Ok tt → o ≠ Started.
Proof.
  unfold validate_finish. intros H ->.
  repeat match type of H with
  | mbind _ ?m = _ => destruct m as [[]|]; cbn [mbind result_bind] in H; [|done]
  end. done.
Qed.

Lemma apply_frame_wf m n kind id payload m' :
  (∀ i a, m !! i = Some a → attempt_wf i a) → apply_frame m n kind id payload = Ok m' →
  ∀ i a, m' !! i = Some a → attempt_wf i a.
Proof.
  intros Hm. unfold apply_frame, apply_reconcile_frame.
  assert (∀ a', attempt_wf id a' → ∀ i a, <[id := a']> m !! i = Some a → attempt_wf i a) as Hins.
  { intros a' Ha' i a [[<- <-]|[_ Hx]]%lookup_insert_Some; [done|by apply Hm]. }
  destruct (kind =? START_KIND)%N; [|destruct (kind =? FINISH_KIND)%N; [|destruct (kind =? RECONCILE_KIND)%N; [|done]]].
  - case_bool_decide; [done|]. intros [= <-]. by apply Hins.
  - destruct (decode_finish_payload payload id) as [[[o r] e]|] eqn:Hd; cbn [mbind result_bind]; [|done].
    apply decode_finish_valid in Hd. destruct (m !! id) as [x|] eqn:Hx; [|done].
    case_bool_decide as Ho; simpl; [|done]. intros [= <-]. apply Hins. destruct (Hm _ _ Hx) as [Hid Hw].
    rewrite Ho in Hw. destruct Hw as (_ & _ & _ & Hrec).
    split; [done|]. simpl. rewrite Hrec. apply validate_finish_terminal in Hd as Ht.
    destruct o; [done| | | |]; (split_and!; [by eexists|done|by intros []]).
  - destruct (decode_reconcile_payload payload id) as [v|]; cbn [mbind result_bind]; [|done].
    destruct (m !! id) as [x|] eqn:Hx; [|done]. case_bool_decide as Ho; simpl; [|done].
    case_bool_decide; [done|]. intros [= <-]. apply Hins. destruct (Hm _ _ Hx) as [Hid Hw].
    split; [done|]. simpl. rewrite Ho in *. destruct Hw as (? & ? & _). done.
Qed.

(** Whatever bytes are on disk, an attempt that recovery accepts is well formed:
    [Committed] carries exactly a bounded receipt for that attempt,
    [CommitUnknown] exactly bounded evidence, the other outcomes nothing, and only
    a [CommitUnknown] attempt has a provider verdict. *)
Theorem recovered_attempts_wf bytes maximum next attempts :
  parse_journal bytes maximum = Ok (next, attempts) →
  ∀ id a, attempts !! id = Some a → attempt_wf id a.
Proof.
  unfold parse_journal. case_match; [done|].
  assert (∀ fuel o n m, (∀ i a, m !! i = Some a → attempt_wf i a) →
    parse_loop fuel bytes o n m = Some (Ok (next, attempts)) →
    ∀ i a, attempts !! i = Some a → attempt_wf i a) as Hloop.
  { induction fuel as [|fuel IH]; intros o n m Hm; simpl.
    - case_match; [|done]. by intros [= _ <-].
    - case_match; [by intros [= _ <-]|]. destruct (parse_frame bytes o n m) as [[o' m']|] eqn:Hp; [|done].
      destruct (checked_add_u64 n 1); [|done]. apply IH. clear IH. unfold parse_frame in Hp.
      repeat match type of Hp with
      | context [read_le ?w bytes ?x] => destruct (read_le w bytes x) as [[? ?]|]; cbn [mbind result_bind] in Hp; [|done]
      | context [if ?b then Err _ else _] => destruct b; [done|]
      end.
      match type of Hp with context [apply_frame ?a ?b ?c ?d ?e] =>
        destruct (apply_frame a b c d e) as [m''|] eqn:Ha; cbn [mbind result_bind] in Hp; [|done] end.
      simplify_eq. by eapply apply_frame_wf. }
  destruct (parse_loop _ _ _ _ _) as [r|] eqn:Hl; [|done]. simpl. intros ->.
  eapply Hloop; [|done]. intros i a. by rewrite lookup_empty.
Qed.

Lemma recovered_attempts_wf_witness :
  ∀ a, ds_attempts (journal_run demo_journal_ops demo_journal) !! 0%N = Some a → attempt_wf 0 a.
Proof.
  apply (recovered_attempts_wf (ds_file (journal_run demo_journal_ops demo_journal)) 4096
    (ds_next_sequence (journal_run demo_journal_ops demo_journal))).
  vm_compute. reflexivity.
Defined.

(** ** A verdict that cannot be recovered *)

Lemma append_frame_io_ok st n kind id payload :
  journal_inv st → ds_unusable st = false → (len payload <= MAX_RECORD_PAYLOAD)%N →
  (len (ds_file st) + len (frame n kind id payload) <= ds_capacity st)%N →
  append_frame io_ok n kind id payload st =
  (Ok tt, set_length (len (ds_file st) + len (frame n kind id payload))
            (set_file (ds_file st ++ frame n kind id payload) st)).
Proof.
  intros Hi Hu Hp Hroom. destruct (journal_inv_usable _ Hi Hu) as (Hl & Hc & _).
  pose proof (ji_capacity _ Hi) as Hcap. unfold append_frame, validate_append_target. simpl.
  rewrite Hl. destruct (N.ltb_spec (ds_capacity st) (len (ds_file st))); [lia|].
  rewrite N.eqb_refl. simpl negb. cbv iota. destruct (N.ltb_spec MAX_RECORD_PAYLOAD (len payload)); [lia|].
  assert (checked_add_u64 (len (ds_file st)) (len (frame n kind id payload)) =
    Some (len (ds_file st) + len (frame n kind id payload))%N) as ->
    by (apply checked_add_u64_Some; split; [done|]; apply journal_addressable; lia).
  destruct (N.ltb_spec (ds_capacity st) (len (ds_file st) + len (frame n kind id payload))); [lia|].
  rewrite len_app.
  destruct (N.ltb_spec (ds_capacity st) (len (ds_file st) + len (frame n kind id payload))); [lia|].
  by rewrite N.eqb_refl.
Qed.

(** A frame recovery refuses makes the whole journal unopenable. *)
Lemma refused_frame_blocks_open st n kind id payload e :
  journal_inv st → ds_unusable st = false → ds_next_sequence st = Some n →
  (kind < 256)%N → (id < u64_limit)%N → (len payload <= MAX_RECORD_PAYLOAD)%N →
  (len (ds_file st) + len (frame n kind id payload) <= ds_capacity st)%N →
  apply_frame (ds_attempts st) n kind id payload = Err e →
  journal_open (ds_file st ++ frame n kind id payload) (ds_capacity st) = Err e.
Proof.
  intros Hi Hu Hn Hk Hid Hp Hroom Happ. destruct (journal_inv_usable _ Hi Hu) as (Hl & Hc & n' & Hn' & Hpar).
  simplify_eq. pose proof (ji_capacity _ Hi) as Hcap. pose proof (sequence_fits _ _ Hi Hu Hn) as Hseq.
  set (F := frame n kind id payload) in *. unfold journal_open, validate_capacity.
  destruct (N.ltb_spec MAX_JOURNAL_BYTES (ds_capacity st)); [lia|]. cbn [mbind result_bind].
  destruct (N.ltb_spec (ds_capacity st) (len (ds_file st ++ F))) as [Hbig|_];
    [rewrite len_app in Hbig; lia|]. cbn [mbind result_bind].
  assert (len (ds_file st ++ F) <= ds_capacity st)%N as Hfit by (rewrite len_app; lia).
  destruct (parse_journal_parsed _ (ds_capacity st) _ _ _ (parsed_extend _ F _ _ _ Hpar) Hfit) as (fuel & Hf & ->).
  assert (0 < len F)%N as Hpos by (unfold F; rewrite len_frame; unfold HEADER_LEN; lia).
  pose proof (parsed_bounds _ _ _ _ Hpar). destruct fuel as [|fuel]; [rewrite len_app in Hf; lia|]. simpl.
  rewrite len_app. destruct (N.ltb_spec (len (ds_file st)) (len (ds_file st) + len F)); [|lia]. simpl.
  pose proof (parse_frame_app (ds_file st) n kind id payload [] (ds_attempts st)) as Hpf.
  fold F in Hpf. rewrite app_nil_r in Hpf. rewrite Hpf; [by rewrite Happ|done|lia|done|done|].
  unfold addressable. apply journal_addressable. lia.
Qed.

(** The writer accepts a verdict that recovery refuses.  Reconciling an unknown
    commit with a receipt whose token is empty succeeds and is synced, and from
    then on the journal can no longer be opened. *)
Theorem empty_receipt_makes_journal_unopenable max st0 ops id a :
  journal_create max = Ok st0 → Forall journal_op_wf ops →
  let st := journal_run ops st0 in
  ds_unusable st = false → ds_attempts st !! id = Some a → das_outcome a = CommitUnknown →
  das_reconciliation a = None → (id < u64_limit)%N → (len (ds_file st) + 54 <= ds_capacity st)%N →
  let verdict := ReconciledCommitted (CommitReceipt_new id []) in
  (reconcile_attempt io_ok id verdict st).1 = Ok tt ∧
  journal_open (ds_file (reconcile_attempt io_ok id verdict st).2) (ds_capacity st) =
    Err (invalid_payload (Text (lit "reconciled receipt token is empty"))).
Proof.
  intros Hi%journal_create_inv Hops st Hu Ha Ho Hrec Hid Hroom verdict.
  pose proof (journal_run_inv _ _ Hi Hops) as Hr. fold st in Hr. clearbody st. clear Hi.
  destruct (journal_inv_usable _ Hr Hu) as (_ & _ & n & Hn & _).
  destruct (empty_receipt_not_decodable id Hid) as [Henc Hdec]. fold verdict in Henc, Hdec.
  pose proof (proj1 (encode_reconcile_exact _ _) Henc) as [_ Hlen].
  assert (len (frame n RECONCILE_KIND id (enc_reconcile verdict)) = 54%N) as HF.
  { rewrite len_frame. unfold verdict, enc_reconcile. cbn [rcpt_attempt_id rcpt_token CommitReceipt_new].
    by rewrite !len_app, !len_le_bytes. }
  assert (reconcile_attempt io_ok id verdict st =
    (Ok tt, set_record (checked_add_u64 n 1) (<[id := reconciled_attempt a verdict]> (ds_attempts st))
       (set_length (len (ds_file st) + len (frame n RECONCILE_KIND id (enc_reconcile verdict)))
         (set_file (ds_file st ++ frame n RECONCILE_KIND id (enc_reconcile verdict)) st)))) as ->.
  { unfold reconcile_attempt, lift, st_query, st_get, st_modify, mbind, ST_bind.
    match goal with |- context [match verdict with ReconciledCommitted _ => _ | _ => _ end] =>
      replace (match verdict with ReconciledCommitted _ => _ | _ => _ end) with (Ok (E := DurableAuditError) tt)
        by (simpl; by rewrite N.eqb_refl) end.
    rewrite Henc. unfold ensure_usable. rewrite Hu, Ha, Ho. rewrite bool_decide_eq_true_2 by done. simpl negb. cbv iota.
    rewrite Hrec. rewrite bool_decide_eq_false_2 by (by intros []). cbn [negb]. unfold next_sequence. cbv beta iota.
    rewrite Hn. cbn [ok_or].
    rewrite append_frame_io_ok by (done || (rewrite HF; done)). cbn [set_length set_file ds_attempts]. by rewrite Ha. }
  split; [done|]. cbn [snd set_record set_length set_file ds_file].
  apply refused_frame_blocks_open; try done.
  unfold apply_frame, apply_reconcile_frame. change (RECONCILE_KIND =? START_KIND)%N with false.
  change (RECONCILE_KIND =? FINISH_KIND)%N with false. change (RECONCILE_KIND =? RECONCILE_KIND)%N with true.
  cbv iota. by rewrite Hdec.
Qed.

Lemma empty_receipt_makes_journal_unopenable_witness :
  let st := journal_run (take 2 demo_journal_ops) demo_journal in
  let verdict := ReconciledCommitted (CommitReceipt_new 0 []) in
  (reconcile_attempt io_ok 0 verdict st).1 = Ok tt ∧
  journal_open (ds_file (reconcile_attempt io_ok 0 verdict st).2) (ds_capacity st) =
    Err (invalid_payload (Text (lit "reconciled receipt token is empty"))).
Proof.
  eapply (empty_receipt_makes_journal_unopenable 4096 demo_journal (take 2 demo_journal_ops) 0).
  - vm_compute. reflexivity.
  - repeat constructor; done.
  - vm_compute. reflexivity.
  - vm_compute. reflexivity.
  - vm_compute. reflexivity.
  - vm_compute. reflexivity.
  - vm_compute. reflexivity.
  - vm_compute. discriminate.
Defined.
