(* ===== verification/AuditLog.v ===== *)
(** * The audit trail ([crates/authority-core/src/audit.rs])

    The in-memory attempt journal, its optional durable backend, recovery and
    provider reconciliation.  An [Arc<AttemptJournal>] is the position of the entry
    in the trail; a guard is that position with the attempt identity.  Each durable
    append takes the operating system's decisions as an [AppendIo]. *)

From S2P Require Import Prelude Bytes Capability DurableRecord Journal.

Definition RECOVERED_ATTEMPT_EVIDENCE : str :=
  lit "authority-core recovery closed an attempt left started by an unclean shutdown".

(** [AttemptOutcome::code] and [AttemptOutcome::from_code]: the [AtomicU8] encoding. *)
Definition AttemptOutcome_code (self : AttemptOutcome) : N :=
  match self with
  | Started => 0 | Denied => 1 | FailedBeforeCommit => 2 | Committed => 3 | CommitUnknown => 4
  end.

Definition AttemptOutcome_from_code (code : N) : AttemptOutcome :=
  match code with
  | 1 => Denied
  | 2 => FailedBeforeCommit
  | 3 => Committed
  | 4 => CommitUnknown
  | _ => Started
  end%N.

Inductive AuditError :=
  | Audit_LockPoisoned
  | Audit_AttemptIdExhausted
  | Audit_Durable (error : DurableAuditError)
  | Audit_StateRecoveryRequired (attempts : list AttemptId).

Record AttemptJournal := {
  aj_id : AttemptId;
  aj_caller : SubjectId;
  aj_capability_id : CapId;
  aj_request : CapabilityRequest;
  aj_additional_requests : list CapabilityRequest;
  aj_authorization_epoch : N;
  aj_outcome : N;
}.

(** [AttemptRecord]: a snapshot carries the decoded outcome. *)
Record AttemptRecord := {
  ar_id : AttemptId;
  ar_caller : SubjectId;
  ar_capability_id : CapId;
  ar_request : CapabilityRequest;
  ar_additional_requests : list CapabilityRequest;
  ar_authorization_epoch : N;
  ar_outcome : AttemptOutcome;
}.

Record EffectRecord := {
  er_attempt_id : AttemptId;
  er_caller : SubjectId;
  er_capability_id : CapId;
  er_request : CapabilityRequest;
  er_additional_requests : list CapabilityRequest;
  er_authorization_epoch : N;
}.

Definition AttemptJournal_snapshot (self : AttemptJournal) : AttemptRecord :=
  {| ar_id := aj_id self; ar_caller := aj_caller self; ar_capability_id := aj_capability_id self;
     ar_request := aj_request self; ar_additional_requests := aj_additional_requests self;
     ar_authorization_epoch := aj_authorization_epoch self;
     ar_outcome := AttemptOutcome_from_code (aj_outcome self) |}.

Definition AttemptJournal_effect_snapshot (self : AttemptJournal) : option EffectRecord :=
  if (aj_outcome self =? AttemptOutcome_code Committed)%N
  then Some {| er_attempt_id := aj_id self; er_caller := aj_caller self;
               er_capability_id := aj_capability_id self; er_request := aj_request self;
               er_additional_requests := aj_additional_requests self;
               er_authorization_epoch := aj_authorization_epoch self |}
  else None.

Definition AttemptJournal_finish (outcome : AttemptOutcome) (self : AttemptJournal) : AttemptJournal :=
  {| aj_id := aj_id self; aj_caller := aj_caller self; aj_capability_id := aj_capability_id self;
     aj_request := aj_request self; aj_additional_requests := aj_additional_requests self;
     aj_authorization_epoch := aj_authorization_epoch self;
     aj_outcome := AttemptOutcome_code outcome |}.

Record AuditTrail := {
  at_next_attempt_sequence : option N;
  at_attempts : list AttemptJournal;
  at_backend : option DurableState;
  at_state_instance : N;
}.

Abbreviation AM := (ST AuditTrail AuditError).

Definition AuditTrail_new : AuditTrail :=
  {| at_next_attempt_sequence := Some 0%N; at_attempts := []; at_backend := None;
     at_state_instance := 0 |}.

Definition AuditTrail_new_with_backend (backend : DurableState) : result AuditError AuditTrail :=
  attempts ← map_err Audit_Durable (journal_attempts backend);
  if negb (bool_decide (attempts = []))
  then Err (Audit_StateRecoveryRequired (das_attempt_id <$> attempts))
  else
    next ← map_err Audit_Durable (journal_next_attempt_sequence backend);
    Ok {| at_next_attempt_sequence := next; at_attempts := []; at_backend := Some backend;
          at_state_instance := 0 |}.

Record AuditRecovery := {
  rec_state_instance : N;
  rec_inherited_attempts : nat;
  rec_reconciled : list AttemptId;
}.

(** The reconciliation loop of [recover_with_backend]: every attempt still
    [Started] is durably finished as [CommitUnknown]. *)
Fixpoint recover_loop (io : AttemptId → AppendIo) (inherited : list DurableAttemptState)
    (reconciled : list AttemptId) : ST DurableState AuditError (list AttemptId) :=
  match inherited with
  | [] => mret reconciled
  | attempt :: rest =>
      if negb (bool_decide (das_outcome attempt = Started)) then recover_loop io rest reconciled
      else
        evidence ← st_query (λ _, map_err Audit_Durable
          (CommitUnknownEvidence_new (das_attempt_id attempt) RECOVERED_ATTEMPT_EVIDENCE));
        _ ← (λ backend, let '(r, backend) := finish_attempt (io (das_attempt_id attempt))
                          (das_attempt_id attempt) CommitUnknown None (Some evidence) backend in
                        (map_err Audit_Durable r, backend));
        recover_loop io rest (reconciled ++ [das_attempt_id attempt])
  end.

Definition recover_with_backend (io : AttemptId → AppendIo)
    : ST DurableState AuditError (AuditTrail * AuditRecovery) :=
  inherited ← st_query (λ backend, map_err Audit_Durable (journal_attempts backend));
  next ← st_query (λ backend, map_err Audit_Durable (journal_next_attempt_sequence backend));
  state_instance ← st_query (λ _, ok_or next Audit_AttemptIdExhausted);
  reconciled ← recover_loop io inherited [];
  next_attempt_sequence ←
    st_query (λ backend, map_err Audit_Durable (journal_next_attempt_sequence backend));
  backend ← st_get;
  mret ({| at_next_attempt_sequence := next_attempt_sequence; at_attempts := [];
           at_backend := Some backend; at_state_instance := state_instance |},
        {| rec_state_instance := state_instance; rec_inherited_attempts := length inherited;
           rec_reconciled := reconciled |}).

(** [AttemptGuard]: the shared entry it will finish. *)
Record AttemptGuard := { ag_index : nat; ag_id : AttemptId }.

Definition set_next_attempt (next : option N) (self : AuditTrail) : AuditTrail :=
  {| at_next_attempt_sequence := next; at_attempts := at_attempts self;
     at_backend := at_backend self; at_state_instance := at_state_instance self |}.
Definition set_entries (entries : list AttemptJournal) (self : AuditTrail) : AuditTrail :=
  {| at_next_attempt_sequence := at_next_attempt_sequence self; at_attempts := entries;
     at_backend := at_backend self; at_state_instance := at_state_instance self |}.
Definition set_backend (backend : DurableState) (self : AuditTrail) : AuditTrail :=
  {| at_next_attempt_sequence := at_next_attempt_sequence self; at_attempts := at_attempts self;
     at_backend := Some backend; at_state_instance := at_state_instance self |}.

Definition start_request_set (io : AppendIo) (caller : SubjectId) (capability_id : CapId)
    (requests : CapabilityRequestSet) (authorization_epoch : N) : AM AttemptGuard := λ self,
  match at_next_attempt_sequence self with
  | None => (Err Audit_AttemptIdExhausted, self)
  | Some sequence =>
      let self := set_next_attempt (checked_add_u64 sequence 1) self in
      let journal :=
        {| aj_id := sequence; aj_caller := caller; aj_capability_id := capability_id;
           aj_request := crs_first requests; aj_additional_requests := crs_additional requests;
           aj_authorization_epoch := authorization_epoch;
           aj_outcome := AttemptOutcome_code Started |} in
      let push self :=
        (Ok {| ag_index := length (at_attempts self); ag_id := sequence |},
         set_entries (at_attempts self ++ [journal]) self) in
      match at_backend self with
      | None => push self
      | Some backend =>
          match begin_attempt io (at_state_instance self) sequence caller capability_id requests
                  authorization_epoch backend with
          | (Err error, backend) =>
              (Err (Audit_Durable error), set_next_attempt (Some sequence) (set_backend backend self))
          | (Ok _, backend) => push (set_backend backend self)
          end
      end
  end.

(** [AttemptGuard::finish]: the durable record first, then the shared outcome. *)
Definition guard_finish (io : AppendIo) (guard : AttemptGuard) (outcome : AttemptOutcome)
    (receipt : option CommitReceipt) (evidence : option CommitUnknownEvidence) : AM unit := λ self,
  let store self :=
    (Ok tt, set_entries (alter (AttemptJournal_finish outcome) (ag_index guard) (at_attempts self)) self) in
  match at_backend self with
  | None => store self
  | Some backend =>
      match finish_attempt io (ag_id guard) outcome receipt evidence backend with
      | (Err error, backend) => (Err (Audit_Durable error), set_backend backend self)
      | (Ok _, backend) => store (set_backend backend self)
      end
  end.

Definition guard_deny (io : AppendIo) (guard : AttemptGuard) : AM unit :=
  guard_finish io guard Denied None None.
Definition guard_fail_before_commit (io : AppendIo) (guard : AttemptGuard) : AM unit :=
  guard_finish io guard FailedBeforeCommit None None.
Definition guard_commit_with_receipt (io : AppendIo) (guard : AttemptGuard) (receipt : CommitReceipt)
    : AM unit :=
  guard_finish io guard Committed (Some receipt) None.
Definition guard_commit_unknown (io : AppendIo) (guard : AttemptGuard) (evidence : str) : AM unit :=
  evidence ← st_query (λ _, map_err Audit_Durable (CommitUnknownEvidence_new (ag_id guard) evidence));
  guard_finish io guard CommitUnknown None (Some evidence).

Definition AuditTrail_attempts (self : AuditTrail) : list AttemptRecord :=
  AttemptJournal_snapshot <$> at_attempts self.

Definition AuditTrail_effects (self : AuditTrail) : list EffectRecord :=
  omap AttemptJournal_effect_snapshot (at_attempts self).

(** ** Provider reconciliation *)

Section reconcile.
  (** The adapter that owns the external boundary ([CommitReconciler]). *)
  Context {R E : Type}.
  Context (resolve : DurableAttemptState → DurableAttemptMetadata →
                     R → result E (option ReconciledCommit) * R).
  Context (io : AttemptId → AppendIo).

Inductive ReconciliationError :=
  | Reconciliation_Durable (error : DurableAuditError)
  | Reconciliation_Provider (attempt : AttemptId) (source : E).

Record ReconciliationSummary := {
  rs_committed : list AttemptId;
  rs_not_committed : list AttemptId;
  rs_still_unknown : list AttemptId;
}.

Definition rs_empty : ReconciliationSummary :=
  {| rs_committed := []; rs_not_committed := []; rs_still_unknown := [] |}.

Fixpoint reconcile_loop (attempts : list DurableAttemptState) (summary : ReconciliationSummary)
    : ST (DurableState * R) ReconciliationError ReconciliationSummary := λ s,
  match attempts with
  | [] => (Ok summary, s)
  | attempt :: rest =>
      let id := das_attempt_id attempt in
      if negb (bool_decide (das_outcome attempt = CommitUnknown))
         || bool_decide (is_Some (das_reconciliation attempt))
      then reconcile_loop rest summary s
      else
        match decode_attempt_payload (das_payload attempt) with
        | Err error => (Err (Reconciliation_Durable error), s)
        | Ok metadata =>
            match resolve attempt metadata s.2 with
            | (Err error, r) => (Err (Reconciliation_Provider id error), (s.1, r))
            | (Ok None, r) =>
                reconcile_loop rest
                  {| rs_committed := rs_committed summary; rs_not_committed := rs_not_committed summary;
                     rs_still_unknown := rs_still_unknown summary ++ [id] |} (s.1, r)
            | (Ok (Some verdict), r) =>
                match reconcile_attempt (io id) id verdict s.1 with
                | (Err error, log) => (Err (Reconciliation_Durable error), (log, r))
                | (Ok _, log) =>
                    reconcile_loop rest
                      match verdict with
                      | ReconciledCommitted _ =>
                          {| rs_committed := rs_committed summary ++ [id];
                             rs_not_committed := rs_not_committed summary;
                             rs_still_unknown := rs_still_unknown summary |}
                      | ReconciledNotCommitted =>
                          {| rs_committed := rs_committed summary;
                             rs_not_committed := rs_not_committed summary ++ [id];
                             rs_still_unknown := rs_still_unknown summary |}
                      end (log, r)
                end
            end
        end
  end.

Definition reconcile_unknown_commits : ST (DurableState * R) ReconciliationError ReconciliationSummary :=
  λ s,
  match journal_attempts s.1 with
  | Err error => (Err (Reconciliation_Durable error), s)
  | Ok attempts => reconcile_loop attempts rs_empty s
  end.
End reconcile.
