(* ===== verification/Kernel.v ===== *)
(** * The capability kernel ([crates/authority-core/src/kernel.rs])

    The boundary that serializes state transitions with effect authorization.  An
    executor and a revocation observer act on the external world [W], which the
    kernel only touches through them.  [k_poisoned] is the poison flag of the state
    lock; [with_state_mut] and the readers test it as [RwLock] does.

    [authorize_all_and_commit_inner] is composed of the phases that run under its
    shared guard; [KernelConcurrent] interleaves those same phases. *)

From S2P Require Import Prelude Bytes Capability State DurableRecord Journal AuditLog.

Record RevocationObserverError := { roe_observer : str; roe_reason : str }.

Inductive CapabilityKernelError :=
  | Kernel_LockPoisoned
  | Kernel_StateTransition (error : CapabilityStateError)
  | Kernel_RevocationNotPropagated (error : RevocationObserverError).

Inductive EffectCommitError (E : Type) :=
  | Commit_LockPoisoned
  | Commit_NotAuthorized
  | Commit_Effect (error : E)
  | Commit_Audit (error : AuditError)
  | Commit_CommittedButAudit (attempt_id : AttemptId) (receipt : CommitReceipt) (source : AuditError)
  | Commit_CommitUnknown (attempt_id : AttemptId) (evidence : str)
  | Commit_CommitUnknownAndAudit (attempt_id : AttemptId) (evidence : str) (source : AuditError).
Arguments Commit_LockPoisoned {E}.
Arguments Commit_NotAuthorized {E}.
Arguments Commit_Effect {E} error.
Arguments Commit_Audit {E} error.
Arguments Commit_CommittedButAudit {E} attempt_id receipt source.
Arguments Commit_CommitUnknown {E} attempt_id evidence.
Arguments Commit_CommitUnknownAndAudit {E} attempt_id evidence source.

Inductive EffectExecution (T E : Type) :=
  | Exec_FailedBeforeCommit (error : E)
  | Exec_Committed (value : T) (receipt : option str)
  | Exec_CommitUnknown (evidence : str).
Arguments Exec_FailedBeforeCommit {T E} error.
Arguments Exec_Committed {T E} value receipt.
Arguments Exec_CommitUnknown {T E} evidence.

Inductive CapabilityInspectionError (E : Type) :=
  | Inspect_LockPoisoned
  | Inspect_NotActive
  | Inspect_Inspection (error : E).
Arguments Inspect_LockPoisoned {E}.
Arguments Inspect_NotActive {E}.
Arguments Inspect_Inspection {E} error.

(** [validate_commit_unknown_evidence]. *)
Definition validate_commit_unknown_evidence (evidence : str) : result AuditError unit :=
  if bool_decide (evidence = [])
  then Err (Audit_Durable (invalid_record "CommitUnknown evidence cannot be empty"))
  else if (MAX_COMMIT_UNKNOWN_EVIDENCE_BYTES <? len evidence)%N
  then Err (Audit_Durable (Durable_RecordTooLarge (len evidence)))
  else Ok tt.

Section kernel.
  Context {W : Type}.

Abbreviation Observer := (W → result RevocationObserverError unit * W).

Record CapabilityKernel := {
  k_poisoned : bool;
  k_state : CapabilityState;
  k_audit : AuditTrail;
  k_observers : list Observer;
}.

Definition set_k_state (state : CapabilityState) (self : CapabilityKernel) : CapabilityKernel :=
  {| k_poisoned := k_poisoned self; k_state := state; k_audit := k_audit self;
     k_observers := k_observers self |}.
Definition set_k_audit (audit : AuditTrail) (self : CapabilityKernel) : CapabilityKernel :=
  {| k_poisoned := k_poisoned self; k_state := k_state self; k_audit := audit;
     k_observers := k_observers self |}.

Definition CapabilityKernel_new (state : CapabilityState) : CapabilityKernel :=
  {| k_poisoned := false; k_state := state; k_audit := AuditTrail_new; k_observers := [] |}.

Definition try_new_with_durable_audit (state : CapabilityState) (backend : DurableState)
    : result AuditError CapabilityKernel :=
  audit ← AuditTrail_new_with_backend backend;
  Ok {| k_poisoned := false; k_state := state; k_audit := audit; k_observers := [] |}.

Definition try_recover_with_durable_audit (io : AttemptId → AppendIo) (state : CapabilityState)
    : ST DurableState AuditError (CapabilityKernel * AuditRecovery) :=
  '(audit, recovery) ← recover_with_backend io;
  mret ({| k_poisoned := false; k_state := state; k_audit := audit; k_observers := [] |}, recovery).

Definition register_revocation_observer (observer : Observer) (self : CapabilityKernel)
    : CapabilityKernel :=
  {| k_poisoned := k_poisoned self; k_state := k_state self; k_audit := k_audit self;
     k_observers := k_observers self ++ [observer] |}.

(** ** State transitions under exclusive access *)

Abbreviation KM := (ST (CapabilityKernel * W) CapabilityKernelError).

Definition with_state_mut {A} (transition : SM A) : KM A := λ '(self, w),
  if k_poisoned self then (Err Kernel_LockPoisoned, (self, w))
  else
    let '(outcome, state) := transition (k_state self) in
    (map_err Kernel_StateTransition outcome, (set_k_state state self, w)).

(** The observer loop: every observer runs, the first failure is kept. *)
Fixpoint run_observers (observers : list Observer) (first_failure : option RevocationObserverError)
    (w : W) : option RevocationObserverError * W :=
  match observers with
  | [] => (first_failure, w)
  | observer :: rest =>
      let '(outcome, w) := observer w in
      let first_failure :=
        match outcome, first_failure with
        | Err error, None => Some error
        | _, _ => first_failure
        end in
      run_observers rest first_failure w
  end.

Definition propagate_revocation : KM unit := λ '(self, w),
  let '(first_failure, w) := run_observers (k_observers self) None w in
  (match first_failure with
   | None => Ok tt
   | Some error => Err (Kernel_RevocationNotPropagated error)
   end, (self, w)).

Definition kernel_register_subject (subject : Subject) : KM unit :=
  with_state_mut (register_subject subject).
Definition kernel_issue_root (grant : CapabilityGrant) : KM CapId := with_state_mut (issue_root grant).
Definition kernel_issue_root_with_id (id : CapId) (grant : CapabilityGrant) : KM CapId :=
  with_state_mut (issue_root_with_id id grant).
Definition kernel_derive (caller : SubjectId) (parent : CapId) (grant : CapabilityGrant) (now : N)
    : KM CapId := with_state_mut (derive caller parent grant now).
Definition kernel_finish_subject_close (subject : SubjectId) : KM SubjectFinishStatus :=
  with_state_mut (finish_subject_close subject).
Definition kernel_register_open_handle (handle : OpenHandle) : KM unit :=
  with_state_mut (register_open_handle handle).
Definition kernel_close_handle (caller : SubjectId) (handle : HandleId) : KM HandleCloseStatus :=
  with_state_mut (close_handle caller handle).

Definition kernel_revoke_held_by (caller : SubjectId) (capability : CapId) : KM RevocationStatus :=
  status ← with_state_mut (revoke_held_by caller capability);
  _ ← match status with
      | NewlyRevoked => propagate_revocation
      | AlreadyRevoked => mret tt
      end;
  mret status.

Definition kernel_begin_subject_close (subject : SubjectId) : KM SubjectCloseStatus :=
  status ← with_state_mut (begin_subject_close subject);
  _ ← match status with
      | CloseStarted => propagate_revocation
      | CloseAlreadyClosing | CloseAlreadyClosed => mret tt
      end;
  mret status.

(** ** Shared reads *)

Definition kernel_read {A} (f : CapabilityState → A) (self : CapabilityKernel)
    : result CapabilityKernelError A :=
  if k_poisoned self then Err Kernel_LockPoisoned else Ok (f (k_state self)).

Definition kernel_authorization_epoch : CapabilityKernel → result CapabilityKernelError N :=
  kernel_read cs_epoch.
Definition kernel_subject_status (subject : SubjectId)
    : CapabilityKernel → result CapabilityKernelError (option SubjectStatus) :=
  kernel_read (λ state, subject_status state subject).
Definition kernel_open_handle (handle : HandleId)
    : CapabilityKernel → result CapabilityKernelError (option OpenHandle) :=
  kernel_read (λ state, cs_open_handles state !! handle).
Definition kernel_object_open_handle_count (object : ObjectId)
    : CapabilityKernel → result CapabilityKernelError nat :=
  kernel_read (λ state, object_open_handle_count state object).
Definition kernel_is_pristine : CapabilityKernel → result CapabilityKernelError bool :=
  kernel_read is_pristine.

Definition with_active_capability {T E} (caller : SubjectId) (capability_id : CapId) (now : N)
    (inspect : Capability → result E T) (self : CapabilityKernel)
    : result (CapabilityInspectionError E) T :=
  if k_poisoned self then Err Inspect_LockPoisoned
  else
    capability ← ok_or (active_capability (k_state self) caller capability_id now) Inspect_NotActive;
    map_err Inspect_Inspection (inspect capability).

(** ** Effects under shared access *)

(** The audit trail is one field of the kernel behind its own mutex. *)
Definition on_audit {A} (m : AM A) (self : CapabilityKernel) : result AuditError A * CapabilityKernel :=
  let '(outcome, audit) := m (k_audit self) in (outcome, set_k_audit audit self).

(** The final check on every request of the set. *)
Definition authorizes_all (state : CapabilityState) (caller : SubjectId) (capability_id : CapId)
    (requests : CapabilityRequestSet) : bool :=
  forallb (authorizes state caller capability_id) (CapabilityRequestSet_iter requests).

(** The capability the executor receives, when every request is authorized and the
    record is still present. *)
Definition authorized_capability (state : CapabilityState) (caller : SubjectId) (capability_id : CapId)
    (requests : CapabilityRequestSet) : option Capability :=
  if authorizes_all state caller capability_id requests then cs_capabilities state !! capability_id
  else None.

(** The terminal denial. *)
Definition conclude_denied {T E} (io : AppendIo) (guard : AttemptGuard) (self : CapabilityKernel)
    : result (EffectCommitError E) T * CapabilityKernel :=
  match on_audit (guard_deny io guard) self with
  | (Ok _, self) => (Err Commit_NotAuthorized, self)
  | (Err error, self) => (Err (Commit_Audit error), self)
  end.

(** The [match result] after the executor returned. *)
Definition conclude {T E} (io : AppendIo) (guard : AttemptGuard) (execution : EffectExecution T E)
    (self : CapabilityKernel) : result (EffectCommitError E) T * CapabilityKernel :=
  let attempt_id := ag_id guard in
  match execution with
  | Exec_Committed value receipt =>
      let receipt := match receipt with
                     | None => CommitReceipt_kernel_success attempt_id
                     | Some token => CommitReceipt_new attempt_id token
                     end in
      match on_audit (guard_commit_with_receipt io guard receipt) self with
      | (Ok _, self) => (Ok value, self)
      | (Err source, self) => (Err (Commit_CommittedButAudit attempt_id receipt source), self)
      end
  | Exec_FailedBeforeCommit error =>
      match on_audit (guard_fail_before_commit io guard) self with
      | (Ok _, self) => (Err (Commit_Effect error), self)
      | (Err audit_error, self) => (Err (Commit_Audit audit_error), self)
      end
  | Exec_CommitUnknown evidence =>
      match validate_commit_unknown_evidence evidence with
      | Err source => (Err (Commit_CommitUnknownAndAudit attempt_id evidence source), self)
      | Ok _ =>
          match on_audit (guard_commit_unknown io guard evidence) self with
          | (Ok _, self) => (Err (Commit_CommitUnknown attempt_id evidence), self)
          | (Err source, self) => (Err (Commit_CommitUnknownAndAudit attempt_id evidence source), self)
          end
      end
  end.

Definition authorize_all_and_commit_inner {T E} (io_start io_finish : AppendIo) (caller : SubjectId)
    (capability_id : CapId) (requests : CapabilityRequestSet)
    (execute : Capability → W → EffectExecution T E * W)
    : ST (CapabilityKernel * W) (EffectCommitError E) T := λ '(self, w),
  if negb (crs_complete requests) then (Err Commit_NotAuthorized, (self, w))
  else if k_poisoned self then (Err Commit_LockPoisoned, (self, w))
  else
    match on_audit (start_request_set io_start caller capability_id requests
                      (cs_epoch (k_state self))) self with
    | (Err error, self) => (Err (Commit_Audit error), (self, w))
    | (Ok guard, self) =>
        match authorized_capability (k_state self) caller capability_id requests with
        | None => let '(outcome, self) := conclude_denied io_finish guard self in (outcome, (self, w))
        | Some capability =>
            let '(execution, w) := execute capability w in
            let '(outcome, self) := conclude io_finish guard execution self in (outcome, (self, w))
        end
    end.

Definition authorize_and_execute_classified {T E} (io_start io_finish : AppendIo) (caller : SubjectId)
    (capability_id : CapId) (request : CapabilityRequest)
    (execute : Capability → W → EffectExecution T E * W)
    : ST (CapabilityKernel * W) (EffectCommitError E) T :=
  authorize_all_and_commit_inner io_start io_finish caller capability_id
    (CapabilityRequestSet_one request) execute.

Definition authorize_all_and_execute_classified {T E} (io_start io_finish : AppendIo)
    (caller : SubjectId) (capability_id : CapId) (requests : CapabilityRequestSet)
    (execute : Capability → W → EffectExecution T E * W)
    : ST (CapabilityKernel * W) (EffectCommitError E) T :=
  authorize_all_and_commit_inner io_start io_finish caller capability_id requests execute.

Definition attempt_records (self : CapabilityKernel) : list AttemptRecord :=
  AuditTrail_attempts (k_audit self).
Definition effect_records (self : CapabilityKernel) : list EffectRecord :=
  AuditTrail_effects (k_audit self).
End kernel.
Arguments CapabilityKernel : clear implicits.
