(* ===== verification/AuditProps.v ===== *)
(** * Correctness of the audit trail

    [trail_inv] ties the in-memory entries to the durable journal: identities are
    strictly increasing and below the next sequence, and every entry has a durable
    attempt with the same outcome and the encoding of its metadata. *)

From stdpp Require Import sorting.
From S2P Require Import Prelude Bytes Path File Capability StateInvariant DurableRecord DurableRecordProps Journal JournalProps JournalClaims AuditLog.

(** ** What the journal operations return *)

Lemma append_frame_attempts io n kind id payload st r st' :
  append_frame io n kind id payload st = (r, st') → ds_attempts st' = ds_attempts st.
Proof. intros H. destruct (append_frame_extends io n kind id payload st) as [_ Hs]. by rewrite H in Hs. Qed.

Lemma begin_attempt_result io inst id caller cap reqs epoch st r st' :
  begin_attempt io inst id caller cap reqs epoch st = (r, st') →
  match r with
  | Err _ => ds_attempts st' = ds_attempts st
  | Ok _ => ∃ n payload, encode_attempt_payload inst caller cap reqs epoch = Ok payload ∧
      ds_attempts st !! id = None ∧
      ds_attempts st' = <[id := started_attempt id n payload]> (ds_attempts st)
  end.
Proof.
  unfold begin_attempt, lift. unfold_st.
  destruct (encode_attempt_payload _ _ _ _ _) as [payload|]; [|by intros [= <- <-]].
  destruct (ensure_usable st) as [u|]; [|by intros [= <- <-]].
  case_bool_decide as Hn; [by intros [= <- <-]|]. apply eq_None_not_Some in Hn.
  destruct (next_sequence st) as [n|]; [|by intros [= <- <-]].
  destruct (append_frame _ _ _ _ _ st) as [[[]|e] s] eqn:Ha; apply append_frame_attempts in Ha;
    intros [= <- <-]; [|done]. exists n, payload. simpl. by rewrite Ha.
Qed.

Lemma finish_attempt_result io id outcome receipt evidence st r st' :
  finish_attempt io id outcome receipt evidence st = (r, st') →
  match r with
  | Err _ => ds_attempts st' = ds_attempts st
  | Ok _ => ∃ n a, validate_finish outcome receipt evidence id = Ok tt ∧
      ds_attempts st !! id = Some a ∧ das_outcome a = Started ∧
      ds_attempts st' = <[id := finished_attempt a n (outcome, receipt, evidence)]> (ds_attempts st)
  end.
Proof.
  unfold finish_attempt, lift. unfold_st.
  destruct (encode_finish_payload _ _ _ _) as [payload|] eqn:Henc; [|by intros [= <- <-]].
  destruct (ensure_usable st) as [u|]; [|by intros [= <- <-]].
  destruct (ds_attempts st !! id) as [a|] eqn:Hid; [|by intros [= <- <-]].
  case_bool_decide as Ho; simpl; [|by intros [= <- <-]].
  destruct (next_sequence st) as [n|]; [|by intros [= <- <-]].
  destruct (append_frame _ _ _ _ _ st) as [[[]|e] s] eqn:Ha; apply append_frame_attempts in Ha;
    [|by intros [= <- <-]].
  rewrite Ha, Hid. intros [= <- <-]. exists n, a. simpl. rewrite Ha. split_and!; try done.
  unfold encode_finish_payload in Henc. destruct (validate_finish _ _ _ _) as [[]|]; [done|done].
Qed.

(** ** The invariant *)

(** Below the next identity; everything is, once the sequence is exhausted. *)
Definition below_next (next : option N) (id : AttemptId) : Prop :=
  (id < u64_limit)%N ∧ ∀ n, next = Some n → (id < n)%N.

Definition entry_metadata (t : AuditTrail) (e : AttemptJournal) : result DurableAuditError str :=
  encode_attempt_payload (at_state_instance t) (aj_caller e) (aj_capability_id e)
    {| crs_first := aj_request e; crs_additional := aj_additional_requests e; crs_complete := true |}
    (aj_authorization_epoch e).

(** The durable attempt of one in-memory entry. *)
Definition entry_durable (t : AuditTrail) (b : DurableState) (e : AttemptJournal) : Prop :=
  ∃ a, ds_attempts b !! aj_id e = Some a ∧ das_outcome a = AttemptOutcome_from_code (aj_outcome e) ∧
    entry_metadata t e = Ok (das_payload a).

Definition at_ids (t : AuditTrail) : list AttemptId := aj_id <$> at_attempts t.

Record trail_inv (t : AuditTrail) : Prop := {
  ti_next : ∀ n, at_next_attempt_sequence t = Some n → (n < u64_limit)%N;
  ti_ids : Forall (below_next (at_next_attempt_sequence t)) (at_ids t);
  ti_sorted : StronglySorted N.lt (at_ids t);
  ti_backend : ∀ b, at_backend t = Some b → journal_inv b ∧
    (∀ id a, ds_attempts b !! id = Some a → below_next (at_next_attempt_sequence t) id) ∧
    Forall (entry_durable t b) (at_attempts t);
}.

Lemma from_code_code o : AttemptOutcome_from_code (AttemptOutcome_code o) = o.
Proof. by destruct o. Qed.

Lemma AuditTrail_new_inv : trail_inv AuditTrail_new.
Proof. split; simpl; try done; [by intros n [= <-]|constructor]. Qed.

Lemma below_next_S n id : below_next (Some n) id → below_next (checked_add_u64 n 1) id.
Proof.
  intros [Hid Hn]. split; [done|]. intros m [-> _]%checked_add_u64_Some. specialize (Hn n eq_refl). lia.
Qed.

Lemma below_next_self n : (n < u64_limit)%N → below_next (checked_add_u64 n 1) n.
Proof. intros Hn. split; [done|]. intros m [-> _]%checked_add_u64_Some. lia. Qed.

(** Appending the next entry keeps the identities increasing. *)
Lemma sorted_snoc (l : list AttemptId) n :
  StronglySorted N.lt l → Forall (λ x, (x < n)%N) l → StronglySorted N.lt (l ++ [n]).
Proof.
  intros Hs Hl. induction Hs as [|x l Hs IH Hx]; simpl; [repeat constructor|].
  apply Forall_cons in Hl as [Hx' Hl]. constructor; [by apply IH|].
  apply Forall_app. split; [done|]. by apply Forall_singleton.
Qed.

Lemma sorted_lookup (l : list AttemptId) i j x y :
  StronglySorted N.lt l → l !! i = Some x → l !! j = Some y → i < j → (x < y)%N.
Proof.
  intros Hs. revert i j. induction Hs as [|z l Hs IH Hz]; intros i j Hi Hj Hij; [done|].
  destruct i as [|i], j as [|j]; simplify_eq/=; try lia.
  - rewrite Forall_forall in Hz. apply Hz. by eapply list_elem_of_lookup_2.
  - eapply IH; [done..|lia].
Qed.

Lemma sorted_lookup_inj (l : list AttemptId) i j x :
  StronglySorted N.lt l → l !! i = Some x → l !! j = Some x → i = j.
Proof.
  intros Hs Hi Hj. destruct (Nat.lt_trichotomy i j) as [Hlt|[?|Hlt]]; [|done|].
  - pose proof (sorted_lookup _ _ _ _ _ Hs Hi Hj Hlt). lia.
  - pose proof (sorted_lookup _ _ _ _ _ Hs Hj Hi Hlt). lia.
Qed.

(** The entry that [start_request_set] pushes. *)
Definition started_entry (sequence : N) (caller : SubjectId) (cap : CapId)
    (requests : CapabilityRequestSet) (epoch : N) : AttemptJournal :=
  {| aj_id := sequence; aj_caller := caller; aj_capability_id := cap; aj_request := crs_first requests;
     aj_additional_requests := crs_additional requests; aj_authorization_epoch := epoch;
     aj_outcome := AttemptOutcome_code Started |}.

(** A started attempt: exactly one new entry at the end, marked [Started]; a failed
    start leaves entries and next identity as they were. *)
Lemma start_request_set_result io caller cap requests epoch t r t' :
  start_request_set io caller cap requests epoch t = (r, t') →
  match r with
  | Err _ => at_attempts t' = at_attempts t ∧ at_next_attempt_sequence t' = at_next_attempt_sequence t
  | Ok guard => ∃ n, at_next_attempt_sequence t = Some n ∧
      at_next_attempt_sequence t' = checked_add_u64 n 1 ∧
      guard = {| ag_index := length (at_attempts t); ag_id := n |} ∧
      at_attempts t' = at_attempts t ++ [started_entry n caller cap requests epoch]
  end ∧ at_state_instance t' = at_state_instance t.
Proof.
  unfold start_request_set. destruct (at_next_attempt_sequence t) as [n|] eqn:Hn; [|by intros [= <- <-]].
  simpl. destruct (at_backend t) as [b|].
  - destruct (begin_attempt _ _ _ _ _ _ _ b) as [[[]|e] b']; intros [= <- <-]; simpl; [|done].
    split; [|done]. by exists n.
  - intros [= <- <-]. split; [|done]. by exists n.
Qed.

Lemma entry_durable_mono t t' b b' e :
  at_state_instance t' = at_state_instance t → ds_attempts b' !! aj_id e = ds_attempts b !! aj_id e →
  entry_durable t b e → entry_durable t' b' e.
Proof.
  intros Hi Hl (a & Ha & Ho & Hm). exists a. rewrite Hl. split_and!; [done|done|].
  unfold entry_metadata in *. by rewrite Hi.
Qed.

Lemma start_request_set_inv io caller cap requests epoch t :
  trail_inv t → crs_complete requests = true → trail_inv (start_request_set io caller cap requests epoch t).2.
Proof.
  intros I Hc. unfold start_request_set.
  destruct (at_next_attempt_sequence t) as [n|] eqn:Hn; [|done]. simpl.
  pose proof (ti_next _ I n Hn) as Hn64. pose proof (ti_ids _ I) as Hids. rewrite Hn in Hids.
  assert (Forall (λ x, (x < n)%N) (at_ids t)) as Hlt
    by (eapply Forall_impl; [exact Hids|]; intros x [_ Hx]; by apply Hx).
  assert (∀ m, checked_add_u64 n 1 = Some m → (m < u64_limit)%N) as Hnext
    by (by intros m [_ ?]%checked_add_u64_Some).
  assert (Forall (below_next (checked_add_u64 n 1)) (at_ids t ++ [n])) as Hbelow.
  { apply Forall_app. split; [|apply Forall_singleton; by apply below_next_self].
    eapply Forall_impl; [exact Hids|]. intros x Hx. by apply below_next_S. }
  assert (∀ e, aj_id e = n → aj_id <$> (at_attempts t ++ [e]) = at_ids t ++ [n]) as Hpush
    by (intros e He; unfold at_ids; by rewrite fmap_app, <- He).
  destruct (at_backend t) as [b|] eqn:Hb.
  - destruct (ti_backend _ I b Hb) as (Hj & Hdur & Hent).
    destruct (begin_attempt io (at_state_instance t) n caller cap requests epoch b) as [r b'] eqn:Hbeg.
    pose proof (begin_attempt_inv io (at_state_instance t) n caller cap requests epoch b Hj Hn64) as Hj'.
    rewrite Hbeg in Hj'. simpl in Hj'. apply begin_attempt_result in Hbeg. destruct r as [[]|e]; simpl.
    + destruct Hbeg as (s & payload & Henc & Hfresh & Hmap). split; simpl; [done|unfold at_ids; simpl; by rewrite Hpush|unfold at_ids; simpl; rewrite Hpush by done|].
      { apply sorted_snoc; [apply I|done]. }
      intros ? [= <-]. split; [done|]. split.
      * intros id a. rewrite Hmap. intros [[<- <-]|[_ Ha]]%lookup_insert_Some; [by apply below_next_self|].
        apply Hdur in Ha. rewrite Hn in Ha. by apply below_next_S.
      * apply Forall_app. split.
        -- rewrite Forall_forall in Hlt. rewrite Forall_forall in Hent. apply Forall_forall. intros e He. eapply entry_durable_mono; [done| |by apply Hent].
           rewrite Hmap, lookup_insert_ne; [done|].
           specialize (Hlt (aj_id e) ltac:(by apply list_elem_of_fmap_2)). simpl in Hlt. lia.
        -- apply Forall_singleton. exists (started_attempt n s payload). simpl. rewrite Hmap, lookup_insert_eq.
           split; [done|]. split; [done|]. unfold entry_metadata. simpl.
           destruct requests as [f ad c]. simpl in *. by subst c.
    + split; simpl; [by intros m [= <-]|done|apply I|]. intros ? [= <-]. rewrite Hbeg.
      split; [done|]. rewrite Hn in Hdur. split; [done|].
      eapply Forall_impl; [exact Hent|]. intros x. apply entry_durable_mono; [done|by rewrite Hbeg].
  - split; simpl; [done|unfold at_ids; simpl; by rewrite Hpush|unfold at_ids; simpl; rewrite Hpush by done
                  |by rewrite Hb]. apply sorted_snoc; [apply I|done].
Qed.

(** ** Finishing an attempt *)

Definition guard_valid (t : AuditTrail) (guard : AttemptGuard) : Prop :=
  ∃ e, at_attempts t !! ag_index guard = Some e ∧ aj_id e = ag_id guard.

(** A terminal record either changes exactly the guarded entry's outcome or nothing. *)
Lemma guard_finish_result io guard outcome receipt evidence t r t' :
  guard_finish io guard outcome receipt evidence t = (r, t') →
  at_next_attempt_sequence t' = at_next_attempt_sequence t ∧ at_state_instance t' = at_state_instance t ∧
  at_attempts t' = match r with
                   | Ok _ => alter (AttemptJournal_finish outcome) (ag_index guard) (at_attempts t)
                   | Err _ => at_attempts t
                   end.
Proof.
  unfold guard_finish. destruct (at_backend t) as [b|].
  - destruct (finish_attempt _ _ _ _ _ b) as [[[]|e] b']; by intros [= <- <-].
  - by intros [= <- <-].
Qed.

Lemma finish_ids outcome i (l : list AttemptJournal) :
  aj_id <$> alter (AttemptJournal_finish outcome) i l = aj_id <$> l.
Proof.
  revert i. induction l as [|x l IH]; intros [|i]; simpl; try done. f_equal. apply IH.
Qed.

Lemma guard_finish_inv io guard outcome receipt evidence t :
  trail_inv t → guard_valid t guard → trail_inv (guard_finish io guard outcome receipt evidence t).2.
Proof.
  intros I (e & He & Hid). pose proof I as [Inext Iids Isorted Iback].
  assert (∀ b : option DurableState, (∀ d, b = Some d → journal_inv d ∧
      (∀ id a, ds_attempts d !! id = Some a → below_next (at_next_attempt_sequence t) id) ∧
      Forall (entry_durable t d) (alter (AttemptJournal_finish outcome) (ag_index guard) (at_attempts t))) →
    trail_inv {| at_next_attempt_sequence := at_next_attempt_sequence t;
      at_attempts := alter (AttemptJournal_finish outcome) (ag_index guard) (at_attempts t);
      at_backend := b; at_state_instance := at_state_instance t |}) as Hmk.
  { intros b Hb. split; simpl; [done| | |].
    - unfold at_ids. simpl. by rewrite finish_ids.
    - unfold at_ids. simpl. by rewrite finish_ids.
    - intros d Hd. destruct (Hb d Hd) as (? & ? & ?). done. }
  unfold guard_finish. destruct (at_backend t) as [b|] eqn:Hb; [|unfold set_entries; simpl; rewrite Hb; by apply (Hmk None)].
  destruct (Iback b eq_refl) as (Hj & Hdur & Hent).
  destruct (finish_attempt io (ag_id guard) outcome receipt evidence b) as [r b'] eqn:Hf.
  assert (ag_id guard < u64_limit)%N as H64.
  { rewrite <- Hid. rewrite Forall_forall in Iids. refine (proj1 (Iids _ _)).
    apply list_elem_of_fmap_2. by eapply list_elem_of_lookup_2. }
  pose proof (finish_attempt_inv io (ag_id guard) outcome receipt evidence b Hj H64) as Hj'.
  rewrite Hf in Hj'. simpl in Hj'. apply finish_attempt_result in Hf. destruct r as [[]|err]; simpl.
  - destruct Hf as (n & a & Hv & Ha & Ho & Hmap). apply Hmk. intros d [= <-]. split; [done|]. split.
    + intros id x. rewrite Hmap. intros [[<- _]|[_ Hx]]%lookup_insert_Some; by eapply Hdur.
    + apply Forall_lookup. intros i x Hx. destruct (decide (ag_index guard = i)) as [<-|Hne].
      * rewrite list_lookup_alter_eq, He in Hx. simplify_eq/=.
        rewrite Forall_lookup in Hent. destruct (Hent _ _ He) as (a' & Ha' & _ & Hm).
        rewrite Hid in Ha'. simplify_eq. exists (finished_attempt a n (outcome, receipt, evidence)). simpl.
        rewrite Hmap, Hid, lookup_insert_eq. split; [done|]. rewrite from_code_code. done.
      * rewrite list_lookup_alter_ne in Hx by done. rewrite Forall_lookup in Hent.
        eapply entry_durable_mono; [done| |by eapply Hent]. rewrite Hmap, lookup_insert_ne; [done|].
        intros Heq. apply Hne. eapply (sorted_lookup_inj (at_ids t)); [done| |].
        -- unfold at_ids. by rewrite list_lookup_fmap, He; simpl; rewrite Hid.
        -- unfold at_ids. rewrite list_lookup_fmap, Hx. simpl. by rewrite Heq.
  - split; simpl; [done|done|done|]. intros d [= <-]. rewrite Hf. split; [done|]. split; [done|].
    eapply Forall_impl; [exact Hent|]. intros x. apply entry_durable_mono; [done|by rewrite Hf].
Qed.

(** ** Recovery *)

Lemma last_attempt_max (m : AttemptMap) :
  (m = ∅ ∧ last_attempt m = None) ∨
  ∃ k, last_attempt m = Some k ∧ is_Some (m !! k) ∧ ∀ id, is_Some (m !! id) → (id <= k)%N.
Proof.
  unfold last_attempt.
  apply (map_fold_weak_ind (λ r (m : AttemptMap), (m = ∅ ∧ r = None) ∨
    ∃ k, r = Some k ∧ is_Some (m !! k) ∧ ∀ id, is_Some (m !! id) → (id <= k)%N)); [by left|].
  intros i x m' r Hi IH. right. destruct IH as [[-> ->]|(k & -> & Hk & Hmax)].
  - exists i. rewrite lookup_insert_eq. split_and!; [done|eauto|].
    intros id. rewrite insert_empty. intros [y [-> _]%lookup_singleton_Some]. lia.
  - exists (N.max i k). split; [done|]. split.
    + destruct (N.max_spec i k) as [[_ ->]|[_ ->]]; [|rewrite lookup_insert_eq; eauto].
      destruct (decide (i = k)) as [->|]; [rewrite lookup_insert_eq; eauto|by rewrite lookup_insert_ne].
    + intros id [y [[<- _]|[_ Hy]]%lookup_insert_Some]; [lia|]. specialize (Hmax id ltac:(eauto)). lia.
Qed.

Lemma next_attempt_sequence_above (m : AttemptMap) n id :
  next_attempt_sequence m = Some n → is_Some (m !! id) → (id < n)%N.
Proof.
  unfold next_attempt_sequence. destruct (last_attempt_max m) as [[-> _]|(k & -> & _ & Hmax)].
  - intros _ [x Hx]. by rewrite lookup_empty in Hx.
  - intros [-> _]%checked_add_u64_Some Hid%Hmax. lia.
Qed.

Lemma next_attempt_sequence_dom (m m' : AttemptMap) :
  dom m = dom m' → next_attempt_sequence m = next_attempt_sequence m'.
Proof.
  intros Hd. assert (∀ id, is_Some (m !! id) ↔ is_Some (m' !! id)) as Hiff
    by (intros id; rewrite <- !elem_of_dom; by rewrite Hd).
  unfold next_attempt_sequence.
  destruct (last_attempt_max m) as [[-> ->]|(k & -> & Hk & Hmax)],
           (last_attempt_max m') as [[-> ->]|(k' & -> & Hk' & Hmax')]; [done| | |].
  - apply Hiff in Hk' as [x Hx]. by rewrite lookup_empty in Hx.
  - apply Hiff in Hk as [x Hx]. by rewrite lookup_empty in Hx.
  - apply Hiff, Hmax' in Hk. apply Hiff, Hmax in Hk'. by replace k' with k by lia.
Qed.

Lemma attempt_values_spec m a :
  ids_ok m →
  a ∈ attempt_values m ↔ m !! das_attempt_id a = Some a.
Proof.
  intros Hids. unfold attempt_values. rewrite merge_sort_Permutation, list_elem_of_fmap. split.
  - intros ([id x] & -> & Hx%elem_of_map_to_list). simpl. by rewrite (proj1 (Hids _ _ Hx)).
  - intros Ha. exists (das_attempt_id a, a). split; [done|]. by apply elem_of_map_to_list.
Qed.

Lemma attempt_values_NoDup m :
  ids_ok m → NoDup (das_attempt_id <$> attempt_values m).
Proof.
  intros Hids. unfold attempt_values. rewrite merge_sort_Permutation.
  replace (das_attempt_id <$> (map_to_list m).*2) with ((map_to_list m).*1).
  - apply NoDup_fst_map_to_list.
  - rewrite <- list_fmap_compose. apply list_fmap_ext. intros i [id x] Hx%list_elem_of_lookup_2.
    apply elem_of_map_to_list in Hx. simpl. by rewrite (proj1 (Hids _ _ Hx)).
Qed.

(** How recovery may change one durable attempt. *)
Definition recovers (a a' : DurableAttemptState) : Prop :=
  a' = a ∨ (das_outcome a = Started ∧ das_outcome a' = CommitUnknown ∧ das_payload a' = das_payload a).

Lemma recover_loop_spec io l acc b r b' :
  journal_inv b → NoDup (das_attempt_id <$> l) →
  (∀ a, a ∈ l → ds_attempts b !! das_attempt_id a = Some a ∧ (das_attempt_id a < u64_limit)%N) →
  recover_loop io l acc b = (Ok r, b') →
  r = acc ++ (das_attempt_id <$> filter (λ a, das_outcome a = Started) l) ∧ journal_inv b' ∧
  dom (ds_attempts b') = dom (ds_attempts b) ∧
  (∀ id a a', ds_attempts b !! id = Some a → ds_attempts b' !! id = Some a' → recovers a a') ∧
  (∀ a a', a ∈ l → ds_attempts b' !! das_attempt_id a = Some a' → das_outcome a' ≠ Started).
Proof.
  revert acc b. induction l as [|x l IH]; intros acc b Hj Hnd Hl Hrun.
  { injection Hrun as <- <-. simpl. rewrite app_nil_r. split_and!; try done.
    - intros id a a' H1 H2. left. congruence.
    - intros a a' Ha. by apply not_elem_of_nil in Ha. }
  simpl in Hnd. apply NoDup_cons in Hnd as [Hx Hnd].
  destruct (Hl x ltac:(left)) as [Hxb Hx64]. simpl in Hrun.
  destruct (decide (das_outcome x = Started)) as [Ho|Ho].
  - rewrite bool_decide_eq_true_2 in Hrun by done. simpl in Hrun. unfold_st.
    destruct (finish_attempt _ _ _ _ _ b) as [[[]|e] b1] eqn:Hf; [|done]. simpl in Hrun.
    pose proof (finish_attempt_inv (io (das_attempt_id x)) (das_attempt_id x) CommitUnknown None
      (Some {| cue_attempt_id := das_attempt_id x; cue_token := RECOVERED_ATTEMPT_EVIDENCE |}) b Hj Hx64) as Hj1.
    rewrite Hf in Hj1. simpl in Hj1.
    apply finish_attempt_result in Hf as (n & y & _ & Hy & _ & Hmap). rewrite Hxb in Hy. injection Hy as <-.
    apply IH in Hrun as (Hr & Hj' & Hdom & Hrec & Hdone); [|done|done|].
    2:{ intros a Ha. destruct (Hl a ltac:(by right)) as [Hab ?]. split; [|done].
        rewrite Hmap, lookup_insert_ne; [done|]. intros Heq. apply Hx. rewrite Heq. by apply list_elem_of_fmap_2. }
    rewrite filter_cons_True by done. simpl. rewrite Hr, <- (assoc_L (++)). split_and!; try done.
    + rewrite Hdom, Hmap. apply dom_insert_lookup_L. eauto.
    + intros id c c' Hc Hc'. destruct (decide (das_attempt_id x = id)) as [<-|Hne].
      * rewrite Hxb in Hc. simplify_eq. right.
        destruct (Hrec (das_attempt_id c) (finished_attempt c n (CommitUnknown, None,
          Some {| cue_attempt_id := das_attempt_id c; cue_token := RECOVERED_ATTEMPT_EVIDENCE |})) c')
          as [->|[Hbad _]]; [by rewrite Hmap, lookup_insert_eq|done|done|done].
      * eapply Hrec; [|done]. by rewrite Hmap, lookup_insert_ne.
    + intros c c' [->|Hc]%elem_of_cons Hc'; [|by eapply Hdone].
      destruct (Hrec (das_attempt_id x) (finished_attempt x n (CommitUnknown, None,
          Some {| cue_attempt_id := das_attempt_id x; cue_token := RECOVERED_ATTEMPT_EVIDENCE |})) c')
        as [->|[Hbad _]]; [by rewrite Hmap, lookup_insert_eq|done|done|done].
  - rewrite bool_decide_eq_false_2 in Hrun by done. simpl in Hrun.
    apply IH in Hrun as (Hr & Hj' & Hdom & Hrec & Hdone); [|done|done|by intros a Ha; apply Hl; right].
    rewrite filter_cons_False by done. split_and!; try done.
    intros c c' [->|Hc]%elem_of_cons Hc'; [|by eapply Hdone].
    destruct (Hrec _ _ _ Hxb Hc') as [->|[? _]]; done.
Qed.

Lemma recovered_trail_inv b io t rec b' :
  journal_inv b → recover_with_backend io b = (Ok (t, rec), b') →
  ∃ next reconciled, t = {| at_next_attempt_sequence := next; at_attempts := []; at_backend := Some b';
    at_state_instance := rec_state_instance rec |} ∧ next = next_attempt_sequence (ds_attempts b') ∧
  next_attempt_sequence (ds_attempts b) = Some (rec_state_instance rec) ∧
  rec_reconciled rec = reconciled ∧
  recover_loop io (attempt_values (ds_attempts b)) [] b = (Ok reconciled, b').
Proof.
  intros Hj. unfold recover_with_backend. unfold_st. unfold journal_attempts, journal_next_attempt_sequence.
  destruct (ensure_usable b); simpl; [|done].
  destruct (next_attempt_sequence (ds_attempts b)) as [inst|]; simpl; [|done].
  destruct (recover_loop io _ _ b) as [[reconciled|] b1]; [|done].
  destruct (ensure_usable b1); simpl; [|done]. intros [= <- <- <-]. simpl. by exists (next_attempt_sequence (ds_attempts b1)), reconciled.
Qed.

(** Recovery leaves no attempt undetermined and forges no outcome.  After it
    succeeds the journal holds the same attempts, none of them [Started]: the ones
    that were are exactly the reported ones and now [CommitUnknown], every other
    record is untouched, the new state instance is above every inherited identity
    and is also the first attempt identity it will allocate, and the recovered
    trail satisfies its invariant. *)
Theorem audit_recovery_closes_attempts b io t rec b' :
  journal_inv b → recover_with_backend io b = (Ok (t, rec), b') →
  dom (ds_attempts b') = dom (ds_attempts b) ∧
  (∀ id a', ds_attempts b' !! id = Some a' → das_outcome a' ≠ Started) ∧
  (∀ id a a', ds_attempts b !! id = Some a → ds_attempts b' !! id = Some a' → recovers a a') ∧
  (∀ id, id ∈ rec_reconciled rec ↔ ∃ a, ds_attempts b !! id = Some a ∧ das_outcome a = Started) ∧
  (∀ id, id ∈ dom (ds_attempts b) → (id < rec_state_instance rec)%N) ∧
  trail_inv t ∧ at_state_instance t = rec_state_instance rec ∧
  at_next_attempt_sequence t = Some (rec_state_instance rec).
Proof.
  intros Hj Hrec. apply recovered_trail_inv in Hrec as (next & reconciled & -> & Hnext & Hinst & Hr & Hloop); [|done].
  pose proof (ji_ids _ Hj) as Hids.
  apply recover_loop_spec in Hloop as (Hrs & Hj' & Hdom & Hevo & Hdone); [|done|by apply attempt_values_NoDup|].
  2:{ intros a Ha. apply attempt_values_spec in Ha; [|done]. split; [done|]. by apply (Hids _ _ Ha). }
  split_and!; try done.
  - intros id a' Ha'. assert (is_Some (ds_attempts b !! id)) as [a Ha].
    { apply elem_of_dom. rewrite <- Hdom. by eapply elem_of_dom_2. }
    destruct (Hids _ _ Ha) as [Hid _]. eapply (Hdone a); [apply attempt_values_spec; [done|by rewrite Hid]|by rewrite Hid].
  - intros id. rewrite Hr, Hrs. simpl. rewrite list_elem_of_fmap. setoid_rewrite list_elem_of_filter.
    setoid_rewrite (λ x, attempt_values_spec _ x Hids). split.
    + intros (a & -> & Ho & Ha). eauto.
    + intros (a & Ha & Ho). destruct (Hids _ _ Ha) as [Hid _]. exists a. by rewrite Hid.
  - intros id Hid%elem_of_dom. by eapply next_attempt_sequence_above.
  - split; simpl; [|constructor|constructor|].
    + intros n Hn. rewrite Hnext in Hn. unfold next_attempt_sequence in Hn. case_match.
      * by apply checked_add_u64_Some in Hn as [_ ?].
      * by simplify_eq.
    + intros d [= <-]. split; [done|]. split; [|constructor]. intros id a Ha. split.
      * by apply (ji_ids _ Hj' _ _ Ha).
      * intros n ->. eapply next_attempt_sequence_above; [done|eauto].
  - simpl. rewrite Hnext, <- Hinst. by apply next_attempt_sequence_dom.
Qed.

Lemma audit_recovery_closes_attempts_witness :
  ∃ t rec b', recover_with_backend (λ _, io_ok) (journal_run demo_journal_ops demo_journal) = (Ok (t, rec), b') ∧
    rec_reconciled rec = [1%N] ∧ trail_inv t.
Proof.
  destruct (recover_with_backend (λ _, io_ok) (journal_run demo_journal_ops demo_journal)) as [[[t rec]|e] b'] eqn:E.
  - exists t, rec, b'. split; [reflexivity|]. split.
    + assert (match (recover_with_backend (λ _, io_ok) (journal_run demo_journal_ops demo_journal)).1 with
              | Ok (_, rec) => rec_reconciled rec | Err _ => [] end = [1%N]) as Hc by (vm_compute; reflexivity).
      rewrite E in Hc. exact Hc.
    + apply (audit_recovery_closes_attempts (journal_run demo_journal_ops demo_journal) (λ _, io_ok) t rec b'); [|exact E].
      apply journal_run_inv; [|exact demo_journal_ops_wf]. apply (journal_create_inv 4096). reflexivity.
  - exfalso. assert (is_ok (recover_with_backend (λ _, io_ok) (journal_run demo_journal_ops demo_journal)).1 = true) as Hc
      by (vm_compute; reflexivity). rewrite E in Hc. discriminate Hc.
Defined.
