(* ===== verification/KernelProps.v ===== *)
(** * Correctness of the kernel's effect boundary

    [effect_outcome] is the contract of one authorized effect: which result the
    caller may see, what happened to the outside world, and what the audit trail
    then says.  [authorize_all_and_commit_inner] refines it on every branch. *)

From S2P Require Import Prelude Bytes Time Path File Capability State StateInvariant StateHistory StateProps DurableRecord DurableRecordProps Journal JournalProps JournalClaims AuditLog AuditProps Kernel.

Section contract.
  Context {W T E : Type}.

(** The entry an attempt leaves at the end of the trail. *)
Definition concluded_entry (id : AttemptId) (caller : SubjectId) (cap : CapId)
    (requests : CapabilityRequestSet) (epoch : N) (outcome : AttemptOutcome) : AttemptJournal :=
  AttemptJournal_finish outcome (started_entry id caller cap requests epoch).

(** What the caller may be told when the executor returned [execution], with the
    outcome the trail records.  [Started] is recorded exactly when the terminal
    record could not be written. *)
Inductive concludes (id : AttemptId) : EffectExecution T E → result (EffectCommitError E) T →
    AttemptOutcome → Prop :=
  | concl_committed v receipt : concludes id (Exec_Committed v receipt) (Ok v) Committed
  | concl_committed_audit v receipt r source :
      rcpt_attempt_id r = id → (∀ token, receipt = Some token → rcpt_token r = token) →
      concludes id (Exec_Committed v receipt) (Err (Commit_CommittedButAudit id r source)) Started
  | concl_failed e : concludes id (Exec_FailedBeforeCommit e) (Err (Commit_Effect e)) FailedBeforeCommit
  | concl_failed_audit e source :
      concludes id (Exec_FailedBeforeCommit e) (Err (Commit_Audit source)) Started
  | concl_unknown evidence :
      evidence ≠ [] → (len evidence <= MAX_COMMIT_UNKNOWN_EVIDENCE_BYTES)%N →
      concludes id (Exec_CommitUnknown evidence) (Err (Commit_CommitUnknown id evidence)) CommitUnknown
  | concl_unknown_audit evidence source :
      concludes id (Exec_CommitUnknown evidence)
        (Err (Commit_CommitUnknownAndAudit id evidence source)) Started.

(** The contract of one call, from [(self, w)] to the result, [self'] and [w']. *)
Inductive effect_outcome (caller : SubjectId) (cap : CapId) (requests : CapabilityRequestSet)
    (execute : Capability → W → EffectExecution T E * W) (self : CapabilityKernel W) (w : W)
    : result (EffectCommitError E) T → list AttemptJournal → W → Prop :=
  | eff_incomplete :
      crs_complete requests = false →
      effect_outcome caller cap requests execute self w (Err Commit_NotAuthorized)
        (at_attempts (k_audit self)) w
  | eff_poisoned :
      k_poisoned self = true →
      effect_outcome caller cap requests execute self w (Err Commit_LockPoisoned)
        (at_attempts (k_audit self)) w
  | eff_not_started error :
      effect_outcome caller cap requests execute self w (Err (Commit_Audit error))
        (at_attempts (k_audit self)) w
  | eff_denied id outcome result :
      authorized_capability (k_state self) caller cap requests = None →
      (result = Err Commit_NotAuthorized ∧ outcome = Denied ∨
       ∃ error, result = Err (Commit_Audit error) ∧ outcome = Started) →
      effect_outcome caller cap requests execute self w result
        (at_attempts (k_audit self) ++
         [concluded_entry id caller cap requests (cs_epoch (k_state self)) outcome]) w
  | eff_executed id capability execution w' outcome result :
      crs_complete requests = true → k_poisoned self = false →
      authorized_capability (k_state self) caller cap requests = Some capability →
      execute capability w = (execution, w') → concludes id execution result outcome →
      effect_outcome caller cap requests execute self w result
        (at_attempts (k_audit self) ++
         [concluded_entry id caller cap requests (cs_epoch (k_state self)) outcome]) w'.

Lemma on_audit_state {A} (m : AM A) (self : CapabilityKernel W) r self' :
  on_audit m self = (r, self') →
  m (k_audit self) = (r, k_audit self') ∧ k_state self' = k_state self ∧
  k_poisoned self' = k_poisoned self ∧ k_observers self' = k_observers self.
Proof. unfold on_audit. destruct (m (k_audit self)) as [o a] eqn:Hm. by intros [= <- <-]. Qed.

(** A guard on the last entry of the trail. *)
Definition last_guard (l : list AttemptJournal) (e : AttemptJournal) (t : AuditTrail)
    (guard : AttemptGuard) : Prop :=
  at_attempts t = l ++ [e] ∧ ag_index guard = length l.

Lemma guard_finish_last io guard outcome receipt evidence t l e r t' :
  last_guard l e t guard → guard_finish io guard outcome receipt evidence t = (r, t') →
  at_attempts t' = l ++ [match r with Ok _ => AttemptJournal_finish outcome e | Err _ => e end].
Proof.
  intros [Hl Hi] H. apply guard_finish_result in H as (_ & _ & ->). rewrite Hl, Hi.
  destruct r; [|done]. clear Hl Hi. induction l as [|x l IH]; simpl; [done|]. f_equal. apply IH.
Qed.

Lemma validate_evidence_ok evidence :
  validate_commit_unknown_evidence evidence = Ok tt →
  evidence ≠ [] ∧ (len evidence <= MAX_COMMIT_UNKNOWN_EVIDENCE_BYTES)%N ∧
  ∀ id, CommitUnknownEvidence_new id evidence = Ok {| cue_attempt_id := id; cue_token := evidence |}.
Proof.
  unfold validate_commit_unknown_evidence, CommitUnknownEvidence_new, validate_commit_unknown_token.
  case_bool_decide; [done|]. destruct (N.ltb_spec MAX_COMMIT_UNKNOWN_EVIDENCE_BYTES (len evidence)); [done|]. done.
Qed.

(** After the executor: one terminal record on the guarded entry, or none. *)
Lemma conclude_spec io guard (execution : EffectExecution T E) (self self' : CapabilityKernel W) l e result :
  last_guard l e (k_audit self) guard → aj_outcome e = AttemptOutcome_code Started →
  conclude io guard execution self = (result, self') →
  ∃ outcome, concludes (ag_id guard) execution result outcome ∧ k_state self' = k_state self ∧
    at_attempts (k_audit self') = l ++ [AttemptJournal_finish outcome e].
Proof.
  intros Hg Hs. assert (AttemptJournal_finish Started e = e) as Hstart
    by (destruct e; simpl in *; by subst).
  assert (∀ A (m : AM A) r k, on_audit m self = (r, k) →
    m (k_audit self) = (r, k_audit k) ∧ k_state k = k_state self) as Hon.
  { intros A m r k (? & ? & _)%on_audit_state. done. }
  unfold conclude. destruct execution as [err|v receipt|evidence].
  - destruct (on_audit _ self) as [[[]|src] k] eqn:Ha; apply Hon in Ha as [Ha Hst];
      apply (guard_finish_last _ _ _ _ _ _ _ _ _ _ Hg) in Ha; intros [= <- <-].
    + exists FailedBeforeCommit. split_and!; [constructor|done|done].
    + exists Started. split_and!; [constructor|done|by rewrite Hstart].
  - destruct (on_audit _ self) as [[[]|src] k] eqn:Ha; apply Hon in Ha as [Ha Hst];
      apply (guard_finish_last _ _ _ _ _ _ _ _ _ _ Hg) in Ha; intros [= <- <-].
    + exists Committed. split_and!; [constructor|done|done].
    + exists Started. split_and!; [|done|by rewrite Hstart].
      constructor; [by destruct receipt|by intros token ->].
  - destruct (validate_commit_unknown_evidence evidence) as [[]|src] eqn:Hv.
    2:{ intros [= <- <-]. exists Started. destruct Hg as [Hg _].
        split_and!; [constructor|done|by rewrite Hstart]. }
    apply validate_evidence_ok in Hv as (Hne & Hlen & Hnew).
    destruct (on_audit _ self) as [[[]|src] k] eqn:Ha; apply Hon in Ha as [Ha Hst];
      unfold guard_commit_unknown in Ha; unfold_st; rewrite Hnew in Ha; simpl in Ha;
      apply (guard_finish_last _ _ _ _ _ _ _ _ _ _ Hg) in Ha; intros [= <- <-].
    + exists CommitUnknown. split_and!; [by constructor|done|done].
    + exists Started. split_and!; [constructor|done|by rewrite Hstart].
Qed.

Lemma conclude_denied_spec io guard (self self' : CapabilityKernel W) l e (result : result (EffectCommitError E) T) :
  last_guard l e (k_audit self) guard → aj_outcome e = AttemptOutcome_code Started →
  conclude_denied io guard self = (result, self') →
  ∃ outcome, (result = Err Commit_NotAuthorized ∧ outcome = Denied ∨
       ∃ error, result = Err (Commit_Audit error) ∧ outcome = Started) ∧ k_state self' = k_state self ∧
    at_attempts (k_audit self') = l ++ [AttemptJournal_finish outcome e].
Proof.
  intros Hg Hs. assert (AttemptJournal_finish Started e = e) as Hstart
    by (destruct e; simpl in *; by subst). unfold conclude_denied.
  destruct (on_audit _ self) as [[[]|src] k] eqn:Ha; apply on_audit_state in Ha as (Ha & Hst & _);
    apply (guard_finish_last _ _ _ _ _ _ _ _ _ _ Hg) in Ha; intros [= <- <-].
  - exists Denied. split_and!; [by left|done|done].
  - exists Started. split_and!; [right; eauto|done|by rewrite Hstart].
Qed.

Lemma authorize_inner_refines io_start io_finish caller cap requests execute (self self' : CapabilityKernel W) w w' result :
  authorize_all_and_commit_inner io_start io_finish caller cap requests execute (self, w) = (result, (self', w')) →
  k_state self' = k_state self ∧
  effect_outcome caller cap requests execute self w result (at_attempts (k_audit self')) w'.
Proof.
  unfold authorize_all_and_commit_inner.
  destruct (crs_complete requests) eqn:Hc; simpl negb; cbv iota;
    [|intros [= <- <- <-]; split; [done|by apply eff_incomplete]].
  destruct (k_poisoned self) eqn:Hp; [intros [= <- <- <-]; split; [done|by apply eff_poisoned]|].
  destruct (on_audit _ self) as [[guard|err] k] eqn:Ha; apply on_audit_state in Ha as (Ha & Hst & _);
    apply start_request_set_result in Ha as [Ha _].
  2:{ intros [= <- <- <-]. split; [done|]. destruct Ha as [-> _]. apply eff_not_started. }
  destruct Ha as (n & _ & _ & -> & Hatt). rewrite Hst.
  set (e := started_entry n caller cap requests (cs_epoch (k_state self))) in *.
  assert (last_guard (at_attempts (k_audit self)) e (k_audit k)
    {| ag_index := length (at_attempts (k_audit self)); ag_id := n |}) as Hg by done.
  destruct (authorized_capability (k_state self) caller cap requests) as [c|] eqn:Hauth.
  - destruct (execute c w) as [execution w1] eqn:Hx. destruct (conclude _ _ _ k) as [res k'] eqn:Hcon.
    eapply conclude_spec in Hcon as (outcome & Hcl & Hst' & Hatt'); [|done|done].
    intros [= <- <- <-]. rewrite Hst', Hatt'. split; [done|]. by eapply eff_executed.
  - destruct (conclude_denied io_finish _ k) as [res k'] eqn:Hcon.
    apply (conclude_denied_spec _ _ _ _ _ _ _ Hg eq_refl) in Hcon as (outcome & Hcl & Hst' & Hatt').
    intros [= <- <- <-]. rewrite Hst', Hatt'. split; [done|]. by apply eff_denied.
Qed.
End contract.

(** ** Claims *)

(** A concrete kernel: the demo session, an in-memory trail, a counter as the world. *)
Definition demo_kernel : CapabilityKernel nat := CapabilityKernel_new demo_state.
Definition demo_execute (_ : Capability) (w : nat) : EffectExecution nat unit * nat :=
  (Exec_Committed w (Some (lit "etag")), S w).

(** C13: the effect boundary refines its contract on every branch.  Whatever the
    requests, the executor and the storage do, the capability state is unchanged,
    the executor runs only when every request is authorized by the state it was
    called in, and the returned result, the final world and the single audit entry
    agree as [effect_outcome] tabulates. *)
Theorem effect_boundary_contract {W T E} io_start io_finish caller cap requests
    (execute : Capability → W → EffectExecution T E * W) (self : CapabilityKernel W) w :
  let '(result, (self', w')) :=
    authorize_all_and_commit_inner io_start io_finish caller cap requests execute (self, w) in
  k_state self' = k_state self ∧
  effect_outcome caller cap requests execute self w result (at_attempts (k_audit self')) w'.
Proof.
  destruct (authorize_all_and_commit_inner _ _ _ _ _ _ _) as [result [self' w']] eqn:H.
  by eapply authorize_inner_refines.
Qed.

Lemma authorized_capability_Some state caller cap requests c :
  authorized_capability state caller cap requests = Some c →
  cs_capabilities state !! cap = Some c ∧
  ∀ request, request ∈ CapabilityRequestSet_iter requests → authorizes state caller cap request = true.
Proof.
  unfold authorized_capability. destruct (authorizes_all _ _ _ _) eqn:Ha; [|done]. intros Hc.
  split; [done|]. intros request Hr. unfold authorizes_all in Ha. rewrite forallb_forall in Ha.
  apply Ha. by apply list_elem_of_In.
Qed.

(** No effect without authorization.  If a call changed the outside world then the
    set was complete, every one of its requests was authorized for the caller, and the
    trail gained exactly one entry naming that caller, capability, epoch and requests. *)
Theorem effect_requires_authorization {W T E} io_start io_finish caller cap requests
    (execute : Capability → W → EffectExecution T E * W) (self : CapabilityKernel W) w :
  let call := authorize_all_and_commit_inner io_start io_finish caller cap requests execute (self, w) in
  call.2.2 ≠ w →
  crs_complete requests = true ∧
  (∀ request, request ∈ CapabilityRequestSet_iter requests →
     authorizes (k_state self) caller cap request = true) ∧
  ∃ id outcome, at_attempts (k_audit call.2.1) = at_attempts (k_audit self) ++
    [concluded_entry id caller cap requests (cs_epoch (k_state self)) outcome].
Proof.
  intros call Hw. destruct call as [result [self' w']] eqn:Hcall.
  apply authorize_inner_refines in Hcall as [_ H].
  inversion H as [| | | |id c ex w1 o r Hc Hp Ha Hx Hcl Hr Hatt]; subst; try done.
  apply authorized_capability_Some in Ha as [_ Hall]. eauto.
Qed.

Lemma effect_requires_authorization_witness :
  crs_complete (CapabilityRequestSet_one demo_request) = true ∧
  ∀ request, request ∈ CapabilityRequestSet_iter (CapabilityRequestSet_one demo_request) →
    authorizes (k_state demo_kernel) worker child_id request = true.
Proof.
  split; [reflexivity|].
  apply (effect_requires_authorization io_ok io_ok worker child_id
    (CapabilityRequestSet_one demo_request) demo_execute demo_kernel 0).
  vm_compute. discriminate.
Defined.

Lemma effects_snoc t l e :
  at_attempts t = l ++ [e] →
  AuditTrail_effects t = omap AttemptJournal_effect_snapshot l ++
    match AttemptJournal_effect_snapshot e with Some r => [r] | None => [] end.
Proof.
  intros Ht. unfold AuditTrail_effects. rewrite Ht, omap_app. simpl.
  by destruct (AttemptJournal_effect_snapshot e).
Qed.

(** The effect record of a committed call. *)
Definition committed_effect (id : AttemptId) (caller : SubjectId) (cap : CapId)
    (requests : CapabilityRequestSet) (epoch : N) : EffectRecord :=
  {| er_attempt_id := id; er_caller := caller; er_capability_id := cap;
     er_request := crs_first requests; er_additional_requests := crs_additional requests;
     er_authorization_epoch := epoch |}.

(** C14: effect records are exact.  A call adds an effect record exactly when it returns
    success, and then the record names the call's own caller, capability, requests and
    epoch, and the executor did report a commit with the returned value. *)
Theorem effect_records_exact {W T E} io_start io_finish caller cap requests
    (execute : Capability → W → EffectExecution T E * W) (self : CapabilityKernel W) w :
  let call := authorize_all_and_commit_inner io_start io_finish caller cap requests execute (self, w) in
  match call.1 with
  | Ok v => ∃ id c receipt, execute c w = (Exec_Committed v receipt, call.2.2) ∧
      AuditTrail_effects (k_audit call.2.1) = AuditTrail_effects (k_audit self) ++
        [committed_effect id caller cap requests (cs_epoch (k_state self))]
  | Err _ => AuditTrail_effects (k_audit call.2.1) = AuditTrail_effects (k_audit self)
  end.
Proof.
  intros call. destruct call as [result [self' w']] eqn:Hcall. simpl.
  apply authorize_inner_refines in Hcall as [_ H].
  inversion H as [? Hr Hatt|? Hr Hatt|err Hr Hatt|id o r Hn Ho Hr Hatt|id c ex w1 o r Hc Hp Ha Hx Hcl Hr Hatt]; subst;
    [unfold AuditTrail_effects; by rewrite <- Hatt..| |];
    symmetry in Hatt; rewrite (effects_snoc _ _ _ Hatt); fold (AuditTrail_effects (k_audit self)).
  - destruct Ho as [[-> ->]|(err & -> & ->)]; simpl; by rewrite app_nil_r.
  - inversion Hcl; subst; simpl; try (by rewrite app_nil_r). by eexists _, _, _.
Qed.

(** ** Revocation propagation *)

(** Each observer's verdict, in order, and the world after all of them ran. *)
Fixpoint observer_outcomes {W} (observers : list (W → result RevocationObserverError unit * W)) (w : W)
    : list (result RevocationObserverError unit) * W :=
  match observers with
  | [] => ([], w)
  | observer :: rest =>
      let '(outcome, w) := observer w in
      let '(outcomes, w) := observer_outcomes rest w in (outcome :: outcomes, w)
  end.

Definition first_error (outcomes : list (result RevocationObserverError unit))
    : option RevocationObserverError :=
  head (omap (λ o, match o with Ok _ => None | Err e => Some e end) outcomes).

Lemma run_observers_spec {W} observers failure (w : W) :
  run_observers observers failure w =
  (match failure with Some e => Some e | None => first_error (observer_outcomes observers w).1 end,
   (observer_outcomes observers w).2).
Proof.
  revert failure w. induction observers as [|o rest IH]; intros failure w; simpl; [by destruct failure|].
  destruct (o w) as [[[]|e] w1]; rewrite IH; destruct (observer_outcomes rest w1) as [outs w2]; simpl;
    by destruct failure.
Qed.

(** A kernel revocation takes effect even when propagation fails, and it notifies
    every observer.  When the holder's revocation is new, the capability is revoked in
    the resulting state, all observers ran in registration order whichever of them
    failed, and the call reports exactly the first failure. *)
Theorem kernel_revocation_propagates {W} caller cap (self : CapabilityKernel W) w :
  k_poisoned self = false → (revoke_held_by caller cap (k_state self)).1 = Ok NewlyRevoked →
  let outcomes := observer_outcomes (k_observers self) w in
  let '(result, (self', w')) := kernel_revoke_held_by caller cap (self, w) in
  cap ∈ cs_revoked (k_state self') ∧ w' = outcomes.2 ∧
  result = match first_error outcomes.1 with
           | None => Ok NewlyRevoked
           | Some e => Err (Kernel_RevocationNotPropagated e)
           end.
Proof.
  intros Hp Hrev outcomes. unfold kernel_revoke_held_by, with_state_mut, propagate_revocation.
  unfold mbind, ST_bind, mret, ST_ret. rewrite Hp.
  destruct (revoke_held_by caller cap (k_state self)) as [r state] eqn:Hr. simpl in Hrev. subst r. simpl.
  rewrite run_observers_spec. fold outcomes.
  assert (cap ∈ cs_revoked state) as Hin.
  { unfold revoke_held_by, revoke_existing in Hr. unfold_st. repeat (case_match; try done). simplify_eq/=.
    set_solver. }
  destruct (first_error outcomes.1); by split_and!.
Qed.

Definition failing_observer (w : nat) : result RevocationObserverError unit * nat :=
  (Err {| roe_observer := lit "mount"; roe_reason := lit "busy" |}, S w).

Lemma kernel_revocation_propagates_witness :
  let self := register_revocation_observer failing_observer
                (register_revocation_observer failing_observer demo_kernel) in
  let '(result, (self', w')) := kernel_revoke_held_by worker child_id (self, 0) in
  child_id ∈ cs_revoked (k_state self') ∧ w' = 2 ∧
  result = Err (Kernel_RevocationNotPropagated {| roe_observer := lit "mount"; roe_reason := lit "busy" |}).
Proof.
  apply (kernel_revocation_propagates worker child_id
    (register_revocation_observer failing_observer
       (register_revocation_observer failing_observer demo_kernel)) 0).
  - reflexivity.
  - vm_compute. reflexivity.
Defined.
