(* ===== verification/KernelConcurrent.v ===== *)
(** * Concurrent effects and revocations ([crates/authority-core/src/kernel.rs])

    Threads interleave at the points where the code takes or releases a lock.  An
    effect thread holds the shared state guard from [state.read()] to [drop(state)]
    and passes through the phases of [authorize_all_and_commit_inner]; a transition
    thread holds the exclusive guard during [with_state_mut] and runs its observers
    after releasing it.  The [RwLock] admits readers only without a writer and a
    writer only alone. *)

From S2P Require Import Prelude Bytes Time Path File Capability State StateInvariant StateHistory StateProps DurableRecord Journal JournalProps JournalClaims AuditLog AuditProps Kernel KernelProps.

Abbreviation Tid := nat.

Section concurrent.
  Context {W T E : Type}.

(** Where an effect thread is while it holds the shared guard. *)
Inductive phase :=
  | PStarted (caller : SubjectId) (cap : CapId) (requests : CapabilityRequestSet) (guard : AttemptGuard)
  | PAuthorized (caller : SubjectId) (cap : CapId) (requests : CapabilityRequestSet)
      (guard : AttemptGuard) (capability : Capability)
  | PExecuted (guard : AttemptGuard) (execution : EffectExecution T E).

Record config := {
  c_kernel : CapabilityKernel W;
  c_world : W;
  c_readers : gmap Tid phase;
  c_writer : option (Tid * state_op);
  c_notifying : gset Tid;
}.

Inductive event :=
  | EvNone
  | EvTransition (op : state_op) (after : CapabilityState)
  | EvRevokeReturned
  | EvExecute (caller : SubjectId) (cap : CapId) (requests : CapabilityRequestSet) (state : CapabilityState)
  | EvReturned (result : result (EffectCommitError E) T).

Definition set_reader (t : Tid) (p : phase) (k : CapabilityKernel W) (c : config) : config :=
  {| c_kernel := k; c_world := c_world c; c_readers := <[t := p]> (c_readers c);
     c_writer := c_writer c; c_notifying := c_notifying c |}.
Definition drop_reader (t : Tid) (k : CapabilityKernel W) (c : config) : config :=
  {| c_kernel := k; c_world := c_world c; c_readers := delete t (c_readers c);
     c_writer := c_writer c; c_notifying := c_notifying c |}.

(** Transitions that revoke, and so notify observers after releasing the lock. *)
Definition notifies (op : state_op) (state : CapabilityState) : bool :=
  match op with
  | OpRevokeHeldBy caller cap =>
      match (revoke_held_by caller cap state).1 with Ok NewlyRevoked => true | _ => false end
  | OpBeginSubjectClose subject =>
      match (begin_subject_close subject state).1 with Ok CloseStarted => true | _ => false end
  | _ => false
  end.

Inductive step : config → event → config → Prop :=
  (** [state.read()] succeeds and the attempt is recorded. *)
  | S_start c t io caller cap requests guard k :
      crs_complete requests = true → k_poisoned (c_kernel c) = false →
      c_writer c = None → c_readers c !! t = None →
      on_audit (start_request_set io caller cap requests (cs_epoch (k_state (c_kernel c)))) (c_kernel c)
        = (Ok guard, k) →
      step c EvNone (set_reader t (PStarted caller cap requests guard) k c)
  (** The attempt could not be recorded: the guard is dropped at once. *)
  | S_start_failed c t io caller cap requests error k :
      crs_complete requests = true → k_poisoned (c_kernel c) = false →
      c_writer c = None → c_readers c !! t = None →
      on_audit (start_request_set io caller cap requests (cs_epoch (k_state (c_kernel c)))) (c_kernel c)
        = (Err error, k) →
      step c (EvReturned (Err (Commit_Audit error))) (drop_reader t k c)
  (** The final check under the guard. *)
  | S_authorize c t caller cap requests guard capability :
      c_readers c !! t = Some (PStarted caller cap requests guard) →
      authorized_capability (k_state (c_kernel c)) caller cap requests = Some capability →
      step c EvNone (set_reader t (PAuthorized caller cap requests guard capability) (c_kernel c) c)
  | S_deny c t io caller cap requests guard result k :
      c_readers c !! t = Some (PStarted caller cap requests guard) →
      authorized_capability (k_state (c_kernel c)) caller cap requests = None →
      conclude_denied io guard (c_kernel c) = (result, k) →
      step c (EvReturned result) (drop_reader t k c)
  (** The executor crosses its linearization point. *)
  | S_execute c t execute caller cap requests guard capability execution w' :
      c_readers c !! t = Some (PAuthorized caller cap requests guard capability) →
      execute capability (c_world c) = (execution, w') →
      step c (EvExecute caller cap requests (k_state (c_kernel c)))
        {| c_kernel := c_kernel c; c_world := w';
           c_readers := <[t := PExecuted guard execution]> (c_readers c);
           c_writer := c_writer c; c_notifying := c_notifying c |}
  | S_conclude c t io guard execution result k :
      c_readers c !! t = Some (PExecuted guard execution) →
      conclude io guard execution (c_kernel c) = (result, k) →
      step c (EvReturned result) (drop_reader t k c)
  (** [state.write()] waits for every reader. *)
  | S_lock c t op :
      k_poisoned (c_kernel c) = false → c_writer c = None → c_readers c = ∅ →
      step c EvNone
        {| c_kernel := c_kernel c; c_world := c_world c; c_readers := c_readers c;
           c_writer := Some (t, op); c_notifying := c_notifying c |}
  (** The transition runs and the exclusive guard is released. *)
  | S_transition c t op :
      c_writer c = Some (t, op) →
      step c (EvTransition op (run_op op (k_state (c_kernel c))))
        {| c_kernel := set_k_state (run_op op (k_state (c_kernel c))) (c_kernel c);
           c_world := c_world c; c_readers := c_readers c; c_writer := None;
           c_notifying := if notifies op (k_state (c_kernel c)) then {[t]} ∪ c_notifying c
                          else c_notifying c |}
  (** Observers run without the state lock, then the revoking call returns. *)
  | S_notify c t failure w' :
      t ∈ c_notifying c → run_observers (k_observers (c_kernel c)) None (c_world c) = (failure, w') →
      step c EvRevokeReturned
        {| c_kernel := c_kernel c; c_world := w'; c_readers := c_readers c; c_writer := c_writer c;
           c_notifying := c_notifying c ∖ {[t]} |}.

Inductive steps : config → list event → config → Prop :=
  | steps_refl c : steps c [] c
  | steps_step c e c1 tr c2 : step c e c1 → steps c1 tr c2 → steps c (e :: tr) c2.

(** No call in progress. *)
Definition idle (k : CapabilityKernel W) (w : W) : config :=
  {| c_kernel := k; c_world := w; c_readers := ∅; c_writer := None; c_notifying := ∅ |}.

Definition initial (issuer : IssuerId) (trail : AuditTrail) (observers : list (W → result RevocationObserverError unit * W))
    (w : W) : config :=
  idle {| k_poisoned := false; k_state := CapabilityState_new issuer; k_audit := trail;
          k_observers := observers |} w.

(** ** Invariant *)

Definition phase_guard (p : phase) : AttemptGuard :=
  match p with
  | PStarted _ _ _ guard | PAuthorized _ _ _ guard _ | PExecuted guard _ => guard
  end.

(** While a thread is between its check and its effect, the check still holds. *)
Definition phase_ok (state : CapabilityState) (p : phase) : Prop :=
  match p with
  | PAuthorized caller cap requests _ capability =>
      authorized_capability state caller cap requests = Some capability
  | _ => True
  end.

Record config_inv (c : config) : Prop := {
  ci_exclusive : is_Some (c_writer c) → c_readers c = ∅;
  ci_state : reachable (k_state (c_kernel c));
  ci_phases : ∀ t p, c_readers c !! t = Some p → phase_ok (k_state (c_kernel c)) p;
}.

Lemma initial_inv issuer trail observers w : config_inv (initial issuer trail observers w).
Proof.
  split; simpl; [by intros []|by exists issuer, []|]. intros t p. by rewrite lookup_empty.
Qed.

(** Concluding an attempt touches the trail only. *)
Lemma conclude_frame io guard (execution : EffectExecution T E) (k k' : CapabilityKernel W) result :
  conclude io guard execution k = (result, k') → k_state k' = k_state k ∧ k_poisoned k' = k_poisoned k.
Proof.
  unfold conclude. intros H. destruct execution; repeat case_match; simplify_eq; try done;
    match goal with H : on_audit _ _ = _ |- _ => by apply on_audit_state in H as (_ & ? & ? & _) end.
Qed.

Lemma conclude_denied_frame io guard (k k' : CapabilityKernel W) (result : result (EffectCommitError E) T) :
  conclude_denied io guard k = (result, k') → k_state k' = k_state k ∧ k_poisoned k' = k_poisoned k.
Proof.
  unfold conclude_denied. intros H. repeat case_match; simplify_eq;
    match goal with H : on_audit _ _ = _ |- _ => by apply on_audit_state in H as (_ & ? & ? & _) end.
Qed.

(** A reader step leaves the state alone; only [S_transition] changes it. *)
Lemma step_state c e c' :
  step c e c' → k_state (c_kernel c') =
    match e with EvTransition _ after => after | _ => k_state (c_kernel c) end.
Proof.
  intros H; destruct H; simpl; try done;
    match goal with
    | H : on_audit _ _ = _ |- _ => by apply on_audit_state in H as (_ & ? & _)
    | H : conclude_denied _ _ _ = _ |- _ => apply (conclude_denied_frame _ _ _ _ _ H)
    | H : conclude _ _ _ _ = _ |- _ => apply (conclude_frame _ _ _ _ _ _ H)
    end.
Qed.

(** What one event of a run that started in [base] says. *)
Definition event_ok (base : CapabilityState) (e : event) : Prop :=
  match e with
  | EvExecute caller cap requests state =>
      reachable state ∧ extends base state ∧ is_Some (authorized_capability state caller cap requests)
  | EvTransition _ after => reachable after ∧ extends base after
  | _ => True
  end.

Lemma step_reader_phases c t p k :
  config_inv c → c_writer c = None ∨ is_Some (c_readers c !! t) → k_state k = k_state (c_kernel c) →
  phase_ok (k_state k) p → config_inv (set_reader t p k c).
Proof.
  intros [Hex Hs Hp] Ht Hk Hok. split; simpl.
  - intros Hw. destruct Ht as [Hn|[q Hq]]; [rewrite Hn in Hw; by destruct Hw|].
    rewrite (Hex Hw), lookup_empty in Hq. done.
  - by rewrite Hk.
  - intros t' p'. rewrite lookup_insert_Some. intros [[<- <-]|[_ ?]]; [done|]. rewrite Hk. eauto.
Qed.

Lemma step_drop_reader c t k :
  config_inv c → k_state k = k_state (c_kernel c) → config_inv (drop_reader t k c).
Proof.
  intros [Hex Hs Hp] Hk. split; simpl.
  - intros Hw. by rewrite (Hex Hw), delete_empty.
  - by rewrite Hk.
  - intros t' p' [_ ?]%lookup_delete_Some. rewrite Hk. eauto.
Qed.

Lemma step_inv c e c' : config_inv c → step c e c' → config_inv c' ∧ event_ok (k_state (c_kernel c)) e.
Proof.
  intros I H. pose proof (step_state _ _ _ H) as Hst. pose proof I as [Hex Hs Hp]. destruct H; simpl in Hst.
  - split; [|done]. by apply step_reader_phases; [|left|..].
  - split; [|done]. by apply step_drop_reader.
  - split; [|done]. apply step_reader_phases; [done|right; by eauto|done|done].
  - split; [|done]. by apply step_drop_reader.
  - split.
    + apply (step_reader_phases {| c_kernel := c_kernel c; c_world := w'; c_readers := c_readers c;
        c_writer := c_writer c; c_notifying := c_notifying c |}); [by split|right; by eauto|done|done].
    + simpl. split_and!; [done|reflexivity|]. apply Hp in H. eauto.
  - split; [|done]. by apply step_drop_reader.
  - split; [|done]. by split.
  - split; [|split; [by apply reachable_run_op|by apply run_op_extends]]. split; simpl.
    + by intros [].
    + by apply reachable_run_op.
    + rewrite Hex by eauto. intros t' p'. by rewrite lookup_empty.
  - split; [|done]. by split.
Qed.

Lemma event_ok_weaken s s' e : extends s s' → event_ok s' e → event_ok s e.
Proof. destruct e; simpl; intros; destruct_and?; split_and?; try done; by etrans. Qed.

Lemma steps_inv c tr c' :
  config_inv c → steps c tr c' →
  config_inv c' ∧ extends (k_state (c_kernel c)) (k_state (c_kernel c')) ∧
  Forall (event_ok (k_state (c_kernel c))) tr.
Proof.
  intros I H. induction H as [c|c e c1 tr c2 H1 H2 IH]; [split_and!; [done|reflexivity|constructor]|].
  pose proof (step_state _ _ _ H1) as Hst. destruct (step_inv _ _ _ I H1) as [I1 He].
  destruct (IH I1) as (I2 & X & Htr).
  assert (extends (k_state (c_kernel c)) (k_state (c_kernel c1))) as X1.
  { rewrite Hst. destruct e; try reflexivity. apply He. }
  split_and!; [done|by etrans|]. constructor; [done|].
  eapply Forall_impl; [done|]. intros. by eapply event_ok_weaken.
Qed.

Lemma steps_app_inv c tr1 tr2 c' :
  steps c (tr1 ++ tr2) c' → ∃ c1, steps c tr1 c1 ∧ steps c1 tr2 c'.
Proof.
  revert c. induction tr1 as [|e tr1 IH]; intros c H; [eexists; split; [constructor|done]|].
  inversion H; subst. edestruct IH as (d & ? & ?); [done|]. exists d. split; [by econstructor|done].
Qed.

Lemma steps_trans c tr1 c1 tr2 c2 : steps c tr1 c1 → steps c1 tr2 c2 → steps c (tr1 ++ tr2) c2.
Proof. induction 1; [done|]. intros. simpl. econstructor; eauto. Qed.

(** Once [s] holds, nothing revoked in it is used by an effect that follows. *)
Lemma revoked_never_executes c tr c' x id l caller requests state :
  config_inv c → steps c tr c' → ancestry (cs_capabilities (k_state (c_kernel c))) id l → x ∈ l →
  x ∈ cs_revoked (k_state (c_kernel c)) → EvExecute caller id requests state ∉ tr.
Proof.
  intros I H Hl Hx Hrev Hin. apply steps_inv in H as (_ & _ & Htr); [|done].
  rewrite Forall_forall in Htr. apply Htr in Hin as (Hr & X & [cap Ha]).
  apply authorized_capability_Some in Ha as [_ Ha]. specialize (Ha (crs_first requests) ltac:(left)).
  rewrite (inactive_not_authorized state caller id (crs_first requests)) in Ha; [done|].
  apply (revoked_chain_dead state id l x []); [done| |done|].
  - eapply ancestry_mono; [by apply X|done].
  - by apply X.
Qed.

(** ** No deadlock *)

(** Every reader can run to the end of its own call, whatever storage does. *)
Lemma reader_finishes c t p :
  c_readers c !! t = Some p →
  ∃ tr k w, steps c tr {| c_kernel := k; c_world := w; c_readers := delete t (c_readers c);
    c_writer := c_writer c; c_notifying := c_notifying c |} ∧
    k_poisoned k = k_poisoned (c_kernel c) ∧ length tr ≤ 3.
Proof.
  assert (∀ c guard execution, c_readers c !! t = Some (PExecuted guard execution) →
    ∃ e k, step c e (drop_reader t k c) ∧ k_poisoned k = k_poisoned (c_kernel c)) as Hexec.
  { intros d guard execution Ht. destruct (conclude io_ok guard execution (c_kernel d)) as [r k] eqn:Hc.
    exists (EvReturned r), k. split; [by eapply S_conclude|]. eapply conclude_frame; exact Hc. }
  assert (∀ c caller cap requests guard capability,
    c_readers c !! t = Some (PAuthorized caller cap requests guard capability) →
    ∃ e1 e2 k, steps c [e1; e2] (drop_reader t k c) ∧ k_poisoned k = k_poisoned (c_kernel c)) as Hauth.
  { intros d caller cap requests guard capability Ht.
    pose proof (S_execute d t (λ _ w, (Exec_CommitUnknown [], w)) _ _ _ _ _ _ _ Ht eq_refl) as Hs.
    match type of Hs with step _ _ ?d' => destruct (Hexec d' guard (Exec_CommitUnknown [])) as (e & k & Hk & Hp) end;
      [simpl; apply lookup_insert_eq|].
    exists (EvExecute caller cap requests (k_state (c_kernel d))), e, k.
    split; [|exact Hp]. econstructor; [exact Hs|]. econstructor; [exact Hk|].
    unfold drop_reader; simpl. rewrite delete_insert_eq. constructor. }
  intros Ht. destruct p as [caller cap requests guard|caller cap requests guard capability|guard execution].
  - destruct (authorized_capability (k_state (c_kernel c)) caller cap requests) as [capability|] eqn:Ha.
    + pose proof (S_authorize c t _ _ _ _ _ Ht Ha) as Hs.
      edestruct (Hauth (set_reader t (PAuthorized caller cap requests guard capability) (c_kernel c) c))
        as (e1 & e2 & k & Hk & Hp); [simpl; apply lookup_insert_eq|].
      exists [EvNone; e1; e2], k, (c_world c). split_and!; [|exact Hp|simpl; lia].
      econstructor; [exact Hs|]. revert Hk. unfold drop_reader; simpl. by rewrite delete_insert_eq.
    + destruct (conclude_denied (T:=T) (E:=E) io_ok guard (c_kernel c)) as [r k] eqn:Hc.
      exists [EvReturned r], k, (c_world c). split_and!; [|eapply conclude_denied_frame; exact Hc|simpl; lia].
      eapply steps_step; [by eapply S_deny|constructor].
  - edestruct Hauth as (e1 & e2 & k & Hk & Hp); [done|]. exists [e1; e2], k, (c_world c).
    split_and!; [exact Hk|exact Hp|simpl; lia].
  - edestruct Hexec as (e & k & Hk & Hp); [done|]. exists [e], k, (c_world c).
    split_and!; [|exact Hp|simpl; lia]. eapply steps_step; [exact Hk|constructor].
Qed.

Lemma readers_drain c :
  ∃ tr c', steps c tr c' ∧ c_readers c' = ∅ ∧ c_writer c' = c_writer c ∧
    k_poisoned (c_kernel c') = k_poisoned (c_kernel c) ∧ length tr ≤ 3 * size (c_readers c).
Proof.
  remember (size (c_readers c)) as n eqn:Hn. revert c Hn.
  induction n as [|n IH]; intros c Hn.
  { exists [], c. split_and!; [constructor| |done|done|done]. by apply map_size_empty_inv. }
  destruct (map_choose (c_readers c)) as (t & p & Ht).
  { intros He. rewrite He, map_size_empty in Hn. done. }
  destruct (reader_finishes c t p Ht) as (tr1 & k & w & H1 & Hp & Hl1).
  edestruct IH as (tr2 & c' & H2 & Hr & Hw & Hp2 & Hl2);
    [|exists (tr1 ++ tr2), c'; split_and!; [by eapply steps_trans|done|done|by etrans|]].
  - simpl. rewrite map_size_delete_Some by eauto. lia.
  - rewrite length_app. lia.
Qed.
End concurrent.
Arguments config W T E : clear implicits.
Arguments event T E : clear implicits.

(** The capability state a trace leaves: the last transition's result. *)
Definition state_after {T E} (base : CapabilityState) (tr : list (event T E)) : CapabilityState :=
  foldl (λ s e, match e with EvTransition _ after => after | _ => s end) base tr.

Lemma steps_state_after {W T E} (c c' : config W T E) tr :
  steps c tr c' → k_state (c_kernel c') = state_after (k_state (c_kernel c)) tr.
Proof.
  induction 1 as [|c e c1 tr c2 H1 _ IH]; [done|]. rewrite IH, (step_state _ _ _ H1). by destruct e.
Qed.

(** The trace of one effect call that runs alone. *)
Definition call_trace {W T E} (io_start : AppendIo) (caller : SubjectId) (cap : CapId)
    (requests : CapabilityRequestSet) (k : CapabilityKernel W) : list (event T E) :=
  match (on_audit (start_request_set io_start caller cap requests (cs_epoch (k_state k))) k).1 with
  | Err _ => []
  | Ok _ =>
      match authorized_capability (k_state k) caller cap requests with
      | Some _ => [EvNone; EvNone; EvExecute caller cap requests (k_state k)]
      | None => [EvNone]
      end
  end.

Lemma effect_call_schedule {W T E} io_start io_finish caller cap requests
    (execute : Capability → W → EffectExecution T E * W) k w result k' w' :
  crs_complete requests = true → k_poisoned k = false →
  authorize_all_and_commit_inner io_start io_finish caller cap requests execute (k, w)
    = (result, (k', w')) →
  steps (idle k w) (call_trace io_start caller cap requests k ++ [EvReturned result]) (idle k' w').
Proof.
  intros Hc Hp. unfold authorize_all_and_commit_inner. rewrite Hc, Hp. simpl.
  destruct (on_audit _ k) as [[guard|err] k1] eqn:Ha.
  2:{ intros [= <- <- <-]. unfold call_trace. rewrite Ha. econstructor; [by eapply (S_start_failed (idle k w) 0 io_start)|].
      constructor. }
  assert (k_state k1 = k_state k) as Hst by (by apply on_audit_state in Ha as (_ & ? & _)).
  pose proof (S_start (idle k w) 0 io_start caller cap requests guard k1 Hc Hp eq_refl eq_refl Ha : step (T:=T) (E:=E) _ _ _) as H1.
  destruct (authorized_capability (k_state k1) caller cap requests) as [capability|] eqn:Hauth.
  - destruct (execute capability w) as [execution w1] eqn:Hx.
    destruct (conclude io_finish guard execution k1) as [r k2] eqn:Hcon. intros [= <- <- <-].
    unfold call_trace. rewrite Ha. simpl. rewrite <- Hst, Hauth.
    eapply steps_step; [exact H1|]. eapply steps_step.
    { eapply S_authorize; [apply lookup_insert_eq|exact Hauth]. }
    eapply steps_step; [eapply S_execute; [apply lookup_insert_eq|exact Hx]|].
    eapply steps_step; [eapply S_conclude; [apply lookup_insert_eq|exact Hcon]|].
    unfold drop_reader, idle; simpl. rewrite !insert_insert_eq, delete_insert_eq, delete_empty. constructor.
  - destruct (conclude_denied io_finish guard k1) as [r k2] eqn:Hcon. intros [= <- <- <-].
    unfold call_trace. rewrite Ha. simpl. rewrite <- Hst, Hauth. eapply steps_step; [exact H1|].
    eapply steps_step; [eapply S_deny; [apply lookup_insert_eq|exact Hauth|exact Hcon]|].
    unfold drop_reader, idle; simpl. rewrite delete_insert_eq, delete_empty. constructor.
Qed.

(** The trace of a sequence of transitions, each run alone. *)
Fixpoint serial_trace {T E} (ops : list state_op) (state : CapabilityState) : list (event T E) :=
  match ops with
  | [] => []
  | op :: rest => EvNone :: EvTransition op (run_op op state) :: serial_trace rest (run_op op state)
  end.

Lemma transitions_schedule {W T E} ops (k : CapabilityKernel W) w :
  k_poisoned k = false → (∀ op s, op ∈ ops → notifies op s = false) →
  steps (T:=T) (E:=E) (idle k w) (serial_trace ops (k_state k)) (idle (set_k_state (run_ops ops (k_state k)) k) w).
Proof.
  revert k. induction ops as [|op ops IH]; intros k Hp Hn; [by destruct k; constructor|].
  pose proof (S_lock (T:=T) (E:=E) (idle k w) 0 op Hp eq_refl eq_refl) as H1.
  eapply steps_step; [exact H1|]. eapply steps_step; [by eapply S_transition|].
  simpl. rewrite Hn by left. apply (IH (set_k_state (run_op op (k_state k)) k)); [done|].
  intros op' s' Hin. apply Hn. by right.
Qed.

Lemma transition_step {W T E} op (k : CapabilityKernel W) w tr (c : config W T E) :
  k_poisoned k = false → notifies op (k_state k) = false →
  steps (idle (set_k_state (run_ops [op] (k_state k)) k) w) tr c →
  steps (idle k w) (EvNone :: EvTransition op (run_ops [op] (k_state k)) :: tr) c.
Proof.
  intros Hp Hn H. eapply steps_step; [apply (S_lock (idle k w) 0 op); done|].
  eapply steps_step; [by eapply S_transition|]. simpl. by rewrite Hn.
Qed.

(** The demo session as a run, with an in-memory trail and a counter as the world. *)
Abbreviation demo_start := (initial (W:=nat) (T:=nat) (E:=unit) (lit "host") AuditTrail_new [] 0).
Abbreviation demo_requests := (CapabilityRequestSet_one demo_request).

Lemma demo_session_steps :
  steps demo_start (serial_trace demo_ops (CapabilityState_new (lit "host"))) (idle demo_kernel 0).
Proof.
  apply (transitions_schedule demo_ops (CapabilityKernel_new (CapabilityState_new (lit "host")))); [done|].
  intros op s Hin. unfold demo_ops in Hin. rewrite list_elem_of_In in Hin. simpl in Hin.
  by repeat destruct Hin as [<-|Hin].
Qed.

Lemma demo_call_trace :
  call_trace (T:=nat) (E:=unit) io_ok worker child_id demo_requests demo_kernel
    = [EvNone; EvNone; EvExecute worker child_id demo_requests demo_state].
Proof.
  unfold call_trace.
  destruct (on_audit _ demo_kernel).1 as [g|e] eqn:Ha; [|by vm_compute in Ha].
  destruct (authorized_capability _ _ _ _) as [c|] eqn:Hc; [done|by vm_compute in Hc].
Qed.

(** C2: every effect linearizes at its commit.  In any interleaving of effects,
    transitions and observers, when an executor runs, the capability state is the one
    the transitions before it in the trace left, and that very state authorizes the
    caller for every request of the set: no transition came between check and effect. *)
Theorem effects_linearize {W T E} issuer trail observers (w : W) (c : config W T E) tr1 tr2 caller cap requests state :
  steps (initial issuer trail observers w) (tr1 ++ EvExecute caller cap requests state :: tr2) c →
  state = state_after (CapabilityState_new issuer) tr1 ∧ reachable state ∧
  ∀ request, request ∈ CapabilityRequestSet_iter requests → authorizes state caller cap request = true.
Proof.
  intros (c1 & H1 & H2)%steps_app_inv. pose proof (steps_state_after _ _ _ H1) as Hs.
  apply steps_inv in H1 as (I1 & _ & _); [|apply initial_inv].
  inversion H2 as [|? ? ? ? ? Hx]; subst. apply step_inv in Hx as Hok; [|done].
  destruct Hok as (_ & Hr & _ & [capability Ha]). apply authorized_capability_Some in Ha as [_ Ha].
  inversion Hx; subst. by split_and!.
Qed.

Lemma effects_linearize_witness :
  authorizes demo_state worker child_id demo_request = true.
Proof.
  destruct (authorize_all_and_commit_inner io_ok io_ok worker child_id demo_requests demo_execute
    (demo_kernel, 0)) as [result [k' w']] eqn:Hcall.
  eapply (effects_linearize (lit "host") AuditTrail_new [] 0 (idle k' w')
    (serial_trace demo_ops (CapabilityState_new (lit "host")) ++ [EvNone; EvNone]) [EvReturned result]
    worker child_id demo_requests demo_state); [|left].
  rewrite <- app_assoc. eapply steps_trans; [exact demo_session_steps|].
  change ([EvNone; EvNone] ++ EvExecute worker child_id demo_requests demo_state :: [EvReturned result])
    with ([EvNone; EvNone; EvExecute worker child_id demo_requests demo_state] ++ [EvReturned result]).
  rewrite <- demo_call_trace. refine (effect_call_schedule _ _ _ _ _ _ _ _ _ _ _ _ _ Hcall); reflexivity.
Defined.

(** C1: no effect after revocation.  Once a transition that leaves [x] revoked has
    taken place, no executor ever again runs with [x] or a capability delegated from
    it, in any interleaving, even for calls that were already waiting. *)
Theorem no_effect_after_revocation {W T E} issuer trail observers (w : W) (c : config W T E)
    tr1 tr2 op after x id l caller requests state :
  steps (initial issuer trail observers w) (tr1 ++ EvTransition op after :: tr2) c →
  ancestry (cs_capabilities after) id l → x ∈ l → x ∈ cs_revoked after →
  EvExecute caller id requests state ∉ tr2.
Proof.
  intros (c1 & H1 & H2)%steps_app_inv Hl Hx Hrev.
  apply steps_inv in H1 as (I1 & _ & _); [|apply initial_inv].
  inversion H2 as [|? ? ? ? ? Ht H3]; subst. pose proof (step_state _ _ _ Ht) as Hs. simpl in Hs.
  apply step_inv in Ht as [I2 _]; [|done]. subst after. by eapply revoked_never_executes.
Qed.

(** The root is revoked, then the worker retries and is refused. *)
Definition revoked_kernel : CapabilityKernel nat :=
  set_k_state (run_ops [OpRevoke root_id] demo_state) demo_kernel.

Lemma no_effect_after_revocation_witness :
  (authorize_all_and_commit_inner io_ok io_ok worker child_id demo_requests demo_execute
     (revoked_kernel, 0)).1 = Err Commit_NotAuthorized ∧
  ∀ state, EvExecute worker child_id demo_requests state ∉
    call_trace (T:=nat) (E:=unit) io_ok worker child_id demo_requests revoked_kernel ++
      [EvReturned (Err Commit_NotAuthorized)].
Proof.
  assert ((authorize_all_and_commit_inner io_ok io_ok worker child_id demo_requests demo_execute
    (revoked_kernel, 0)).1 = Err Commit_NotAuthorized) as Hr by (vm_compute; reflexivity).
  split; [exact Hr|]. intros state.
  destruct (authorize_all_and_commit_inner io_ok io_ok worker child_id demo_requests demo_execute
    (revoked_kernel, 0)) as [result [k' w']] eqn:Hcall. simpl in Hr. subst result.
  apply (no_effect_after_revocation (lit "host") AuditTrail_new [] 0 (idle k' w')
    (serial_trace demo_ops (CapabilityState_new (lit "host")) ++ [EvNone]) _
    (OpRevoke root_id) (run_ops [OpRevoke root_id] demo_state) root_id child_id [child_id; root_id]).
  - rewrite <- app_assoc. eapply steps_trans; [exact demo_session_steps|].
    cbn [app]. apply (transition_step (OpRevoke root_id) demo_kernel); [reflexivity|reflexivity|].
    refine (effect_call_schedule _ _ _ _ _ _ _ _ _ _ _ _ _ Hcall); reflexivity.
  - eapply ancestry_mono; [|exact demo_child_chain]. apply ext_capabilities, (run_op_extends (OpRevoke root_id)).
    exact demo_reachable.
  - right. left.
  - vm_compute. reflexivity.
Defined.

(** A held lock is always released.  From any configuration, letting the calls
    that hold the state lock finish, a reader in at most three steps and a writer in
    one, frees it, and a pending transition then takes it exclusively and runs. *)
Theorem lock_is_eventually_free {W T E} (c : config W T E) op :
  k_poisoned (c_kernel c) = false →
  ∃ tr c' after, steps c tr c' ∧ last tr = Some (EvTransition op after) ∧
    length tr ≤ 3 * size (c_readers c) + 3.
Proof.
  intros Hp. destruct (readers_drain c) as (tr1 & c1 & H1 & Hr & Hw & Hp1 & Hlen).
  assert (∀ (d : config W T E), c_readers d = ∅ → c_writer d = None → k_poisoned (c_kernel d) = false →
    ∃ d' after, steps d [EvNone; EvTransition op after] d') as Hlock.
  { intros d Hdr Hdw Hdp. pose proof (S_lock d 0 op Hdp Hdw Hdr) as Hs.
    match type of Hs with step _ _ ?d' => pose proof (S_transition d' 0 op eq_refl) as Ht end.
    eexists _, _. econstructor; [exact Hs|]. econstructor; [exact Ht|]. constructor. }
  destruct (c_writer c1) as [[t held]|] eqn:Hc1.
  - pose proof (S_transition c1 t held Hc1) as Ht.
    match type of Ht with step _ _ ?d => destruct (Hlock d) as (c' & after & H2) end; [done|done|simpl; congruence|].
    exists (tr1 ++ [EvTransition held (run_op held (k_state (c_kernel c1)))] ++ [EvNone; EvTransition op after]), c', after.
    split_and!; [|by rewrite app_assoc, last_app|rewrite !length_app; simpl; lia].
    eapply steps_trans; [done|]. econstructor; [exact Ht|done].
  - destruct (Hlock c1) as (c' & after & H2); [done|done|congruence|].
    exists (tr1 ++ [EvNone; EvTransition op after]), c', after.
    split_and!; [by eapply steps_trans|by rewrite last_app|rewrite length_app; simpl; lia].
Qed.

Lemma lock_is_eventually_free_witness :
  ∃ tr c' after, steps (idle (T:=nat) (E:=unit) demo_kernel 0) tr c' ∧
    last tr = Some (EvTransition (OpRevoke root_id) after) ∧ length tr ≤ 3.
Proof. apply (lock_is_eventually_free (idle demo_kernel 0)). reflexivity. Defined.

(** The interleaving model contains the sequential one.  Run alone on an idle
    kernel, the steps of one effect call compute exactly the result, kernel and world
    that [authorize_all_and_commit_inner] computes. *)
Theorem effect_call_is_a_schedule {W T E} io_start io_finish caller cap requests
    (execute : Capability → W → EffectExecution T E * W) k w result k' w' :
  crs_complete requests = true → k_poisoned k = false →
  authorize_all_and_commit_inner io_start io_finish caller cap requests execute (k, w)
    = (result, (k', w')) →
  ∃ tr, steps (idle k w) (tr ++ [EvReturned result]) (idle k' w').
Proof. intros Hc Hp Hcall. eexists. by eapply effect_call_schedule. Qed.

Lemma effect_call_is_a_schedule_witness :
  let call := authorize_all_and_commit_inner io_ok io_ok worker child_id demo_requests demo_execute
    (demo_kernel, 0) in
  ∃ tr, steps (idle demo_kernel 0) (tr ++ [EvReturned call.1]) (idle call.2.1 call.2.2).
Proof.
  intros call. apply (effect_call_is_a_schedule io_ok io_ok worker child_id demo_requests demo_execute).
  - reflexivity.
  - reflexivity.
  - fold call. by destruct call as [? []].
Defined.
