(* ===== verification/Node.v ===== *)
(** * Mount-local FUSE node identities ([crates/capfs/src/node.rs])

    A [NodeTable] maps the node numbers one mount has handed to the kernel to
    namespace objects and counts the LOOKUP replies the kernel has not yet
    forgotten.  A [NonZeroU64] is a [positive]; the sequence counter is the
    optional [u64] of the source.  [nt_poisoned] is the poison flag of the lock. *)

From stdpp Require Import sorting.
From S2P Require Import Prelude Bytes Capability State.

Definition FIRST_DYNAMIC_NODE_SEQUENCE : N := 2.

Abbreviation NodeId := positive.

Definition NodeId_ROOT : NodeId := 1%positive.

Definition NodeId_new (value : N) : option NodeId :=
  match value with N0 => None | Npos node => Some node end.

Record NodeBinding := {
  nb_node : NodeId;
  nb_object : ObjectId;
  nb_lookup_count : N;
}.

#[export] Instance NodeBinding_eq_dec : EqDecision NodeBinding.
Proof. solve_decision. Defined.

Definition NodeBinding_new (node : NodeId) (object : ObjectId) : NodeBinding :=
  {| nb_node := node; nb_object := object; nb_lookup_count := 1 |}.

Definition nb_with_count (self : NodeBinding) (count : N) : NodeBinding :=
  {| nb_node := nb_node self; nb_object := nb_object self; nb_lookup_count := count |}.

Inductive ForgetOutcome :=
  | Retained (binding : NodeBinding)
  | Removed (object : ObjectId).

Inductive NodeTableError :=
  | Node_LockPoisoned
  | UnknownNode (node : NodeId)
  | NodeIdExhausted
  | LookupCountExhausted (node : NodeId)
  | ForgetCountExceedsLookupCount (node : NodeId) (requested current : N)
  | CannotForgetRoot
  | Node_InvariantViolation.

Record NodeState := {
  ns_nodes : gmap NodeId NodeBinding;
  ns_objects : gmap ObjectId NodeId;
  ns_next_node_sequence : option N;
}.

Definition NodeState_new (root_object : ObjectId) : NodeState :=
  {| ns_nodes := <[NodeId_ROOT := NodeBinding_new NodeId_ROOT root_object]> ∅;
     ns_objects := <[root_object := NodeId_ROOT]> ∅;
     ns_next_node_sequence := Some FIRST_DYNAMIC_NODE_SEQUENCE |}.

Abbreviation NM := (ST NodeState NodeTableError).

Definition NodeState_allocate (object : ObjectId) : NM NodeBinding :=
  sequence ← st_query (λ self, ok_or (ns_next_node_sequence self) NodeIdExhausted);
  node ← st_query (λ _, ok_or (NodeId_new sequence) Node_InvariantViolation);
  self ← st_get;
  if bool_decide (is_Some (ns_nodes self !! node)) || bool_decide (is_Some (ns_objects self !! object))
  then st_fail Node_InvariantViolation
  else
    let binding := NodeBinding_new node object in
    _ ← st_modify (λ self,
      {| ns_nodes := <[node := binding]> (ns_nodes self);
         ns_objects := <[object := node]> (ns_objects self);
         ns_next_node_sequence := checked_add_u64 sequence 1 |});
    mret binding.

Definition set_binding (node : NodeId) (binding : NodeBinding) (self : NodeState) : NodeState :=
  {| ns_nodes := <[node := binding]> (ns_nodes self); ns_objects := ns_objects self;
     ns_next_node_sequence := ns_next_node_sequence self |}.

(** The body of [remember_lookup] under the write guard. *)
Definition remember_lookup_locked (object : ObjectId) : NM NodeBinding :=
  self ← st_get;
  match ns_objects self !! object with
  | Some node =>
      binding ← st_query (λ self, ok_or (ns_nodes self !! node) Node_InvariantViolation);
      if negb (bool_decide (nb_object binding = object)) then st_fail Node_InvariantViolation
      else if negb (bool_decide (node = NodeId_ROOT)) then
        count ← st_query (λ _,
          ok_or (checked_add_u64 (nb_lookup_count binding) 1) (LookupCountExhausted node));
        let binding := nb_with_count binding count in
        _ ← st_modify (set_binding node binding);
        mret binding
      else mret binding
  | None => NodeState_allocate object
  end.

(** The body of [forget] under the write guard. *)
Definition forget_locked (node : NodeId) (count : positive) : NM ForgetOutcome :=
  binding ← st_query (λ self, ok_or (ns_nodes self !! node) (UnknownNode node));
  let requested := Npos count in
  if (nb_lookup_count binding <? requested)%N
  then st_fail (ForgetCountExceedsLookupCount node requested (nb_lookup_count binding))
  else
    self ← st_get;
    if negb (bool_decide (ns_objects self !! nb_object binding = Some node))
    then st_fail Node_InvariantViolation
    else if (requested =? nb_lookup_count binding)%N then
      _ ← st_modify (λ self,
        {| ns_nodes := delete node (ns_nodes self);
           ns_objects := delete (nb_object binding) (ns_objects self);
           ns_next_node_sequence := ns_next_node_sequence self |});
      mret (Removed (nb_object binding))
    else
      retained ← st_query (λ self, ok_or (ns_nodes self !! node) Node_InvariantViolation);
      let retained := nb_with_count retained (nb_lookup_count retained - requested) in
      _ ← st_modify (set_binding node retained);
      mret (Retained retained).

Record NodeTable := {
  nt_subject : SubjectId;
  nt_poisoned : bool;
  nt_state : NodeState;
}.

Definition NodeTable_new (subject : SubjectId) (root_object : ObjectId) : NodeTable :=
  {| nt_subject := subject; nt_poisoned := false; nt_state := NodeState_new root_object |}.

(** [read_state] and [write_state]: the guard or [LockPoisoned]. *)
Definition read_state (self : NodeTable) : result NodeTableError NodeState :=
  if nt_poisoned self then Err Node_LockPoisoned else Ok (nt_state self).

Definition write_state {A} (body : NM A) : ST NodeTable NodeTableError A := λ self,
  if nt_poisoned self then (Err Node_LockPoisoned, self)
  else
    let '(r, state) := body (nt_state self) in
    (r, {| nt_subject := nt_subject self; nt_poisoned := nt_poisoned self; nt_state := state |}).

Definition remember_lookup (object : ObjectId) : ST NodeTable NodeTableError NodeBinding :=
  write_state (remember_lookup_locked object).

Definition node_binding (self : NodeTable) (node : NodeId) : result NodeTableError NodeBinding :=
  state ← read_state self;
  ok_or (ns_nodes state !! node) (UnknownNode node).

Definition node_resolve (self : NodeTable) (node : NodeId) : result NodeTableError ObjectId :=
  binding ← node_binding self node;
  Ok (nb_object binding).

Definition node_for_object (self : NodeTable) (object : ObjectId)
    : result NodeTableError (option NodeId) :=
  state ← read_state self;
  match ns_objects state !! object with
  | None => Ok None
  | Some node =>
      binding ← ok_or (ns_nodes state !! node) Node_InvariantViolation;
      if negb (bool_decide (nb_object binding = object)) then Err Node_InvariantViolation
      else Ok (Some node)
  end.

Definition forget (node : NodeId) (count : positive) : ST NodeTable NodeTableError ForgetOutcome :=
  if bool_decide (node = NodeId_ROOT) then st_fail CannotForgetRoot
  else write_state (forget_locked node count).

Definition node_count (self : NodeTable) : result NodeTableError N :=
  state ← read_state self;
  Ok (N.of_nat (size (ns_nodes state))).

(** [nodes.keys()] of a [BTreeMap]: the keys in increasing order. *)
Definition live_nodes (self : NodeTable) : result NodeTableError (list NodeId) :=
  state ← read_state self;
  Ok (merge_sort Pos.le (elements (dom (ns_nodes state)))).

(** ** Representation invariant *)

Record NodeState_wf (self : NodeState) : Prop := {
  nwf_forward : ∀ node binding, ns_nodes self !! node = Some binding →
    nb_node binding = node ∧ ns_objects self !! nb_object binding = Some node ∧
    (1 <= nb_lookup_count binding < u64_limit)%N;
  nwf_reverse : ∀ object node, ns_objects self !! object = Some node →
    ∃ binding, ns_nodes self !! node = Some binding ∧ nb_object binding = object;
  nwf_root : ∃ binding, ns_nodes self !! NodeId_ROOT = Some binding ∧ nb_lookup_count binding = 1%N;
  nwf_next : ∀ sequence, ns_next_node_sequence self = Some sequence →
    (FIRST_DYNAMIC_NODE_SEQUENCE <= sequence < u64_limit)%N ∧
    ∀ node, is_Some (ns_nodes self !! node) → (Npos node < sequence)%N;
}.

Lemma NodeState_new_wf root : NodeState_wf (NodeState_new root).
Proof.
  constructor; simpl.
  - intros node binding [[<- <-]|[_ Hx]]%lookup_insert_Some; [|by rewrite lookup_empty in Hx].
    simpl. rewrite lookup_insert_eq. done.
  - intros object node [[<- <-]|[_ Hx]]%lookup_insert_Some; [|by rewrite lookup_empty in Hx].
    eexists. by rewrite lookup_insert_eq.
  - eexists. by rewrite lookup_insert_eq.
  - intros s [= <-]. split; [done|]. intros node [b [[<- <-]|[_ Hx]]%lookup_insert_Some]; [done|].
    by rewrite lookup_empty in Hx.
Qed.

(** ** What one successful LOOKUP does

    Either a live binding gains a reference (the root's stays at one), or the
    object receives the next node number. *)

Inductive lookup_spec (object : ObjectId) (s : NodeState) : NodeBinding → NodeState → Prop :=
  | lookup_live node binding :
      ns_objects s !! object = Some node → ns_nodes s !! node = Some binding →
      nb_object binding = object → node ≠ NodeId_ROOT →
      (nb_lookup_count binding + 1 < u64_limit)%N →
      lookup_spec object s (nb_with_count binding (nb_lookup_count binding + 1))
        (set_binding node (nb_with_count binding (nb_lookup_count binding + 1)) s)
  | lookup_root binding :
      ns_objects s !! object = Some NodeId_ROOT → ns_nodes s !! NodeId_ROOT = Some binding →
      nb_object binding = object → lookup_spec object s binding s
  | lookup_fresh sequence node :
      ns_objects s !! object = None → ns_next_node_sequence s = Some sequence →
      sequence = Npos node → ns_nodes s !! node = None →
      lookup_spec object s (NodeBinding_new node object)
        {| ns_nodes := <[node := NodeBinding_new node object]> (ns_nodes s);
           ns_objects := <[object := node]> (ns_objects s);
           ns_next_node_sequence := checked_add_u64 sequence 1 |}.

Inductive lookup_error (object : ObjectId) (s : NodeState) : NodeTableError → Prop :=
  | lookup_exhausted_count node binding :
      ns_objects s !! object = Some node → ns_nodes s !! node = Some binding →
      node ≠ NodeId_ROOT → (u64_limit <= nb_lookup_count binding + 1)%N →
      lookup_error object s (LookupCountExhausted node)
  | lookup_exhausted_ids :
      ns_objects s !! object = None → ns_next_node_sequence s = None →
      lookup_error object s NodeIdExhausted.

Lemma fresh_node s sequence :
  NodeState_wf s → ns_next_node_sequence s = Some sequence →
  ∃ node, sequence = Npos node ∧ ns_nodes s !! node = None ∧ node ≠ NodeId_ROOT.
Proof.
  intros Hwf Hseq. destruct (nwf_next s Hwf _ Hseq) as [[Hlo _] Hlt].
  unfold FIRST_DYNAMIC_NODE_SEQUENCE in Hlo. destruct sequence as [|node]; [lia|].
  exists node. split; [done|]. split.
  - destruct (ns_nodes s !! node) as [b|] eqn:Hn; [|done].
    specialize (Hlt node ltac:(by eexists)). lia.
  - unfold NodeId_ROOT. intros ->. lia.
Qed.

Lemma remember_lookup_locked_spec object s :
  NodeState_wf s →
  match remember_lookup_locked object s with
  | (Ok binding, s') => lookup_spec object s binding s'
  | (Err e, s') => s' = s ∧ lookup_error object s e
  end.
Proof.
  intros Hwf. unfold remember_lookup_locked. unfold_st.
  destruct (ns_objects s !! object) as [node|] eqn:Ho.
  - destruct (nwf_reverse s Hwf _ _ Ho) as (binding & Hn & Hobj).
    rewrite Hn. simpl. rewrite Hobj, bool_decide_refl. simpl. case_bool_decide as Hr; simpl.
    + subst node. by eapply lookup_root.
    + destruct (checked_add_u64 _ 1) as [count|] eqn:Hc; simpl.
      * apply checked_add_u64_Some in Hc as [-> Hlt]. by eapply lookup_live.
      * apply checked_add_u64_None in Hc. split; [done|]. by eapply lookup_exhausted_count.
  - unfold NodeState_allocate. unfold_st.
    destruct (ns_next_node_sequence s) as [sequence|] eqn:Hseq; simpl.
    + destruct (fresh_node s sequence Hwf Hseq) as (node & -> & Hfresh & _). simpl.
      rewrite Hfresh, Ho. rewrite !bool_decide_eq_false_2 by (by intros [??]). simpl.
      by eapply lookup_fresh.
    + split; [done|]. by eapply lookup_exhausted_ids.
Qed.

(** ** What one FORGET does *)

Inductive forget_spec (node : NodeId) (count : positive) (s : NodeState)
    : ForgetOutcome → NodeState → Prop :=
  | forget_last binding :
      ns_nodes s !! node = Some binding → nb_lookup_count binding = Npos count →
      forget_spec node count s (Removed (nb_object binding))
        {| ns_nodes := delete node (ns_nodes s);
           ns_objects := delete (nb_object binding) (ns_objects s);
           ns_next_node_sequence := ns_next_node_sequence s |}
  | forget_some binding :
      ns_nodes s !! node = Some binding → (Npos count < nb_lookup_count binding)%N →
      forget_spec node count s
        (Retained (nb_with_count binding (nb_lookup_count binding - Npos count)))
        (set_binding node (nb_with_count binding (nb_lookup_count binding - Npos count)) s).

Inductive forget_error (node : NodeId) (count : positive) (s : NodeState) : NodeTableError → Prop :=
  | forget_unknown : ns_nodes s !! node = None → forget_error node count s (UnknownNode node)
  | forget_excess binding :
      ns_nodes s !! node = Some binding → (nb_lookup_count binding < Npos count)%N →
      forget_error node count s
        (ForgetCountExceedsLookupCount node (Npos count) (nb_lookup_count binding)).

Lemma forget_locked_spec node count s :
  NodeState_wf s →
  match forget_locked node count s with
  | (Ok outcome, s') => forget_spec node count s outcome s'
  | (Err e, s') => s' = s ∧ forget_error node count s e
  end.
Proof.
  intros Hwf. unfold forget_locked. remember (Npos count) as requested eqn:Hreq. unfold_st.
  destruct (ns_nodes s !! node) as [binding|] eqn:Hn; simpl; [|split; [done|by apply forget_unknown]].
  destruct (N.ltb_spec (nb_lookup_count binding) requested) as [Hlt|Hle].
  { split; [done|]. subst requested. by eapply forget_excess. }
  destruct (nwf_forward s Hwf _ _ Hn) as (_ & Ho & _).
  rewrite bool_decide_eq_true_2 by done. simpl.
  destruct (N.eqb_spec requested (nb_lookup_count binding)) as [Heq|Hne]; subst requested.
  - by apply forget_last.
  - rewrite Hn. simpl. apply forget_some; [done|lia].
Qed.

Lemma set_binding_wf node binding count s :
  NodeState_wf s → ns_nodes s !! node = Some binding → node ≠ NodeId_ROOT →
  (1 <= count < u64_limit)%N → NodeState_wf (set_binding node (nb_with_count binding count) s).
Proof.
  intros Hwf Hn Hroot Hc. destruct (nwf_forward s Hwf _ _ Hn) as (Hnode & Ho & _).
  constructor; simpl.
  - intros n b [[<- <-]|[_ Hx]]%lookup_insert_Some; [done|]. by apply (nwf_forward s Hwf).
  - intros o n Hon. destruct (nwf_reverse s Hwf _ _ Hon) as (b & Hb & <-).
    destruct (decide (node = n)) as [<-|Hne].
    + simplify_eq. eexists. by rewrite lookup_insert_eq.
    + exists b. by rewrite lookup_insert_ne.
  - destruct (nwf_root s Hwf) as (b & Hb & ?). exists b. by rewrite lookup_insert_ne.
  - intros sequence Hseq. destruct (nwf_next s Hwf _ Hseq) as [? Hlt]. split; [done|].
    intros n [b [[<- <-]|[_ Hx]]%lookup_insert_Some]; apply Hlt; by eexists.
Qed.

Lemma lookup_spec_wf object s binding s' :
  NodeState_wf s → lookup_spec object s binding s' → NodeState_wf s'.
Proof.
  intros Hwf [node b Ho Hn Hobj Hr Hc | b Ho Hn Hobj | sequence node Ho Hseq -> Hn]; [|done|].
  - apply set_binding_wf; try done. destruct (nwf_forward s Hwf _ _ Hn) as (_ & _ & ?). lia.
  - destruct (nwf_next s Hwf _ Hseq) as [[Hlo Hhi] Hlt]. unfold FIRST_DYNAMIC_NODE_SEQUENCE in Hlo.
    constructor; simpl.
    + intros n b [[<- <-]|[Hne Hx]]%lookup_insert_Some.
      { simpl. by rewrite lookup_insert_eq. }
      destruct (nwf_forward s Hwf _ _ Hx) as (? & Hrev & ?). split; [done|]. split; [|done].
      rewrite lookup_insert_ne; [done|]. intros Heq. rewrite <- Heq in Hrev. congruence.
    + intros o n [[<- <-]|[Hne Hx]]%lookup_insert_Some.
      { eexists. by rewrite lookup_insert_eq. }
      destruct (nwf_reverse s Hwf _ _ Hx) as (b & Hb & ?). exists b.
      rewrite lookup_insert_ne; [done|]. congruence.
    + destruct (nwf_root s Hwf) as (b & Hb & ?). exists b. rewrite lookup_insert_ne; [done|].
      congruence.
    + intros sequence [-> Hlim]%checked_add_u64_Some. split; [unfold FIRST_DYNAMIC_NODE_SEQUENCE; lia|].
      intros n [b [[<- <-]|[Hne Hx]]%lookup_insert_Some]; [lia|].
      specialize (Hlt n ltac:(by eexists)). lia.
Qed.

Lemma forget_spec_wf node count s outcome s' :
  NodeState_wf s → node ≠ NodeId_ROOT → forget_spec node count s outcome s' → NodeState_wf s'.
Proof.
  intros Hwf Hr [binding Hn Hc | binding Hn Hc].
  2:{ apply set_binding_wf; try done. destruct (nwf_forward s Hwf _ _ Hn) as (_ & _ & ?). lia. }
  destruct (nwf_forward s Hwf _ _ Hn) as (Hnode & Ho & _). constructor; simpl.
  - intros n b [Hne Hx]%lookup_delete_Some. destruct (nwf_forward s Hwf _ _ Hx) as (? & Hrev & ?).
    split; [done|]. split; [|done]. rewrite lookup_delete_ne; [done|].
    intros Heq. rewrite <- Heq in Hrev. congruence.
  - intros o n [Hne Hx]%lookup_delete_Some. destruct (nwf_reverse s Hwf _ _ Hx) as (b & Hb & Hob).
    exists b. rewrite lookup_delete_ne; [done|]. congruence.
  - destruct (nwf_root s Hwf) as (b & Hb & ?). exists b. by rewrite lookup_delete_ne.
  - intros sequence Hseq. destruct (nwf_next s Hwf _ Hseq) as [? Hlt]. split; [done|].
    intros n [b [_ Hx]%lookup_delete_Some]. apply Hlt. by eexists.
Qed.

(** ** Histories of one mount *)

Inductive node_op :=
  | NLookup (object : ObjectId)
  | NForget (node : NodeId) (count : positive).

(** What a request made visible to the kernel. *)
Inductive node_event :=
  | Replied (node : NodeId) (object : ObjectId)
  | Forgot (node : NodeId) (count : positive)
  | Refused (e : NodeTableError).

Definition node_step (op : node_op) (self : NodeTable) : node_event * NodeTable :=
  match op with
  | NLookup object =>
      match remember_lookup object self with
      | (Ok binding, self) => (Replied (nb_node binding) (nb_object binding), self)
      | (Err e, self) => (Refused e, self)
      end
  | NForget node count =>
      match forget node count self with
      | (Ok _, self) => (Forgot node count, self)
      | (Err e, self) => (Refused e, self)
      end
  end.

Fixpoint node_run (ops : list node_op) (self : NodeTable) : list node_event * NodeTable :=
  match ops with
  | [] => ([], self)
  | op :: ops =>
      let '(event, self) := node_step op self in
      let '(events, self) := node_run ops self in
      (event :: events, self)
  end.

(** The references of [node] the kernel received and gave back. *)
Definition references (node : NodeId) (events : list node_event) : N :=
  foldr (λ e n, (match e with Replied m _ => if bool_decide (m = node) then 1 else 0 | _ => 0 end + n)%N)
    0%N events.

Definition returned (node : NodeId) (events : list node_event) : N :=
  foldr (λ e n, (match e with Forgot m count => if bool_decide (m = node) then Npos count else 0
                 | _ => 0 end + n)%N) 0%N events.

Definition live_count (node : NodeId) (s : NodeState) : N :=
  match ns_nodes s !! node with Some binding => nb_lookup_count binding | None => 0%N end.

Lemma references_snoc node events e :
  references node (events ++ [e]) = (references node events + references node [e])%N.
Proof. unfold references. induction events as [|e' events IH]; simpl; [lia|]. simpl in IH. lia. Qed.

Lemma returned_snoc node events e :
  returned node (events ++ [e]) = (returned node events + returned node [e])%N.
Proof. unfold returned. induction events as [|e' events IH]; simpl; [lia|]. simpl in IH. lia. Qed.

(** Every node number issued so far lies below the sequence counter. *)
Definition issued_below (node : NodeId) (s : NodeState) : Prop :=
  match ns_next_node_sequence s with Some sequence => (Npos node < sequence)%N | None => True end.

Record history_wf (events : list node_event) (s : NodeState) : Prop := {
  hwf_state : NodeState_wf s;
  hwf_balance : ∀ node, node ≠ NodeId_ROOT →
    references node events = (returned node events + live_count node s)%N;
  hwf_issued : ∀ node object, Replied node object ∈ events → issued_below node s;
  hwf_bound : ∀ node object binding, Replied node object ∈ events →
    ns_nodes s !! node = Some binding → nb_object binding = object;
  hwf_stable : ∀ node o1 o2, Replied node o1 ∈ events → Replied node o2 ∈ events → o1 = o2;
  hwf_errors : Refused Node_InvariantViolation ∉ events;
}.

Lemma history_start root : history_wf [] (NodeState_new root).
Proof.
  constructor; try (by intros * ?%not_elem_of_nil); [apply NodeState_new_wf|].
  intros node Hne. unfold live_count. simpl. by rewrite lookup_insert_ne, lookup_empty.
Qed.

Lemma live_count_set node m binding s :
  live_count m (set_binding node binding s) =
  if bool_decide (m = node) then nb_lookup_count binding else live_count m s.
Proof.
  unfold live_count. simpl. case_bool_decide as H; [subst; by rewrite lookup_insert_eq|].
  by rewrite lookup_insert_ne.
Qed.

Lemma lookup_issued object s binding s' :
  NodeState_wf s → lookup_spec object s binding s' →
  issued_below (nb_node binding) s' ∧ ∀ node, issued_below node s → issued_below node s'.
Proof.
  intros Hwf [node b Ho Hn Hobj Hr Hc | b Ho Hn Hobj | sequence node Ho Hseq -> Hn]; simpl.
  1,2: destruct (nwf_forward s Hwf _ _ Hn) as (Hnode & _ & _); split; [|done];
    rewrite Hnode; unfold issued_below; simpl;
    destruct (ns_next_node_sequence s) eqn:Hs; [|done]; apply (nwf_next s Hwf _ Hs); by eexists.
  unfold issued_below. simpl. rewrite Hseq. split.
  - destruct (checked_add_u64 _ 1) as [n|] eqn:Hc; [|done]. apply checked_add_u64_Some in Hc as [-> _]. lia.
  - intros m Hm. destruct (checked_add_u64 _ 1) as [n|] eqn:Hc; [|done].
    apply checked_add_u64_Some in Hc as [-> _]. lia.
Qed.

(** A LOOKUP reply names the object asked for; the bindings of the other nodes
    stay, and an already replied number keeps its object. *)
Lemma lookup_frame object s binding s' node b :
  NodeState_wf s → lookup_spec object s binding s' → ns_nodes s' !! node = Some b →
  (node = nb_node binding ∧ b = binding) ∨ (node ≠ nb_node binding ∧ ns_nodes s !! node = Some b).
Proof.
  intros Hwf [m b' Ho Hn Hobj Hr Hc | b' Ho Hn Hobj | sequence m Ho Hseq -> Hn]; simpl.
  - destruct (nwf_forward s Hwf _ _ Hn) as (-> & _ & _).
    intros [[<- <-]|[Hne Hx]]%lookup_insert_Some; [by left|by right].
  - destruct (nwf_forward s Hwf _ _ Hn) as (-> & _ & _). intros H.
    destruct (decide (node = NodeId_ROOT)) as [->|]; [left|right]; naive_solver.
  - intros [[<- <-]|[Hne Hx]]%lookup_insert_Some; [by left|by right].
Qed.

Lemma lookup_object object s binding s' :
  lookup_spec object s binding s' → nb_object binding = object.
Proof. by intros []. Qed.

(** The reply's node is either new or already bound to the same object. *)
Lemma lookup_previous object s binding s' events :
  history_wf events s → lookup_spec object s binding s' →
  ∀ o, Replied (nb_node binding) o ∈ events → o = object.
Proof.
  intros Hh Hl o Ho. pose proof (hwf_state _ _ Hh) as Hwf.
  destruct Hl as [m b' Hi Hn Hobj Hr Hc | b' Hi Hn Hobj | sequence m Hi Hseq -> Hn]; simpl in *.
  1,2: destruct (nwf_forward s Hwf _ _ Hn) as (Hnode & _ & _); rewrite Hnode in Ho;
    by rewrite <- (hwf_bound _ _ Hh _ _ _ Ho Hn).
  apply (hwf_issued _ _ Hh) in Ho. unfold issued_below in Ho. rewrite Hseq in Ho. lia.
Qed.

Lemma lookup_balance object s binding s' node :
  NodeState_wf s → lookup_spec object s binding s' → node ≠ NodeId_ROOT →
  live_count node s' = (live_count node s + if bool_decide (nb_node binding = node) then 1 else 0)%N.
Proof.
  intros Hwf [m b' Hi Hn Hobj Hr Hc | b' Hi Hn Hobj | sequence m Hi Hseq -> Hn] Hne; simpl.
  - destruct (nwf_forward s Hwf _ _ Hn) as (-> & _ & _). rewrite live_count_set. simpl.
    unfold live_count. repeat case_bool_decide; subst; try done; rewrite ?Hn; lia.
  - destruct (nwf_forward s Hwf _ _ Hn) as (-> & _ & _). rewrite bool_decide_eq_false_2 by done. lia.
  - unfold live_count. simpl. case_bool_decide as H.
    + subst. by rewrite lookup_insert_eq, Hn.
    + rewrite lookup_insert_ne by done. lia.
Qed.

Lemma history_lookup events object s binding s' :
  history_wf events s → lookup_spec object s binding s' →
  history_wf (events ++ [Replied (nb_node binding) (nb_object binding)]) s'.
Proof.
  intros Hh Hl. pose proof (hwf_state _ _ Hh) as Hwf. pose proof (lookup_object _ _ _ _ Hl) as Hobj.
  pose proof (lookup_previous _ _ _ _ _ Hh Hl) as Hprev.
  destruct (lookup_issued _ _ _ _ Hwf Hl) as [Hnew Hmono].
  constructor.
  - by eapply lookup_spec_wf.
  - intros node Hne. rewrite references_snoc, returned_snoc, (hwf_balance _ _ Hh) by done.
    rewrite (lookup_balance _ _ _ _ node Hwf Hl Hne). simpl. lia.
  - intros node o [H|H%list_elem_of_singleton]%elem_of_app; simplify_eq; [|done].
    apply Hmono. by eapply (hwf_issued _ _ Hh).
  - intros node o b Ho Hb. destruct (lookup_frame _ _ _ _ _ _ Hwf Hl Hb) as [[-> ->]|[Hne Hb']].
    + apply elem_of_app in Ho as [Ho|Ho%list_elem_of_singleton]; [|by simplify_eq].
      by rewrite (Hprev _ Ho).
    + apply elem_of_app in Ho as [Ho|Ho%list_elem_of_singleton]; [|by simplify_eq].
      by eapply (hwf_bound _ _ Hh).
  - intros node o1 o2.
    intros [H1|H1%list_elem_of_singleton]%elem_of_app [H2|H2%list_elem_of_singleton]%elem_of_app;
      simplify_eq; [by eapply (hwf_stable _ _ Hh)| | |done].
    + by rewrite (Hprev _ H1).
    + by rewrite (Hprev _ H2).
  - rewrite not_elem_of_app, list_elem_of_singleton. split; [apply Hh|done].
Qed.

Lemma forget_balance node count s outcome s' m :
  forget_spec node count s outcome s' →
  live_count m s = (live_count m s' + if bool_decide (node = m) then Npos count else 0)%N.
Proof.
  intros [binding Hn Hc | binding Hn Hc]; unfold live_count; simpl; case_bool_decide as H; subst.
  - by rewrite Hn, lookup_delete_eq, Hc.
  - rewrite lookup_delete_ne by done. lia.
  - rewrite Hn, lookup_insert_eq. simpl. lia.
  - rewrite lookup_insert_ne by done. lia.
Qed.

Lemma forget_frame node count s outcome s' m b' :
  forget_spec node count s outcome s' → ns_nodes s' !! m = Some b' →
  ∃ b, ns_nodes s !! m = Some b ∧ nb_object b' = nb_object b.
Proof.
  intros [binding Hn Hc | binding Hn Hc]; simpl.
  - intros [_ Hx]%lookup_delete_Some. by eexists.
  - intros [[<- <-]|[_ Hx]]%lookup_insert_Some; by eexists.
Qed.

Lemma history_forget events node count s outcome s' :
  history_wf events s → node ≠ NodeId_ROOT → forget_spec node count s outcome s' →
  history_wf (events ++ [Forgot node count]) s'.
Proof.
  intros Hh Hr Hf. pose proof (hwf_state _ _ Hh) as Hwf.
  assert (∀ m o, Replied m o ∈ events ++ [Forgot node count] → Replied m o ∈ events) as Hold.
  { intros m o [H|H%list_elem_of_singleton]%elem_of_app; [done|by simplify_eq]. }
  constructor.
  - by eapply forget_spec_wf.
  - intros m Hne. rewrite references_snoc, returned_snoc, (hwf_balance _ _ Hh) by done.
    rewrite (forget_balance _ _ _ _ _ m Hf). simpl. lia.
  - intros m o H%Hold%(hwf_issued _ _ Hh). by destruct Hf.
  - intros m o b H%Hold Hb. destruct (forget_frame _ _ _ _ _ _ _ Hf Hb) as (b0 & Hb0 & ->).
    by eapply (hwf_bound _ _ Hh).
  - intros m o1 o2 H1%Hold H2%Hold. by eapply (hwf_stable _ _ Hh).
  - rewrite not_elem_of_app, list_elem_of_singleton. split; [apply Hh|done].
Qed.

Lemma history_refused events e s :
  history_wf events s → e ≠ Node_InvariantViolation → history_wf (events ++ [Refused e]) s.
Proof.
  intros Hh He.
  assert (∀ m o, Replied m o ∈ events ++ [Refused e] → Replied m o ∈ events) as Hold.
  { intros m o [H|H%list_elem_of_singleton]%elem_of_app; [done|by simplify_eq]. }
  constructor; [apply Hh| | | | |].
  - intros m Hne. rewrite references_snoc, returned_snoc, (hwf_balance _ _ Hh) by done. simpl. lia.
  - intros m o H%Hold. by eapply (hwf_issued _ _ Hh).
  - intros m o b H%Hold Hb. by eapply (hwf_bound _ _ Hh).
  - intros m o1 o2 H1%Hold H2%Hold. by eapply (hwf_stable _ _ Hh).
  - rewrite not_elem_of_app, list_elem_of_singleton. split; [apply Hh|congruence].
Qed.

Lemma history_step events op self event self' :
  history_wf events (nt_state self) → nt_poisoned self = false → node_step op self = (event, self') →
  history_wf (events ++ [event]) (nt_state self') ∧ nt_poisoned self' = false.
Proof.
  intros Hh Hp. pose proof (hwf_state _ _ Hh) as Hwf. destruct op as [object|node count]; simpl.
  - unfold remember_lookup, write_state. rewrite Hp.
    pose proof (remember_lookup_locked_spec object _ Hwf) as Hs.
    destruct (remember_lookup_locked _ _) as [[b|e] s'].
    + intros [= <- <-]. split; [|done]. by eapply history_lookup.
    + destruct Hs as [-> He]. intros [= <- <-]. split; [|done]. apply history_refused; [done|].
      by destruct He.
  - unfold forget, write_state, st_fail. case_bool_decide as Hr.
    { intros [= <- <-]. split; [|done]. by apply history_refused. }
    rewrite Hp. pose proof (forget_locked_spec node count _ Hwf) as Hs.
    destruct (forget_locked _ _ _) as [[o|e] s'].
    + intros [= <- <-]. split; [|done]. by eapply history_forget.
    + destruct Hs as [-> He]. intros [= <- <-]. split; [|done]. apply history_refused; [done|].
      by destruct He.
Qed.

Lemma history_run events ops self events' self' :
  history_wf events (nt_state self) → nt_poisoned self = false → node_run ops self = (events', self') →
  history_wf (events ++ events') (nt_state self') ∧ nt_poisoned self' = false.
Proof.
  revert events self events'. induction ops as [|op ops IH]; intros events self events' Hh Hp; simpl.
  - intros [= <- <-]. by rewrite app_nil_r.
  - destruct (node_step op self) as [event self1] eqn:Hs.
    destruct (node_run ops self1) as [rest self2] eqn:Hr. intros [= <- <-].
    destruct (history_step _ _ _ _ _ Hh Hp Hs) as [Hh1 Hp1].
    rewrite cons_middle, (assoc_L (++)). by eapply IH.
Qed.

(** C33: over any sequence of LOOKUP and FORGET requests on a new mount: no two
    replies ever bind one node number to different objects (a retired number is
    never reused); for every ordinary node the references handed to the kernel
    equal those given back plus the live count the table records, so a node is
    retired exactly when the last reference returns; a live node resolves to the
    object it was replied for, and the two indexes never disagree. *)
Theorem node_identity_history subject root ops events self :
  node_run ops (NodeTable_new subject root) = (events, self) →
  (∀ node o1 o2, Replied node o1 ∈ events → Replied node o2 ∈ events → o1 = o2) ∧
  (∀ node, node ≠ NodeId_ROOT →
     references node events = (returned node events + live_count node (nt_state self))%N) ∧
  (∀ node object, Replied node object ∈ events → node ≠ NodeId_ROOT →
     node_resolve self node =
       if (returned node events <? references node events)%N then Ok object
       else Err (UnknownNode node)) ∧
  Refused Node_InvariantViolation ∉ events.
Proof.
  intros Hrun.
  destruct (history_run [] ops (NodeTable_new subject root) _ _ (history_start root) eq_refl Hrun)
    as [Hh Hp]. simpl in Hh.
  split; [apply Hh|]. split; [apply Hh|]. split; [|apply Hh].
  intros node object Ho Hne. pose proof (hwf_balance _ _ Hh node Hne) as Hb.
  unfold node_resolve, node_binding, read_state. rewrite Hp. simpl. unfold live_count in Hb.
  destruct (ns_nodes (nt_state self) !! node) as [b|] eqn:Hn; simpl.
  - destruct (nwf_forward _ (hwf_state _ _ Hh) _ _ Hn) as (_ & _ & Hc).
    destruct (N.ltb_spec (returned node events) (references node events)); [|lia].
    by rewrite (hwf_bound _ _ Hh _ _ _ Ho Hn).
  - destruct (N.ltb_spec (returned node events) (references node events)); [lia|done].
Qed.

(** A mount that looks up two objects, forgets the first completely and looks it
    up again: the second reply carries a new number. *)
Lemma node_identity_history_witness :
  let root := lit "object-1" in let a := lit "object-2" in let b := lit "object-3" in
  let ops := [NLookup a; NLookup b; NLookup a; NForget 2 2; NForget 2 1; NLookup a; NForget 1 1] in
  let events := (node_run ops (NodeTable_new (lit "agent") root)).1 in
  let self := (node_run ops (NodeTable_new (lit "agent") root)).2 in
  events = [Replied 2 a; Replied 3 b; Replied 2 a; Forgot 2 2; Refused (UnknownNode 2); Replied 4 a;
            Refused CannotForgetRoot] ∧
  references 3 events = (returned 3 events + live_count 3 (nt_state self))%N.
Proof.
  intros root a b ops events self. split; [by vm_compute|].
  refine (proj1 (proj2 (node_identity_history (lit "agent") root ops events self _)) 3%positive _); [|done].
  apply surjective_pairing.
Defined.

(** The keys of [live_nodes] are exactly the nodes that resolve, in increasing
    order, and [node_for_object] inverts [resolve]. *)
Theorem node_queries_agree self :
  NodeState_wf (nt_state self) → nt_poisoned self = false →
  (∃ nodes, live_nodes self = Ok nodes ∧ StronglySorted Pos.le nodes ∧ NoDup nodes ∧
     node_count self = Ok (N.of_nat (length nodes)) ∧
     ∀ node, node ∈ nodes ↔ is_ok (node_resolve self node) = true) ∧
  (∀ node object, node_resolve self node = Ok object ↔ node_for_object self object = Ok (Some node)) ∧
  (∀ object, is_ok (node_for_object self object) = true).
Proof.
  intros Hwf Hp. unfold live_nodes, node_count, node_resolve, node_for_object, node_binding, read_state.
  rewrite Hp. simpl. split; [|split].
  - eexists. split; [done|]. pose proof (merge_sort_Permutation Pos.le (elements (dom (ns_nodes (nt_state self))))) as Hperm.
    split; [apply (StronglySorted_merge_sort Pos.le)|]. split; [|split].
    + rewrite Hperm. apply NoDup_elements.
    + by rewrite Hperm, <- size_dom.
    + intros node. rewrite Hperm, elem_of_elements, elem_of_dom.
      destruct (ns_nodes _ !! node); simpl; split; try done; by intros [??].
  - intros node object. split.
    + destruct (ns_nodes _ !! node) as [b|] eqn:Hn; simpl; [|done]. intros [= <-].
      destruct (nwf_forward _ Hwf _ _ Hn) as (_ & -> & _). rewrite Hn. simpl. by rewrite bool_decide_refl.
    + destruct (ns_objects _ !! object) as [n|] eqn:Ho; [|done].
      destruct (nwf_reverse _ Hwf _ _ Ho) as (b & Hb & <-). rewrite Hb. simpl.
      rewrite bool_decide_refl. simpl. intros [= <-]. by rewrite Hb.
  - intros object. destruct (ns_objects _ !! object) as [n|] eqn:Ho; [|done].
    destruct (nwf_reverse _ Hwf _ _ Ho) as (b & Hb & <-). rewrite Hb. simpl. by rewrite bool_decide_refl.
Qed.

Lemma node_queries_agree_witness :
  node_resolve (NodeTable_new (lit "agent") (lit "object-1")) 1 = Ok (lit "object-1") ∧
  node_for_object (NodeTable_new (lit "agent") (lit "object-1")) (lit "object-1") = Ok (Some 1%positive).
Proof.
  split; [by vm_compute|].
  apply (proj1 (proj2 (node_queries_agree (NodeTable_new (lit "agent") (lit "object-1"))
    (NodeState_new_wf _) eq_refl)) 1%positive (lit "object-1")).
  by vm_compute.
Defined.
