(* ===== verification/IpPolicy.v ===== *)
(** * Destination address policy ([crates/egress-broker/src/ip_policy.rs])

    CIDR ranges at their 32- and 128-bit widths, the built-in deny list and the
    all-or-nothing validation of a DNS answer.  An [Ipv4Addr] is its [u32], an
    [Ipv6Addr] its [u128]; a constructed range satisfies [IpRange_wf]. *)

From S2P Require Import Prelude Bytes.

Inductive IpAddr :=
  | V4 (address : N)
  | V6 (address : N).

#[export] Instance IpAddr_eq_dec : EqDecision IpAddr.
Proof. solve_decision. Defined.

(** [Ipv4Addr::new] and [Ipv6Addr::new]. *)
Definition Ipv4Addr_new (a b c d : N) : N := (((a * 256 + b) * 256 + c) * 256 + d)%N.
Definition Ipv6Addr_new (a b c d e f g h : N) : N :=
  foldl (λ acc s, acc * 65536 + s)%N 0%N [a; b; c; d; e; f; g; h].

(** [Ipv6Addr::segments]. *)
Definition segments (address : N) : list N :=
  (λ i : nat, N.land (N.shiftr address (16 * (7 - N.of_nat i))) 65535) <$> seq 0 8.

(** [Ipv6Addr::to_ipv4]: the mapped [::ffff:a.b.c.d] and compatible [::a.b.c.d] forms. *)
Definition to_ipv4 (address : N) : option N :=
  match segments address with
  | [s0; s1; s2; s3; s4; s5; ab; cd] =>
      if (s0 =? 0)%N && (s1 =? 0)%N && (s2 =? 0)%N && (s3 =? 0)%N && (s4 =? 0)%N &&
         ((s5 =? 0)%N || (s5 =? 65535)%N)
      then Some (ab * 65536 + cd)%N else None
  | _ => None
  end.

(** [checked_shl] at width [w]. *)
Definition checked_shl (w value rhs : N) : option N :=
  if (rhs <? w)%N then Some (N.shiftl value rhs mod 2 ^ w)%N else None.

Definition mask_v4 (address prefix_length : N) : N :=
  if (prefix_length =? 0)%N then 0%N
  else N.land address (default 0%N (checked_shl 32 (2 ^ 32 - 1) (32 - prefix_length))).

Definition mask_v6 (address prefix_length : N) : N :=
  if (prefix_length =? 0)%N then 0%N
  else N.land address (default 0%N (checked_shl 128 (2 ^ 128 - 1) (128 - prefix_length))).

Definition mask_address (address : IpAddr) (prefix_length : N) : IpAddr :=
  match address with
  | V4 address => V4 (mask_v4 address prefix_length)
  | V6 address => V6 (mask_v6 address prefix_length)
  end.

Record IpRange := { ir_network : IpAddr; ir_prefix_length : N }.

Inductive IpRangeError := PrefixTooLarge (prefix_length max : N).

Definition IpRange_new (network : IpAddr) (prefix_length : N) : result IpRangeError IpRange :=
  let max := match network with V4 _ => 32%N | V6 _ => 128%N end in
  if (max <? prefix_length)%N then Err (PrefixTooLarge prefix_length max)
  else Ok {| ir_network := mask_address network prefix_length; ir_prefix_length := prefix_length |}.

Definition IpRange_contains (self : IpRange) (address : IpAddr) : bool :=
  match ir_network self, address with
  | V4 network, V4 address => (mask_v4 address (ir_prefix_length self) =? network)%N
  | V6 network, V6 address => (mask_v6 address (ir_prefix_length self) =? network)%N
  | _, _ => false
  end.

Definition ipv4_denied : list (N * N) :=
  [(0%N, 8%N);
   (Ipv4Addr_new 10 0 0 0, 8%N);
   (Ipv4Addr_new 100 64 0 0, 10%N);
   (Ipv4Addr_new 127 0 0 0, 8%N);
   (Ipv4Addr_new 169 254 0 0, 16%N);
   (Ipv4Addr_new 172 16 0 0, 12%N);
   (Ipv4Addr_new 192 0 0 0, 24%N);
   (Ipv4Addr_new 192 0 2 0, 24%N);
   (Ipv4Addr_new 192 31 196 0, 24%N);
   (Ipv4Addr_new 192 52 193 0, 24%N);
   (Ipv4Addr_new 192 88 99 0, 24%N);
   (Ipv4Addr_new 192 168 0 0, 16%N);
   (Ipv4Addr_new 192 175 48 0, 24%N);
   (Ipv4Addr_new 198 18 0 0, 15%N);
   (Ipv4Addr_new 198 51 100 0, 24%N);
   (Ipv4Addr_new 203 0 113 0, 24%N);
   (Ipv4Addr_new 224 0 0 0, 4%N);
   (Ipv4Addr_new 240 0 0 0, 4%N)].

Definition ipv6_denied : list (N * N) :=
  [(0%N, 96%N);
   (0%N, 128%N);
   (1%N, 128%N);
   (Ipv6Addr_new 0x0064 0xff9b 0 0 0 0 0 0, 96%N);
   (Ipv6Addr_new 0x0064 0xff9b 0 1 0 0 0 0, 48%N);
   (Ipv6Addr_new 0x0100 0 0 0 0 0 0 0, 64%N);
   (Ipv6Addr_new 0x0100 0 0 1 0 0 0 0, 64%N);
   (Ipv6Addr_new 0x2001 0 0 0 0 0 0 0, 23%N);
   (Ipv6Addr_new 0xfc00 0 0 0 0 0 0 0, 7%N);
   (Ipv6Addr_new 0x2002 0 0 0 0 0 0 0, 16%N);
   (Ipv6Addr_new 0x2620 0x004f 0x8000 0 0 0 0 0, 48%N);
   (Ipv6Addr_new 0x3fff 0 0 0 0 0 0 0, 20%N);
   (Ipv6Addr_new 0x5f00 0 0 0 0 0 0 0, 16%N);
   (Ipv6Addr_new 0xfe80 0 0 0 0 0 0 0, 10%N);
   (Ipv6Addr_new 0xff00 0 0 0 0 0 0 0, 8%N);
   (Ipv6Addr_new 0x2001 0xdb8 0 0 0 0 0 0, 32%N)].

Definition built_in_denied_ranges : result IpRangeError (list IpRange) :=
  collect (((λ '(network, prefix), IpRange_new (V4 network) prefix) <$> ipv4_denied) ++
           ((λ '(network, prefix), IpRange_new (V6 network) prefix) <$> ipv6_denied)).

Record IpPolicy := { ip_host_denied_ranges : list IpRange }.

Definition IpPolicy_strict (additional_ranges : list IpRange) : result IpRangeError IpPolicy :=
  host_denied_ranges ← built_in_denied_ranges;
  Ok {| ip_host_denied_ranges := host_denied_ranges ++ additional_ranges |}.

Definition is_host_denied (self : IpPolicy) (address : IpAddr) : bool :=
  existsb (λ range, IpRange_contains range address) (ip_host_denied_ranges self).

Definition is_denied (self : IpPolicy) (address : IpAddr) : bool :=
  match address with
  | V4 address => is_host_denied self (V4 address)
  | V6 address => bool_decide (is_Some (to_ipv4 address)) || is_host_denied self (V6 address)
  end.

Inductive IpPolicyError :=
  | EmptyAnswer
  | DeniedAnswer.

Definition validate_dns_answer (self : IpPolicy) (addresses : list IpAddr)
    : result IpPolicyError IpAddr :=
  first ← ok_or (head addresses) EmptyAnswer;
  if existsb (is_denied self) addresses then Err DeniedAnswer else Ok first.

(** ** Reference definitions *)

Definition IpAddr_bits (address : IpAddr) : N := match address with V4 _ => 32%N | V6 _ => 128%N end.
Definition IpAddr_value (address : IpAddr) : N := match address with V4 a | V6 a => a end.
Definition IpAddr_wf (address : IpAddr) : Prop := (IpAddr_value address < 2 ^ IpAddr_bits address)%N.

(** The first [prefix_length] bits of two addresses of one family agree. *)
Definition same_prefix (prefix_length : N) (a b : IpAddr) : Prop :=
  IpAddr_bits a = IpAddr_bits b ∧
  N.shiftr (IpAddr_value a) (IpAddr_bits a - prefix_length) =
  N.shiftr (IpAddr_value b) (IpAddr_bits a - prefix_length).

(** ** The special-purpose blocks

    The table of [docs/egress-broker/network-policy.md], by first and last address: what a
    public fetch must never reach.  For NAT64 the table names [64:ff9b::/96] and
    [64:ff9b:1::/48]; the block below is the one the code denies ([local_nat64_is_permitted]). *)

Definition v4_registry : list (N * N) :=
  [(Ipv4Addr_new 0 0 0 0, Ipv4Addr_new 0 255 255 255);         (* unspecified *)
   (Ipv4Addr_new 10 0 0 0, Ipv4Addr_new 10 255 255 255);       (* private *)
   (Ipv4Addr_new 172 16 0 0, Ipv4Addr_new 172 31 255 255);     (* private *)
   (Ipv4Addr_new 192 168 0 0, Ipv4Addr_new 192 168 255 255);   (* private *)
   (Ipv4Addr_new 100 64 0 0, Ipv4Addr_new 100 127 255 255);    (* shared, CGNAT *)
   (Ipv4Addr_new 127 0 0 0, Ipv4Addr_new 127 255 255 255);     (* loopback *)
   (Ipv4Addr_new 169 254 0 0, Ipv4Addr_new 169 254 255 255);   (* link-local *)
   (Ipv4Addr_new 192 0 0 0, Ipv4Addr_new 192 0 0 255);         (* protocol assignments *)
   (Ipv4Addr_new 192 0 2 0, Ipv4Addr_new 192 0 2 255);         (* documentation *)
   (Ipv4Addr_new 198 51 100 0, Ipv4Addr_new 198 51 100 255);   (* documentation *)
   (Ipv4Addr_new 203 0 113 0, Ipv4Addr_new 203 0 113 255);     (* documentation *)
   (Ipv4Addr_new 192 31 196 0, Ipv4Addr_new 192 31 196 255);   (* AS112 *)
   (Ipv4Addr_new 192 52 193 0, Ipv4Addr_new 192 52 193 255);   (* AMT *)
   (Ipv4Addr_new 192 175 48 0, Ipv4Addr_new 192 175 48 255);   (* AS112 *)
   (Ipv4Addr_new 192 88 99 0, Ipv4Addr_new 192 88 99 255);     (* 6to4 relay anycast *)
   (Ipv4Addr_new 198 18 0 0, Ipv4Addr_new 198 19 255 255);     (* benchmarking *)
   (Ipv4Addr_new 224 0 0 0, Ipv4Addr_new 239 255 255 255);     (* multicast *)
   (Ipv4Addr_new 240 0 0 0, Ipv4Addr_new 255 255 255 255)].    (* reserved *)

(** The last address of the block in which the first [n] segments are fixed. *)
Definition Ipv6Addr_last (fixed : list N) : N :=
  foldl (λ acc s, acc * 65536 + s)%N 0%N (fixed ++ replicate (8 - length fixed) 0xffff%N).

Definition v6_registry : list (N * N) :=
  [(Ipv6Addr_new 0 0 0 0 0 0 0 0, Ipv6Addr_last [0; 0; 0; 0; 0; 0]);            (* unspecified, loopback, IPv4-compatible *)
   (Ipv6Addr_new 0 0 0 0 0 0xffff 0 0, Ipv6Addr_last [0; 0; 0; 0; 0; 0xffff]);  (* IPv4-mapped *)
   (Ipv6Addr_new 0x64 0xff9b 0 0 0 0 0 0, Ipv6Addr_last [0x64; 0xff9b; 0]);     (* NAT64 *)
   (Ipv6Addr_new 0x100 0 0 0 0 0 0 0, Ipv6Addr_last [0x100; 0; 0; 0]);          (* discard-only *)
   (Ipv6Addr_new 0x100 0 0 1 0 0 0 0, Ipv6Addr_last [0x100; 0; 0; 1]);          (* dummy prefix *)
   (Ipv6Addr_new 0x2001 0 0 0 0 0 0 0, Ipv6Addr_last [0x2001; 0x1ff]);          (* protocol assignments *)
   (Ipv6Addr_new 0x2001 0xdb8 0 0 0 0 0 0, Ipv6Addr_last [0x2001; 0xdb8]);      (* documentation *)
   (Ipv6Addr_new 0x2002 0 0 0 0 0 0 0, Ipv6Addr_last [0x2002]);                 (* 6to4 *)
   (Ipv6Addr_new 0x2620 0x4f 0x8000 0 0 0 0 0, Ipv6Addr_last [0x2620; 0x4f; 0x8000]);
   (Ipv6Addr_new 0x3fff 0 0 0 0 0 0 0, Ipv6Addr_last [0x3fff; 0xfff]);          (* documentation *)
   (Ipv6Addr_new 0x5f00 0 0 0 0 0 0 0, Ipv6Addr_last [0x5f00]);                 (* segment routing *)
   (Ipv6Addr_new 0xfc00 0 0 0 0 0 0 0, Ipv6Addr_last [0xfdff]);                 (* unique local *)
   (Ipv6Addr_new 0xfe80 0 0 0 0 0 0 0, Ipv6Addr_last [0xfebf]);                 (* link-local *)
   (Ipv6Addr_new 0xff00 0 0 0 0 0 0 0, Ipv6Addr_last [0xffff])]%N.              (* multicast *)

Definition in_blocks (blocks : list (N * N)) (address : N) : Prop :=
  ∃ lo hi, (lo, hi) ∈ blocks ∧ (lo <= address <= hi)%N.

Definition special (address : IpAddr) : Prop :=
  match address with V4 a => in_blocks v4_registry a | V6 a => in_blocks v6_registry a end.

(** ** Masks *)

Lemma land_prefix_mask w value k :
  (value < 2 ^ w)%N → (k < w)%N →
  N.land value (N.shiftl (2 ^ w - 1) k mod 2 ^ w) = N.shiftl (N.shiftr value k) k.
Proof.
  intros Hv Hk. apply N.bits_inj. intros i. rewrite N.land_spec.
  destruct (N.lt_ge_cases i k) as [Hi|Hi].
  - rewrite N.shiftl_spec_low by done.
    destruct (N.lt_ge_cases i w) as [Hw|Hw]; [|lia].
    rewrite N.mod_pow2_bits_low, N.shiftl_spec_low by lia. apply andb_false_r.
  - rewrite N.shiftl_spec_high' by done. rewrite N.shiftr_spec'. rewrite N.sub_add by done.
    destruct (N.lt_ge_cases i w) as [Hw|Hw].
    + rewrite N.mod_pow2_bits_low, N.shiftl_spec_high' by lia.
      replace (2 ^ w - 1)%N with (N.ones w) by (rewrite N.ones_equiv; lia).
      rewrite N.ones_spec_low by lia. apply andb_true_r.
    + rewrite N.mod_pow2_bits_high by lia. rewrite andb_false_r. symmetry.
      destruct (N.eq_0_gt_0_cases value) as [->|Hpos]; [apply N.bits_0|].
      apply N.bits_above_log2. apply N.log2_lt_pow2; [lia|].
      eapply N.lt_le_trans; [exact Hv|]. apply N.pow_le_mono_r; lia.
Qed.

Lemma shiftr_above w value : (value < 2 ^ w)%N → N.shiftr value w = 0%N.
Proof. intros. rewrite N.shiftr_div_pow2. by apply N.div_small. Qed.

Lemma mask_v4_prefix address p :
  (address < 2 ^ 32)%N → (p <= 32)%N →
  mask_v4 address p = N.shiftl (N.shiftr address (32 - p)) (32 - p).
Proof.
  intros Ha Hp. unfold mask_v4, checked_shl. destruct (N.eqb_spec p 0) as [->|Hne].
  - by rewrite N.sub_0_r, shiftr_above, N.shiftl_0_l.
  - destruct (N.ltb_spec (32 - p) 32) as [Hk|]; [|lia]. cbn [default from_option].
    by apply land_prefix_mask.
Qed.

Lemma mask_v6_prefix address p :
  (address < 2 ^ 128)%N → (p <= 128)%N →
  mask_v6 address p = N.shiftl (N.shiftr address (128 - p)) (128 - p).
Proof.
  intros Ha Hp. unfold mask_v6, checked_shl. destruct (N.eqb_spec p 0) as [->|Hne].
  - by rewrite N.sub_0_r, shiftr_above, N.shiftl_0_l.
  - destruct (N.ltb_spec (128 - p) 128) as [Hk|]; [|lia]. cbn [default from_option].
    by apply land_prefix_mask.
Qed.

Lemma shiftl_inj x y k : N.shiftl x k = N.shiftl y k ↔ x = y.
Proof.
  rewrite !N.shiftl_mul_pow2. split; [|by intros ->]. intros H.
  apply N.mul_cancel_r in H; [done|]. by apply N.pow_nonzero.
Qed.

(** [IpRange::contains] is the comparison of the leading [prefix_length] bits. *)
Lemma IpRange_contains_spec network p range address :
  IpRange_new network p = Ok range → IpAddr_wf network → IpAddr_wf address →
  IpRange_contains range address = true ↔ same_prefix p network address.
Proof.
  unfold IpRange_new, IpAddr_wf, same_prefix. intros Hnew Hn Ha.
  destruct (N.ltb_spec (match network with V4 _ => 32 | V6 _ => 128 end)%N p) as [|Hp]; [done|].
  injection Hnew as <-. unfold IpRange_contains. cbn [ir_network ir_prefix_length].
  destruct network as [n|n], address as [a|a]; cbn [mask_address IpAddr_bits IpAddr_value] in *;
    try (split; [done|by intros [[=] _]]).
  - rewrite N.eqb_eq, !mask_v4_prefix, shiftl_inj by done. naive_solver.
  - rewrite N.eqb_eq, !mask_v6_prefix, shiftl_inj by done. naive_solver.
Qed.

(** The built-in ranges as addresses with prefix lengths. *)
Definition denied_networks : list (IpAddr * N) :=
  ((λ '(network, prefix), (V4 network, prefix)) <$> ipv4_denied) ++
  ((λ '(network, prefix), (V6 network, prefix)) <$> ipv6_denied).

Lemma built_in_ok :
  ∃ built_in, built_in_denied_ranges = Ok built_in ∧
    ∀ network p, (network, p) ∈ denied_networks →
      ∃ range, range ∈ built_in ∧ IpRange_new network p = Ok range ∧ IpAddr_wf network.
Proof.
  assert (built_in_denied_ranges = collect ((λ np, IpRange_new np.1 np.2) <$> denied_networks)) as ->
    by reflexivity.
  assert (Forall (λ np, is_ok (IpRange_new np.1 np.2) = true) denied_networks) as Hall
    by (repeat constructor).
  assert (Forall (λ np, IpAddr_wf np.1) denied_networks) as Hwf by (repeat constructor).
  destruct (collect_ok _ _ Hall) as (r & Hr & Hin). exists r. split; [done|]. intros network p Hnp.
  rewrite Forall_forall in Hall, Hwf. specialize (Hall _ Hnp). specialize (Hwf _ Hnp). simpl in *.
  destruct (IpRange_new network p) as [range|] eqn:Hnew; [|done].
  exists range. split; [|done]. by apply (Hin _ _ Hnp).
Qed.

Lemma strict_ok extra :
  ∃ built_in, built_in_denied_ranges = Ok built_in ∧
    IpPolicy_strict extra = Ok {| ip_host_denied_ranges := built_in ++ extra |}.
Proof.
  destruct built_in_ok as (b & Hb & _). exists b. split; [done|]. unfold IpPolicy_strict. by rewrite Hb.
Qed.

(** ** The policy denies exactly the special blocks and the host's ranges *)

(** The block of a prefix. *)
Definition prefix_block (bits : N) (np : N * N) : N * N :=
  let k := (bits - np.2)%N in
  let lo := N.shiftl (N.shiftr np.1 k) k in (lo, lo + (2 ^ k - 1))%N.

Lemma shiftr_block n a k :
  N.shiftr n k = N.shiftr a k ↔
  (N.shiftl (N.shiftr n k) k <= a <= N.shiftl (N.shiftr n k) k + (2 ^ k - 1))%N.
Proof.
  rewrite N.shiftl_mul_pow2, !N.shiftr_div_pow2.
  assert (2 ^ k ≠ 0)%N as Hk by (by apply N.pow_nonzero).
  generalize (n / 2 ^ k)%N as q. intros q. split.
  - intros ->. pose proof (N.Div0.mul_div_le a (2 ^ k)). pose proof (N.mul_succ_div_gt a (2 ^ k) Hk). lia.
  - intros [Hlo Hhi]. apply (N.div_unique a (2 ^ k) q (a - q * 2 ^ k)%N); lia.
Qed.

Lemma same_prefix_block np address :
  same_prefix np.2 (V4 np.1) (V4 address) ↔ in_blocks [prefix_block 32 np] address.
Proof.
  unfold same_prefix, in_blocks, prefix_block. cbn [IpAddr_bits IpAddr_value]. rewrite shiftr_block. split.
  - intros [_ H]. eexists _, _. split; [by apply list_elem_of_singleton|exact H].
  - intros (lo & hi & H%list_elem_of_singleton & Hb). injection H as -> ->. done.
Qed.

Lemma same_prefix_block6 np address :
  same_prefix np.2 (V6 np.1) (V6 address) ↔ in_blocks [prefix_block 128 np] address.
Proof.
  unfold same_prefix, in_blocks, prefix_block. cbn [IpAddr_bits IpAddr_value]. rewrite shiftr_block. split.
  - intros [_ H]. eexists _, _. split; [by apply list_elem_of_singleton|exact H].
  - intros (lo & hi & H%list_elem_of_singleton & Hb). injection H as -> ->. done.
Qed.

(** Every block of the first list lies in one of the second. *)
Definition covered (blocks others : list (N * N)) : bool :=
  forallb (λ '(lo, hi), existsb (λ '(lo', hi'), (lo' <=? lo)%N && (hi <=? hi')%N) others) blocks.

Lemma covered_in blocks others address : covered blocks others = true → in_blocks blocks address → in_blocks others address.
Proof.
  unfold covered. rewrite forallb_forall. intros H (lo & hi & Hin%list_elem_of_In & Hb).
  specialize (H _ Hin). cbn in H. apply existsb_exists in H as ([lo' hi'] & Hin' & Hc). breflect.
  exists lo', hi'. split; [by apply list_elem_of_In|lia].
Qed.

Lemma in_blocks_fmap {A} (f : A → N * N) (l : list A) address :
  in_blocks (f <$> l) address ↔ ∃ x, x ∈ l ∧ in_blocks [f x] address.
Proof.
  unfold in_blocks. split.
  - intros (lo & hi & (x & Hx & Hin)%list_elem_of_fmap & Hb). exists x. split; [done|]. exists lo, hi. rewrite Hx.
    split; [by apply list_elem_of_singleton|done].
  - intros (x & Hin & lo & hi & Hx%list_elem_of_singleton & Hb). exists lo, hi. split; [|done]. rewrite Hx.
    by apply list_elem_of_fmap_2.
Qed.

(** What the built-in ranges contain. *)
Lemma built_in_contains b address :
  built_in_denied_ranges = Ok b → IpAddr_wf address →
  existsb (λ range, IpRange_contains range address) b = true ↔
  ∃ network p, (network, p) ∈ denied_networks ∧ same_prefix p network address.
Proof.
  intros Hb Hwf. assert (collect ((λ np, IpRange_new np.1 np.2) <$> denied_networks) = Ok b) as Hc by done.
  assert (Forall (λ np, IpAddr_wf np.1) denied_networks) as Hn by (repeat constructor). rewrite Forall_forall in Hn.
  apply collect_Ok in Hc. rewrite existsb_exists. split.
  - intros (range & Hin%list_elem_of_In & Hr). apply list_elem_of_lookup in Hin as [i Hi].
    destruct (Forall2_lookup_r _ _ _ _ _ Hc Hi) as ([network p] & Hnp & Hnew). cbn in Hnew.
    exists network, p. pose proof (list_elem_of_lookup_2 _ _ _ Hnp) as Hin. split; [done|].
    apply (IpRange_contains_spec network p range); [done|by apply (Hn _ Hin)|done|done].
  - intros (network & p & Hin & Hp). pose proof Hin as Hin'. apply list_elem_of_lookup in Hin' as [i Hi].
    destruct (Forall2_lookup_l _ _ _ _ _ Hc Hi) as (range & Hr & Hnew). cbn in Hnew. exists range.
    split; [by eapply list_elem_of_In, list_elem_of_lookup_2|].
    apply (IpRange_contains_spec network p range); [done|by apply (Hn _ Hin)|done|done].
Qed.

Lemma denied_v4 address :
  (∃ network p, (network, p) ∈ denied_networks ∧ same_prefix p network (V4 address)) ↔ in_blocks v4_registry address.
Proof.
  transitivity (in_blocks (prefix_block 32 <$> ipv4_denied) address).
  - rewrite in_blocks_fmap. unfold denied_networks. split.
    + intros (network & p & [(np & Hx & Hin)%list_elem_of_fmap|(np & Hx & Hin)%list_elem_of_fmap]%elem_of_app & Hp);
        destruct np as [n q]; injection Hx as -> ->; [|by destruct Hp].
      exists (n, q). split; [done|]. by apply (same_prefix_block (n, q)).
    + intros ([n q] & Hin & Hp). exists (V4 n), q. split; [|by apply (same_prefix_block (n, q))].
      apply elem_of_app. left. apply list_elem_of_fmap. by exists (n, q).
  - split; apply covered_in; by vm_compute.
Qed.

(** The segments as digits in base 65536. *)
Lemma segments_digits a :
  segments a =
  [a / 4294967296 / 65536 / 65536 / 65536 / 65536 / 65536 mod 65536;
   a / 4294967296 / 65536 / 65536 / 65536 / 65536 mod 65536;
   a / 4294967296 / 65536 / 65536 / 65536 mod 65536;
   a / 4294967296 / 65536 / 65536 mod 65536;
   a / 4294967296 / 65536 mod 65536;
   a / 4294967296 mod 65536; a / 65536 mod 65536; a mod 65536]%N.
Proof.
  rewrite !N.Div0.div_div. unfold segments. cbn [seq fmap list_fmap].
  change 65535%N with (N.ones 16). rewrite !N.land_ones, !N.shiftr_div_pow2.
  repeat match goal with |- context [(2 ^ ?k)%N] =>
    let v := eval vm_compute in (2 ^ k)%N in change (2 ^ k)%N with v end.
  rewrite N.div_1_r. reflexivity.
Qed.

Lemma digits_zero n : (n mod 65536 = 0 → n / 65536 = 0 → n = 0)%N.
Proof. intros. rewrite (N.div_mod' n 65536). lia. Qed.

(** [to_ipv4] recognises exactly the addresses below [::/96] and [::ffff:0:0/96]. *)
Lemma to_ipv4_spec a :
  (a < 2 ^ 128)%N → is_Some (to_ipv4 a) ↔ (a / 4294967296 = 0 ∨ a / 4294967296 = 65535)%N.
Proof.
  intros Ha. unfold to_ipv4. rewrite segments_digits.
  assert (a / 4294967296 < 65536 * 65536 * 65536 * 65536 * 65536 * 65536)%N as Hb.
  { apply N.Div0.div_lt_upper_bound. exact Ha. }
  generalize dependent (a / 4294967296)%N. intros b Hb.
  case_match eqn:E.
  - split; [intros _|done]. breflect. destruct_and!.
    assert (b / 65536 / 65536 / 65536 / 65536 / 65536 / 65536 = 0)%N as Htop.
    { rewrite !N.Div0.div_div. by apply N.div_small. }
    assert (b / 65536 = 0)%N by auto 10 using digits_zero.
    pose proof (N.div_mod' b 65536). naive_solver lia.
  - split; [by intros [??]|]. intros Hb'. exfalso.
    destruct Hb' as [->| ->]; vm_compute in E; done.
Qed.

(** The two forms that embed an IPv4 address. *)
Definition embedded_v4 : list (N * N) :=
  [(0%N, Ipv6Addr_last [0; 0; 0; 0; 0; 0]%N);
   (Ipv6Addr_new 0 0 0 0 0 0xffff 0 0, Ipv6Addr_last [0; 0; 0; 0; 0; 0xffff]%N)].

Lemma to_ipv4_blocks a : (a < 2 ^ 128)%N → is_Some (to_ipv4 a) ↔ in_blocks embedded_v4 a.
Proof.
  intros Ha. rewrite (to_ipv4_spec a Ha). unfold in_blocks, embedded_v4. split.
  - intros Hd. pose proof (N.Div0.mul_div_le a 4294967296). pose proof (N.mul_succ_div_gt a 4294967296 ltac:(done)).
    destruct Hd as [Hd|Hd]; rewrite Hd in *.
    + eexists _, _. split; [left|]. change (Ipv6Addr_last [0; 0; 0; 0; 0; 0]%N) with 4294967295%N. lia.
    + eexists _, _. split; [right; left|].
      change (Ipv6Addr_new 0 0 0 0 0 0xffff 0 0) with 281470681743360%N.
      change (Ipv6Addr_last [0; 0; 0; 0; 0; 0xffff]%N) with 281474976710655%N. lia.
  - intros (lo & hi & [Heq|[Heq|Heq%not_elem_of_nil]%elem_of_cons]%elem_of_cons & Hb); [| |done]; injection Heq as -> ->.
    + left. change (Ipv6Addr_last [0; 0; 0; 0; 0; 0]%N) with 4294967295%N in Hb. apply N.div_small. lia.
    + right. change (Ipv6Addr_new 0 0 0 0 0 0xffff 0 0) with 281470681743360%N in Hb.
      change (Ipv6Addr_last [0; 0; 0; 0; 0; 0xffff]%N) with 281474976710655%N in Hb.
      symmetry. apply (N.div_unique a 4294967296 65535 (a - 281470681743360)%N); lia.
Qed.

Lemma denied_v6 address :
  (address < 2 ^ 128)%N →
  is_Some (to_ipv4 address) ∨
  (∃ network p, (network, p) ∈ denied_networks ∧ same_prefix p network (V6 address)) ↔ in_blocks v6_registry address.
Proof.
  intros Ha. rewrite (to_ipv4_blocks address Ha).
  transitivity (in_blocks (embedded_v4 ++ (prefix_block 128 <$> ipv6_denied)) address).
  - transitivity (in_blocks embedded_v4 address ∨ in_blocks (prefix_block 128 <$> ipv6_denied) address).
    2: { unfold in_blocks. setoid_rewrite elem_of_app. naive_solver. }
    apply or_iff_compat_l. rewrite in_blocks_fmap. unfold denied_networks. split.
    + intros (network & p & [(np & Hx & Hin)%list_elem_of_fmap|(np & Hx & Hin)%list_elem_of_fmap]%elem_of_app & Hp);
        destruct np as [n q]; injection Hx as -> ->; [by destruct Hp|].
      exists (n, q). split; [done|]. by apply (same_prefix_block6 (n, q)).
    + intros ([n q] & Hin & Hp). exists (V6 n), q. split; [|by apply (same_prefix_block6 (n, q))].
      apply elem_of_app. right. apply list_elem_of_fmap. by exists (n, q).
  - split; apply covered_in; by vm_compute.
Qed.

(** The strict policy denies the special blocks and the host's ranges, and nothing else. *)
Lemma denied_exact extra policy address :
  IpPolicy_strict extra = Ok policy → IpAddr_wf address →
  is_denied policy address = true ↔ special address ∨ ∃ range, range ∈ extra ∧ IpRange_contains range address = true.
Proof.
  intros Hp Hwf. destruct (strict_ok extra) as (b & Hb & Hs). rewrite Hs in Hp. injection Hp as <-.
  pose proof (built_in_contains b address Hb Hwf) as Hbuilt.
  assert (Hextra : existsb (λ range, IpRange_contains range address) extra = true ↔
    ∃ range, range ∈ extra ∧ IpRange_contains range address = true).
  { rewrite existsb_exists. setoid_rewrite list_elem_of_In. done. }
  destruct address as [a|a]; cbn [is_denied special]; unfold is_host_denied; cbn [ip_host_denied_ranges].
  - by rewrite existsb_app, orb_true_iff, Hbuilt, Hextra, denied_v4.
  - rewrite existsb_app, !orb_true_iff, bool_decide_eq_true, Hbuilt, Hextra, <- (denied_v6 a Hwf). tauto.
Qed.

Lemma special_denied extra policy address :
  IpPolicy_strict extra = Ok policy → IpAddr_wf address → special address →
  is_denied policy address = true.
Proof. intros Hp Hwf Hs. apply (denied_exact extra policy address Hp Hwf). by left. Qed.

Lemma extra_denied extra policy range address :
  IpPolicy_strict extra = Ok policy → range ∈ extra → IpRange_contains range address = true →
  is_denied policy address = true.
Proof.
  intros Hp Hin Hc. destruct (strict_ok extra) as (b & _ & Hs). rewrite Hs in Hp. injection Hp as <-.
  assert (is_host_denied {| ip_host_denied_ranges := b ++ extra |} address = true) as Hd.
  { apply existsb_exists. exists range. split; [|done]. apply list_elem_of_In, elem_of_app. by right. }
  destruct address; cbn [is_denied]; rewrite Hd; [done|apply orb_true_r].
Qed.

(** The local-use NAT64 prefix [64:ff9b:1::/48] is not denied: the row meant for it is written
    [64:ff9b:0:1::/48], which masks to [64:ff9b::/48].  So [64:ff9b:1::7f00:1], which embeds
    127.0.0.1, passes as a public answer. *)
Theorem local_nat64_is_permitted :
  let nat64 := V6 (Ipv6Addr_new 0x64 0xff9b 1 0 0 0 0x7f00 1) in
  match IpPolicy_strict [] with
  | Ok policy => validate_dns_answer policy [nat64] = Ok nat64
  | Err _ => False
  end.
Proof. vm_compute. reflexivity. Qed.

Lemma validate_dns_answer_spec policy answer address :
  validate_dns_answer policy answer = Ok address ↔
  head answer = Some address ∧ ∀ a, a ∈ answer → is_denied policy a = false.
Proof.
  unfold validate_dns_answer. destruct (head answer) as [first|]; simpl; [|naive_solver].
  destruct (existsb (is_denied policy) answer) eqn:E.
  - apply existsb_exists in E as (a & Hin%list_elem_of_In & Ha). split; [done|]. intros [_ H].
    rewrite (H a Hin) in Ha. done.
  - split.
    + intros [= <-]. split; [done|]. intros a Hin. destruct (is_denied policy a) eqn:Ha; [|done].
      rewrite <- E. symmetry. apply existsb_exists. exists a. by rewrite <- list_elem_of_In.
    + by intros [[= ->] _].
Qed.

(** A range is constructed exactly when its prefix length fits the address
    family, and then contains exactly the addresses of the same family whose
    leading [prefix_length] bits are those of the given network, for every width
    from 0 to 32 and to 128. *)
Theorem ip_range_contains_exact network p :
  IpAddr_wf network →
  match IpRange_new network p with
  | Ok range => (p <= IpAddr_bits network)%N ∧
      ∀ address, IpAddr_wf address →
        IpRange_contains range address = true ↔ same_prefix p network address
  | Err e => (IpAddr_bits network < p)%N ∧ e = PrefixTooLarge p (IpAddr_bits network)
  end.
Proof.
  intros Hn. destruct (IpRange_new network p) as [range|e] eqn:Hnew.
  - split; [|intros; by apply IpRange_contains_spec]. revert Hnew. unfold IpRange_new, IpAddr_bits.
    case_match eqn:E; [done|]. by breflect.
  - revert Hnew. unfold IpRange_new, IpAddr_bits. case_match eqn:E; [|done]. intros [= <-].
    by breflect.
Qed.

Lemma ip_range_contains_exact_witness :
  let network := V4 (Ipv4Addr_new 198 18 7 9) in
  let address := V4 (Ipv4Addr_new 198 19 255 255) in
  IpAddr_wf network ∧
  match IpRange_new network 15 with
  | Ok range => IpRange_contains range address = true ↔ same_prefix 15 network address
  | Err _ => False
  end.
Proof.
  intros network address. split; [by vm_compute|].
  pose proof (ip_range_contains_exact network 15 ltac:(by vm_compute)) as H.
  change (IpRange_new network 15) with
    (Ok {| ir_network := V4 (Ipv4Addr_new 198 18 0 0); ir_prefix_length := 15 |} : result IpRangeError _)
    in *.
  apply (proj2 H address). by vm_compute.
Defined.

(** The strict policy always exists, keeps its built-in ranges whatever the host
    adds, and treats a DNS answer as a set: the answer yields its first address
    exactly when it has one and no address of it is denied; in that case no
    address at all lies in a special-purpose block ([special]) or in a range of the host. *)
Theorem dns_answer_is_public extra answer :
  Forall IpAddr_wf answer →
  ∃ policy, IpPolicy_strict extra = Ok policy ∧
    (∀ address, validate_dns_answer policy answer = Ok address ↔
       head answer = Some address ∧ ∀ a, a ∈ answer → is_denied policy a = false) ∧
    (is_ok (validate_dns_answer policy answer) = true →
       ∀ a, a ∈ answer →
         ~ special a ∧ ∀ range, range ∈ extra → IpRange_contains range a = false).
Proof.
  intros Hwf. destruct (strict_ok extra) as (b & _ & Hs). eexists. split; [exact Hs|].
  split; [intros; apply validate_dns_answer_spec|].
  intros Hok a Hin. destruct (validate_dns_answer _ answer) as [address|] eqn:Hv; [|done].
  apply validate_dns_answer_spec in Hv as [_ Hall]. specialize (Hall a Hin).
  rewrite Forall_forall in Hwf. specialize (Hwf a Hin). split.
  - intros Hsp. rewrite (special_denied _ _ _ Hs Hwf Hsp) in Hall. done.
  - intros range Hr. destruct (IpRange_contains range a) eqn:Hc; [|done].
    rewrite (extra_denied _ _ _ _ Hs Hr Hc) in Hall. done.
Qed.

(** 93.184.216.34 alone is accepted; together with 127.0.0.1 it is refused. *)
Lemma dns_answer_is_public_witness :
  let public := V4 (Ipv4Addr_new 93 184 216 34) in
  let loopback := V4 (Ipv4Addr_new 127 0 0 1) in
  match IpPolicy_strict [] with
  | Ok policy =>
      validate_dns_answer policy [public] = Ok public ∧
      validate_dns_answer policy [public; loopback] = Err DeniedAnswer
  | Err _ => False
  end ∧
  ∃ policy, IpPolicy_strict [] = Ok policy ∧
    (is_ok (validate_dns_answer policy [public]) = true → ~ special public).
Proof.
  intros public loopback. split; [by vm_compute|].
  destruct (dns_answer_is_public [] [public]) as (policy & Hp & _ & Hok).
  { repeat constructor. }
  exists policy. split; [exact Hp|]. intros H. apply (Hok H public). left.
Defined.
