(* ===== verification/PublicFetch.v ===== *)
(** * Public HTTPS fetches ([crates/egress-broker/src/public_fetch.rs])

    The redirect-following fetch with its policy checks.  The clock, the resolver
    pool and the connector are operations on an environment state; the [url] crate is
    the argument [join].  Times are nanoseconds.  The state also carries the
    connector calls made so far, a history no definition reads. *)

From S2P Require Import Prelude Bytes Http Response IpPolicy.

Definition DEFAULT_MAX_REDIRECTS : N := 5.
Definition DEFAULT_MAX_RESPONSE_BYTES : N := 32 * 1024 * 1024.
Definition HTTPS_PORT : N := 443.
Definition MAX_REDIRECT_LOCATION_BYTES : N := 8 * 1024.
Definition MAX_TOTAL_TIMEOUT : N := 60 * 10 ^ 9.
Definition MAX_DNS_ANSWER_IPS : N := 32.

Record FetchTarget := { ft_host : CanonicalHost; ft_path : CanonicalUrlPath }.

(** The body stream is what its reads return: [None] is a failing read, the end of
    the list a read of zero bytes. *)
Record ConnectorResponse := {
  cnr_status : N;
  cnr_location : option str;
  cnr_body : list (option str);
}.

Inductive ResolveError :=
  | LookupFailed
  | ResolverUnavailable
  | AnswerLimitExceeded.

Inductive ConnectorError :=
  | ClientBuildFailed
  | RequestFailed
  | InvalidLocationHeader.

Inductive FetchError :=
  | OperationRejected
  | RedirectRejected
  | RedirectLimitExceeded
  | MissingRedirectLocation
  | Fetch_Resolve (error : ResolveError)
  | Fetch_IpPolicy (error : IpPolicyError)
  | Fetch_Connect (error : ConnectorError)
  | ResponseTooLarge (limit : N)
  | OverallTimeout
  | ResponseRead
  | InvalidResponse.

Record FetchPolicy := {
  fp_max_redirects : N;
  fp_max_response_bytes : N;
  fp_total_timeout : N;
}.

Definition FetchPolicy_default : FetchPolicy :=
  {| fp_max_redirects := DEFAULT_MAX_REDIRECTS; fp_max_response_bytes := DEFAULT_MAX_RESPONSE_BYTES;
     fp_total_timeout := 60 * 10 ^ 9 |}.

(** ** Responses *)

Record PublicResponse := { pr_wire : PublicWireResponse }.

#[export] Instance IpPolicyError_eq_dec : EqDecision IpPolicyError.
Proof. solve_decision. Defined.
#[export] Instance ResolveError_eq_dec : EqDecision ResolveError.
Proof. solve_decision. Defined.
#[export] Instance ConnectorError_eq_dec : EqDecision ConnectorError.
Proof. solve_decision. Defined.
#[export] Instance FetchError_eq_dec : EqDecision FetchError.
Proof. solve_decision. Defined.
#[export] Instance PublicResponse_eq_dec : EqDecision PublicResponse.
Proof. solve_decision. Defined.

Definition PublicResponse_new (status : N) (host : CanonicalHost) (path : CanonicalUrlPath) (body : str)
    : result FetchError PublicResponse :=
  wire ← map_err (λ _, InvalidResponse) (PublicWireResponse_new status host path body);
  Ok {| pr_wire := wire |}.

Definition PublicResponse_body (self : PublicResponse) : str := pwr_body (pr_wire self).

Definition validate_dispatch (self : PublicResponse) (request : HttpFetchRequest)
    (authority : HttpFetchAuthority) : bool :=
  let body_fits := (len (PublicResponse_body self) <=? hr_max_response_bytes request)%N in
  let method_body_matches :=
    negb (bool_decide (hr_method request = Head)) || bool_decide (PublicResponse_body self = []) in
  let final_request :=
    {| hr_method := hr_method request; hr_host := pwr_host (pr_wire self); hr_path := pwr_path (pr_wire self);
       hr_max_response_bytes := hr_max_response_bytes request |} in
  body_fits && method_body_matches && http_fetch_matches authority final_request.

(** ** Redirects *)

(** The parts of a parsed URL. *)
Record Url := {
  url_scheme : str;
  url_username : str;
  url_password : option str;
  url_port : option N;
  url_query : option str;
  url_fragment : option str;
  url_host : option str;
  url_path : str;
}.

Definition is_redirect (status : N) : bool :=
  (status =? 301)%N || (status =? 302)%N || (status =? 303)%N || (status =? 307)%N || (status =? 308)%N.

(** [Url::parse] of the base followed by [join] with the location: [None] is a
    failing parse. *)
Definition redirect_target (join : str → str → option Url) (current : FetchTarget) (location : str)
    : result FetchError FetchTarget :=
  if bool_decide (location = [])
     || existsb (λ b, bool_decide (b = chr "%")) location
     || existsb (λ b, bool_decide (b = chr "\")) location
     || existsb is_ascii_control location
  then Err RedirectRejected
  else
    url ← ok_or (join (lit "https://" ++ ch_name (ft_host current) ++ CanonicalUrlPath_to_string (ft_path current))
                   location) RedirectRejected;
    if negb (bool_decide (url_scheme url = lit "https"))
       || negb (bool_decide (url_username url = []))
       || bool_decide (is_Some (url_password url))
       || match url_port url with Some port => negb (port =? HTTPS_PORT)%N | None => false end
       || bool_decide (is_Some (url_query url))
       || bool_decide (is_Some (url_fragment url))
    then Err RedirectRejected
    else
      value ← ok_or (url_host url) RedirectRejected;
      host ← map_err (λ _, RedirectRejected) (CanonicalHost_new value);
      let path_text := if bool_decide (url_path url = []) then lit "/" else url_path url in
      path ← map_err (λ _, RedirectRejected) (CanonicalUrlPath_new path_text);
      Ok {| ft_host := host; ft_path := path |}.

(** The worker's bound on an answer. *)
Definition bound_dns_answer (addresses : list IpAddr) : result ResolveError (list IpAddr) :=
  if (MAX_DNS_ANSWER_IPS <? N.of_nat (length addresses))%N then Err AnswerLimitExceeded else Ok addresses.

(** How one lookup in the worker pool ends: the fetcher's one permit is taken, the
    pool refuses, the resolver answers (a panic is [LookupFailed]), the caller stops
    waiting, or the worker is gone. *)
Inductive Resolution :=
  | PermitTaken
  | PoolRefused
  | Answered (answer : result ResolveError (list IpAddr))
  | TimedOut
  | Disconnected.

Definition resolution_result (resolution : Resolution) : result FetchError (list IpAddr) :=
  match resolution with
  | PermitTaken => Err (Fetch_Resolve ResolverUnavailable)
  | PoolRefused => Err (Fetch_Resolve ResolverUnavailable)
  | Answered answer => map_err Fetch_Resolve (addresses ← answer; bound_dns_answer addresses)
  | TimedOut => Err OverallTimeout
  | Disconnected => Err (Fetch_Resolve LookupFailed)
  end.

(** ** The environment *)

(** [Instant::now], one lookup and one connector call. *)
Class FetchEnv (W : Type) := {
  env_now : W → N * W;
  env_lookup : CanonicalHost → N → W → Resolution * W;
  env_send : FetchTarget → IpAddr → N → HttpFetchMethod → N → W → result ConnectorError ConnectorResponse * W;
}.

Record Connection := { cn_target : FetchTarget; cn_address : IpAddr; cn_port : N; cn_method : HttpFetchMethod }.

Record PublicFetcher := { pf_ip_policy : IpPolicy; pf_policy : FetchPolicy }.

(** The largest [Instant]: seconds are signed 64-bit. *)
Definition instant_limit : N := 2 ^ 63 * 10 ^ 9.

Definition instant_checked_add (instant duration : N) : option N :=
  if (instant + duration <? instant_limit)%N then Some (instant + duration)%N else None.

Section fetcher.
  Context {W : Type} `{FetchEnv W}.
  Context (join : str → str → option Url).

Record FetchState := { fst_env : W; fst_sent : list Connection }.
Abbreviation FM := (ST FetchState FetchError).

Definition now : FM N := λ s,
  let '(t, w) := env_now (fst_env s) in (Ok t, {| fst_env := w; fst_sent := fst_sent s |}).

Definition remaining_until (deadline : option N) : FM N :=
  match deadline with
  | None => st_fail OverallTimeout
  | Some deadline =>
      t ← now;
      if (deadline - t =? 0)%N then st_fail OverallTimeout else mret (deadline - t)%N
  end.

Definition resolve_before_deadline (host : CanonicalHost) (timeout : N) : FM (list IpAddr) := λ s,
  let '(resolution, w) := env_lookup host timeout (fst_env s) in
  (resolution_result resolution, {| fst_env := w; fst_sent := fst_sent s |}).

(** [connector.send]; the call enters the history. *)
Definition connect (target : FetchTarget) (address : IpAddr) (method : HttpFetchMethod) (timeout : N)
    : FM ConnectorResponse := λ s,
  let '(response, w) := env_send target address HTTPS_PORT method timeout (fst_env s) in
  (map_err Fetch_Connect response,
   {| fst_env := w;
      fst_sent := fst_sent s ++ [{| cn_target := target; cn_address := address; cn_port := HTTPS_PORT;
                                    cn_method := method |}] |}).

Definition check_deadline (deadline : option N) : FM unit :=
  match deadline with
  | None => mret tt
  | Some deadline =>
      t ← now;
      if (deadline <=? t)%N then st_fail OverallTimeout else mret tt
  end.

Fixpoint read_bounded (body : list (option str)) (limit : N) (deadline : option N) (output : str) : FM str :=
  _ ← check_deadline deadline;
  match body with
  | [] => _ ← check_deadline deadline; mret output
  | None :: _ => st_fail ResponseRead
  | Some chunk :: rest =>
      _ ← check_deadline deadline;
      if bool_decide (chunk = []) then mret output
      else if (limit <? saturating_add (len output) (len chunk))%N then st_fail (ResponseTooLarge limit)
      else read_bounded rest limit deadline (output ++ chunk)
  end.

(** One round of the loop: the next target, or the response. *)
Definition fetch_hop (self : PublicFetcher) (request : HttpFetchRequest) (authority : HttpFetchAuthority)
    (max_redirects : N) (deadline : option N) (target : FetchTarget) (redirects : N)
    : FM (FetchTarget + PublicResponse) :=
  remaining ← remaining_until deadline;
  let hop_request :=
    {| hr_method := hr_method request; hr_host := ft_host target; hr_path := ft_path target;
       hr_max_response_bytes := hr_max_response_bytes request |} in
  if negb (http_fetch_matches authority hop_request) then st_fail RedirectRejected
  else
    addresses ← resolve_before_deadline (ft_host target) remaining;
    address ← st_query (λ _, map_err Fetch_IpPolicy (validate_dns_answer (pf_ip_policy self) addresses));
    remaining ← remaining_until deadline;
    response ← connect target address (hr_method request) remaining;
    _ ← remaining_until deadline;
    if is_redirect (cnr_status response) then
      if (max_redirects <=? redirects)%N then st_fail RedirectLimitExceeded
      else
        location ← st_query (λ _, ok_or (cnr_location response) MissingRedirectLocation);
        if (MAX_REDIRECT_LOCATION_BYTES <? len location)%N then st_fail RedirectRejected
        else
          target ← st_query (λ _, redirect_target join target location);
          mret (inl target)
    else
      body ← match hr_method request with
             | Head => mret []
             | Get => read_bounded (cnr_body response) (hr_max_response_bytes request) deadline []
             end;
      response ← st_query (λ _,
        PublicResponse_new (cnr_status response) (ft_host target) (ft_path target) body);
      mret (inr response).

(** The redirect loop; [None] is fuel exhaustion. *)
Fixpoint fetch_loop (fuel : nat) (self : PublicFetcher) (request : HttpFetchRequest)
    (authority : HttpFetchAuthority) (max_redirects : N) (deadline : option N) (target : FetchTarget)
    (redirects : N) (s : FetchState) : option (result FetchError PublicResponse * FetchState) :=
  match fuel with
  | O => None
  | S fuel =>
      match fetch_hop self request authority max_redirects deadline target redirects s with
      | (Ok (inl target), s) =>
          fetch_loop fuel self request authority max_redirects deadline target (N.min (redirects + 1) 255) s
      | (Ok (inr response), s) => Some (Ok response, s)
      | (Err error, s) => Some (Err error, s)
      end
  end.

(** One round for each value of the [u8] redirect counter and one more.  The bound on the
    rounds is the redirect limit of [fetch_hop], never this fuel ([fetch_loop_ok]). *)
Definition REDIRECT_FUEL : nat := 257.

(** [PublicFetcher::fetch].  [matches!] on the two methods always holds. *)
Definition fetch (self : PublicFetcher) (request : HttpFetchRequest) (authority : HttpFetchAuthority)
    : FM PublicResponse := λ s,
  let max_response_bytes := N.min (fp_max_response_bytes (pf_policy self)) DEFAULT_MAX_RESPONSE_BYTES in
  let max_redirects := N.min (fp_max_redirects (pf_policy self)) DEFAULT_MAX_REDIRECTS in
  let total_timeout := N.min (fp_total_timeout (pf_policy self)) MAX_TOTAL_TIMEOUT in
  if (max_response_bytes <? hr_max_response_bytes request)%N then (Err OperationRejected, s)
  else
    match now s with
    | (Err error, s) => (Err error, s)
    | (Ok t, s) =>
        let deadline := instant_checked_add t total_timeout in
        let target := {| ft_host := hr_host request; ft_path := hr_path request |} in
        default (Err RedirectLimitExceeded, s)
          (fetch_loop REDIRECT_FUEL self request authority max_redirects deadline target 0 s)
    end.
End fetcher.
