(* ===== verification/PublicFetchProps.v ===== *)
(** * Public fetches stay inside their authority

    Whatever the network answers, every connection a fetch opens was checked against
    the authority and the address policy first, and the response it returns is one
    the dispatcher accepts. *)

From S2P Require Import Prelude Bytes Http Response ResponseProps IpPolicy PublicFetch.

Section props.
  Context {W : Type} `{FetchEnv W}.
  Context (join : str → str → option Url).
  Context (self : PublicFetcher) (request : HttpFetchRequest) (authority : HttpFetchAuthority).

Abbreviation FM := (ST (FetchState (W := W)) FetchError).

(** Actions that open no connection. *)
Definition quiet {A} (m : FM A) : Prop := ∀ s, fst_sent (m s).2 = fst_sent s.

Lemma quiet_bind {A B} (m : FM A) (k : A → FM B) : quiet m → (∀ a, quiet (k a)) → quiet (m ≫= k).
Proof.
  intros Hm Hk s. unfold mbind, ST_bind. specialize (Hm s). destruct (m s) as [[a|e] s1]; [|done].
  rewrite (Hk a s1). apply Hm.
Qed.

Lemma quiet_ret {A} (a : A) : quiet (mret a).
Proof. done. Qed.
Lemma quiet_fail {A} e : quiet (st_fail e : FM A).
Proof. done. Qed.
Lemma quiet_query {A} (f : FetchState → result FetchError A) : quiet (st_query f).
Proof. done. Qed.
Lemma quiet_now : quiet now.
Proof. intros s. unfold now. by destruct (env_now (fst_env s)). Qed.

Lemma quiet_remaining deadline : quiet (remaining_until deadline).
Proof.
  destruct deadline; [|apply quiet_fail]. apply quiet_bind; [apply quiet_now|]. intros t. by destruct (_ =? _)%N.
Qed.

Lemma quiet_deadline deadline : quiet (check_deadline deadline).
Proof.
  destruct deadline; [|apply quiet_ret]. apply quiet_bind; [apply quiet_now|]. intros t. by destruct (_ <=? _)%N.
Qed.

Lemma quiet_resolve host timeout : quiet (resolve_before_deadline host timeout).
Proof. intros s. unfold resolve_before_deadline. by destruct (env_lookup host timeout (fst_env s)). Qed.

Lemma quiet_read body limit deadline output : quiet (read_bounded body limit deadline output).
Proof.
  revert output. induction body as [|[chunk|] body IH]; intros output; cbn [read_bounded];
    (apply quiet_bind; [apply quiet_deadline|]; intros _); [|apply quiet_bind; [apply quiet_deadline|]; intros _|done].
  - apply quiet_bind; [apply quiet_deadline|done].
  - case_bool_decide; [done|]. destruct (_ <? _)%N; [done|apply IH].
Qed.

(** A body is read up to its limit, never beyond. *)
Lemma read_bounded_limit body limit deadline output s out s' :
  (limit < usize_max)%N → (len output <= limit)%N →
  read_bounded body limit deadline output s = (Ok out, s') → (len out <= limit)%N.
Proof.
  intros Hlim. revert output s. induction body as [|[chunk|] body IH]; intros output s Ho; cbn [read_bounded];
    unfold mbind at 1, ST_bind at 1; destruct (check_deadline deadline s) as [[[]|e] s1]; try done.
  - unfold mbind, ST_bind. destruct (check_deadline deadline s1) as [[[]|e] s2]; [|done]. by intros [= <- _].
  - unfold mbind at 1, ST_bind at 1. destruct (check_deadline deadline s1) as [[[]|e] s2]; [|done].
    case_bool_decide; [by intros [= <- _]|].
    destruct (N.ltb_spec limit (saturating_add (len output) (len chunk))) as [|Hfit]; [done|].
    apply IH. rewrite len_app. unfold saturating_add in Hfit. lia.
Qed.

(** What is checked before a connection is opened. *)
Definition confined (c : Connection) : Prop :=
  http_fetch_matches authority
    {| hr_method := hr_method request; hr_host := ft_host (cn_target c); hr_path := ft_path (cn_target c);
       hr_max_response_bytes := hr_max_response_bytes request |} = true ∧
  is_denied (pf_ip_policy self) (cn_address c) = false ∧ cn_port c = HTTPS_PORT ∧ cn_method c = hr_method request.

(** A response the dispatcher accepts for this request, from the last target. *)
Definition acceptable (target : FetchTarget) (p : PublicResponse) : Prop :=
  validate_dispatch p request authority = true ∧ pwr_host (pr_wire p) = ft_host target ∧
  pwr_path (pr_wire p) = ft_path target ∧
  PublicWireResponse_new (pwr_status (pr_wire p)) (pwr_host (pr_wire p)) (pwr_path (pr_wire p))
    (pwr_body (pr_wire p)) = Ok (pr_wire p).

(** A target built by the constructors. *)
Definition target_wf (target : FetchTarget) : Prop :=
  CanonicalHost_wf (ft_host target) ∧ CanonicalUrlPath_wf (ft_path target).

Lemma redirect_target_wf current location next : redirect_target join current location = Ok next → target_wf next.
Proof.
  unfold redirect_target. destruct (_ || _); [done|]. destruct (join _ _) as [url|]; cbn [ok_or mbind result_bind]; [|done].
  destruct (_ || _); [done|]. destruct (url_host url) as [value|]; cbn [ok_or mbind result_bind]; [|done].
  destruct (CanonicalHost_new value) as [host|] eqn:Hh; cbn [map_err mbind result_bind]; [|done].
  destruct (CanonicalUrlPath_new _) as [path|] eqn:Hp; cbn [map_err mbind result_bind]; [|done]. intros [= <-].
  split; [by eapply CanonicalHost_new_wf|]. by apply CanonicalUrlPath_new_iff in Hp as [? _].
Qed.

(** The history after a hop: at most one more connection, confined; a redirect
    happens only below the limit. *)
Definition hop_ok (max_redirects redirects : N) (s : FetchState (W := W)) (target : FetchTarget)
    (outcome : result FetchError (FetchTarget + PublicResponse) * FetchState (W := W)) : Prop :=
  match outcome with
  | (Err _, s') => fst_sent s' = fst_sent s ∨ ∃ c, fst_sent s' = fst_sent s ++ [c] ∧ confined c
  | (Ok next, s') => (∃ c, fst_sent s' = fst_sent s ++ [c] ∧ confined c ∧ cn_target c = target) ∧
      match next with
      | inl next => (redirects < max_redirects)%N ∧ target_wf next
      | inr p => acceptable target p
      end
  end.

Lemma acceptable_new status target body p :
  PublicResponse_new status (ft_host target) (ft_path target) body = Ok p →
  http_fetch_matches authority
    {| hr_method := hr_method request; hr_host := ft_host target; hr_path := ft_path target;
       hr_max_response_bytes := hr_max_response_bytes request |} = true →
  (len body <= hr_max_response_bytes request)%N → (hr_method request = Head → body = []) → acceptable target p.
Proof.
  unfold PublicResponse_new. destruct (PublicWireResponse_new _ _ _ _) as [wire|] eqn:Hw; cbn; [|done]. intros [= <-] Hm Hl Hh.
  pose proof Hw as Hw'. apply PublicWireResponse_new_ok in Hw' as (Hwire & _). unfold acceptable, validate_dispatch, PublicResponse_body.
  cbn [pr_wire]. rewrite Hwire in *. cbn [pwr_host pwr_path pwr_body pwr_status]. split_and!; try done. rewrite Hm.
  destruct (N.leb_spec (len body) (hr_max_response_bytes request)); [|lia]. cbn [andb].
  destruct (decide (hr_method request = Head)) as [He|Hne].
  - rewrite (Hh He), !bool_decide_eq_true_2 by done. done.
  - by rewrite bool_decide_eq_false_2.
Qed.

(** Running one quiet action of a sequence. *)
Ltac run_quiet m s Hq s1 x :=
  let E := fresh "E" in
  assert (fst_sent (m s).2 = fst_sent s) as Hq
    by first [apply quiet_remaining|apply quiet_resolve|apply quiet_read];
  unfold mbind at 1, ST_bind at 1; destruct (m s) as [[x|?] s1] eqn:E; cbn [snd] in Hq.

Lemma fetch_hop_ok max_redirects deadline target redirects s :
  (hr_max_response_bytes request < usize_max)%N →
  hop_ok max_redirects redirects s target
    (fetch_hop join self request authority max_redirects deadline target redirects s).
Proof.
  intros Hlim. unfold fetch_hop.
  run_quiet (remaining_until (W := W) deadline) s Hq1 s1 remaining; [|by left].
  cbv zeta. destruct (http_fetch_matches _ _) eqn:Hm; cbn [negb]; [|by left].
  run_quiet (resolve_before_deadline (W := W) (ft_host target) remaining) s1 Hq2 s2 addresses; [|left; congruence].
  destruct (validate_dns_answer (pf_ip_policy self) addresses) as [address|e] eqn:Hdns.
  2:{ rewrite (st_query_err _ _ _ (Fetch_IpPolicy e)) by done. left. congruence. }
  rewrite (st_query_ok _ _ _ address) by done.
  run_quiet (remaining_until (W := W) deadline) s2 Hq3 s3 remaining'; [|left; congruence].
  set (c := {| cn_target := target; cn_address := address; cn_port := HTTPS_PORT; cn_method := hr_method request |}).
  assert (confined c) as Hc.
  { split_and!; try done. apply validate_dns_answer_spec in Hdns as [Hhd Hall]. apply Hall.
    destruct addresses; [done|]. injection Hhd as ->. by left. }
  assert (fst_sent (connect (W := W) target address (hr_method request) remaining' s3).2 = fst_sent s ++ [c]) as Hq4.
  { unfold connect. destruct (env_send _ _ _ _ _ _) as [r w]. cbn [snd fst_sent]. by rewrite Hq3, Hq2, Hq1. }
  unfold mbind at 1, ST_bind at 1. destruct (connect _ _ _ _ s3) as [[response|e] s4]; cbn [snd] in Hq4; [|right; eauto].
  run_quiet (remaining_until (W := W) deadline) s4 Hq5 s5 remaining''; [|right; exists c; split; [congruence|done]].
  assert (fst_sent s5 = fst_sent s ++ [c]) as Hq by congruence.
  destruct (is_redirect (cnr_status response)).
  - destruct (N.leb_spec max_redirects redirects) as [|Hred]; [right; eauto|].
    destruct (cnr_location response) as [location|] eqn:Hloc.
    2:{ rewrite (st_query_err _ _ _ MissingRedirectLocation) by done. right; eauto. }
    rewrite (st_query_ok _ _ _ location) by done. destruct (_ <? _)%N; [right; eauto|].
    destruct (redirect_target join target location) as [next|e] eqn:Hr.
    + erewrite st_query_ok by done. split; [eauto|]. split; [done|by eapply redirect_target_wf].
    + erewrite st_query_err by done. right; eauto.
  - assert (∃ r s6, (match hr_method request with
      | Head => mret []
      | Get => read_bounded (cnr_body response) (hr_max_response_bytes request) deadline [] end : FM str) s5 = (r, s6) ∧
      fst_sent s6 = fst_sent s5 ∧ (∀ body, r = Ok body → (len body <= hr_max_response_bytes request)%N ∧
        (hr_method request = Head → body = []))) as (r & s6 & Hb & Hq6 & Hbody).
    { destruct (hr_method request).
      - pose proof (quiet_read (cnr_body response) (hr_max_response_bytes request) deadline [] s5) as Hqr.
        destruct (read_bounded _ _ _ _ s5) as [r s6] eqn:Er. exists r, s6. split_and!; [done|done|].
        intros body ->. split; [|done]. eapply read_bounded_limit; [done| |exact Er]. change (len []) with 0%N. lia.
      - eexists _, s5. split_and!; [done|done|]. intros body [= <-]. split; [change (len []) with 0%N; lia|done]. }
    unfold mbind at 1, ST_bind at 1. rewrite Hb. destruct r as [body|e]; [|right; exists c; split; [congruence|done]].
    destruct (Hbody body eq_refl) as [Hl Hh].
    destruct (PublicResponse_new (cnr_status response) (ft_host target) (ft_path target) body) as [p|e] eqn:Hp.
    + erewrite st_query_ok by done. split; [exists c; split_and!; [congruence|done|done]|]. by eapply acceptable_new.
    + erewrite st_query_err by done. right. exists c. split; [congruence|done].
Qed.

Lemma fetch_loop_ok fuel max_redirects deadline target redirects s :
  (hr_max_response_bytes request < usize_max)%N → (max_redirects <= 5)%N →
  (max_redirects < N.of_nat fuel + redirects)%N → (redirects <= max_redirects)%N →
  ∃ r s' sent, fetch_loop join fuel self request authority max_redirects deadline target redirects s = Some (r, s') ∧
    fst_sent s' = fst_sent s ++ sent ∧ Forall confined sent ∧ (N.of_nat (length sent) + redirects <= max_redirects + 1)%N ∧
    ∀ p, r = Ok p → ∃ c, last sent = Some c ∧ acceptable (cn_target c) p ∧ (target_wf target → target_wf (cn_target c)).
Proof.
  intros Hlim Hmax. revert target redirects s. induction fuel as [|fuel IH]; intros target redirects s Hf Hr; [lia|].
  cbn [fetch_loop]. pose proof (fetch_hop_ok max_redirects deadline target redirects s Hlim) as Hhop.
  destruct (fetch_hop _ _ _ _ _ _ _ _ s) as [[[next|p]|e] s1]; cbn [hop_ok] in Hhop.
  - destruct Hhop as [(c & Hs & Hc & _) [Hred Hnext]].
    assert (N.min (redirects + 1) 255 = (redirects + 1)%N) as -> by lia.
    destruct (IH next (redirects + 1)%N s1 ltac:(lia) ltac:(lia)) as (r & s' & sent & Hr' & Hs' & Hall & Hlen & Hok).
    exists r, s', (c :: sent). rewrite Hr', Hs', Hs, <- (assoc_L (++)). split_and!; try done; [by constructor|cbn; lia|].
    intros p Hp. destruct (Hok p Hp) as (d & Hd & Hacc & Hwf). exists d. rewrite last_cons, Hd. auto.
  - destruct Hhop as [(c & Hs & Hc & <-) Hacc]. exists (Ok p), s1, [c]. split_and!; try done; [by apply Forall_singleton|cbn; lia|].
    intros p' [= <-]. eauto.
  - destruct Hhop as [Hs|(c & Hs & Hc)]; [exists (Err e), s1, []|exists (Err e), s1, [c]].
    + rewrite app_nil_r. split_and!; try done. cbn. lia.
    + split_and!; try done; [by apply Forall_singleton|cbn; lia].
Qed.

(** What [fetch] runs: the loop with clamped limits. *)
Lemma fetch_runs s :
  fetch join self request authority s = (Err OperationRejected, s) ∨
  ∃ fuel max_redirects deadline s0, (max_redirects < N.of_nat fuel)%N ∧ fst_sent s0 = fst_sent s ∧
    (hr_max_response_bytes request < usize_max)%N ∧ (max_redirects <= 5)%N ∧
    fetch join self request authority s =
    default (Err RedirectLimitExceeded, s0) (fetch_loop join fuel self request authority max_redirects deadline
      {| ft_host := hr_host request; ft_path := hr_path request |} 0 s0).
Proof.
  unfold fetch. set (cap := N.min (fp_max_response_bytes (pf_policy self)) DEFAULT_MAX_RESPONSE_BYTES).
  set (mr := N.min (fp_max_redirects (pf_policy self)) DEFAULT_MAX_REDIRECTS).
  destruct (N.ltb_spec cap (hr_max_response_bytes request)) as [|Hcap]; [by left|]. right.
  assert (mr <= 5)%N as Hmr by (unfold mr, DEFAULT_MAX_REDIRECTS; lia).
  assert (cap <= 33554432)%N as Hc by (unfold cap; change DEFAULT_MAX_RESPONSE_BYTES with 33554432%N; lia).
  unfold now. destruct (env_now (fst_env s)) as [t w]. eexists REDIRECT_FUEL, mr, _, _.
  split_and!; [change (N.of_nat REDIRECT_FUEL) with 257%N; lia| |unfold usize_max, u64_limit; lia|lia|reflexivity]. done.
Qed.

(** A response to a request built by its constructors is itself well formed. *)
Lemma fetch_typed s p :
  CanonicalHost_wf (hr_host request) → CanonicalUrlPath_wf (hr_path request) →
  (fetch join self request authority s).1 = Ok p → outcome_wf (WirePublic (pr_wire p)).
Proof.
  intros Hh Hp. destruct (fetch_runs s) as [->|(fuel & mr & deadline & s0 & Hf & _ & Hcap & Hmr & ->)]; [done|].
  destruct (fetch_loop_ok fuel mr deadline {| ft_host := hr_host request; ft_path := hr_path request |} 0 s0 Hcap Hmr)
    as (r & s' & sent & -> & _ & _ & _ & Hok); [lia|lia|].
  cbn. intros ->. destruct (Hok p eq_refl) as (c & _ & (_ & Hht & Hpt & Hn) & Hwf). destruct Hwf as [? ?]; [done|].
  split_and!; [done|by rewrite Hht|by rewrite Hpt].
Qed.

(** Every connection of a fetch was checked before it was opened. *)
Lemma fetch_sent_confined s :
  ∃ sent, fst_sent (fetch join self request authority s).2 = fst_sent s ++ sent ∧ length sent <= 6 ∧ Forall confined sent ∧
    ∀ p, (fetch join self request authority s).1 = Ok p → ∃ c, last sent = Some c ∧ acceptable (cn_target c) p.
Proof.
  destruct (fetch_runs s) as [->|(fuel & mr & deadline & s0 & Hf & Hs0 & Hcap & Hmr & ->)].
  { exists []. rewrite app_nil_r. split_and!; try done; cbn; lia. }
  destruct (fetch_loop_ok fuel mr deadline {| ft_host := hr_host request; ft_path := hr_path request |} 0 s0 Hcap Hmr)
    as (r & s' & sent & -> & Hs & Hall & Hlen & Hok); [lia|lia|].
  cbn [default from_option]. unfold id. cbn [fst snd]. exists sent. split_and!; [by rewrite Hs, Hs0|lia|done|].
  intros p Hp. destruct (Hok p Hp) as (c & Hl & Hacc & _). eauto.
Qed.

(** What the address policy excludes. *)
Lemma confined_public extra c :
  IpPolicy_strict extra = Ok (pf_ip_policy self) → confined c →
  (IpAddr_wf (cn_address c) → ¬ special (cn_address c)) ∧
  (∀ range, range ∈ extra → IpRange_contains range (cn_address c) = false).
Proof.
  intros Hstrict (_ & Hd & _). split.
  - intros Hwf Hspec. rewrite (special_denied _ _ _ Hstrict Hwf Hspec) in Hd. done.
  - intros range Hrange. destruct (IpRange_contains range (cn_address c)) eqn:Hr'; [|done].
    by rewrite (extra_denied _ _ _ _ Hstrict Hrange Hr') in Hd.
Qed.

(** A fetch is confined whatever the resolver and the servers answer: it opens at
    most six connections, each to port 443 at an address outside every special
    range and the extra denied ranges, for a target the authority admits, with the
    method of the request.  A response it returns comes from the last of them, is
    within the byte cap, carries no body for HEAD, and passes the dispatcher's own
    check against the authority. *)
Theorem public_fetch_is_confined extra s :
  IpPolicy_strict extra = Ok (pf_ip_policy self) →
  ∃ sent, fst_sent (fetch join self request authority s).2 = fst_sent s ++ sent ∧ length sent <= 6 ∧
    (∀ c, c ∈ sent →
      http_fetch_matches authority
        {| hr_method := hr_method request; hr_host := ft_host (cn_target c); hr_path := ft_path (cn_target c);
           hr_max_response_bytes := hr_max_response_bytes request |} = true ∧
      cn_port c = HTTPS_PORT ∧ cn_method c = hr_method request ∧
      (IpAddr_wf (cn_address c) → ¬ special (cn_address c)) ∧
      (∀ range, range ∈ extra → IpRange_contains range (cn_address c) = false)) ∧
    ∀ p, (fetch join self request authority s).1 = Ok p →
      validate_dispatch p request authority = true ∧
      ∃ c, last sent = Some c ∧ pwr_host (pr_wire p) = ft_host (cn_target c) ∧ pwr_path (pr_wire p) = ft_path (cn_target c).
Proof.
  intros Hstrict. destruct (fetch_sent_confined s) as (sent & Hs & Hlen & Hall & Hok). exists sent.
  rewrite Forall_forall in Hall. split_and!; [done|done| |].
  - intros c Hin. pose proof (Hall c Hin) as Hc. destruct (confined_public extra c Hstrict Hc) as [? ?].
    destruct Hc as (? & _ & ? & ?). done.
  - intros p Hp. destruct (Hok p Hp) as (c & Hl & Hv & Hh & Hpath & _). split; [done|]. eauto.
Qed.
End props.

(** ** A concrete run: one redirect, then a body *)

Definition demo_env : FetchEnv nat := {|
  env_now n := (N.of_nat n, n);
  env_lookup _ _ n := (Answered (Ok [V4 (Ipv4Addr_new 93 184 216 34)]), n);
  env_send _ _ _ _ _ n :=
    match n with
    | O => (Ok {| cnr_status := 302; cnr_location := Some (lit "/v1/b"); cnr_body := [] |}, 1)
    | _ => (Ok {| cnr_status := 200; cnr_location := None; cnr_body := [Some (lit "hello")] |}, 2)
    end;
|}.

(** A parser that knows one relative location. *)
Definition demo_join (base location : str) : option Url :=
  Some {| url_scheme := lit "https"; url_username := []; url_password := None; url_port := None; url_query := None;
          url_fragment := None; url_host := Some (lit "example.com"); url_path := location |}.

Definition demo_fetcher : PublicFetcher :=
  {| pf_ip_policy := match IpPolicy_strict [] with Ok policy => policy | Err _ => {| ip_host_denied_ranges := [] |} end;
     pf_policy := FetchPolicy_default |}.

Definition demo_fetch_request : HttpFetchRequest :=
  {| hr_method := Get; hr_host := {| ch_name := lit "example.com" |}; hr_path := {| cup_segments := [lit "v1"] |};
     hr_max_response_bytes := 100 |}.

Definition demo_fetch_authority : HttpFetchAuthority :=
  {| ha_methods := HttpFetchMethods_only Get; ha_host := {| ch_name := lit "example.com" |};
     ha_path := UrlPrefix {| cup_segments := [lit "v1"] |}; ha_max_response_bytes := 1000 |}.

Definition demo_fetch_start : FetchState (W := nat) := {| fst_env := 0; fst_sent := [] |}.

Lemma demo_fetch_runs :
  let '(r, s) := fetch (H := demo_env) demo_join demo_fetcher demo_fetch_request demo_fetch_authority demo_fetch_start in
  PublicResponse_body <$> (match r with Ok p => Some p | Err _ => None end) = Some (lit "hello") ∧ length (fst_sent s) = 2.
Proof. vm_compute. done. Qed.

Lemma public_fetch_is_confined_witness :
  let run := fetch (H := demo_env) demo_join demo_fetcher demo_fetch_request demo_fetch_authority demo_fetch_start in
  ∃ sent, fst_sent run.2 = [] ++ sent ∧ length sent <= 6 ∧
    (∀ c, c ∈ sent →
      http_fetch_matches demo_fetch_authority
        {| hr_method := Get; hr_host := ft_host (cn_target c); hr_path := ft_path (cn_target c);
           hr_max_response_bytes := 100 |} = true ∧
      cn_port c = HTTPS_PORT ∧ cn_method c = Get ∧
      (IpAddr_wf (cn_address c) → ¬ special (cn_address c)) ∧
      (∀ range, range ∈ ([] : list IpRange) → IpRange_contains range (cn_address c) = false)) ∧
    ∀ p, run.1 = Ok p →
      validate_dispatch p demo_fetch_request demo_fetch_authority = true ∧
      ∃ c, last sent = Some c ∧ pwr_host (pr_wire p) = ft_host (cn_target c) ∧ pwr_path (pr_wire p) = ft_path (cn_target c).
Proof.
  apply (public_fetch_is_confined (H := demo_env) demo_join demo_fetcher demo_fetch_request demo_fetch_authority []
    demo_fetch_start). vm_compute. reflexivity.
Defined.
