(* ===== verification/GitHubAdapter.v ===== *)
(** * The typed GitHub adapter ([crates/egress-broker/src/github.rs])

    What the broker does around a provider call: authority, credential and publish
    plan before it, validation and binding of the response after it.  Credentials,
    plans and the provider are operations on an environment state. *)

From S2P Require Import Prelude Bytes GitHub Budget Response.

Definition MAX_GITHUB_RESPONSE_BYTES : N := 1024 * 1024.

(** [GitObjectId]: lowercase hexadecimal text of 40 or 64 characters. *)
Record GitObjectId := { goi_text : str }.

#[export] Instance GitObjectId_eq_dec : EqDecision GitObjectId.
Proof. solve_decision. Defined.

Definition is_ascii_hexdigit (b : byte) : bool :=
  is_ascii_digit b || in_range 97 102 (b2N b) || in_range 65 70 (b2N b).

(** The error carries nothing. *)
Definition GitObjectId_new (value : str) : option GitObjectId :=
  if negb ((len value =? 40)%N || (len value =? 64)%N) || negb (forallb is_ascii_hexdigit value) then None
  else Some {| goi_text := to_ascii_lowercase value |}.

Record PublishBranchPlan := { pbp_new_object : GitObjectId; pbp_expected_old_object : GitObjectId }.

Inductive CredentialHandle := Credential (value : N).

(** [StaticCredentialProvider]: one handle for one installation. *)
Record StaticCredentialProvider := { scp_installation : InstallationId; scp_handle : CredentialHandle }.

Definition StaticCredentialProvider_credential_for (self : StaticCredentialProvider)
    (installation : InstallationId) : option CredentialHandle :=
  if bool_decide (scp_installation self = installation) then Some (scp_handle self) else None.

Record RateLimitInfo := {
  rl_remaining : option N;
  rl_reset_unix_seconds : option N;
  rl_retry_after_seconds : option N;
}.

Inductive GitHubProviderError :=
  | Provider_Unauthorized
  | Provider_Forbidden
  | Provider_NotFound
  | Provider_Conflict
  | Provider_RateLimited (info : RateLimitInfo)
  | Provider_Server (status : N)
  | Provider_Transport
  | Provider_InvalidResponse
  | Provider_CommitUnknown.

Record GitHubCommitUnknown := { gcu_operation : GitHubOperation; gcu_response_bytes : N }.

Inductive GitHubAdapterError :=
  | GitHub_NotAuthorized
  | MissingPublishPrecondition
  | CredentialUnavailable
  | ProviderRejected
  | ProviderUnauthorized
  | ProviderForbidden
  | ProviderNotFound
  | ProviderConflict
  | ProviderServer (status : N)
  | RateLimited (info : RateLimitInfo)
  | InvalidProviderResponse
  | ProviderTransport
  | GitHub_CommitUnknown (unknown : GitHubCommitUnknown).

#[export] Instance RateLimitInfo_eq_dec : EqDecision RateLimitInfo.
Proof. solve_decision. Defined.
#[export] Instance GitHubCommitUnknown_eq_dec : EqDecision GitHubCommitUnknown.
Proof. solve_decision. Defined.
#[export] Instance GitHubAdapterError_eq_dec : EqDecision GitHubAdapterError.
Proof. solve_decision. Defined.

(** The [unreachable!] of the last constructor is [None]. *)
Definition from_provider_before_commit (error : GitHubProviderError) : option GitHubAdapterError :=
  match error with
  | Provider_RateLimited info => Some (RateLimited info)
  | Provider_InvalidResponse => Some InvalidProviderResponse
  | Provider_Transport => Some ProviderTransport
  | Provider_Unauthorized => Some ProviderUnauthorized
  | Provider_Forbidden => Some ProviderForbidden
  | Provider_NotFound => Some ProviderNotFound
  | Provider_Conflict => Some ProviderConflict
  | Provider_Server status => Some (ProviderServer status)
  | Provider_CommitUnknown => None
  end.

(** [StaticPublishPlanProvider]: plans bound to the whole typed request. *)
Record RequestBoundPublishPlan := { rbp_request : GitHubRequest; rbp_plan : PublishBranchPlan }.

Definition StaticPublishPlanProvider_plan_for (plans : gmap BrokerRequestId RequestBoundPublishPlan)
    (request_id : BrokerRequestId) (request : GitHubRequest) : result GitHubAdapterError PublishBranchPlan :=
  bound ← ok_or (plans !! request_id) MissingPublishPrecondition;
  if bool_decide (rbp_request bound = request) then Ok (rbp_plan bound) else Err MissingPublishPrecondition.

(** ** Responses *)

Record GitHubResponse := {
  ghr_wire : GitHubWireResponse;
  ghr_binding : option (BrokerRequestId * GitHubRequest);
}.

#[export] Instance GitHubResponse_eq_dec : EqDecision GitHubResponse.
Proof. solve_decision. Defined.

Definition GitHubResponse_committed (response_bytes : N) (operation : GitHubOperation) (number : option N)
    (object : option GitObjectId) : result ResponseCborError GitHubResponse :=
  wire ← GitHubWireResponse_new operation response_bytes number (goi_text <$> object);
  Ok {| ghr_wire := wire; ghr_binding := None |}.

Definition GitHubResponse_response_bytes (self : GitHubResponse) : N := gwr_response_bytes (ghr_wire self).
Definition GitHubResponse_operation (self : GitHubResponse) : GitHubOperation := gwr_operation (ghr_wire self).

Definition GitHubResponse_bind (request_id : BrokerRequestId) (request : GitHubRequest) (self : GitHubResponse)
    : GitHubResponse :=
  {| ghr_wire := ghr_wire self; ghr_binding := Some (request_id, request) |}.

Definition commit_unknown (operation : GitHubOperation) (response_bytes : N) : GitHubAdapterError :=
  GitHub_CommitUnknown {| gcu_operation := operation; gcu_response_bytes := response_bytes |}.

Definition validate_dispatch_binding (self : GitHubResponse) (request_id : BrokerRequestId)
    (request : GitHubRequest) (maximum_response_bytes : N) : result GitHubAdapterError GitHubResponse :=
  if (maximum_response_bytes <? GitHubResponse_response_bytes self)%N
     || negb (bool_decide (GitHubResponse_operation self = gr_operation request))
     || match ghr_binding self with
        | None => true
        | Some (bound_id, bound_request) =>
            negb (bool_decide (bound_id = request_id)) || negb (bool_decide (bound_request = request))
        end
  then Err (commit_unknown (gr_operation request) maximum_response_bytes)
  else Ok self.

Definition validate_provider_response (response : GitHubResponse) (operation : GitHubOperation)
    (max_response_bytes : N) (expected_object : option GitObjectId) : result GitHubAdapterError unit :=
  if negb (bool_decide (GitHubResponse_operation response = operation))
     || (max_response_bytes <? GitHubResponse_response_bytes response)%N
  then Err InvalidProviderResponse
  else
    let wire := ghr_wire response in
    let invalid :=
      match operation with
      | PublishBranch =>
          bool_decide (is_Some (gwr_pull_request_number wire))
          || negb (bool_decide (gwr_object_id wire = goi_text <$> expected_object))
      | CreatePullRequest =>
          bool_decide (gwr_pull_request_number wire = None) || bool_decide (is_Some (gwr_object_id wire))
      end in
    if invalid then Err InvalidProviderResponse else Ok tt.

(** [None] is a panic. *)
Definition finish_provider_mutation (outcome : result GitHubProviderError GitHubResponse)
    (request_id : BrokerRequestId) (request : GitHubRequest) (max_response_bytes : N)
    (expected_object : option GitObjectId) : option (result GitHubAdapterError GitHubResponse) :=
  let operation := gr_operation request in
  match outcome with
  | Err Provider_CommitUnknown => Some (Err (commit_unknown operation max_response_bytes))
  | Err error => Err <$> from_provider_before_commit error
  | Ok response =>
      match validate_provider_response response operation max_response_bytes expected_object with
      | Err _ => Some (Err (commit_unknown operation max_response_bytes))
      | Ok _ => Some (Ok (GitHubResponse_bind request_id request response))
      end
  end.

(** ** The adapter *)

(** The host's credential selection, plans and provider. *)
Class GitHubEnv (W : Type) := {
  env_credential : InstallationId → W → option CredentialHandle * W;
  env_plan : BrokerRequestId → GitHubRequest → W → result GitHubAdapterError PublishBranchPlan * W;
  env_publish_branch : GitHubRequest → PublishBranchPlan → CredentialHandle → N → W →
    result GitHubProviderError GitHubResponse * W;
  env_create_pull_request : GitHubRequest → CredentialHandle → N → W →
    result GitHubProviderError GitHubResponse * W;
}.

Section adapter.
  Context {W : Type} `{GitHubEnv W}.

(** [TypedGitHubAdapter::execute]; [None] is a panic. *)
Definition adapter_execute (request_id : BrokerRequestId) (request : GitHubRequest)
    (authority : GitHubAuthority) (max_response_bytes : N) (w : W)
    : option (result GitHubAdapterError GitHubResponse) * W :=
  if negb (github_matches authority request) then (Some (Err GitHub_NotAuthorized), w)
  else
    match env_credential (gr_installation request) w with
    | (None, w) => (Some (Err CredentialUnavailable), w)
    | (Some credential, w) =>
        match gr_operation request with
        | PublishBranch =>
            match env_plan request_id request w with
            | (Err error, w) => (Some (Err error), w)
            | (Ok plan, w) =>
                let '(outcome, w) := env_publish_branch request plan credential max_response_bytes w in
                (finish_provider_mutation outcome request_id request max_response_bytes
                   (Some (pbp_new_object plan)), w)
            end
        | CreatePullRequest =>
            let '(outcome, w) := env_create_pull_request request credential max_response_bytes w in
            (finish_provider_mutation outcome request_id request max_response_bytes None, w)
        end
    end.
End adapter.

(** ** Properties *)

Lemma finish_never_panics outcome request_id request cap expected :
  finish_provider_mutation outcome request_id request cap expected ≠ None.
Proof. unfold finish_provider_mutation. destruct outcome as [r|[]]; try done. by destruct (validate_provider_response _ _ _ _). Qed.

(** What comes back from a provider that ran: a response bound to the request, an
    unknown commit, or the error it reported before committing. *)
Lemma finish_cases outcome request_id request cap expected :
  match finish_provider_mutation outcome request_id request cap expected with
  | Some (Ok response) =>
      ∃ raw, outcome = Ok raw ∧ response = GitHubResponse_bind request_id request raw ∧
        validate_dispatch_binding response request_id request cap = Ok response
  | Some (Err error) =>
      error = commit_unknown (gr_operation request) cap ∨
      ∃ reported, outcome = Err reported ∧ from_provider_before_commit reported = Some error
  | None => False
  end.
Proof.
  unfold finish_provider_mutation. destruct outcome as [raw|e]; [|destruct e; cbn; naive_solver].
  destruct (validate_provider_response raw (gr_operation request) cap expected) as [[]|] eqn:Hv; [|by left].
  exists raw. split_and!; [done|done|]. unfold validate_provider_response in Hv.
  destruct (bool_decide (GitHubResponse_operation raw = gr_operation request)) eqn:Hop; cbn in Hv; [|done].
  destruct (cap <? GitHubResponse_response_bytes raw)%N eqn:Hcap; [done|]. unfold validate_dispatch_binding.
  change (GitHubResponse_response_bytes (GitHubResponse_bind request_id request raw)) with (GitHubResponse_response_bytes raw).
  change (GitHubResponse_operation (GitHubResponse_bind request_id request raw)) with (GitHubResponse_operation raw).
  rewrite Hop, Hcap. cbn. by rewrite !bool_decide_eq_true_2.
Qed.
