(* ===== verification/Dispatch.v ===== *)
(** * The broker dispatcher ([crates/egress-broker/src/dispatch.rs])

    From one control frame to one response: replay admission, budget, the capability
    executor around the adapters, and the retained outcome.  The executor and the
    adapters are interfaces; the verdict of the operating system on each append to
    the write-ahead log is an argument.  A panic of the executor leaves the
    dispatcher in the state it had reached. *)

From S2P Require Import Prelude Bytes Time Http GitHub Capability ControlFrame Budget ReplayGuard Operation Cbor.
From S2P Require Import Response BrokerWalState BrokerWal Kernel PublicFetch GitHubAdapter.

Record DispatchContext := {
  dc_caller : SubjectId;
  dc_capability : CapId;
  dc_now : MonotonicTime;
}.

Inductive BrokerEffect :=
  | EffectPublic (response : PublicResponse)
  | EffectGitHub (response : GitHubResponse).

Definition effect_response_bytes (self : BrokerEffect) : N :=
  match self with
  | EffectPublic response => len (PublicResponse_body response)
  | EffectGitHub response => GitHubResponse_response_bytes response
  end.

Inductive BrokerRejection :=
  | Reject_NotAuthorized
  | Reject_Budget
  | Reject_OperationMismatch
  | Reject_PublicFetch (error : FetchError)
  | Reject_GitHub (error : GitHubAdapterError)
  | Reject_AccountingInvariant
  | Reject_AuditUnavailable
  | Reject_CommittedButUnrecorded.

Inductive BrokerOutcome :=
  | Succeeded (effect : BrokerEffect)
  | Rejected (rejection : BrokerRejection).

Record BrokerResponse := { br_request : BrokerRequestId; br_outcome : BrokerOutcome }.

Inductive DispatchError :=
  | Dispatch_Frame (error : FrameError)
  | Dispatch_Cbor (error : CborError)
  | Dispatch_Envelope (error : EnvelopeError)
  | MissingCachedOutcome (request : BrokerRequestId)
  | DurableUnavailable.

Inductive AdapterError :=
  | Adapter_Public (error : FetchError)
  | Adapter_GitHub (error : GitHubAdapterError)
  | Adapter_OperationMismatch.

Inductive ExecutorError :=
  | Executor_NotAuthorized
  | Executor_LockPoisoned
  | Executor_AuditUnavailable
  | Executor_CommittedButUnrecorded
  | Executor_Adapter (error : AdapterError).

Inductive CachedOutcome :=
  | Cached_AcceptedPending (response_cap : N)
  | Cached_Final (response : BrokerResponse)
  | Cached_RetryableBudget.

(** ** The interfaces *)

Abbreviation AdapterExecution := (EffectExecution BrokerEffect AdapterError).

(** [CapabilityExecutor]: final authorization around the callback.  [X] is the
    executor's own state, [W] the adapters'; [None] is a panic. *)
Class CapabilityExecutor (X W : Type) := {
  execute : DispatchContext → CapabilityRequest → (Capability → W → AdapterExecution * W) → X * W →
    option (result ExecutorError BrokerEffect) * (X * W);
}.

(** [PublicDispatchAdapter] and [GitHubAdapter]. *)
Class DispatchAdapters (W : Type) := {
  public_fetch : HttpFetchRequest → HttpFetchAuthority → W → result FetchError PublicResponse * W;
  github_execute : BrokerRequestId → GitHubRequest → GitHubAuthority → N → W →
    result GitHubAdapterError GitHubResponse * W;
}.

(** The verdicts on the appends one dispatch may make. *)
Record DispatchIo := {
  dio_accept : WalIo;
  dio_reserve : WalIo;
  dio_retryable : WalIo;
  dio_finalize : WalIo;
}.

(** What ends a dispatch without a response. *)
Inductive DispatchStop :=
  | Stop (error : DispatchError)
  | Unwind.

(** ** Responses on the wire *)

Definition rejection_to_wire (rejection : BrokerRejection) : BrokerWireRejection :=
  match rejection with
  | Reject_NotAuthorized => Wire_NotAuthorized
  | Reject_Budget => Wire_Budget
  | Reject_OperationMismatch => Wire_OperationMismatch
  | Reject_PublicFetch _ => Wire_PublicFetch
  | Reject_GitHub _ => Wire_GitHub
  | Reject_AccountingInvariant => Wire_AccountingInvariant
  | Reject_AuditUnavailable => Wire_AuditUnavailable
  | Reject_CommittedButUnrecorded => Wire_CommittedButUnrecorded
  end.

Definition broker_response_to_wire (response : BrokerResponse) : CanonicalBrokerResponse :=
  {| rsp_request := br_request response;
     rsp_outcome :=
       match br_outcome response with
       | Succeeded (EffectPublic public) => WirePublic (pr_wire public)
       | Succeeded (EffectGitHub github) => WireGitHub (ghr_wire github)
       | Rejected rejection => WireRejected (rejection_to_wire rejection)
       end |}.

Definition rejection_from_wire (rejection : BrokerWireRejection) : BrokerRejection :=
  match rejection with
  | Wire_NotAuthorized => Reject_NotAuthorized
  | Wire_Budget => Reject_Budget
  | Wire_OperationMismatch => Reject_OperationMismatch
  | Wire_PublicFetch => Reject_PublicFetch OperationRejected
  | Wire_GitHub => Reject_GitHub ProviderRejected
  | Wire_AccountingInvariant => Reject_AccountingInvariant
  | Wire_AuditUnavailable => Reject_AuditUnavailable
  | Wire_CommittedButUnrecorded => Reject_CommittedButUnrecorded
  end.

Definition broker_response_from_wire (response : CanonicalBrokerResponse) : WR BrokerResponse :=
  outcome ←
    match rsp_outcome response with
    | WirePublic public =>
        effect ← map_err (λ _, Wal_InvalidRecord "durable public response cannot be reconstructed")
                   (PublicResponse_new (pwr_status public) (pwr_host public) (pwr_path public) (pwr_body public));
        Ok (Succeeded (EffectPublic effect))
    | WireGitHub github =>
        object ← match gwr_object_id github with
                 | None => Ok None
                 | Some text => Some <$> ok_or (GitObjectId_new text)
                                           (Wal_InvalidRecord "durable GitHub object identity is invalid")
                 end;
        effect ← map_err (λ _, Wal_InvalidRecord "durable GitHub response cannot be reconstructed")
                   (GitHubResponse_committed (gwr_response_bytes github) (gwr_operation github)
                      (gwr_pull_request_number github) object);
        Ok (Succeeded (EffectGitHub effect))
    | WireRejected rejection => Ok (Rejected (rejection_from_wire rejection))
    end;
  Ok {| br_request := rsp_request response; br_outcome := outcome |}.

(** The [unreachable!] is [None]. *)
Definition rejection_from_executor (error : ExecutorError) : option BrokerRejection :=
  match error with
  | Executor_NotAuthorized => Some Reject_NotAuthorized
  | Executor_LockPoisoned | Executor_AuditUnavailable => Some Reject_AuditUnavailable
  | Executor_CommittedButUnrecorded => None
  | Executor_Adapter (Adapter_Public error) => Some (Reject_PublicFetch error)
  | Executor_Adapter (Adapter_GitHub error) => Some (Reject_GitHub error)
  | Executor_Adapter Adapter_OperationMismatch => Some Reject_OperationMismatch
  end.

Definition rejected (request : BrokerRequestId) (rejection : BrokerRejection) : BrokerResponse :=
  {| br_request := request; br_outcome := Rejected rejection |}.

Definition is_retryable_budget_error (error : SessionBudgetError) (usage : SessionBudgetUsage) : bool :=
  match error with
  | ConcurrentRequestLimitReached => true
  | ResponseBytesExhausted _ _ => negb (sbu_reserved_response_bytes usage =? 0)%N
  | _ => false
  end.

Section dispatcher.
  Context {X W : Type} `{CapabilityExecutor X W} `{DispatchAdapters W}.
  Context (sha256 : str → str).

(** [bd_executed] is the history of the requests given to the executor; no definition
    reads it. *)
Record BrokerDispatcher := {
  bd_executor : X;
  bd_adapters : W;
  bd_replay : option SessionReplayGuard;
  bd_budget : SessionBudget;
  bd_github_response_cap : N;
  bd_outcomes : gmap BrokerRequestId CachedOutcome;
  bd_durable : option DurableBrokerWal;
  bd_sealed : bool;
  bd_session : BrokerSessionId;
  bd_executed : list BrokerRequestId;
}.

Definition bd_with_execution (executor : X) (adapters : W) (request : BrokerRequestId) (self : BrokerDispatcher)
    : BrokerDispatcher :=
  {| bd_executor := executor; bd_adapters := adapters; bd_replay := bd_replay self; bd_budget := bd_budget self;
     bd_github_response_cap := bd_github_response_cap self; bd_outcomes := bd_outcomes self;
     bd_durable := bd_durable self; bd_sealed := bd_sealed self; bd_session := bd_session self;
     bd_executed := bd_executed self ++ [request] |}.
Definition bd_with_replay (replay : SessionReplayGuard) (self : BrokerDispatcher) : BrokerDispatcher :=
  {| bd_executor := bd_executor self; bd_adapters := bd_adapters self; bd_replay := Some replay;
     bd_budget := bd_budget self; bd_github_response_cap := bd_github_response_cap self;
     bd_outcomes := bd_outcomes self; bd_durable := bd_durable self; bd_sealed := bd_sealed self;
     bd_session := bd_session self; bd_executed := bd_executed self |}.
Definition bd_with_budget (budget : SessionBudget) (self : BrokerDispatcher) : BrokerDispatcher :=
  {| bd_executor := bd_executor self; bd_adapters := bd_adapters self; bd_replay := bd_replay self;
     bd_budget := budget; bd_github_response_cap := bd_github_response_cap self;
     bd_outcomes := bd_outcomes self; bd_durable := bd_durable self; bd_sealed := bd_sealed self;
     bd_session := bd_session self; bd_executed := bd_executed self |}.
Definition bd_with_outcomes (outcomes : gmap BrokerRequestId CachedOutcome) (self : BrokerDispatcher)
    : BrokerDispatcher :=
  {| bd_executor := bd_executor self; bd_adapters := bd_adapters self; bd_replay := bd_replay self;
     bd_budget := bd_budget self; bd_github_response_cap := bd_github_response_cap self;
     bd_outcomes := outcomes; bd_durable := bd_durable self; bd_sealed := bd_sealed self;
     bd_session := bd_session self; bd_executed := bd_executed self |}.
Definition bd_with_durable (wal : DurableBrokerWal) (self : BrokerDispatcher) : BrokerDispatcher :=
  {| bd_executor := bd_executor self; bd_adapters := bd_adapters self; bd_replay := bd_replay self;
     bd_budget := bd_budget self; bd_github_response_cap := bd_github_response_cap self;
     bd_outcomes := bd_outcomes self; bd_durable := Some wal; bd_sealed := bd_sealed self;
     bd_session := bd_session self; bd_executed := bd_executed self |}.
Definition bd_seal (self : BrokerDispatcher) : BrokerDispatcher :=
  {| bd_executor := bd_executor self; bd_adapters := bd_adapters self; bd_replay := bd_replay self;
     bd_budget := bd_budget self; bd_github_response_cap := bd_github_response_cap self;
     bd_outcomes := bd_outcomes self; bd_durable := bd_durable self; bd_sealed := true;
     bd_session := bd_session self; bd_executed := bd_executed self |}.

Abbreviation DM := (ST BrokerDispatcher DispatchStop).

(** An operation of the log; its result is inspected by the caller. *)
Definition with_wal {A} (wal : DurableBrokerWal) (operation : WM A) : DM (result DurableWalError A) := λ self,
  let '(r, wal) := operation wal in (Ok r, bd_with_durable wal self).

Definition with_budget {A} (operation : BM A) : DM (result SessionBudgetError A) := λ self,
  let '(r, budget) := operation (bd_budget self) in (Ok r, bd_with_budget budget self).

Definition remember (request : BrokerRequestId) (outcome : CachedOutcome) : DM unit :=
  st_modify (λ self, bd_with_outcomes (<[request := outcome]> (bd_outcomes self)) self).

Definition seal_durable {A} : DM A :=
  _ ← st_modify bd_seal;
  st_fail (Stop DurableUnavailable).

Definition operation_response_cap (self : BrokerDispatcher) (operation : BrokerOperation) : N :=
  default (bd_github_response_cap self) (public_response_byte_limit operation).

(** ** Admission *)

Definition admit_envelope (io : WalIo) (envelope : BrokerEnvelope) (canonical_payload : str) (response_cap : N)
    (had_retained_outcome : bool) : DM EnvelopeAcceptance :=
  self ← st_get;
  match bd_durable self with
  | Some wal =>
      if negb (bool_decide (be_session envelope = bd_session self))
      then st_fail (Stop (Dispatch_Envelope (WrongSession (bd_session self) (be_session envelope))))
      else
        r ← with_wal wal (wal_accept io envelope response_cap);
        match r with
        | Ok AcceptedNew => mret AcceptNew
        | Ok (ExactDuplicate _) => mret AcceptDuplicate
        | Err (Wal_OutOfOrderSequence expected received) =>
            st_fail (Stop (Dispatch_Envelope (OutOfOrderSequence expected received)))
        | Err (Wal_RequestIdentityMismatch request) =>
            st_fail (Stop (Dispatch_Envelope (RequestIdentityMismatch request)))
        | Err Wal_RequestCapacityExhausted => st_fail (Stop (Dispatch_Envelope RequestCapacityExhausted))
        | Err Wal_SequenceExhausted => st_fail (Stop (Dispatch_Envelope EnvelopeSequenceExhausted))
        | Err _ => seal_durable
        end
  | None =>
      _ ← (if had_retained_outcome then mret tt
           else remember (be_request envelope) (Cached_AcceptedPending response_cap));
      match bd_replay self with
      | None => seal_durable
      | Some replay =>
          let '(r, replay) := accept_payload sha256 envelope canonical_payload replay in
          _ ← st_modify (bd_with_replay replay);
          match r with
          | Ok acceptance => mret acceptance
          | Err error =>
              _ ← (if had_retained_outcome then mret tt
                   else st_modify (λ self, bd_with_outcomes (delete (be_request envelope) (bd_outcomes self)) self));
              st_fail (Stop (Dispatch_Envelope error))
          end
      end
  end.

(** ** Completion *)

Definition finalize_durable (io : WalIo) (response : BrokerResponse) (settlement : BudgetSettlement) : DM unit :=
  self ← st_get;
  match bd_durable self with
  | None => mret tt
  | Some wal =>
      r ← with_wal wal (wal_finalize sha256 io (br_request response) (broker_response_to_wire response) settlement);
      match r with Err _ => seal_durable | Ok _ => mret tt end
  end.

Definition settle_committed_but_unrecorded (io : WalIo) (request_id : BrokerRequestId) (response_cap : N)
    : DM (BrokerResponse * option CachedOutcome) :=
  let response := rejected request_id Reject_CommittedButUnrecorded in
  _ ← finalize_durable io response (SettleComplete response_cap);
  completed ← with_budget (SessionBudget_complete request_id response_cap);
  self ← st_get;
  match completed with
  | Ok _ => mret (response, None)
  | Err _ =>
      if bool_decide (is_Some (bd_durable self)) then seal_durable
      else
        _ ← with_budget (SessionBudget_abort request_id);
        mret (response, None)
  end.

(** The in-memory branch first, as in the source. *)
Definition recover_accepted_pending (io : WalIo) (request_id : BrokerRequestId) (response_cap : N)
    : DM BrokerResponse :=
  self ← st_get;
  let response := rejected request_id Reject_CommittedButUnrecorded in
  match bd_durable self with
  | None =>
      completed ← with_budget (SessionBudget_complete request_id response_cap);
      _ ← match completed with
          | Err _ => _ ← with_budget (SessionBudget_abort request_id); mret tt
          | Ok _ => mret tt
          end;
      _ ← remember request_id (Cached_Final response);
      mret response
  | Some wal =>
      match read_only_view wal with
      | Err _ => seal_durable
      | Ok view =>
          let active := match view_request view request_id with
                        | Some request => bool_decide (is_Some (dr_reservation request))
                        | None => false
                        end in
          let settlement := if active then SettleComplete response_cap else SettleNotStarted in
          _ ← finalize_durable io response settlement;
          completed ← (if active then with_budget (SessionBudget_complete request_id response_cap)
                       else mret (Ok tt));
          match completed with
          | Err _ => seal_durable
          | Ok _ =>
              _ ← remember request_id (Cached_Final response);
              mret response
          end
      end
  end.

(** ** Adapters *)

Definition commit_unknown_evidence (request_id : BrokerRequestId) (payload_hash : PayloadHash) : str :=
  [N2b 1] ++ request_id ++ payload_hash.

Definition dispatch_adapter (operation : BrokerOperation) (request_id : BrokerRequestId)
    (payload_hash : PayloadHash) (github_response_cap : N) (capability : Capability) (w : W)
    : AdapterExecution * W :=
  match operation, cap_authority capability with
  | OpPublicFetch request, AuthHttpFetch authority =>
      let '(r, w) := public_fetch request authority w in
      (match r with
       | Ok response =>
           if validate_dispatch response request authority then Exec_Committed (EffectPublic response) None
           else Exec_FailedBeforeCommit (Adapter_Public InvalidResponse)
       | Err error => Exec_FailedBeforeCommit (Adapter_Public error)
       end, w)
  | OpGitHub request, AuthGitHub authority =>
      let '(r, w) := github_execute request_id request authority github_response_cap w in
      (match (response ← r; validate_dispatch_binding response request_id request github_response_cap) with
       | Ok response => Exec_Committed (EffectGitHub response) None
       | Err (GitHub_CommitUnknown _) => Exec_CommitUnknown (commit_unknown_evidence request_id payload_hash)
       | Err error => Exec_FailedBeforeCommit (Adapter_GitHub error)
       end, w)
  | _, _ => (Exec_FailedBeforeCommit Adapter_OperationMismatch, w)
  end.

(** ** A new request, or one whose budget denial may be retried *)

(** The reservation in the log and in memory: [Ok] of the budget's verdict. *)
Definition start_budget (io : WalIo) (request_id : BrokerRequestId) (response_cap : N)
    : DM (result SessionBudgetError unit) :=
  self ← st_get;
  match bd_durable self with
  | Some wal =>
      r ← with_wal wal (wal_reserve io request_id);
      match r with
      | Ok _ =>
          started ← with_budget (SessionBudget_start request_id response_cap);
          match started with Ok _ => mret (Ok tt) | Err _ => seal_durable end
      | Err (Wal_Budget error) => mret (Err error)
      | Err _ => seal_durable
      end
  | None =>
      started ← with_budget (SessionBudget_start request_id response_cap);
      mret (match started with Ok _ => Ok tt | Err error => Err error end)
  end.

(** The branch of a budget denial. *)
Definition deny_budget (io : DispatchIo) (request_id : BrokerRequestId) (error : SessionBudgetError)
    (resuming_retryable_budget : bool) : DM (BrokerResponse * option CachedOutcome) :=
  self ← st_get;
  let response := rejected request_id Reject_Budget in
  if is_retryable_budget_error error (SessionBudget_usage (bd_budget self)) then
    match resuming_retryable_budget, bd_durable self with
    | false, Some wal =>
        r ← with_wal wal (wal_mark_retryable_budget (dio_retryable io) request_id);
        match r with
        | Err _ => seal_durable
        | Ok _ => mret (response, Some Cached_RetryableBudget)
        end
    | _, _ => mret (response, Some Cached_RetryableBudget)
    end
  else
    _ ← finalize_durable (dio_finalize io) response SettleNotStarted;
    mret (response, Some (Cached_Final response)).

(** [executor.execute] with the adapter callback. *)
Definition run_executor (request_id : BrokerRequestId) (operation : BrokerOperation)
    (payload_hash : PayloadHash) (context : DispatchContext) : DM (result ExecutorError BrokerEffect) := λ self,
  let '(r, (executor, adapters)) :=
    execute context (capability_request_at operation (dc_now context))
      (dispatch_adapter operation request_id payload_hash (bd_github_response_cap self))
      (bd_executor self, bd_adapters self) in
  let self := bd_with_execution executor adapters request_id self in
  match r with
  | None => (Err Unwind, self)
  | Some r => (Ok r, self)
  end.

(** The match on the executor's result. *)
Definition settle_execution (io : WalIo) (request_id : BrokerRequestId) (response_cap : N)
    (outcome : result ExecutorError BrokerEffect) : DM (BrokerResponse * option CachedOutcome) :=
  match outcome with
  | Ok effect =>
      let response_bytes := effect_response_bytes effect in
      let response := {| br_request := request_id; br_outcome := Succeeded effect |} in
      _ ← finalize_durable io response (SettleComplete response_bytes);
      completed ← with_budget (SessionBudget_complete request_id response_bytes);
      self ← st_get;
      match completed with
      | Err _ =>
          if bool_decide (is_Some (bd_durable self)) then seal_durable
          else
            _ ← with_budget (SessionBudget_abort request_id);
            mret (rejected request_id Reject_AccountingInvariant, None)
      | Ok _ => mret (response, None)
      end
  | Err Executor_CommittedButUnrecorded => settle_committed_but_unrecorded io request_id response_cap
  | Err error =>
      match rejection_from_executor error with
      | None => st_fail Unwind
      | Some rejection =>
          let response := rejected request_id rejection in
          _ ← finalize_durable io response SettleAbort;
          _ ← with_budget (SessionBudget_abort request_id);
          mret (response, None)
      end
  end.

Definition dispatch_new (io : DispatchIo) (request_id : BrokerRequestId) (operation : BrokerOperation)
    (payload_hash : PayloadHash) (context : DispatchContext) (resuming_retryable_budget : bool)
    : DM (BrokerResponse * option CachedOutcome) :=
  if match public_response_byte_limit operation with
     | Some limit => (MAX_PUBLIC_WIRE_BODY_BYTES <? limit)%N
     | None => false
     end
  then
    let response := rejected request_id (Reject_PublicFetch OperationRejected) in
    _ ← finalize_durable (dio_finalize io) response SettleNotStarted;
    mret (response, None)
  else
    self ← st_get;
    let response_cap := operation_response_cap self operation in
    budget_start ← start_budget (dio_reserve io) request_id response_cap;
    match budget_start with
    | Err error => deny_budget io request_id error resuming_retryable_budget
    | Ok _ =>
        outcome ← run_executor request_id operation payload_hash context;
        settle_execution (dio_finalize io) request_id response_cap outcome
    end.

(** [dispatch_new] and the outcome it retains. *)
Definition dispatch_and_remember (io : DispatchIo) (request : CanonicalBrokerRequest)
    (context : DispatchContext) (resuming_retryable_budget : bool) : DM BrokerResponse :=
  let envelope := cbr_envelope request in
  '(response, cached) ← dispatch_new io (be_request envelope) (cbr_operation request)
                          (be_payload_hash envelope) context resuming_retryable_budget;
  _ ← remember (be_request envelope) (default (Cached_Final response) cached);
  mret response.

(** ** The entry points *)

Definition dispatch_control_frame (io : DispatchIo) (frame : ControlFrame) (context : DispatchContext)
    : DM BrokerResponse :=
  self ← st_get;
  if bd_sealed self then st_fail (Stop DurableUnavailable)
  else
    request ← st_query (λ _, map_err (λ error, Stop (Dispatch_Cbor error))
                               (CanonicalBrokerRequest_decode sha256 (cf_payload frame)));
    let envelope := cbr_envelope request in
    let request_id := be_request envelope in
    let response_cap := operation_response_cap self (cbr_operation request) in
    let had_retained_outcome := bool_decide (is_Some (bd_outcomes self !! request_id)) in
    acceptance ← admit_envelope (dio_accept io) envelope (cbr_canonical_payload request) response_cap had_retained_outcome;
    match acceptance with
    | AcceptNew =>
        if bool_decide (is_Some (bd_durable self)) then
          _ ← remember request_id (Cached_AcceptedPending response_cap);
          dispatch_and_remember io request context false
        else if had_retained_outcome then recover_accepted_pending (dio_finalize io) request_id response_cap
        else dispatch_and_remember io request context false
    | AcceptDuplicate =>
        self ← st_get;
        match bd_outcomes self !! request_id with
        | Some (Cached_AcceptedPending response_cap) =>
            recover_accepted_pending (dio_finalize io) request_id response_cap
        | Some (Cached_Final response) => mret response
        | Some Cached_RetryableBudget => dispatch_and_remember io request context true
        | None => st_fail (Stop (MissingCachedOutcome request_id))
        end
    end.

Definition dispatch_frame (io : DispatchIo) (encoded_frame : str) (context : DispatchContext) : DM BrokerResponse :=
  frame ← st_query (λ _, map_err (λ error, Stop (Dispatch_Frame error)) (ControlFrame_decode_complete encoded_frame));
  dispatch_control_frame io frame context.

(** ** Constructors *)

Definition new_in_memory (executor : X) (adapters : W) (session : BrokerSessionId) (replay_capacity : N)
    (budget_limits : SessionBudgetLimits) (github_response_cap : N) : BrokerDispatcher :=
  {| bd_executor := executor; bd_adapters := adapters;
     bd_replay := Some (SessionReplayGuard_new session replay_capacity);
     bd_budget := SessionBudget_new budget_limits;
     bd_github_response_cap := N.min github_response_cap MAX_GITHUB_RESPONSE_BYTES; bd_outcomes := ∅;
     bd_durable := None; bd_sealed := false; bd_session := session; bd_executed := [] |}.

Definition new_durable (executor : X) (adapters : W) (config : DurableSessionConfig) (github_response_cap : N)
    : WR BrokerDispatcher :=
  wal ← wal_create config;
  Ok {| bd_executor := executor; bd_adapters := adapters; bd_replay := None;
        bd_budget := SessionBudget_new (dsc_budget_limits config);
        bd_github_response_cap := N.min github_response_cap MAX_GITHUB_RESPONSE_BYTES; bd_outcomes := ∅;
        bd_durable := Some wal; bd_sealed := false; bd_session := dsc_session config; bd_executed := [] |}.

(** The retained outcome of a recovered request. *)
Definition recovered_outcome (request : DurableRequest) : WR CachedOutcome :=
  match dr_phase request with
  | AcceptedPending => Ok (Cached_AcceptedPending (dr_response_cap request))
  | RetryableBudget => Ok Cached_RetryableBudget
  | Final response => response ← broker_response_from_wire response; Ok (Cached_Final response)
  end.

Fixpoint recovered_outcomes (requests : list DurableRequest) (outcomes : gmap BrokerRequestId CachedOutcome)
    : WR (gmap BrokerRequestId CachedOutcome) :=
  match requests with
  | [] => Ok outcomes
  | request :: rest =>
      cached ← recovered_outcome request;
      recovered_outcomes rest (<[dr_request request := cached]> outcomes)
  end.

(** [history] carries [bd_executed] over a restart. *)
Definition open_durable (executor : X) (adapters : W) (config : DurableSessionConfig) (github_response_cap : N)
    (bytes : str) (repair : option N) (history : list BrokerRequestId) : WR BrokerDispatcher :=
  wal ← wal_open sha256 bytes repair config;
  view ← read_only_view wal;
  budget ← restore_budget view;
  outcomes ← recovered_outcomes (rs_requests view) ∅;
  Ok {| bd_executor := executor; bd_adapters := adapters; bd_replay := None; bd_budget := budget;
        bd_github_response_cap := N.min github_response_cap MAX_GITHUB_RESPONSE_BYTES; bd_outcomes := outcomes;
        bd_durable := Some wal; bd_sealed := false; bd_session := dsc_session config; bd_executed := history |}.
End dispatcher.
Arguments BrokerDispatcher : clear implicits.
