(* ===== verification/DispatchProps.v ===== *)
(** * Invariants of the durable dispatcher

    The log is the truth: the in-memory budget mirrors its counters and every
    retained outcome agrees with its entry, except for the request in flight.  Each
    procedure of [dispatch.rs] is specified by what it does to that relation. *)

From S2P Require Import Prelude Bytes Time Http GitHub Capability ControlFrame Budget ReplayGuard Operation Cbor CborProps Response.
From S2P Require Import ResponseChunk ResponseProps ResponseChunkProps BrokerWalState BrokerWal BrokerWalInvariant BrokerWalHistory.
From S2P Require Import BrokerWalCodec BrokerWalFrames BrokerWalWriter BrokerWalProps BrokerWalClaims Kernel PublicFetch.
From S2P Require Import GitHubAdapter Dispatch.

(** [s'] differs from [s] in the entry of [r], now [e], and in the budget. *)
Record entry_set (r : BrokerRequestId) (e : DurableRequest) (b : BudgetState) (s s' : RecoveredState) : Prop := {
  es_here : view_request s' r = Some e;
  es_there : ∀ r', r' ≠ r → view_request s' r' = view_request s r';
  es_budget : rs_budget s' = b;
}.

Section log.
  Context (sha256 : str → str) (Hsha : ∀ s, len (sha256 s) = RESPONSE_DIGEST_BYTES).
Abbreviation inv := (wal_inv sha256).

(** What holds after every operation. *)
Record log_step (w w' : DurableBrokerWal) : Prop := {
  ls_inv : inv w';
  ls_config : rs_config (bw_state w') = rs_config (bw_state w);
  ls_later : state_later (bw_state w) (bw_state w');
}.

Lemma log_step_refl w : inv w → log_step w w.
Proof. by split. Qed.

Lemma log_step_trans w1 w2 w3 : log_step w1 w2 → log_step w2 w3 → log_step w1 w3.
Proof. intros [? ? ?] [? ? ?]. split; [done|congruence|by etrans]. Qed.

Lemma reserve_result io r w :
  inv w →
  let '(res, w') := wal_reserve io r w in
  let s := bw_state w in
  log_step w w' ∧
  match res with
  | Ok _ => bw_sealed w' = false ∧ ∃ e, view_request s r = Some e ∧ ¬ entry_spent e ∧
      validate_reserve (rs_budget s) r (dr_response_cap e) (dsc_budget_limits (rs_config s)) = Ok tt ∧
      entry_set r (entry_with AcceptedPending (Some (dr_response_cap e)) None e)
        (budget_apply_reserve r (dr_response_cap e) (rs_budget s)) s (bw_state w')
  | Err error => bw_state w' = s ∧ (∀ b, error = Wal_Budget b → ∃ e, view_request s r = Some e ∧ ¬ entry_spent e)
  end.
Proof.
  intros Hi. pose proof (wi_state _ _ Hi) as Hw.
  assert (∀ e, check_reserve r e = Ok tt → ¬ entry_spent e) as Hspent.
  { intros e [Hf Hn]%check_reserve_ok [[? Hs]|Hs]; congruence. }
  pose proof (wal_step_result sha256 Hsha io (WReserve r) w Hi I) as H. cbn [wal_step] in H.
  destruct (wal_reserve io r w) as [[[]|error] w'] eqn:Hop; destruct H as (Hi' & Hc & Hl & H); (split; [by split|]).
  - destruct H as (Hs' & Hs & [[_ []]|(n & s' & (e & Hr & Hck & Hv & ->) & Hst)]). split; [done|].
    exists e. rewrite view_request_Some by done. split_and!; [done|by apply Hspent|done|]. rewrite Hst. split.
    + rewrite view_request_next. by apply reserved_later.
    + intros r' Hne. rewrite view_request_next. by apply reserved_view_ne.
    + done.
  - split; [done|]. intros b ->. revert Hop. unfold wal_reserve. unfold mbind, ST_bind, st_query, ensure_writable.
    destruct (bw_sealed w); [done|]. destruct (rs_request (bw_state w) r) as [e|] eqn:Hr; [|unfold rs_request, rs_find in Hr].
    + destruct (check_reserve r e) as [[]|] eqn:Hck; [intros _; exists e; rewrite view_request_Some by done; auto|].
      unfold check_reserve in Hck. destruct (_ || _) in Hck; by simplify_eq.
    + destruct (rs_request_indexes (bw_state w) !! r) as [i|]; cbn in Hr; [|by simplify_eq].
      destruct (rs_requests (bw_state w) !! i); cbn in Hr; by simplify_eq.
Qed.

Lemma retryable_result io r w :
  inv w →
  let '(res, w') := wal_mark_retryable_budget io r w in
  let s := bw_state w in
  log_step w w' ∧
  match res with
  | Ok _ => ∃ e, view_request s r = Some e ∧ ¬ entry_spent e ∧
      entry_set r (entry_with RetryableBudget None None e) (rs_budget s) s (bw_state w')
  | Err _ => bw_state w' = s
  end.
Proof.
  intros Hi. pose proof (wi_state _ _ Hi) as Hw.
  pose proof (wal_step_result sha256 Hsha io (WRetryable r) w Hi I) as H. cbn [wal_step] in H.
  destruct (wal_mark_retryable_budget io r w) as [[[]|error] w']; destruct H as (Hi' & Hc & Hl & H); (split; [by split|]); [|done].
  destruct H as (_ & _ & [[_ []]|(n & s' & (e & Hr & Hck & ->) & Hst)]). exists e. rewrite view_request_Some by done.
  assert (dr_phase e = AcceptedPending ∧ dr_reservation e = None) as [Hp Hn].
  { unfold check_retryable in Hck. destruct (dr_phase e); cbn in Hck; try done. case_bool_decide as Hb; [done|].
    split; [done|by apply eq_None_not_Some]. }
  split_and!; [done|intros [[? Hs]|Hs]; [congruence|by rewrite Hp in Hs]|]. rewrite Hst. split.
  - rewrite view_request_next. destruct (retryable_later _ _ _ Hw Hr Hck) as [_ ->]. by rewrite Hn.
  - intros r' Hne. rewrite view_request_next. by apply retryable_view_ne.
  - done.
Qed.

Lemma finalize_result io r response settlement w :
  inv w → response_wf response →
  let '(res, w') := wal_finalize sha256 io r response settlement w in
  let s := bw_state w in
  log_step w w' ∧
  match res with
  | Ok _ => ∃ e, view_request s r = Some e ∧ is_final (dr_phase e) = false ∧
      (settlement = SettleNotStarted ↔ dr_reservation e = None) ∧
      validate_settlement (rs_budget s) r settlement = Ok tt ∧
      entry_set r (entry_with (Final response) None (Some settlement) e)
        (budget_apply_settlement r settlement (rs_budget s)) s (bw_state w')
  | Err _ => bw_state w' = s
  end.
Proof.
  intros Hi Hresp. pose proof (wi_state _ _ Hi) as Hw.
  pose proof (wal_step_result sha256 Hsha io (WFinalize r response settlement) w Hi Hresp) as H. cbn [wal_step] in H.
  destruct (wal_finalize sha256 io r response settlement w) as [[[]|error] w']; destruct H as (Hi' & Hc & Hl & H);
    (split; [by split|]); [|done].
  destruct H as (_ & _ & [[_ []]|(n & s' & (e & Hr & Hrr & Hck & Hv & ->) & Hst)]). exists e. rewrite view_request_Some by done.
  pose proof Hck as [Hf Hset]%check_final_ok. split_and!; try done. rewrite Hst. split.
  - rewrite view_request_next. by apply final_later.
  - intros r' Hne. rewrite view_request_next. by apply final_view_ne.
  - unfold final_state. by destruct settlement.
Qed.

Lemma accept_result io envelope cap w :
  inv w → envelope_typed envelope → (cap < u64_limit)%N →
  let '(res, w') := wal_accept io envelope cap w in
  let s := bw_state w in
  let r := be_request envelope in
  log_step w w' ∧
  match res with
  | Ok AcceptedNew => view_request s r = None ∧
      entry_set r (accepted_request (be_sequence envelope) r (be_payload_hash envelope) cap) (rs_budget s) s (bw_state w')
  | Ok (ExactDuplicate e) => bw_state w' = s ∧ validate_duplicate s envelope cap = Ok (Some e)
  | Err _ => bw_state w' = s
  end.
Proof.
  intros Hi Ht Hcap. pose proof (wi_state _ _ Hi) as Hw.
  pose proof (wal_step_result sha256 Hsha io (WAccept envelope cap) w Hi (conj Ht Hcap)) as H. cbn [wal_step] in H.
  unfold mbind, ST_bind in H. destruct (wal_accept io envelope cap w) as [[acceptance|error] w'] eqn:Hop; cbn [mret ST_ret] in H;
    destruct H as (Hi' & Hc & Hl & H); (split; [by split|]); [|done].
  pose proof (wal_accept_result _ _ _ _ _ _ Hop) as [Hres _]. destruct acceptance as [|e].
  - destruct H as (_ & _ & [[-> [e He]]|(n & s' & (Hfresh & ->) & Hst)]); [congruence|].
    split; [unfold view_request; by rewrite Hfresh|]. rewrite Hst. split.
    + rewrite view_request_next. by apply accepted_later.
    + intros r' Hne. rewrite view_request_next. by apply accepted_view_ne.
    + done.
  - destruct Hres as (-> & _ & Hd). done.
Qed.
End log.

(** ** The dispatcher *)

(** What the dispatcher relies on in an executor: success is a commit the callback
    reported, with its value. *)
Class ExecutorLaws (X W : Type) `{CapabilityExecutor X W} := {
  execute_commits : ∀ context request effect x w v x' w',
    execute context request effect (x, w) = (Some (Ok v), (x', w')) →
    ∃ capability receipt, effect capability w = (Exec_Committed v receipt, w');
}.

(** What it relies on in the adapters: their responses were built by the constructors
    of [PublicResponse] and [GitHubResponse], from a request that was built by its
    own. *)
Class AdapterLaws (W : Type) `{DispatchAdapters W} := {
  public_fetch_typed : ∀ request authority w response w',
    CanonicalHost_wf (hr_host request) → CanonicalUrlPath_wf (hr_path request) →
    public_fetch request authority w = (Ok response, w') → outcome_wf (WirePublic (pr_wire response));
  github_execute_typed : ∀ request_id request authority cap w response w',
    github_execute request_id request authority cap w = (Ok response, w') → outcome_wf (WireGitHub (ghr_wire response));
}.

(** An operation as the decoder builds it. *)
Definition op_typed (operation : BrokerOperation) : Prop :=
  match operation with
  | OpPublicFetch request => CanonicalHost_wf (hr_host request) ∧ CanonicalUrlPath_wf (hr_path request) ∧
      (hr_max_response_bytes request < u64_limit)%N
  | OpGitHub _ => True
  end.

(** The wire form of an effect. *)
Definition effect_wire (effect : BrokerEffect) : BrokerWireOutcome :=
  match effect with
  | EffectPublic public => WirePublic (pr_wire public)
  | EffectGitHub github => WireGitHub (ghr_wire github)
  end.

(** An effect a reservation of [cap] bytes covers. *)
Definition effect_within (cap : N) (effect : BrokerEffect) : Prop :=
  outcome_wf (effect_wire effect) ∧ (effect_response_bytes effect <= cap)%N ∧ (body_bytes (effect_wire effect) <= cap)%N.

(** A retained outcome and the log's entry of the same request. *)
Definition agrees (cached : option CachedOutcome) (entry : option DurableRequest) : Prop :=
  match entry with
  | None => cached = None
  | Some e =>
      match dr_phase e with
      | AcceptedPending => cached = Some (Cached_AcceptedPending (dr_response_cap e)) ∨
          cached = Some Cached_RetryableBudget ∧ is_Some (dr_reservation e)
      | RetryableBudget => cached = Some Cached_RetryableBudget
      | Final wire => ∃ response, cached = Some (Cached_Final response) ∧ broker_response_to_wire response = wire
      end
  end.

Section dispatcher.
  Context {X W : Type} `{!CapabilityExecutor X W} `{!DispatchAdapters W} `{!ExecutorLaws X W} `{!AdapterLaws W}.
  Context (sha256 : str → str) (Hsha : ∀ s, len (sha256 s) = RESPONSE_DIGEST_BYTES).
  Context (config : DurableSessionConfig) (cap0 : N).

Abbreviation D := (BrokerDispatcher X W).
Abbreviation inv := (wal_inv sha256).
Abbreviation step := (log_step sha256).
Abbreviation limits := (dsc_budget_limits config).

(** The log [w] of [d], and the history it accounts for. *)
Record core (d : D) (w : DurableBrokerWal) : Prop := {
  co_wal : bd_durable d = Some w;
  co_inv : inv w;
  co_config : rs_config (bw_state w) = config;
  co_session : bd_session d = dsc_session config;
  co_cap : bd_github_response_cap d = cap0;
  co_once : NoDup (bd_executed d);
  co_spent : ∀ r, r ∈ bd_executed d → ∃ e, view_request (bw_state w) r = Some e ∧ entry_spent e;
}.

(** Memory and log agree on the requests in [P]. *)
Record synced (P : BrokerRequestId → Prop) (d : D) (w : DurableBrokerWal) : Prop := {
  sy_budget : bd_budget d = mirror limits (rs_budget (bw_state w));
  sy_outcomes : ∀ r, P r → agrees (bd_outcomes d !! r) (view_request (bw_state w) r);
}.

Abbreviation others r := (λ r', r' ≠ r).
Abbreviation all := (λ _ : BrokerRequestId, True).

(** What settling a request leaves alone. *)
Definition carried (d d' : D) : Prop :=
  bd_outcomes d' = bd_outcomes d ∧ bd_sealed d' = bd_sealed d ∧ bd_executed d' = bd_executed d.

(** The request of [response] is final in the log with that response. *)
Definition finished (response : BrokerResponse) (d : D) (w : DurableBrokerWal) (d' : D) : Prop :=
  ∃ w' e, core d' w' ∧ step w w' ∧ synced (others (br_request response)) d' w' ∧ carried d d' ∧
    view_request (bw_state w') (br_request response) = Some e ∧ dr_phase e = Final (broker_response_to_wire response).

(** The dispatcher gave up on its log. *)
Definition failed (d : D) (w : DurableBrokerWal) (e : DispatchStop) (d' : D) : Prop :=
  e = Stop DurableUnavailable ∧ bd_sealed d' = true ∧ bd_executed d' = bd_executed d ∧ ∃ w', core d' w' ∧ step w w'.

(** The disk takes the final record and the reservation covers it. *)
Definition covered (io : WalIo) (w : DurableBrokerWal) (response : BrokerResponse) (settlement : BudgetSettlement) : Prop :=
  io = wal_io_ok ∧ bw_sealed w = false ∧ ∃ e cap, view_request (bw_state w) (br_request response) = Some e ∧
    dr_reservation e = Some cap ∧ (body_bytes (rsp_outcome (broker_response_to_wire response)) <= cap)%N ∧
    (settlement = SettleAbort ∨ ∃ n, settlement = SettleComplete n ∧ (n <= cap)%N).

Lemma core_durable d w w' : core d w → step w w' → core (bd_with_durable w' d) w'.
Proof.
  intros [? ? ? ? ? ? Hs] [? ? Hl]. split; try done; [congruence|]. intros r (e & He & Hsp)%Hs.
  destruct (Hl r e He) as (e' & He' & L). exists e'. split; [done|by apply L].
Qed.

Lemma core_ext d d' w :
  core d w → bd_durable d' = bd_durable d → bd_session d' = bd_session d →
  bd_github_response_cap d' = bd_github_response_cap d → bd_executed d' = bd_executed d → core d' w.
Proof. intros [? ? ? ? ? ? ?] H1 H2 H3 H4. split; rewrite ?H4; done || congruence. Qed.

Lemma core_state d w : core d w → state_wf (bw_state w).
Proof. intros C. apply C. Qed.

(** An entry was set in the log; the outcomes in memory are as before. *)
Lemma synced_set r e b d d' w w' :
  synced (others r) d w → entry_set r e b (bw_state w) (bw_state w') →
  bd_budget d' = mirror limits b → bd_outcomes d' = bd_outcomes d → synced (others r) d' w'.
Proof.
  intros [_ Ho] [_ He Hb] Hb' Ho'. split; [by rewrite Hb', Hb|]. intros r' Hne. rewrite Ho', He by done. auto.
Qed.

(** ** Settling *)

Lemma finalize_spec io response settlement d w :
  core d w → response_wf (broker_response_to_wire response) →
  wp (finalize_durable sha256 io response settlement)
    (λ _ d', ∃ w' e, d' = bd_with_durable w' d ∧ step w w' ∧
       view_request (bw_state w) (br_request response) = Some e ∧ is_final (dr_phase e) = false ∧
       validate_settlement (rs_budget (bw_state w)) (br_request response) settlement = Ok tt ∧
       entry_set (br_request response) (entry_with (Final (broker_response_to_wire response)) None (Some settlement) e)
         (budget_apply_settlement (br_request response) settlement (rs_budget (bw_state w))) (bw_state w) (bw_state w'))
    (λ e d', failed d w e d' ∧ ¬ covered io w response settlement) d.
Proof.
  intros C Hwf. unfold finalize_durable. apply wp_bind, wp_get. rewrite (co_wal _ _ C). apply wp_bind.
  unfold with_wal, wp at 1. pose proof (finalize_result sha256 Hsha io (br_request response) (broker_response_to_wire response) settlement w (co_inv _ _ C) Hwf) as H.
  destruct (wal_finalize sha256 io (br_request response) (broker_response_to_wire response) settlement w) as [[[]|error] w'] eqn:Hop.
  - destruct H as [Hst (e & He & Hf & _ & Hv & Hset)]. apply wp_ret. by exists w', e.
  - destruct H as [Hst Hsame]. unfold seal_durable. apply wp_bind, wp_modify, wp_fail. split.
    + split_and!; try done. exists w'. split; [|done]. eapply core_ext; [apply (core_durable d w w' C Hst)|done..].
    + intros (-> & Hs & e & cap & He & Hr & Hb & Hset).
      destruct (reserved_finalize_ok sha256 w (br_request response) e cap (broker_response_to_wire response) settlement Hsha
        (co_inv _ _ C) Hs He Hr Hwf eq_refl Hb Hset) as (w'' & Hok & _). congruence.
Qed.

(** The log's settlement and the budget's. *)
Lemma settle_budget_spec b r settlement :
  budget_inv (mirror limits b) → validate_settlement b r settlement = Ok tt →
  match settlement with
  | SettleNotStarted => mirror limits (budget_apply_settlement r settlement b) = mirror limits b
  | SettleAbort => SessionBudget_abort r (mirror limits b) = (Ok tt, mirror limits (budget_apply_settlement r settlement b))
  | SettleComplete n => SessionBudget_complete r n (mirror limits b) = (Ok tt, mirror limits (budget_apply_settlement r settlement b))
  end.
Proof.
  intros Hb Hv. destruct settlement as [| |n]; [done| |].
  - rewrite settle_is_abort by done. by rewrite Hv.
  - rewrite settle_is_complete. by rewrite Hv.
Qed.

Lemma mirrored d w P : core d w → synced P d w → budget_inv (mirror limits (rs_budget (bw_state w))).
Proof. intros C _. rewrite <- (co_config _ _ C). apply (sw_budget _ (core_state _ _ C)). Qed.

(** The final record is in the log and the budget has followed. *)
Lemma finished_intro response settlement e d w w' d' :
  core d w → synced (others (br_request response)) d w → step w w' →
  entry_set (br_request response) (entry_with (Final (broker_response_to_wire response)) None (Some settlement) e)
    (budget_apply_settlement (br_request response) settlement (rs_budget (bw_state w))) (bw_state w) (bw_state w') →
  d' = bd_with_budget (mirror limits (budget_apply_settlement (br_request response) settlement (rs_budget (bw_state w))))
         (bd_with_durable w' d) →
  finished response d w d'.
Proof.
  intros C S Hst Hset ->. eexists w', _. split_and!; [|done| |done|apply Hset|done].
  - eapply core_ext; [apply (core_durable d w w' C Hst)|done..].
  - by eapply synced_set.
Qed.

(** Finalising with the reservation's bytes charged, and the budget's own step. *)
Lemma complete_spec io response n d w :
  core d w → synced (others (br_request response)) d w → response_wf (broker_response_to_wire response) →
  wp (finalize_durable sha256 io response (SettleComplete n))
    (λ _ d', wp (with_budget (SessionBudget_complete (br_request response) n))
       (λ completed d', completed = Ok tt ∧ finished response d w d') (λ _ _, False) d')
    (λ e d', failed d w e d' ∧ ¬ covered io w response (SettleComplete n)) d.
Proof.
  intros C S Hwf. eapply wp_mono; [by apply finalize_spec| |done].
  intros _ d' (w' & e & -> & Hst & _ & _ & Hv & Hset). unfold wp, with_budget. cbn [bd_with_durable bd_budget].
  pose proof (settle_budget_spec _ _ _ (mirrored _ _ _ C S) Hv) as Hb. cbn in Hb. rewrite (sy_budget _ _ _ S), Hb.
  split; [done|]. by eapply finished_intro.
Qed.

Lemma abort_spec io response d w :
  core d w → synced (others (br_request response)) d w → response_wf (broker_response_to_wire response) →
  wp (finalize_durable sha256 io response SettleAbort)
    (λ _ d', wp (with_budget (SessionBudget_abort (br_request response))) (λ _ d', finished response d w d') (λ _ _, False) d')
    (λ e d', failed d w e d' ∧ ¬ covered io w response SettleAbort) d.
Proof.
  intros C S Hwf. eapply wp_mono; [by apply finalize_spec| |done].
  intros _ d' (w' & e & -> & Hst & _ & _ & Hv & Hset). unfold wp, with_budget. cbn [bd_with_durable bd_budget].
  pose proof (settle_budget_spec _ _ _ (mirrored _ _ _ C S) Hv) as Hb. cbn in Hb. rewrite (sy_budget _ _ _ S), Hb.
  by eapply finished_intro.
Qed.

Lemma not_started_spec io response d w :
  core d w → synced (others (br_request response)) d w → response_wf (broker_response_to_wire response) →
  wp (finalize_durable sha256 io response SettleNotStarted) (λ _ d', finished response d w d') (failed d w) d.
Proof.
  intros C S Hwf. eapply wp_mono; [by apply finalize_spec| |by intros ? ? []].
  intros _ d' (w' & e & -> & Hst & _ & _ & Hv & Hset). eapply finished_intro; [done|done|done|done|].
  cbn [budget_apply_settlement]. rewrite <- (sy_budget _ _ _ S). by destruct d.
Qed.

Lemma rejected_wf r rejection : len r = REQUEST_ID_BYTES → response_wf (broker_response_to_wire (rejected r rejection)).
Proof. by split. Qed.

(** A completion and an abort as the dispatcher writes them. *)
Definition answered (r : BrokerRequestId) (d : D) (w : DurableBrokerWal) (answer : BrokerResponse * option CachedOutcome)
    (d' : D) : Prop :=
  br_request answer.1 = r ∧ answer.2 = None ∧ finished answer.1 d w d'.

Lemma complete_answers io response n d w (k : D → ST D DispatchStop (BrokerResponse * option CachedOutcome)) :
  core d w → synced (others (br_request response)) d w → response_wf (broker_response_to_wire response) →
  wp (finalize_durable sha256 io response (SettleComplete n) ≫= λ _,
      with_budget (SessionBudget_complete (br_request response) n) ≫= λ completed,
      st_get ≫= λ self, match completed with Ok _ => mret (response, None) | Err _ => k self end)
    (answered (br_request response) d w) (λ e d', failed d w e d' ∧ ¬ covered io w response (SettleComplete n)) d.
Proof.
  intros C S Hwf. apply wp_bind. eapply wp_mono; [by apply complete_spec| |done]. intros [] d' Hc. apply wp_bind.
  eapply wp_mono; [exact Hc| |done]. intros c d'' [-> Hfin]. by apply wp_bind, wp_get, wp_ret.
Qed.

Lemma abort_answers io response d w :
  core d w → synced (others (br_request response)) d w → response_wf (broker_response_to_wire response) →
  wp (finalize_durable sha256 io response SettleAbort ≫= λ _,
      with_budget (SessionBudget_abort (br_request response)) ≫= λ _, mret (response, None))
    (answered (br_request response) d w) (λ e d', failed d w e d' ∧ ¬ covered io w response SettleAbort) d.
Proof.
  intros C S Hwf. apply wp_bind. eapply wp_mono; [by apply abort_spec| |done]. intros [] d' Hc. apply wp_bind.
  eapply wp_mono; [exact Hc| |done]. intros c d'' Hfin. by apply wp_ret.
Qed.

Lemma view_request_len d w r e : core d w → view_request (bw_state w) r = Some e → len r = REQUEST_ID_BYTES.
Proof.
  intros C He. pose proof (core_state _ _ C) as Hw. apply (view_request_Some _ _ _ Hw) in He.
  destruct (rs_request_ok _ _ _ Hw He) as (i & _ & Hi & <- & _). apply (sw_entries _ Hw _ _ Hi).
Qed.

(** The executor's verdict on a reserved request always becomes its final record,
    unless the log fails. *)
Lemma settle_execution_spec io r cap outcome d w e :
  core d w → synced (others r) d w → view_request (bw_state w) r = Some e → dr_reservation e = Some cap →
  (∀ effect, outcome = Ok effect → effect_within cap effect) →
  wp (settle_execution sha256 io r cap outcome) (answered r d w)
    (λ e d', failed d w e d' ∧ ¬ (io = wal_io_ok ∧ bw_sealed w = false)) d.
Proof.
  intros C S He Hr Hout. pose proof (view_request_len _ _ _ _ C He) as Hlen.
  assert (∀ response settlement, br_request response = r →
    (body_bytes (rsp_outcome (broker_response_to_wire response)) <= cap)%N →
    (settlement = SettleAbort ∨ ∃ n, settlement = SettleComplete n ∧ (n <= cap)%N) →
    ∀ st d', failed d w st d' ∧ ¬ covered io w response settlement →
    failed d w st d' ∧ ¬ (io = wal_io_ok ∧ bw_sealed w = false)) as Hcov.
  { intros response settlement Hrr Hb Hset st d' [Hfail Hno]. split; [done|]. intros [Hio Hs]. apply Hno.
    split_and!; [done|done|]. exists e, cap. by rewrite Hrr. }
  unfold settle_execution. destruct outcome as [effect|error].
  - destruct (Hout _ eq_refl) as (Hwf & Hbytes & Hb). set (response := {| br_request := r; br_outcome := Succeeded effect |}).
    eapply wp_mono; [eapply (complete_answers io response); [done|done|]|done|].
    + split; [done|]. by destruct effect.
    + apply Hcov; [done|by destruct effect|right; by eexists].
  - assert (∀ rejection, (body_bytes (rsp_outcome (broker_response_to_wire (rejected r rejection))) <= cap)%N) as Hbody
      by (intros; cbn; lia).
    assert (∀ rejection, wp (finalize_durable sha256 io (rejected r rejection) SettleAbort ≫= λ _,
      with_budget (SessionBudget_abort r) ≫= λ _, mret (rejected r rejection, None)) (answered r d w)
      (λ e d', failed d w e d' ∧ ¬ (io = wal_io_ok ∧ bw_sealed w = false)) d) as Hab.
    { intros rejection. eapply wp_mono; [exact (abort_answers io (rejected r rejection) d w C S (rejected_wf r rejection Hlen))|done|].
      apply Hcov; [done|apply Hbody|by left]. }
    destruct error as [| | | |[]]; [exact (Hab _)|exact (Hab _)|exact (Hab _)| |exact (Hab _)..].
    eapply wp_mono; [exact (complete_answers io (rejected r Reject_CommittedButUnrecorded) cap d w _ C S (rejected_wf r _ Hlen))|done|].
    apply Hcov; [done|apply Hbody|right; by eexists].
Qed.

(** ** The request in flight *)

(** The outcome to retain for [r] agrees with the log, which agrees with memory on
    everything else. *)
Definition settled (r : BrokerRequestId) (d : D) (w : DurableBrokerWal) (answer : BrokerResponse * option CachedOutcome)
    (d' : D) : Prop :=
  let cached := default (Cached_Final answer.1) answer.2 in
  br_request answer.1 = r ∧
  (cached = Cached_Final answer.1 ∨ cached = Cached_RetryableBudget ∧ answer.1 = rejected r Reject_Budget) ∧
  ∃ w', core d' w' ∧ step w w' ∧ synced (others r) d' w' ∧ bd_sealed d' = bd_sealed d ∧
    agrees (Some cached) (view_request (bw_state w') r).

(** A response was delivered and memory agrees with the log. *)
Definition delivered (r : BrokerRequestId) (d : D) (w : DurableBrokerWal) (response : BrokerResponse) (d' : D) : Prop :=
  br_request response = r ∧
  (bd_outcomes d' !! r = Some (Cached_Final response) ∨
   bd_outcomes d' !! r = Some Cached_RetryableBudget ∧ response = rejected r Reject_Budget) ∧
  ∃ w', core d' w' ∧ step w w' ∧ synced all d' w' ∧ bd_sealed d' = bd_sealed d.

Lemma answered_settled r d w answer d' : answered r d w answer d' → settled r d w answer d'.
Proof.
  destruct answer as [response cached]. intros (Hr & Hc & w' & e & C & Hst & S & (Ho & Hs & _) & He & Hp). cbn in *. subst.
  split_and!; [done|by left|]. exists w'. split_and!; try done. rewrite He. cbn. rewrite Hp. by exists response.
Qed.

Lemma remember_spec r d0 w answer d :
  settled r d0 w answer d →
  wp (remember r (default (Cached_Final answer.1) answer.2)) 
    (λ _ d', delivered r d0 w answer.1 d' ∧ bd_executed d' = bd_executed d ∧
       bd_outcomes d' !! r = Some (default (Cached_Final answer.1) answer.2)) (λ _ _, False) d.
Proof.
  intros (Hr & Hc & w' & C & Hst & [Hb Ho] & Hs & Ha). apply wp_modify. split; [|split; [done|apply lookup_insert_eq]]. split_and!; [done| |].
  - cbn. rewrite lookup_insert_eq. destruct Hc as [->|[-> ->]]; [by left|by right].
  - exists w'. split_and!; [eapply core_ext; [exact C|done..]|done| |done]. split; [done|]. intros r' _. cbn.
    destruct (decide (r' = r)) as [->|]; [by rewrite lookup_insert_eq|]. rewrite lookup_insert_ne by done. auto.
Qed.

Lemma synced_others r d w : synced all d w → synced (others r) d w.
Proof. intros [? ?]. split; auto. Qed.

(** A request found pending is closed as possibly committed, without an effect. *)
Lemma recover_spec io r cap d w :
  core d w → synced all d w → bd_outcomes d !! r = Some (Cached_AcceptedPending cap) →
  wp (recover_accepted_pending sha256 io r cap)
    (λ response d', delivered r d w response d' ∧ bd_executed d' = bd_executed d) (failed d w) d.
Proof.
  intros C S Hr. pose proof (sy_outcomes _ _ _ S r I) as Ha. rewrite Hr in Ha. unfold agrees in Ha.
  destruct (view_request (bw_state w) r) as [e|] eqn:He; [|done].
  pose proof (view_request_len _ _ _ _ C He) as Hlen. set (response := rejected r Reject_CommittedButUnrecorded).
  assert (∀ d', finished response d w d' → wp (remember r (Cached_Final response) ≫= λ _, mret response)
    (λ response d', delivered r d w response d' ∧ bd_executed d' = bd_executed d) (failed d w) d') as Hrem.
  { intros d' Hfin. apply wp_bind. eapply wp_mono; [apply (remember_spec r d w (response, None)), answered_settled; by split_and!| |done].
    intros _ d'' (Hd & Hx & _). apply wp_ret. split; [done|]. rewrite Hx. by destruct Hfin as (? & ? & _ & _ & _ & (_ & _ & Hx') & _). }
  unfold recover_accepted_pending. apply wp_bind, wp_get. rewrite (co_wal _ _ C). unfold read_only_view.
  destruct (bw_sealed w) eqn:Hs.
  { apply wp_bind, wp_modify, wp_fail. split_and!; try done. exists w. split; [eapply core_ext; [exact C|done..]|].
    apply log_step_refl, C. }
  rewrite He. apply wp_bind. pose proof (synced_others r _ _ S) as S'. case_bool_decide as Hact.
  - eapply wp_mono; [apply (complete_spec io response cap d w C S'); by apply rejected_wf| |by intros ? ? []].
    intros [] d' Hc. apply wp_bind. eapply wp_mono; [exact Hc| |done]. intros c d'' [-> Hfin]. auto.
  - eapply wp_mono; [apply (not_started_spec io response d w C S'); by apply rejected_wf| |done].
    intros [] d' Hc. apply wp_bind, wp_ret. auto.
Qed.

(** ** Starting a request *)

(** The reservation, in the log and in the budget. *)
Lemma start_spec io r cap d w e :
  core d w → synced (others r) d w → view_request (bw_state w) r = Some e → dr_response_cap e = cap →
  wp (start_budget io r cap)
    (λ started d', ¬ entry_spent e ∧ carried d d' ∧ ∃ w', core d' w' ∧ step w w' ∧ synced (others r) d' w' ∧
       match started with
       | Ok _ => bw_sealed w' = false ∧
           view_request (bw_state w') r = Some (entry_with AcceptedPending (Some cap) None e)
       | Err _ => bw_state w' = bw_state w
       end)
    (failed d w) d.
Proof.
  intros C S He Hcap. unfold start_budget. apply wp_bind, wp_get. rewrite (co_wal _ _ C). apply wp_bind.
  unfold with_wal, wp at 1. pose proof (reserve_result sha256 Hsha io r w (co_inv _ _ C)) as H.
  assert (∀ w', step w w' → failed d w (Stop DurableUnavailable) (bd_seal (bd_with_durable w' d))) as Hfail.
  { intros w' Hst. split_and!; try done. exists w'. split; [|done]. eapply core_ext; [exact (core_durable d w w' C Hst)|done..]. }
  destruct (wal_reserve io r w) as [[[]|error] w'].
  - destruct H as (Hst & Hs & e' & He' & Hsp & Hv & Hset). assert (e' = e) as -> by congruence. subst cap.
    apply wp_bind. unfold with_budget, wp at 1. cbn [bd_with_durable bd_budget]. rewrite (sy_budget _ _ _ S), reserve_is_start.
    rewrite (co_config _ _ C) in Hv. rewrite Hv. apply wp_ret. split_and!; [done|done|]. exists w'.
    split_and!; [eapply core_ext; [exact (core_durable d w w' C Hst)|done..]|done|by eapply synced_set|done|by apply Hset].
  - destruct H as (Hst & Hsame & Hbud). destruct error as [| | | | | | | | | | | | | | | | | | | | | | |b| | | | |]; try (apply wp_bind, wp_modify, wp_fail; by apply Hfail).
    apply wp_ret. destruct (Hbud _ eq_refl) as (e' & He' & Hsp). assert (e' = e) as -> by congruence.
    split_and!; [done|done|]. exists w'. split_and!; [by apply (core_durable d w)|done| |done].
    destruct S as [Hb Ho]. split; rewrite ?Hsame; [done|]. intros r' Hne. by apply Ho.
Qed.

(** A denial is final or may be retried, in the log as in memory. *)
Lemma deny_spec io r error (resuming : bool) d w e :
  core d w → synced (others r) d w → view_request (bw_state w) r = Some e →
  (if resuming then dr_phase e = RetryableBudget else True) →
  wp (deny_budget sha256 io r error resuming)
    (λ answer d', settled r d w answer d' ∧ bd_executed d' = bd_executed d) (failed d w) d.
Proof.
  intros C S He Hres. pose proof (view_request_len _ _ _ _ C He) as Hlen. set (response := rejected r Reject_Budget).
  unfold deny_budget. apply wp_bind, wp_get. destruct (is_retryable_budget_error _ _).
  2:{ apply wp_bind. eapply wp_mono; [apply (not_started_spec _ response d w C S); by apply rejected_wf| |done].
      intros [] d' Hfin. apply wp_ret. split; [|by destruct Hfin as (? & ? & _ & _ & _ & (_ & _ & Hx') & _)].
      destruct (answered_settled r d w (response, None) d') as (? & ? & ?); [by split_and!|]. split_and!; [done|by left|done]. }
  rewrite (co_wal _ _ C). destruct resuming.
  - apply wp_ret. split; [|done]. split_and!; [done|by right|]. exists w. split_and!; try done; [apply log_step_refl, C|].
    rewrite He. unfold agrees. by rewrite Hres.
  - apply wp_bind. unfold with_wal, wp at 1. pose proof (retryable_result sha256 Hsha (dio_retryable io) r w (co_inv _ _ C)) as H.
    destruct (wal_mark_retryable_budget (dio_retryable io) r w) as [[[]|?] w'].
    + destruct H as (Hst & e' & He' & _ & Hset). apply wp_ret. split; [|done]. split_and!; [done|by right|]. exists w'.
      split_and!; [by apply (core_durable d w)|done| |done|by rewrite (es_here _ _ _ _ _ Hset)].
      eapply synced_set; [exact S|exact Hset|apply S|done].
    + destruct H as (Hst & Hsame). apply wp_bind, wp_modify, wp_fail. split_and!; try done. exists w'. split; [|done].
      eapply core_ext; [exact (core_durable d w w' C Hst)|done..].
Qed.

(** ** Running the effect *)

(** What an adapter commits stays within the operation's cap. *)
Lemma adapter_within operation r hash cap capability (w w' : W) v receipt :
  op_typed operation → dispatch_adapter operation r hash cap capability w = (Exec_Committed v receipt, w') →
  effect_within (default cap (public_response_byte_limit operation)) v.
Proof using AdapterLaws0.
  intros Hop. unfold dispatch_adapter. destruct operation as [request|request], (cap_authority capability) as [|authority|authority]; try done; cbn.
  - destruct (public_fetch request authority w) as [[response|] w1] eqn:Hf; [|done].
    destruct (validate_dispatch response request authority) eqn:Hv; [|done]. intros [= <- <- <-].
    unfold validate_dispatch in Hv. rewrite !andb_true_iff, N.leb_le in Hv. destruct Hv as [[Hl _] _].
    destruct Hop as (? & ? & _). split_and!; [by eapply public_fetch_typed|done|done].
  - destruct (github_execute r request authority cap w) as [[response|?] w1] eqn:Hf; cbn [mbind result_bind]; [|by case_match].
    unfold validate_dispatch_binding. destruct (_ || _ || _) eqn:Hv; [done|]. intros [= <- <- <-].
    rewrite !orb_false_iff, N.ltb_ge in Hv. destruct Hv as [[Hl _] _].
    split_and!; [by eapply github_execute_typed|done|cbn; lia].
Qed.

Lemma run_executor_spec r operation hash context d w e :
  op_typed operation → core d w → synced (others r) d w → view_request (bw_state w) r = Some e → entry_spent e → r ∉ bd_executed d →
  wp (run_executor r operation hash context)
    (λ outcome d', core d' w ∧ synced (others r) d' w ∧ bd_sealed d' = bd_sealed d ∧ bd_outcomes d' = bd_outcomes d ∧
       bd_executed d' = bd_executed d ++ [r] ∧
       ∀ effect, outcome = Ok effect → effect_within (operation_response_cap d operation) effect)
    (λ st d', core d' w ∧ synced (others r) d' w ∧ bd_sealed d' = bd_sealed d ∧ bd_outcomes d' = bd_outcomes d ∧
       bd_executed d' = bd_executed d ++ [r] ∧ st = Unwind) d.
Proof using AdapterLaws0 ExecutorLaws0.
  intros Hop C S He Hsp Hnew. unfold wp, run_executor.
  destruct (execute _ _ _ _) as [res [x' w']] eqn:Hx.
  assert (core (bd_with_execution x' w' r d) w) as C'.
  { destruct C as [? ? ? ? ? Ho Hs]. split; try done; cbn.
    - apply NoDup_app. split_and!; [done| |apply NoDup_singleton]. intros r' Hr' Hr%list_elem_of_singleton. congruence.
    - intros r' Hr'. apply elem_of_app in Hr' as [Hr'|Hr']; [by apply Hs|]. apply list_elem_of_singleton in Hr' as ->. by exists e. }
  assert (synced (others r) (bd_with_execution x' w' r d) w) as S' by (by destruct S).
  destruct res as [outcome|]; split_and!; try done. intros effect ->.
  apply execute_commits in Hx as (capability & receipt & Hx). by eapply adapter_within.
Qed.

(** ** A whole dispatch *)

(** The effect did not run, or it ran and its outcome is final. *)
Definition ran (r : BrokerRequestId) (final : Prop) (d d' : D) : Prop :=
  bd_executed d' = bd_executed d ∨ bd_executed d' = bd_executed d ++ [r] ∧ final.

(** A dispatch ended without a response.  When the effect ran, it panicked or the disk
    refused the final record. *)
Definition interrupted (r : BrokerRequestId) (io : DispatchIo) (d : D) (w : DurableBrokerWal) (st : DispatchStop)
    (d' : D) : Prop :=
  (bd_executed d' = bd_executed d ∨
   bd_executed d' = bd_executed d ++ [r] ∧ (st = Unwind ∨ dio_finalize io ≠ wal_io_ok)) ∧
  ∃ w', core d' w' ∧ step w w' ∧ (bd_sealed d' = false → synced all d' w').

Lemma failed_interrupted r io d w st d' : failed d w st d' → interrupted r io d w st d'.
Proof.
  intros (-> & Hs & Hx & w' & C & Hst). split; [by left|]. exists w'. split_and!; try done. by rewrite Hs.
Qed.

Lemma settled_trans r d w d1 w1 answer d' :
  settled r d1 w1 answer d' → step w w1 → bd_sealed d1 = bd_sealed d → settled r d w answer d'.
Proof.
  intros (Hr & Hc & w' & C & Hst & S & Hs & Ha) Hst1 Hs1. split_and!; [done|done|]. exists w'.
  split_and!; try done; [by eapply log_step_trans|congruence].
Qed.

Lemma dispatch_new_spec io r operation hash context (resuming : bool) d w e :
  op_typed operation → core d w → synced all d w → view_request (bw_state w) r = Some e →
  dr_response_cap e = operation_response_cap d operation →
  bd_outcomes d !! r = Some (if resuming then Cached_RetryableBudget else Cached_AcceptedPending (dr_response_cap e)) →
  wp (dispatch_new sha256 io r operation hash context resuming)
    (λ answer d', settled r d w answer d' ∧ ran r (answer.2 = None) d d') (interrupted r io d w) d.
Proof using AdapterLaws0 ExecutorLaws0 Hsha.
  intros Hop C S He Hcap Hout. pose proof (view_request_len _ _ _ _ C He) as Hlen. pose proof (synced_others r _ _ S) as S'.
  pose proof (sy_outcomes _ _ _ S r I) as Ha. rewrite Hout, He in Ha. unfold agrees in Ha.
  unfold dispatch_new. destruct (match public_response_byte_limit operation with Some limit => _ | None => _ end).
  { set (response := rejected r (Reject_PublicFetch OperationRejected)). apply wp_bind.
    eapply wp_mono; [apply (not_started_spec _ response d w C S'); by apply rejected_wf| |apply failed_interrupted].
    intros [] d' Hfin. apply wp_ret. split; [apply answered_settled; by split_and!|].
    left. by destruct Hfin as (? & ? & _ & _ & _ & (_ & _ & Hx') & _). }
  apply wp_bind, wp_get. apply wp_bind. eapply wp_mono; [apply (start_spec _ r _ d w e C S' He Hcap)| |apply failed_interrupted].
  intros started d1 (Hsp & (Ho1 & Hs1 & Hx1) & w1 & C1 & Hst1 & S1 & Hstart). destruct started as [[]|error].
  - destruct Hstart as [Hsealed He1]. apply wp_bind.
    assert (r ∉ bd_executed d1) as Hnew.
    { rewrite Hx1. intros (e' & He' & Hsp')%(co_spent _ _ C). congruence. }
    eapply wp_mono; [apply (run_executor_spec r operation hash context d1 w1 _ Hop C1 S1 He1); [left; by eexists|done]| |].
    + intros outcome d2 (C2 & S2 & Hs2 & Ho2 & Hx2 & Hwithin).
      assert (operation_response_cap d1 operation = operation_response_cap d operation) as Hcap1
        by (unfold operation_response_cap; by rewrite (co_cap _ _ C), (co_cap _ _ C1)).
      eapply wp_mono; [eapply (settle_execution_spec _ r _ outcome d2 w1 _ C2 S2 He1 eq_refl)| |].
      * by rewrite <- Hcap1.
      * intros answer d3 Hans. split; [apply (settled_trans r d w d2 w1); [by apply answered_settled|done|congruence]|].
        right. destruct Hans as (_ & Hnone & ? & ? & _ & _ & _ & (_ & _ & Hx3) & _). split; [congruence|done].
      * intros st d3 [(-> & Hs3 & Hx3 & w3 & C3 & Hst3) Hno]. split; [right; split; [congruence|right; naive_solver]|].
        exists w3. split_and!; [done|by eapply log_step_trans|by rewrite Hs3].
    + intros st d2 (C2 & [Hb2 Ho2'] & Hs2 & Ho2 & Hx2 & ->). split; [right; split; [congruence|by left]|].
      exists w1. split_and!; [done|done|]. intros _. split; [done|]. intros r' _.
      destruct (decide (r' = r)) as [->|]; [|auto]. rewrite He1, Ho2, Ho1, Hout. cbn.
      destruct resuming; [right; by eauto|by left].
  - assert (view_request (bw_state w1) r = Some e) as He1 by (by rewrite Hstart).
    eapply wp_mono; [apply (deny_spec io r error resuming d1 w1 e C1 S1 He1)| |].
    + destruct resuming; [|done]. destruct (dr_phase e) eqn:Hp; [|done|by destruct Ha as (? & ? & _)].
      destruct Ha as [?|[_ Hr]]; [done|]. destruct Hsp. by left.
    + intros answer d2 [Hset Hx]. split; [by eapply settled_trans|left; congruence].
    + intros st d2 (-> & Hs2 & Hx2 & w2 & C2 & Hst2). split; [left; congruence|].
      exists w2. split_and!; [done|by eapply log_step_trans|by rewrite Hs2].
Qed.

Lemma dispatch_and_remember_spec io request context (resuming : bool) d w e :
  let r := be_request (cbr_envelope request) in
  op_typed (cbr_operation request) → core d w → synced all d w → view_request (bw_state w) r = Some e →
  dr_response_cap e = operation_response_cap d (cbr_operation request) →
  bd_outcomes d !! r = Some (if resuming then Cached_RetryableBudget else Cached_AcceptedPending (dr_response_cap e)) →
  wp (dispatch_and_remember sha256 io request context resuming)
    (λ response d', delivered r d w response d' ∧ ran r (bd_outcomes d' !! r = Some (Cached_Final response)) d d') (interrupted r io d w) d.
Proof using AdapterLaws0 ExecutorLaws0 Hsha.
  intros r Hop C S He Hcap Hout. apply wp_bind. eapply wp_mono; [by apply (dispatch_new_spec io r _ _ _ _ d w e)| |done].
  intros [response cached] d' [Hset Hran]. apply wp_bind.
  eapply wp_mono; [apply (remember_spec r d w (response, cached) d' Hset)| |done].
  intros _ d'' (Hd & Hx & Ho). apply wp_ret. split; [done|]. unfold ran in *. rewrite Hx.
  destruct Hran as [Hran|[Hran Hnone]]; [by left|right; split; [done|]]. cbn in Hnone. by subst cached.
Qed.

(** The log holds the request with this identity and cap. *)
Definition bound (envelope : BrokerEnvelope) (cap : N) (w : DurableBrokerWal) : Prop :=
  be_session envelope = dsc_session config ∧ ∃ e, view_request (bw_state w) (be_request envelope) = Some e ∧ dr_sequence e = be_sequence envelope ∧
    dr_payload_hash e = be_payload_hash envelope ∧ dr_response_cap e = cap.

Lemma bound_step envelope cap w w' : bound envelope cap w → step w w' → bound envelope cap w'.
Proof.
  intros (Hs & e & He & ? & ? & ?) [_ _ Hl]. destruct (Hl _ _ He) as (e' & He' & [? ? ? ? _ _]).
  split; [done|]. exists e'. split_and!; congruence.
Qed.

Lemma admit_spec io envelope payload cap had d w :
  core d w → synced all d w → envelope_typed envelope → (cap < u64_limit)%N →
  wp (admit_envelope sha256 io envelope payload cap had)
    (λ acceptance d', ∃ w', d' = bd_with_durable w' d ∧ core d' w' ∧ step w w' ∧
       match acceptance with
       | AcceptNew => be_session envelope = dsc_session config ∧
           entry_set (be_request envelope) (accepted_request (be_sequence envelope) (be_request envelope) (be_payload_hash envelope) cap)
             (rs_budget (bw_state w)) (bw_state w) (bw_state w')
       | AcceptDuplicate => bw_state w' = bw_state w ∧ bound envelope cap w
       end)
    (λ st d', bd_executed d' = bd_executed d ∧ ∃ w', core d' w' ∧ step w w' ∧ (bd_sealed d' = false → synced all d' w')) d.
Proof.
  intros C S Ht Hcap. unfold admit_envelope. apply wp_bind, wp_get. rewrite (co_wal _ _ C).
  destruct (bool_decide (be_session envelope = bd_session d)) eqn:Hsess; cbn [negb].
  2:{ apply wp_fail. split; [done|]. exists w. split_and!; [done|apply log_step_refl, C|done]. }
  apply bool_decide_eq_true in Hsess. rewrite (co_session _ _ C) in Hsess.
  apply wp_bind. unfold with_wal, wp at 1. pose proof (accept_result sha256 Hsha io envelope cap w (co_inv _ _ C) Ht Hcap) as H.
  destruct (wal_accept io envelope cap w) as [[acceptance|error] w']; destruct H as [Hst H].
  - pose proof (core_durable d w w' C Hst) as C'. destruct acceptance as [|e].
    + apply wp_ret. exists w'. split_and!; try done. apply H.
    + destruct H as [Hsame Hd]. apply validate_duplicate_Some in Hd. apply wp_ret. exists w'. split_and!; try done.
      split; [done|]. exists e. tauto.
  - pose proof (core_durable d w w' C Hst) as C'.
    assert (synced all (bd_with_durable w' d) w') as S' by (destruct S; split; rewrite ?H; done).
    assert (bd_executed (bd_with_durable w' d) = bd_executed d ∧ ∃ w'0, core (bd_with_durable w' d) w'0 ∧ step w w'0 ∧
      (bd_sealed (bd_with_durable w' d) = false → synced all (bd_with_durable w' d) w'0)) as Hplain by eauto 10.
    assert (bd_executed (bd_seal (bd_with_durable w' d)) = bd_executed d ∧ ∃ w'0, core (bd_seal (bd_with_durable w' d)) w'0 ∧ step w w'0 ∧
      (bd_sealed (bd_seal (bd_with_durable w' d)) = false → synced all (bd_seal (bd_with_durable w' d)) w'0)) as Hseal.
    { split; [done|]. exists w'. split_and!; [eapply core_ext; [exact C'|done..]|done|done]. }
    destruct error; first [exact Hplain|exact Hseal].
Qed.

(** What one dispatch of [request] leaves. *)
Definition dispatched (request : CanonicalBrokerRequest) (d : D) (w : DurableBrokerWal) (response : BrokerResponse) (d' : D)
    : Prop :=
  let envelope := cbr_envelope request in
  delivered (be_request envelope) d w response d' ∧
  ran (be_request envelope) (bd_outcomes d' !! be_request envelope = Some (Cached_Final response)) d d' ∧
  ∃ w', bd_durable d' = Some w' ∧ bound envelope (operation_response_cap d (cbr_operation request)) w'.

Lemma delivered_dispatched request d w d1 w1 response d' :
  let envelope := cbr_envelope request in
  step w w1 → bound envelope (operation_response_cap d (cbr_operation request)) w1 → bd_sealed d1 = bd_sealed d →
  bd_executed d1 = bd_executed d → delivered (be_request envelope) d1 w1 response d' →
  ran (be_request envelope) (bd_outcomes d' !! be_request envelope = Some (Cached_Final response)) d1 d' →
  dispatched request d w response d'.
Proof.
  intros envelope Hst Hb Hs Hx (Hr & Ho & w' & C & Hst' & S & Hs') Hran. split_and!.
  - split_and!; [done|done|]. exists w'. split_and!; try done; [by eapply log_step_trans|congruence].
  - unfold ran in *. by rewrite <- Hx.
  - exists w'. split; [apply C|by eapply bound_step].
Qed.

Lemma interrupted_trans r io d w d1 w1 st d' :
  interrupted r io d1 w1 st d' → step w w1 → bd_executed d1 = bd_executed d → interrupted r io d w st d'.
Proof.
  intros (Hx & w' & C & Hst & S) Hst1 Hx1. split; [by rewrite <- Hx1|]. exists w'. split_and!; try done. by eapply log_step_trans.
Qed.

Context (Hcap0 : (cap0 <= MAX_GITHUB_RESPONSE_BYTES)%N).

(** A decoded request is typed. *)
Lemma decoded_typed payload request d w :
  core d w → CanonicalBrokerRequest_decode sha256 payload = Ok request →
  envelope_typed (cbr_envelope request) ∧ op_typed (cbr_operation request) ∧
  (operation_response_cap d (cbr_operation request) < u64_limit)%N.
Proof using Hcap0.
  intros C Hd. pose proof (decoded_operation _ _ _ Hd) as Hop. apply decoded_request in Hd as ((_ & ? & ? & ? & _) & _).
  split_and!; [done|done|]. unfold operation_response_cap. rewrite (co_cap _ _ C). destruct (cbr_operation request); cbn in *; [by destruct Hop as (_ & _ & ?)|].
  change MAX_GITHUB_RESPONSE_BYTES with 1048576%N in Hcap0. unfold u64_limit. lia.
Qed.

(** Dispatching a request the log has admitted. *)
Lemma run_admitted_spec io request context (resuming : bool) d w d1 w1 e :
  let envelope := cbr_envelope request in
  op_typed (cbr_operation request) → core d w → core d1 w1 → synced all d1 w1 → step w w1 → view_request (bw_state w1) (be_request envelope) = Some e →
  bound envelope (operation_response_cap d (cbr_operation request)) w1 → bd_sealed d1 = bd_sealed d →
  bd_executed d1 = bd_executed d →
  bd_outcomes d1 !! be_request envelope =
    Some (if resuming then Cached_RetryableBudget else Cached_AcceptedPending (dr_response_cap e)) →
  wp (dispatch_and_remember sha256 io request context resuming) (dispatched request d w)
    (interrupted (be_request envelope) io d w) d1.
Proof using AdapterLaws0 ExecutorLaws0 Hsha.
  intros envelope Hop C C1 S1 Hst He Hb Hs1 Hx1 Ho1.
  assert (dr_response_cap e = operation_response_cap d1 (cbr_operation request)) as Hc1.
  { destruct Hb as (_ & e' & He' & _ & _ & Hc). assert (e' = e) as -> by congruence.
    unfold operation_response_cap in *. rewrite (co_cap _ _ C1). by rewrite (co_cap _ _ C) in Hc. }
  eapply wp_mono; [by apply (dispatch_and_remember_spec io request context resuming d1 w1 e)| |].
  - intros response d' [Hdel Hran]. by eapply delivered_dispatched.
  - intros st d' Hint. by eapply interrupted_trans.
Qed.

(** A duplicate is answered from the retained outcome. *)
Lemma duplicate_spec io request context d w d1 w1 :
  let envelope := cbr_envelope request in
  op_typed (cbr_operation request) → core d w → core d1 w1 → synced all d1 w1 → step w w1 →
  bound envelope (operation_response_cap d (cbr_operation request)) w1 → bd_sealed d1 = bd_sealed d →
  bd_executed d1 = bd_executed d →
  wp (st_get ≫= λ self,
      match bd_outcomes self !! be_request envelope with
      | Some (Cached_AcceptedPending response_cap) => recover_accepted_pending sha256 (dio_finalize io) (be_request envelope) response_cap
      | Some (Cached_Final response) => mret response
      | Some Cached_RetryableBudget => dispatch_and_remember sha256 io request context true
      | None => st_fail (Stop (MissingCachedOutcome (be_request envelope)))
      end) (dispatched request d w) (interrupted (be_request envelope) io d w) d1.
Proof using AdapterLaws0 ExecutorLaws0 Hsha.
  intros envelope Hop C C1 S1 Hst Hb Hs1 Hx1. set (r := be_request envelope).
  destruct Hb as (Hsess & e & He & Hid). fold r in He. pose proof (sy_outcomes _ _ _ S1 r I) as Ha. rewrite He in Ha.
  assert (bound envelope (operation_response_cap d (cbr_operation request)) w1) as Hb by (split; [done|by exists e]).
  apply wp_bind, wp_get. destruct (bd_outcomes d1 !! r) as [[cap|response|]|] eqn:Ho.
  - eapply wp_mono; [by apply (recover_spec _ r cap d1 w1)| |].
    + intros response d' [Hdel Hx]. eapply delivered_dispatched; try done. by left.
    + intros st d' Hf. eapply interrupted_trans; [by eapply failed_interrupted|done|done].
  - apply wp_ret. eapply delivered_dispatched; try done; [|by left]. split_and!; [|by left|].
    + unfold agrees in Ha. destruct (dr_phase e) eqn:Hp; [naive_solver|done|]. destruct Ha as (resp & [= <-] & Hw).
      pose proof (core_state _ _ C1) as Hwf. apply (view_request_Some _ _ _ Hwf) in He.
      destruct (rs_request_ok _ _ _ Hwf He) as (i & _ & Hi & Hr & _).
      pose proof (sw_entries _ Hwf _ _ Hi) as (_ & _ & _ & _ & _ & _ & Hf). rewrite Hp in Hf.
      destruct Hf as (_ & Hf & _). transitivity (dr_request e); [|exact Hr]. rewrite <- Hf, <- Hw. done.
    + exists w1. split_and!; try done. apply log_step_refl, C1.
  - by apply (run_admitted_spec io request context true d w d1 w1 e).
  - unfold agrees in Ha. destruct (dr_phase e); naive_solver.
Qed.

(** A new request is pending in memory as in the log. *)
Lemma accepted_synced envelope cap d w w' :
  synced all d w → core d w →
  entry_set (be_request envelope) (accepted_request (be_sequence envelope) (be_request envelope) (be_payload_hash envelope) cap)
    (rs_budget (bw_state w)) (bw_state w) (bw_state w') →
  synced all (bd_with_outcomes (<[be_request envelope := Cached_AcceptedPending cap]> (bd_outcomes d)) (bd_with_durable w' d)) w'.
Proof.
  intros [Hb Ho] C [Hh Ht He]. split; [cbn; by rewrite He|]. intros r _. cbn.
  destruct (decide (r = be_request envelope)) as [->|Hne]; [rewrite lookup_insert_eq, Hh; by left|].
  rewrite lookup_insert_ne, Ht by done. by apply Ho.
Qed.

Lemma dispatch_spec io frame context d w :
  core d w → (bd_sealed d = false → synced all d w) →
  wp (dispatch_control_frame sha256 io frame context)
    (λ response d', ∃ request, CanonicalBrokerRequest_decode sha256 (cf_payload frame) = Ok request ∧
       dispatched request d w response d')
    (λ st d', ∃ r, interrupted r io d w st d') d.
Proof using AdapterLaws0 ExecutorLaws0 Hsha Hcap0.
  intros C S0.
  assert (∀ st, ∃ r, interrupted r io d w st d) as Hidle.
  { intros st. exists []. split; [by left|]. exists w. split_and!; [done|apply log_step_refl, C|done]. }
  unfold dispatch_control_frame. apply wp_bind, wp_get. destruct (bd_sealed d) eqn:Hsealed; [by apply wp_fail|].
  specialize (S0 eq_refl) as S. apply wp_bind, wp_query.
  destruct (CanonicalBrokerRequest_decode sha256 (cf_payload frame)) as [request|error] eqn:Hdec; cbn [map_err]; [|done].
  destruct (decoded_typed _ _ _ _ C Hdec) as (Ht & Hop & Hcap). set (envelope := cbr_envelope request) in *. set (r := be_request envelope).
  eapply wp_mono with (Q := dispatched request d w) (R := interrupted r io d w); [|by eauto|by eauto].
  apply wp_bind. eapply wp_mono; [by apply (admit_spec _ envelope _ _ _ d w)| |].
  2:{ intros st d' [Hx Hw]. split; [by left|]. done. }
  intros acceptance d1 (w1 & Hd1 & C1 & Hst1 & Hacc). rewrite (co_wal _ _ C). destruct acceptance.
  - rewrite bool_decide_eq_true_2 by eauto. apply wp_bind, wp_modify. subst d1. destruct Hacc as [Hsess Hacc]. pose proof Hacc as [Hh _ _].
    eapply (run_admitted_spec io request context false d w _ w1); try done.
    + eapply core_ext; [exact C1|done..].
    + by apply (accepted_synced envelope _ d w w1).
    + split; [done|]. eexists. split; [exact Hh|done].
    + cbn. by rewrite lookup_insert_eq.
  - destruct Hacc as [Hsame Hb]. subst d1. apply duplicate_spec with (w1 := w1); try done.
    + destruct S. split; rewrite ?Hsame; done.
    + unfold bound. by rewrite Hsame.
Qed.
End dispatcher.
