(* ===== verification/DispatchClaims.v ===== *)
(** * Theorems on the durable dispatcher *)

From S2P Require Import Prelude Bytes Time Http GitHub Capability ControlFrame Budget ReplayGuard Operation Cbor CborProps.
From S2P Require Import Response ResponseChunk ResponseProps ResponseChunkProps BrokerWalState BrokerWal BrokerWalInvariant BrokerWalHistory BrokerWalCodec BrokerWalFrames BrokerWalWriter BrokerWalProps BrokerWalClaims.
From S2P Require Import Kernel PublicFetch GitHubAdapter Dispatch DispatchProps.

(** ** Responses recovered from the log *)

Lemma from_wire_rejection r : rejection_to_wire (rejection_from_wire r) = r.
Proof. by destruct r. Qed.

(** The identities the wire format admits are already in canonical form. *)
Lemma object_id_canonical text : valid_object_id text = true → GitObjectId_new text = Some {| goi_text := text |}.
Proof.
  unfold valid_object_id, GitObjectId_new. rewrite andb_true_iff. intros [-> Hf]. cbn [negb orb].
  assert (forallb is_ascii_hexdigit text = true) as ->.
  { revert Hf. rewrite !forallb_forall. intros Hf b Hb. specialize (Hf b Hb). unfold is_ascii_hexdigit.
    destruct (is_ascii_digit b); [done|]. cbn in *. by rewrite Hf. }
  cbn. do 2 f_equal. unfold to_ascii_lowercase. etrans; [|apply map_id]. apply map_ext_in. intros b Hb.
  rewrite forallb_forall in Hf. specialize (Hf b Hb). unfold to_ascii_lowercase_byte, is_ascii_upper, is_ascii_digit, in_range in *.
  destruct (N.leb_spec 65 (b2N b)); [|done]. destruct (N.leb_spec (b2N b) 90); [|done].
  destruct (N.leb_spec 97 (b2N b)); [lia|]. destruct (N.leb_spec (b2N b) 57); [lia|]. by destruct (48 <=? b2N b)%N.
Qed.

(** A well-formed response is reconstructed, and has the same wire form. *)
Lemma from_wire_exact wire :
  response_wf wire → ∃ response, broker_response_from_wire wire = Ok response ∧ broker_response_to_wire response = wire.
Proof.
  destruct wire as [r outcome]. intros [_ Hwf]. unfold broker_response_from_wire. cbn [rsp_outcome rsp_request] in *.
  destruct outcome as [p|g|rejection]; cbn [outcome_wf] in Hwf.
  - destruct Hwf as [Hn _]. unfold PublicResponse_new. rewrite Hn. cbn. eexists. split; [done|]. done.
  - destruct Hwf as [Hn _]. pose proof (GitHubWireResponse_new_ok _ _ _ _ _ Hn) as (_ & _ & Hid).
    destruct (gwr_object_id g) as [text|] eqn:Hg.
    + rewrite (object_id_canonical text) by auto. unfold GitHubResponse_committed. cbn. rewrite Hn. cbn. by eexists.
    + unfold GitHubResponse_committed. cbn. rewrite Hn. cbn. by eexists.
  - cbn. eexists. split; [done|]. unfold broker_response_to_wire. cbn. by rewrite from_wire_rejection.
Qed.

(** ** The outcomes a reopened dispatcher retains *)

Lemma recovered_outcome_total active i e : entry_wf active i e → ∃ cached, recovered_outcome e = Ok cached.
Proof.
  intros (_ & _ & _ & _ & _ & _ & Hf). unfold recovered_outcome. destruct (dr_phase e) as [| |wire]; [by eauto..|].
  destruct Hf as (Hwf & _ & _). destruct (from_wire_exact wire Hwf) as (response & -> & Hw). cbn. eauto.
Qed.

Lemma recovered_outcome_agrees active i e cached :
  entry_wf active i e → recovered_outcome e = Ok cached → agrees (Some cached) (Some e).
Proof.
  intros (_ & _ & _ & _ & _ & _ & Hf). unfold recovered_outcome, agrees. destruct (dr_phase e) as [| |wire]; [intros [= <-]; by eauto..|].
  destruct Hf as (Hwf & _ & _). destruct (from_wire_exact wire Hwf) as (response & -> & Hw). cbn. intros [= <-]. eauto.
Qed.

Lemma recovered_outcomes_total active requests outcomes :
  (∀ e, e ∈ requests → ∃ i, entry_wf active i e) → NoDup (dr_request <$> requests) →
  ∃ outcomes', recovered_outcomes requests outcomes = Ok outcomes' ∧
    (∀ e, e ∈ requests → ∃ cached, recovered_outcome e = Ok cached ∧ outcomes' !! dr_request e = Some cached) ∧
    (∀ r, r ∉ dr_request <$> requests → outcomes' !! r = outcomes !! r).
Proof.
  revert outcomes. induction requests as [|e rest IH]; intros outcomes Hwf Hnd; cbn.
  { exists outcomes. split_and!; [done|by intros e He%elem_of_nil|done]. }
  apply NoDup_cons in Hnd as [Hnew Hnd].
  destruct (Hwf e) as [i Hi]; [by left|]. destruct (recovered_outcome_total _ _ _ Hi) as (cached & Hc). rewrite Hc. cbn.
  destruct (IH (<[dr_request e := cached]> outcomes)) as (out & -> & Hin & Hout); [by intros e' He'; apply Hwf; right|done|].
  exists out. split_and!; [done| |].
  - intros e' He'. apply elem_of_cons in He' as [->|He']; [|by apply Hin]. exists cached. rewrite Hout by exact Hnew. by rewrite lookup_insert_eq.
  - intros r [Hne Hr]%not_elem_of_cons. rewrite Hout by exact Hr. by rewrite lookup_insert_ne.
Qed.

Lemma state_requests_unique s : state_wf s → NoDup (dr_request <$> rs_requests s).
Proof.
  intros Hw. apply NoDup_alt. intros i j r (e & Hr & He)%list_lookup_fmap_Some (e' & Hr' & He')%list_lookup_fmap_Some. subst.
  assert (rs_request_indexes s !! dr_request e = Some i) as Hi by (apply (sw_index _ Hw); eauto).
  assert (rs_request_indexes s !! dr_request e = Some j) as Hj by (apply (sw_index _ Hw); eauto). congruence.
Qed.

Lemma recovered_agree s :
  state_wf s → ∃ outcomes, recovered_outcomes (rs_requests s) ∅ = Ok outcomes ∧
    ∀ r, match view_request s r with
         | Some e => ∃ cached, recovered_outcome e = Ok cached ∧ outcomes !! r = Some cached
         | None => outcomes !! r = None
         end.
Proof.
  intros Hw. destruct (recovered_outcomes_total (bst_active (rs_budget s)) (rs_requests s) ∅) as (out & Hok & Hin & Hout).
  - intros e [i He]%list_elem_of_lookup. exists i. by apply (sw_entries _ Hw).
  - by apply state_requests_unique.
  - exists out. split; [done|]. intros r. destruct (view_request s r) as [e|] eqn:He.
    + apply (view_request_Some _ _ _ Hw) in He. destruct (rs_request_ok _ _ _ Hw He) as (i & _ & Hi & <- & _).
      apply Hin. by eapply list_elem_of_lookup_2.
    + rewrite Hout; [done|]. intros (e & -> & [i Hi]%list_elem_of_lookup)%list_elem_of_fmap.
      assert (rs_request_indexes s !! dr_request e = Some i) as Hix by (apply (sw_index _ Hw); eauto).
      unfold view_request in He. rewrite Hix in He. cbn in He. congruence.
Qed.

Lemma recovered_synced (s : RecoveredState) (outcomes : gmap BrokerRequestId CachedOutcome) (r : BrokerRequestId) :
  state_wf s →
  match view_request s r with
  | Some e => ∃ cached, recovered_outcome e = Ok cached ∧ outcomes !! r = Some cached
  | None => outcomes !! r = None
  end → agrees (outcomes !! r) (view_request s r).
Proof.
  intros Hw. destruct (view_request s r) as [e|] eqn:He; [|done]. intros (cached & Hc & ->).
  apply (view_request_Some _ _ _ Hw) in He. destruct (rs_request_ok _ _ _ Hw He) as (i & _ & Hi & _ & _).
  eapply recovered_outcome_agrees; [by apply (sw_entries _ Hw)|done].
Qed.

(** ** A dispatcher's life *)

Section claims.
  Context {X W : Type} `{!CapabilityExecutor X W} `{!DispatchAdapters W} `{!ExecutorLaws X W} `{!AdapterLaws W}.
  Context (sha256 : str → str) (Hsha : ∀ s, len (sha256 s) = RESPONSE_DIGEST_BYTES).
  Context (config : DurableSessionConfig) (github_response_cap : N).

(** An encoded frame with the verdicts on its appends, or a restart, with an executor
    and adapters, on whatever is on disk. *)
Inductive dispatch_event :=
  | DFrame (io : DispatchIo) (encoded_frame : str) (context : DispatchContext)
  | DRestart (executor : X) (adapters : W) (repair : option N).

(** A restart that cannot open its log leaves no usable dispatcher. *)
Definition dispatch_live (ev : dispatch_event) (d : BrokerDispatcher X W) : BrokerDispatcher X W :=
  match ev with
  | DFrame io encoded_frame context => (dispatch_frame sha256 io encoded_frame context d).2
  | DRestart executor adapters repair =>
      match bd_durable d with
      | None => d
      | Some w =>
          match open_durable sha256 executor adapters config github_response_cap (bw_file w) repair (bd_executed d) with
          | Ok d' => d'
          | Err _ => bd_seal d
          end
      end
  end.

Definition dispatch_life (events : list dispatch_event) (d : BrokerDispatcher X W) : BrokerDispatcher X W :=
  foldl (λ d ev, dispatch_live ev d) d events.

Abbreviation cap0 := (N.min github_response_cap MAX_GITHUB_RESPONSE_BYTES).
Abbreviation core := (DispatchProps.core sha256 config cap0).
Abbreviation step := (log_step sha256).
Abbreviation agreed d w := (synced config (λ _, True) d w).

(** The log of [d], and memory in step with it unless [d] gave up. *)
Definition healthy (d : BrokerDispatcher X W) (w : DurableBrokerWal) : Prop :=
  core d w ∧ (bd_sealed d = false → agreed d w).

Lemma cap0_bound : (cap0 <= MAX_GITHUB_RESPONSE_BYTES)%N.
Proof. lia. Qed.

Lemma open_healthy (executor : X) (adapters : W) repair (d : BrokerDispatcher X W) w d' :
  core d w → open_durable sha256 executor adapters config github_response_cap (bw_file w) repair (bd_executed d) = Ok d' →
  ∃ w', healthy d' w' ∧ step w w'.
Proof.
  intros C. unfold open_durable. destruct (wal_open sha256 (bw_file w) repair config) as [w'|] eqn:Hopen; [|done].
  cbn [mbind result_bind]. rewrite <- (co_config _ _ _ _ _ C) in Hopen.
  destruct (wal_inv_reopen sha256 w repair w' (co_inv _ _ _ _ _ C) Hopen) as (Hi & Hcfg & Hl).
  pose proof (wi_state _ _ Hi) as Hw. unfold read_only_view. destruct (bw_sealed w'); [done|]. cbn [mbind result_bind].
  rewrite (sw_events _ Hw). cbn [mbind result_bind]. destruct (recovered_agree _ Hw) as (outcomes & -> & Hr).
  cbn [mbind result_bind]. rewrite (co_config _ _ _ _ _ C) in Hcfg. intros [= <-]. exists w'.
  split; [|split; [done|by rewrite Hcfg, (co_config _ _ _ _ _ C)|done]]. split.
  - destruct C as [_ _ _ _ _ Ho Hs]. split; try done. cbn. intros r (e & He & Hsp)%Hs.
    destruct (Hl r e He) as (e' & He' & L). exists e'. split; [done|by apply L].
  - intros _. split; [cbn; by rewrite Hcfg|]. intros r _. exact (recovered_synced (bw_state w') outcomes r Hw (Hr r)).
Qed.

Lemma frame_spec io encoded_frame context (d : BrokerDispatcher X W) w :
  healthy d w →
  let '(result, d') := dispatch_frame sha256 io encoded_frame context d in
  ∃ w', healthy d' w' ∧ step w w' ∧
  match result with
  | Ok response => ∃ frame request, ControlFrame_decode_complete encoded_frame = Ok frame ∧
      CanonicalBrokerRequest_decode sha256 (cf_payload frame) = Ok request ∧
      dispatched sha256 config cap0 request d w response d'
  | Err st => ∃ r, interrupted sha256 config cap0 r io d w st d'
  end.
Proof using AdapterLaws0 ExecutorLaws0 Hsha.
  intros [C S]. unfold dispatch_frame. unfold mbind, ST_bind, st_query.
  destruct (ControlFrame_decode_complete encoded_frame) as [frame|error]; cbn [map_err].
  - pose proof (dispatch_spec sha256 Hsha config cap0 cap0_bound io frame context d w C S) as H. unfold wp in H.
    destruct (dispatch_control_frame sha256 io frame context d) as [[response|st] d'].
    + destruct H as (request & Hdec & Hd). pose proof Hd as ((_ & _ & w' & C' & Hst & S' & _) & _).
      exists w'. split_and!; [by split|done|by eauto].
    + destruct H as (r & Hint). pose proof Hint as (_ & w' & C' & Hst & S'). exists w'. split_and!; [by split|done|by eauto].
  - exists w. split_and!; [by split|apply log_step_refl, C|]. exists []. split; [by left|].
    exists w. split_and!; [done|apply log_step_refl, C|done].
Qed.

Lemma live_healthy ev d w : healthy d w → ∃ w', healthy (dispatch_live ev d) w' ∧ step w w'.
Proof using AdapterLaws0 ExecutorLaws0 Hsha.
  intros Hd. destruct ev as [io encoded_frame context|executor adapters repair]; cbn [dispatch_live].
  - pose proof (frame_spec io encoded_frame context d w Hd) as H. destruct (dispatch_frame _ _ _ _ _) as [result d'].
    destruct H as (w' & ? & ? & _). eauto.
  - destruct Hd as [C S]. rewrite (co_wal _ _ _ _ _ C). destruct (open_durable _ _ _ _ _ _ _ _) as [d'|] eqn:Ho.
    + by eapply open_healthy.
    + exists w. split; [|apply log_step_refl, C]. split; [|done]. eapply core_ext; [exact C|done..].
Qed.

Lemma life_healthy events d w : healthy d w → ∃ w', healthy (dispatch_life events d) w' ∧ step w w'.
Proof using AdapterLaws0 ExecutorLaws0 Hsha.
  revert d w. induction events as [|ev events IH]; intros d w Hd; [exists w; split; [done|apply log_step_refl, Hd]|].
  destruct (live_healthy ev d w Hd) as (w1 & Hd1 & Hst1). destruct (IH _ _ Hd1) as (w2 & Hd2 & Hst2).
  exists w2. split; [done|by eapply log_step_trans].
Qed.

(** Dispatching again a request that is final in the log. *)
Lemma final_retry io frame request context (d : BrokerDispatcher X W) w e wire :
  healthy d w → CanonicalBrokerRequest_decode sha256 (cf_payload frame) = Ok request →
  bound config (cbr_envelope request) (operation_response_cap d (cbr_operation request)) w →
  view_request (bw_state w) (be_request (cbr_envelope request)) = Some e → dr_phase e = Final wire →
  let '(result, d') := dispatch_control_frame sha256 io frame context d in
  bd_executor d' = bd_executor d ∧ bd_adapters d' = bd_adapters d ∧ bd_executed d' = bd_executed d ∧
  if bd_sealed d || bw_sealed w then result = Err (Stop DurableUnavailable)
  else ∃ response, result = Ok response ∧ broker_response_to_wire response = wire.
Proof.
  intros [C S] Hdec (Hsess & e' & He' & Hseq & Hhash & Hcap) He Hp. assert (e' = e) as -> by congruence. clear He'.
  unfold dispatch_control_frame. unfold mbind at 1, ST_bind at 1, st_get. destruct (bd_sealed d) eqn:Hsealed; [by split_and!|].
  specialize (S eq_refl). erewrite st_query_ok by (by rewrite Hdec). cbv zeta.
  unfold admit_envelope, with_wal, wal_accept, ensure_writable, validate_duplicate.
  unfold mbind, ST_bind, st_query, st_get, st_fail, mret, ST_ret.
  rewrite (co_wal _ _ _ _ _ C), (co_session _ _ _ _ _ C), (bool_decide_eq_true_2 _ Hsess). cbn [negb orb].
  destruct (bw_sealed w); [by split_and!|]. rewrite (co_config _ _ _ _ _ C), (bool_decide_eq_true_2 _ Hsess). cbn [negb].
  pose proof (core_state _ _ _ _ _ C) as Hw. pose proof He as Hr. apply (view_request_Some _ _ _ Hw) in Hr.
  destruct (rs_request_ok _ _ _ Hw Hr) as (i & Hi & Hei & _). rewrite Hi. cbn [mbind option_bind]. rewrite Hei. cbn [ok_or result_bind].
  rewrite Hseq, Hhash, Hcap, !N.eqb_refl, bool_decide_eq_true_2 by done. cbn [andb bd_with_durable bd_outcomes].
  pose proof (sy_outcomes _ _ _ _ S (be_request (cbr_envelope request)) I) as Ha. rewrite He in Ha. unfold agrees in Ha. rewrite Hp in Ha.
  destruct Ha as (response & -> & Hwire). split_and!; eauto.
Qed.

Context (Hconfig : config_wf config) (executor : X) (adapters : W) (d0 : BrokerDispatcher X W).
Context (Hnew : new_durable executor adapters config github_response_cap = Ok d0).

Lemma new_healthy : ∃ w, healthy d0 w.
Proof using Hconfig Hnew.
  revert Hnew. unfold new_durable. destruct (wal_create_ok sha256 config Hconfig) as (w & Hc & Hi & Hcfg & _).
  rewrite Hc. cbn [mbind result_bind]. intros [= <-]. exists w. split.
  - split; try done; cbn; [apply NoDup_nil_2|]. by intros r Hr%elem_of_nil.
  - intros _. revert Hc. unfold wal_create. destruct (encode_frame _ _ _); cbn [mbind result_bind]; [|done].
    intros [= <-]. by split.
Qed.

Abbreviation final events := (dispatch_life events d0).

Lemma final_healthy events : ∃ w, healthy (final events) w.
Proof using AdapterLaws0 ExecutorLaws0 Hsha Hconfig Hnew.
  destruct new_healthy as [w Hd]. destruct (life_healthy events d0 w Hd) as (w' & Hd' & _). eauto.
Qed.

(** C4: an external effect runs at most once.  Over any history of frames, whatever their
    bytes, with executors that panic, appends that fail or are torn, and restarts
    from what is left on disk, no request is given to the executor twice. *)
Theorem dispatch_at_most_once events : NoDup (bd_executed (dispatch_life events d0)).
Proof using AdapterLaws0 ExecutorLaws0 Hsha Hconfig Hnew.
  destruct (final_healthy events) as (w & C & _). apply C.
Qed.

(** C5: a retry gets the recorded answer.  Once a request has been answered with an outcome
    that is not a retryable budget denial, sending its frame again, at any later time
    and after any failures and restarts, runs nothing and gives the same response on
    the wire; the one other outcome is that the log is closed. *)
Theorem retry_returns_recorded_response events later io context io' context' frame response d1 :
  dispatch_frame sha256 io frame context (final events) = (Ok response, d1) →
  bd_outcomes d1 !! br_request response ≠ Some Cached_RetryableBudget →
  let d2 := dispatch_life later d1 in
  let '(result, d3) := dispatch_frame sha256 io' frame context' d2 in
  bd_executor d3 = bd_executor d2 ∧ bd_adapters d3 = bd_adapters d2 ∧ bd_executed d3 = bd_executed d2 ∧
  (result = Err (Stop DurableUnavailable) ∨
   ∃ response', result = Ok response' ∧ broker_response_to_wire response' = broker_response_to_wire response).
Proof using AdapterLaws0 ExecutorLaws0 Hsha Hconfig Hnew.
  intros Hfirst Hno d2. destruct (final_healthy events) as (w & Hd).
  pose proof (frame_spec io frame context _ w Hd) as H. rewrite Hfirst in H.
  destruct H as (w1 & Hd1 & Hst1 & cf & request & Hcf & Hdec & Hdisp).
  destruct Hdisp as ((Hr & Ho & w1' & C1' & _ & S1 & _) & _ & w1'' & Hw1 & Hb).
  assert (w1' = w1) as -> by (destruct Hd1 as [C1 _]; pose proof (co_wal _ _ _ _ _ C1); pose proof (co_wal _ _ _ _ _ C1'); congruence).
  assert (w1'' = w1) as -> by (pose proof (co_wal _ _ _ _ _ C1'); congruence).
  rewrite <- Hr in Ho. destruct Ho as [Ho|[Ho _]]; [|done].
  pose proof (sy_outcomes _ _ _ _ S1 (br_request response) I) as Ha. rewrite Ho in Ha. unfold agrees in Ha. rewrite Hr in Ha.
  destruct (view_request (bw_state w1) (be_request (cbr_envelope request))) as [e|] eqn:He; [|done].
  destruct (dr_phase e) as [| |wire] eqn:Hp; [naive_solver|done|]. destruct Ha as (resp & [= <-] & Hwire).
  destruct (life_healthy later d1 w1 Hd1) as (w2 & Hd2 & Hst2). fold d2 in Hd2.
  destruct (ls_later _ _ _ Hst2 _ _ He) as (e2 & He2 & L). rewrite (el_final _ _ L) in He2 by (by rewrite Hp).
  assert (operation_response_cap (final events) (cbr_operation request) = operation_response_cap d2 (cbr_operation request)) as Hcap.
  { destruct Hd as [C _], Hd2 as [C2 _]. unfold operation_response_cap. by rewrite (co_cap _ _ _ _ _ C), (co_cap _ _ _ _ _ C2). }
  rewrite Hcap in Hb. unfold dispatch_frame at 1. erewrite st_query_ok by (by rewrite Hcf).
  pose proof (final_retry io' cf request context' d2 w2 e wire Hd2 Hdec (bound_step _ _ _ _ _ _ Hb Hst2) He2 Hp) as H.
  destruct (dispatch_control_frame sha256 io' cf context' d2) as [result d3]. destruct H as (? & ? & ? & H). split_and!; try done.
  destruct (_ || _); [by left|right]. rewrite Hwire. done.
Qed.

(** C25: an effect that ran is never left without a record.  When the disk takes the final
    record and the executor returns, a dispatch that ran an effect delivers a
    response, and the log holds exactly that response as the final outcome of the
    request, its reservation released. *)
Theorem executed_effect_is_recorded events io frame context :
  dio_finalize io = wal_io_ok →
  let d := final events in
  let '(result, d') := dispatch_frame sha256 io frame context d in
  bd_executed d' = bd_executed d ∨ result = Err Unwind ∨
  ∃ response w e, result = Ok response ∧ bd_executed d' = bd_executed d ++ [br_request response] ∧
    bd_durable d' = Some w ∧ view_request (bw_state w) (br_request response) = Some e ∧
    dr_phase e = Final (broker_response_to_wire response) ∧ dr_reservation e = None.
Proof using AdapterLaws0 ExecutorLaws0 Hsha Hconfig Hnew.
  intros Hio d. destruct (final_healthy events) as (w & Hd). fold d in Hd.
  pose proof (frame_spec io frame context d w Hd) as H. destruct (dispatch_frame sha256 io frame context d) as [[response|st] d'].
  - destruct H as (w1 & _ & _ & cf & request & _ & _ & (Hr & _ & w' & C' & _ & S' & _) & Hran & _).
    destruct Hran as [Hran|[Hran Ho]]; [by left|]. right; right. rewrite <- Hr in Hran, Ho.
    pose proof (sy_outcomes _ _ _ _ S' (br_request response) I) as Ha. rewrite Ho in Ha. unfold agrees in Ha.
    destruct (view_request (bw_state w') (br_request response)) as [e|] eqn:He; [|done].
    destruct (dr_phase e) as [| |wire] eqn:Hp; [naive_solver|done|]. destruct Ha as (resp & [= <-] & Hwire). subst wire.
    exists response, w', e. split_and!; try done; [apply C'|].
    pose proof (core_state _ _ _ _ _ C') as Hw. apply (view_request_Some _ _ _ Hw) in He.
    destruct (rs_request_ok _ _ _ Hw He) as (i & _ & Hi & _). pose proof (sw_entries _ Hw _ _ Hi) as (_ & _ & _ & _ & _ & Hres & _).
    destruct (dr_reservation e) as [c|]; [|done]. destruct (Hres c eq_refl). congruence.
  - destruct H as (w1 & _ & _ & r & [Hx|[_ [->|Hx]]] & _); [by left|by right; left|done].
Qed.

(** A retained outcome and what a restart makes of it. *)
Definition restored (budget : SessionBudget) (r : BrokerRequestId) (before after : option CachedOutcome) : Prop :=
  match before, after with
  | Some (Cached_Final response), Some (Cached_Final response') =>
      broker_response_to_wire response' = broker_response_to_wire response
  | Some Cached_RetryableBudget, Some (Cached_AcceptedPending _) => is_Some (sb_active budget !! r)
  | _, _ => after = before
  end.

(** C26: a restart is transparent.  Reopening the log of a working dispatcher always
    succeeds, keeps the log as it is, rebuilds exactly the budget that was enforced in
    memory, and restores every retained outcome, final responses as they appear on
    the wire; an outcome changes only where an effect panicked while a budget denial
    was retried, and then to the pending outcome that blocks a second run. *)
Theorem restart_is_transparent events (executor' : X) (adapters' : W) repair w :
  let d := final events in
  bd_sealed d = false → bd_durable d = Some w → bw_sealed w = false →
  ∃ d', open_durable sha256 executor' adapters' config github_response_cap (bw_file w) repair (bd_executed d) = Ok d' ∧
    bd_durable d' = Some w ∧ bd_budget d' = bd_budget d ∧
    ∀ r, restored (bd_budget d) r (bd_outcomes d !! r) (bd_outcomes d' !! r).
Proof using AdapterLaws0 ExecutorLaws0 Hsha Hconfig Hnew.
  intros d Hs Hdur Hws. destruct (final_healthy events) as (w' & C & S). fold d in C, S. specialize (S Hs).
  assert (w' = w) as -> by (pose proof (co_wal _ _ _ _ _ C); congruence). pose proof (core_state _ _ _ _ _ C) as Hw.
  pose proof (co_config _ _ _ _ _ C) as Hcfg.
  destruct (wal_inv_open _ w (co_inv _ _ _ _ _ C) Hws) as (n & Hl & Hn & _ & _ & Hp & Hf).
  destruct (open_complete sha256 _ _ _ repair Hp Hf) as [Ho _]. rewrite Hcfg in Ho.
  assert (opened (bw_file w) n (bw_state w) = w) as Hsame.
  { unfold opened. destruct w as [file [c rq idx b ev nx] l sealed]. cbn in *. by subst. }
  rewrite Hsame in Ho. unfold open_durable. rewrite Ho. cbn [mbind result_bind]. unfold read_only_view. rewrite Hws.
  cbn [mbind result_bind]. rewrite (sw_events _ Hw). cbn [mbind result_bind].
  destruct (recovered_agree _ Hw) as (outcomes & -> & Hr). cbn [mbind result_bind]. eexists. split; [done|]. cbn.
  split_and!; [done|by rewrite (sy_budget _ _ _ _ S), Hcfg|]. intros r. specialize (Hr r).
  pose proof (sy_outcomes _ _ _ _ S r I) as Ha. unfold agrees in Ha. destruct (view_request (bw_state w) r) as [e|] eqn:He; [|by rewrite Hr, Ha].
  destruct Hr as (cached & Hc & ->). unfold recovered_outcome in Hc.
  apply (view_request_Some _ _ _ Hw) in He. destruct (rs_request_ok _ _ _ Hw He) as (i & _ & Hi & Hre & _).
  pose proof (sw_entries _ Hw _ _ Hi) as (_ & _ & _ & _ & Hres & _ & Hfin). destruct (dr_phase e) as [| |wire]; cbn in Hc.
  - injection Hc as <-. destruct Ha as [->|[-> Hact]]; [done|]. cbn. rewrite (sy_budget _ _ _ _ S). cbn.
    rewrite mirror_lookup, <- Hre, <- Hres. by apply fmap_is_Some.
  - injection Hc as <-. by rewrite Ha.
  - destruct Ha as (response & -> & Hwire). destruct Hfin as (Hwf & _). destruct (from_wire_exact wire Hwf) as (resp & Hfw & Htw).
    rewrite Hfw in Hc. cbn in Hc. injection Hc as <-. cbn. congruence.
Qed.
End claims.
