(* ===== verification/DispatchEgress.v ===== *)
(** * What reaches the network

    Only the executor touches the adapters, and it runs the operation the frame
    carries; over the kernel and the public fetcher, every connection is one the
    caller's capability admits. *)

From S2P Require Import Prelude Bytes Time Http GitHub Capability State ControlFrame Budget ReplayGuard Operation Cbor CborProps.
From S2P Require Import Response ResponseChunk ResponseProps BrokerWalState BrokerWal DurableRecord DurableRecordProps Journal.
From S2P Require Import JournalProps AuditLog Kernel AuditProps KernelProps IpPolicy PublicFetch PublicFetchProps GitHubAdapter.
From S2P Require Import Dispatch DispatchProps.

(** ** The kernel as executor *)

(** The kernel, with the verdicts on its next audit appends. *)
Record KernelExecutor (W : Type) := {
  ke_kernel : CapabilityKernel W;
  ke_appends : list (AppendIo * AppendIo);
}.
Arguments ke_kernel {W}.
Arguments ke_appends {W}.

Definition executor_error (error : EffectCommitError AdapterError) : ExecutorError :=
  match error with
  | Commit_NotAuthorized => Executor_NotAuthorized
  | Commit_LockPoisoned => Executor_LockPoisoned
  | Commit_Effect error => Executor_Adapter error
  | Commit_Audit _ => Executor_AuditUnavailable
  | Commit_CommittedButAudit _ _ _ => Executor_CommittedButUnrecorded
  | Commit_CommitUnknown _ _ | Commit_CommitUnknownAndAudit _ _ _ => Executor_CommittedButUnrecorded
  end.

Definition kernel_execute {W} (context : DispatchContext) (request : CapabilityRequest)
    (effect : Capability → W → AdapterExecution * W) (xw : KernelExecutor W * W)
    : option (result ExecutorError BrokerEffect) * (KernelExecutor W * W) :=
  let '(x, w) := xw in
  let '(io_start, io_finish) := default (io_ok, io_ok) (head (ke_appends x)) in
  let '(r, (kernel, w)) :=
    authorize_and_execute_classified io_start io_finish (dc_caller context) (dc_capability context) request effect
      (ke_kernel x, w) in
  (Some (map_err executor_error r), ({| ke_kernel := kernel; ke_appends := tail (ke_appends x) |}, w)).

#[export] Instance kernel_executor W : CapabilityExecutor (KernelExecutor W) W := {| execute := kernel_execute |}.

(** The kernel's contract, as the dispatcher sees it. *)
Lemma kernel_execute_cases {W} context request effect (x x' : KernelExecutor W) w w' r :
  kernel_execute context request effect (x, w) = (r, (x', w')) →
  k_state (ke_kernel x') = k_state (ke_kernel x) ∧
  (w' = w ∧ (∀ v, r ≠ Some (Ok v)) ∨
   ∃ capability execution, authorizes (k_state (ke_kernel x)) (dc_caller context) (dc_capability context) request = true ∧
     cs_capabilities (k_state (ke_kernel x)) !! dc_capability context = Some capability ∧
     effect capability w = (execution, w') ∧ ∀ v, r = Some (Ok v) → ∃ receipt, execution = Exec_Committed v receipt).
Proof.
  unfold kernel_execute, authorize_and_execute_classified. destruct (default _ _) as [io_start io_finish].
  destruct (authorize_all_and_commit_inner _ _ _ _ _ _ _) as [res [k w1]] eqn:Hrun. intros [= <- <- <-].
  apply authorize_inner_refines in Hrun as [Hst Hout]. cbn [ke_kernel]. split; [done|].
  inversion Hout as [| | |id o rr Hn Ho|id c ex w2 o rr Hc Hp Ha Hx Hcl]; subst; try by left.
  - left. split; [done|]. intros v. by destruct Ho as [[-> _]|(? & -> & _)].
  - right. exists c, ex. apply authorized_capability_Some in Ha as [Hcap Hall]. split_and!; try done.
    + apply Hall. by left.
    + intros v. destruct Hcl; cbn; intros [= <-]. eauto.
Qed.

#[export] Instance kernel_executor_laws W : ExecutorLaws (KernelExecutor W) W.
Proof.
  split. intros context request effect x w v x' w' H. apply kernel_execute_cases in H as [_ [[_ H]|(c & ex & _ & _ & Hx & Hv)]].
  - by destruct (H v).
  - destruct (Hv v eq_refl) as [receipt ->]. by exists c, receipt.
Qed.

(** ** The adapters *)

Section system.
  Context {F G : Type} `{!FetchEnv F} `{!GitHubEnv G}.
  Context (join : str → str → option Url) (fetcher : PublicFetcher).

Record AdapterWorld := { aw_fetch : FetchState (W := F); aw_github : G }.

(** A panic of the GitHub adapter is excluded by [adapter_never_panics]. *)
Definition system_github_execute (request_id : BrokerRequestId) (request : GitHubRequest) (authority : GitHubAuthority)
    (cap : N) (w : AdapterWorld) : result GitHubAdapterError GitHubResponse * AdapterWorld :=
  let '(r, g) := adapter_execute request_id request authority cap (aw_github w) in
  (default (Err (commit_unknown (gr_operation request) cap)) r, {| aw_fetch := aw_fetch w; aw_github := g |}).

Definition system_public_fetch (request : HttpFetchRequest) (authority : HttpFetchAuthority) (w : AdapterWorld)
    : result FetchError PublicResponse * AdapterWorld :=
  let '(r, f) := fetch join fetcher request authority (aw_fetch w) in
  (r, {| aw_fetch := f; aw_github := aw_github w |}).

#[local] Instance system_adapters : DispatchAdapters AdapterWorld :=
  {| public_fetch := system_public_fetch; github_execute := system_github_execute |}.

Lemma adapter_never_panics request_id request authority cap (g : G) :
  (adapter_execute request_id request authority cap g).1 ≠ None.
Proof.
  unfold adapter_execute. destruct (negb _); [done|]. destruct (env_credential _ _) as [[c|] g1]; [|done].
  destruct (gr_operation request).
  - destruct (env_plan _ _ _) as [[plan|] g2]; [|done]. destruct (env_publish_branch _ _ _ _ _) as [o g3]. apply finish_never_panics.
  - destruct (env_create_pull_request _ _ _ _) as [o g3]. apply finish_never_panics.
Qed.

(** Providers build their responses with [GitHubResponse::committed]. *)
Class ProviderLaws := {
  publish_typed : ∀ request plan credential cap g response g',
    env_publish_branch request plan credential cap g = (Ok response, g') → outcome_wf (WireGitHub (ghr_wire response));
  pull_request_typed : ∀ request credential cap g response g',
    env_create_pull_request request credential cap g = (Ok response, g') → outcome_wf (WireGitHub (ghr_wire response));
}.

Lemma finish_typed outcome request_id request cap expected response :
  (∀ raw, outcome = Ok raw → outcome_wf (WireGitHub (ghr_wire raw))) →
  finish_provider_mutation outcome request_id request cap expected = Some (Ok response) →
  outcome_wf (WireGitHub (ghr_wire response)).
Proof.
  intros Ht Hf. pose proof (finish_cases outcome request_id request cap expected) as Hc. rewrite Hf in Hc.
  destruct Hc as (raw & Hraw & -> & _). exact (Ht raw Hraw).
Qed.

#[local] Instance system_adapter_laws `{!ProviderLaws} : AdapterLaws AdapterWorld.
Proof.
  split.
  - intros request authority w response w' Hh Hp. cbn. unfold system_public_fetch.
    destruct (fetch _ _ _ _ _) as [r f] eqn:Hf. intros [= -> <-].
    eapply (fetch_typed join fetcher request authority (aw_fetch w)); [done|done|by rewrite Hf].
  - intros request_id request authority cap w response w'. cbn. unfold system_github_execute, adapter_execute.
    destruct (negb _); [done|]. destruct (env_credential _ _) as [[c|] g1]; [|done]. destruct (gr_operation request).
    + destruct (env_plan _ _ _) as [[plan|] g2]; [|done]. destruct (env_publish_branch _ _ _ _ _) as [o g3] eqn:Ho.
      destruct (finish_provider_mutation o _ _ _ _) as [[resp|]|] eqn:Hf; try done. intros [= <- _].
      eapply finish_typed; [|exact Hf]. intros raw ->. by eapply publish_typed.
    + destruct (env_create_pull_request _ _ _ _) as [o g3] eqn:Ho.
      destruct (finish_provider_mutation o _ _ _ _) as [[resp|]|] eqn:Hf; try done. intros [= <- _].
      eapply finish_typed; [|exact Hf]. intros raw ->. by eapply pull_request_typed.
Qed.
End system.
Arguments AdapterWorld : clear implicits.

(** ** What reaches the network *)

Create HintDb idle.

Section idle.
  Context {X W : Type} `{!CapabilityExecutor X W} `{!DispatchAdapters W}.
  Context (sha256 : str → str).

Abbreviation D := (BrokerDispatcher X W).
Abbreviation DM := (ST D DispatchStop).

Definition world (d : D) : X * W := (bd_executor d, bd_adapters d).

(** Code that does not run the executor. *)
Definition idle {A} (m : DM A) : Prop := ∀ d, world (m d).2 = world d.

Lemma idle_bind {A B} (m : DM A) (k : A → DM B) : idle m → (∀ a, idle (k a)) → idle (m ≫= k).
Proof.
  intros Hm Hk d. unfold mbind, ST_bind. specialize (Hm d). destruct (m d) as [[a|e] d1]; [|done]. by rewrite Hk.
Qed.

Lemma idle_modify (f : D → D) : (∀ d, world (f d) = world d) → idle (st_modify f).
Proof. intros Hf d. apply Hf. Qed.

Lemma idle_with_wal {A} w (operation : WM A) : idle (with_wal w operation).
Proof. intros d. unfold with_wal. by destruct (operation w). Qed.

Lemma idle_with_budget {A} (operation : BM A) : idle (with_budget operation).
Proof. intros d. unfold with_budget. by destruct (operation (bd_budget d)). Qed.
End idle.

#[export] Hint Resolve idle_with_wal idle_with_budget : idle.

Ltac idle_step :=
  match goal with
  | |- ∀ _, _ => intros ?
  | |- idle (_ ≫= _) => apply idle_bind
  | |- idle (mret _) => done
  | |- idle (st_fail _) => done
  | |- idle st_get => done
  | |- idle (st_modify _) => apply idle_modify
  | |- idle (match ?x with _ => _ end) => destruct x
  | |- _ => first [done | solve [eauto with idle]]
  end.
Ltac solve_idle := repeat idle_step.

Section dispatch.
  Context {X W : Type} `{!CapabilityExecutor X W} `{!DispatchAdapters W}.
  Context (sha256 : str → str).

Abbreviation D := (BrokerDispatcher X W).
Abbreviation DM := (ST D DispatchStop).

Lemma idle_remember r outcome : idle (X := X) (W := W) (remember r outcome).
Proof. by apply idle_modify. Qed.

Lemma idle_seal {A} : idle (X := X) (W := W) (seal_durable (A := A)).
Proof. unfold seal_durable. solve_idle. Qed.
Hint Resolve idle_remember idle_seal : idle.

Lemma idle_finalize io response settlement : idle (X := X) (W := W) (finalize_durable sha256 io response settlement).
Proof. unfold finalize_durable. solve_idle. Qed.
Hint Resolve idle_finalize : idle.

Lemma idle_recover io r cap : idle (X := X) (W := W) (recover_accepted_pending sha256 io r cap).
Proof. unfold recover_accepted_pending. solve_idle. Qed.

Lemma idle_settle io r cap outcome : idle (X := X) (W := W) (settle_execution sha256 io r cap outcome).
Proof. unfold settle_execution, settle_committed_but_unrecorded. solve_idle. Qed.

Lemma idle_start io r cap : idle (X := X) (W := W) (start_budget io r cap).
Proof. unfold start_budget. solve_idle. Qed.

Lemma idle_deny io r error resuming : idle (X := X) (W := W) (deny_budget sha256 io r error resuming).
Proof. unfold deny_budget. solve_idle. Qed.

Lemma idle_admit io envelope payload cap had : idle (X := X) (W := W) (admit_envelope sha256 io envelope payload cap had).
Proof. unfold admit_envelope. solve_idle. Qed.
Hint Resolve idle_recover idle_settle idle_start idle_deny idle_admit : idle.

(** The executor ran at most once, on [operation]. *)
Definition runs_once (operation : BrokerOperation) (context : DispatchContext) (before after : X * W) : Prop :=
  after = before ∨ ∃ r hash cap,
    after = (execute context (capability_request_at operation (dc_now context)) (dispatch_adapter operation r hash cap) before).2.

Lemma dispatch_new_runs io r operation hash context resuming d :
  runs_once operation context (world d) (world (dispatch_new sha256 io r operation hash context resuming d).2).
Proof.
  unfold dispatch_new. destruct (match public_response_byte_limit operation with Some limit => _ | None => _ end).
  { left. assert (idle (X := X) (W := W) (finalize_durable sha256 (dio_finalize io) (rejected r (Reject_PublicFetch OperationRejected)) SettleNotStarted
      ≫= λ _, mret (rejected r (Reject_PublicFetch OperationRejected), None : option CachedOutcome))) as Hi by solve_idle. apply Hi. }
  unfold mbind at 1, ST_bind at 1, st_get. unfold mbind at 1, ST_bind at 1.
  pose proof (idle_start (dio_reserve io) r (operation_response_cap d operation) d) as Hs.
  destruct (start_budget _ _ _ d) as [[started|st] d1]; cbn [snd] in Hs; [|by left].
  destruct started as [[]|error]; [|left; by rewrite <- Hs, idle_deny].
  unfold mbind, ST_bind, run_executor. fold (world d1). rewrite Hs.
  destruct (execute _ _ _ (world d)) as [res [x' w']] eqn:Hx. right. exists r, hash, (bd_github_response_cap d1). rewrite Hx.
  destruct res as [outcome|]; [|done]. by rewrite idle_settle.
Qed.

Definition runs {A} (operation : BrokerOperation) (context : DispatchContext) (m : DM A) : Prop :=
  ∀ d, runs_once operation context (world d) (world (m d).2).

Lemma idle_runs {A} operation context (m : DM A) : idle m → runs operation context m.
Proof. intros Hm d. left. apply Hm. Qed.

Lemma runs_after {A B} operation context (m : DM A) (k : A → DM B) :
  idle m → (∀ a, runs operation context (k a)) → runs operation context (m ≫= k).
Proof.
  intros Hm Hk d. unfold mbind, ST_bind. specialize (Hm d). destruct (m d) as [[a|e] d1]; cbn [snd] in Hm; [|by left].
  rewrite <- Hm. apply Hk.
Qed.

Lemma runs_before {A B} operation context (m : DM A) (k : A → DM B) :
  runs operation context m → (∀ a, idle (k a)) → runs operation context (m ≫= k).
Proof.
  intros Hm Hk d. unfold mbind, ST_bind. specialize (Hm d). destruct (m d) as [[a|e] d1]; cbn [snd] in Hm; [|done]. by rewrite Hk.
Qed.

Lemma dispatch_and_remember_runs io request context resuming :
  runs (cbr_operation request) context (dispatch_and_remember sha256 io request context resuming).
Proof.
  apply runs_before; [intros d; apply dispatch_new_runs|]. intros [response cached]. solve_idle.
Qed.

Lemma dispatch_control_runs io frame context d :
  let d' := (dispatch_control_frame sha256 io frame context d).2 in
  world d' = world d ∨ ∃ request, CanonicalBrokerRequest_decode sha256 (cf_payload frame) = Ok request ∧
    runs_once (cbr_operation request) context (world d) (world d').
Proof.
  cbv zeta. unfold dispatch_control_frame.
  destruct (bd_sealed d) eqn:Hsealed; [left; unfold mbind at 1, ST_bind at 1, st_get; by rewrite Hsealed|].
  destruct (CanonicalBrokerRequest_decode sha256 (cf_payload frame)) as [request|error] eqn:Hd.
  2:{ left. rewrite (st_bind_ok st_get _ d d d) by done. by rewrite Hsealed. }
  right. exists request. split; [done|]. rewrite (st_bind_ok st_get _ d d d) by done. rewrite Hsealed.
  erewrite st_query_ok by done. clear Hsealed.
  refine (runs_after _ _ _ _ (idle_admit _ _ _ _ _) _ d). intros acceptance.
  destruct acceptance; [destruct (bool_decide _); [|destruct (bool_decide _)]|].
  - apply runs_after; [solve_idle|]. intros _. apply dispatch_and_remember_runs.
  - apply idle_runs, idle_recover.
  - apply dispatch_and_remember_runs.
  - apply runs_after; [done|]. intros self.
    destruct (bd_outcomes self !! _) as [[| |]|]; [apply idle_runs, idle_recover|by apply idle_runs|apply dispatch_and_remember_runs|by apply idle_runs].
Qed.

(** Only the operation a frame carries can reach the adapters. *)
Lemma dispatch_runs io encoded_frame context d :
  let d' := (dispatch_frame sha256 io encoded_frame context d).2 in
  world d' = world d ∨ ∃ frame request, ControlFrame_decode_complete encoded_frame = Ok frame ∧
    CanonicalBrokerRequest_decode sha256 (cf_payload frame) = Ok request ∧
    runs_once (cbr_operation request) context (world d) (world d').
Proof.
  cbv zeta. unfold dispatch_frame. destruct (ControlFrame_decode_complete encoded_frame) as [frame|error]; [|by left].
  erewrite st_query_ok by done. destruct (dispatch_control_runs io frame context d) as [H|(request & Hd & Hr)]; [by left|].
  right. by exists frame, request.
Qed.
End dispatch.

(** ** Over the kernel and the adapters *)

Section system.
  Context {F G : Type} `{!FetchEnv F} `{!GitHubEnv G}.
  Context (join : str → str → option Url) (fetcher : PublicFetcher) (sha256 : str → str).

Abbreviation Adapters := (AdapterWorld F G).
#[local] Instance production_adapters : DispatchAdapters Adapters := system_adapters join fetcher.
Abbreviation System := (BrokerDispatcher (KernelExecutor Adapters) Adapters).

(** An adapter call opens confined connections, or runs one admitted GitHub request. *)
Lemma system_adapter_effect operation r hash cap capability (w w' : Adapters) execution :
  dispatch_adapter operation r hash cap capability w = (execution, w') →
  (∃ sent, fst_sent (aw_fetch w') = fst_sent (aw_fetch w) ++ sent ∧ length sent <= 6 ∧
     ∀ c, c ∈ sent → ∃ request authority, operation = OpPublicFetch request ∧ cap_authority capability = AuthHttpFetch authority ∧
       confined fetcher request authority c) ∧
  (aw_github w' = aw_github w ∨ ∃ request authority, operation = OpGitHub request ∧
     cap_authority capability = AuthGitHub authority ∧ github_matches authority request = true).
Proof.
  assert (∀ w'' : Adapters, w'' = w → (∃ sent, fst_sent (aw_fetch w'') = fst_sent (aw_fetch w) ++ sent ∧ length sent <= 6 ∧
     ∀ c, c ∈ sent → ∃ request authority, operation = OpPublicFetch request ∧ cap_authority capability = AuthHttpFetch authority ∧
       confined fetcher request authority c)) as Hnone.
  { intros w'' ->. exists []. rewrite app_nil_r. split_and!; [done|cbn; lia|]. intros c Hc. by apply not_elem_of_nil in Hc. }
  unfold dispatch_adapter. destruct operation as [request|request], (cap_authority capability) as [|authority|authority];
    try (intros [= _ <-]; split; [by apply Hnone|by left]); cbn.
  - unfold system_public_fetch. pose proof (fetch_sent_confined join fetcher request authority (aw_fetch w)) as (sent & Hs & Hl & Hall & _).
    destruct (fetch _ _ _ _ _) as [res f]. intros [= _ <-]. cbn in *. split; [|by left]. exists sent. split_and!; [done|done|].
    rewrite Forall_forall in Hall. intros c Hc. exists request, authority. auto.
  - unfold system_github_execute. destruct (adapter_execute r request authority cap (aw_github w)) as [res g] eqn:Ha. intros [= _ <-]. cbn.
    split; [exists []; rewrite app_nil_r; split_and!; [done|cbn; lia|]; intros c Hc; by apply not_elem_of_nil in Hc|].
    unfold adapter_execute in Ha. destruct (github_matches authority request) eqn:Hm; cbn in Ha; [|left; congruence].
    right. by exists request, authority.
Qed.

(** C3: egress is confined to capabilities, end to end.  Whatever bytes arrive as a frame,
    whatever servers, resolvers and disks do, a dispatch opens at most six
    connections, each for the fetch the frame asks for, which the kernel authorizes at
    that moment for the caller's capability, to a target that capability's authority
    admits, on port 443 at an address outside every special-purpose block ([special], the
    documented table without the one NAT64 block the code does not deny); the GitHub side is
    reached only by a request its authority admits.  The authority state is not changed. *)
Theorem egress_is_authorized extra io encoded_frame context (d : System) :
  IpPolicy_strict extra = Ok (pf_ip_policy fetcher) →
  let d' := (dispatch_frame sha256 io encoded_frame context d).2 in
  let state := k_state (ke_kernel (bd_executor d)) in
  let permitted operation authority := ∃ frame request capability,
    ControlFrame_decode_complete encoded_frame = Ok frame ∧
    CanonicalBrokerRequest_decode sha256 (cf_payload frame) = Ok request ∧ cbr_operation request = operation ∧
    authorizes state (dc_caller context) (dc_capability context) (capability_request_at operation (dc_now context)) = true ∧
    cs_capabilities state !! dc_capability context = Some capability ∧ cap_authority capability = authority in
  k_state (ke_kernel (bd_executor d')) = state ∧
  (∃ sent, fst_sent (aw_fetch (bd_adapters d')) = fst_sent (aw_fetch (bd_adapters d)) ++ sent ∧ length sent <= 6 ∧
     ∀ c, c ∈ sent → ∃ request authority, permitted (OpPublicFetch request) (AuthHttpFetch authority) ∧
       http_fetch_matches authority
         {| hr_method := hr_method request; hr_host := ft_host (cn_target c); hr_path := ft_path (cn_target c);
            hr_max_response_bytes := hr_max_response_bytes request |} = true ∧
       cn_port c = HTTPS_PORT ∧ cn_method c = hr_method request ∧ (IpAddr_wf (cn_address c) → ¬ special (cn_address c))) ∧
  (aw_github (bd_adapters d') = aw_github (bd_adapters d) ∨
   ∃ request authority, permitted (OpGitHub request) (AuthGitHub authority) ∧ github_matches authority request = true).
Proof.
  intros Hstrict d' state permitted.
  assert (world d' = world d → k_state (ke_kernel (bd_executor d')) = state ∧
    (∃ sent, fst_sent (aw_fetch (bd_adapters d')) = fst_sent (aw_fetch (bd_adapters d)) ++ sent ∧ length sent <= 6 ∧
       ∀ c : Connection, c ∈ sent → False) ∧ aw_github (bd_adapters d') = aw_github (bd_adapters d)) as Hidle.
  { intros [= Hx Hw]. rewrite Hx, Hw. split_and!; [done| |done]. exists []. rewrite app_nil_r.
    split_and!; [done|cbn; lia|]. intros c Hc. by apply not_elem_of_nil in Hc. }
  destruct (dispatch_runs sha256 io encoded_frame context d)
    as [H|(frame & request & Hf & Hd & [H|(r & hash & cap & H)])]; fold d' in H; try (destruct (Hidle H) as (? & (sent & ? & ? & ?) & ?); naive_solver).
  destruct (execute _ _ _ (world d)) as [res [x' w']] eqn:Hx. injection H as Hx' Hw'. rewrite Hx', Hw'.
  apply kernel_execute_cases in Hx as [Hst [[-> _]|(capability & execution & Hauth & Hcap & Heff & _)]].
  { split_and!; [done| |by left]. exists []. rewrite app_nil_r. split_and!; [done|cbn; lia|]. intros c Hc. by apply not_elem_of_nil in Hc. }
  split; [done|]. apply system_adapter_effect in Heff as [(sent & Hs & Hl & Hall) Hg]. split.
  - exists sent. split_and!; [done|done|]. intros c Hc. destruct (Hall c Hc) as (q & authority & Hop & Ha & Hconf).
    destruct (confined_public fetcher q authority extra c Hstrict Hconf) as [Hpub _]. destruct Hconf as (Hm & _ & Hp & Hmeth).
    exists q, authority. split_and!; try done. exists frame, request, capability. rewrite Hop in Hauth. done.
  - destruct Hg as [Hg|(q & authority & Hop & Ha & Hm)]; [by left|right]. exists q, authority. split; [|done].
    exists frame, request, capability. rewrite Hop in Hauth. done.
Qed.
End system.
