(* ===== verification/DispatchDemo.v ===== *)
(** * A concrete dispatcher

    A session over the kernel with one HTTP capability, a server that redirects once,
    and a restart; instances of the dispatcher's theorems. *)

From S2P Require Import Prelude Bytes Time Path File Http GitHub Capability State StateInvariant StateHistory.
From S2P Require Import ControlFrame Budget ReplayGuard Operation Cbor CborProps Response ResponseChunk ResponseProps.
From S2P Require Import BrokerWalState BrokerWal BrokerWalInvariant BrokerWalHistory BrokerWalCodec BrokerWalProps BrokerWalDemo.
From S2P Require Import DurableRecord Journal JournalProps JournalClaims AuditLog Kernel IpPolicy PublicFetch PublicFetchProps GitHubAdapter.
From S2P Require Import Dispatch DispatchProps DispatchClaims DispatchEgress.

Definition fetch_grant : CapabilityGrant :=
  {| grant_subject := agent; grant_validity := demo_window; grant_authority := AuthHttpFetch demo_fetch_authority;
     grant_delegable := false |}.

Definition fetch_state : CapabilityState :=
  run_ops [OpRegisterSubject {| subj_id := agent; subj_parent := None;
             subj_envelope := {| env_validity := demo_window; env_authority := AuthHttpFetch demo_fetch_authority |} |};
           OpIssueRoot fetch_grant] (CapabilityState_new (lit "host")).

#[local] Instance demo_fetch_env : FetchEnv nat := demo_env.
(** A host without GitHub credentials. *)
#[local] Instance no_github : GitHubEnv unit := {|
  env_credential _ g := (None, g);
  env_plan _ _ g := (Err CredentialUnavailable, g);
  env_publish_branch _ _ _ _ g := (Err Provider_CommitUnknown, g);
  env_create_pull_request _ _ _ g := (Err Provider_CommitUnknown, g);
|}.
#[local] Instance no_github_laws : ProviderLaws (G := unit).
Proof. by split. Qed.

#[local] Instance demo_adapters : DispatchAdapters (AdapterWorld nat unit) := production_adapters demo_join demo_fetcher.
#[local] Instance demo_adapter_laws : AdapterLaws (AdapterWorld nat unit) := system_adapter_laws demo_join demo_fetcher.

Definition fetch_executor : KernelExecutor (AdapterWorld nat unit) :=
  {| ke_kernel := CapabilityKernel_new fetch_state; ke_appends := [] |}.

Definition fetch_world : AdapterWorld nat unit := {| aw_fetch := demo_fetch_start; aw_github := tt |}.

Definition fetch_context : DispatchContext := {| dc_caller := agent; dc_capability := root_id; dc_now := 5 |}.

(** The encoded frame of the operation number [n]. *)
Definition operation_frame (operation : BrokerOperation) (n : N) : str :=
  let payload := encode_operation operation in
  let request :=
    {| cbr_envelope := {| be_session := dsc_session demo_wal_config; be_sequence := n;
                          be_request := BrokerWalDemo.demo_request n; be_payload_hash := demo_digest payload |};
       cbr_operation := operation; cbr_canonical_payload := payload |} in
  match CanonicalBrokerRequest_encode request with
  | Ok bytes => ControlFrame_encode {| cf_payload := bytes; cf_wire_length := len bytes |}
  | Err _ => []
  end.

Definition fetch_frame : N → str := operation_frame (OpPublicFetch demo_fetch_request).

Definition disk_ok : DispatchIo :=
  {| dio_accept := wal_io_ok; dio_reserve := wal_io_ok; dio_retryable := wal_io_ok; dio_finalize := wal_io_ok |}.
(** The final record is torn after ten bytes. *)
Definition disk_torn : DispatchIo :=
  {| dio_accept := wal_io_ok; dio_reserve := wal_io_ok; dio_retryable := wal_io_ok; dio_finalize := torn_io 10 |}.

Definition fetch_dispatcher : BrokerDispatcher (KernelExecutor (AdapterWorld nat unit)) (AdapterWorld nat unit) :=
  {| bd_executor := fetch_executor; bd_adapters := fetch_world; bd_replay := None;
     bd_budget := SessionBudget_new (dsc_budget_limits demo_wal_config); bd_github_response_cap := 1000;
     bd_outcomes := ∅; bd_durable := Some demo_wal; bd_sealed := false; bd_session := dsc_session demo_wal_config;
     bd_executed := [] |}.

Lemma fetch_dispatcher_new : new_durable fetch_executor fetch_world demo_wal_config 1000 = Ok fetch_dispatcher.
Proof. unfold new_durable. rewrite demo_wal_created. reflexivity. Qed.

(** A fetch, a fetch whose final record is torn, a restart, and both frames again. *)
Definition fetch_events : list (dispatch_event (X := KernelExecutor (AdapterWorld nat unit)) (W := AdapterWorld nat unit)) :=
  [DFrame disk_ok (fetch_frame 0) fetch_context; DFrame disk_torn (fetch_frame 1) fetch_context;
   DRestart fetch_executor fetch_world None; DFrame disk_ok (fetch_frame 0) fetch_context;
   DFrame disk_ok (fetch_frame 1) fetch_context].

Abbreviation fetch_life := (dispatch_life demo_digest demo_wal_config 1000 fetch_events fetch_dispatcher).

Lemma fetch_life_runs :
  bd_executed fetch_life = [BrokerWalDemo.demo_request 0; BrokerWalDemo.demo_request 1] ∧ bd_sealed fetch_life = false ∧
  (λ c, match c with Cached_Final response => Some (rsp_outcome (broker_response_to_wire response)) | _ => None end) <$>
    bd_outcomes fetch_life !! BrokerWalDemo.demo_request 1 = Some (Some (WireRejected Wire_CommittedButUnrecorded)).
Proof. vm_compute. done. Qed.

Lemma dispatch_at_most_once_witness : NoDup (bd_executed fetch_life).
Proof.
  apply (dispatch_at_most_once demo_digest demo_digest_len demo_wal_config 1000 demo_wal_config_wf fetch_executor fetch_world
    fetch_dispatcher fetch_dispatcher_new fetch_events).
Defined.

(** The first fetch of the session. *)
Definition fetch_first : result DispatchStop BrokerResponse * BrokerDispatcher (KernelExecutor (AdapterWorld nat unit)) (AdapterWorld nat unit) :=
  dispatch_frame demo_digest disk_ok (fetch_frame 0) fetch_context fetch_dispatcher.

Definition fetch_answer : BrokerResponse :=
  {| br_request := BrokerWalDemo.demo_request 0;
     br_outcome := Succeeded (EffectPublic {| pr_wire :=
       {| pwr_status := 200; pwr_host := {| ch_name := lit "example.com" |};
          pwr_path := {| cup_segments := [lit "v1"; lit "b"] |}; pwr_body := lit "hello" |} |}) |}.

Lemma retry_returns_recorded_response_witness :
  let d2 := dispatch_life demo_digest demo_wal_config 1000
    [DFrame disk_torn (fetch_frame 1) fetch_context; DRestart fetch_executor fetch_world None] fetch_first.2 in
  let '(result, d3) := dispatch_frame demo_digest disk_ok (fetch_frame 0) fetch_context d2 in
  bd_executor d3 = bd_executor d2 ∧ bd_adapters d3 = bd_adapters d2 ∧ bd_executed d3 = bd_executed d2 ∧
  (result = Err (Stop DurableUnavailable) ∨
   ∃ response', result = Ok response' ∧ broker_response_to_wire response' = broker_response_to_wire fetch_answer).
Proof.
  apply (retry_returns_recorded_response demo_digest demo_digest_len demo_wal_config 1000 demo_wal_config_wf fetch_executor
    fetch_world fetch_dispatcher fetch_dispatcher_new [] _ disk_ok fetch_context disk_ok fetch_context (fetch_frame 0) fetch_answer).
  - vm_compute. reflexivity.
  - vm_compute. discriminate.
Defined.

Lemma executed_effect_is_recorded_witness :
  let d := dispatch_life demo_digest demo_wal_config 1000 [] fetch_dispatcher in
  let '(result, d') := dispatch_frame demo_digest disk_ok (fetch_frame 0) fetch_context d in
  bd_executed d' = bd_executed d ∨ result = Err Unwind ∨
  ∃ response w e, result = Ok response ∧ bd_executed d' = bd_executed d ++ [br_request response] ∧
    bd_durable d' = Some w ∧ view_request (bw_state w) (br_request response) = Some e ∧
    dr_phase e = Final (broker_response_to_wire response) ∧ dr_reservation e = None.
Proof.
  apply (executed_effect_is_recorded demo_digest demo_digest_len demo_wal_config 1000 demo_wal_config_wf fetch_executor
    fetch_world fetch_dispatcher fetch_dispatcher_new [] disk_ok (fetch_frame 0) fetch_context). reflexivity.
Defined.

Definition fetch_log : DurableBrokerWal := default demo_wal (bd_durable fetch_life).

Lemma restart_is_transparent_witness :
  let d := fetch_life in
  ∃ d', open_durable demo_digest fetch_executor fetch_world demo_wal_config 1000 (bw_file fetch_log) None (bd_executed d) = Ok d' ∧
    bd_durable d' = Some fetch_log ∧ bd_budget d' = bd_budget d ∧
    ∀ r, restored (bd_budget d) r (bd_outcomes d !! r) (bd_outcomes d' !! r).
Proof.
  apply (restart_is_transparent demo_digest demo_digest_len demo_wal_config 1000 demo_wal_config_wf fetch_executor fetch_world
    fetch_dispatcher fetch_dispatcher_new fetch_events fetch_executor fetch_world None fetch_log);
    vm_compute; reflexivity.
Defined.

Lemma egress_is_authorized_witness :
  length (fst_sent (aw_fetch (bd_adapters fetch_first.2))) = 2 ∧
  ∃ sent, fst_sent (aw_fetch (bd_adapters fetch_first.2)) = [] ++ sent ∧ length sent <= 6 ∧
    ∀ c, c ∈ sent → cn_port c = HTTPS_PORT.
Proof.
  split; [vm_compute; reflexivity|].
  destruct (egress_is_authorized demo_join demo_fetcher demo_digest [] disk_ok (fetch_frame 0) fetch_context fetch_dispatcher)
    as (_ & (sent & Hs & Hl & Hall) & _); [vm_compute; reflexivity|].
  exists sent. split_and!; [exact Hs|exact Hl|]. intros c Hc. destruct (Hall c Hc) as (q & authority & _ & _ & Hp & _). exact Hp.
Defined.

(** ** A panic while a budget denial is retried *)

(** An executor that follows a script: run the effect, then panic or report it. *)
#[local] Instance scripted_executor W : CapabilityExecutor (list bool) W := {|
  execute _ _ effect '(script, w) :=
    match cs_capabilities fetch_state !! root_id with
    | None => (Some (Err Executor_NotAuthorized), (script, w))
    | Some capability =>
        let '(execution, w) := effect capability w in
        (if default false (head script) then None
         else match execution with
              | Exec_Committed value _ => Some (Ok value)
              | Exec_FailedBeforeCommit error => Some (Err (Executor_Adapter error))
              | Exec_CommitUnknown _ => Some (Err Executor_CommittedButUnrecorded)
              end, (tail script, w))
    end;
|}.

(** One reservation at a time. *)
Definition narrow_config : DurableSessionConfig :=
  {| dsc_session := dsc_session demo_wal_config; dsc_replay_capacity := 4;
     dsc_budget_limits := {| sbl_requests := 4; sbl_response_bytes := 100000; sbl_concurrent := 1 |} |}.

(** The first request panics; the second is denied for now; the first is closed; the
    second is retried and panics. *)
Definition panic_history (d : BrokerDispatcher (list bool) (AdapterWorld nat unit))
    : BrokerDispatcher (list bool) (AdapterWorld nat unit) :=
  foldl (λ d n, (dispatch_frame demo_digest disk_ok (fetch_frame n) fetch_context d).2) d [0; 1; 0; 1]%N.

(** A panic while a denied request is retried is not closed as possibly committed.
    The request's effect ran, yet an exact retry is told, finally, that the budget
    rejected it, and its reservation stays active for the rest of the session; with a
    log the retry closes the dispatcher although the disk is sound.  A panic on a
    request's first attempt is reported as possibly committed in both. *)
Theorem resumed_panic_is_misreported :
  let memory := panic_history (new_in_memory [true; true] fetch_world (dsc_session narrow_config) 4
                                 (dsc_budget_limits narrow_config) 1000) in
  let retry := dispatch_frame demo_digest disk_ok (fetch_frame 1) fetch_context memory in
  bd_executed memory = [BrokerWalDemo.demo_request 0; BrokerWalDemo.demo_request 1] ∧
  retry.1 = Ok (rejected (BrokerWalDemo.demo_request 1) Reject_Budget) ∧
  bd_outcomes retry.2 !! BrokerWalDemo.demo_request 1 = Some (Cached_Final (rejected (BrokerWalDemo.demo_request 1) Reject_Budget)) ∧
  rr_max_response_bytes <$> sb_active (bd_budget retry.2) !! BrokerWalDemo.demo_request 1 = Some 100%N ∧
  (dispatch_frame demo_digest disk_ok (fetch_frame 0) fetch_context memory).1 =
    Ok (rejected (BrokerWalDemo.demo_request 0) Reject_CommittedButUnrecorded) ∧
  match new_durable [true; true] fetch_world narrow_config 1000 with
  | Ok d0 => (dispatch_frame demo_digest disk_ok (fetch_frame 1) fetch_context (panic_history d0)).1 = Err (Stop DurableUnavailable)
  | Err _ => False
  end.
Proof. split_and!; vm_compute; reflexivity. Qed.

(** ** An audit failure after the effect *)

(** A kernel on a durable trail whose second append fails. *)
Definition failing_audit_executor : KernelExecutor (AdapterWorld nat unit) :=
  {| ke_kernel := match try_new_with_durable_audit fetch_state demo_journal with
                  | Ok kernel => kernel
                  | Err _ => CapabilityKernel_new fetch_state
                  end;
     ke_appends := [(io_ok, {| io_before := Some (Durable_Io (lit "Other") (lit "disk")); io_write := None; io_after := None |})] |}.

(** A fetch whose body exceeds its own limit. *)
Definition short_fetch : BrokerOperation :=
  OpPublicFetch {| hr_method := Get; hr_host := {| ch_name := lit "example.com" |}; hr_path := {| cup_segments := [lit "v1"] |};
                   hr_max_response_bytes := 3 |}.

(** [AuditUnavailable] does not mean that nothing was attempted: when the effect fails
    and its terminal record cannot be written, the caller is told [AuditUnavailable]
    after two connections were opened. *)
Theorem audit_unavailable_after_attempt :
  let d := new_in_memory failing_audit_executor fetch_world (dsc_session demo_wal_config) 4 (dsc_budget_limits demo_wal_config) 1000 in
  let run := dispatch_frame demo_digest disk_ok (operation_frame short_fetch 0) fetch_context d in
  run.1 = Ok (rejected (BrokerWalDemo.demo_request 0) Reject_AuditUnavailable) ∧
  length (fst_sent (aw_fetch (bd_adapters run.2))) = 2.
Proof. split; vm_compute; reflexivity. Qed.
