(* ===== verification/Policy.v ===== *)
(** * Canonical policy digests ([crates/authority-core/src/policy.rs])

    The versioned, length-delimited encoding of a root authority and the textual
    form of its digest.  SHA-256 is the parameter [sha256].  The two [expect] calls
    on string and segment lengths panic above [u32::MAX]; a panic is [None]. *)

From S2P Require Import Prelude Bytes BitSet Time Path File Http GitHub Capability.

Definition ROOT_POLICY_ENCODING_VERSION : N := 1.

(** ** The writer *)

Abbreviation CanonicalPolicy := str.

Definition CanonicalPolicy_new : CanonicalPolicy := lit "authority-root-policy" ++ [Byte.x00].

Definition field_u8 (self : CanonicalPolicy) (value : N) : CanonicalPolicy := self ++ [N2b value].
Definition field_u16 (self : CanonicalPolicy) (value : N) : CanonicalPolicy := self ++ be_bytes 2 value.
Definition field_u32 (self : CanonicalPolicy) (value : N) : CanonicalPolicy := self ++ be_bytes 4 value.
Definition field_u64 (self : CanonicalPolicy) (value : N) : CanonicalPolicy := self ++ be_bytes 8 value.

(** [u32::try_from(n).expect(..)]. *)
Definition expect_u32 (n : N) : option N := if (n <? 2 ^ 32)%N then Some n else None.

Definition field_str (self : CanonicalPolicy) (value : str) : option CanonicalPolicy :=
  length ← expect_u32 (len value);
  Some (field_u32 self length ++ value).

Definition field_segments (self : CanonicalPolicy) (segments : list str) : option CanonicalPolicy :=
  count ← expect_u32 (N.of_nat (length segments));
  foldl (λ self segment, self ← self; field_str self segment) (Some (field_u32 self count)) segments.

(** ** Authorities *)

Definition file_effect_bits (effects : FileEffects) : N :=
  foldl (λ bits effect,
           N.lor bits (if FileEffects_contains effects effect then N.shiftl 1 (FileEffect_tag effect) else 0))
    0%N FileEffect_ALL.

Definition http_method_bits (methods : HttpFetchMethods) : N :=
  N.lor (N.b2n (HttpFetchMethods_contains methods Get))
        (N.shiftl (N.b2n (HttpFetchMethods_contains methods Head)) 1).

Definition github_operation_bits (operations : GitHubOperations) : N :=
  N.lor (N.b2n (GitHubOperations_contains operations PublishBranch))
        (N.shiftl (N.b2n (GitHubOperations_contains operations CreatePullRequest)) 1).

Definition encode_path_pattern (canonical : CanonicalPolicy) (pattern : PathPattern)
    : option CanonicalPolicy :=
  let canonical := field_u8 canonical (match pattern with PathExact _ => 1 | PathPrefix _ => 2 end) in
  field_segments canonical (cp_segments (PathPattern_path pattern)).

Definition encode_url_pattern (canonical : CanonicalPolicy) (pattern : UrlPathPattern)
    : option CanonicalPolicy :=
  let canonical := field_u8 canonical (match pattern with UrlExact _ => 1 | UrlPrefix _ => 2 end) in
  field_segments canonical (cup_segments (UrlPathPattern_path pattern)).

Definition encode_branch_pattern (canonical : CanonicalPolicy) (pattern : BranchPattern)
    : option CanonicalPolicy :=
  let canonical := field_u8 canonical (match pattern with BranchExact _ => 1 | BranchPrefix _ => 2 end) in
  field_segments canonical (bn_segments (BranchPattern_branch pattern)).

Definition encode_authority (canonical : CanonicalPolicy) (authority : AuthorityBody)
    : option CanonicalPolicy :=
  match authority with
  | AuthFile authority =>
      let canonical := field_u8 canonical 1 in
      canonical ← field_str canonical (fa_repository authority);
      let canonical := field_u16 canonical (file_effect_bits (fa_effects authority)) in
      encode_path_pattern canonical (fa_path authority)
  | AuthHttpFetch authority =>
      let canonical := field_u8 canonical 2 in
      let canonical := field_u8 canonical (http_method_bits (ha_methods authority)) in
      canonical ← field_str canonical (ch_name (ha_host authority));
      canonical ← encode_url_pattern canonical (ha_path authority);
      Some (field_u64 canonical (ha_max_response_bytes authority))
  | AuthGitHub authority =>
      let canonical := field_u8 canonical 3 in
      canonical ← field_str canonical (ga_installation authority);
      canonical ← field_str canonical (ga_repository authority);
      let canonical := field_u8 canonical (github_operation_bits (ga_operations authority)) in
      canonical ← encode_branch_pattern canonical (ga_base authority);
      encode_branch_pattern canonical (ga_head authority)
  end.

(** The bytes [for_root] hashes. *)
Definition canonical_root (validity : TimeWindow) (authority : AuthorityBody) (delegable : bool)
    : option CanonicalPolicy :=
  let canonical := CanonicalPolicy_new in
  let canonical := field_u16 canonical ROOT_POLICY_ENCODING_VERSION in
  let canonical := field_u64 canonical (not_before validity) in
  let canonical := field_u64 canonical (expires_at validity) in
  let canonical := field_u8 canonical (N.b2n delegable) in
  encode_authority canonical authority.

Section digest.
Context (sha256 : str → str).

Definition AuthorityPolicyDigest_for_root (validity : TimeWindow) (authority : AuthorityBody)
    (delegable : bool) : option str :=
  canonical ← canonical_root validity authority delegable;
  Some (sha256 canonical).
End digest.

(** ** Hexadecimal text *)

Inductive InvalidAuthorityPolicyDigest := InvalidDigest.

#[export] Instance InvalidAuthorityPolicyDigest_eq_dec : EqDecision InvalidAuthorityPolicyDigest.
Proof. solve_decision. Defined.

Definition decode_hex (byte : byte) : result InvalidAuthorityPolicyDigest N :=
  let n := b2N byte in
  if in_range 48 57 n then Ok (n - 48)%N
  else if in_range 97 102 n then Ok (n - 97 + 10)%N
  else Err InvalidDigest.

(** The loop over [chunks_exact(2)]. *)
Fixpoint decode_pairs (value : str) : result InvalidAuthorityPolicyDigest str :=
  match value with
  | high :: low :: rest =>
      high ← decode_hex high;
      low ← decode_hex low;
      bytes ← decode_pairs rest;
      Ok (N2b (N.lor (N.shiftl high 4) low) :: bytes)
  | _ => Ok []
  end.

Definition AuthorityPolicyDigest_from_hex (value : str) : result InvalidAuthorityPolicyDigest str :=
  if negb (len value =? 64)%N then Err InvalidDigest else decode_pairs value.

Definition HEX : str := lit "0123456789abcdef".

Definition hex_digit (n : N) : byte := default Byte.x00 (HEX !! N.to_nat n).

Definition AuthorityPolicyDigest_to_hex (self : str) : str :=
  foldl (λ encoded byte,
           encoded ++ [hex_digit (N.shiftr (b2N byte) 4)] ++ [hex_digit (N.land (b2N byte) 15)])
    [] self.

(** ** Inversion of the writer

    [str_code], [segments_code] and [pattern_code] are the bytes one field appends. *)

#[local] Opaque be_bytes.

Definition str_code (value : str) : str := be_bytes 4 (len value) ++ value.
Definition segments_code (segments : list str) : str :=
  be_bytes 4 (N.of_nat (length segments)) ++ mjoin (str_code <$> segments).
Definition pattern_code (tag : N) (segments : list str) : str := N2b tag :: segments_code segments.

Definition short (value : str) : Prop := (len value < 2 ^ 32)%N.
Definition short_segments (segments : list str) : Prop :=
  (N.of_nat (length segments) < 2 ^ 32)%N ∧ Forall short segments.

Lemma field_str_Some self value out :
  field_str self value = Some out ↔ short value ∧ out = self ++ str_code value.
Proof.
  unfold field_str, expect_u32, short, str_code, field_u32.
  destruct (N.ltb_spec (len value) (2 ^ 32)); simpl; [|naive_solver lia].
  rewrite <- (assoc_L (++)). naive_solver.
Qed.

Lemma foldl_None segments :
  foldl (λ self segment, self ← self; field_str self segment) None segments = None.
Proof. induction segments; [done|]. exact IHsegments. Qed.

Lemma field_segments_Some self segments out :
  field_segments self segments = Some out ↔
  short_segments segments ∧ out = self ++ segments_code segments.
Proof.
  unfold field_segments, expect_u32, short_segments, segments_code, field_u32.
  destruct (N.ltb_spec (N.of_nat (length segments)) (2 ^ 32)); simpl; [|naive_solver lia].
  rewrite (assoc_L (++)). generalize (self ++ be_bytes 4 (N.of_nat (length segments))) as l. intros l.
  trans (Forall short segments ∧ out = l ++ mjoin (str_code <$> segments)); [|naive_solver].
  clear H. revert l. induction segments as [|s segments IH]; intros c; simpl.
  - rewrite app_nil_r. naive_solver.
  - destruct (field_str c s) as [c'|] eqn:Hs.
    + apply field_str_Some in Hs as [Hs ->]. rewrite IH, Forall_cons, <- (assoc_L (++)). naive_solver.
    + rewrite foldl_None, Forall_cons. split; [done|]. intros [[Hs' _] _].
      rewrite (proj2 (field_str_Some c s _) (conj Hs' eq_refl)) in Hs. done.
Qed.

(** ** Field by field comparison *)

Lemma str_code_inv v1 v2 r1 r2 :
  short v1 → short v2 → str_code v1 ++ r1 = str_code v2 ++ r2 → v1 = v2 ∧ r1 = r2.
Proof.
  unfold short, str_code. rewrite <- !(assoc_L (++)). intros H1 H2 H.
  apply app_inj_1 in H as [Hl H]; [|by rewrite !length_be_bytes].
  apply be_bytes_inj in Hl; [|done..]. apply app_inj_1 in H as [-> ->]; [done|].
  unfold len in Hl. lia.
Qed.

Lemma segments_code_inv s1 s2 r1 r2 :
  short_segments s1 → short_segments s2 → segments_code s1 ++ r1 = segments_code s2 ++ r2 →
  s1 = s2 ∧ r1 = r2.
Proof.
  unfold short_segments, segments_code. rewrite <- !(assoc_L (++)). intros [Hc1 H1] [Hc2 H2] H.
  apply app_inj_1 in H as [Hl H]; [|by rewrite !length_be_bytes].
  apply be_bytes_inj in Hl; [|done..]. clear Hc1 Hc2.
  revert s2 H2 H Hl. induction H1 as [|s s1 Hs Hs1 IH]; intros [|t s2] H2 H Hl; try (simpl in Hl; lia).
  - done.
  - apply Forall_cons in H2 as [Ht H2]. rewrite !fmap_cons in H. cbn [mjoin list_join] in H.
    rewrite <- !(assoc_L (++)) in H.
    apply str_code_inv in H as [-> H]; [|done..]. apply IH in H as [-> ->]; [done|done|].
    simpl in Hl. lia.
Qed.

Lemma cons_eq_inv {A} (a b : A) l k : a :: l = b :: k → a = b ∧ l = k.
Proof. by intros [= -> ->]. Qed.

Lemma byte_inv n1 n2 (r1 r2 : str) :
  (n1 < 256)%N → (n2 < 256)%N → N2b n1 :: r1 = N2b n2 :: r2 → n1 = n2 ∧ r1 = r2.
Proof.
  intros H1 H2 H. apply cons_eq_inv in H as [Hn ->]. apply (f_equal b2N) in Hn. by rewrite !b2N_N2b, !N.mod_small in Hn by done.
Qed.

Lemma pattern_code_inv t1 t2 s1 s2 r1 r2 :
  (t1 < 256)%N → (t2 < 256)%N → short_segments s1 → short_segments s2 →
  pattern_code t1 s1 ++ r1 = pattern_code t2 s2 ++ r2 → t1 = t2 ∧ s1 = s2 ∧ r1 = r2.
Proof.
  unfold pattern_code. intros Ht1 Ht2 H1 H2 H.
  apply (byte_inv t1 t2) in H as [-> H]; [|done..]. apply segments_code_inv in H as [-> ->]; done.
Qed.

Lemma be_inv w n1 n2 (r1 r2 : str) :
  (n1 < 256 ^ N.of_nat w)%N → (n2 < 256 ^ N.of_nat w)%N →
  be_bytes w n1 ++ r1 = be_bytes w n2 ++ r2 → n1 = n2 ∧ r1 = r2.
Proof.
  intros H1 H2 H. apply app_inj_1 in H as [Hn ->]; [|by rewrite !length_be_bytes].
  by apply be_bytes_inj in Hn.
Qed.

(** ** Bit sets are encoded as themselves *)

Lemma small_bits (P : N → bool) bound n :
  forallb P (N.of_nat <$> seq 0 (N.to_nat bound)) = true → (n < bound)%N → P n = true.
Proof.
  intros H Hn. rewrite forallb_forall in H. apply H, list_elem_of_In, list_elem_of_fmap.
  exists (N.to_nat n). rewrite elem_of_seq. lia.
Qed.

Lemma fold_bits_testbit effects l bits i :
  N.testbit (foldl (λ bits effect, N.lor bits
    (if FileEffects_contains effects effect then N.shiftl 1 (FileEffect_tag effect) else 0)) bits l) i =
  N.testbit bits i || existsb (λ e, FileEffects_contains effects e && (i =? FileEffect_tag e)%N) l.
Proof.
  revert bits. induction l as [|e l IH]; intros bits; cbn [foldl existsb]; [by rewrite orb_false_r|].
  rewrite IH, N.lor_spec, <- orb_assoc. f_equal. f_equal.
  destruct (FileEffects_contains effects e); cbn [andb]; [|exact (N.bits_0 i)].
  rewrite N.shiftl_1_l, N.pow2_bits_eqb. apply N.eqb_sym.
Qed.

Lemma file_effect_bits_id effects : FileEffects_wf effects → file_effect_bits effects = fe_bits effects.
Proof.
  intros Hwf. apply N.bits_inj. intros i. unfold file_effect_bits. rewrite fold_bits_testbit, N.bits_0, orb_false_l.
  assert (∀ e, FileEffects_contains effects e = N.testbit (fe_bits effects) (FileEffect_tag e)) as Hc
    by (intros e; exact (bits_contain_testbit (A := FileEffect) (width := 16) (fe_bits effects) e)).
  destruct (N.lt_ge_cases i 13) as [Hi|Hi].
  - destruct (@bit_of_surj FileEffect 16 FileEffect_bits i Hi) as [e He]. simpl in He.
    destruct (N.testbit (fe_bits effects) i) eqn:Hb.
    + apply existsb_exists. exists e. split; [by destruct e; simpl; tauto|].
      by rewrite Hc, He, Hb, N.eqb_refl.
    + apply not_true_iff_false. intros (e' & _ & H)%existsb_exists.
      apply andb_true_iff in H as [H1 ->%N.eqb_eq]. by rewrite Hc, Hb in H1.
  - rewrite (@bits_wf_high FileEffect 16 FileEffect_bits _ i Hwf Hi). apply not_true_iff_false.
    intros (e & _ & H)%existsb_exists. apply andb_true_iff in H as [_ ->%N.eqb_eq]. by destruct e.
Qed.

Lemma http_method_bits_id methods :
  HttpFetchMethods_wf methods → http_method_bits methods = hm_bits methods.
Proof.
  destruct methods as [bits]. intros Hb. apply N.eqb_eq.
  apply (small_bits (λ n, http_method_bits {| hm_bits := n |} =? n)%N 4); [by vm_compute|exact Hb].
Qed.

Lemma github_operation_bits_id operations :
  GitHubOperations_wf operations → github_operation_bits operations = go_bits operations.
Proof.
  destruct operations as [bits]. intros Hb. apply N.eqb_eq.
  apply (small_bits (λ n, github_operation_bits {| go_bits := n |} =? n)%N 4); [by vm_compute|exact Hb].
Qed.

(** ** The encoded authority *)

Definition path_tag (p : PathPattern) : N := match p with PathExact _ => 1 | PathPrefix _ => 2 end.
Definition url_tag (p : UrlPathPattern) : N := match p with UrlExact _ => 1 | UrlPrefix _ => 2 end.
Definition branch_tag (p : BranchPattern) : N := match p with BranchExact _ => 1 | BranchPrefix _ => 2 end.

Definition path_code (p : PathPattern) : str := pattern_code (path_tag p) (cp_segments (PathPattern_path p)).
Definition url_code (p : UrlPathPattern) : str := pattern_code (url_tag p) (cup_segments (UrlPathPattern_path p)).
Definition branch_code (p : BranchPattern) : str :=
  pattern_code (branch_tag p) (bn_segments (BranchPattern_branch p)).

Definition authority_code (authority : AuthorityBody) : str :=
  match authority with
  | AuthFile a =>
      [N2b 1] ++ str_code (fa_repository a) ++ be_bytes 2 (file_effect_bits (fa_effects a))
        ++ path_code (fa_path a)
  | AuthHttpFetch a =>
      [N2b 2] ++ [N2b (http_method_bits (ha_methods a))] ++ str_code (ch_name (ha_host a))
        ++ url_code (ha_path a) ++ be_bytes 8 (ha_max_response_bytes a)
  | AuthGitHub a =>
      [N2b 3] ++ str_code (ga_installation a) ++ str_code (ga_repository a)
        ++ [N2b (github_operation_bits (ga_operations a))] ++ branch_code (ga_base a)
        ++ branch_code (ga_head a)
  end.

(** Every length of the authority fits its 32-bit field. *)
Definition authority_short (authority : AuthorityBody) : Prop :=
  match authority with
  | AuthFile a => short (fa_repository a) ∧ short_segments (cp_segments (PathPattern_path (fa_path a)))
  | AuthHttpFetch a =>
      short (ch_name (ha_host a)) ∧ short_segments (cup_segments (UrlPathPattern_path (ha_path a)))
  | AuthGitHub a =>
      short (ga_installation a) ∧ short (ga_repository a) ∧
      short_segments (bn_segments (BranchPattern_branch (ga_base a))) ∧
      short_segments (bn_segments (BranchPattern_branch (ga_head a)))
  end.

Lemma encode_authority_Some canonical authority out :
  encode_authority canonical authority = Some out ↔
  authority_short authority ∧ out = canonical ++ authority_code authority.
Proof.
  destruct authority as [a|a|a]; cbn [encode_authority authority_short authority_code];
    unfold encode_path_pattern, encode_url_pattern, encode_branch_pattern,
      path_code, url_code, branch_code, pattern_code, field_u8, field_u16, field_u64; split.
  - intros (c & [H1 ->]%field_str_Some & [H2 ->]%field_segments_Some)%bind_Some.
    split; [done|]. by rewrite <- !(assoc_L (++)).
  - intros [[H1 H2] ->]. apply bind_Some. eexists. split; [by apply field_str_Some|].
    apply field_segments_Some. split; [done|]. by rewrite <- !(assoc_L (++)).
  - intros (c & [H1 ->]%field_str_Some & (c' & [H2 ->]%field_segments_Some & [= <-])%bind_Some)%bind_Some.
    split; [done|]. by rewrite <- !(assoc_L (++)).
  - intros [[H1 H2] ->]. apply bind_Some. eexists. split; [by apply field_str_Some|].
    apply bind_Some. eexists. split; [by apply field_segments_Some|]. by rewrite <- !(assoc_L (++)).
  - intros (c & [H1 ->]%field_str_Some & (c' & [H2 ->]%field_str_Some &
      (c'' & [H3 ->]%field_segments_Some & [H4 ->]%field_segments_Some)%bind_Some)%bind_Some)%bind_Some.
    split; [done|]. by rewrite <- !(assoc_L (++)).
  - intros [(H1 & H2 & H3 & H4) ->]. apply bind_Some. eexists. split; [by apply field_str_Some|].
    apply bind_Some. eexists. split; [by apply field_str_Some|].
    apply bind_Some. eexists. split; [by apply field_segments_Some|].
    apply field_segments_Some. split; [done|]. by rewrite <- !(assoc_L (++)).
Qed.

Lemma path_code_inv p1 p2 r1 r2 :
  short_segments (cp_segments (PathPattern_path p1)) → short_segments (cp_segments (PathPattern_path p2)) →
  path_code p1 ++ r1 = path_code p2 ++ r2 → p1 = p2 ∧ r1 = r2.
Proof.
  intros H1 H2 H. apply pattern_code_inv in H as (Ht & Hs & ->); try done.
  all: destruct p1 as [[]|[]], p2 as [[]|[]]; by simplify_eq/=.
Qed.

Lemma url_code_inv p1 p2 r1 r2 :
  short_segments (cup_segments (UrlPathPattern_path p1)) →
  short_segments (cup_segments (UrlPathPattern_path p2)) →
  url_code p1 ++ r1 = url_code p2 ++ r2 → p1 = p2 ∧ r1 = r2.
Proof.
  intros H1 H2 H. apply pattern_code_inv in H as (Ht & Hs & ->); try done.
  all: destruct p1 as [[]|[]], p2 as [[]|[]]; by simplify_eq/=.
Qed.

Lemma branch_code_inv p1 p2 r1 r2 :
  short_segments (bn_segments (BranchPattern_branch p1)) →
  short_segments (bn_segments (BranchPattern_branch p2)) →
  branch_code p1 ++ r1 = branch_code p2 ++ r2 → p1 = p2 ∧ r1 = r2.
Proof.
  intros H1 H2 H. apply pattern_code_inv in H as (Ht & Hs & ->); try done.
  all: destruct p1 as [[]|[]], p2 as [[]|[]]; by simplify_eq/=.
Qed.

Lemma path_code_inj p1 p2 :
  short_segments (cp_segments (PathPattern_path p1)) → short_segments (cp_segments (PathPattern_path p2)) →
  path_code p1 = path_code p2 → p1 = p2.
Proof. intros H1 H2 H. apply (path_code_inv p1 p2 [] []); [done..|]. by rewrite !app_nil_r. Qed.

Lemma branch_code_inj p1 p2 :
  short_segments (bn_segments (BranchPattern_branch p1)) →
  short_segments (bn_segments (BranchPattern_branch p2)) →
  branch_code p1 = branch_code p2 → p1 = p2.
Proof. intros H1 H2 H. apply (branch_code_inv p1 p2 [] []); [done..|]. by rewrite !app_nil_r. Qed.

Lemma file_code_inj a1 a2 :
  FileAuthority_wf a1 → FileAuthority_wf a2 → authority_short (AuthFile a1) → authority_short (AuthFile a2) →
  authority_code (AuthFile a1) = authority_code (AuthFile a2) → a1 = a2.
Proof.
  destruct a1 as [r1 [e1] p1], a2 as [r2 [e2] p2]. cbn [authority_code authority_short fa_repository fa_effects fa_path].
  intros [Hb1 _] [Hb2 _] [Hr1 Hp1] [Hr2 Hp2] H. apply cons_eq_inv in H as [_ H].
  apply str_code_inv in H as [-> H]; [|done..]. rewrite !file_effect_bits_id in H by done.
  apply be_inv in H as [He H]; [|eapply N.lt_trans; [eassumption|done]..].
  apply path_code_inj in H as ->; [|done..]. cbn in He. by subst.
Qed.

Lemma http_code_inj a1 a2 :
  HttpFetchAuthority_wf a1 → HttpFetchAuthority_wf a2 →
  authority_short (AuthHttpFetch a1) → authority_short (AuthHttpFetch a2) →
  authority_code (AuthHttpFetch a1) = authority_code (AuthHttpFetch a2) → a1 = a2.
Proof.
  destruct a1 as [[m1] [h1] p1 b1], a2 as [[m2] [h2] p2 b2].
  cbn [authority_code authority_short ha_methods ha_host ha_path ha_max_response_bytes ch_name].
  intros (Hm1 & _ & _ & Hb1) (Hm2 & _ & _ & Hb2) [Hh1 Hp1] [Hh2 Hp2] H. apply cons_eq_inv in H as [_ H].
  rewrite !http_method_bits_id in H by done.
  apply byte_inv in H as [Hm H]; [|eapply N.lt_trans; [eassumption|done]..].
  apply str_code_inv in H as [-> H]; [|done..]. apply url_code_inv in H as [-> H]; [|done..].
  apply be_bytes_inj in H; [|done..]. cbn in Hm. by subst.
Qed.

Lemma github_code_inj a1 a2 :
  GitHubAuthority_wf a1 → GitHubAuthority_wf a2 →
  authority_short (AuthGitHub a1) → authority_short (AuthGitHub a2) →
  authority_code (AuthGitHub a1) = authority_code (AuthGitHub a2) → a1 = a2.
Proof.
  destruct a1 as [i1 r1 [o1] b1 h1], a2 as [i2 r2 [o2] b2 h2].
  cbn [authority_code authority_short ga_installation ga_repository ga_operations ga_base ga_head].
  intros (Ho1 & _ & _) (Ho2 & _ & _) (Hi1 & Hr1 & Hb1 & Hh1) (Hi2 & Hr2 & Hb2 & Hh2) H.
  apply cons_eq_inv in H as [_ H]. do 2 (apply str_code_inv in H as [-> H]; [|done..]).
  rewrite !github_operation_bits_id in H by done.
  apply byte_inv in H as [Ho H]; [|eapply N.lt_trans; [eassumption|done]..].
  apply branch_code_inv in H as [-> H]; [|done..]. apply branch_code_inj in H as ->; [|done..].
  cbn in Ho. by subst.
Qed.

Lemma authority_code_inj a1 a2 :
  AuthorityBody_wf a1 → AuthorityBody_wf a2 → authority_short a1 → authority_short a2 →
  authority_code a1 = authority_code a2 → a1 = a2.
Proof.
  intros Hw1 Hw2 Hs1 Hs2 H. destruct a1 as [a1|a1|a1], a2 as [a2|a2|a2];
    try (apply cons_eq_inv in H as [H _]; apply (f_equal b2N) in H; discriminate).
  - f_equal. by apply file_code_inj.
  - f_equal. by apply http_code_inj.
  - f_equal. by apply github_code_inj.
Qed.

Lemma canonical_root_Some validity authority delegable out :
  canonical_root validity authority delegable = Some out ↔
  authority_short authority ∧
  out = (CanonicalPolicy_new ++ be_bytes 2 ROOT_POLICY_ENCODING_VERSION) ++
        be_bytes 8 (not_before validity) ++ be_bytes 8 (expires_at validity) ++
        N2b (N.b2n delegable) :: authority_code authority.
Proof.
  unfold canonical_root. rewrite encode_authority_Some. unfold field_u8, field_u16, field_u64.
  by rewrite <- !(assoc_L (++)).
Qed.

Lemma canonical_root_inj v1 v2 a1 a2 d1 d2 out :
  TimeWindow_wf v1 → TimeWindow_wf v2 → AuthorityBody_wf a1 → AuthorityBody_wf a2 →
  canonical_root v1 a1 d1 = Some out → canonical_root v2 a2 d2 = Some out →
  v1 = v2 ∧ a1 = a2 ∧ d1 = d2.
Proof.
  destruct v1 as [n1 e1], v2 as [n2 e2]. unfold TimeWindow_wf, u64_limit. cbn [not_before expires_at].
  intros [Hn1 He1] [Hn2 He2] Hw1 Hw2 [Hs1 ->]%canonical_root_Some [Hs2 H]%canonical_root_Some.
  cbn [not_before expires_at] in H. apply app_inv_head in H.
  change (2 ^ 64)%N with (256 ^ N.of_nat 8)%N in *.
  apply be_inv in H as [-> H]; [|by eapply N.lt_trans..].
  apply be_inv in H as [-> H]; [|done..].
  apply byte_inv in H as [Hd H]; [|by destruct d1|by destruct d2].
  apply authority_code_inj in H as ->; [|done..]. split; [done|]. split; [done|].
  by destruct d1, d2.
Qed.

(** C37: hashing the canonical encoding binds the whole root policy: whatever the hash
    function, two well-formed policies with the same digest are the same policy
    (window, authority and delegability), or the two encodings are an explicit
    collision of the hash.  The encoding panics only on a length of 2^32 or more. *)
Theorem policy_digest_binds sha256 v1 v2 a1 a2 d1 d2 :
  TimeWindow_wf v1 → TimeWindow_wf v2 → AuthorityBody_wf a1 → AuthorityBody_wf a2 →
  (authority_short a1 ↔ AuthorityPolicyDigest_for_root sha256 v1 a1 d1 ≠ None) ∧
  (∀ digest,
    AuthorityPolicyDigest_for_root sha256 v1 a1 d1 = Some digest →
    AuthorityPolicyDigest_for_root sha256 v2 a2 d2 = Some digest →
    (v1 = v2 ∧ a1 = a2 ∧ d1 = d2) ∨
    ∃ e1 e2, canonical_root v1 a1 d1 = Some e1 ∧ canonical_root v2 a2 d2 = Some e2 ∧
      e1 ≠ e2 ∧ sha256 e1 = sha256 e2).
Proof.
  intros Hv1 Hv2 Hw1 Hw2. unfold AuthorityPolicyDigest_for_root. split.
  - destruct (canonical_root v1 a1 d1) as [e|] eqn:He; simpl.
    + apply canonical_root_Some in He. naive_solver.
    + split; [|done]. intros Hs. by rewrite (proj2 (canonical_root_Some v1 a1 d1 _) (conj Hs eq_refl)) in He.
  - intros digest (e1 & He1 & [= <-])%bind_Some (e2 & He2 & [= Heq])%bind_Some.
    destruct (decide (e1 = e2)) as [->|Hne].
    + left. by eapply canonical_root_inj.
    + right. by exists e1, e2.
Qed.

(** Reading [src/agent] of a repository between the ticks 7 and 19, with the
    identity in place of the hash: another window has another digest. *)
Definition demo_window (start : N) : TimeWindow := {| not_before := start; expires_at := 19 |}.
Definition demo_read : AuthorityBody :=
  AuthFile {| fa_repository := lit "repo"; fa_effects := FileEffects_only ReadData;
              fa_path := PathPrefix {| cp_segments := [lit "src"; lit "agent"] |} |}.

Lemma demo_read_wf : AuthorityBody_wf demo_read.
Proof. split; [by vm_compute|]. by apply (bool_decide_unpack _). Qed.

Lemma policy_digest_binds_witness :
  AuthorityPolicyDigest_for_root id (demo_window 7) demo_read false ≠
  AuthorityPolicyDigest_for_root id (demo_window 8) demo_read false ∧
  (authority_short demo_read ↔ AuthorityPolicyDigest_for_root id (demo_window 7) demo_read false ≠ None).
Proof.
  split; [by vm_compute|].
  apply (policy_digest_binds id (demo_window 7) (demo_window 8) demo_read demo_read false false
    (conj eq_refl eq_refl) (conj eq_refl eq_refl) demo_read_wf demo_read_wf).
Defined.

(** ** Hexadecimal text *)

Lemma decode_hex_Ok b n : decode_hex b = Ok n ↔ (n < 16)%N ∧ b = hex_digit n.
Proof.
  split.
  - destruct b; vm_compute; try discriminate; by intros [= <-].
  - intros [Hn ->]. apply (small_bits (λ n, bool_decide (decode_hex (hex_digit n) = Ok n)) 16) in Hn;
      [by apply bool_decide_eq_true in Hn|by vm_compute].
Qed.

Definition byte_hex (b : byte) : str := [hex_digit (N.shiftr (b2N b) 4); hex_digit (N.land (b2N b) 15)].

Lemma to_hex_concat s : AuthorityPolicyDigest_to_hex s = mjoin (byte_hex <$> s).
Proof.
  unfold AuthorityPolicyDigest_to_hex.
  set (push := λ (encoded : str) (b : byte), encoded ++ _ ++ _).
  assert (∀ c, foldl push c s = c ++ mjoin (byte_hex <$> s)) as H; [|apply H].
  induction s as [|b s IH]; intros c; simpl; [by rewrite app_nil_r|].
  rewrite IH. unfold push. by rewrite <- (assoc_L (++)).
Qed.

Definition nibbles_ok (n : N) : bool :=
  bool_decide (byte_hex (N2b (N.lor (N.shiftl (n / 16) 4) (n mod 16)))
               = [hex_digit (n / 16); hex_digit (n mod 16)]).

Lemma nibbles_byte high low : (high < 16)%N → (low < 16)%N →
  byte_hex (N2b (N.lor (N.shiftl high 4) low)) = [hex_digit high; hex_digit low].
Proof.
  intros Hh Hl.
  pose proof (small_bits nibbles_ok 256 (high * 16 + low) ltac:(by vm_compute) ltac:(lia)) as Hall.
  unfold nibbles_ok in Hall. apply bool_decide_eq_true in Hall.
  rewrite N.div_add_l, (N.div_small low), N.add_0_r in Hall by lia.
  by rewrite (N.add_comm _ low), N.Div0.mod_add, N.mod_small in Hall by lia.
Qed.

Lemma byte_hex_nibbles b :
  (N.shiftr (b2N b) 4 < 16)%N ∧ (N.land (b2N b) 15 < 16)%N ∧
  N2b (N.lor (N.shiftl (N.shiftr (b2N b) 4) 4) (N.land (b2N b) 15)) = b.
Proof. by destruct b; vm_compute. Qed.

Lemma decode_pairs_Ok value bytes :
  Nat.even (length value) = true →
  decode_pairs value = Ok bytes ↔ value = mjoin (byte_hex <$> bytes).
Proof.
  intros Heven. split.
  - revert bytes. remember (length value) as n eqn:Hn. revert value Hn Heven.
    induction n as [n IH] using lt_wf_ind. intros [|h [|l rest]] -> Heven bytes; simpl in *.
    + by intros [= <-].
    + done.
    + destruct (decode_hex h) as [high|] eqn:Hh; [|done]. destruct (decode_hex l) as [low|] eqn:Hl; [|done].
      apply decode_hex_Ok in Hh as [Hh ->]. apply decode_hex_Ok in Hl as [Hl ->].
      cbn [mbind result_bind]. destruct (decode_pairs rest) as [bs|] eqn:Hr; [|done].
      unfold mbind, result_bind. intros [= <-]. rewrite fmap_cons. cbn [mjoin list_join].
      rewrite nibbles_byte by done. simpl. do 2 f_equal. by eapply (IH (length rest)); [lia|..].
  - intros ->. clear Heven. induction bytes as [|b bytes IH]; [done|]. rewrite fmap_cons.
    change (mjoin (byte_hex b :: (byte_hex <$> bytes))) with (byte_hex b ++ mjoin (byte_hex <$> bytes)).
    destruct (byte_hex_nibbles b) as (Hh & Hl & Hb).
    unfold byte_hex at 1. cbn [app decode_pairs].
    rewrite (proj2 (decode_hex_Ok _ _) (conj Hh eq_refl)), (proj2 (decode_hex_Ok _ _) (conj Hl eq_refl)).
    revert IH. generalize (mjoin (byte_hex <$> bytes)). intros rest IH.
    unfold mbind, result_bind. rewrite IH. by rewrite Hb.
Qed.

(** The text of a digest is read back exactly: [from_hex] accepts a string iff it is
    the one lower-case spelling of a 32-byte digest, and returns that digest. *)
Theorem policy_digest_text_exact value digest :
  AuthorityPolicyDigest_from_hex value = Ok digest ↔
  length digest = 32%nat ∧ value = AuthorityPolicyDigest_to_hex digest.
Proof.
  unfold AuthorityPolicyDigest_from_hex. rewrite to_hex_concat.
  assert (∀ bytes, length (mjoin (byte_hex <$> bytes)) = 2 * length bytes) as Hlen.
  { intros bytes. induction bytes as [|b bytes IH]; [done|]. rewrite fmap_cons.
    change (mjoin (byte_hex b :: (byte_hex <$> bytes))) with (byte_hex b ++ mjoin (byte_hex <$> bytes)).
    rewrite length_app, IH. simpl. lia. }
  destruct (N.eqb_spec (len value) 64) as [H64|Hne]; simpl.
  - unfold len in H64. rewrite decode_pairs_Ok.
    + split; [|naive_solver]. intros ->. rewrite Hlen in H64. split; [lia|done].
    + replace (length value) with 64%nat by lia. done.
  - split; [done|]. intros [Hd ->]. destruct Hne. unfold len. rewrite Hlen, Hd. done.
Qed.
