(* ===== verification/Order.v ===== *)
(** * Orders of the standard library

    [Ord] for [u8], [String], [Vec<String>] and [Option<&String>]: the byte-wise
    lexicographic orders that [sort_unstable_by] and [<] use in the registry.  A
    sort of pairwise distinct keys has one result, so the unstable sort is
    stdpp's [merge_sort]. *)

From stdpp Require Export sorting.
From S2P Require Import Prelude Bytes Path.

(** [Ord::cmp] of a type whose equality is [cmp = Equal]. *)
Class TotalCmp {A} (cmp : A → A → comparison) := {
  cmp_eq : ∀ a b, cmp a b = Eq ↔ a = b;
  cmp_flip : ∀ a b, cmp b a = CompOpp (cmp a b);
  cmp_trans : ∀ a b c, cmp a b = Lt → cmp b c = Lt → cmp a c = Lt;
}.

Definition byte_cmp (a b : byte) : comparison := (b2N a ?= b2N b)%N.

#[export] Instance byte_cmp_total : TotalCmp byte_cmp.
Proof.
  split; unfold byte_cmp.
  - intros a b. rewrite N.compare_eq_iff. split; [apply b2N_inj|by intros ->].
  - intros a b. apply N.compare_antisym.
  - intros a b c. rewrite !N.compare_lt_iff. lia.
Qed.

Section list_cmp.
Context {A : Type} (cmp : A → A → comparison).

(** Slices compare lexicographically, a proper prefix first. *)
Fixpoint list_cmp (l k : list A) : comparison :=
  match l, k with
  | [], [] => Eq
  | [], _ :: _ => Lt
  | _ :: _, [] => Gt
  | a :: l, b :: k => match cmp a b with Eq => list_cmp l k | c => c end
  end.

#[export] Instance list_cmp_total : TotalCmp cmp → TotalCmp list_cmp.
Proof.
  intros Hcmp. split.
  - induction a as [|a l IH]; intros [|b k]; simpl; try done.
    destruct (cmp a b) eqn:E.
    + apply cmp_eq in E as ->. rewrite IH. naive_solver.
    + split; [done|]. intros [= -> ->]. by rewrite (proj2 (cmp_eq b b) eq_refl) in E.
    + split; [done|]. intros [= -> ->]. by rewrite (proj2 (cmp_eq b b) eq_refl) in E.
  - induction a as [|a l IH]; intros [|b k]; simpl; try done.
    rewrite (cmp_flip a b). destruct (cmp a b); simpl; [apply IH|done..].
  - induction a as [|a l IH]; intros [|b k] [|c m]; simpl; try done.
    destruct (cmp a b) eqn:E1, (cmp b c) eqn:E2; try done; intros H1 H2.
    + apply cmp_eq in E1 as ->. rewrite E2. by eapply IH.
    + apply cmp_eq in E1 as ->. by rewrite E2.
    + apply cmp_eq in E2 as ->. by rewrite E1.
    + by rewrite (cmp_trans a b c E1 E2).
Qed.
End list_cmp.

Definition str_cmp : str → str → comparison := list_cmp byte_cmp.
Definition segments_cmp : list str → list str → comparison := list_cmp str_cmp.

(** [Option<&String>::cmp]: [None] first. *)
Definition option_cmp (a b : option str) : comparison :=
  match a, b with
  | None, None => Eq
  | None, Some _ => Lt
  | Some _, None => Gt
  | Some a, Some b => str_cmp a b
  end.

#[export] Instance str_cmp_total : TotalCmp str_cmp.
Proof. apply list_cmp_total, byte_cmp_total. Qed.
#[export] Instance segments_cmp_total : TotalCmp segments_cmp.
Proof. apply list_cmp_total, str_cmp_total. Qed.
#[export] Instance option_cmp_total : TotalCmp option_cmp.
Proof.
  split.
  - intros [a|] [b|]; simpl; try naive_solver. rewrite cmp_eq. naive_solver.
  - intros [a|] [b|]; simpl; try done. apply cmp_flip.
  - intros [a|] [b|] [c|]; simpl; try done. apply cmp_trans.
Qed.

(** ** The sort relation of a key *)

Section key_order.
Context {A K : Type} (cmp : K → K → comparison) `{!TotalCmp cmp} (key : A → K).

(** [a] does not sort after [b]. *)
Definition key_le (a b : A) : Prop := cmp (key a) (key b) ≠ Gt.

#[export] Instance key_le_dec : RelDecision key_le.
Proof. intros a b. unfold key_le. destruct (cmp (key a) (key b)); [left|left|right]; naive_solver. Defined.

#[export] Instance key_le_trans : Transitive key_le.
Proof.
  intros a b c. unfold key_le. intros H1 H2.
  destruct (cmp (key a) (key b)) eqn:E1; [|destruct (cmp (key b) (key c)) eqn:E2|done].
  - apply cmp_eq in E1 as ->. done.
  - apply cmp_eq in E2 as <-. by rewrite E1.
  - by rewrite (cmp_trans _ _ _ E1 E2).
  - done.
Qed.

#[export] Instance key_le_total : Total key_le.
Proof.
  intros a b. unfold key_le. rewrite (cmp_flip (key a) (key b)). destruct (cmp (key a) (key b)); auto.
Qed.

Lemma key_le_antisym a b : key_le a b → key_le b a → key a = key b.
Proof.
  unfold key_le. rewrite (cmp_flip (key a) (key b)). intros H1 H2.
  destruct (cmp (key a) (key b)) eqn:E; [by apply cmp_eq in E|done..].
Qed.

(** [sort_unstable_by(|a, b| key(a).cmp(key(b)))] on pairwise distinct keys. *)
Definition sort_by_key (l : list A) : list A := merge_sort key_le l.

Lemma sort_by_key_perm l : sort_by_key l ≡ₚ l.
Proof. apply merge_sort_Permutation. Qed.

Lemma sort_by_key_sorted l : StronglySorted key_le (sort_by_key l).
Proof. apply StronglySorted_merge_sort; apply _. Qed.

Lemma sorted_nodup_unique l k :
  StronglySorted key_le l → StronglySorted key_le k → l ≡ₚ k →
  (∀ a b, a ∈ l → b ∈ l → key a = key b → a = b) → l = k.
Proof.
  intros Hl. revert k. induction Hl as [|a l Hl IH Ha]; intros k Hk Hperm Hinj.
  { by apply Permutation_nil_l in Hperm. }
  destruct Hk as [|b k Hk Hb]; [by apply Permutation_nil_r in Hperm|].
  assert (a = b) as ->.
  { assert (b ∈ a :: l) as [Hba|Hbl]%elem_of_cons by (rewrite Hperm; left); [done|].
    assert (a ∈ b :: k) as [Hab|Hak]%elem_of_cons by (rewrite <- Hperm; left); [done|].
    apply Hinj; [left|by right|].
    rewrite Forall_forall in Ha, Hb. by apply key_le_antisym; [apply Ha|apply Hb]. }
  f_equal. apply IH; [done| |].
  - by apply Permutation_cons_inv in Hperm.
  - intros x y Hx Hy. apply Hinj; by right.
Qed.

(** Sorting ignores the order of its input. *)
Lemma sort_by_key_ext l k :
  l ≡ₚ k → (∀ a b, a ∈ l → b ∈ l → key a = key b → a = b) → sort_by_key l = sort_by_key k.
Proof.
  intros Hperm Hinj. apply sorted_nodup_unique; [apply sort_by_key_sorted..| |].
  - by rewrite !sort_by_key_perm.
  - intros a b. rewrite !sort_by_key_perm. apply Hinj.
Qed.

Lemma sort_by_key_id l :
  StronglySorted key_le l → (∀ a b, a ∈ l → b ∈ l → key a = key b → a = b) → sort_by_key l = l.
Proof.
  intros Hl Hinj. symmetry. apply sorted_nodup_unique; [done|apply sort_by_key_sorted| |done].
  by rewrite sort_by_key_perm.
Qed.
End key_order.

(** ** Paths *)

#[export] Instance CanonicalPath_countable : Countable CanonicalPath.
Proof. refine (inj_countable' cp_segments (λ s, {| cp_segments := s |}) _). by intros []. Defined.

Lemma cp_segments_inj p q : cp_segments p = cp_segments q → p = q.
Proof. destruct p, q. by intros [= ->]. Qed.

Abbreviation path_le := (key_le segments_cmp cp_segments).
Abbreviation sort_paths := (sort_by_key segments_cmp cp_segments).

Lemma sort_paths_ext l k : l ≡ₚ k → sort_paths l = sort_paths k.
Proof. intros H. apply sort_by_key_ext; [apply _|done|]. intros a b _ _. apply cp_segments_inj. Qed.

Lemma sort_paths_id l : StronglySorted path_le l → sort_paths l = l.
Proof. intros H. apply sort_by_key_id; [apply _|done|]. intros a b _ _. apply cp_segments_inj. Qed.

#[export] Instance sort_paths_proper : Proper ((≡ₚ) ==> (=)) sort_paths.
Proof. intros l k H. by apply sort_paths_ext. Qed.
