(* ===== verification/Symlink.v ===== *)
(** * Symbolic-link targets ([crates/capfs/src/namespace.rs], [SymlinkTarget])

    Validation of a link body and its resolution against the link's current path,
    with the reference walk it is compared to: the kernel's component-by-component
    path walk that may never climb above the root. *)

From S2P Require Import Prelude Bytes Path.

Definition MAX_SYMLINK_TARGET_BYTES : N := 4096.

Inductive InvalidSymlinkTargetReason :=
  | Symlink_Empty
  | Symlink_TooLong
  | Symlink_Absolute
  | Symlink_ContainsNul
  | Symlink_InteriorParent
  | Symlink_InvalidSegment (e : InvalidPathSegment).

Record InvalidSymlinkTarget := {
  ist_literal : str;
  ist_reason : InvalidSymlinkTargetReason;
}.

Record SymlinkTarget := {
  st_literal : str;
  st_parents : N;
  st_segments : list str;
}.

#[export] Instance SymlinkTarget_eq_dec : EqDecision SymlinkTarget.
Proof. solve_decision. Defined.

Record SymlinkTargetEscape := {
  ste_link : CanonicalPath;
  ste_target : str;
}.

(** The loop of [new] over [literal.split('/')]. *)
Fixpoint scan_components (parents : N) (segments components : list str)
    : result InvalidSymlinkTargetReason (N * list str) :=
  match components with
  | [] => Ok (parents, segments)
  | component :: rest =>
      if bool_decide (component = []) || bool_decide (component = lit ".")
      then scan_components parents segments rest
      else if bool_decide (component = lit "..") then
        if negb (bool_decide (segments = [])) then Err Symlink_InteriorParent
        else scan_components (parents + 1) segments rest
      else
        _ ← map_err Symlink_InvalidSegment (CanonicalPath_new [component]);
        scan_components parents (segments ++ [component]) rest
  end.

Definition SymlinkTarget_new (literal : str) : result InvalidSymlinkTarget SymlinkTarget :=
  let reject reason := {| ist_literal := literal; ist_reason := reason |} in
  if bool_decide (literal = []) then Err (reject Symlink_Empty)
  else if (MAX_SYMLINK_TARGET_BYTES <? len literal)%N then Err (reject Symlink_TooLong)
  else if bool_decide (head literal = Some (chr "/")) then Err (reject Symlink_Absolute)
  else if contains_byte Byte.x00 literal then Err (reject Symlink_ContainsNul)
  else
    '(parents, segments) ← map_err reject (scan_components 0 [] (split (chr "/") literal));
    Ok {| st_literal := literal; st_parents := parents; st_segments := segments |}.

(** [Vec::pop]. *)
Definition pop {A} (l : list A) : option (list A) :=
  match l with [] => None | _ => Some (take (length l - 1) l) end.

Definition SymlinkTarget_resolve_from (self : SymlinkTarget) (link_path : CanonicalPath)
    : result SymlinkTargetEscape CanonicalPath :=
  let escape := {| ste_link := link_path; ste_target := st_literal self |} in
  parent ← ok_or (CanonicalPath_parent link_path) escape;
  segments ← N.iter (st_parents self)
    (λ segments, segments ← segments; ok_or (pop segments) escape) (Ok (cp_segments parent));
  map_err (λ _, escape) (CanonicalPath_new (segments ++ st_segments self)).

(** ** The reference walk

    The kernel follows a relative target from the link's directory, one component
    at a time; a [..] at the root would leave the mount. *)

Fixpoint walk (directory components : list str) : option (list str) :=
  match components with
  | [] => Some directory
  | component :: rest =>
      if bool_decide (component = []) || bool_decide (component = lit ".") then walk directory rest
      else if bool_decide (component = lit "..") then
        directory ← pop directory;
        walk directory rest
      else walk (directory ++ [component]) rest
  end.

Definition pops {A} (n : N) (l : list A) : option (list A) :=
  N.iter n (λ l, l ← l; pop l) (Some l).

Lemma pops_0 {A} (l : list A) : pops 0 l = Some l.
Proof. done. Qed.

Lemma pops_succ {A} n (l : list A) : pops (n + 1) l = (l ← pops n l; pop l).
Proof. unfold pops. rewrite N.add_1_r. by rewrite N.iter_succ. Qed.

(** What the scan accepted, told as a walk: after [parents] pops and the named
    segments, the remaining components lead where the whole target leads. *)
Lemma scan_components_walk parents segments components directory parents' segments' :
  scan_components parents segments components = Ok (parents', segments') →
  (base ← pops parents directory; walk (base ++ segments) components) =
  (base ← pops parents' directory; Some (base ++ segments')) ∧
  (Forall (λ s, CanonicalPath_new [s] = Ok {| cp_segments := [s] |}) segments →
   Forall (λ s, CanonicalPath_new [s] = Ok {| cp_segments := [s] |}) segments').
Proof.
  revert parents segments. induction components as [|c rest IH]; intros parents segments; simpl.
  { intros [= <- <-]. done. }
  destruct (bool_decide (c = []) || bool_decide (c = lit ".")) eqn:Ed; [apply IH|].
  destruct (bool_decide (c = lit "..")) eqn:Ep.
  - destruct segments as [|s segments]; [|done]. simpl. intros H.
    destruct (IH _ _ H) as [Hw Hf]. split; [|done]. rewrite <- Hw, pops_succ.
    destruct (pops parents directory) as [base|]; simpl; [|done]. rewrite app_nil_r.
    destruct (pop base); simpl; [|done]. by rewrite app_nil_r.
  - destruct (CanonicalPath_new [c]) as [p|] eqn:Hc; [|done]. simpl. intros H.
    destruct (IH _ _ H) as [Hw Hf]. split.
    + rewrite <- Hw. destruct (pops parents directory) as [base|]; simpl; [|done].
      by rewrite <- (assoc_L (++)).
    + intros Hall. apply Hf, Forall_app. split; [done|]. apply Forall_singleton.
      rewrite Hc. apply CanonicalPath_new_ok in Hc as [_ Hp]. destruct p. simpl in Hp. by subst.
Qed.

Lemma iter_pops {A E} n (l : list A) (e : E) :
  N.iter n (λ segments : result E (list A), segments ← segments; ok_or (pop segments) e) (Ok l) =
  ok_or (pops n l) e.
Proof.
  induction n as [|n IH] using N.peano_ind; [done|].
  rewrite N.iter_succ, IH. rewrite <- N.add_1_r, pops_succ.
  destruct (pops n l); done.
Qed.

Lemma SymlinkTarget_new_Ok literal target :
  SymlinkTarget_new literal = Ok target →
  st_literal target = literal ∧ literal ≠ [] ∧ (len literal <= MAX_SYMLINK_TARGET_BYTES)%N ∧
  head literal ≠ Some (chr "/") ∧
  scan_components 0 [] (split (chr "/") literal) = Ok (st_parents target, st_segments target).
Proof.
  unfold SymlinkTarget_new. case_bool_decide; [done|].
  destruct (N.ltb_spec MAX_SYMLINK_TARGET_BYTES (len literal)); [done|].
  case_bool_decide; [done|]. case_match; [done|].
  destruct (scan_components _ _ _) as [[parents segments]|] eqn:E; [|done].
  simpl. intros [= <-]. done.
Qed.

Lemma resolve_from_walk literal target link :
  SymlinkTarget_new literal = Ok target →
  SymlinkTarget_resolve_from target link =
  (let escape := {| ste_link := link; ste_target := literal |} in
   parent ← ok_or (CanonicalPath_parent link) escape;
   segments ← ok_or (walk (cp_segments parent) (split (chr "/") literal)) escape;
   map_err (λ _, escape) (CanonicalPath_new segments)).
Proof.
  intros (Hl & _ & _ & _ & Hscan)%SymlinkTarget_new_Ok.
  unfold SymlinkTarget_resolve_from. rewrite Hl. cbv zeta.
  destruct (CanonicalPath_parent link) as [parent|]; simpl; [|done].
  rewrite iter_pops.
  destruct (scan_components_walk _ _ _ (cp_segments parent) _ _ Hscan) as [Hw _].
  rewrite pops_0 in Hw. simpl in Hw. rewrite app_nil_r in Hw. rewrite Hw.
  by destruct (pops (st_parents target) (cp_segments parent)).
Qed.

(** C38: resolving an accepted target is the kernel's own walk of its text: the result is
    the canonical path that walking the components from the link's directory
    reaches, and resolution fails exactly when that walk would climb above the
    repository root or leave the path bounds. *)
Theorem symlink_resolution_is_confined literal target link :
  SymlinkTarget_new literal = Ok target →
  (∀ path, SymlinkTarget_resolve_from target link = Ok path ↔
     ∃ parent, CanonicalPath_parent link = Some parent ∧
       walk (cp_segments parent) (split (chr "/") literal) = Some (cp_segments path) ∧
       CanonicalPath_wf path) ∧
  (∀ e, SymlinkTarget_resolve_from target link = Err e →
     e = {| ste_link := link; ste_target := literal |}).
Proof.
  intros Ht. rewrite (resolve_from_walk _ _ _ Ht). cbv zeta.
  destruct (CanonicalPath_parent link) as [parent|]; simpl;
    [|split; [split; [done|by intros (? & ? & _)]|by intros e [= <-]]].
  destruct (walk _ _) as [segments|] eqn:Hw; simpl.
  2:{ split; [split; [done|]|by intros e [= <-]]. intros (? & [= <-] & Hw' & _). congruence. }
  destruct (CanonicalPath_new segments) as [p|] eqn:Hp; simpl.
  - apply CanonicalPath_new_ok in Hp as [Hwf <-]. split; [|done]. intros path. split.
    + intros [= <-]. eauto.
    + intros (parent' & [= <-] & Heq & _). rewrite Hw in Heq. f_equal. destruct p, path. by simplify_eq/=.
  - split; [|by intros e' [= <-]]. intros path. split; [done|].
    intros (parent' & [= <-] & Heq & Hwf). rewrite Hw in Heq. injection Heq as ->.
    assert (CanonicalPath_new (cp_segments path) = Ok path) by (by apply CanonicalPath_new_ok).
    congruence.
Qed.

(** [../lib/x] from [src/link] is [lib/x]; from [link] it would leave the root. *)
Lemma symlink_resolution_is_confined_witness :
  let literal := lit "../lib//./x" in
  let target := {| st_literal := literal; st_parents := 1; st_segments := [lit "lib"; lit "x"] |} in
  SymlinkTarget_new literal = Ok target ∧
  is_ok (SymlinkTarget_resolve_from target {| cp_segments := [lit "link"] |}) = false ∧
  (SymlinkTarget_resolve_from target {| cp_segments := [lit "src"; lit "link"] |}
     = Ok {| cp_segments := [lit "lib"; lit "x"] |} ↔
   ∃ parent, CanonicalPath_parent {| cp_segments := [lit "src"; lit "link"] |} = Some parent ∧
     walk (cp_segments parent) (split (chr "/") literal) = Some [lit "lib"; lit "x"] ∧
     CanonicalPath_wf {| cp_segments := [lit "lib"; lit "x"] |}).
Proof.
  intros literal target. split; [by vm_compute|]. split; [by vm_compute|].
  apply (proj1 (symlink_resolution_is_confined literal target
    {| cp_segments := [lit "src"; lit "link"] |} ltac:(by vm_compute))
    {| cp_segments := [lit "lib"; lit "x"] |}).
Defined.
