(* ===== verification/Namespace.v ===== *)
(** * The VM-wide namespace registry ([crates/capfs/src/namespace.rs])

    Objects with their sorted names, the forward and reverse indexes, the two-phase
    mutations (a planned next state, the external executor, then publication) and
    quarantine.  An executor is a function from what the registry shows it to its
    outcome; a [HashMap] is iterated in the unspecified order [hash_iter]. *)

From S2P Require Import Prelude Bytes Path Capability State Order Symlink.

Definition ROOT_OBJECT_SEQUENCE : N := 0.

Definition object_id (sequence : N) : ObjectId := lit "object-" ++ decimal sequence.

Abbreviation NamespaceGeneration := N.

Definition NamespaceGeneration_initial : NamespaceGeneration := 0.

Definition checked_next (self : NamespaceGeneration) : option NamespaceGeneration :=
  checked_add_u64 self 1.

Inductive NamespaceObjectKind := Directory | RegularFile | Symlink.

#[export] Instance NamespaceObjectKind_eq_dec : EqDecision NamespaceObjectKind.
Proof. solve_decision. Defined.

Inductive NamespaceObjectSpec :=
  | SpecDirectory
  | SpecRegularFile
  | SpecSymlink (target : SymlinkTarget).

#[export] Instance NamespaceObjectSpec_eq_dec : EqDecision NamespaceObjectSpec.
Proof. solve_decision. Defined.

Definition spec_kind (self : NamespaceObjectSpec) : NamespaceObjectKind :=
  match self with
  | SpecDirectory => Directory
  | SpecRegularFile => RegularFile
  | SpecSymlink _ => Symlink
  end.

Definition spec_target (self : NamespaceObjectSpec) : option SymlinkTarget :=
  match self with
  | SpecSymlink target => Some target
  | SpecDirectory | SpecRegularFile => None
  end.

Abbreviation AliasGroup := N.

Record ManifestEntry := {
  me_path : CanonicalPath;
  me_spec : NamespaceObjectSpec;
  me_alias_group : AliasGroup;
}.

Record NamespaceObject := {
  no_id : ObjectId;
  no_primary : CanonicalPath;
  no_aliases : list CanonicalPath;
  no_kind : NamespaceObjectKind;
  no_link_target : option SymlinkTarget;
  no_open_handle_count : N;
}.

#[export] Instance NamespaceObject_eq_dec : EqDecision NamespaceObject.
Proof. solve_decision. Defined.

Inductive PathRemoval := Detached | Retired.

Record NamespaceMove := {
  nm_object : ObjectId;
  nm_source : CanonicalPath;
  nm_destination : CanonicalPath;
  nm_kind : NamespaceObjectKind;
  nm_expected_link_count : N;
}.

Record RenamePlan := {
  rp_source : CanonicalPath;
  rp_destination : CanonicalPath;
  rp_moved_objects : list NamespaceMove;
}.

Inductive NamespaceError :=
  | Namespace_LockPoisoned
  | RepositoryInDoubt
  | InvalidManifestRoot
  | ObjectIdExhausted
  | PathOccupied (path : CanonicalPath)
  | UnknownObject (object : ObjectId)
  | UnknownPath (path : CanonicalPath)
  | MissingParent (path : CanonicalPath)
  | ParentNotDirectory (path : CanonicalPath)
  | InvalidChildName (e : InvalidPathSegment)
  | Namespace_InvalidSymlinkTarget (e : InvalidSymlinkTarget)
  | SymlinkTargetEscapes (e : SymlinkTargetEscape)
  | CannotAliasKind (object : ObjectId) (kind : NamespaceObjectKind)
  | InconsistentAliasGroup (path : CanonicalPath)
  | AmbiguousObjectPath (object : ObjectId)
  | CannotModifyRoot
  | DestinationInsideSource
  | OpenHandleInSubtree (object : ObjectId)
  | DirectoryNotEmpty (object : ObjectId)
  | OpenHandleCountExhausted (object : ObjectId)
  | NoOpenHandle (object : ObjectId)
  | NamespaceGenerationExhausted
  | DirectoryGenerationChanged (expected actual : NamespaceGeneration)
  | Namespace_InvariantViolation.

Inductive NamespaceOperationError (E : Type) :=
  | OpNamespace (e : NamespaceError)
  | OpExecutor (e : E).
Arguments OpNamespace {E} e.
Arguments OpExecutor {E} e.

Inductive NamespaceExecutorOutcome (T E : Type) :=
  | Committed (value : T)
  | FailedBeforeCommit (e : E)
  | CommittedWithError (e : E).
Arguments Committed {T E} value.
Arguments FailedBeforeCommit {T E} e.
Arguments CommittedWithError {T E} e.

(** [From<Result<T, E>>]. *)
Definition outcome_of_result {T E} (r : result E T) : NamespaceExecutorOutcome T E :=
  match r with Ok value => Committed value | Err e => FailedBeforeCommit e end.

(** ** One object's names *)

Definition NamespaceObject_new (id : ObjectId) (path : CanonicalPath) (spec : NamespaceObjectSpec)
    : NamespaceObject :=
  {| no_id := id; no_primary := path; no_aliases := []; no_kind := spec_kind spec;
     no_link_target := spec_target spec; no_open_handle_count := 0 |}.

Definition no_paths (self : NamespaceObject) : list CanonicalPath := no_primary self :: no_aliases self.

Definition is_aliased (self : NamespaceObject) : bool := negb (bool_decide (no_aliases self = [])).

Definition expected_link_count (self : NamespaceObject) : N := N.of_nat (length (no_aliases self)) + 1.

Definition owns_path (self : NamespaceObject) (path : CanonicalPath) : bool :=
  bool_decide (no_primary self = path) || bool_decide (path ∈ no_aliases self).

Definition no_with_paths (self : NamespaceObject) (primary : CanonicalPath)
    (aliases : list CanonicalPath) : NamespaceObject :=
  {| no_id := no_id self; no_primary := primary; no_aliases := aliases; no_kind := no_kind self;
     no_link_target := no_link_target self; no_open_handle_count := no_open_handle_count self |}.

Definition no_with_count (self : NamespaceObject) (count : N) : NamespaceObject :=
  {| no_id := no_id self; no_primary := no_primary self; no_aliases := no_aliases self;
     no_kind := no_kind self; no_link_target := no_link_target self; no_open_handle_count := count |}.

Definition insert_path (self : NamespaceObject) (path : CanonicalPath)
    : result NamespaceError NamespaceObject :=
  if owns_path self path then Err (PathOccupied path)
  else if bool_decide (segments_cmp (cp_segments path) (cp_segments (no_primary self)) = Lt)
  then Ok (no_with_paths self path (sort_paths (no_aliases self ++ [no_primary self])))
  else Ok (no_with_paths self (no_primary self) (sort_paths (no_aliases self ++ [path]))).

(** [Vec::remove] of the first occurrence. *)
Fixpoint remove_first (path : CanonicalPath) (l : list CanonicalPath) : option (list CanonicalPath) :=
  match l with
  | [] => None
  | p :: l => if bool_decide (p = path) then Some l else cons p <$> remove_first path l
  end.

Definition remove_path (self : NamespaceObject) (path : CanonicalPath)
    : result NamespaceError (PathRemoval * NamespaceObject) :=
  if bool_decide (no_primary self = path) then
    match no_aliases self with
    | [] => Ok (Retired, self)
    | primary :: aliases => Ok (Detached, no_with_paths self primary aliases)
    end
  else
    match remove_first path (no_aliases self) with
    | None => Err Namespace_InvariantViolation
    | Some aliases => Ok (Detached, no_with_paths self (no_primary self) aliases)
    end.

Definition replace_path (self : NamespaceObject) (source destination : CanonicalPath)
    : result NamespaceError NamespaceObject :=
  if negb (owns_path self source) then Err Namespace_InvariantViolation
  else
    let paths := (λ path, if bool_decide (path = source) then destination else path) <$> no_paths self in
    match sort_paths paths with
    | [] => Err Namespace_InvariantViolation
    | primary :: aliases => Ok (no_with_paths self primary aliases)
    end.

(** ** The indexes *)

Record NamespaceState := {
  nst_objects : gmap ObjectId NamespaceObject;
  nst_paths : gmap CanonicalPath ObjectId;
  nst_next_object_sequence : option N;
  nst_generation : NamespaceGeneration;
}.

Definition nst_with_objects (s : NamespaceState) (objects : gmap ObjectId NamespaceObject) : NamespaceState :=
  {| nst_objects := objects; nst_paths := nst_paths s;
     nst_next_object_sequence := nst_next_object_sequence s; nst_generation := nst_generation s |}.
Definition nst_with_paths (s : NamespaceState) (paths : gmap CanonicalPath ObjectId) : NamespaceState :=
  {| nst_objects := nst_objects s; nst_paths := paths;
     nst_next_object_sequence := nst_next_object_sequence s; nst_generation := nst_generation s |}.
Definition nst_with_generation (s : NamespaceState) (generation : NamespaceGeneration) : NamespaceState :=
  {| nst_objects := nst_objects s; nst_paths := nst_paths s;
     nst_next_object_sequence := nst_next_object_sequence s; nst_generation := generation |}.

(** [objects.get_mut(id)] followed by an assignment. *)
Definition set_object (s : NamespaceState) (id : ObjectId) (record : NamespaceObject) : NamespaceState :=
  nst_with_objects s (<[id := record]> (nst_objects s)).

Definition with_root : NamespaceState :=
  let root := object_id ROOT_OBJECT_SEQUENCE in
  {| nst_objects := <[root := NamespaceObject_new root CanonicalPath_root SpecDirectory]> ∅;
     nst_paths := <[CanonicalPath_root := root]> ∅;
     nst_next_object_sequence := checked_add_u64 ROOT_OBJECT_SEQUENCE 1;
     nst_generation := NamespaceGeneration_initial |}.

Abbreviation NR := (result NamespaceError).

Definition next_generation (s : NamespaceState) : NR NamespaceGeneration :=
  ok_or (checked_next (nst_generation s)) NamespaceGenerationExhausted.

Definition validate_parent (s : NamespaceState) (path : CanonicalPath) : NR unit :=
  parent_path ← ok_or (CanonicalPath_parent path) CannotModifyRoot;
  parent_id ← ok_or (nst_paths s !! parent_path) (MissingParent parent_path);
  parent ← ok_or (nst_objects s !! parent_id) Namespace_InvariantViolation;
  if negb (bool_decide (no_kind parent = Directory)) then Err (ParentNotDirectory parent_path) else Ok tt.

Definition validate_new_path (s : NamespaceState) (path : CanonicalPath) : NR unit :=
  if bool_decide (is_Some (nst_paths s !! path)) then Err (PathOccupied path) else validate_parent s path.

Definition allocate_object (s : NamespaceState) (path : CanonicalPath) (spec : NamespaceObjectSpec)
    : NR (NamespaceObject * NamespaceState) :=
  _ ← match spec with
      | SpecSymlink target => map_err SymlinkTargetEscapes (SymlinkTarget_resolve_from target path)
      | _ => Ok path
      end;
  sequence ← ok_or (nst_next_object_sequence s) ObjectIdExhausted;
  let id := object_id sequence in
  if bool_decide (is_Some (nst_objects s !! id)) then Err Namespace_InvariantViolation
  else
    let object := NamespaceObject_new id path spec in
    Ok (object,
        {| nst_objects := <[id := object]> (nst_objects s);
           nst_paths := <[no_primary object := id]> (nst_paths s);
           nst_next_object_sequence := checked_add_u64 sequence 1;
           nst_generation := nst_generation s |}).

Definition attach_path (s : NamespaceState) (object : ObjectId) (path : CanonicalPath)
    : NR (NamespaceObject * NamespaceState) :=
  record ← ok_or (nst_objects s !! object) (UnknownObject object);
  if bool_decide (no_kind record = Directory) then Err (CannotAliasKind object (no_kind record))
  else
    record ← insert_path record path;
    Ok (record, nst_with_paths (set_object s object record) (<[path := object]> (nst_paths s))).

(** ** Import of a scanned tree *)

Definition manifest_entry (acc : NamespaceState * gmap AliasGroup ObjectId) (entry : ManifestEntry)
    : NR (NamespaceState * gmap AliasGroup ObjectId) :=
  let '(state, groups) := acc in
  _ ← validate_new_path state (me_path entry);
  match groups !! me_alias_group entry with
  | Some object =>
      record ← ok_or (nst_objects state !! object) Namespace_InvariantViolation;
      if negb (bool_decide (no_kind record = spec_kind (me_spec entry)))
         || negb (bool_decide (no_link_target record = spec_target (me_spec entry)))
      then Err (InconsistentAliasGroup (me_path entry))
      else
        '(_, state) ← attach_path state object (me_path entry);
        Ok (state, groups)
  | None =>
      '(created, state) ← allocate_object state (me_path entry) (me_spec entry);
      Ok (state, <[me_alias_group entry := no_id created]> groups)
  end.

Fixpoint manifest_entries (acc : NamespaceState * gmap AliasGroup ObjectId) (entries : list ManifestEntry)
    : NR (NamespaceState * gmap AliasGroup ObjectId) :=
  match entries with
  | [] => Ok acc
  | entry :: rest => acc ← manifest_entry acc entry; manifest_entries acc rest
  end.

Definition manifest_state (entries : list ManifestEntry) : NR NamespaceState :=
  match entries with
  | [] => Err InvalidManifestRoot
  | root :: rest =>
      if negb (CanonicalPath_is_root (me_path root)) || negb (bool_decide (me_spec root = SpecDirectory))
      then Err InvalidManifestRoot
      else
        '(state, _) ← manifest_entries (with_root, ∅) rest;
        Ok state
  end.

(** ** Planned mutations

    Each function is the part of a mutation before its executor runs: what the
    executor is shown and the next state that a commit publishes. *)

(** The child path of a live directory, as every child operation computes it. *)
Definition child_path (parent : NamespaceObject) (child_name : str) : NR CanonicalPath :=
  if negb (bool_decide (no_kind parent = Directory)) then Err (ParentNotDirectory (no_primary parent))
  else map_err InvalidChildName (CanonicalPath_child (no_primary parent) child_name).

Definition plan_create (s : NamespaceState) (path : CanonicalPath) (spec : NamespaceObjectSpec)
    : NR (NamespaceObject * NamespaceState) :=
  _ ← validate_new_path s path;
  generation ← next_generation s;
  '(object, next) ← allocate_object s path spec;
  Ok (object, nst_with_generation next generation).

Definition plan_create_child (s : NamespaceState) (parent : ObjectId) (child_name : str)
    (spec : NamespaceObjectSpec) (open_handle_count : N)
    : NR (NamespaceObject * NamespaceObject * NamespaceState) :=
  parent_record ← ok_or (nst_objects s !! parent) (UnknownObject parent);
  path ← child_path parent_record child_name;
  _ ← validate_new_path s path;
  generation ← next_generation s;
  '(object, next) ← allocate_object s path spec;
  next ← (if negb (open_handle_count =? 0)%N then
            record ← ok_or (nst_objects next !! no_id object) Namespace_InvariantViolation;
            Ok (set_object next (no_id object) (no_with_count record open_handle_count))
          else Ok next);
  object ← ok_or (nst_objects next !! no_id object) Namespace_InvariantViolation;
  Ok (parent_record, object, nst_with_generation next generation).

Definition plan_link_child (s : NamespaceState) (parent : ObjectId) (child_name : str) (source : ObjectId)
    : NR (NamespaceObject * NamespaceObject * CanonicalPath * NamespaceState) :=
  parent_record ← ok_or (nst_objects s !! parent) (UnknownObject parent);
  if negb (bool_decide (no_kind parent_record = Directory))
  then Err (ParentNotDirectory (no_primary parent_record))
  else if negb (bool_decide (is_Some (nst_objects s !! source))) then Err (UnknownObject source)
  else
    path ← map_err InvalidChildName (CanonicalPath_child (no_primary parent_record) child_name);
    _ ← validate_new_path s path;
    generation ← next_generation s;
    '(linked, next) ← attach_path s source path;
    Ok (parent_record, linked, path, nst_with_generation next generation).

(** [remove_record] up to its executor. *)
Definition plan_remove (s : NamespaceState) (object : NamespaceObject) (removed_path : CanonicalPath)
    : NR NamespaceState :=
  if CanonicalPath_is_root removed_path then Err CannotModifyRoot
  else if negb (owns_path object removed_path) then Err Namespace_InvariantViolation
  else
    _ ← (if negb (is_aliased object) then
           if negb (no_open_handle_count object =? 0)%N then Err (OpenHandleInSubtree (no_id object))
           else if existsb (λ candidate, negb (bool_decide (candidate = removed_path))
                              && CanonicalPath_is_at_or_below candidate removed_path)
                     (elements (dom (nst_paths s)))
           then Err (DirectoryNotEmpty (no_id object))
           else Ok tt
         else Ok tt);
    generation ← next_generation s;
    _ ← ok_or (nst_paths s !! removed_path) Namespace_InvariantViolation;
    let next := nst_with_paths s (delete removed_path (nst_paths s)) in
    record ← ok_or (nst_objects next !! no_id object) Namespace_InvariantViolation;
    '(removal, record) ← remove_path record removed_path;
    let next := match removal with
                | Retired => nst_with_objects next (delete (no_id object) (nst_objects next))
                | Detached => set_object next (no_id object) record
                end in
    Ok (nst_with_generation next generation).

Definition plan_remove_object (s : NamespaceState) (object : ObjectId)
    : NR (NamespaceObject * NamespaceState) :=
  record ← ok_or (nst_objects s !! object) (UnknownObject object);
  if is_aliased record then Err (AmbiguousObjectPath object)
  else
    next ← plan_remove s record (no_primary record);
    Ok (record, next).

Definition plan_remove_child (s : NamespaceState) (parent : ObjectId) (child_name : str)
    : NR (NamespaceObject * NamespaceObject * CanonicalPath * NamespaceState) :=
  parent_record ← ok_or (nst_objects s !! parent) (UnknownObject parent);
  path ← child_path parent_record child_name;
  child_id ← ok_or (nst_paths s !! path) (UnknownPath path);
  child ← ok_or (nst_objects s !! child_id) Namespace_InvariantViolation;
  next ← plan_remove s child path;
  Ok (parent_record, child, path, next).

(** The iteration order of a [HashMap] is unspecified. *)
Class HashIter := {
  hash_iter : gmap CanonicalPath ObjectId → list (CanonicalPath * ObjectId);
  hash_iter_perm : ∀ m, hash_iter m ≡ₚ map_to_list m;
}.

Section iteration.
Context {HI : HashIter}.

(** One entry of the moved subtree. *)
Definition plan_move (s : NamespaceState) (source destination : CanonicalPath)
    (entry : CanonicalPath * ObjectId) : NR NamespaceMove :=
  let '(path, id) := entry in
  object ← ok_or (nst_objects s !! id) Namespace_InvariantViolation;
  if negb (no_open_handle_count object =? 0)%N then Err (OpenHandleInSubtree (no_id object))
  else
    rebased ← ok_or (CanonicalPath_rebase path source destination) Namespace_InvariantViolation;
    Ok {| nm_object := no_id object; nm_source := path; nm_destination := rebased;
          nm_kind := no_kind object; nm_expected_link_count := expected_link_count object |}.

(** The first loop over the plan: every source leaves the path index. *)
Fixpoint remove_sources (s : NamespaceState) (moves : list NamespaceMove) : NR NamespaceState :=
  match moves with
  | [] => Ok s
  | movement :: rest =>
      _ ← ok_or (nst_paths s !! nm_source movement) Namespace_InvariantViolation;
      remove_sources (nst_with_paths s (delete (nm_source movement) (nst_paths s))) rest
  end.

(** The second loop: every destination enters it, and the object is renamed. *)
Fixpoint insert_destinations (s : NamespaceState) (moves : list NamespaceMove) : NR NamespaceState :=
  match moves with
  | [] => Ok s
  | movement :: rest =>
      if bool_decide (is_Some (nst_paths s !! nm_destination movement))
      then Err (PathOccupied (nm_destination movement))
      else
        object ← ok_or (nst_objects s !! nm_object movement) Namespace_InvariantViolation;
        object ← replace_path object (nm_source movement) (nm_destination movement);
        let s := set_object s (nm_object movement) object in
        insert_destinations
          (nst_with_paths s (<[nm_destination movement := nm_object movement]> (nst_paths s))) rest
  end.

(** [rename_records] up to its executor. *)
Definition plan_rename (s : NamespaceState) (source destination : CanonicalPath)
    : NR (RenamePlan * NamespaceState) :=
  if CanonicalPath_is_root source then Err CannotModifyRoot
  else if negb (bool_decide (is_Some (nst_paths s !! source))) then Err (UnknownPath source)
  else if bool_decide (is_Some (nst_paths s !! destination)) then Err (PathOccupied destination)
  else if CanonicalPath_is_at_or_below destination source then Err DestinationInsideSource
  else
    _ ← validate_parent s destination;
    moved_objects ← collect (plan_move s source destination <$>
      filter (λ '(path, _), CanonicalPath_is_at_or_below path source = true) (hash_iter (nst_paths s)));
    let moved_objects := sort_by_key segments_cmp (λ m, cp_segments (nm_source m)) moved_objects in
    generation ← next_generation s;
    let plan := {| rp_source := source; rp_destination := destination;
                   rp_moved_objects := moved_objects |} in
    next ← remove_sources s moved_objects;
    next ← insert_destinations next moved_objects;
    Ok (plan, nst_with_generation next generation).

Definition plan_rename_child (s : NamespaceState) (source_parent : ObjectId) (source_name : str)
    (destination_parent : ObjectId) (destination_name : str) : NR (RenamePlan * NamespaceState) :=
  source_parent ← ok_or (nst_objects s !! source_parent) (UnknownObject source_parent);
  source ← child_path source_parent source_name;
  destination_parent ← ok_or (nst_objects s !! destination_parent) (UnknownObject destination_parent);
  destination ← child_path destination_parent destination_name;
  plan_rename s source destination.

(** The names one level below a directory, sorted by their last component. *)
Definition directory_children (s : NamespaceState) (directory : NamespaceObject)
    : NR (list (CanonicalPath * NamespaceObject)) :=
  let child_depth := S (length (cp_segments (no_primary directory))) in
  children ← collect ((λ '(path, id),
      object ← ok_or (nst_objects s !! id) Namespace_InvariantViolation;
      Ok (path, object)) <$>
    filter (λ '(path, _), bool_decide (length (cp_segments path) = child_depth) &&
                          CanonicalPath_is_at_or_below path (no_primary directory) = true)
      (hash_iter (nst_paths s)));
  Ok (sort_by_key option_cmp (λ child, last (cp_segments child.1)) children).

Definition parent_record (s : NamespaceState) (directory : NamespaceObject) : NR NamespaceObject :=
  match CanonicalPath_parent (no_primary directory) with
  | Some parent_path =>
      parent_id ← ok_or (nst_paths s !! parent_path) (MissingParent parent_path);
      ok_or (nst_objects s !! parent_id) Namespace_InvariantViolation
  | None => Ok directory
  end.
End iteration.
