(* ===== verification/NamespaceInvariant.v ===== *)
(** * The namespace is a tree with two agreeing indexes

    [NamespaceState_wf]: every name of every live object is in the path index and
    conversely, an object's names are strictly sorted, directories have one name,
    every name's parent is a live directory, and object identities lie below the
    sequence counter.  Every planned mutation except rename (in [NamespaceRename])
    preserves it and cannot report an index disagreement. *)

From S2P Require Import Prelude Bytes Path Capability State Order Symlink Namespace.

Record record_wf (r : NamespaceObject) : Prop := {
  rw_sorted : StronglySorted path_le (no_paths r);
  rw_nodup : NoDup (no_paths r);
  rw_directory : no_kind r = Directory → no_aliases r = [];
  rw_target : is_Some (no_link_target r) ↔ no_kind r = Symlink;
  rw_count : (no_open_handle_count r < u64_limit)%N;
}.

Definition live_directory (s : NamespaceState) (p : CanonicalPath) : Prop :=
  ∃ id r, nst_paths s !! p = Some id ∧ nst_objects s !! id = Some r ∧ no_kind r = Directory.

Definition issued (next : option N) (id : ObjectId) : Prop :=
  ∃ k, id = object_id k ∧ (k < match next with Some n => n | None => u64_limit end)%N.

Record NamespaceState_wf (s : NamespaceState) : Prop := {
  nw_forward : ∀ id r, nst_objects s !! id = Some r →
    no_id r = id ∧ record_wf r ∧ ∀ p, p ∈ no_paths r → nst_paths s !! p = Some id;
  nw_reverse : ∀ p id, nst_paths s !! p = Some id →
    ∃ r, nst_objects s !! id = Some r ∧ p ∈ no_paths r;
  nw_canonical : ∀ p, is_Some (nst_paths s !! p) → CanonicalPath_wf p;
  nw_tree : ∀ p q, is_Some (nst_paths s !! p) → CanonicalPath_parent p = Some q → live_directory s q;
  nw_root : live_directory s CanonicalPath_root;
  nw_issued : ∀ id, is_Some (nst_objects s !! id) → issued (nst_next_object_sequence s) id;
  nw_next : ∀ n, nst_next_object_sequence s = Some n → (n < u64_limit)%N;
  nw_generation : (nst_generation s < u64_limit)%N;
}.

(** ** Identities *)

Lemma object_id_inj a b : object_id a = object_id b → a = b.
Proof. unfold object_id. intros H%app_inv_head. by apply decimal_inj. Qed.

Lemma issued_mono n id : issued (Some n) id → (n < u64_limit)%N → issued (checked_add_u64 n 1) id.
Proof.
  intros (k & -> & Hk) Hn. exists k. split; [done|].
  destruct (checked_add_u64 n 1) eqn:E; [apply checked_add_u64_Some in E as [-> _]|]; lia.
Qed.

Lemma issued_fresh n : (n < u64_limit)%N → issued (checked_add_u64 n 1) (object_id n).
Proof.
  intros Hn. exists n. split; [done|].
  destruct (checked_add_u64 n 1) eqn:E; [apply checked_add_u64_Some in E as [-> _]|]; lia.
Qed.

Lemma not_issued n : ~ issued (Some n) (object_id n).
Proof. intros (k & Hk%object_id_inj & Hlt). subst. lia. Qed.

(** ** Names of one object *)

Lemma owns_path_spec r p : owns_path r p = true ↔ p ∈ no_paths r.
Proof.
  unfold owns_path, no_paths. rewrite orb_true_iff, !bool_decide_eq_true, elem_of_cons. naive_solver.
Qed.

Lemma NamespaceObject_new_wf id path spec : record_wf (NamespaceObject_new id path spec).
Proof.
  constructor; simpl; unfold no_paths; simpl.
  - repeat constructor.
  - apply NoDup_singleton.
  - done.
  - destruct spec; simpl; split; try done; by intros [? [=]].
  - done.
Qed.

Lemma path_cmp_ge p q : segments_cmp (cp_segments p) (cp_segments q) ≠ Lt → path_le q p.
Proof.
  unfold key_le. rewrite (cmp_flip (cp_segments p) (cp_segments q)).
  destruct (segments_cmp (cp_segments p) (cp_segments q)); done.
Qed.

Lemma path_cmp_lt p q : segments_cmp (cp_segments p) (cp_segments q) = Lt → path_le p q.
Proof. unfold key_le. by intros ->. Qed.

(** A sorted head over a sorted tail. *)
Lemma sorted_cons p l : Forall (path_le p) l → StronglySorted path_le (p :: sort_paths l).
Proof.
  intros H. constructor; [apply sort_by_key_sorted; apply _|]. by rewrite sort_by_key_perm.
Qed.

(** [insert_path] adds exactly one name and keeps the names sorted. *)
Lemma insert_path_ok r p r' :
  record_wf r → insert_path r p = Ok r' →
  (p ∉ no_paths r) ∧ (no_paths r' ≡ₚ p :: no_paths r) ∧ StronglySorted path_le (no_paths r') ∧
  no_id r' = no_id r ∧ no_kind r' = no_kind r ∧ no_link_target r' = no_link_target r ∧
  no_open_handle_count r' = no_open_handle_count r.
Proof.
  intros Hwf. unfold insert_path. destruct (owns_path r p) eqn:Ho; [done|].
  assert (p ∉ no_paths r) as Hp by (rewrite <- owns_path_spec; by rewrite Ho).
  pose proof (rw_sorted r Hwf) as Hs. unfold no_paths in *.
  apply StronglySorted_inv in Hs as [Hs Hall].
  case_bool_decide as Hlt; intros [= <-]; simpl.
  - split; [done|]. split; [|split; [|done]].
    + rewrite sort_by_key_perm. constructor. by rewrite Permutation_app_comm.
    + apply sorted_cons, Forall_app. pose proof (path_cmp_lt _ _ Hlt) as Hle. split.
      * eapply Forall_impl; [exact Hall|]. intros q Hq. simpl in Hq. by etrans.
      * by apply Forall_singleton.
  - split; [done|]. split; [|split; [|done]].
    + rewrite sort_by_key_perm, (Permutation_app_comm (no_aliases r)). simpl. by constructor.
    + apply sorted_cons, Forall_app. split; [done|]. apply Forall_singleton. by apply path_cmp_ge.
Qed.

Lemma remove_first_spec p l l' :
  remove_first p l = Some l' → (l ≡ₚ p :: l') ∧ sublist l' l.
Proof.
  revert l'. induction l as [|q l IH]; intros l'; simpl; [done|].
  case_bool_decide as Hq; [intros [= <-]; subst; split; [done|by constructor]|].
  destruct (remove_first p l) as [k|]; simpl; [|done]. intros [= <-].
  destruct (IH k eq_refl) as [Hperm Hsub]. split; [rewrite Hperm; constructor|by constructor].
Qed.

Lemma remove_first_Some p l : p ∈ l → is_Some (remove_first p l).
Proof.
  induction l as [|q l IH]; simpl; [by intros ?%not_elem_of_nil|].
  case_bool_decide as Hq; [done|]. intros [->|H]%elem_of_cons; [done|].
  destruct (IH H) as [k ->]. done.
Qed.

Lemma sublist_Forall {A} (P : A → Prop) l k : sublist l k → Forall P k → Forall P l.
Proof. induction 1; rewrite ?Forall_cons; naive_solver. Qed.

Lemma sorted_sublist (l k : list CanonicalPath) :
  sublist l k → StronglySorted path_le k → StronglySorted path_le l.
Proof.
  induction 1 as [|p l k Hs IH|p l k Hs IH]; [done| |].
  - intros [Hk Hall]%StronglySorted_inv. constructor; [by apply IH|]. by eapply sublist_Forall.
  - intros [Hk _]%StronglySorted_inv. by apply IH.
Qed.

(** [remove_path] of an owned name: the last one retires the object, any other
    leaves the remaining names in order. *)
Lemma remove_path_ok r p :
  record_wf r → p ∈ no_paths r →
  (no_aliases r = [] ∧ no_primary r = p ∧ remove_path r p = Ok (Retired, r)) ∨
  (no_aliases r ≠ [] ∧ ∃ r', remove_path r p = Ok (Detached, r') ∧
     (no_paths r ≡ₚ p :: no_paths r') ∧ StronglySorted path_le (no_paths r') ∧
     no_id r' = no_id r ∧ no_kind r' = no_kind r ∧ no_link_target r' = no_link_target r ∧
     no_open_handle_count r' = no_open_handle_count r).
Proof.
  intros Hwf Hp. unfold remove_path. pose proof (rw_sorted r Hwf) as Hs. unfold no_paths in *.
  apply StronglySorted_inv in Hs as [Hs Hall].
  case_bool_decide as Hprim.
  - destruct (no_aliases r) as [|a aliases] eqn:Ha; [by left|]. right. split; [done|].
    eexists. split; [done|]. simpl. subst p. done.
  - right. apply elem_of_cons in Hp as [->|Hp]; [done|].
    split; [intros Hn; rewrite Hn in Hp; by apply not_elem_of_nil in Hp|].
    destruct (remove_first_Some _ _ Hp) as [k Hk]. rewrite Hk.
    destruct (remove_first_spec _ _ _ Hk) as [Hperm Hsub].
    eexists. split; [done|]. simpl. split; [|split; [|done]].
    + rewrite Hperm. constructor.
    + constructor; [by eapply sorted_sublist|]. by eapply sublist_Forall.
Qed.

Lemma record_wf_paths r r' :
  record_wf r → StronglySorted path_le (no_paths r') → NoDup (no_paths r') →
  no_kind r ≠ Directory ∨ no_aliases r' = [] →
  no_kind r' = no_kind r → no_link_target r' = no_link_target r →
  no_open_handle_count r' = no_open_handle_count r → record_wf r'.
Proof.
  intros [] Hs Hn Hd Hk Ht Hc. constructor; [done..| | |].
  - rewrite Hk. naive_solver.
  - by rewrite Hk, Ht.
  - by rewrite Hc.
Qed.

(** ** The initial state *)

Lemma with_root_wf : NamespaceState_wf with_root.
Proof.
  assert (live_directory with_root CanonicalPath_root) as Hroot.
  { do 2 eexists. simpl. split; [apply lookup_insert_eq|]. split; [apply lookup_insert_eq|done]. }
  constructor; simpl; [| | | |done| | |done].
  - intros id r [[<- <-]|[_ Hx]]%lookup_insert_Some; [|by rewrite lookup_empty in Hx].
    split; [done|]. split; [apply NamespaceObject_new_wf|]. unfold no_paths. simpl.
    intros p ->%list_elem_of_singleton. apply lookup_insert_eq.
  - intros p id [[<- <-]|[_ Hx]]%lookup_insert_Some; [|by rewrite lookup_empty in Hx].
    eexists. split; [apply lookup_insert_eq|]. left.
  - intros p [id [[<- <-]|[_ Hx]]%lookup_insert_Some]; [apply CanonicalPath_root_wf|].
    by rewrite lookup_empty in Hx.
  - intros p q [id [[<- <-]|[_ Hx]]%lookup_insert_Some]; [done|]. by rewrite lookup_empty in Hx.
  - intros id [r [[<- <-]|[_ Hx]]%lookup_insert_Some]; [|by rewrite lookup_empty in Hx].
    exists ROOT_OBJECT_SEQUENCE. by vm_compute.
  - by intros n [-> ?]%checked_add_u64_Some.
Qed.

(** ** Queries on a well-formed state *)

Lemma live_object s p id :
  NamespaceState_wf s → nst_paths s !! p = Some id →
  ∃ r, nst_objects s !! id = Some r ∧ no_id r = id ∧ record_wf r ∧ p ∈ no_paths r.
Proof.
  intros Hwf Hp. destruct (nw_reverse s Hwf _ _ Hp) as (r & Hr & Hin).
  destruct (nw_forward s Hwf _ _ Hr) as (? & ? & _). by exists r.
Qed.

Lemma validate_parent_Ok s p :
  NamespaceState_wf s →
  validate_parent s p = Ok tt ↔ ∃ q, CanonicalPath_parent p = Some q ∧ live_directory s q.
Proof.
  intros Hwf. unfold validate_parent, live_directory.
  destruct (CanonicalPath_parent p) as [q|]; simpl; [|naive_solver].
  destruct (nst_paths s !! q) as [id|] eqn:Hq; simpl; [|naive_solver].
  destruct (live_object _ _ _ Hwf Hq) as (r & Hr & _). rewrite Hr. simpl.
  case_bool_decide; simpl; naive_solver.
Qed.

Lemma validate_parent_violation s p :
  NamespaceState_wf s → validate_parent s p ≠ Err Namespace_InvariantViolation.
Proof.
  intros Hwf. unfold validate_parent. destruct (CanonicalPath_parent p) as [q|]; simpl; [|done].
  destruct (nst_paths s !! q) as [id|] eqn:Hq; simpl; [|done].
  destruct (live_object _ _ _ Hwf Hq) as (r & Hr & _). rewrite Hr. simpl. by case_match.
Qed.

Lemma validate_new_path_Ok s p :
  NamespaceState_wf s →
  validate_new_path s p = Ok tt ↔
  nst_paths s !! p = None ∧ ∃ q, CanonicalPath_parent p = Some q ∧ live_directory s q.
Proof.
  intros Hwf. unfold validate_new_path. case_bool_decide as Hp.
  - split; [done|]. intros [Hn _]. rewrite Hn in Hp. by destruct Hp.
  - rewrite <- eq_None_not_Some in Hp. rewrite validate_parent_Ok by done. naive_solver.
Qed.

Lemma validate_new_path_violation s p :
  NamespaceState_wf s → validate_new_path s p ≠ Err Namespace_InvariantViolation.
Proof.
  intros Hwf. unfold validate_new_path. case_bool_decide; [done|]. by apply validate_parent_violation.
Qed.

Lemma result_unit {E} (r : result E unit) : is_ok r = true → r = Ok tt.
Proof. by destruct r as [[]|]. Qed.

Lemma next_generation_Ok s g :
  next_generation s = Ok g ↔ g = (nst_generation s + 1)%N ∧ (g < u64_limit)%N.
Proof.
  unfold next_generation, checked_next. destruct (checked_add_u64 _ 1) as [n|] eqn:E; simpl.
  - apply checked_add_u64_Some in E as [-> ?]. naive_solver.
  - apply checked_add_u64_None in E. naive_solver lia.
Qed.

Lemma with_generation_wf s g : NamespaceState_wf s → (g < u64_limit)%N → NamespaceState_wf (nst_with_generation s g).
Proof. intros [] Hg. by constructor. Qed.

(** ** Creation *)

Lemma allocate_object_Ok s path spec object s' :
  allocate_object s path spec = Ok (object, s') →
  ∃ n, nst_next_object_sequence s = Some n ∧ object = NamespaceObject_new (object_id n) path spec ∧
    nst_objects s !! object_id n = None ∧
    s' = {| nst_objects := <[object_id n := object]> (nst_objects s);
            nst_paths := <[path := object_id n]> (nst_paths s);
            nst_next_object_sequence := checked_add_u64 n 1; nst_generation := nst_generation s |} ∧
    (∀ target, spec = SpecSymlink target → is_ok (SymlinkTarget_resolve_from target path) = true).
Proof.
  unfold allocate_object. intros H.
  assert (∀ target, spec = SpecSymlink target → is_ok (SymlinkTarget_resolve_from target path) = true) as Ht.
  { intros target ->. simpl in H. by destruct (SymlinkTarget_resolve_from target path). }
  destruct (match spec with SpecSymlink target => _ | _ => _ end) as [p|]; [|done]. simpl in H.
  destruct (nst_next_object_sequence s) as [n|]; [|done]. simpl in H.
  case_bool_decide as Ho; [done|]. rewrite <- eq_None_not_Some in Ho. injection H as <- <-.
  by exists n.
Qed.

Lemma allocate_object_violation s path spec :
  NamespaceState_wf s → allocate_object s path spec ≠ Err Namespace_InvariantViolation.
Proof.
  intros Hwf. unfold allocate_object.
  destruct (match spec with SpecSymlink target => _ | _ => _ end) as [p|e] eqn:E; simpl.
  - destruct (nst_next_object_sequence s) as [n|] eqn:Hn; simpl; [|done].
    case_bool_decide as Ho; [|done]. intros _. apply (nw_issued s Hwf) in Ho. rewrite Hn in Ho.
    by apply (not_issued n).
  - destruct spec; try done. by destruct (SymlinkTarget_resolve_from _ _); simplify_eq/=.
Qed.

Lemma live_directory_mono s s' p :
  live_directory s p →
  (∀ q id, nst_paths s !! q = Some id → nst_paths s' !! q = Some id) →
  (∀ id r, nst_objects s !! id = Some r → ∃ r', nst_objects s' !! id = Some r' ∧ no_kind r' = no_kind r) →
  live_directory s' p.
Proof.
  intros (id & r & Hp & Hr & Hk) Hpaths Hobjects. destruct (Hobjects _ _ Hr) as (r' & Hr' & Hk').
  exists id, r'. split; [by apply Hpaths|]. split; [done|]. congruence.
Qed.

Lemma allocate_object_wf s path spec object s' :
  NamespaceState_wf s → CanonicalPath_wf path → validate_new_path s path = Ok tt →
  allocate_object s path spec = Ok (object, s') → NamespaceState_wf s'.
Proof.
  intros Hwf Hpath (Hfree & q & Hq & Hdir)%validate_new_path_Ok; [|done].
  intros (n & Hn & -> & Hnew & -> & _)%allocate_object_Ok.
  set (object := NamespaceObject_new (object_id n) path spec).
  pose proof (nw_next s Hwf n Hn) as Hlim.
  set (s' := {| nst_objects := _ |}).
  assert (∀ p, live_directory s p → live_directory s' p) as Hmono.
  { intros p Hp. eapply live_directory_mono; [done| |]; simpl.
    - intros p' id Hp'. rewrite lookup_insert_ne; [done|]. congruence.
    - intros id r Hr. exists r. rewrite lookup_insert_ne; [done|]. congruence. }
  constructor; simpl.
  - intros id r [[<- <-]|[Hne Hr]]%lookup_insert_Some.
    + split; [done|]. split; [apply NamespaceObject_new_wf|].
      intros p ->%list_elem_of_singleton. apply lookup_insert_eq.
    + destruct (nw_forward s Hwf _ _ Hr) as (? & ? & Hp). split; [done|]. split; [done|].
      intros p Hin. rewrite lookup_insert_ne; [by apply Hp|]. intros ->. apply Hp in Hin. congruence.
  - intros p id [[<- <-]|[Hne Hp]]%lookup_insert_Some.
    + exists object. split; [apply lookup_insert_eq|]. left.
    + destruct (nw_reverse s Hwf _ _ Hp) as (r & Hr & Hin). exists r. split; [|done].
      rewrite lookup_insert_ne; [done|]. congruence.
  - intros p [id [[<- <-]|[Hne Hp]]%lookup_insert_Some]; [done|]. eapply nw_canonical; [done|by eexists].
  - intros p q' [id [[<- <-]|[Hne Hp]]%lookup_insert_Some] Hpar; apply Hmono.
    + by simplify_eq.
    + eapply nw_tree; [done|by eexists|done].
  - apply Hmono, (nw_root s Hwf).
  - intros id [r [[<- <-]|[Hne Hr]]%lookup_insert_Some]; [by apply issued_fresh|].
    apply issued_mono; [|done]. rewrite <- Hn. eapply nw_issued; [done|by eexists].
  - by intros m [-> ?]%checked_add_u64_Some.
  - apply (nw_generation s Hwf).
Qed.

(** ** Open counts *)

Lemma set_count_wf s id r count :
  NamespaceState_wf s → nst_objects s !! id = Some r → (count < u64_limit)%N →
  NamespaceState_wf (set_object s id (no_with_count r count)).
Proof.
  intros Hwf Hr Hc.
  assert (∀ p, live_directory s p → live_directory (set_object s id (no_with_count r count)) p) as Hmono.
  { intros p Hp. eapply live_directory_mono; [done|done|]. simpl. intros id' r' Hr'.
    destruct (decide (id' = id)) as [->|Hne]; [|exists r'; by rewrite lookup_insert_ne].
    eexists. rewrite lookup_insert_eq. split; [done|]. by simplify_eq. }
  destruct (nw_forward s Hwf _ _ Hr) as (Hid & Hrw & Hp).
  constructor; simpl; [| |apply (nw_canonical s Hwf)| | | |apply (nw_next s Hwf)|apply (nw_generation s Hwf)].
  - intros id' r' [[<- <-]|[Hne Hr']]%lookup_insert_Some; [|by apply (nw_forward s Hwf)].
    split; [done|]. split; [|done]. destruct Hrw. by constructor.
  - intros p id' Hp'. destruct (nw_reverse s Hwf _ _ Hp') as (r' & Hr' & Hin).
    destruct (decide (id' = id)) as [->|Hne]; [|exists r'; by rewrite lookup_insert_ne].
    eexists. rewrite lookup_insert_eq. split; [done|]. by simplify_eq.
  - intros p q Hlive Hq. apply Hmono. by eapply nw_tree.
  - apply Hmono, (nw_root s Hwf).
  - intros id' [r' [[<- <-]|[Hne Hr']]%lookup_insert_Some]; eapply nw_issued; try done; by eexists.
Qed.

(** ** Hard links *)

Lemma attach_path_Ok s id path r s' :
  attach_path s id path = Ok (r, s') →
  ∃ old, nst_objects s !! id = Some old ∧ no_kind old ≠ Directory ∧ insert_path old path = Ok r ∧
    s' = nst_with_paths (set_object s id r) (<[path := id]> (nst_paths s)).
Proof.
  unfold attach_path. destruct (nst_objects s !! id) as [old|]; simpl; [|done].
  case_bool_decide; [done|]. destruct (insert_path old path) as [r'|] eqn:Hi; simpl; [|done].
  intros [= <- <-]. by exists old.
Qed.

Lemma attach_path_violation s id path : attach_path s id path ≠ Err Namespace_InvariantViolation.
Proof.
  unfold attach_path. destruct (nst_objects s !! id) as [old|]; simpl; [|done].
  case_bool_decide; [done|]. unfold insert_path. repeat case_match; done.
Qed.

Lemma attach_path_wf s id path r s' :
  NamespaceState_wf s → CanonicalPath_wf path → validate_new_path s path = Ok tt →
  attach_path s id path = Ok (r, s') → NamespaceState_wf s'.
Proof.
  intros Hwf Hpath (Hfree & q & Hq & Hdir)%validate_new_path_Ok; [|done].
  intros (old & Hold & Hkind & Hins & ->)%attach_path_Ok.
  destruct (nw_forward s Hwf _ _ Hold) as (Hid & Hrw & Hp).
  destruct (insert_path_ok _ _ _ Hrw Hins) as (Hnew & Hperm & Hsort & Hid' & Hk' & Ht' & Hc').
  set (s' := nst_with_paths _ _).
  assert (∀ p, live_directory s p → live_directory s' p) as Hmono.
  { intros p Hlive. eapply live_directory_mono; [done| |]; simpl.
    - intros p' i Hp'. rewrite lookup_insert_ne; [done|]. congruence.
    - intros i r' Hr'. destruct (decide (i = id)) as [->|Hne]; [|exists r'; by rewrite lookup_insert_ne].
      exists r. rewrite lookup_insert_eq. split; [done|]. congruence. }
  constructor; simpl.
  - intros i r' [[<- <-]|[Hne Hr']]%lookup_insert_Some.
    + split; [congruence|]. split.
      * eapply record_wf_paths; [exact Hrw|done| |by left|done..].
        rewrite Hperm. by constructor; [|apply rw_nodup].
      * intros p. rewrite Hperm. intros [->|Hin]%elem_of_cons; [apply lookup_insert_eq|].
        rewrite lookup_insert_ne; [by apply Hp|]. congruence.
    + destruct (nw_forward s Hwf _ _ Hr') as (? & ? & Hp'). split; [done|]. split; [done|].
      intros p Hin. rewrite lookup_insert_ne; [by apply Hp'|]. intros ->. apply Hp' in Hin. congruence.
  - intros p i [[<- <-]|[Hne Hp']]%lookup_insert_Some.
    + exists r. split; [apply lookup_insert_eq|]. rewrite Hperm. left.
    + destruct (nw_reverse s Hwf _ _ Hp') as (r' & Hr' & Hin).
      destruct (decide (i = id)) as [->|Hi]; [|exists r'; by rewrite lookup_insert_ne].
      exists r. rewrite lookup_insert_eq, Hperm. split; [done|]. right. by simplify_eq.
  - intros p [i [[<- <-]|[Hne Hp']]%lookup_insert_Some]; [done|]. eapply nw_canonical; [done|by eexists].
  - intros p q' [i [[<- <-]|[Hne Hp']]%lookup_insert_Some] Hpar; apply Hmono; [by simplify_eq|].
    eapply nw_tree; [done|by eexists|done].
  - apply Hmono, (nw_root s Hwf).
  - intros i [r' [[<- <-]|[Hne Hr']]%lookup_insert_Some]; eapply nw_issued; try done; by eexists.
  - apply (nw_next s Hwf).
  - apply (nw_generation s Hwf).
Qed.

(** ** Removal *)

Lemma parent_segments p q :
  CanonicalPath_parent p = Some q → ∃ x, cp_segments p = cp_segments q ++ [x].
Proof.
  unfold CanonicalPath_parent. destruct (cp_segments p) as [|s ss] eqn:Hs using rev_ind; [done|].
  destruct (ss ++ [s]) eqn:E; [by destruct ss|]. rewrite <- E. intros [= <-]. exists s. simpl.
  rewrite length_app. simpl. by rewrite Nat.add_sub, take_app_length.
Qed.

Lemma parent_below p q :
  CanonicalPath_parent p = Some q → CanonicalPath_is_at_or_below p q = true ∧ p ≠ q.
Proof.
  intros [x Hx]%parent_segments. unfold CanonicalPath_is_at_or_below. rewrite starts_with_spec, Hx.
  split; [by eexists|]. intros ->. apply (f_equal length) in Hx. rewrite length_app in Hx. simpl in Hx. lia.
Qed.

Lemma is_root_spec p : CanonicalPath_is_root p = true ↔ p = CanonicalPath_root.
Proof.
  unfold CanonicalPath_is_root. rewrite bool_decide_eq_true. split; [|by intros ->].
  intros. by apply cp_segments_inj.
Qed.

(** What [plan_remove] does when it succeeds on a live record. *)
Lemma plan_remove_Ok s id r path s' :
  NamespaceState_wf s → nst_objects s !! id = Some r → plan_remove s r path = Ok s' →
  path ∈ no_paths r ∧ path ≠ CanonicalPath_root ∧
  (nst_generation s + 1 < u64_limit)%N ∧
  ((no_aliases r = [] ∧ no_primary r = path ∧ no_open_handle_count r = 0%N ∧
    (∀ p, is_Some (nst_paths s !! p) → CanonicalPath_is_at_or_below p path = true → p = path) ∧
    s' = nst_with_generation (nst_with_objects (nst_with_paths s (delete path (nst_paths s)))
           (delete id (nst_objects s))) (nst_generation s + 1)) ∨
   (no_aliases r ≠ [] ∧ ∃ r', remove_path r path = Ok (Detached, r') ∧
    s' = nst_with_generation (set_object (nst_with_paths s (delete path (nst_paths s))) id r')
           (nst_generation s + 1))).
Proof.
  intros Hwf Hr. destruct (nw_forward s Hwf _ _ Hr) as (Hid & Hrw & Hp). unfold plan_remove.
  destruct (CanonicalPath_is_root path) eqn:Hroot; [done|].
  destruct (owns_path r path) eqn:Hown; [|done]. simpl. apply owns_path_spec in Hown as Hin.
  assert (path ≠ CanonicalPath_root) as Hnr by (rewrite <- is_root_spec; by rewrite Hroot).
  destruct (next_generation s) as [g|] eqn:Hg; [|repeat (case_match; simpl; try done)].
  apply next_generation_Ok in Hg as [-> Hlim].
  rewrite (Hp _ Hin), Hid, Hr.
  destruct (remove_path_ok r path Hrw Hin) as [(Ha & Hprim & Hrem)|(Ha & r' & Hrem & _)].
  - unfold is_aliased. rewrite Ha, bool_decide_eq_true_2 by done. simpl.
    destruct (N.eqb_spec (no_open_handle_count r) 0) as [Hc|]; simpl; [|done].
    destruct (existsb _ _) eqn:Hex; simpl; [done|]. rewrite Hrem. simpl. intros [= <-].
    split; [done|]. split; [done|]. split; [done|]. left.
    split; [done|]. split; [done|]. split; [done|]. split; [|done].
    intros p Hlive Hbelow. apply dec_stable. intros Hne.
    assert (existsb (λ candidate, negb (bool_decide (candidate = path))
              && CanonicalPath_is_at_or_below candidate path) (elements (dom (nst_paths s))) = true) as Hex'.
    { apply existsb_exists. exists p. rewrite <- list_elem_of_In, elem_of_elements, elem_of_dom.
      split; [done|]. by rewrite bool_decide_eq_false_2, Hbelow. }
    congruence.
  - unfold is_aliased. rewrite bool_decide_eq_false_2 by done. simpl. rewrite Hrem. simpl.
    intros [= <-]. split; [done|]. split; [done|]. split; [done|]. right. eauto.
Qed.

Lemma retire_wf s id r path :
  NamespaceState_wf s → nst_objects s !! id = Some r → path ∈ no_paths r → path ≠ CanonicalPath_root →
  no_aliases r = [] → no_primary r = path →
  (∀ p, is_Some (nst_paths s !! p) → CanonicalPath_is_at_or_below p path = true → p = path) →
  NamespaceState_wf (nst_with_objects (nst_with_paths s (delete path (nst_paths s)))
    (delete id (nst_objects s))).
Proof.
  intros Hwf Hr Hin Hroot Ha Hprim Hleaf. destruct (nw_forward s Hwf _ _ Hr) as (Hid & Hrw & Hp).
  set (s' := nst_with_objects _ _).
  assert (∀ p, live_directory s p → p ≠ path → live_directory s' p) as Hmono.
  { intros p (i & r' & Hpi & Hr' & Hk) Hne. exists i, r'. simpl. rewrite lookup_delete_ne by done.
    split; [done|]. rewrite lookup_delete_ne; [done|]. intros ->. simplify_eq.
    destruct (nw_reverse s Hwf _ _ Hpi) as (r'' & Hr'' & Hin''). simplify_eq.
    unfold no_paths in Hin''. rewrite Ha in Hin''. by apply list_elem_of_singleton in Hin''. }
  constructor; simpl.
  - intros i r' [Hne Hr']%lookup_delete_Some. destruct (nw_forward s Hwf _ _ Hr') as (? & ? & Hp').
    split; [done|]. split; [done|]. intros p Hpin. rewrite lookup_delete_ne; [by apply Hp'|].
    intros ->. apply Hp' in Hpin. rewrite (Hp _ Hin) in Hpin. by simplify_eq.
  - intros p i [Hne Hpi]%lookup_delete_Some. destruct (nw_reverse s Hwf _ _ Hpi) as (r' & Hr' & Hin').
    exists r'. split; [|done]. rewrite lookup_delete_ne; [done|]. intros ->. simplify_eq.
    unfold no_paths in Hin'. rewrite Ha in Hin'. apply list_elem_of_singleton in Hin'. congruence.
  - intros p [i [_ Hpi]%lookup_delete_Some]. eapply nw_canonical; [done|by eexists].
  - intros p q [i [Hne Hpi]%lookup_delete_Some] Hpar. apply Hmono.
    + eapply nw_tree; [done|by eexists|done].
    + intros ->. destruct (parent_below _ _ Hpar) as [Hbelow Hneq].
      by destruct Hneq; apply Hleaf; [eexists|].
  - apply Hmono; [apply (nw_root s Hwf)|done].
  - intros i [r' [_ Hr']%lookup_delete_Some]. eapply nw_issued; [done|by eexists].
  - apply (nw_next s Hwf).
  - apply (nw_generation s Hwf).
Qed.

Lemma detach_wf s id r path r' :
  NamespaceState_wf s → nst_objects s !! id = Some r → path ∈ no_paths r →
  no_aliases r ≠ [] → remove_path r path = Ok (Detached, r') →
  NamespaceState_wf (set_object (nst_with_paths s (delete path (nst_paths s))) id r').
Proof.
  intros Hwf Hr Hin Ha Hrem. destruct (nw_forward s Hwf _ _ Hr) as (Hid & Hrw & Hp).
  destruct (remove_path_ok r path Hrw Hin) as [(? & _)|(_ & r1 & Hr1 & Hperm & Hsort & Hid' & Hk & Ht & Hc)];
    [done|]. rewrite Hrem in Hr1. injection Hr1 as <-.
  assert (no_kind r ≠ Directory) as Hnd by (intros Hd; by apply rw_directory in Hd).
  assert (NoDup (path :: no_paths r')) as Hnodup by (rewrite <- Hperm; by apply rw_nodup).
  apply NoDup_cons in Hnodup as [Hout Hnodup].
  set (s' := set_object _ _ _).
  assert (∀ p, live_directory s p → live_directory s' p) as Hmono.
  { intros p (i & ri & Hpi & Hri & Hki). assert (i ≠ id) by (intros ->; congruence).
    exists i, ri. simpl. rewrite lookup_insert_ne by done. split; [|done].
    rewrite lookup_delete_ne; [done|]. intros ->. rewrite (Hp _ Hin) in Hpi. congruence. }
  constructor; simpl.
  - intros i ri [[<- <-]|[Hne Hri]]%lookup_insert_Some.
    + split; [congruence|]. split; [eapply record_wf_paths; [exact Hrw|..]; auto|].
      intros p Hpin. rewrite lookup_delete_ne; [|congruence]. apply Hp. rewrite Hperm. by right.
    + destruct (nw_forward s Hwf _ _ Hri) as (? & ? & Hpi). split; [done|]. split; [done|].
      intros p Hpin. rewrite lookup_delete_ne; [by apply Hpi|]. intros ->.
      apply Hpi in Hpin. rewrite (Hp _ Hin) in Hpin. by simplify_eq.
  - intros p i [Hne Hpi]%lookup_delete_Some. destruct (nw_reverse s Hwf _ _ Hpi) as (ri & Hri & Hini).
    destruct (decide (i = id)) as [->|Hi]; [|exists ri; by rewrite lookup_insert_ne].
    exists r'. rewrite lookup_insert_eq. split; [done|]. simplify_eq. rewrite Hperm in Hini.
    by apply elem_of_cons in Hini as [->|?].
  - intros p [i [_ Hpi]%lookup_delete_Some]. eapply nw_canonical; [done|by eexists].
  - intros p q [i [Hne Hpi]%lookup_delete_Some] Hpar. apply Hmono. eapply nw_tree; [done|by eexists|done].
  - apply Hmono, (nw_root s Hwf).
  - intros i [ri [[<- <-]|[Hne Hri]]%lookup_insert_Some]; eapply nw_issued; try done; by eexists.
  - apply (nw_next s Hwf).
  - apply (nw_generation s Hwf).
Qed.

Lemma plan_remove_wf s id r path s' :
  NamespaceState_wf s → nst_objects s !! id = Some r → plan_remove s r path = Ok s' → NamespaceState_wf s'.
Proof.
  intros Hwf Hr H. destruct (plan_remove_Ok _ _ _ _ _ Hwf Hr H)
    as (Hin & Hroot & Hg & [(Ha & Hprim & _ & Hleaf & ->)|(Ha & r' & Hrem & ->)]);
    apply with_generation_wf; try done.
  - by eapply retire_wf.
  - by eapply detach_wf.
Qed.

Lemma plan_remove_violation s id r path :
  NamespaceState_wf s → nst_objects s !! id = Some r → path ∈ no_paths r →
  plan_remove s r path ≠ Err Namespace_InvariantViolation.
Proof.
  intros Hwf Hr Hin. destruct (nw_forward s Hwf _ _ Hr) as (Hid & Hrw & Hp). unfold plan_remove.
  rewrite (proj2 (owns_path_spec r path) Hin). cbn [negb]. rewrite (Hp _ Hin), Hid.
  unfold next_generation. simpl. rewrite Hr. simpl.
  destruct (remove_path_ok r path Hrw Hin) as [(_ & _ & ->)|(_ & r' & -> & _)];
    repeat (case_match; simpl; try done); destruct (checked_next _); done.
Qed.

(** ** Planned mutations *)

Lemma child_path_Ok r name path :
  child_path r name = Ok path →
  no_kind r = Directory ∧ CanonicalPath_child (no_primary r) name = Ok path.
Proof.
  unfold child_path. case_bool_decide; [|done]. simpl. destruct (CanonicalPath_child _ _); [|done].
  by intros [= <-].
Qed.

Lemma child_path_violation r name : child_path r name ≠ Err Namespace_InvariantViolation.
Proof. unfold child_path. case_bool_decide; [|done]. simpl. by destruct (CanonicalPath_child _ _). Qed.

Lemma child_path_wf s id r name path :
  NamespaceState_wf s → nst_objects s !! id = Some r → child_path r name = Ok path → CanonicalPath_wf path.
Proof.
  intros Hwf Hr [_ Hc]%child_path_Ok. eapply CanonicalPath_child_wf; [|done].
  eapply nw_canonical; [done|]. eexists. eapply nw_forward; [done..|]. left.
Qed.

Lemma plan_create_wf s path spec object s' :
  NamespaceState_wf s → CanonicalPath_wf path → plan_create s path spec = Ok (object, s') → NamespaceState_wf s'.
Proof.
  intros Hwf Hpath. unfold plan_create. destruct (validate_new_path s path) as [[]|] eqn:Hv; [|done]. simpl.
  destruct (next_generation s) as [g|] eqn:Hg; [|done]. simpl. apply next_generation_Ok in Hg as [_ Hg].
  destruct (allocate_object s path spec) as [[o s1]|] eqn:Ha; [|done]. intros [= <- <-].
  apply with_generation_wf; [|done]. by eapply allocate_object_wf.
Qed.

Lemma plan_create_violation s path spec :
  NamespaceState_wf s → plan_create s path spec ≠ Err Namespace_InvariantViolation.
Proof.
  intros Hwf. unfold plan_create. pose proof (validate_new_path_violation s path Hwf) as Hv.
  destruct (validate_new_path s path) as [[]|]; [|by intros [= ->]]. simpl. unfold next_generation.
  destruct (checked_next _); [|done]. simpl. pose proof (allocate_object_violation s path spec Hwf) as Ha.
  destruct (allocate_object s path spec) as [[]|]; [done|by intros [= ->]].
Qed.

(** The child plan allocates, sets the initial open count and shows the result. *)
Lemma plan_create_child_Ok s parent name spec count pr object s' :
  plan_create_child s parent name spec count = Ok (pr, object, s') →
  ∃ path g o s1, nst_objects s !! parent = Some pr ∧ child_path pr name = Ok path ∧
    validate_new_path s path = Ok tt ∧ next_generation s = Ok g ∧ allocate_object s path spec = Ok (o, s1) ∧
    object = no_with_count o count ∧ nst_objects s' !! no_id o = Some object ∧
    s' = nst_with_generation (set_object s1 (no_id o) object) g.
Proof.
  unfold plan_create_child. destruct (nst_objects s !! parent) as [pr'|]; [|done]. simpl.
  destruct (child_path pr' name) as [path|] eqn:Hp; [|done]. simpl.
  destruct (validate_new_path s path) as [[]|] eqn:Hv; [|done]. simpl.
  destruct (next_generation s) as [g|] eqn:Hg; [|done]. simpl.
  destruct (allocate_object s path spec) as [[o s1]|] eqn:Ha; [|done]. cbn [mbind result_bind].
  assert (nst_objects s1 !! no_id o = Some o) as Ho.
  { apply allocate_object_Ok in Ha as (n & _ & -> & _ & -> & _). apply lookup_insert_eq. }
  assert (no_open_handle_count o = 0%N) as Hz.
  { by apply allocate_object_Ok in Ha as (n & _ & -> & _). }
  intros H. exists path, g, o, s1.
  assert (pr' = pr ∧ object = no_with_count o count ∧ s' = nst_with_generation (set_object s1 (no_id o) object) g)
    as (-> & -> & ->).
  { revert H. rewrite Ho. destruct (N.eqb_spec count 0) as [->|Hc]; unfold mbind, result_bind; simpl.
    - rewrite Ho. simpl. intros [= <- <- <-]. destruct o. simpl in *. subst. split; [done|]. split; [done|].
      unfold set_object. simpl. rewrite insert_id by done. by destruct s1.
    - rewrite lookup_insert_eq. simpl. intros [= <- <- <-]. done. }
  repeat split; try done. simpl. apply lookup_insert_eq.
Qed.

Lemma plan_create_child_wf s parent name spec count pr object s' :
  NamespaceState_wf s → (count < u64_limit)%N →
  plan_create_child s parent name spec count = Ok (pr, object, s') → NamespaceState_wf s'.
Proof.
  intros Hwf Hc (path & g & o & s1 & Hpr & Hpath & Hv & Hg & Ha & -> & Ho & ->)%plan_create_child_Ok.
  apply next_generation_Ok in Hg as [_ Hg]. apply with_generation_wf; [|done].
  assert (nst_objects s1 !! no_id o = Some o).
  { apply allocate_object_Ok in Ha as (n & _ & -> & _ & -> & _). apply lookup_insert_eq. }
  apply set_count_wf; [|done..]. eapply allocate_object_wf; [done| |done..]. by eapply child_path_wf.
Qed.

Lemma plan_create_child_violation s parent name spec count :
  NamespaceState_wf s → plan_create_child s parent name spec count ≠ Err Namespace_InvariantViolation.
Proof.
  intros Hwf. unfold plan_create_child. destruct (nst_objects s !! parent) as [pr|]; [|done]. simpl.
  pose proof (child_path_violation pr name) as Hcp. destruct (child_path pr name) as [path|];
    [|by intros [= ->]]. simpl.
  pose proof (validate_new_path_violation s path Hwf) as Hv.
  destruct (validate_new_path s path) as [[]|]; [|by intros [= ->]]. simpl. unfold next_generation.
  destruct (checked_next _); [|done]. simpl. pose proof (allocate_object_violation s path spec Hwf) as Ha.
  destruct (allocate_object s path spec) as [[o s1]|] eqn:E; [|by intros [= ->]].
  apply allocate_object_Ok in E as (k & _ & -> & _ & -> & _). cbn [mbind result_bind].
  unfold mbind, result_bind. simpl. rewrite lookup_insert_eq. simpl.
  destruct (count =? 0)%N; simpl; by rewrite lookup_insert_eq.
Qed.

Lemma plan_link_child_Ok s parent name source pr linked path s' :
  plan_link_child s parent name source = Ok (pr, linked, path, s') →
  ∃ g s1, nst_objects s !! parent = Some pr ∧ child_path pr name = Ok path ∧
    validate_new_path s path = Ok tt ∧ next_generation s = Ok g ∧
    attach_path s source path = Ok (linked, s1) ∧ s' = nst_with_generation s1 g.
Proof.
  unfold plan_link_child, child_path. destruct (nst_objects s !! parent) as [pr'|]; [|done]. simpl.
  case_bool_decide as Hk; [|done]. simpl. case_bool_decide; [|done]. simpl.
  destruct (CanonicalPath_child (no_primary pr') name) as [path'|] eqn:Hc; [|done]. simpl.
  destruct (validate_new_path s path') as [[]|] eqn:Hv; [|done]. simpl.
  destruct (next_generation s) as [g|] eqn:Hg; [|done]. simpl.
  destruct (attach_path s source path') as [[l s1]|] eqn:Ha; [|done]. intros [= <- <- <- <-].
  exists g, s1. rewrite bool_decide_eq_true_2 by done. simpl. by rewrite Hc.
Qed.

Lemma plan_link_child_wf s parent name source pr linked path s' :
  NamespaceState_wf s → plan_link_child s parent name source = Ok (pr, linked, path, s') → NamespaceState_wf s'.
Proof.
  intros Hwf (g & s1 & Hpr & Hp & Hv & Hg & Ha & ->)%plan_link_child_Ok.
  apply next_generation_Ok in Hg as [_ Hg]. apply with_generation_wf; [|done].
  eapply attach_path_wf; [done| |done..]. by eapply child_path_wf.
Qed.

Lemma plan_link_child_violation s parent name source :
  NamespaceState_wf s → plan_link_child s parent name source ≠ Err Namespace_InvariantViolation.
Proof.
  intros Hwf. unfold plan_link_child. destruct (nst_objects s !! parent) as [pr|]; [|done]. simpl.
  case_bool_decide; [|done]. simpl. case_bool_decide; [|done]. simpl.
  destruct (CanonicalPath_child (no_primary pr) name) as [path|]; [|done]. simpl.
  pose proof (validate_new_path_violation s path Hwf) as Hv.
  destruct (validate_new_path s path) as [[]|]; [|by intros [= ->]]. simpl. unfold next_generation.
  destruct (checked_next _); [|done]. simpl. pose proof (attach_path_violation s source path) as Ha.
  destruct (attach_path s source path) as [[]|]; [done|by intros [= ->]].
Qed.

Lemma plan_remove_object_Ok s object r s' :
  plan_remove_object s object = Ok (r, s') →
  nst_objects s !! object = Some r ∧ no_aliases r = [] ∧ plan_remove s r (no_primary r) = Ok s'.
Proof.
  unfold plan_remove_object. destruct (nst_objects s !! object) as [r'|]; [|done]. simpl.
  unfold is_aliased. case_bool_decide; [|done]. simpl.
  destruct (plan_remove s r' (no_primary r')) eqn:Hp; [|done]. by intros [= <- <-].
Qed.

Lemma plan_remove_object_violation s object :
  NamespaceState_wf s → plan_remove_object s object ≠ Err Namespace_InvariantViolation.
Proof.
  intros Hwf. unfold plan_remove_object. destruct (nst_objects s !! object) as [r|] eqn:Hr; [|done]. simpl.
  case_match; [done|]. pose proof (plan_remove_violation s object r (no_primary r) Hwf Hr) as Hv.
  destruct (plan_remove _ _ _); [done|]. intros [= ->]. apply Hv; [left|done].
Qed.

Lemma plan_remove_child_Ok s parent name pr child path s' :
  plan_remove_child s parent name = Ok (pr, child, path, s') →
  ∃ id, nst_objects s !! parent = Some pr ∧ child_path pr name = Ok path ∧ nst_paths s !! path = Some id ∧
    nst_objects s !! id = Some child ∧ plan_remove s child path = Ok s'.
Proof.
  unfold plan_remove_child. destruct (nst_objects s !! parent) as [pr'|]; [|done]. simpl.
  destruct (child_path pr' name) as [path'|] eqn:Hp; [|done]. simpl.
  destruct (nst_paths s !! path') as [id|] eqn:Hi; [|done]. simpl.
  destruct (nst_objects s !! id) as [c|] eqn:Hc; [|done]. simpl.
  destruct (plan_remove s c path') eqn:Hr; [|done]. intros [= <- <- <- <-]. by exists id.
Qed.

Lemma plan_remove_child_violation s parent name :
  NamespaceState_wf s → plan_remove_child s parent name ≠ Err Namespace_InvariantViolation.
Proof.
  intros Hwf. unfold plan_remove_child. destruct (nst_objects s !! parent) as [pr|]; [|done]. simpl.
  pose proof (child_path_violation pr name) as Hcp. destruct (child_path pr name) as [path|];
    [|by intros [= ->]]. simpl.
  destruct (nst_paths s !! path) as [id|] eqn:Hi; [|done]. simpl.
  destruct (live_object _ _ _ Hwf Hi) as (c & Hc & _ & _ & Hin). rewrite Hc. simpl.
  pose proof (plan_remove_violation s id c path Hwf Hc Hin) as Hv.
  destruct (plan_remove _ _ _); [done|by intros [= ->]].
Qed.

(** ** Import *)

Definition groups_live (s : NamespaceState) (groups : gmap AliasGroup ObjectId) : Prop :=
  ∀ g id, groups !! g = Some id → is_Some (nst_objects s !! id).

Lemma manifest_entry_wf s groups entry :
  NamespaceState_wf s → groups_live s groups → CanonicalPath_wf (me_path entry) →
  match manifest_entry (s, groups) entry with
  | Ok (s', groups') => NamespaceState_wf s' ∧ groups_live s' groups'
  | Err e => e ≠ Namespace_InvariantViolation
  end.
Proof.
  intros Hwf Hg Hp. unfold manifest_entry.
  pose proof (validate_new_path_violation s (me_path entry) Hwf) as Hv.
  destruct (validate_new_path s (me_path entry)) as [[]|] eqn:Hval; simpl; [|congruence].
  destruct (groups !! me_alias_group entry) as [id|] eqn:Hid.
  - destruct (Hg _ _ Hid) as [r Hr]. rewrite Hr. simpl. destruct (negb _ || negb _); [done|].
    pose proof (attach_path_violation s id (me_path entry)) as Ha.
    destruct (attach_path s id (me_path entry)) as [[r' s']|] eqn:Hat; simpl; [|congruence].
    split; [by eapply attach_path_wf|]. apply attach_path_Ok in Hat as (old & _ & _ & _ & ->).
    intros g i Hgi. destruct (Hg _ _ Hgi) as [ri Hri]. simpl.
    destruct (decide (i = id)) as [->|]; [by rewrite lookup_insert_eq|by rewrite lookup_insert_ne].
  - pose proof (allocate_object_violation s (me_path entry) (me_spec entry) Hwf) as Ha.
    destruct (allocate_object s _ _) as [[o s']|] eqn:Hal; simpl; [|congruence].
    split; [by eapply allocate_object_wf|]. apply allocate_object_Ok in Hal as (n & _ & -> & _ & -> & _).
    intros g i [[<- <-]|[_ Hgi]]%lookup_insert_Some; simpl; [by rewrite lookup_insert_eq|].
    destruct (decide (i = object_id n)) as [->|]; [by rewrite lookup_insert_eq|].
    rewrite lookup_insert_ne by done. by eapply Hg.
Qed.

Lemma manifest_entries_wf s groups entries :
  NamespaceState_wf s → groups_live s groups → Forall (λ e, CanonicalPath_wf (me_path e)) entries →
  match manifest_entries (s, groups) entries with
  | Ok (s', groups') => NamespaceState_wf s'
  | Err e => e ≠ Namespace_InvariantViolation
  end.
Proof.
  intros Hwf Hg Hall. revert s groups Hwf Hg. induction Hall as [|e entries He Hall IH]; intros s groups Hwf Hg;
    cbn [manifest_entries]; [done|].
  pose proof (manifest_entry_wf s groups e Hwf Hg He) as Hs.
  destruct (manifest_entry (s, groups) e) as [[s' groups']|err]; simpl; [|done].
  destruct Hs as [Hwf' Hg']. by apply IH.
Qed.

Lemma manifest_state_wf entries :
  Forall (λ e, CanonicalPath_wf (me_path e)) entries →
  match manifest_state entries with
  | Ok s => NamespaceState_wf s
  | Err e => e ≠ Namespace_InvariantViolation
  end.
Proof.
  intros Hall. destruct Hall as [|root rest Hr Hall]; simpl; [done|].
  destruct (negb _ || negb _); [done|].
  assert (groups_live with_root ∅) as Hg by (intros g' id Hg; by rewrite lookup_empty in Hg).
  pose proof (manifest_entries_wf with_root ∅ rest with_root_wf Hg Hall) as Hm.
  by destruct (manifest_entries _ _) as [[s g]|].
Qed.
