(* ===== verification/NamespaceRename.v ===== *)
(** * Renaming moves exactly one subtree

    [relocate] is the reference: the path obtained by replacing the leading
    [source] of a path by [destination].  The two loops of [rename_records] are
    shown to apply it to every live name and to nothing else, in whatever order
    the path index is iterated. *)

From S2P Require Import Order Prelude Bytes Path Capability State Symlink Namespace NamespaceInvariant.

Definition relocate (source destination p : CanonicalPath) : CanonicalPath :=
  match strip_prefix (cp_segments source) (cp_segments p) with
  | Some suffix => {| cp_segments := cp_segments destination ++ suffix |}
  | None => p
  end.

(** An object whose every name went through [f]. *)
Definition renamed (f : CanonicalPath → CanonicalPath) (r : NamespaceObject) : NamespaceObject :=
  match sort_paths (f <$> no_paths r) with
  | [] => r
  | primary :: aliases => no_with_paths r primary aliases
  end.

Abbreviation below := CanonicalPath_is_at_or_below.

Lemma below_iff p q : below p q = true ↔ ∃ suffix, cp_segments p = cp_segments q ++ suffix.
Proof. unfold CanonicalPath_is_at_or_below. by rewrite starts_with_spec. Qed.

Lemma relocate_below source destination p suffix :
  cp_segments p = cp_segments source ++ suffix →
  cp_segments (relocate source destination p) = cp_segments destination ++ suffix.
Proof. intros H%strip_prefix_Some. unfold relocate. by rewrite H. Qed.

Lemma relocate_id source destination p : below p source = false → relocate source destination p = p.
Proof.
  intros H. unfold relocate. destruct (strip_prefix _ _) as [suffix|] eqn:E; [|done].
  apply strip_prefix_Some in E. assert (below p source = true) by (apply below_iff; by eexists). congruence.
Qed.

Lemma rebase_relocate p source destination q :
  CanonicalPath_wf p → CanonicalPath_wf destination → CanonicalPath_rebase p source destination = Some q →
  q = relocate source destination p ∧ CanonicalPath_wf q.
Proof.
  intros Hp Hd (suffix & Hs & Hwf & Hq)%CanonicalPath_rebase_ok; [|done..]. split.
  - apply cp_segments_inj. by rewrite Hq, (relocate_below _ _ _ _ Hs).
  - unfold CanonicalPath_wf. by rewrite Hq.
Qed.

Lemma rebase_complete p source destination :
  CanonicalPath_wf p → CanonicalPath_wf destination → below p source = true →
  CanonicalPath_wf (relocate source destination p) →
  CanonicalPath_rebase p source destination = Some (relocate source destination p).
Proof.
  intros Hp Hd [suffix Hs]%below_iff Hw. apply CanonicalPath_rebase_ok; [done..|].
  exists suffix. rewrite (relocate_below _ _ _ _ Hs). split; [done|]. split; [|done].
  rewrite <- (relocate_below _ _ _ _ Hs). apply Hw.
Qed.

(** ** Renamed records *)

Lemma renamed_paths f r : no_paths (renamed f r) = sort_paths (f <$> no_paths r).
Proof.
  unfold renamed. destruct (sort_paths (f <$> no_paths r)) as [|a l] eqn:E; [|done].
  exfalso. apply (f_equal length) in E.
  rewrite (Permutation_length (sort_by_key_perm segments_cmp cp_segments _)), length_fmap in E. done.
Qed.

Lemma renamed_perm f r : no_paths (renamed f r) ≡ₚ f <$> no_paths r.
Proof. rewrite renamed_paths. apply sort_by_key_perm. Qed.

Lemma renamed_fields f r :
  no_id (renamed f r) = no_id r ∧ no_kind (renamed f r) = no_kind r ∧
  no_link_target (renamed f r) = no_link_target r ∧
  no_open_handle_count (renamed f r) = no_open_handle_count r.
Proof. unfold renamed. by case_match. Qed.

Lemma renamed_aliases f r : length (no_aliases (renamed f r)) = length (no_aliases r).
Proof.
  assert (length (no_paths (renamed f r)) = length (no_paths r)) as H
    by (rewrite (Permutation_length (renamed_perm f r)); apply length_fmap).
  unfold no_paths in H. simpl in H. lia.
Qed.

Lemma renamed_ext f g r : (∀ p, p ∈ no_paths r → f p = g p) → renamed f r = renamed g r.
Proof.
  intros H. unfold renamed. assert (f <$> no_paths r = g <$> no_paths r) as ->; [|done].
  apply list_fmap_ext. intros i p Hp%list_elem_of_lookup_2. by apply H.
Qed.

Lemma renamed_id r : record_wf r → renamed id r = r.
Proof.
  intros Hwf. unfold renamed. rewrite list_fmap_id, sort_paths_id by apply (rw_sorted r Hwf).
  by destruct r.
Qed.

(** [replace_path] on a record that was already renamed by [f] renames one more
    name. *)
Lemma replace_path_renamed f r p q :
  p ∈ no_paths r → f p = p → (∀ p', p' ∈ no_paths r → p' ≠ p → f p' ≠ p) →
  replace_path (renamed f r) p q = Ok (renamed (λ p', if bool_decide (p' = p) then q else f p') r).
Proof.
  intros Hin Hfix Hother. unfold replace_path.
  assert (owns_path (renamed f r) p = true) as ->.
  { rewrite owns_path_spec, renamed_perm. apply list_elem_of_fmap. by exists p. }
  cbn [negb]. cbv zeta.
  assert (sort_paths ((λ path, if bool_decide (path = p) then q else path) <$> no_paths (renamed f r)) =
          sort_paths ((λ p', if bool_decide (p' = p) then q else f p') <$> no_paths r)) as Hs.
  { apply sort_paths_ext. rewrite renamed_perm, <- list_fmap_compose.
    match goal with |- ?a ≡ₚ ?b => assert (a = b) as ->; [|done] end.
    apply list_fmap_ext. intros i x Hx%list_elem_of_lookup_2. simpl.
    destruct (decide (x = p)) as [->|Hne].
    - rewrite Hfix. by rewrite bool_decide_eq_true_2.
    - by rewrite !bool_decide_eq_false_2 by auto. }
  rewrite Hs. clear Hs. set (g := λ p', if bool_decide (p' = p) then q else f p').
  destruct (sort_paths (g <$> no_paths r)) as [|a l] eqn:E.
  - exfalso. pose proof (renamed_paths g r) as Hp. by rewrite E in Hp.
  - assert (renamed g r = no_with_paths r a l) as -> by (unfold renamed; by rewrite E).
    destruct (renamed_fields f r) as (Hi & Hk & Ht & Hc). unfold no_with_paths. by rewrite Hi, Hk, Ht, Hc.
Qed.

(** ** The first loop *)

Definition sources (moves : list NamespaceMove) : list CanonicalPath := nm_source <$> moves.

Lemma remove_sources_spec st moves :
  NoDup (sources moves) → (∀ p, p ∈ sources moves → is_Some (nst_paths st !! p)) →
  ∃ st', remove_sources st moves = Ok st' ∧ nst_objects st' = nst_objects st ∧
    nst_next_object_sequence st' = nst_next_object_sequence st ∧ nst_generation st' = nst_generation st ∧
    ∀ p, nst_paths st' !! p = if bool_decide (p ∈ sources moves) then None else nst_paths st !! p.
Proof.
  revert st. induction moves as [|m moves IH]; intros st Hn Hlive.
  - by exists st.
  - apply NoDup_cons in Hn as [Hm Hn]. simpl.
    destruct (Hlive (nm_source m)) as [id ->]; [left|]. simpl.
    destruct (IH (nst_with_paths st (delete (nm_source m) (nst_paths st)))) as (st' & -> & Ho & Hx & Hg & Hp);
      [done| |].
    + intros p Hp. simpl. rewrite lookup_delete_ne by set_solver. apply Hlive. by right.
    + exists st'. repeat split; [done..|]. intros p. rewrite Hp. simpl.
      destruct (decide (p = nm_source m)) as [->|Hne].
      * rewrite lookup_delete_eq, (bool_decide_eq_true_2 (_ ∈ sources (m :: moves))) by left. by case_match.
      * rewrite lookup_delete_ne by done.
        assert (bool_decide (p ∈ sources moves) = bool_decide (p ∈ sources (m :: moves))) as ->; [|done].
        apply bool_decide_ext. unfold sources. rewrite fmap_cons, elem_of_cons. naive_solver.
Qed.

(** ** The moved subtree *)

Section rename.
Context {HI : HashIter} (s : NamespaceState) (source destination : CanonicalPath).
Context (Hwf : NamespaceState_wf s) (Hsource : is_Some (nst_paths s !! source)).
Context (Hfree : nst_paths s !! destination = None) (Hinside : below destination source = false).

Abbreviation move := (relocate source destination).

(** Every ancestor of a live path is live. *)
Lemma live_ancestor p q : is_Some (nst_paths s !! p) → below p q = true → is_Some (nst_paths s !! q).
Proof.
  intros Hp [suffix Hs]%below_iff. revert p Hp Hs. induction suffix as [|x suffix IH] using rev_ind;
    intros p Hp Hs.
  - rewrite app_nil_r in Hs. apply cp_segments_inj in Hs as ->. done.
  - destruct (CanonicalPath_parent p) as [p'|] eqn:Hpar.
    + destruct (nw_tree s Hwf _ _ Hp Hpar) as (id & r & Hlive & _).
      apply (IH p'); [by eexists|]. destruct (parent_segments _ _ Hpar) as [y Hy].
      rewrite Hs, (assoc_L (++)) in Hy. by apply app_inj_tail in Hy as [-> _].
    + unfold CanonicalPath_parent in Hpar. rewrite Hs in Hpar.
      destruct (cp_segments q ++ suffix ++ [x]) eqn:E; [|done]. by destruct (cp_segments q), suffix.
Qed.

Lemma live_not_below_destination p : is_Some (nst_paths s !! p) → below p destination = false.
Proof.
  intros Hp. destruct (below p destination) eqn:Hb; [|done].
  destruct (live_ancestor _ _ Hp Hb) as [id Hid]. congruence.
Qed.

Lemma moved_below_destination p : below p source = true → below (move p) destination = true.
Proof. intros [suffix Hs]%below_iff. apply below_iff. exists suffix. by apply relocate_below. Qed.

Lemma moved_not_live p : below p source = true → nst_paths s !! move p = None.
Proof.
  intros Hb%moved_below_destination. destruct (nst_paths s !! move p) eqn:Hp; [|done].
  rewrite (live_not_below_destination (move p)) in Hb; [done|by eexists].
Qed.

Lemma move_inj p q :
  is_Some (nst_paths s !! p) → is_Some (nst_paths s !! q) → move p = move q → p = q.
Proof.
  intros Hp Hq H. destruct (below p source) eqn:Ep, (below q source) eqn:Eq.
  - apply below_iff in Ep as [sp Hsp], Eq as [sq Hsq].
    pose proof (relocate_below _ destination _ _ Hsp) as H1. rewrite H in H1.
    rewrite (relocate_below _ destination _ _ Hsq) in H1. apply app_inv_head in H1 as ->.
    apply cp_segments_inj. congruence.
  - apply moved_below_destination in Ep. rewrite H, (relocate_id _ _ q Eq) in Ep.
    by rewrite live_not_below_destination in Ep.
  - apply moved_below_destination in Eq. rewrite <- H, (relocate_id _ _ p Ep) in Eq.
    by rewrite live_not_below_destination in Eq.
  - by rewrite (relocate_id _ _ p Ep), (relocate_id _ _ q Eq) in H.
Qed.

(** ** The second loop

    [moved done] is [move] on the sources processed so far. *)

Definition moved (processed : list CanonicalPath) (p : CanonicalPath) : CanonicalPath :=
  if bool_decide (p ∈ processed) then move p else p.

(** A plan: its entries are distinct live names of the subtree with their objects. *)
Definition plan_ok (moves : list NamespaceMove) : Prop :=
  NoDup (sources moves) ∧
  Forall (λ m, below (nm_source m) source = true ∧ nst_paths s !! nm_source m = Some (nm_object m) ∧
               nm_destination m = move (nm_source m)) moves.

Record loop_inv (processed : list CanonicalPath) (st : NamespaceState) : Prop := {
  li_objects : ∀ id, nst_objects st !! id = renamed (moved processed) <$> nst_objects s !! id;
  li_paths : ∀ p id, nst_paths st !! p = Some id ↔
    (nst_paths s !! p = Some id ∧ below p source = false) ∨
    (∃ q, q ∈ processed ∧ nst_paths s !! q = Some id ∧ p = move q);
  li_next : nst_next_object_sequence st = nst_next_object_sequence s;
  li_generation : nst_generation st = nst_generation s;
}.

Lemma moved_other processed p q :
  Forall (λ q, below q source = true) processed → below p source = true →
  is_Some (nst_paths s !! q) → q ≠ p → moved processed q ≠ p.
Proof.
  intros Hall Hp Hq Hne. unfold moved. case_bool_decide as Hin; [|done]. intros <-.
  rewrite Forall_forall in Hall. apply Hall in Hin. apply moved_below_destination in Hin.
  apply below_iff in Hp as [sp Hsp], Hin as [sq Hsq].
  destruct Hsource as [id Hid].
  assert (below source destination = true ∨ below destination source = true) as [H|H].
  { rewrite Hsp in Hsq. rewrite !below_iff.
    destruct (prefix_weak_total (cp_segments source) (cp_segments destination)
      (cp_segments source ++ sp)) as [[k Hk]|[k Hk]]; [by eexists|by eexists|eauto..]. }
  - by rewrite live_not_below_destination in H.
  - congruence.
Qed.

Lemma loop_inv_start st :
  (∀ p, nst_paths st !! p = if below p source then None else nst_paths s !! p) →
  nst_objects st = nst_objects s → nst_next_object_sequence st = nst_next_object_sequence s →
  nst_generation st = nst_generation s → loop_inv [] st.
Proof.
  intros Hp Ho Hn Hg. constructor; [| |done..].
  - intros id. rewrite Ho. destruct (nst_objects s !! id) as [r|] eqn:Hr; simpl; [|done]. f_equal.
    symmetry. rewrite <- (renamed_id r) at 2 by eapply (nw_forward s Hwf), Hr.
    apply renamed_ext. done.
  - intros p id. rewrite Hp. destruct (below p source); split; try done.
    + intros [[_ ?]|(q & ?%not_elem_of_nil & _)]; done.
    + by left.
    + intros [[? _]|(q & ?%not_elem_of_nil & _)]; done.
Qed.

Lemma insert_step processed st m rest :
  loop_inv processed st → Forall (λ q, below q source = true) processed →
  nm_source m ∉ processed → below (nm_source m) source = true →
  nst_paths s !! nm_source m = Some (nm_object m) → nm_destination m = move (nm_source m) →
  (∀ q, q ∈ processed → is_Some (nst_paths s !! q)) →
  ∃ st', insert_destinations st (m :: rest) = insert_destinations st' rest ∧
    loop_inv (nm_source m :: processed) st'.
Proof.
  intros [Ho Hp Hn Hg] Hall Hfresh Hb Hid Hdest Hlive. simpl.
  destruct (nst_paths st !! nm_destination m) as [id|] eqn:Hd.
  { exfalso. rewrite Hdest in Hd. apply Hp in Hd as [[Hd _]|(q & Hq & Hqid & Heq)].
    - rewrite moved_not_live in Hd by done. done.
    - apply move_inj in Heq; [by subst|by eexists|by eexists]. }
  rewrite bool_decide_eq_false_2 by (by intros [? ?]).
  destruct (live_object _ _ _ Hwf Hid) as (r & Hr & Hrid & Hrw & Hin).
  rewrite Ho, Hr. cbn [fmap option_fmap option_map ok_or mbind result_bind].
  assert (∀ q, q ∈ no_paths r → is_Some (nst_paths s !! q)) as Hrlive.
  { intros q Hq. eexists. eapply nw_forward; [done..|exact Hq]. }
  unfold mbind, result_bind. cbn [option_map].
  rewrite replace_path_renamed.
  2: done. 2:{ unfold moved. by rewrite bool_decide_eq_false_2. }
  2:{ intros q Hq Hne. apply moved_other; auto. }
  eexists. split; [done|].
  assert (∀ q, (if bool_decide (q = nm_source m) then nm_destination m else moved processed q) =
               moved (nm_source m :: processed) q) as Hm.
  { intros q. unfold moved. destruct (decide (q = nm_source m)) as [->|Hne].
    - rewrite !bool_decide_eq_true_2; [done|by left|done].
    - rewrite (bool_decide_eq_false_2 (q = _)) by done.
      rewrite (bool_decide_ext (q ∈ nm_source m :: processed) (q ∈ processed)); [done|].
      rewrite elem_of_cons. naive_solver. }
  constructor; simpl; [| |done..].
  - intros id. destruct (decide (id = nm_object m)) as [->|Hne].
    + rewrite lookup_insert_eq, Hr. simpl. f_equal. by apply renamed_ext.
    + rewrite lookup_insert_ne, Ho by done. destruct (nst_objects s !! id) as [r'|] eqn:Hr'; [|done].
      simpl. f_equal. apply renamed_ext. intros q Hq. rewrite <- Hm.
      rewrite bool_decide_eq_false_2; [done|]. intros ->.
      assert (nst_paths s !! nm_source m = Some id) by (by eapply (nw_forward s Hwf)). congruence.
  - intros p id. destruct (decide (p = nm_destination m)) as [->|Hne].
    + rewrite lookup_insert_eq. split.
      * intros [= <-]. right. exists (nm_source m). split; [left|done].
      * intros [[Hl _]|(q & Hq & Hqid & Heq)].
        { rewrite Hdest, moved_not_live in Hl by done. done. }
        rewrite Hdest in Heq. apply move_inj in Heq; [|by eexists..]. congruence.
    + rewrite lookup_insert_ne, Hp by done. split.
      * intros [?|(q & Hq & ?)]; [by left|]. right. exists q. split; [by right|done].
      * intros [?|(q & Hq & Hqid & ->)]; [by left|]. right.
        apply elem_of_cons in Hq as [->|Hq]; [by rewrite Hdest in Hne|]. by exists q.
Qed.

Lemma insert_loop moves processed st :
  loop_inv processed st → Forall (λ q, below q source = true) processed →
  (∀ q, q ∈ processed → is_Some (nst_paths s !! q)) →
  NoDup (sources moves) → (∀ p, p ∈ sources moves → p ∉ processed) →
  Forall (λ m, below (nm_source m) source = true ∧ nst_paths s !! nm_source m = Some (nm_object m) ∧
               nm_destination m = move (nm_source m)) moves →
  ∃ st', insert_destinations st moves = Ok st' ∧ ∃ all, loop_inv all st' ∧ all ≡ₚ sources moves ++ processed.
Proof.
  revert processed st. induction moves as [|m moves IH]; intros processed st Hinv Hb Hlive Hn Hd Hall.
  { exists st. split; [done|]. by exists processed. }
  apply Forall_cons in Hall as [(Hm & Hid & Hdest) Hall]. apply NoDup_cons in Hn as [Hmn Hn].
  destruct (insert_step processed st m moves) as (st' & -> & Hinv'); [done..| | | | | |].
  { apply Hd. left. } 1-4: done.
  destruct (IH (nm_source m :: processed) st') as (st'' & Hst & all & Hall' & Hperm); [done|..].
  - by constructor.
  - intros q [->|Hq]%elem_of_cons; [by eexists|by apply Hlive].
  - done.
  - intros p Hp. rewrite not_elem_of_cons. split; [by intros ->|]. apply Hd. by right.
  - done.
  - exists st''. split; [done|]. exists all. split; [done|]. rewrite Hperm. unfold sources.
    rewrite fmap_cons. by rewrite <- Permutation_middle.
Qed.
End rename.

(** ** The published state *)

Record rename_result (s : NamespaceState) (source destination : CanonicalPath) (s' : NamespaceState)
    : Prop := {
  rr_objects : ∀ id, nst_objects s' !! id = renamed (relocate source destination) <$> nst_objects s !! id;
  rr_paths : ∀ p id, nst_paths s' !! p = Some id ↔
    ∃ q, nst_paths s !! q = Some id ∧ p = relocate source destination q;
  rr_next : nst_next_object_sequence s' = nst_next_object_sequence s;
  rr_generation : nst_generation s' = (nst_generation s + 1)%N;
}.

(** What [plan_rename] needs to succeed. *)
Record rename_allowed (s : NamespaceState) (source destination : CanonicalPath) : Prop := {
  ra_root : source ≠ CanonicalPath_root;
  ra_source : is_Some (nst_paths s !! source);
  ra_destination : nst_paths s !! destination = None;
  ra_inside : below destination source = false;
  ra_parent : ∃ q, CanonicalPath_parent destination = Some q ∧ live_directory s q;
  ra_closed : ∀ p id r, nst_paths s !! p = Some id → below p source = true → nst_objects s !! id = Some r →
    no_open_handle_count r = 0%N;
  ra_bounds : ∀ p, is_Some (nst_paths s !! p) → below p source = true →
    CanonicalPath_wf (relocate source destination p);
  ra_generation : (nst_generation s + 1 < u64_limit)%N;
}.

Lemma filter_fst_nodup {A B} (P : A * B → Prop) `{!∀ e, Decision (P e)} (l : list (A * B)) :
  NoDup l.*1 → NoDup (filter P l).*1.
Proof.
  induction l as [|[a b] l IH]; [done|]. rewrite fmap_cons. intros [Ha Hl]%NoDup_cons.
  rewrite filter_cons. destruct (decide _); [|by apply IH]. rewrite fmap_cons. constructor; [|by apply IH].
  intros ([a' b'] & Heq & Hin)%list_elem_of_fmap. apply list_elem_of_filter in Hin as [_ Hin].
  simpl in Heq. subst. apply Ha, list_elem_of_fmap. by exists (a', b').
Qed.

Section plan.
Context {HI : HashIter} (s : NamespaceState) (source destination : CanonicalPath).
Context (Hwf : NamespaceState_wf s) (Hcanonical : CanonicalPath_wf destination).

Abbreviation subtree := (filter (λ '(path, _), below path source = true) (hash_iter (nst_paths s))).

Lemma subtree_spec p id :
  (p, id) ∈ subtree ↔ nst_paths s !! p = Some id ∧ below p source = true.
Proof.
  rewrite list_elem_of_filter, hash_iter_perm, elem_of_map_to_list. naive_solver.
Qed.

Lemma subtree_nodup : NoDup subtree.*1.
Proof. rewrite hash_iter_perm. apply filter_fst_nodup, NoDup_fst_map_to_list. Qed.

Lemma plan_move_Ok p id m :
  nst_paths s !! p = Some id → plan_move s source destination (p, id) = Ok m →
  nm_source m = p ∧ nm_object m = id ∧ nm_destination m = relocate source destination p ∧
  CanonicalPath_wf (nm_destination m) ∧
  ∃ r, nst_objects s !! id = Some r ∧ no_open_handle_count r = 0%N ∧ nm_kind m = no_kind r ∧
    nm_expected_link_count m = expected_link_count r.
Proof.
  intros Hp. destruct (live_object _ _ _ Hwf Hp) as (r & Hr & Hid & _ & _). simpl. rewrite Hr. simpl.
  destruct (N.eqb_spec (no_open_handle_count r) 0) as [Hc|]; simpl; [|done].
  destruct (CanonicalPath_rebase p source destination) as [q|] eqn:Hq; simpl; [|done].
  apply rebase_relocate in Hq as [-> Hq]; [|eapply nw_canonical; [done|by eexists]|done].
  intros [= <-]. simpl. do 4 (split; [done|]). by exists r.
Qed.

(** The collected and sorted moves. *)
Lemma collected_plan_ok moves :
  collect (plan_move s source destination <$> subtree) = Ok moves →
  plan_ok s source destination (sort_by_key segments_cmp (λ m, cp_segments (nm_source m)) moves) ∧
  (∀ p, p ∈ sources moves ↔ is_Some (nst_paths s !! p) ∧ below p source = true) ∧
  (∀ p, is_Some (nst_paths s !! p) → below p source = true →
     CanonicalPath_wf (relocate source destination p)) ∧
  (∀ p id r, nst_paths s !! p = Some id → below p source = true → nst_objects s !! id = Some r →
     no_open_handle_count r = 0%N).
Proof.
  intros Hc%collect_Ok.
  assert (sources moves = subtree.*1) as Hsrc.
  { unfold sources. assert (∀ l, (∀ e, e ∈ l → nst_paths s !! e.1 = Some e.2) → ∀ ms,
      Forall2 (λ a b, plan_move s source destination a = Ok b) l ms → nm_source <$> ms = l.*1) as H.
    { intros l Hl ms. induction 1 as [|[p id] m l ms Hm Hms IH]; [done|]. rewrite !fmap_cons. f_equal.
      - apply plan_move_Ok in Hm as (-> & _); [done|]. apply (Hl (p, id)). left.
      - apply IH. intros e He. apply Hl. by right. }
    apply H; [|done]. intros [p id] [Hp _]%subtree_spec. done. }
  assert (∀ p id, nst_paths s !! p = Some id → below p source = true →
    ∃ m, m ∈ moves ∧ plan_move s source destination (p, id) = Ok m) as Hall.
  { intros p id Hp Hb. assert ((p, id) ∈ subtree) as [i Hi]%list_elem_of_lookup by (by apply subtree_spec).
    destruct (Forall2_lookup_l _ _ _ _ _ Hc Hi) as (m & Hm & Hpm). exists m. split; [|done].
    by eapply list_elem_of_lookup_2. }
  split; [split|split; [|split]].
  - unfold sources. rewrite sort_by_key_perm. fold (sources moves). rewrite Hsrc. apply subtree_nodup.
  - rewrite sort_by_key_perm. apply Forall_forall. intros m [i Hm]%list_elem_of_lookup.
    destruct (Forall2_lookup_r _ _ _ _ _ Hc Hm) as ([p id] & Hpi%list_elem_of_lookup_2 & Hpm).
    apply subtree_spec in Hpi as [Hp Hb]. apply plan_move_Ok in Hpm as (-> & -> & -> & _); done.
  - intros p. rewrite Hsrc, list_elem_of_fmap. split.
    + intros ([p' id] & -> & [? ?]%subtree_spec). by split; [eexists|].
    + intros [[id Hp] Hb]. exists (p, id). split; [done|]. by apply subtree_spec.
  - intros p [id Hp] Hb. destruct (Hall p id Hp Hb) as (m & _ & Hm).
    by apply plan_move_Ok in Hm as (_ & _ & <- & ? & _).
  - intros p id r Hp Hb Hr. destruct (Hall p id Hp Hb) as (m & _ & Hm).
    apply plan_move_Ok in Hm as (_ & _ & _ & _ & r' & Hr' & ? & _); [|done]. congruence.
Qed.
End plan.

Section outcome.
Context {HI : HashIter} (s : NamespaceState) (source destination : CanonicalPath).
Context (Hwf : NamespaceState_wf s) (Hcanonical : CanonicalPath_wf destination).

(** The loops succeed on every collected plan and compute [rename_result]. *)
Lemma rename_loops moves g :
  is_Some (nst_paths s !! source) → nst_paths s !! destination = None → below destination source = false →
  plan_ok s source destination moves →
  (∀ p, p ∈ sources moves ↔ is_Some (nst_paths s !! p) ∧ below p source = true) →
  g = (nst_generation s + 1)%N →
  ∃ st st', remove_sources s moves = Ok st ∧ insert_destinations st moves = Ok st' ∧
    rename_result s source destination (nst_with_generation st' g).
Proof.
  intros Hsrc Hdst Hin [Hnodup Hall] Hmem ->.
  destruct (remove_sources_spec s moves) as (st & Hst & Ho & Hx & Hg & Hp);
    [done|intros p Hp; by apply Hmem|].
  assert (loop_inv s source destination [] st) as Hinv.
  { apply loop_inv_start; try done. intros p. rewrite Hp. destruct (below p source) eqn:Hb.
    - destruct (nst_paths s !! p) as [id|] eqn:Hpid; [|by case_match].
      rewrite bool_decide_eq_true_2; [done|]. apply Hmem. by rewrite Hpid.
    - rewrite bool_decide_eq_false_2; [done|]. intros [_ ?]%Hmem. congruence. }
  destruct (insert_loop s source destination Hwf Hsrc Hdst Hin moves [] st Hinv)
    as (st' & Hst' & all & [Ho' Hp' Hn' Hg'] & Hperm);
    [done|by intros ? ?%not_elem_of_nil|done|by intros ? _ ?%not_elem_of_nil|done|].
  rewrite app_nil_r in Hperm.
  exists st, st'. split; [done|]. split; [done|].
  assert (∀ q, is_Some (nst_paths s !! q) → moved source destination all q = relocate source destination q) as Hm.
  { intros q Hq. unfold moved. case_bool_decide as Hqa; [done|]. rewrite relocate_id; [done|].
    destruct (below q source) eqn:Hb; [|done]. destruct Hqa. rewrite Hperm. by apply Hmem. }
  constructor; simpl; [| |done..].
  - intros id. rewrite Ho'. destruct (nst_objects s !! id) as [r|] eqn:Hr; [|done]. simpl. f_equal.
    apply renamed_ext. intros q Hq. apply Hm. eexists. by eapply (nw_forward s Hwf).
  - intros p id. rewrite Hp'. split.
    + intros [[Hpid Hb]|(q & _ & Hq & ->)]; [|by exists q]. exists p. by rewrite relocate_id.
    + intros (q & Hq & ->). destruct (below q source) eqn:Hb.
      * right. exists q. split; [|done]. rewrite Hperm. apply Hmem. by rewrite Hq.
      * left. by rewrite relocate_id.
Qed.

Lemma plan_rename_Ok plan s' :
  plan_rename s source destination = Ok (plan, s') →
  rename_allowed s source destination ∧ rename_result s source destination s' ∧
  rp_source plan = source ∧ rp_destination plan = destination ∧
  plan_ok s source destination (rp_moved_objects plan) ∧
  (∀ p, p ∈ sources (rp_moved_objects plan) ↔ is_Some (nst_paths s !! p) ∧ below p source = true).
Proof.
  unfold plan_rename. destruct (CanonicalPath_is_root source) eqn:Hroot; [done|].
  case_bool_decide as Hsrc; [|done]. cbn [negb]. case_bool_decide as Hdst; [done|].
  rewrite <- eq_None_not_Some in Hdst. destruct (below destination source) eqn:Hin; [done|].
  destruct (validate_parent s destination) as [[]|] eqn:Hpar; [|done].
  destruct (collect _) as [moves|] eqn:Hc; [|done].
  destruct (next_generation s) as [g|] eqn:Hg; [|done]. apply next_generation_Ok in Hg as [Hg Hlim].
  destruct (collected_plan_ok s source destination Hwf Hcanonical moves Hc) as (Hplan & Hmem & Hb & Hcl).
  set (sorted := sort_by_key _ _ moves) in *.
  assert (∀ p, p ∈ sources sorted ↔ is_Some (nst_paths s !! p) ∧ below p source = true) as Hmem'.
  { intros p. rewrite <- Hmem. unfold sources, sorted. by rewrite sort_by_key_perm. }
  destruct (rename_loops sorted g Hsrc Hdst Hin Hplan Hmem' Hg) as (st & st' & H1 & H2 & Hres).
  unfold mbind, result_bind. cbv beta zeta. fold sorted. rewrite H1. rewrite H2. intros [= <- <-].
  apply validate_parent_Ok in Hpar; [|done].
  split; [|done]. constructor; try done; [|lia]. rewrite <- is_root_spec. by rewrite Hroot.
Qed.

Lemma plan_rename_complete :
  rename_allowed s source destination → is_ok (plan_rename s source destination) = true.
Proof.
  intros [Hroot Hsrc Hdst Hin Hpar Hcl Hb Hlim]. unfold plan_rename.
  destruct (CanonicalPath_is_root source) eqn:E; [by apply is_root_spec in E|].
  rewrite bool_decide_eq_true_2 by done. cbn [negb].
  rewrite bool_decide_eq_false_2 by (rewrite Hdst; by intros [? ?]).
  rewrite Hin, (proj2 (validate_parent_Ok s destination Hwf) Hpar). cbn [mbind result_bind].
  unfold mbind, result_bind.
  destruct (collect _) as [moves|e] eqn:Hc.
  - unfold next_generation, checked_next. destruct (checked_add_u64 _ 1) as [g|] eqn:Hg; simpl.
    2:{ apply checked_add_u64_None in Hg. lia. }
    apply checked_add_u64_Some in Hg as [Hg _].
    destruct (collected_plan_ok s source destination Hwf Hcanonical moves Hc) as (Hplan & Hmem & _ & _).
    set (sorted := sort_by_key _ _ moves) in *.
    assert (∀ p, p ∈ sources sorted ↔ is_Some (nst_paths s !! p) ∧ below p source = true) as Hmem'.
    { intros p. rewrite <- Hmem. unfold sources, sorted. by rewrite sort_by_key_perm. }
    destruct (rename_loops sorted g Hsrc Hdst Hin Hplan Hmem' Hg) as (st & st' & H1 & H2 & _).
    cbv beta zeta. fold sorted. rewrite H1. by rewrite H2.
  - exfalso. apply collect_Err in Hc as ([p id] & [Hp Hbe]%subtree_spec & He).
    destruct (live_object _ _ _ Hwf Hp) as (r & Hr & _). simpl in He. rewrite Hr in He. simpl in He.
    rewrite (Hcl p id r Hp Hbe Hr) in He. simpl in He.
    rewrite rebase_complete in He; [done|eapply nw_canonical; [done|by eexists]|done..|].
    apply Hb; [by eexists|done].
Qed.

(** The only index-violation report of a well-formed registry: a rename that
    would push a descendant past the path bounds. *)
Lemma plan_rename_violation :
  plan_rename s source destination = Err Namespace_InvariantViolation →
  ∃ p, is_Some (nst_paths s !! p) ∧ below p source = true ∧
    ~ CanonicalPath_wf (relocate source destination p).
Proof.
  unfold plan_rename. destruct (CanonicalPath_is_root source) eqn:Hroot; [done|].
  case_bool_decide as Hsrc; [|done]. cbn [negb]. case_bool_decide as Hdst; [done|].
  rewrite <- eq_None_not_Some in Hdst. destruct (below destination source) eqn:Hin; [done|].
  pose proof (validate_parent_violation s destination Hwf) as Hpv.
  destruct (validate_parent s destination) as [[]|] eqn:Hpar; [|by intros [= ->]].
  unfold mbind, result_bind. destruct (collect _) as [moves|e] eqn:Hc.
  - destruct (next_generation s) as [g|] eqn:Hg.
    2:{ unfold next_generation in Hg. destruct (checked_next _); by simplify_eq/=. }
    apply next_generation_Ok in Hg as [Hg _].
    destruct (collected_plan_ok s source destination Hwf Hcanonical moves Hc) as (Hplan & Hmem & _ & _).
    set (sorted := sort_by_key _ _ moves) in *.
    assert (∀ p, p ∈ sources sorted ↔ is_Some (nst_paths s !! p) ∧ below p source = true) as Hmem'.
    { intros p. rewrite <- Hmem. unfold sources, sorted. by rewrite sort_by_key_perm. }
    destruct (rename_loops sorted g Hsrc Hdst Hin Hplan Hmem' Hg) as (st & st' & H1 & H2 & _).
    cbv beta zeta. fold sorted. rewrite H1. by rewrite H2.
  - intros [= ->]. apply collect_Err in Hc as ([p id] & [Hp Hbe]%subtree_spec & He).
    exists p. split; [by eexists|]. split; [done|]. intros Hw.
    destruct (live_object _ _ _ Hwf Hp) as (r & Hr & _). simpl in He. rewrite Hr in He. simpl in He.
    destruct (no_open_handle_count r =? 0)%N; [|done]. simpl in He.
    rewrite rebase_complete in He; [done|eapply nw_canonical; [done|by eexists]|done..].
Qed.
End outcome.

(** ** The renamed tree is well-formed *)

Section renamed_tree.
Context (s : NamespaceState) (source destination : CanonicalPath) (s' : NamespaceState).
Context (Hwf : NamespaceState_wf s) (Hallowed : rename_allowed s source destination).
Context (Hres : rename_result s source destination s').

Abbreviation move := (relocate source destination).

Lemma renamed_record_wf id r : nst_objects s !! id = Some r → record_wf (renamed move r).
Proof.
  intros Hr. destruct (nw_forward s Hwf _ _ Hr) as (_ & Hrw & Hp).
  destruct (renamed_fields move r) as (_ & Hk & Ht & Hc).
  eapply record_wf_paths; [exact Hrw| | | |done..].
  - rewrite renamed_paths. apply sort_by_key_sorted, _.
  - rewrite renamed_perm. apply NoDup_fmap_2_strong; [|by apply rw_nodup].
    intros p q Hpin Hqin. eapply move_inj; try apply Hallowed; [done|by rewrite (Hp _ Hpin)|by rewrite (Hp _ Hqin)].
  - destruct (decide (no_kind r = Directory)) as [Hd|Hd]; [right|by left].
    apply (rw_directory r Hrw) in Hd. pose proof (renamed_aliases move r) as Hl. rewrite Hd in Hl.
    by apply nil_length_inv.
Qed.

Lemma live_directory_move p : live_directory s p → live_directory s' (move p).
Proof.
  intros (id & r & Hp & Hr & Hk). exists id, (renamed move r). split; [|split].
  - apply (rr_paths _ _ _ _ Hres). by exists p.
  - by rewrite (rr_objects _ _ _ _ Hres), Hr.
  - by destruct (renamed_fields move r) as (_ & -> & _).
Qed.

(** The parent of a relocated path is the relocated parent, except at the top of
    the subtree, whose new parent is the destination's. *)
Lemma parent_move p q :
  is_Some (nst_paths s !! p) → CanonicalPath_parent (move p) = Some q →
  ∃ q', live_directory s q' ∧ move q' = q.
Proof.
  intros Hp Hpar. destruct (below p source) eqn:Hb.
  - apply below_iff in Hb as [suffix Hs].
    destruct suffix as [|x suffix _] using rev_ind.
    + rewrite app_nil_r in Hs. apply cp_segments_inj in Hs as ->.
      assert (move source = destination) as Hm.
      { apply cp_segments_inj. rewrite (relocate_below _ _ source []); by rewrite app_nil_r. }
      rewrite Hm in Hpar. destruct (ra_parent _ _ _ Hallowed) as (q' & Hq' & Hdir).
      rewrite Hq' in Hpar. injection Hpar as ->. exists q. split; [done|]. apply relocate_id.
      destruct (below q source) eqn:Hqs; [|done]. rewrite <- (ra_inside _ _ _ Hallowed). symmetry.
      eapply at_or_below_trans; [|exact Hqs]. by apply parent_below.
    + destruct (CanonicalPath_parent p) as [q'|] eqn:Hq'.
      2:{ unfold CanonicalPath_parent in Hq'. rewrite Hs in Hq'.
          destruct (cp_segments source ++ suffix ++ [x]) eqn:E; [|done]. by destruct (cp_segments source), suffix. }
      exists q'. split; [by eapply nw_tree|]. apply cp_segments_inj.
      destruct (parent_segments _ _ Hq') as [y Hy]. rewrite Hs, (assoc_L (++)) in Hy.
      apply app_inj_tail in Hy as [Hq's <-].
      rewrite (relocate_below _ _ q' suffix) by done.
      destruct (parent_segments _ _ Hpar) as [z Hz].
      rewrite (relocate_below _ _ p _ Hs), (assoc_L (++)) in Hz. by apply app_inj_tail in Hz as [<- _].
  - rewrite relocate_id in Hpar by done. exists q. split; [by eapply nw_tree|]. apply relocate_id.
    destruct (below q source) eqn:Hqs; [|done]. rewrite <- Hb. symmetry.
    eapply at_or_below_trans; [|exact Hqs]. by apply parent_below.
Qed.

Lemma rename_result_wf : NamespaceState_wf s'.
Proof.
  constructor.
  - intros id r Hr. rewrite (rr_objects _ _ _ _ Hres) in Hr.
    destruct (nst_objects s !! id) as [r0|] eqn:Hr0; [|done]. injection Hr as <-.
    destruct (nw_forward s Hwf _ _ Hr0) as (Hid & _ & Hp). destruct (renamed_fields move r0) as (Hi & _).
    split; [by rewrite Hi|]. split; [by eapply renamed_record_wf|].
    intros p. rewrite renamed_perm. intros (q & -> & Hq)%list_elem_of_fmap.
    apply (rr_paths _ _ _ _ Hres). exists q. split; [by apply Hp|done].
  - intros p id (q & Hq & ->)%(rr_paths _ _ _ _ Hres).
    destruct (nw_reverse s Hwf _ _ Hq) as (r & Hr & Hin). exists (renamed move r).
    rewrite (rr_objects _ _ _ _ Hres), Hr. split; [done|]. rewrite renamed_perm.
    apply list_elem_of_fmap. by exists q.
  - intros p [id (q & Hq & ->)%(rr_paths _ _ _ _ Hres)]. destruct (below q source) eqn:Hb.
    + apply (ra_bounds _ _ _ Hallowed); [by eexists|done].
    + rewrite relocate_id by done. eapply nw_canonical; [done|by eexists].
  - intros p q [id (p0 & Hp0 & ->)%(rr_paths _ _ _ _ Hres)] Hpar.
    destruct (parent_move p0 q) as (q' & Hdir & <-); [by eexists|done|]. by apply live_directory_move.
  - pose proof (live_directory_move _ (nw_root s Hwf)) as Hroot.
    rewrite relocate_id in Hroot; [done|]. destruct (below CanonicalPath_root source) eqn:Hb; [|done].
    apply below_iff in Hb as [suffix Hs]. destruct (ra_root _ _ _ Hallowed). apply cp_segments_inj.
    symmetry in Hs. by apply app_nil in Hs as [-> _].
  - intros id. rewrite (rr_objects _ _ _ _ Hres), (rr_next _ _ _ _ Hres). rewrite fmap_is_Some.
    apply (nw_issued s Hwf).
  - rewrite (rr_next _ _ _ _ Hres). apply (nw_next s Hwf).
  - rewrite (rr_generation _ _ _ _ Hres). apply (ra_generation _ _ _ Hallowed).
Qed.
End renamed_tree.
