(* ===== verification/NamespaceRegistry.v ===== *)
(** * The shared registry ([crates/capfs/src/namespace.rs], [NamespaceRegistry])

    The public operations: health checks, reads under the shared guard, and the
    mutations that stage a next state, run the executor and publish.  The poison
    flag stands for both locks, which a panicking writer poisons together; the
    executors modelled here return. *)

From S2P Require Import Order Prelude Bytes Path Capability State Symlink Namespace.

Record NamespaceRegistry := {
  nreg_poisoned : bool;
  nreg_state : NamespaceState;
  nreg_in_doubt : bool;
}.

Definition NamespaceRegistry_new : NamespaceRegistry :=
  {| nreg_poisoned := false; nreg_state := with_root; nreg_in_doubt := false |}.

Definition from_manifest (entries : list ManifestEntry) : NR NamespaceRegistry :=
  state ← manifest_state entries;
  Ok {| nreg_poisoned := false; nreg_state := state; nreg_in_doubt := false |}.

Definition nreg_publish (self : NamespaceRegistry) (state : NamespaceState) : NamespaceRegistry :=
  {| nreg_poisoned := nreg_poisoned self; nreg_state := state; nreg_in_doubt := nreg_in_doubt self |}.

Definition mark_in_doubt (self : NamespaceRegistry) : NamespaceRegistry :=
  {| nreg_poisoned := nreg_poisoned self; nreg_state := nreg_state self; nreg_in_doubt := true |}.

Definition ensure_operational (self : NamespaceRegistry) : NR unit :=
  if nreg_in_doubt self then Err RepositoryInDoubt else Ok tt.

Definition guard_state (self : NamespaceRegistry) : NR NamespaceState :=
  if nreg_poisoned self then Err Namespace_LockPoisoned else Ok (nreg_state self).

(** [read_operational_state] and [write_operational_state]. *)
Definition operational_state (self : NamespaceRegistry) : NR NamespaceState :=
  state ← guard_state self;
  _ ← ensure_operational self;
  Ok state.

(** ** Reads *)

Definition generation (self : NamespaceRegistry) : NR NamespaceGeneration :=
  state ← operational_state self; Ok (nst_generation state).

Definition object_count (self : NamespaceRegistry) : NR N :=
  state ← operational_state self; Ok (N.of_nat (size (nst_objects state))).

Definition object_snapshot (self : NamespaceRegistry) (object : ObjectId) : NR (option NamespaceObject) :=
  state ← operational_state self; Ok (nst_objects state !! object).

Definition object_at_path_snapshot (self : NamespaceRegistry) (path : CanonicalPath)
    : NR (option NamespaceObject) :=
  state ← operational_state self;
  Ok (id ← nst_paths state !! path; nst_objects state !! id).

Section operations.
Context {HI : HashIter} {T E : Type}.

Abbreviation OR A := (result (NamespaceOperationError E) A).

Definition with_object (self : NamespaceRegistry) (object : ObjectId)
    (operation : NamespaceObject → result E T) : OR T :=
  record ← map_err OpNamespace (state ← operational_state self;
                                ok_or (nst_objects state !! object) (UnknownObject object));
  map_err OpExecutor (operation record).

(** [with_object_mutation]: the same under the exclusive guard. *)
Definition with_object_mutation := with_object.

Definition with_child (self : NamespaceRegistry) (parent : ObjectId) (child_name : str)
    (operation : NamespaceObject → result E T) : OR T :=
  child ← map_err OpNamespace
    (state ← operational_state self;
     parent ← ok_or (nst_objects state !! parent) (UnknownObject parent);
     path ← child_path parent child_name;
     child_id ← ok_or (nst_paths state !! path) (UnknownPath path);
     ok_or (nst_objects state !! child_id) Namespace_InvariantViolation);
  map_err OpExecutor (operation child).

Definition directory_view (state : NamespaceState) (directory : ObjectId)
    (expected_generation : option NamespaceGeneration)
    : NR (NamespaceObject * NamespaceObject * list (CanonicalPath * NamespaceObject)) :=
  _ ← match expected_generation with
      | Some expected =>
          if negb (nst_generation state =? expected)%N
          then Err (DirectoryGenerationChanged expected (nst_generation state)) else Ok tt
      | None => Ok tt
      end;
  directory ← ok_or (nst_objects state !! directory) (UnknownObject directory);
  if negb (bool_decide (no_kind directory = Directory))
  then Err (ParentNotDirectory (no_primary directory))
  else
    parent ← parent_record state directory;
    children ← directory_children state directory;
    Ok (directory, parent, children).

Definition with_directory_children_checked (self : NamespaceRegistry) (directory : ObjectId)
    (expected_generation : option NamespaceGeneration)
    (operation : NamespaceObject → NamespaceObject → list (CanonicalPath * NamespaceObject) → result E T)
    : OR T :=
  '(directory, parent, children) ← map_err OpNamespace
    (state ← operational_state self; directory_view state directory expected_generation);
  map_err OpExecutor (operation directory parent children).

Definition with_directory_children self directory operation :=
  with_directory_children_checked self directory None operation.
Definition with_directory_children_at_generation self directory expected operation :=
  with_directory_children_checked self directory (Some expected) operation.

(** ** Mutations *)

Definition finish_namespace_mutation (self : NamespaceRegistry) (next_state : NamespaceState)
    (outcome : NamespaceExecutorOutcome T E) : OR T * NamespaceRegistry :=
  match outcome with
  | Committed value => (Ok value, nreg_publish self next_state)
  | FailedBeforeCommit e => (Err (OpExecutor e), self)
  | CommittedWithError e => (Err (OpExecutor e), mark_in_doubt (nreg_publish self next_state))
  end.

(** The common shape: exclusive guard, plan, executor, publication. *)
Definition mutate {P} (self : NamespaceRegistry) (plan : NamespaceState → NR (P * NamespaceState))
    (operation : P → NamespaceExecutorOutcome T E) : OR (P * T) * NamespaceRegistry :=
  match (state ← operational_state self; plan state) with
  | Err e => (Err (OpNamespace e), self)
  | Ok (shown, next_state) =>
      let '(r, self) := finish_namespace_mutation self next_state (operation shown) in
      (value ← r; Ok (shown, value), self)
  end.

(** [open_object_with_commit_outcome]: the count is raised before the executor
    runs and restored when the open does not stand. *)
Definition open_object_with_commit_outcome (self : NamespaceRegistry) (object : ObjectId)
    (operation : NamespaceObject → NamespaceExecutorOutcome T E) : OR T * NamespaceRegistry :=
  match (state ← operational_state self;
         record ← ok_or (nst_objects state !! object) (UnknownObject object);
         next_count ← ok_or (checked_add_u64 (no_open_handle_count record) 1)
                        (OpenHandleCountExhausted object);
         Ok (state, record, next_count)) with
  | Err e => (Err (OpNamespace e), self)
  | Ok (state, record, next_count) =>
      let opened := nreg_publish self (set_object state object (no_with_count record next_count)) in
      let restored :=
        nreg_publish self (set_object state object (no_with_count record (next_count - 1))) in
      match operation record with
      | Committed value => (Ok value, opened)
      | FailedBeforeCommit e => (Err (OpExecutor e), restored)
      | CommittedWithError e => (Err (OpExecutor e), mark_in_doubt restored)
      end
  end.

Definition open_object self object (operation : NamespaceObject → result E T) :=
  open_object_with_commit_outcome self object (λ record, outcome_of_result (operation record)).

Definition close_object_in_state (self : NamespaceRegistry) (state : NamespaceState) (object : ObjectId)
    (operation : NamespaceObject → result E T) : OR T * NamespaceRegistry :=
  match nst_objects state !! object with
  | None => (Err (OpNamespace (UnknownObject object)), self)
  | Some record =>
      if (no_open_handle_count record =? 0)%N then (Err (OpNamespace (NoOpenHandle object)), self)
      else
        let count := (no_open_handle_count record - 1)%N in
        match operation record with
        | Ok value => (Ok value, nreg_publish self (set_object state object (no_with_count record count)))
        | Err e =>
            (Err (OpExecutor e),
             nreg_publish self (set_object state object (no_with_count record (count + 1))))
        end
  end.

Definition close_object (self : NamespaceRegistry) (object : ObjectId)
    (operation : NamespaceObject → result E T) : OR T * NamespaceRegistry :=
  match operational_state self with
  | Err e => (Err (OpNamespace e), self)
  | Ok state => close_object_in_state self state object operation
  end.

(** The one mutation that a quarantined registry still accepts. *)
Definition close_object_for_cleanup (self : NamespaceRegistry) (object : ObjectId)
    (operation : NamespaceObject → result E T) : OR T * NamespaceRegistry :=
  match guard_state self with
  | Err e => (Err (OpNamespace e), self)
  | Ok state => close_object_in_state self state object operation
  end.

Record NamespaceObjectCreation := { noc_object : ObjectId; noc_value : T }.

Definition create_object_with_commit_outcome (self : NamespaceRegistry) (path : CanonicalPath)
    (spec : NamespaceObjectSpec) (operation : NamespaceObject → NamespaceExecutorOutcome T E)
    : OR NamespaceObjectCreation * NamespaceRegistry :=
  let '(r, self) := mutate self (λ state, plan_create state path spec) operation in
  ('(object, value) ← r; Ok {| noc_object := no_id object; noc_value := value |}, self).

Definition create_object self path spec (operation : NamespaceObject → result E T) :=
  create_object_with_commit_outcome self path spec (λ object, outcome_of_result (operation object)).

(** A child created open whose open failed after the commit is published closed. *)
Definition settle_open_child (outcome : NamespaceExecutorOutcome T E) (open_handle_count : N)
    (object : ObjectId) (next_state : NamespaceState) : NR NamespaceState :=
  match outcome with
  | CommittedWithError _ =>
      if negb (open_handle_count =? 0)%N then
        record ← ok_or (nst_objects next_state !! object) Namespace_InvariantViolation;
        Ok (set_object next_state object (no_with_count record 0))
      else Ok next_state
  | _ => Ok next_state
  end.

Definition create_child_with_open_count (self : NamespaceRegistry) (parent : ObjectId) (child_name : str)
    (spec : NamespaceObjectSpec) (open_handle_count : N)
    (operation : NamespaceObject → NamespaceObject → NamespaceExecutorOutcome T E)
    : OR NamespaceObjectCreation * NamespaceRegistry :=
  match (state ← operational_state self;
         '(parent, object, next_state) ← plan_create_child state parent child_name spec open_handle_count;
         let outcome := operation parent object in
         next_state ← settle_open_child outcome open_handle_count (no_id object) next_state;
         Ok (no_id object, outcome, next_state)) with
  | Err e => (Err (OpNamespace e), self)
  | Ok (object, outcome, next_state) =>
      let '(r, self) := finish_namespace_mutation self next_state outcome in
      (value ← r; Ok {| noc_object := object; noc_value := value |}, self)
  end.

Definition create_child_with_commit_outcome self parent child_name spec operation :=
  create_child_with_open_count self parent child_name spec 0 operation.
Definition create_child self parent child_name spec (operation : NamespaceObject → NamespaceObject → result E T) :=
  create_child_with_commit_outcome self parent child_name spec
    (λ parent child, outcome_of_result (operation parent child)).
Definition create_open_child_with_commit_outcome self parent child_name spec operation :=
  create_child_with_open_count self parent child_name spec 1 operation.
Definition create_open_child self parent child_name spec
    (operation : NamespaceObject → NamespaceObject → result E T) :=
  create_open_child_with_commit_outcome self parent child_name spec
    (λ parent child, outcome_of_result (operation parent child)).

Definition link_child_with_commit_outcome (self : NamespaceRegistry) (parent : ObjectId) (child_name : str)
    (source : ObjectId)
    (operation : NamespaceObject → NamespaceObject → CanonicalPath → NamespaceExecutorOutcome T E)
    : OR T * NamespaceRegistry :=
  let '(r, self) := mutate self (λ state, plan_link_child state parent child_name source)
    (λ '(parent, linked, path), operation parent linked path) in
  ('(_, value) ← r; Ok value, self).

Definition link_child self parent child_name source
    (operation : NamespaceObject → NamespaceObject → CanonicalPath → result E T) :=
  link_child_with_commit_outcome self parent child_name source
    (λ parent linked path, outcome_of_result (operation parent linked path)).

Definition remove_object_with_commit_outcome (self : NamespaceRegistry) (object : ObjectId)
    (operation : NamespaceObject → NamespaceExecutorOutcome T E) : OR T * NamespaceRegistry :=
  let '(r, self) := mutate self (λ state, plan_remove_object state object) operation in
  ('(_, value) ← r; Ok value, self).

Definition remove_object self object (operation : NamespaceObject → result E T) :=
  remove_object_with_commit_outcome self object (λ object, outcome_of_result (operation object)).

Definition remove_child_with_commit_outcome (self : NamespaceRegistry) (parent : ObjectId) (child_name : str)
    (operation : NamespaceObject → NamespaceObject → CanonicalPath → NamespaceExecutorOutcome T E)
    : OR T * NamespaceRegistry :=
  let '(r, self) := mutate self (λ state, plan_remove_child state parent child_name)
    (λ '(parent, child, path), operation parent child path) in
  ('(_, value) ← r; Ok value, self).

Definition remove_child self parent child_name
    (operation : NamespaceObject → NamespaceObject → CanonicalPath → result E T) :=
  remove_child_with_commit_outcome self parent child_name
    (λ parent child path, outcome_of_result (operation parent child path)).

Definition rename_subtree_with_commit_outcome (self : NamespaceRegistry) (source destination : CanonicalPath)
    (operation : RenamePlan → NamespaceExecutorOutcome T E) : OR T * NamespaceRegistry :=
  let '(r, self) := mutate self (λ state, plan_rename state source destination) operation in
  ('(_, value) ← r; Ok value, self).

Definition rename_subtree self source destination (operation : RenamePlan → result E T) :=
  rename_subtree_with_commit_outcome self source destination (λ plan, outcome_of_result (operation plan)).

Definition rename_child_with_commit_outcome (self : NamespaceRegistry) (source_parent : ObjectId)
    (source_name : str) (destination_parent : ObjectId) (destination_name : str)
    (operation : RenamePlan → NamespaceExecutorOutcome T E) : OR T * NamespaceRegistry :=
  let '(r, self) := mutate self
    (λ state, plan_rename_child state source_parent source_name destination_parent destination_name)
    operation in
  ('(_, value) ← r; Ok value, self).

Definition rename_child self source_parent source_name destination_parent destination_name
    (operation : RenamePlan → result E T) :=
  rename_child_with_commit_outcome self source_parent source_name destination_parent destination_name
    (λ plan, outcome_of_result (operation plan)).
End operations.
Arguments NamespaceObjectCreation T : clear implicits.
