(* ===== verification/NamespaceProps.v ===== *)
(** * What the registry promises

    The public mutations as one operation type, the abstract tree they act on, and
    the facts every step satisfies: the invariant, the refinement of the tree, the
    atomicity of publication, quarantine and the permanence of identities. *)

From S2P Require Import Order Prelude Bytes Path Capability State Symlink Namespace NamespaceInvariant NamespaceRename NamespaceRegistry.

Section props.
Context {HI : HashIter} {T E : Type}.

Inductive namespace_op :=
  | NOpen (object : ObjectId) (operation : NamespaceObject → NamespaceExecutorOutcome T E)
  | NClose (object : ObjectId) (operation : NamespaceObject → result E T)
  | NCleanup (object : ObjectId) (operation : NamespaceObject → result E T)
  | NCreate (path : CanonicalPath) (spec : NamespaceObjectSpec)
      (operation : NamespaceObject → NamespaceExecutorOutcome T E)
  | NCreateChild (parent : ObjectId) (name : str) (spec : NamespaceObjectSpec) (opened : bool)
      (operation : NamespaceObject → NamespaceObject → NamespaceExecutorOutcome T E)
  | NLink (parent : ObjectId) (name : str) (source : ObjectId)
      (operation : NamespaceObject → NamespaceObject → CanonicalPath → NamespaceExecutorOutcome T E)
  | NRemove (object : ObjectId) (operation : NamespaceObject → NamespaceExecutorOutcome T E)
  | NRemoveChild (parent : ObjectId) (name : str)
      (operation : NamespaceObject → NamespaceObject → CanonicalPath → NamespaceExecutorOutcome T E)
  | NRename (source destination : CanonicalPath) (operation : RenamePlan → NamespaceExecutorOutcome T E)
  | NRenameChild (source_parent : ObjectId) (source_name : str) (destination_parent : ObjectId)
      (destination_name : str) (operation : RenamePlan → NamespaceExecutorOutcome T E).

(** The value of an operation, with the identity a creation returns. *)
Abbreviation step_result := (result (NamespaceOperationError E) (option ObjectId * T)).

Definition plain {A} (p : result (NamespaceOperationError E) T * A) : step_result * A :=
  (value ← p.1; Ok (None, value), p.2).
Definition creation {A} (p : result (NamespaceOperationError E) (NamespaceObjectCreation T) * A)
    : step_result * A :=
  (c ← p.1; Ok (Some (noc_object c), noc_value c), p.2).

Definition namespace_step (op : namespace_op) (self : NamespaceRegistry) : step_result * NamespaceRegistry :=
  match op with
  | NOpen object operation => plain (open_object_with_commit_outcome self object operation)
  | NClose object operation => plain (close_object self object operation)
  | NCleanup object operation => plain (close_object_for_cleanup self object operation)
  | NCreate path spec operation => creation (create_object_with_commit_outcome self path spec operation)
  | NCreateChild parent name spec opened operation =>
      creation (if opened then create_open_child_with_commit_outcome self parent name spec operation
                else create_child_with_commit_outcome self parent name spec operation)
  | NLink parent name source operation =>
      plain (link_child_with_commit_outcome self parent name source operation)
  | NRemove object operation => plain (remove_object_with_commit_outcome self object operation)
  | NRemoveChild parent name operation =>
      plain (remove_child_with_commit_outcome self parent name operation)
  | NRename source destination operation =>
      plain (rename_subtree_with_commit_outcome self source destination operation)
  | NRenameChild sp sn dp dn operation =>
      plain (rename_child_with_commit_outcome self sp sn dp dn operation)
  end.

Fixpoint namespace_run (ops : list namespace_op) (self : NamespaceRegistry)
    : list step_result * NamespaceRegistry :=
  match ops with
  | [] => ([], self)
  | op :: ops =>
      let '(r, self) := namespace_step op self in
      let '(rs, self) := namespace_run ops self in
      (r :: rs, self)
  end.

(** Path arguments are values of the path type. *)
Definition op_wf (op : namespace_op) : Prop :=
  match op with
  | NCreate path _ _ => CanonicalPath_wf path
  | NRename _ destination _ => CanonicalPath_wf destination
  | _ => True
  end.

(** ** The abstract tree *)

Inductive tree_change :=
  | Keep
  | Attach (path : CanonicalPath) (id : ObjectId)
  | Detach (path : CanonicalPath)
  | Move (source destination : CanonicalPath).

Definition tree_changes (c : tree_change) (t t' : gmap CanonicalPath ObjectId) : Prop :=
  match c with
  | Keep => t' = t
  | Attach path id => t !! path = None ∧ t' = <[path := id]> t
  | Detach path => is_Some (t !! path) ∧ t' = delete path t
  | Move source destination =>
      ∀ p id, t' !! p = Some id ↔ ∃ q, t !! q = Some id ∧ p = relocate source destination q
  end.

(** The path of a child operation in a state, the root when there is none. *)
Definition child_of (s : NamespaceState) (parent : ObjectId) (name : str) : CanonicalPath :=
  match nst_objects s !! parent with
  | Some r => match child_path r name with Ok path => path | Err _ => CanonicalPath_root end
  | None => CanonicalPath_root
  end.

Definition op_change (s : NamespaceState) (op : namespace_op) : tree_change :=
  let fresh := match nst_next_object_sequence s with Some n => object_id n | None => [] end in
  match op with
  | NOpen _ _ | NClose _ _ | NCleanup _ _ => Keep
  | NCreate path _ _ => Attach path fresh
  | NCreateChild parent name _ _ _ => Attach (child_of s parent name) fresh
  | NLink parent name source _ => Attach (child_of s parent name) source
  | NRemove object _ =>
      Detach (match nst_objects s !! object with Some r => no_primary r | None => CanonicalPath_root end)
  | NRemoveChild parent name _ => Detach (child_of s parent name)
  | NRename source destination _ => Move source destination
  | NRenameChild sp sn dp dn _ => Move (child_of s sp sn) (child_of s dp dn)
  end.

Definition is_open (op : namespace_op) : bool := match op with NOpen _ _ => true | _ => false end.

(** What the executor answers when it is shown what the operation planned in [s]; [None] when
    the plan is refused and no executor runs. *)
Definition executor_answer (s : NamespaceState) (op : namespace_op) : option (NamespaceExecutorOutcome T E) :=
  let shown {P} (plan : NR (P * NamespaceState)) (operation : P → NamespaceExecutorOutcome T E) :=
    match plan with Ok (p, _) => Some (operation p) | Err _ => None end in
  match op with
  | NOpen object operation =>
      r ← nst_objects s !! object;
      if (no_open_handle_count r + 1 <? u64_limit)%N then Some (operation r) else None
  | NClose object operation | NCleanup object operation =>
      r ← nst_objects s !! object;
      if (no_open_handle_count r =? 0)%N then None else Some (outcome_of_result (operation r))
  | NCreate path spec operation => shown (plan_create s path spec) operation
  | NCreateChild parent name spec opened operation =>
      shown (plan_create_child s parent name spec (if opened then 1 else 0)%N) (λ '(p, child), operation p child)
  | NLink parent name source operation =>
      shown (plan_link_child s parent name source) (λ '(p, linked, path), operation p linked path)
  | NRemove object operation => shown (plan_remove_object s object) operation
  | NRemoveChild parent name operation =>
      shown (plan_remove_child s parent name) (λ '(p, child, path), operation p child path)
  | NRename source destination operation => shown (plan_rename s source destination) operation
  | NRenameChild sp sn dp dn operation => shown (plan_rename_child s sp sn dp dn) operation
  end.

(** The open-handle counts after a successful open or close. *)
Definition counted (op : namespace_op) (s s' : NamespaceState) : Prop :=
  match op with
  | NOpen object _ => ∃ r, nst_objects s !! object = Some r ∧
      nst_objects s' = <[object := no_with_count r (no_open_handle_count r + 1)]> (nst_objects s)
  | NClose object _ | NCleanup object _ => ∃ r, nst_objects s !! object = Some r ∧ (0 < no_open_handle_count r)%N ∧
      nst_objects s' = <[object := no_with_count r (no_open_handle_count r - 1)]> (nst_objects s)
  | _ => True
  end.

(** ** Facts of one transition between states *)

Record transition (s s' : NamespaceState) : Prop := {
  tr_wf : NamespaceState_wf s';
  tr_issued : ∀ id, issued (nst_next_object_sequence s) id → issued (nst_next_object_sequence s') id;
  tr_objects : ∀ id r', nst_objects s' !! id = Some r' →
    (∃ r, nst_objects s !! id = Some r ∧ no_kind r' = no_kind r ∧ no_link_target r' = no_link_target r) ∨
    ~ issued (nst_next_object_sequence s) id;
}.

Lemma transition_refl s : NamespaceState_wf s → transition s s.
Proof. intros Hwf. constructor; [done..|]. intros id r' Hr'. left. by exists r'. Qed.

Lemma transition_generation s s' g :
  transition s s' → (g < u64_limit)%N → transition s (nst_with_generation s' g).
Proof. intros [Hwf Hi Ho] Hg. constructor; [by apply with_generation_wf|done..]. Qed.

(** An update of one live record that keeps its kind and target. *)
Lemma objects_frame (s : NamespaceState) id r0 r1 :
  nst_objects s !! id = Some r0 → no_kind r1 = no_kind r0 → no_link_target r1 = no_link_target r0 →
  ∀ i r', <[id := r1]> (nst_objects s) !! i = Some r' →
    (∃ r, nst_objects s !! i = Some r ∧ no_kind r' = no_kind r ∧ no_link_target r' = no_link_target r) ∨
    ~ issued (nst_next_object_sequence s) i.
Proof. intros Hr Hk Ht i r' [[<- <-]|[_ Hi]]%lookup_insert_Some; left; eauto. Qed.

Lemma count_transition s id r count :
  NamespaceState_wf s → nst_objects s !! id = Some r → (count < u64_limit)%N →
  transition s (set_object s id (no_with_count r count)).
Proof.
  intros Hwf Hr Hc. constructor; [by apply set_count_wf|done|].
  by eapply (objects_frame s id r).
Qed.

Lemma allocate_transition s path spec object s' :
  NamespaceState_wf s → CanonicalPath_wf path → validate_new_path s path = Ok tt →
  allocate_object s path spec = Ok (object, s') →
  transition s s' ∧ ~ issued (nst_next_object_sequence s) (no_id object) ∧
  issued (nst_next_object_sequence s') (no_id object).
Proof.
  intros Hwf Hp Hv Ha. pose proof (allocate_object_wf _ _ _ _ _ Hwf Hp Hv Ha) as Hwf'.
  apply allocate_object_Ok in Ha as (n & Hn & -> & Hnew & -> & _).
  pose proof (nw_next s Hwf n Hn) as Hlim. split; [constructor; [done|..]|].
  - simpl. rewrite Hn. intros id Hid. by apply issued_mono.
  - simpl. intros id r' [[<- <-]|[_ Hi]]%lookup_insert_Some; [|left; eauto]. right. rewrite Hn. apply not_issued.
  - simpl. rewrite Hn. split; [apply not_issued|by apply issued_fresh].
Qed.

Lemma attach_transition s id path r s' :
  NamespaceState_wf s → CanonicalPath_wf path → validate_new_path s path = Ok tt →
  attach_path s id path = Ok (r, s') → transition s s'.
Proof.
  intros Hwf Hp Hv Ha. pose proof (attach_path_wf _ _ _ _ _ Hwf Hp Hv Ha) as Hwf'.
  apply attach_path_Ok in Ha as (old & Hold & _ & Hins & ->).
  destruct (nw_forward s Hwf _ _ Hold) as (_ & Hrw & _).
  destruct (insert_path_ok _ _ _ Hrw Hins) as (_ & _ & _ & _ & Hk & Ht & _).
  constructor; [done..|]. by eapply (objects_frame s id old).
Qed.

Lemma remove_transition s id r path s' :
  NamespaceState_wf s → nst_objects s !! id = Some r → plan_remove s r path = Ok s' →
  transition s s' ∧ is_Some (nst_paths s !! path) ∧ nst_paths s' = delete path (nst_paths s) ∧
  nst_generation s' = (nst_generation s + 1)%N.
Proof.
  intros Hwf Hr H. pose proof (plan_remove_wf _ _ _ _ _ Hwf Hr H) as Hwf'.
  destruct (nw_forward s Hwf _ _ Hr) as (_ & Hrw & Hp).
  destruct (plan_remove_Ok _ _ _ _ _ Hwf Hr H) as (Hin & _ & _ & Hcases).
  rewrite (Hp _ Hin). split; [|by destruct Hcases as [(_ & _ & _ & _ & ->)|(_ & r' & _ & ->)]].
  destruct Hcases as [(_ & _ & _ & _ & ->)|(Ha & r' & Hrem & ->)]; (constructor; [done|done|]).
  - simpl. intros i ri [_ Hi]%lookup_delete_Some. left. eauto.
  - destruct (remove_path_ok r path Hrw Hin) as [(? & _)|(_ & r1 & Hr1 & _ & _ & _ & Hk & Ht & _)]; [done|].
    rewrite Hrem in Hr1. injection Hr1 as <-. by eapply (objects_frame s id r).
Qed.

Lemma rename_transition s source destination plan s' :
  NamespaceState_wf s → CanonicalPath_wf destination → plan_rename s source destination = Ok (plan, s') →
  transition s s' ∧ tree_changes (Move source destination) (nst_paths s) (nst_paths s') ∧
  nst_generation s' = (nst_generation s + 1)%N.
Proof.
  intros Hwf Hd (Hallowed & Hres & _)%plan_rename_Ok; [|done..].
  split; [|split; [exact (rr_paths _ _ _ _ Hres)|apply (rr_generation _ _ _ _ Hres)]]. constructor.
  - by eapply rename_result_wf.
  - by rewrite (rr_next _ _ _ _ Hres).
  - intros id r'. rewrite (rr_objects _ _ _ _ Hres). destruct (nst_objects s !! id) as [r|]; [|done].
    intros [= <-]. left. exists r. split; [done|].
    by destruct (renamed_fields (relocate source destination) r) as (_ & -> & -> & _).
Qed.

(** ** The contract of one operation *)

Definition op_generation (c : tree_change) (g : NamespaceGeneration) : NamespaceGeneration :=
  match c with Keep => g | _ => (g + 1)%N end.

(** [next] is where [op] leads from [s]. *)
Definition landing (s : NamespaceState) (op : namespace_op) (created : option ObjectId)
    (next : NamespaceState) : Prop :=
  transition s next ∧ tree_changes (op_change s op) (nst_paths s) (nst_paths next) ∧
  nst_generation next = op_generation (op_change s op) (nst_generation s) ∧
  (∀ id, created = Some id →
     ~ issued (nst_next_object_sequence s) id ∧ issued (nst_next_object_sequence next) id) ∧
  counted op s next.

(** A rename that would put a live name of its subtree outside the path bounds. *)
Definition leaves_bounds (s : NamespaceState) (op : namespace_op) : Prop :=
  ∃ source destination p, op_change s op = Move source destination ∧
    is_Some (nst_paths s !! p) ∧ below p source = true ∧
    ~ CanonicalPath_wf (relocate source destination p).

(** The one case in which a consistent registry reports an inconsistency. *)
Definition refusal_ok (s : NamespaceState) (op : namespace_op) (e : NamespaceError) : Prop :=
  e = Namespace_InvariantViolation → leaves_bounds s op.

Definition is_cleanup (op : namespace_op) : bool := match op with NCleanup _ _ => true | _ => false end.

Definition healthy (self : NamespaceRegistry) (op : namespace_op) : Prop :=
  nreg_poisoned self = false ∧ (nreg_in_doubt self = false ∨ is_cleanup op = true).

Inductive step_spec (self : NamespaceRegistry) (op : namespace_op) : step_result → NamespaceRegistry → Prop :=
  | SRefused e :
      refusal_ok (nreg_state self) op e → (healthy self op → executor_answer (nreg_state self) op = None) →
      step_spec self op (Err (OpNamespace e)) self
  | SAborted e :
      healthy self op → executor_answer (nreg_state self) op = Some (FailedBeforeCommit e) →
      step_spec self op (Err (OpExecutor e)) self
  | SCommitted created value next :
      healthy self op → executor_answer (nreg_state self) op = Some (Committed value) →
      landing (nreg_state self) op created next →
      step_spec self op (Ok (created, value)) (nreg_publish self next)
  | SInDoubt e created next :
      healthy self op → executor_answer (nreg_state self) op = Some (CommittedWithError e) →
      is_cleanup op = false → is_open op = false → landing (nreg_state self) op created next →
      step_spec self op (Err (OpExecutor e)) (mark_in_doubt (nreg_publish self next))
  | SOpenInDoubt e :
      healthy self op → executor_answer (nreg_state self) op = Some (CommittedWithError e) → is_open op = true →
      step_spec self op (Err (OpExecutor e)) (mark_in_doubt self).

Lemma operational_cases self :
  (∃ e, operational_state self = Err e ∧ e ≠ Namespace_InvariantViolation ∧
     (nreg_poisoned self = true ∨ nreg_in_doubt self = true)) ∨
  (operational_state self = Ok (nreg_state self) ∧ nreg_poisoned self = false ∧ nreg_in_doubt self = false).
Proof.
  unfold operational_state, guard_state, ensure_operational.
  destruct (nreg_poisoned self); simpl; [left; eauto|]. destruct (nreg_in_doubt self); simpl; [left; eauto|by right].
Qed.

Lemma refusal_other s op e : e ≠ Namespace_InvariantViolation → refusal_ok s op e.
Proof. by intros He ?. Qed.

(** An operation that the flags of the registry stop. *)
Lemma refused_unhealthy self op e :
  nreg_poisoned self = true ∨ nreg_in_doubt self = true → is_cleanup op = false → e ≠ Namespace_InvariantViolation →
  step_spec self op (Err (OpNamespace e)) self.
Proof. intros Hf Hc He. apply SRefused; [by apply refusal_other|]. intros [? [?|?]]; destruct Hf; congruence. Qed.

Lemma publish_same self : nreg_publish self (nreg_state self) = self.
Proof. by destruct self. Qed.

(** Every plan-based mutation follows the contract its plan satisfies. *)
Lemma mutate_step {P} self op plan (operation : P → NamespaceExecutorOutcome T E) (created : P → option ObjectId) :
  (∀ e, plan (nreg_state self) = Err e → refusal_ok (nreg_state self) op e) →
  (∀ shown next, plan (nreg_state self) = Ok (shown, next) →
     landing (nreg_state self) op (created shown) next) →
  is_cleanup op = false → is_open op = false →
  executor_answer (nreg_state self) op =
    match plan (nreg_state self) with Ok (shown, _) => Some (operation shown) | Err _ => None end →
  step_spec self op ('(shown, value) ← (mutate self plan operation).1; Ok (created shown, value))
    (mutate self plan operation).2.
Proof.
  intros Hrefuse Hland Hclean Hopen Hans. unfold mutate.
  destruct (operational_cases self) as [(e & -> & He & Hf)|(-> & Hp & Hd)]; simpl; [by apply refused_unhealthy|].
  assert (healthy self op) as Hh by (split; [done|by left]).
  destruct (plan (nreg_state self)) as [[shown next]|e] eqn:Hplan; simpl; [|apply SRefused; auto].
  specialize (Hland _ _ eq_refl). destruct (operation shown) as [v|e|e] eqn:Hrep; simpl.
  - by apply SCommitted.
  - by apply SAborted.
  - by eapply SInDoubt.
Qed.

Lemma plan_create_landing s path spec operation object next :
  NamespaceState_wf s → CanonicalPath_wf path → plan_create s path spec = Ok (object, next) →
  landing s (NCreate path spec operation) (Some (no_id object)) next.
Proof.
  intros Hwf Hp. unfold plan_create. destruct (validate_new_path s path) as [[]|] eqn:Hv; [|done]. simpl.
  destruct (next_generation s) as [g|] eqn:Hg; [|done]. apply next_generation_Ok in Hg as [-> Hg]. simpl.
  destruct (allocate_object s path spec) as [[o s1]|] eqn:Ha; [|done]. intros [= <- <-].
  destruct (allocate_transition _ _ _ _ _ Hwf Hp Hv Ha) as (Htr & Hnew & Hiss).
  apply validate_new_path_Ok in Hv as [Hfree _]; [|done].
  apply allocate_object_Ok in Ha as (n & Hn & -> & _ & -> & _).
  split; [by apply transition_generation|]. simpl. rewrite Hn. split; [done|]. split; [done|]. split; [|done].
  intros id [= <-]. rewrite Hn in Hnew. done.
Qed.

Lemma child_of_Ok s parent pr name path :
  nst_objects s !! parent = Some pr → child_path pr name = Ok path → child_of s parent name = path.
Proof. intros Hp Hc. unfold child_of. by rewrite Hp, Hc. Qed.

Lemma plan_create_child_landing s parent name spec count opened operation pr object next :
  NamespaceState_wf s → (count < u64_limit)%N →
  plan_create_child s parent name spec count = Ok (pr, object, next) →
  ∀ count', (count' < u64_limit)%N →
  landing s (NCreateChild parent name spec opened operation) (Some (no_id object))
    (set_object next (no_id object) (no_with_count object count')) ∧
  nst_objects next !! no_id object = Some object ∧ no_with_count object count = object.
Proof.
  intros Hwf Hc (path & g & o & s1 & Hpr & Hpath & Hv & Hg & Ha & -> & Ho & ->)%plan_create_child_Ok count' Hc'.
  apply next_generation_Ok in Hg as [-> Hg].
  pose proof (child_path_wf _ _ _ _ _ Hwf Hpr Hpath) as Hp.
  destruct (allocate_transition _ _ _ _ _ Hwf Hp Hv Ha) as ([Hwf1 Hi1 Ho1] & Hnew & Hiss).
  apply validate_new_path_Ok in Hv as [Hfree _]; [|done].
  assert (nst_objects s1 !! no_id o = Some o) as Hlook.
  { apply allocate_object_Ok in Ha as (n & _ & -> & _ & -> & _). apply lookup_insert_eq. }
  split; [|done]. split; [constructor|split; [|split; [|split]]].
  - assert (set_object (nst_with_generation (set_object s1 (no_id o) (no_with_count o count)) (nst_generation s + 1))
      (no_id (no_with_count o count)) (no_with_count (no_with_count o count) count') =
      nst_with_generation (set_object s1 (no_id o) (no_with_count o count')) (nst_generation s + 1)) as ->.
    { unfold set_object, nst_with_objects, nst_with_generation. simpl. by rewrite insert_insert_eq. }
    apply with_generation_wf; [|done]. by apply set_count_wf.
  - done.
  - simpl. intros id r' [[<- <-]|[Hne [[<- <-]|[_ Hr']]%lookup_insert_Some]]%lookup_insert_Some; [by right..|].
    by apply Ho1.
  - simpl. rewrite (child_of_Ok _ _ _ _ _ Hpr Hpath).
    apply allocate_object_Ok in Ha as (n & Hn & -> & _ & -> & _). by rewrite Hn.
  - done.
  - intros id [= <-]. done.
  - done.
Qed.

Lemma create_child_step self parent name spec (opened : bool) operation :
  NamespaceState_wf (nreg_state self) →
  let op := NCreateChild parent name spec opened operation in
  step_spec self op (namespace_step op self).1 (namespace_step op self).2.
Proof.
  intros Hwf op. set (count := if opened then 1%N else 0%N).
  assert ((if opened then create_open_child_with_commit_outcome self parent name spec operation
           else create_child_with_commit_outcome self parent name spec operation) =
          create_child_with_open_count self parent name spec count operation) as Heq by by destruct opened.
  unfold op at 2 3. cbn [namespace_step]. rewrite Heq. clear Heq.
  assert (count < u64_limit)%N as Hc by by destruct opened.
  unfold create_child_with_open_count.
  destruct (operational_cases self) as [(e & -> & He & Hf)|(-> & Hp & Hd)]; simpl; [by apply refused_unhealthy|].
  assert (healthy self op) as Hh by (split; [done|by left]).
  pose proof (plan_create_child_violation (nreg_state self) parent name spec count Hwf) as Hviol.
  assert (executor_answer (nreg_state self) op = match plan_create_child (nreg_state self) parent name spec count with
    Ok (p, child, _) => Some (operation p child) | Err _ => None end) as Hans.
  { unfold op, count. cbn [executor_answer]. by destruct (plan_create_child _ _ _ _ _) as [[[]]|]. }
  destruct (plan_create_child _ _ _ _ _) as [[[pr object] next]|e] eqn:Hplan; simpl.
  2:{ apply SRefused; [apply refusal_other; congruence|done]. }
  pose proof (plan_create_child_landing _ _ _ _ _ opened operation _ _ _ Hwf Hc Hplan) as Hland.
  destruct (Hland count Hc) as (Hl & Hlook & Hsame).
  assert (set_object next (no_id object) object = next) as Hset.
  { unfold set_object. rewrite insert_id by done. by destruct next. }
  rewrite Hsame, Hset in Hl.
  destruct (operation pr object) as [v|e|e] eqn:Hrep; unfold settle_open_child; simpl.
  - by apply SCommitted.
  - by apply SAborted.
  - destruct (count =? 0)%N; simpl; [by eapply SInDoubt|].
    rewrite Hlook. simpl. eapply SInDoubt; [done..|]. apply (Hland 0%N). done.
Qed.

Lemma open_step self object operation :
  NamespaceState_wf (nreg_state self) →
  let op := NOpen object operation in
  step_spec self op (namespace_step op self).1 (namespace_step op self).2.
Proof.
  intros Hwf op. unfold op at 2 3. cbn [namespace_step]. unfold open_object_with_commit_outcome.
  destruct (operational_cases self) as [(e & -> & He & Hf)|(-> & Hp & Hd)]; simpl; [by apply refused_unhealthy|].
  assert (healthy self op) as Hh by (split; [done|by left]).
  assert (executor_answer (nreg_state self) op = (r ← nst_objects (nreg_state self) !! object;
    if (no_open_handle_count r + 1 <? u64_limit)%N then Some (operation r) else None)) as Hans by done.
  destruct (nst_objects (nreg_state self) !! object) as [r|] eqn:Hr; simpl in *; [|by apply SRefused; [apply refusal_other|]].
  destruct (checked_add_u64 (no_open_handle_count r) 1) as [n|] eqn:Hn; simpl.
  2:{ unfold checked_add_u64 in Hn. case_match; [done|]. by apply SRefused; [apply refusal_other|]. }
  apply checked_add_u64_Some in Hn as [-> Hlim]. rewrite (proj2 (N.ltb_lt _ _) Hlim) in Hans.
  assert (nreg_publish self (set_object (nreg_state self) object
    (no_with_count r (no_open_handle_count r + 1 - 1))) = self) as Hrestore.
  { rewrite N.add_sub. assert (no_with_count r (no_open_handle_count r) = r) as -> by by destruct r.
    unfold set_object. rewrite insert_id by done. destruct self as [? [] ?]. done. }
  rewrite Hrestore. destruct (operation r) as [v|e|e]; simpl.
  - apply SCommitted; [done|done|]. split; [by apply count_transition|].
    split; [done|]. split; [done|]. split; [done|]. by exists r.
  - by apply SAborted.
  - by apply SOpenInDoubt.
Qed.

Lemma close_step self op object operation :
  NamespaceState_wf (nreg_state self) → op = NClose object operation ∨ op = NCleanup object operation → healthy self op →
  step_spec self op (plain (close_object_in_state self (nreg_state self) object operation)).1
    (plain (close_object_in_state self (nreg_state self) object operation)).2.
Proof.
  intros Hwf Hop Hh. unfold close_object_in_state.
  assert (executor_answer (nreg_state self) op = (r ← nst_objects (nreg_state self) !! object;
    if (no_open_handle_count r =? 0)%N then None else Some (outcome_of_result (operation r)))) as Hans
    by by destruct Hop as [-> | ->].
  destruct (nst_objects (nreg_state self) !! object) as [r|] eqn:Hr; simpl in *; [|by apply SRefused; [apply refusal_other|]].
  destruct (N.eqb_spec (no_open_handle_count r) 0) as [|Hnz]; simpl; [by apply SRefused; [apply refusal_other|]|].
  destruct (nw_forward _ Hwf _ _ Hr) as (_ & Hrw & _). pose proof (rw_count r Hrw) as Hlim.
  assert (nreg_publish self (set_object (nreg_state self) object
    (no_with_count r (no_open_handle_count r - 1 + 1))) = self) as Hrestore.
  { rewrite N.sub_add by lia. assert (no_with_count r (no_open_handle_count r) = r) as -> by by destruct r.
    unfold set_object. rewrite insert_id by done. destruct self as [? [] ?]. done. }
  rewrite Hrestore. destruct (operation r) as [v|e]; simpl.
  - apply SCommitted; [done|done|]. unfold landing.
    assert (op_change (nreg_state self) op = Keep) as -> by by destruct Hop as [-> | ->].
    split; [apply count_transition; [done..|lia]|]. split; [done|]. split; [done|]. split; [done|].
    assert (0 < no_open_handle_count r)%N by lia. destruct Hop as [-> | ->]; by exists r.
  - by apply SAborted.
Qed.

Lemma plain_mutate {P} (p : result (NamespaceOperationError E) (P * T) * NamespaceRegistry) :
  plain (let '(r, self) := p in ('(_, value) ← r; Ok value, self)) =
  ('(shown, value) ← p.1; Ok (None, value), p.2).
Proof. by destruct p as [[[]|] ?]. Qed.

Lemma rename_landing s op source destination plan next :
  NamespaceState_wf s → CanonicalPath_wf destination → op_change s op = Move source destination →
  plan_rename s source destination = Ok (plan, next) → landing s op None next.
Proof.
  intros Hwf Hd Hop H. destruct (rename_transition _ _ _ _ _ Hwf Hd H) as (Htr & Htree & Hg).
  unfold landing. rewrite Hop. do 4 (split; [done|]). by destruct op.
Qed.

Lemma rename_refusal s op source destination e :
  NamespaceState_wf s → CanonicalPath_wf destination → op_change s op = Move source destination →
  plan_rename s source destination = Err e → refusal_ok s op e.
Proof.
  intros Hwf Hd Hop H ->. destruct (plan_rename_violation _ _ _ Hwf Hd H) as (p & ? & ? & ?).
  by exists source, destination, p.
Qed.

Abbreviation step_ok self op := (step_spec self op (namespace_step op self).1 (namespace_step op self).2).

Lemma create_step self path spec f :
  NamespaceState_wf (nreg_state self) → CanonicalPath_wf path → step_ok self (NCreate path spec f).
Proof.
  intros Hwf Hp. cbn [namespace_step]. unfold create_object_with_commit_outcome.
  pose proof (mutate_step self (NCreate path spec f) (λ state, plan_create state path spec) f
    (λ object, Some (no_id object))) as H.
  destruct (mutate _ _ _) as [[[object v]|e] self']; apply H; simpl; try done.
  all: try (intros e' He'; apply refusal_other; intros ->; by apply (plan_create_violation _ path spec Hwf)).
  all: intros; by apply plan_create_landing.
Qed.

Lemma link_step self parent name source f :
  NamespaceState_wf (nreg_state self) → step_ok self (NLink parent name source f).
Proof.
  intros Hwf. cbn [namespace_step]. unfold link_child_with_commit_outcome. rewrite plain_mutate.
  apply (mutate_step _ _ _ _ (λ _, None)); [| |done|done|done].
  - intros e He. apply refusal_other. intros ->. by apply (plan_link_child_violation _ parent name source Hwf).
  - intros [[pr linked] path] next (g & s1 & Hpr & Hpath & Hv & Hg & Ha & ->)%plan_link_child_Ok.
    apply next_generation_Ok in Hg as [-> Hg].
    pose proof (child_path_wf _ _ _ _ _ Hwf Hpr Hpath) as Hpw.
    split; [by eapply transition_generation, Hg; eapply attach_transition|].
    simpl. rewrite (child_of_Ok _ _ _ _ _ Hpr Hpath).
    apply validate_new_path_Ok in Hv as [Hfree _]; [|done].
    by apply attach_path_Ok in Ha as (old & _ & _ & _ & ->).
Qed.

Lemma remove_step self object f : NamespaceState_wf (nreg_state self) → step_ok self (NRemove object f).
Proof.
  intros Hwf. cbn [namespace_step]. unfold remove_object_with_commit_outcome. rewrite plain_mutate.
  apply (mutate_step _ _ _ _ (λ _, None)); [| |done|done|done].
  - intros e He. apply refusal_other. intros ->. by apply (plan_remove_object_violation _ object Hwf).
  - intros r next (Hr & _ & Hrem)%plan_remove_object_Ok.
    destruct (remove_transition _ _ _ _ _ Hwf Hr Hrem) as (Htr & Hlive & Hpaths & Hg).
    split; [done|]. simpl. by rewrite Hr.
Qed.

Lemma remove_child_step self parent name f :
  NamespaceState_wf (nreg_state self) → step_ok self (NRemoveChild parent name f).
Proof.
  intros Hwf. cbn [namespace_step]. unfold remove_child_with_commit_outcome. rewrite plain_mutate.
  apply (mutate_step _ _ _ _ (λ _, None)); [| |done|done|done].
  - intros e He. apply refusal_other. intros ->. by apply (plan_remove_child_violation _ parent name Hwf).
  - intros [[pr child] path] next (id & Hpr & Hpath & Hid & Hchild & Hrem)%plan_remove_child_Ok.
    destruct (remove_transition _ _ _ _ _ Hwf Hchild Hrem) as (Htr & Hlive & Hpaths & Hg).
    split; [done|]. simpl. by rewrite (child_of_Ok _ _ _ _ _ Hpr Hpath).
Qed.

(** [rename_child] refuses its arguments or renames the two computed paths. *)
Lemma plan_rename_child_cases s sp sn dp dn f r :
  NamespaceState_wf s → plan_rename_child s sp sn dp dn = r →
  (∃ e, r = Err e ∧ e ≠ Namespace_InvariantViolation) ∨
  (∃ source destination, CanonicalPath_wf destination ∧ plan_rename s source destination = r ∧
     op_change s (NRenameChild sp sn dp dn f) = Move source destination).
Proof.
  intros Hwf. unfold plan_rename_child.
  destruct (nst_objects s !! sp) as [spr|] eqn:Hs; simpl; [|left; eauto].
  destruct (child_path spr sn) as [source|e] eqn:Hsc; simpl.
  2:{ intros <-. left. exists e. split; [done|]. intros ->. by apply (child_path_violation spr sn). }
  destruct (nst_objects s !! dp) as [dpr|] eqn:Hd; simpl; [|left; eauto].
  destruct (child_path dpr dn) as [destination|e] eqn:Hdc; simpl.
  2:{ intros <-. left. exists e. split; [done|]. intros ->. by apply (child_path_violation dpr dn). }
  intros <-. right. exists source, destination. split; [by eapply child_path_wf|]. split; [done|].
  by rewrite (child_of_Ok _ _ _ _ _ Hs Hsc), (child_of_Ok _ _ _ _ _ Hd Hdc).
Qed.

Lemma rename_child_step self sp sn dp dn f :
  NamespaceState_wf (nreg_state self) → step_ok self (NRenameChild sp sn dp dn f).
Proof.
  intros Hwf. cbn [namespace_step]. unfold rename_child_with_commit_outcome. rewrite plain_mutate.
  apply (mutate_step _ _ _ _ (λ _, None)); [| |done|done|done].
  - intros e He. destruct (plan_rename_child_cases _ _ _ _ _ f _ Hwf He)
      as [(e' & [= <-] & Hne)|(source & destination & Hdw & Hpl & Hopc)];
      [by apply refusal_other|by eapply rename_refusal].
  - intros plan next Hplan. destruct (plan_rename_child_cases _ _ _ _ _ f _ Hwf Hplan)
      as [(e' & [=] & _)|(source & destination & Hdw & Hpl & Hopc)]. by eapply rename_landing.
Qed.

(** Every public mutation of a consistent registry follows its contract. *)
Lemma namespace_step_spec op self : NamespaceState_wf (nreg_state self) → op_wf op → step_ok self op.
Proof.
  intros Hwf Hop. destruct op as [object f|object f|object f|path spec f|parent name spec opened f|
    parent name source f|object f|parent name f|source destination f|sp sn dp dn f].
  - by apply open_step.
  - cbn [namespace_step]. unfold close_object.
    destruct (operational_cases self) as [(e & -> & He & Hf)|(-> & Hp & Hd)]; [by apply refused_unhealthy|].
    apply close_step; [done|by left|]. split; [done|by left].
  - cbn [namespace_step]. unfold close_object_for_cleanup, guard_state.
    destruct (nreg_poisoned self) eqn:Hp; [|apply close_step; [done|by right|]; split; [done|by right]].
    cbn [plain fst snd]. apply SRefused; [by apply refusal_other|]. intros [Hq _]. congruence.
  - by apply create_step.
  - by apply create_child_step.
  - by apply link_step.
  - by apply remove_step.
  - by apply remove_child_step.
  - cbn [namespace_step]. unfold rename_subtree_with_commit_outcome. rewrite plain_mutate.
    apply (mutate_step _ _ _ _ (λ _, None)); [| |done|done|done].
    + intros e He. by eapply rename_refusal.
    + intros plan next Hplan. by eapply rename_landing.
  - by apply rename_child_step.
Qed.
End props.
Arguments namespace_op T E : clear implicits.
