(* ===== verification/NamespaceClaims.v ===== *)
(** * Theorems on the namespace registry

    The properties of the registry's public operations over arbitrary executors,
    arbitrary operation sequences and an arbitrary hash iteration order. *)

From S2P Require Import Order Prelude Bytes Path Capability State Symlink Namespace NamespaceInvariant NamespaceRename NamespaceRegistry NamespaceProps.

Section claims.
Context {HI : HashIter} {T E : Type}.

Lemma step_wf op (self : NamespaceRegistry) r self' :
  NamespaceState_wf (nreg_state self) → op_wf op → namespace_step (T:=T) (E:=E) op self = (r, self') →
  transition (nreg_state self) (nreg_state self').
Proof.
  intros Hwf Hop Hs. pose proof (namespace_step_spec op self Hwf Hop) as Hspec. rewrite Hs in Hspec.
  simpl in Hspec. destruct Hspec as [e _ _|e _ _|c v next _ _ [Htr _]|e c next _ _ _ _ [Htr _]|e _ _ _]; simpl; try done;
    by apply transition_refl.
Qed.

Lemma step_violation op (self : NamespaceRegistry) self' :
  NamespaceState_wf (nreg_state self) → op_wf op →
  namespace_step (T:=T) (E:=E) op self = (Err (OpNamespace Namespace_InvariantViolation), self') →
  leaves_bounds (nreg_state self) op.
Proof.
  intros Hwf Hop Hs. pose proof (namespace_step_spec op self Hwf Hop) as Hspec. rewrite Hs in Hspec.
  simpl in Hspec. inversion Hspec as [e Hr| | | |]; subst. by apply Hr.
Qed.

(** C16: the registry built from any accepted manifest of canonical paths stays a tree
    whose two indexes agree, under every sequence of operations and whatever the
    executors return; an operation reports an index violation only if it is a rename that
    would put a live name of its subtree outside the path bounds. *)
Theorem namespace_stays_consistent entries (ops : list (namespace_op T E)) self rs self' :
  Forall (λ e, CanonicalPath_wf (me_path e)) entries → Forall op_wf ops →
  from_manifest entries = Ok self → namespace_run ops self = (rs, self') →
  NamespaceState_wf (nreg_state self') ∧
  ∀ i op, ops !! i = Some op → rs !! i = Some (Err (OpNamespace Namespace_InvariantViolation)) →
    leaves_bounds (nreg_state (namespace_run (take i ops) self).2) op.
Proof.
  intros Hentries Hops Hm Hrun.
  assert (NamespaceState_wf (nreg_state self)) as Hwf.
  { pose proof (manifest_state_wf entries Hentries) as H. unfold from_manifest in Hm.
    destruct (manifest_state entries); [|done]. injection Hm as <-. done. }
  clear Hm Hentries. revert self rs Hwf Hrun. induction Hops as [|op ops Hop Hops IH]; intros self rs Hwf; simpl.
  - intros [= <- <-]. split; [done|]. by intros i op.
  - destruct (namespace_step op self) as [r self1] eqn:Hs.
    destruct (namespace_run ops self1) as [rs1 self2] eqn:Hr. intros [= <- <-].
    pose proof (tr_wf _ _ (step_wf _ _ _ _ Hwf Hop Hs)) as Hwf1.
    destruct (IH _ _ Hwf1 Hr) as [Hwf2 Hviol]. split; [done|].
    intros [|i] op'; simpl.
    + intros [= <-] [= ->]. exact (step_violation _ _ _ Hwf Hop Hs).
    + rewrite Hs. intros Ho Hv. specialize (Hviol i op' Ho Hv). by destruct (namespace_run (take i ops) self1).
Qed.

(** C15: one operation against the abstract tree of names.  An operation is refused, without
    any change, exactly when the registry does not accept it (poisoned, or quarantined and not
    a destruction-time close) or its plan fails.  Otherwise its executor decides: when it
    reports success, the operation performs exactly its change (attach one name, detach one
    name, relocate a subtree, or count one handle), structural changes advance the generation
    by one and the caller gets the executor's value; when it reports a failure before the
    commit, nothing changes; when it reports an error after the commit, the same change is
    published all the same (an open is undone instead) and the registry is quarantined. *)
Theorem namespace_refines_tree (op : namespace_op T E) self r self' :
  NamespaceState_wf (nreg_state self) → op_wf op → namespace_step op self = (r, self') →
  let s := nreg_state self in let s' := nreg_state self' in
  let changed := tree_changes (op_change s op) (nst_paths s) (nst_paths s') ∧
                 nst_generation s' = op_generation (op_change s op) (nst_generation s) ∧ counted op s s' in
  let accepted := negb (nreg_poisoned self) && (negb (nreg_in_doubt self) || is_cleanup op) in
  match (if accepted then executor_answer s op else None) with
  | None => (∃ e, r = Err (OpNamespace e)) ∧ self' = self
  | Some (Committed value) =>
      (∃ created, r = Ok (created, value)) ∧ changed ∧ nreg_in_doubt self' = nreg_in_doubt self
  | Some (FailedBeforeCommit e) => r = Err (OpExecutor e) ∧ self' = self
  | Some (CommittedWithError e) =>
      r = Err (OpExecutor e) ∧ nreg_in_doubt self' = true ∧ if is_open op then s' = s else changed
  end.
Proof.
  intros Hwf Hop Hs. pose proof (namespace_step_spec op self Hwf Hop) as Hspec. rewrite Hs in Hspec.
  cbv zeta. simpl in Hspec.
  assert (Hacc : healthy self op ↔ negb (nreg_poisoned self) && (negb (nreg_in_doubt self) || is_cleanup op) = true).
  { unfold healthy. destruct (nreg_poisoned self), (nreg_in_doubt self), (is_cleanup op); naive_solver. }
  destruct Hspec as [e _ Hn|e Hh Ha|c v next Hh Ha (_ & Ht & Hg & _ & Hc)|e c next Hh Ha _ Ho (_ & Ht & Hg & _ & Hc)|e Hh Ha Ho];
    try (rewrite (proj1 Hacc Hh), Ha; simpl).
  - destruct (negb (nreg_poisoned self) && _); [|eauto]. rewrite Hn by by apply Hacc. eauto.
  - done.
  - eauto 8.
  - rewrite Ho. done.
  - by rewrite Ho.
Qed.

(** C30: a quarantined registry never recovers: whatever runs on it, it stays in doubt,
    its tree and generation stay as they are, and every operation other than the
    destruction-time close is refused. *)
Theorem quarantine_is_permanent (ops : list (namespace_op T E)) self rs self' :
  NamespaceState_wf (nreg_state self) → Forall op_wf ops → nreg_in_doubt self = true →
  namespace_run ops self = (rs, self') →
  nreg_in_doubt self' = true ∧ nst_paths (nreg_state self') = nst_paths (nreg_state self) ∧
  nst_generation (nreg_state self') = nst_generation (nreg_state self) ∧
  ∀ i op, ops !! i = Some op → is_cleanup op = false → ∃ e, rs !! i = Some (Err (OpNamespace e)).
Proof.
  intros Hwf Hops. revert self rs Hwf. induction Hops as [|op ops Hop Hops IH]; intros self rs Hwf Hd; simpl.
  - intros [= <- <-]. do 3 (split; [done|]). by intros i op.
  - destruct (namespace_step op self) as [r self1] eqn:Hs.
    destruct (namespace_run ops self1) as [rs1 self2] eqn:Hr. intros [= <- <-].
    pose proof (tr_wf _ _ (step_wf _ _ _ _ Hwf Hop Hs)) as Hwf1.
    pose proof (namespace_step_spec op self Hwf Hop) as Hspec. rewrite Hs in Hspec. simpl in Hspec.
    assert (nreg_in_doubt self1 = true ∧ nst_paths (nreg_state self1) = nst_paths (nreg_state self) ∧
      nst_generation (nreg_state self1) = nst_generation (nreg_state self) ∧
      (is_cleanup op = false → ∃ e, r = Err (OpNamespace e))) as (Hd1 & Hp1 & Hg1 & Hr1).
    { destruct Hspec as [e _ _|e [_ [Hh|Hh]] _|c v next [_ [Hh|Hh]] _ (_ & Ht & Hg & _)|e c next [_ [Hh|Hh]] _ Hc|e [_ [Hh|Hh]] _ Hk];
        try congruence; simpl.
      - eauto.
      - repeat split; try done; congruence.
      - by destruct op.
      - repeat split; try done; congruence. }
    destruct (IH _ _ Hwf1 Hd1 Hr) as (Hd2 & Hp2 & Hg2 & Hall).
    split; [done|]. split; [congruence|]. split; [congruence|].
    intros [|i] op'; simpl; [|apply Hall]. intros [= <-] Hc. destruct (Hr1 Hc) as [e ->]. eauto.
Qed.

(** ** Identities over a history *)

Definition created_ids (rs : list (result (NamespaceOperationError E) (option ObjectId * T))) : list ObjectId :=
  omap (λ r, match r with Ok (created, _) => created | Err _ => None end) rs.

Lemma step_created op (self : NamespaceRegistry) id v self' :
  NamespaceState_wf (nreg_state self) → op_wf op → namespace_step (T:=T) (E:=E) op self = (Ok (Some id, v), self') →
  ~ issued (nst_next_object_sequence (nreg_state self)) id ∧
  issued (nst_next_object_sequence (nreg_state self')) id.
Proof.
  intros Hwf Hop Hs. pose proof (namespace_step_spec op self Hwf Hop) as Hspec. rewrite Hs in Hspec.
  simpl in Hspec. inversion Hspec as [| |c v' next _ _ (_ & _ & _ & Hc & _)| |]; subst. by apply Hc.
Qed.

Lemma run_history (ops : list (namespace_op T E)) self rs self' :
  NamespaceState_wf (nreg_state self) → Forall op_wf ops → namespace_run ops self = (rs, self') →
  NamespaceState_wf (nreg_state self') ∧
  (∀ id, issued (nst_next_object_sequence (nreg_state self)) id →
     issued (nst_next_object_sequence (nreg_state self')) id) ∧
  NoDup (created_ids rs) ∧
  (∀ id, id ∈ created_ids rs → ~ issued (nst_next_object_sequence (nreg_state self)) id) ∧
  (∀ id r', issued (nst_next_object_sequence (nreg_state self)) id →
     nst_objects (nreg_state self') !! id = Some r' →
     ∃ r, nst_objects (nreg_state self) !! id = Some r ∧ no_kind r' = no_kind r ∧
       no_link_target r' = no_link_target r).
Proof.
  intros Hwf Hops. revert self rs Hwf. induction Hops as [|op ops Hop Hops IH]; intros self rs Hwf; simpl.
  - intros [= <- <-]. split; [done|]. split; [done|]. split; [constructor|].
    split; [by intros id ?%not_elem_of_nil|eauto].
  - destruct (namespace_step op self) as [r self1] eqn:Hs.
    destruct (namespace_run ops self1) as [rs1 self2] eqn:Hr. intros [= <- <-].
    pose proof (step_wf _ _ _ _ Hwf Hop Hs) as [Hwf1 Hi1 Ho1].
    destruct (IH _ _ Hwf1 Hr) as (Hwf2 & Hi2 & Hn2 & Hc2 & Ho2).
    split; [done|]. split; [auto|].
    assert (created_ids (r :: rs1) = created_ids rs1 ∨
      ∃ id v, r = Ok (Some id, v) ∧ created_ids (r :: rs1) = id :: created_ids rs1) as Hcases.
    { unfold created_ids. destruct r as [[[id|] v]|e]; simpl; eauto. }
    split; [|split].
    + destruct Hcases as [->|(id & v & -> & ->)]; [done|]. constructor; [|done].
      destruct (step_created _ _ _ _ _ Hwf Hop Hs) as [_ Hiss]. intros Hin. by apply (Hc2 _ Hin).
    + intros id Hin Hiss. destruct Hcases as [Heq|(id' & v & -> & Heq)]; rewrite Heq in Hin.
      * by apply (Hc2 _ Hin), Hi1.
      * apply elem_of_cons in Hin as [->|Hin]; [|by apply (Hc2 _ Hin), Hi1].
        by destruct (step_created _ _ _ _ _ Hwf Hop Hs).
    + intros id r' Hiss Hr'. destruct (Ho2 id r' (Hi1 _ Hiss) Hr') as (r1 & Hr1 & Hk1 & Ht1).
      destruct (Ho1 id r1 Hr1) as [(r0 & Hr0 & Hk0 & Ht0)|]; [|done]. exists r0. split; [done|].
      split; congruence.
Qed.

(** Over any history: the identities returned by creations are pairwise distinct
    and none named an object before; an identity that is live at both ends was the
    same object throughout (same kind, same link target), since a retired identity
    never comes back. *)
Theorem object_identity_is_permanent (ops : list (namespace_op T E)) self rs self' :
  NamespaceState_wf (nreg_state self) → Forall op_wf ops → namespace_run ops self = (rs, self') →
  NoDup (created_ids rs) ∧
  (∀ id, id ∈ created_ids rs → nst_objects (nreg_state self) !! id = None) ∧
  (∀ id r', is_Some (nst_objects (nreg_state self) !! id) ∨
            issued (nst_next_object_sequence (nreg_state self)) id →
     nst_objects (nreg_state self') !! id = Some r' →
     ∃ r, nst_objects (nreg_state self) !! id = Some r ∧ no_kind r' = no_kind r ∧
       no_link_target r' = no_link_target r).
Proof.
  intros Hwf Hops Hrun. destruct (run_history _ _ _ _ Hwf Hops Hrun) as (_ & _ & Hn & Hc & Ho).
  split; [done|]. split.
  - intros id Hin. apply eq_None_not_Some. intros Hs%(nw_issued _ Hwf). by apply (Hc _ Hin).
  - intros id r' Hid. apply Ho. destruct Hid as [Hid|]; [by apply (nw_issued _ Hwf)|done].
Qed.
End claims.

(** ** Rename *)

Lemma collect_fmap {E A B} (f : A → result E B) (d : B) l r :
  collect (f <$> l) = Ok r → r = (λ a, match f a with Ok b => b | Err _ => d end) <$> l.
Proof.
  intros H%collect_Ok. induction H as [|a b l r Hab Hl IH]; [done|]. rewrite fmap_cons, Hab. by f_equal.
Qed.

(** Two iteration orders of the path index plan the same moves. *)
Lemma plan_order_independent (H1 H2 : HashIter) s source destination p1 s1 p2 s2 :
  NamespaceState_wf s → CanonicalPath_wf destination →
  @plan_rename H1 s source destination = Ok (p1, s1) → @plan_rename H2 s source destination = Ok (p2, s2) →
  p1 = p2 ∧ s1 = s2.
Proof.
  intros Hwf Hd Hp1 Hp2. split.
  - pose proof (plan_rename_Ok _ _ _ Hwf Hd _ _ Hp1) as (_ & _ & Hsrc & Hdst & [Hn1 _] & _).
    revert Hp1 Hp2. unfold plan_rename. repeat (case_match; [done|]).
    destruct (validate_parent s destination); [|done]. unfold mbind, result_bind.
    destruct (collect (plan_move s source destination <$> filter _ (@hash_iter H1 _))) as [m1|] eqn:Hc1; [|done].
    destruct (collect (plan_move s source destination <$> filter _ (@hash_iter H2 _))) as [m2|] eqn:Hc2; [|done].
    destruct (next_generation s); [|done]. cbv beta zeta.
    set (k1 := sort_by_key _ _ m1). set (k2 := sort_by_key _ _ m2).
    intros E1 E2.
    assert (p1 = {| rp_source := source; rp_destination := destination; rp_moved_objects := k1 |}) as ->.
    { destruct (remove_sources s k1) as [t|]; [|done]. destruct (insert_destinations t k1); by simplify_eq. }
    assert (p2 = {| rp_source := source; rp_destination := destination; rp_moved_objects := k2 |}) as ->.
    { destruct (remove_sources s k2) as [t|]; [|done]. destruct (insert_destinations t k2); by simplify_eq. }
    f_equal. apply sort_by_key_ext; [apply _| |].
    + set (d := {| nm_object := []; nm_source := source; nm_destination := source; nm_kind := Directory;
                   nm_expected_link_count := 0 |}).
      rewrite (collect_fmap _ d _ _ Hc1), (collect_fmap _ d _ _ Hc2).
      by rewrite (@hash_iter_perm H1), (@hash_iter_perm H2).
    + unfold rp_moved_objects, sources, k1 in Hn1. rewrite (sort_by_key_perm _ _ m1) in Hn1.
      intros x y Ha Hb Heq%cp_segments_inj.
      apply list_elem_of_lookup in Ha as [i Hi], Hb as [j Hj].
      assert (i = j) as ->; [|congruence]. eapply (NoDup_lookup _ _ _ (nm_source x) Hn1);
        rewrite list_lookup_fmap; [by rewrite Hi|by rewrite Hj, Heq].
  - destruct (plan_rename_Ok _ _ _ Hwf Hd _ _ Hp1) as (_ & [Ho1 Ht1 Hx1 Hg1] & _).
    destruct (plan_rename_Ok _ _ _ Hwf Hd _ _ Hp2) as (_ & [Ho2 Ht2 Hx2 Hg2] & _).
    assert (nst_objects s1 = nst_objects s2) as E1 by (apply map_eq; intros i; by rewrite Ho1, Ho2).
    assert (nst_paths s1 = nst_paths s2) as E2.
    { apply map_eq. intros p. apply option_eq. intros id. by rewrite Ht1, Ht2. }
    destruct s1, s2. simpl in *. congruence.
Qed.

(** C17: renaming succeeds exactly when the source is a live non-root path, the
    destination is free, outside the source and below a live directory, no object
    of the subtree is open, every relocated path fits the path bounds and the
    generation can advance.  Then every live name of the subtree, and no other, is
    relocated by replacing its leading source by the destination; objects keep
    their identity, kind, target and open count; the plan lists exactly those
    names; and neither the plan nor the published state depends on the iteration
    order of the index. *)
Theorem rename_moves_exactly_the_subtree (H1 H2 : HashIter) s source destination :
  NamespaceState_wf s → CanonicalPath_wf destination →
  (is_ok (@plan_rename H1 s source destination) = true ↔ rename_allowed s source destination) ∧
  (∀ plan s', @plan_rename H1 s source destination = Ok (plan, s') →
     rename_result s source destination s' ∧
     (∀ p, p ∈ sources (rp_moved_objects plan) ↔ is_Some (nst_paths s !! p) ∧ below p source = true) ∧
     @plan_rename H2 s source destination = Ok (plan, s')).
Proof.
  intros Hwf Hd.
  assert (∀ HI : HashIter, is_ok (@plan_rename HI s source destination) = true ↔ rename_allowed s source destination)
    as Hiff.
  { intros HI. split; [|by apply plan_rename_complete].
    destruct (plan_rename s source destination) as [[plan s']|] eqn:Hp; [|done]. intros _.
    by apply plan_rename_Ok in Hp as [? _]. }
  split; [apply Hiff|]. intros plan s' Hp.
  destruct (plan_rename_Ok _ _ _ Hwf Hd _ _ Hp) as (Hallowed & Hres & _ & _ & _ & Hmem).
  split; [done|]. split; [done|]. apply (Hiff H2) in Hallowed.
  destruct (@plan_rename H2 s source destination) as [[plan2 s2]|] eqn:Hp2; [|done].
  by destruct (plan_order_independent H1 H2 _ _ _ _ _ _ _ Hwf Hd Hp Hp2) as [-> ->].
Qed.

(** ** Directory streams *)

Lemma collected_children s (l : list (CanonicalPath * ObjectId)) children :
  collect ((λ '(path, id), object ← ok_or (nst_objects s !! id) Namespace_InvariantViolation;
              Ok (path, object)) <$> l) = Ok children →
  children.*1 = l.*1 ∧
  ∀ path object, (path, object) ∈ children ↔ ∃ i, (path, i) ∈ l ∧ nst_objects s !! i = Some object.
Proof.
  intros Hc%collect_Ok. induction Hc as [|[path i] [path' o] l' k Hab Hk' [IH1 IH2]].
  - split; [done|]. intros. split; [by intros ?%not_elem_of_nil|by intros (? & ?%not_elem_of_nil & _)].
  - destruct (nst_objects s !! i) as [r|] eqn:Hr; [|done]. simpl in Hab. injection Hab as <- <-.
    split; [by rewrite !fmap_cons, IH1|].
    intros p ob. rewrite elem_of_cons, IH2. setoid_rewrite elem_of_cons. naive_solver.
Qed.

Lemma parent_record_Ok s d :
  NamespaceState_wf s → is_Some (nst_paths s !! no_primary d) →
  ∃ parent, parent_record s d = Ok parent ∧
    ∀ q, CanonicalPath_parent (no_primary d) = Some q →
      no_kind parent = Directory ∧ nst_paths s !! q = Some (no_id parent).
Proof.
  intros Hwf Hlive. unfold parent_record.
  destruct (CanonicalPath_parent (no_primary d)) as [q|] eqn:Hq; [|by exists d].
  destruct (nw_tree s Hwf _ _ Hlive Hq) as (i & r & Hqi & Hr & Hrk).
  destruct (nw_forward s Hwf _ _ Hr) as (Hid & _). rewrite Hqi. simpl. rewrite Hr. exists r.
  split; [done|]. intros q' [= <-]. by rewrite Hid.
Qed.

(** A directory stream lists exactly the live names one level below the directory,
    each once, in increasing order of the name, with the object each name denotes;
    it never reports an index violation, and a stale generation is refused. *)
Theorem directory_listing_exact {HI : HashIter} s id expected :
  NamespaceState_wf s →
  match directory_view s id expected with
  | Ok (directory, parent, children) =>
      nst_objects s !! id = Some directory ∧ no_kind directory = Directory ∧
      (∀ g, expected = Some g → g = nst_generation s) ∧
      StronglySorted (key_le option_cmp (λ c, last (cp_segments c.1))) children ∧
      NoDup children.*1 ∧
      (∀ path object, (path, object) ∈ children ↔
         ∃ name i, cp_segments path = cp_segments (no_primary directory) ++ [name] ∧
           nst_paths s !! path = Some i ∧ nst_objects s !! i = Some object) ∧
      (∀ q, CanonicalPath_parent (no_primary directory) = Some q →
         no_kind parent = Directory ∧ nst_paths s !! q = Some (no_id parent))
  | Err e => e ≠ Namespace_InvariantViolation
  end.
Proof.
  intros Hwf. unfold directory_view.
  destruct (match expected with Some _ => _ | None => _ end) as [[]|e] eqn:Hexp; simpl.
  2:{ destruct expected; [|done]. destruct (negb _); by simplify_eq. }
  assert (∀ g, expected = Some g → g = nst_generation s) as Hgen.
  { intros g ->. destruct (N.eqb_spec (nst_generation s) g); by simplify_eq/=. }
  destruct (nst_objects s !! id) as [d|] eqn:Hd; simpl; [|done].
  case_bool_decide as Hk; simpl; [|done].
  destruct (nw_forward s Hwf _ _ Hd) as (_ & _ & Hdp).
  assert (nst_paths s !! no_primary d = Some id) as Hprim by (apply Hdp; left).
  destruct (parent_record_Ok s d Hwf ltac:(by rewrite Hprim)) as (parent & -> & Hpar).
  unfold directory_children. simpl.
  set (l := filter _ (hash_iter (nst_paths s))).
  assert (∀ path i, (path, i) ∈ l ↔ nst_paths s !! path = Some i ∧
    ∃ name, cp_segments path = cp_segments (no_primary d) ++ [name]) as Hl.
  { intros path i. unfold l. rewrite list_elem_of_filter, hash_iter_perm, elem_of_map_to_list.
    split; [intros [Hf Hp]; split; [done|]|intros [Hp [name Hn]]; split; [|done]].
    - apply andb_true_iff in Hf as [Hlen%bool_decide_eq_true [suffix Hs]%below_iff].
      rewrite Hs, length_app in Hlen. destruct suffix as [|name []]; simpl in Hlen; try lia. by exists name.
    - apply andb_true_iff. rewrite bool_decide_eq_true, below_iff, Hn, length_app. simpl.
      split; [lia|by eexists]. }
  destruct (collect _) as [children|e] eqn:Hc.
  2:{ apply collect_Err in Hc as ([path i] & [Hp _]%Hl & He).
      destruct (live_object _ _ _ Hwf Hp) as (r & Hr & _). simpl in He. by rewrite Hr in He. }
  destruct (collected_children _ _ _ Hc) as [Hfst Hmem].
  simpl. split; [done|]. split; [done|]. split; [done|]. split; [apply sort_by_key_sorted, _|].
  split; [|split; [|done]].
  - rewrite sort_by_key_perm, Hfst. unfold l. rewrite hash_iter_perm.
    apply filter_fst_nodup, NoDup_fst_map_to_list.
  - intros path object. rewrite sort_by_key_perm, Hmem. setoid_rewrite Hl. naive_solver.
Qed.
