(* ===== verification/NamespaceDemo.v ===== *)
(** * A concrete registry

    A small imported tree and a session on it, on which the theorems of
    [NamespaceClaims] are instantiated and evaluated. *)

From S2P Require Import Order Prelude Bytes Path Capability State Symlink Namespace NamespaceInvariant NamespaceRename NamespaceRegistry NamespaceProps NamespaceClaims.

(** One admissible iteration order. *)
Definition listed_order : HashIter :=
  {| hash_iter := map_to_list; hash_iter_perm := λ m, Permutation_refl (map_to_list m) |}.

(** Another one. *)
Definition reversed_order : HashIter :=
  {| hash_iter m := reverse (map_to_list m); hash_iter_perm := λ m, reverse_Permutation (map_to_list m) |}.

Definition path_of (segments : list string) : CanonicalPath := {| cp_segments := lit <$> segments |}.

Definition demo_link : SymlinkTarget :=
  {| st_literal := lit "../lib"; st_parents := 1; st_segments := [lit "lib"] |}.

(** [/src] with a hard-linked file and a symbolic link, and [/lib]. *)
Definition demo_entries : list ManifestEntry :=
  [{| me_path := CanonicalPath_root; me_spec := SpecDirectory; me_alias_group := 1 |};
   {| me_path := path_of ["src"]; me_spec := SpecDirectory; me_alias_group := 2 |};
   {| me_path := path_of ["src"; "b"]; me_spec := SpecRegularFile; me_alias_group := 3 |};
   {| me_path := path_of ["lib"]; me_spec := SpecDirectory; me_alias_group := 4 |};
   {| me_path := path_of ["lib"; "a"]; me_spec := SpecRegularFile; me_alias_group := 3 |};
   {| me_path := path_of ["src"; "link"]; me_spec := SpecSymlink demo_link; me_alias_group := 5 |}].

Definition demo_registry : NamespaceRegistry :=
  match from_manifest demo_entries with Ok self => self | Err _ => NamespaceRegistry_new end.

Lemma demo_manifest : from_manifest demo_entries = Ok demo_registry.
Proof.
  assert (is_ok (from_manifest demo_entries) = true) as H by (vm_compute; reflexivity).
  unfold demo_registry. destruct (from_manifest demo_entries); [reflexivity|discriminate].
Qed.

Lemma demo_entries_wf : Forall (λ e, CanonicalPath_wf (me_path e)) demo_entries.
Proof. apply (bool_decide_unpack _). vm_compute. exact I. Qed.

Lemma demo_wf : NamespaceState_wf (nreg_state demo_registry).
Proof.
  pose proof (manifest_state_wf demo_entries demo_entries_wf) as H. pose proof demo_manifest as Hm.
  unfold from_manifest in Hm. destruct (manifest_state demo_entries) as [s|e]; [|done].
  replace (nreg_state demo_registry) with s; [exact H|].
  exact (f_equal (λ r : NR NamespaceRegistry, match r with Ok self => nreg_state self | Err _ => s end) Hm).
Qed.

Definition commits {A} (_ : A) : NamespaceExecutorOutcome N unit := Committed 0%N.
Definition loses {A} (_ : A) : NamespaceExecutorOutcome N unit := CommittedWithError tt.

(** Rename [/src] to [/app], create [/app/new], drop [/lib/a], then a creation
    whose executor fails after its effect. *)
Definition demo_ops : list (namespace_op N unit) :=
  [NRename (path_of ["src"]) (path_of ["app"]) commits;
   NCreate (path_of ["app"; "new"]) SpecRegularFile commits;
   NRemoveChild (object_id 3) (lit "a") (λ _ _ _, Committed 0%N);
   NRename (path_of ["app"]) (path_of ["app"; "inner"]) commits;
   NCreate (path_of ["lost"]) SpecRegularFile loses;
   NCreate (path_of ["refused"]) SpecRegularFile commits].

Definition demo_results := (@namespace_run listed_order N unit demo_ops demo_registry).1.
Definition demo_after := (@namespace_run listed_order N unit demo_ops demo_registry).2.

Lemma demo_ops_wf : Forall op_wf demo_ops.
Proof. repeat constructor; by apply (bool_decide_unpack _). Qed.

Lemma demo_run : @namespace_run listed_order N unit demo_ops demo_registry = (demo_results, demo_after).
Proof. apply surjective_pairing. Qed.

Lemma demo_outcomes :
  demo_results =
  [Ok (None, 0%N); Ok (Some (object_id 5), 0%N); Ok (None, 0%N);
   Err (OpNamespace DestinationInsideSource); Err (OpExecutor tt); Err (OpNamespace RepositoryInDoubt)].
Proof. by vm_compute. Qed.

Lemma namespace_stays_consistent_witness :
  NamespaceState_wf (nreg_state demo_after) ∧
  nst_paths (nreg_state demo_after) !! path_of ["app"; "link"] = Some (object_id 4).
Proof.
  split; [|by vm_compute].
  exact (proj1 (@namespace_stays_consistent listed_order N unit demo_entries demo_ops demo_registry
    demo_results demo_after demo_entries_wf demo_ops_wf demo_manifest demo_run)).
Defined.

Definition demo_rename : namespace_op N unit := NRename (path_of ["src"]) (path_of ["app"]) commits.

Definition demo_loss : namespace_op N unit := NCreate (path_of ["lost"]) SpecRegularFile loses.

(** A rename that commits, and a creation whose executor fails after the commit. *)
Lemma namespace_refines_tree_witness :
  tree_changes (Move (path_of ["src"]) (path_of ["app"])) (nst_paths (nreg_state demo_registry))
    (nst_paths (nreg_state (@namespace_step listed_order N unit demo_rename demo_registry).2)) ∧
  nreg_in_doubt (@namespace_step listed_order N unit demo_loss demo_registry).2 = true ∧
  tree_changes (Attach (path_of ["lost"]) (object_id 5)) (nst_paths (nreg_state demo_registry))
    (nst_paths (nreg_state (@namespace_step listed_order N unit demo_loss demo_registry).2)).
Proof.
  pose proof (@namespace_refines_tree listed_order N unit demo_rename demo_registry
    (@namespace_step listed_order N unit demo_rename demo_registry).1
    (@namespace_step listed_order N unit demo_rename demo_registry).2
    demo_wf ltac:(apply (bool_decide_unpack _); vm_compute; exact I) (surjective_pairing _)) as H.
  pose proof (@namespace_refines_tree listed_order N unit demo_loss demo_registry
    (@namespace_step listed_order N unit demo_loss demo_registry).1
    (@namespace_step listed_order N unit demo_loss demo_registry).2
    demo_wf ltac:(apply (bool_decide_unpack _); vm_compute; exact I) (surjective_pairing _)) as H'.
  cbv zeta in H, H'.
  assert (@executor_answer listed_order N unit (nreg_state demo_registry) demo_rename = Some (Committed 0%N)) as E
    by by vm_compute.
  assert (@executor_answer listed_order N unit (nreg_state demo_registry) demo_loss = Some (CommittedWithError tt)) as E'
    by by vm_compute.
  rewrite E in H. rewrite E' in H'.
  exact (conj (proj1 (proj1 (proj2 H))) (conj (proj1 (proj2 H')) (proj1 (proj2 (proj2 H'))))).
Defined.

(** The registry after the lost creation. *)
Definition demo_lost : NamespaceRegistry :=
  mark_in_doubt demo_registry.

Lemma quarantine_is_permanent_witness :
  nst_paths (nreg_state (@namespace_run listed_order N unit demo_ops demo_lost).2) =
  nst_paths (nreg_state demo_lost).
Proof.
  exact (proj1 (proj2 (@quarantine_is_permanent listed_order N unit demo_ops demo_lost
    (@namespace_run listed_order N unit demo_ops demo_lost).1
    (@namespace_run listed_order N unit demo_ops demo_lost).2
    demo_wf demo_ops_wf eq_refl (surjective_pairing _)))).
Defined.

Lemma object_identity_is_permanent_witness :
  created_ids demo_results = [object_id 5] ∧ NoDup (created_ids demo_results).
Proof.
  split; [by vm_compute|].
  exact (proj1 (@object_identity_is_permanent listed_order N unit demo_ops demo_registry demo_results
    demo_after demo_wf demo_ops_wf demo_run)).
Defined.

Lemma rename_moves_exactly_the_subtree_witness :
  is_ok (@plan_rename listed_order (nreg_state demo_registry) (path_of ["src"]) (path_of ["app"])) = true ∧
  rename_allowed (nreg_state demo_registry) (path_of ["src"]) (path_of ["app"]).
Proof.
  split; [by vm_compute|].
  apply (proj1 (rename_moves_exactly_the_subtree listed_order reversed_order (nreg_state demo_registry)
    (path_of ["src"]) (path_of ["app"]) demo_wf ltac:(apply (bool_decide_unpack _); vm_compute; exact I))).
  by vm_compute.
Defined.

Lemma directory_listing_exact_witness :
  match @directory_view listed_order (nreg_state demo_registry) (object_id 1) None with
  | Ok (directory, parent, children) =>
      no_id parent = object_id 0 ∧ (fst <$> children) = [path_of ["src"; "b"]; path_of ["src"; "link"]] ∧
      NoDup children.*1
  | Err _ => False
  end.
Proof.
  pose proof (@directory_listing_exact listed_order (nreg_state demo_registry) (object_id 1) None demo_wf) as H.
  assert (match @directory_view listed_order (nreg_state demo_registry) (object_id 1) None with
    | Ok (directory, parent, children) =>
        no_id parent = object_id 0 ∧ (fst <$> children) = [path_of ["src"; "b"]; path_of ["src"; "link"]]
    | Err _ => False end) as E by (vm_compute; split; reflexivity).
  destruct (@directory_view listed_order (nreg_state demo_registry) (object_id 1) None)
    as [[[directory parent] children]|e]; [|exact E].
  split; [exact (proj1 E)|]. split; [exact (proj2 E)|]. exact (proj1 (proj2 (proj2 (proj2 (proj2 H))))).
Defined.

(** ** A rename beyond the path bounds is reported as an index violation *)

Definition long_name : str := replicate 2000 (chr "n").

Definition overlong_entries : list ManifestEntry :=
  [{| me_path := CanonicalPath_root; me_spec := SpecDirectory; me_alias_group := 1 |};
   {| me_path := path_of ["a"]; me_spec := SpecDirectory; me_alias_group := 2 |};
   {| me_path := {| cp_segments := [lit "a"; long_name] |}; me_spec := SpecDirectory; me_alias_group := 3 |};
   {| me_path := path_of ["b"]; me_spec := SpecDirectory; me_alias_group := 4 |};
   {| me_path := {| cp_segments := [lit "b"; long_name] |}; me_spec := SpecDirectory; me_alias_group := 5 |};
   {| me_path := {| cp_segments := [lit "b"; long_name; lit "deep"] |}; me_spec := SpecDirectory;
      me_alias_group := 6 |}].

(** Moving [/a] below a long but valid directory whose combined depth exceeds the
    4096-byte bound fails with [InvariantViolation], although both indexes agree:
    that error does not imply a corrupted registry. *)
Theorem overlong_rename_reports_violation :
  match from_manifest overlong_entries with
  | Ok self =>
      NamespaceState_wf (nreg_state self) ∧
      @plan_rename listed_order (nreg_state self) (path_of ["a"])
        {| cp_segments := [lit "b"; long_name; lit "deep"; replicate 100 (chr "m")] |} =
        Err Namespace_InvariantViolation
  | Err _ => False
  end.
Proof.
  assert (Forall (λ e, CanonicalPath_wf (me_path e)) overlong_entries) as Hall
    by (apply (bool_decide_unpack _); vm_compute; exact I).
  pose proof (manifest_state_wf overlong_entries Hall) as H. unfold from_manifest.
  assert (match manifest_state overlong_entries with
    | Ok s => @plan_rename listed_order s (path_of ["a"])
        {| cp_segments := [lit "b"; long_name; lit "deep"; replicate 100 (chr "m")] |} =
        Err Namespace_InvariantViolation
    | Err _ => False end) as E by by vm_compute.
  by destruct (manifest_state overlong_entries).
Qed.
