(* ===== verification/Stream.v ===== *)
(** * Byte streams

    What the broker's transports use of [std::io]: [Read::read], [Write::write] and
    [flush], and the loops of [read_exact] and [write_all] over them.  A stream is
    the script of what the operating system does: the outcome of each read, of each
    write and of each flush, in order.  A read script that ends is the end of the
    stream; a write script that ends accepts everything.  [Instant::now] and the
    socket options of [crates/egress-broker/src/transport.rs] are scripted too. *)

From S2P Require Import Prelude Bytes.

(** [io::ErrorKind]; an error of another kind keeps a code. *)
Inductive ErrorKind :=
  | Kind_Interrupted
  | Kind_WouldBlock
  | Kind_TimedOut
  | Kind_UnexpectedEof
  | Kind_WriteZero
  | Kind_InvalidInput
  | Kind_InvalidData
  | Kind_Other (code : N).

#[export] Instance ErrorKind_eq_dec : EqDecision ErrorKind.
Proof. solve_decision. Defined.

(** One read: the bytes that have arrived (none is the end of the stream) or an error. *)
Inductive ReadEvent :=
  | Arrived (bytes : str)
  | ReadFails (kind : ErrorKind).

(** One write: at most [count] bytes are taken, or an error. *)
Inductive WriteEvent :=
  | Takes (count : N)
  | WriteFails (kind : ErrorKind).

(** [s_instants] are the coming readings of the clock, in nanoseconds; the last one
    repeats.  [s_options] are the verdicts on the coming socket options. *)
Record Stream := {
  s_incoming : list ReadEvent;
  s_written : str;
  s_writes : list WriteEvent;
  s_flushes : list (option ErrorKind);
  s_read_timeout : option N;
  s_write_timeout : option N;
  s_options : list (option ErrorKind);
  s_instants : list N;
}.

Definition s_with_incoming (events : list ReadEvent) (self : Stream) : Stream :=
  {| s_incoming := events; s_written := s_written self; s_writes := s_writes self; s_flushes := s_flushes self;
     s_read_timeout := s_read_timeout self; s_write_timeout := s_write_timeout self;
     s_options := s_options self; s_instants := s_instants self |}.
Definition s_with_output (written : str) (writes : list WriteEvent) (self : Stream) : Stream :=
  {| s_incoming := s_incoming self; s_written := written; s_writes := writes; s_flushes := s_flushes self;
     s_read_timeout := s_read_timeout self; s_write_timeout := s_write_timeout self;
     s_options := s_options self; s_instants := s_instants self |}.
Definition s_with_flushes (flushes : list (option ErrorKind)) (self : Stream) : Stream :=
  {| s_incoming := s_incoming self; s_written := s_written self; s_writes := s_writes self; s_flushes := flushes;
     s_read_timeout := s_read_timeout self; s_write_timeout := s_write_timeout self;
     s_options := s_options self; s_instants := s_instants self |}.
Definition s_with_timeouts (read write : option N) (options : list (option ErrorKind)) (self : Stream) : Stream :=
  {| s_incoming := s_incoming self; s_written := s_written self; s_writes := s_writes self;
     s_flushes := s_flushes self; s_read_timeout := read; s_write_timeout := write;
     s_options := options; s_instants := s_instants self |}.
Definition s_with_instants (instants : list N) (self : Stream) : Stream :=
  {| s_incoming := s_incoming self; s_written := s_written self; s_writes := s_writes self;
     s_flushes := s_flushes self; s_read_timeout := s_read_timeout self; s_write_timeout := s_write_timeout self;
     s_options := s_options self; s_instants := instants |}.

Abbreviation IO := (ST Stream).

(** ** The primitives *)

(** [Read::read] into a buffer of [room] bytes: a longer arrival stays for the next read. *)
Definition stream_read (room : N) : IO ErrorKind str := λ self,
  match s_incoming self with
  | [] => (Ok [], self)
  | ReadFails kind :: rest => (Err kind, s_with_incoming rest self)
  | Arrived bytes :: rest =>
      if (len bytes <=? room)%N then (Ok bytes, s_with_incoming rest self)
      else (Ok (take (N.to_nat room) bytes),
            s_with_incoming (Arrived (drop (N.to_nat room) bytes) :: rest) self)
  end.

(** [Write::write]: how many bytes were taken. *)
Definition stream_write (buffer : str) : IO ErrorKind N := λ self,
  match s_writes self with
  | [] => (Ok (len buffer), s_with_output (s_written self ++ buffer) [] self)
  | WriteFails kind :: rest => (Err kind, s_with_output (s_written self) rest self)
  | Takes count :: rest =>
      let taken := take (N.to_nat count) buffer in
      (Ok (len taken), s_with_output (s_written self ++ taken) rest self)
  end.

Definition stream_flush : IO ErrorKind unit := λ self,
  match s_flushes self with
  | [] | None :: _ => (Ok tt, s_with_flushes (tail (s_flushes self)) self)
  | Some kind :: rest => (Err kind, s_with_flushes rest self)
  end.

(** One socket option; [None] in the script lets it take effect. *)
Definition stream_option (read write : option N) : IO ErrorKind unit := λ self,
  match s_options self with
  | [] | None :: _ => (Ok tt, s_with_timeouts read write (tail (s_options self)) self)
  | Some kind :: rest => (Err kind, s_with_timeouts (s_read_timeout self) (s_write_timeout self) rest self)
  end.

Definition set_read_timeout (timeout : N) : IO ErrorKind unit := λ self,
  stream_option (Some timeout) (s_write_timeout self) self.
Definition set_write_timeout (timeout : N) : IO ErrorKind unit := λ self,
  stream_option (s_read_timeout self) (Some timeout) self.

(** [Instant::now]. *)
Definition instant_now {E} : IO E N := λ self,
  match s_instants self with
  | [] => (Ok 0%N, self)
  | [now] => (Ok now, self)
  | now :: later => (Ok now, s_with_instants later self)
  end.

(** ** The loops *)

Definition event_weight (event : ReadEvent) : nat :=
  match event with Arrived bytes => S (length bytes) | ReadFails _ => 1 end.

Definition script_weight (events : list ReadEvent) : nat := sum_list_with event_weight events.

(** Why a buffer was not filled: the stream ended or failed, after some bytes. *)
Inductive FillError :=
  | Ended (received : N)
  | Failed (kind : ErrorKind).

(** Reads into the rest of a buffer of [size] bytes until it is full, skipping
    interruptions.  Every read of the loop shortens the script, so its weight is
    enough fuel ([fill_spec]). *)
Fixpoint fill_loop (fuel : nat) (size : N) (buffer : str) : IO FillError str := λ self,
  if (size <=? len buffer)%N then (Ok buffer, self)
  else
    match fuel with
    | O => (Err (Ended (len buffer)), self)
    | S fuel =>
        match stream_read (size - len buffer) self with
        | (Ok [], self) => (Err (Ended (len buffer)), self)
        | (Ok bytes, self) => fill_loop fuel size (buffer ++ bytes) self
        | (Err Kind_Interrupted, self) => fill_loop fuel size buffer self
        | (Err kind, self) => (Err (Failed kind), self)
        end
    end.

Definition fill (size : N) : IO FillError str := λ self,
  fill_loop (S (script_weight (s_incoming self))) size [] self.

(** [Read::read_exact]. *)
Definition read_exact (size : N) : IO ErrorKind str :=
  st_map_err (λ e, match e with Ended _ => Kind_UnexpectedEof | Failed kind => kind end) (fill size).

(** [Write::write_all]; each turn consumes one verdict of the script, and without a
    verdict the write takes the whole buffer. *)
Fixpoint write_loop (fuel : nat) (buffer : str) : IO ErrorKind unit := λ self,
  match buffer with
  | [] => (Ok tt, self)
  | _ =>
      match fuel with
      | O => (Err Kind_WriteZero, self)
      | S fuel =>
          match stream_write buffer self with
          | (Ok count, self) =>
              if (count =? 0)%N then (Err Kind_WriteZero, self)
              else write_loop fuel (drop (N.to_nat count) buffer) self
          | (Err Kind_Interrupted, self) => write_loop fuel buffer self
          | (Err kind, self) => (Err kind, self)
          end
      end
  end.

Definition write_all (buffer : str) : IO ErrorKind unit := λ self,
  write_loop (S (length (s_writes self))) buffer self.

(** ** What a read script holds *)

(** How the bytes of a script end. *)
Inductive Ending :=
  | EndOfStream
  | Failure (kind : ErrorKind).

(** The bytes that can be read before the script ends or fails, and how it does. *)
Fixpoint script_supply (events : list ReadEvent) : str * Ending :=
  match events with
  | [] => ([], EndOfStream)
  | Arrived [] :: _ => ([], EndOfStream)
  | Arrived bytes :: rest => let '(more, ending) := script_supply rest in (bytes ++ more, ending)
  | ReadFails Kind_Interrupted :: rest => script_supply rest
  | ReadFails kind :: _ => ([], Failure kind)
  end.

Definition supply (self : Stream) : str * Ending := script_supply (s_incoming self).

(** Everything but the read script is as before. *)
Definition only_reads (self after : Stream) : Prop := after = s_with_incoming (s_incoming after) self.

(** Everything but the output and the write script is as before. *)
Definition only_writes (self after : Stream) : Prop :=
  after = s_with_output (s_written after) (s_writes after) self.

Lemma only_reads_refl s : only_reads s s.
Proof. by destruct s. Qed.

Lemma only_reads_trans s s' s'' : only_reads s s' → only_reads s' s'' → only_reads s s''.
Proof. unfold only_reads. intros -> ->. done. Qed.

Lemma only_reads_with events s : only_reads s (s_with_incoming events s).
Proof. done. Qed.

Lemma only_writes_refl s : only_writes s s.
Proof. by destruct s. Qed.

Lemma only_writes_trans s s' s'' : only_writes s s' → only_writes s' s'' → only_writes s s''.
Proof. unfold only_writes. intros -> ->. done. Qed.

Lemma only_reads_written s s' : only_reads s s' → s_written s' = s_written s.
Proof. unfold only_reads. by intros ->. Qed.

Lemma only_writes_supply s s' : only_writes s s' → supply s' = supply s.
Proof. unfold only_writes, supply. by intros ->. Qed.

Create HintDb stream.
#[export] Hint Resolve only_reads_refl only_writes_refl only_reads_with : stream.
#[export] Hint Resolve only_reads_trans only_writes_trans : stream.

(** What filling a buffer of [size] bytes, [buffer] of which are there, comes to. *)
Definition fill_outcome (size : N) (buffer available : str) (ending : Ending) : result FillError str :=
  if (size <=? len buffer + len available)%N
  then Ok (buffer ++ take (N.to_nat (size - len buffer)) available)
  else Err (match ending with
            | EndOfStream => Ended (len buffer + len available)
            | Failure kind => Failed kind
            end).

Lemma len_take n (s : str) : len (take (N.to_nat n) s) = N.min n (len s).
Proof. unfold len. rewrite length_take. lia. Qed.

Lemma fill_full size buffer available ending :
  (size <= len buffer)%N → fill_outcome size buffer available ending = Ok buffer.
Proof.
  intros Hsize. unfold fill_outcome. destruct (N.leb_spec size (len buffer + len available)); [|lia].
  replace (size - len buffer)%N with 0%N by lia. by rewrite take_0, app_nil_r.
Qed.

Lemma fill_more size buffer bytes available ending :
  (len (buffer ++ bytes) <= size)%N →
  fill_outcome size buffer (bytes ++ available) ending = fill_outcome size (buffer ++ bytes) available ending.
Proof.
  rewrite len_app. intros Hsize. unfold fill_outcome. rewrite !len_app, <- !N.add_assoc.
  destruct (size <=? _)%N; [|done]. f_equal. rewrite <- (assoc_L (++)). f_equal.
  rewrite take_app, (take_ge bytes) by (unfold len in *; lia). do 2 f_equal. unfold len. lia.
Qed.

Lemma fill_loop_full fuel size buffer s : (size <= len buffer)%N → fill_loop fuel size buffer s = (Ok buffer, s).
Proof. intros H. destruct fuel; simpl; by rewrite (proj2 (N.leb_le _ _) H). Qed.

Lemma supply_arrived b bytes rest :
  script_supply (Arrived (b :: bytes) :: rest) = ((b :: bytes) ++ (script_supply rest).1, (script_supply rest).2).
Proof. simpl. by destruct (script_supply rest). Qed.

(** The loop is a function of the bytes the script holds and of how they end: how the
    bytes are cut into reads and where interruptions fall makes no difference. *)
Lemma fill_loop_spec fuel size buffer s :
  script_weight (s_incoming s) < fuel →
  ∃ s', fill_loop fuel size buffer s = (fill_outcome size buffer (supply s).1 (supply s).2, s') ∧ only_reads s s' ∧
    ((size <= len buffer + len (supply s).1)%N →
     supply s' = (drop (N.to_nat (size - len buffer)) (supply s).1, (supply s).2)).
Proof.
  revert buffer s. induction fuel as [|fuel IH]; intros buffer s Hfuel; [lia|].
  destruct (N.leb_spec size (len buffer)) as [Hfull|Hroom].
  { exists s. rewrite fill_full, fill_loop_full by done. split_and!; [done|auto with stream|].
    intros _. replace (size - len buffer)%N with 0%N by lia. rewrite drop_0. by destruct (supply s). }
  assert (∀ ending, fill_outcome size buffer [] ending =
            Err (match ending with EndOfStream => Ended (len buffer) | Failure kind => Failed kind end)) as Hnone.
  { intros ending. unfold fill_outcome. change (len []) with 0%N. rewrite N.add_0_r.
    by destruct (N.leb_spec size (len buffer)); [lia|]. }
  simpl. destruct (N.leb_spec size (len buffer)); [lia|]. unfold stream_read, supply.
  destruct (s_incoming s) as [|[[|b bytes]|kind] rest] eqn:Hin.
  - exists s. rewrite Hnone. split_and!; [done|auto with stream|]. simpl. change (len []) with 0%N. lia.
  - change (len []) with 0%N. destruct (N.leb_spec 0 (size - len buffer)); [|lia].
    eexists. rewrite Hnone. split_and!; [done|auto with stream|]. simpl. change (len []) with 0%N. lia.
  - rewrite supply_arrived. cbn [fst snd]. destruct (N.leb_spec (len (b :: bytes)) (size - len buffer)) as [Hle|Hgt].
    + destruct (IH (buffer ++ b :: bytes) (s_with_incoming rest s)) as (s' & Hrun & Hs' & Hrest); [simpl in *; lia|].
      unfold supply in *. simpl in Hrun, Hrest. rewrite Hrun. exists s'. rewrite len_app in Hrest.
      rewrite fill_more by (rewrite len_app; lia). split_and!; [done|eauto with stream|].
      rewrite len_app. intros Hsize. rewrite Hrest by lia. f_equal. rewrite drop_app, (drop_ge (b :: bytes)) by (unfold len in *; lia).
      simpl. f_equal. unfold len in *. simpl in *. lia.
    + destruct (take _ (b :: bytes)) as [|c taken] eqn:Ht.
      { apply (f_equal length) in Ht. rewrite length_take in Ht. simpl in Ht. lia. }
      rewrite fill_loop_full, <- Ht by (rewrite len_app, <- Ht, len_take; lia).
      eexists. split_and!; [|auto with stream|].
      * unfold fill_outcome. rewrite len_app. destruct (N.leb_spec size (len buffer + (len (b :: bytes) + len (script_supply rest).1))); [|lia].
        rewrite take_app_le by (unfold len in *; lia). done.
      * intros _. rewrite drop_app_le by (unfold len in *; lia). simpl.
        destruct (drop _ (b :: bytes)) eqn:Hd; [apply (f_equal length) in Hd; rewrite length_drop in Hd; unfold len in *; simpl in *; lia|].
        by destruct (script_supply rest).
  - destruct (decide (kind = Kind_Interrupted)) as [->|Hk].
    + destruct (IH buffer (s_with_incoming rest s)) as (s' & Hrun & Hs' & Hrest); [simpl in *; lia|].
      exists s'. split_and!; [done|eauto with stream|done].
    + exists (s_with_incoming rest s).
      replace (script_supply (ReadFails kind :: rest)) with (@nil byte, Failure kind) by (by destruct kind).
      rewrite Hnone. split_and!; [by destruct kind|auto with stream|]. simpl. change (len []) with 0%N. lia.
Qed.

Lemma fill_spec size s :
  ∃ s', fill size s = (fill_outcome size [] (supply s).1 (supply s).2, s') ∧ only_reads s s' ∧
    ((size <= len (supply s).1)%N → supply s' = (drop (N.to_nat size) (supply s).1, (supply s).2)).
Proof.
  destruct (fill_loop_spec (S (script_weight (s_incoming s))) size [] s) as (s' & Hrun & Hs' & Hrest); [lia|].
  exists s'. change (len []) with 0%N in Hrest. rewrite N.add_0_l, N.sub_0_r in Hrest. done.
Qed.

(** [write_all] appends a prefix of the buffer, and the whole buffer when it succeeds. *)
Lemma write_loop_spec fuel buffer s r s' :
  length (s_writes s) < fuel → write_loop fuel buffer s = (r, s') →
  only_writes s s' ∧ ∃ sent, s_written s' = s_written s ++ sent ∧ sent `prefix_of` buffer ∧ (r = Ok tt → sent = buffer).
Proof.
  revert buffer s. induction fuel as [|fuel IH]; intros buffer s Hfuel Hrun; [lia|].
  destruct buffer as [|b buffer]; simpl in Hrun.
  { injection Hrun as <- <-. split; [auto with stream|]. exists []. rewrite app_nil_r. auto. }
  unfold stream_write in Hrun. destruct (s_writes s) as [|[count|kind] rest] eqn:Hw.
  - destruct (N.eqb_spec (len (b :: buffer)) 0); [unfold len in *; simpl in *; lia|].
    rewrite drop_ge in Hrun by (unfold len; lia).
    assert (r = Ok tt ∧ s' = s_with_output (s_written s ++ b :: buffer) [] s) as [-> ->] by (destruct fuel; simpl in Hrun; naive_solver).
    split; [done|]. exists (b :: buffer). auto.
  - destruct (N.eqb_spec (len (take (N.to_nat count) (b :: buffer))) 0).
    { injection Hrun as <- <-. split; [done|]. eexists. split; [done|]. split; [apply prefix_take|done]. }
    apply IH in Hrun as (Hs & sent & Hsent & Hpre & Hok); [|simpl in *; lia].
    split; [eapply only_writes_trans, Hs; done|]. simpl in Hsent. rewrite <- (assoc_L (++)) in Hsent.
    eexists. split; [done|].
    replace (drop (N.to_nat (len (take (N.to_nat count) (b :: buffer)))) (b :: buffer))
      with (drop (N.to_nat count) (b :: buffer)) in Hpre, Hok.
    2:{ rewrite len_take. destruct (decide (N.to_nat count ≤ length (b :: buffer))); [f_equal; unfold len; lia|].
        rewrite !drop_ge by (unfold len; lia). done. }
    split; [|intros Hr; rewrite (Hok Hr); apply take_drop].
    rewrite <- (take_drop (N.to_nat count) (b :: buffer)) at 2. by apply prefix_app.
  - destruct (decide (kind = Kind_Interrupted)) as [->|Hk].
    + apply IH in Hrun as (Hs & sent & Hsent & Hpre & Hok); [|simpl in *; lia].
      split; [eapply only_writes_trans, Hs; done|]. by exists sent.
    + assert (r = Err kind ∧ s' = s_with_output (s_written s) rest s) as [-> ->] by (destruct kind; naive_solver).
      split; [done|]. exists []. rewrite app_nil_r. split_and!; [done|apply prefix_nil|done].
Qed.

Lemma write_all_spec buffer s r s' :
  write_all buffer s = (r, s') →
  only_writes s s' ∧ ∃ sent, s_written s' = s_written s ++ sent ∧ sent `prefix_of` buffer ∧ (r = Ok tt → sent = buffer).
Proof. intros Hrun. eapply write_loop_spec; [|exact Hrun]. lia. Qed.
