(* ===== verification/Transport.v ===== *)
(** * Broker transport ([crates/egress-broker/src/transport.rs])

    Length-prefixed frames over a byte stream, with and without socket deadlines, and
    the argument checks of the vsock listener.  A [Duration] or an [Instant] is a
    number of nanoseconds.  [socket2] is not part of the sources: its verdicts are
    arguments of the listener's operations. *)

From S2P Require Import Prelude Bytes ControlFrame Stream.

Definition VMADDR_CID_ANY : N := 2 ^ 32 - 1.
Definition VMADDR_PORT_ANY : N := 2 ^ 32 - 1.

Definition from_secs (seconds : N) : N := seconds * 10 ^ 9.

Definition MAX_TRANSPORT_TIMEOUT : N := from_secs (24 * 60 * 60).
Definition DEFAULT_READ_TIMEOUT : N := from_secs 30.
Definition DEFAULT_WRITE_TIMEOUT : N := from_secs 30.
Definition DEFAULT_CONNECTION_TIMEOUT : N := from_secs (5 * 60).

(** ** Policies *)

Record TransportPolicy := { tp_read : N; tp_write : N; tp_connection : N }.

Inductive TransportConfigError :=
  | Timeout_Zero (field : string)
  | Timeout_TooLarge (field : string) (maximum : N).

Definition validate_timeout (field : string) (timeout : N) : result TransportConfigError unit :=
  if (timeout =? 0)%N then Err (Timeout_Zero field)
  else if (MAX_TRANSPORT_TIMEOUT <? timeout)%N then Err (Timeout_TooLarge field MAX_TRANSPORT_TIMEOUT)
  else Ok tt.

Definition TransportPolicy_new (read_timeout write_timeout connection_timeout : N)
    : result TransportConfigError TransportPolicy :=
  _ ← validate_timeout "read_timeout" read_timeout;
  _ ← validate_timeout "write_timeout" write_timeout;
  _ ← validate_timeout "connection_timeout" connection_timeout;
  Ok {| tp_read := read_timeout; tp_write := write_timeout; tp_connection := connection_timeout |}.

Definition effective_read_timeout (self : TransportPolicy) : N := N.min (tp_read self) (tp_connection self).
Definition effective_write_timeout (self : TransportPolicy) : N := N.min (tp_write self) (tp_connection self).

Definition TransportPolicy_default : TransportPolicy :=
  {| tp_read := DEFAULT_READ_TIMEOUT; tp_write := DEFAULT_WRITE_TIMEOUT;
     tp_connection := DEFAULT_CONNECTION_TIMEOUT |}.

Inductive DeadlineKind := Deadline_Read | Deadline_Write | Deadline_Connection.

Inductive TransportError :=
  | Transport_Io (error : ErrorKind)
  | Transport_Frame (error : FrameError)
  | Transport_Deadline (kind : DeadlineKind).

(** ** The vsock listener *)

Class PeerBoundListener (L : Type) := { accept_peer : L → result ErrorKind (N * Stream) }.

Record AfVsockListener := {
  avl_cid : N;
  avl_port : N;
  avl_nonblocking : bool;
  avl_policy : TransportPolicy;
}.

(** [open_socket] stands for creating, binding and configuring the socket. *)
Definition bind_with_mode (open_socket : N → N → Z → bool → result ErrorKind unit) (cid port : N) (backlog : Z)
    (nonblocking : bool) (policy : TransportPolicy) : result ErrorKind AfVsockListener :=
  if (cid =? VMADDR_CID_ANY)%N then Err Kind_InvalidInput
  else if (port =? 0)%N || (port =? VMADDR_PORT_ANY)%N then Err Kind_InvalidInput
  else if (backlog <=? 0)%Z then Err Kind_InvalidInput
  else
    _ ← map_err (λ _, Kind_InvalidInput) (TransportPolicy_new (tp_read policy) (tp_write policy) (tp_connection policy));
    _ ← open_socket cid port backlog nonblocking;
    Ok {| avl_cid := cid; avl_port := port; avl_nonblocking := nonblocking; avl_policy := policy |}.

(** [accepted] is what [accept] returned: a stream and the peer's vsock CID, if it has
    one; [restored] is the verdict on leaving nonblocking mode. *)
Definition accept_peer_socket (self : AfVsockListener) (accepted : result ErrorKind (Stream * option N))
    (restored : result ErrorKind unit) (blocking_stream : bool) : result ErrorKind (N * Stream) :=
  '(stream, peer) ← accepted;
  _ ← (if blocking_stream then restored else Ok tt);
  peer_cid ← ok_or peer Kind_InvalidData;
  let '(applied, stream) :=
    (_ ← set_read_timeout (effective_read_timeout (avl_policy self));
     set_write_timeout (effective_write_timeout (avl_policy self))) stream in
  _ ← applied;
  Ok (peer_cid, stream).

Definition classify_nonblocking_accept {A} (r : result ErrorKind A) : result ErrorKind (option A) :=
  match r with
  | Ok accepted => Ok (Some accepted)
  | Err Kind_WouldBlock => Ok None
  | Err error => Err error
  end.

Definition try_accept_peer (self : AfVsockListener) (accepted : result ErrorKind (Stream * option N))
    (restored : result ErrorKind unit) : result ErrorKind (option (N * Stream)) :=
  if negb (avl_nonblocking self) then Err Kind_InvalidInput
  else classify_nonblocking_accept (accept_peer_socket self accepted restored true).

(** ** Frames *)

(** [FramedIo]: what the server needs of a transport. *)
Class FramedIo (T : Type) := {
  read_frame : ST T TransportError ControlFrame;
  write_frame : ControlFrame → ST T TransportError unit;
}.

Record FramedTransport := { ft_stream : Stream }.

(** An action on the stream of a transport. *)
Definition ft_io {E A} (m : IO E A) : ST FramedTransport E A := λ self,
  let '(r, stream) := m (ft_stream self) in (r, {| ft_stream := stream |}).

Definition FramedTransport_read_frame : ST FramedTransport TransportError ControlFrame :=
  prefix ← ft_io (st_map_err Transport_Io (read_exact (N.of_nat CONTROL_FRAME_LENGTH_PREFIX_BYTES)));
  length ← st_query (λ _, map_err Transport_Frame (ValidatedFrameLength_from_network_prefix prefix));
  payload ← ft_io (st_map_err Transport_Io (read_exact length));
  st_query (λ _, map_err Transport_Frame (ControlFrame_new payload)).

Definition FramedTransport_write_frame (frame : ControlFrame) : ST FramedTransport TransportError unit :=
  let encoded := ControlFrame_encode frame in
  if (MAX_CONTROL_FRAME_BYTES <? len (cf_payload frame))%N
  then st_fail (Transport_Frame (FrameTooLarge (len (cf_payload frame))))
  else ft_io (st_map_err Transport_Io (write_all encoded)).

#[export] Instance FramedTransport_FramedIo : FramedIo FramedTransport := {
  read_frame := FramedTransport_read_frame;
  write_frame := FramedTransport_write_frame;
}.

(** ** Frames under deadlines *)

Record DeadlineFramedTransport := {
  dft_stream : Stream;
  dft_policy : TransportPolicy;
  dft_connection_deadline : N;
}.

Definition dft_with_stream (stream : Stream) (self : DeadlineFramedTransport) : DeadlineFramedTransport :=
  {| dft_stream := stream; dft_policy := dft_policy self;
     dft_connection_deadline := dft_connection_deadline self |}.

Definition dft_io {E A} (m : IO E A) : ST DeadlineFramedTransport E A := λ self,
  let '(r, stream) := m (dft_stream self) in (r, dft_with_stream stream self).

(** [Instant::checked_add]: an instant holds a signed 64-bit number of seconds. *)
Definition transport_checked_add (instant duration : N) : option N :=
  if (instant + duration <? from_secs (2 ^ 63))%N then Some (instant + duration)%N else None.

Definition DeadlineFramedTransport_new (stream : Stream) (policy : TransportPolicy)
    : result TransportError DeadlineFramedTransport :=
  let '(r, stream) :=
    (now ← instant_now;
     connection_deadline ← st_query (λ _, ok_or (transport_checked_add now (tp_connection policy))
                                            (Transport_Deadline Deadline_Connection));
     _ ← st_map_err Transport_Io (set_read_timeout (effective_read_timeout policy));
     _ ← st_map_err Transport_Io (set_write_timeout (effective_write_timeout policy));
     mret connection_deadline) stream in
  connection_deadline ← r;
  Ok {| dft_stream := stream; dft_policy := policy; dft_connection_deadline := connection_deadline |}.

(** [saturating_duration_since] is the subtraction of [N]. *)
Definition dft_remaining : ST DeadlineFramedTransport TransportError N :=
  self ← st_get;
  now ← dft_io instant_now;
  let remaining := (dft_connection_deadline self - now)%N in
  if (remaining =? 0)%N then st_fail (Transport_Deadline Deadline_Connection) else mret remaining.

Definition prepare_read : ST DeadlineFramedTransport TransportError bool :=
  remaining ← dft_remaining;
  self ← st_get;
  let connection_is_tighter := (remaining <=? tp_read (dft_policy self))%N in
  _ ← dft_io (st_map_err Transport_Io (set_read_timeout (N.min remaining (tp_read (dft_policy self)))));
  mret connection_is_tighter.

Definition prepare_write : ST DeadlineFramedTransport TransportError bool :=
  remaining ← dft_remaining;
  self ← st_get;
  let connection_is_tighter := (remaining <=? tp_write (dft_policy self))%N in
  _ ← dft_io (st_map_err Transport_Io (set_write_timeout (N.min remaining (tp_write (dft_policy self)))));
  mret connection_is_tighter.

Definition map_deadline_io (operation : DeadlineKind) (connection_is_tighter : bool) (error : ErrorKind)
    : TransportError :=
  if bool_decide (error = Kind_TimedOut) then
    if connection_is_tighter then Transport_Deadline Deadline_Connection else Transport_Deadline operation
  else Transport_Io error.

Definition DeadlineFramedTransport_read_frame : ST DeadlineFramedTransport TransportError ControlFrame :=
  connection_is_tighter ← prepare_read;
  prefix ← dft_io (st_map_err (map_deadline_io Deadline_Read connection_is_tighter)
                     (read_exact (N.of_nat CONTROL_FRAME_LENGTH_PREFIX_BYTES)));
  connection_is_tighter ← prepare_read;
  length ← st_query (λ _, map_err Transport_Frame (ValidatedFrameLength_from_network_prefix prefix));
  payload ← dft_io (st_map_err (map_deadline_io Deadline_Read connection_is_tighter) (read_exact length));
  st_query (λ _, map_err Transport_Frame (ControlFrame_new payload)).

Definition DeadlineFramedTransport_write_frame (frame : ControlFrame)
    : ST DeadlineFramedTransport TransportError unit :=
  let encoded := ControlFrame_encode frame in
  if (MAX_CONTROL_FRAME_BYTES <? len (cf_payload frame))%N
  then st_fail (Transport_Frame (FrameTooLarge (len (cf_payload frame))))
  else
    connection_is_tighter ← prepare_write;
    dft_io (st_map_err (map_deadline_io Deadline_Write connection_is_tighter) (write_all encoded)).

#[export] Instance DeadlineFramedTransport_FramedIo : FramedIo DeadlineFramedTransport := {
  read_frame := DeadlineFramedTransport_read_frame;
  write_frame := DeadlineFramedTransport_write_frame;
}.

(** ** What the framed transports promise *)

(** ** Streams *)

Definition read_failure (ending : Ending) : ErrorKind :=
  match ending with EndOfStream => Kind_UnexpectedEof | Failure kind => kind end.

Lemma wp_fill size (Q : str → Stream → Prop) (R : FillError → Stream → Prop) s :
  (∀ s' bytes rest, only_reads s s' → (supply s).1 = bytes ++ rest → len bytes = size →
     supply s' = (rest, (supply s).2) → Q bytes s') →
  (∀ s', only_reads s s' → (len (supply s).1 < size)%N →
     R (match (supply s).2 with EndOfStream => Ended (len (supply s).1) | Failure kind => Failed kind end) s') →
  wp (fill size) Q R s.
Proof.
  intros HQ HR. destruct (fill_spec size s) as (s' & Hrun & Hs & Hrest). unfold wp. rewrite Hrun. unfold fill_outcome.
  change (len []) with 0%N. rewrite N.add_0_l. destruct (N.leb_spec size (len (supply s).1)); [|auto].
  rewrite N.sub_0_r. simpl. eapply HQ; [done|by rewrite take_drop|rewrite len_take; lia|auto].
Qed.

Lemma wp_read_exact size (Q : str → Stream → Prop) (R : ErrorKind → Stream → Prop) s :
  (∀ s' bytes rest, only_reads s s' → (supply s).1 = bytes ++ rest → len bytes = size →
     supply s' = (rest, (supply s).2) → Q bytes s') →
  (∀ s', only_reads s s' → (len (supply s).1 < size)%N → R (read_failure (supply s).2) s') →
  wp (read_exact size) Q R s.
Proof.
  intros HQ HR. apply wp_map_err, wp_fill; [done|]. intros s' Hs Hlen. specialize (HR s' Hs Hlen).
  by destruct (supply s).2.
Qed.

Lemma wp_write_all buffer (Q : unit → Stream → Prop) (R : ErrorKind → Stream → Prop) s :
  (∀ s', only_writes s s' → s_written s' = s_written s ++ buffer → Q tt s') →
  (∀ e s' sent, only_writes s s' → s_written s' = s_written s ++ sent → sent `prefix_of` buffer → R e s') →
  wp (write_all buffer) Q R s.
Proof.
  intros HQ HR. unfold wp. destruct (write_all buffer s) as [[[]|e] s'] eqn:Hrun;
    apply write_all_spec in Hrun as (Hs & sent & Hsent & Hpre & Hok); [|by eapply HR].
  rewrite (Hok eq_refl) in Hsent. auto.
Qed.

(** ** Frames *)

Definition frame_wf (frame : ControlFrame) : Prop := ControlFrame_new (cf_payload frame) = Ok frame.

(** What reading one frame comes to, as a function of the bytes to come. *)
Definition frame_outcome (available : str) (ending : Ending) : result TransportError (ControlFrame * str) :=
  if (len available <? 4)%N then Err (Transport_Io (read_failure ending))
  else
    length ← map_err Transport_Frame (ValidatedFrameLength_from_network_prefix (take 4 available));
    let rest := drop 4 available in
    if (len rest <? length)%N then Err (Transport_Io (read_failure ending))
    else Ok ({| cf_payload := take (N.to_nat length) rest; cf_wire_length := length |}, drop (N.to_nat length) rest).

Lemma frame_of_prefix prefix payload length :
  ValidatedFrameLength_from_network_prefix prefix = Ok length → len prefix = 4%N → len payload = length →
  ControlFrame_new payload = Ok {| cf_payload := payload; cf_wire_length := length |} ∧
  prefix = be_bytes 4 length.
Proof.
  unfold ValidatedFrameLength_from_network_prefix.
  destruct (N.ltb_spec MAX_CONTROL_FRAME_BYTES (from_be_bytes prefix)) as [|Hmax]; [done|]. intros [= <-] H4 Hlen. split.
  - apply ControlFrame_new_ok. by rewrite Hlen.
  - pose proof (to_from_be_bytes prefix) as Hb. replace (List.length prefix) with 4 in Hb; [done|]. unfold len in H4. lia.
Qed.

Lemma parse_encoded_frame frame rest ending :
  frame_wf frame → frame_outcome (ControlFrame_encode frame ++ rest) ending = Ok (frame, rest).
Proof.
  intros [Hlen Hf]%ControlFrame_new_ok. unfold frame_outcome, ControlFrame_encode. rewrite Hf in *.
  cbn [cf_payload cf_wire_length] in *. set (payload := cf_payload frame) in *. rewrite <- (assoc_L (++)).
  destruct (N.ltb_spec (len (be_bytes 4 (len payload) ++ payload ++ rest)) 4) as [Hlt|_].
  { rewrite len_app in Hlt. unfold len at 1 in Hlt. rewrite length_be_bytes in Hlt. lia. }
  rewrite take_app_length', drop_app_length' by (by rewrite length_be_bytes).
  unfold ValidatedFrameLength_from_network_prefix. rewrite prefix_roundtrip by done.
  destruct (N.ltb_spec MAX_CONTROL_FRAME_BYTES (len payload)); [lia|]. cbn [map_err mbind result_bind].
  rewrite len_app. destruct (N.ltb_spec (len payload + len rest) (len payload)); [lia|].
  rewrite take_app_length', drop_app_length' by (unfold len; lia). done.
Qed.

(** ** The laws of a framed transport *)

Class FramedIoLaws (T : Type) `{FramedIo T} := {
  coming : T → str;
  sent : T → str;
  read_frame_spec : ∀ t, wp read_frame
    (λ frame t', frame_wf frame ∧ coming t = ControlFrame_encode frame ++ coming t' ∧ sent t' = sent t)
    (λ _ t', sent t' = sent t) t;
  write_frame_spec : ∀ frame t, wp (write_frame frame)
    (λ _ t', sent t' = sent t ++ ControlFrame_encode frame ∧ coming t' = coming t)
    (λ _ t', ∃ part, sent t' = sent t ++ part ∧ part `prefix_of` ControlFrame_encode frame ∧ coming t' = coming t) t;
}.

(** ** The plain transport *)

Lemma wp_ft_io {E A} (m : IO E A) (Q : A → FramedTransport → Prop) (R : E → FramedTransport → Prop) t :
  wp m (λ a s, Q a {| ft_stream := s |}) (λ e s, R e {| ft_stream := s |}) (ft_stream t) → wp (ft_io m) Q R t.
Proof. unfold wp, ft_io. by destruct (m (ft_stream t)) as [[a|e] s]. Qed.

Lemma parse_short_frame available ending :
  (len available < 4)%N → frame_outcome available ending = Err (Transport_Io (read_failure ending)).
Proof. intros H. unfold frame_outcome. by rewrite (proj2 (N.ltb_lt _ _) H). Qed.

Lemma parse_prefixed_frame prefix rest ending :
  len prefix = 4%N →
  frame_outcome (prefix ++ rest) ending =
    (length ← map_err Transport_Frame (ValidatedFrameLength_from_network_prefix prefix);
     if (len rest <? length)%N then Err (Transport_Io (read_failure ending))
     else Ok ({| cf_payload := take (N.to_nat length) rest; cf_wire_length := length |}, drop (N.to_nat length) rest)).
Proof.
  intros H4. unfold frame_outcome. rewrite len_app. destruct (N.ltb_spec (len prefix + len rest) 4); [lia|].
  by rewrite take_app_length', drop_app_length' by (unfold len in *; lia).
Qed.

(** Reading a frame is [frame_outcome] of the bytes to come. *)
Lemma ft_read_frame_spec t :
  wp FramedTransport_read_frame
    (λ frame t', ∃ rest, frame_outcome (supply (ft_stream t)).1 (supply (ft_stream t)).2 = Ok (frame, rest) ∧
       supply (ft_stream t') = (rest, (supply (ft_stream t)).2) ∧ only_reads (ft_stream t) (ft_stream t'))
    (λ e t', frame_outcome (supply (ft_stream t)).1 (supply (ft_stream t)).2 = Err e ∧
       only_reads (ft_stream t) (ft_stream t')) t.
Proof.
  unfold FramedTransport_read_frame. set (ending := (supply (ft_stream t)).2).
  apply wp_bind, wp_ft_io, wp_map_err, wp_read_exact; cbn [ft_stream]; [|auto using parse_short_frame].
  intros s1 prefix rest1 Hs1 -> H4 Hsup1. rewrite parse_prefixed_frame by done.
  apply wp_bind, wp_query. destruct (ValidatedFrameLength_from_network_prefix prefix) as [n|] eqn:Hn; [|done].
  apply wp_bind, wp_ft_io, wp_map_err, wp_read_exact; cbn [ft_stream map_err mbind result_bind]; rewrite Hsup1; cbn [fst snd].
  - intros s2 payload rest2 Hs2 -> Hlen Hsup2. apply wp_query.
    destruct (frame_of_prefix prefix payload n) as [-> _]; [done..|].
    cbn [map_err]. rewrite len_app. destruct (N.ltb_spec (len payload + len rest2) n); [lia|].
    rewrite take_app_length', drop_app_length' by (unfold len in *; lia). exists rest2. eauto with stream.
  - intros s2 Hs2 Hlen. destruct (N.ltb_spec (len rest1) n); [|lia]. eauto with stream.
Qed.

Lemma parsed_frame available ending frame rest :
  frame_outcome available ending = Ok (frame, rest) → frame_wf frame ∧ available = ControlFrame_encode frame ++ rest.
Proof.
  unfold frame_outcome. destruct (N.ltb_spec (len available) 4) as [|H4]; [done|].
  destruct (ValidatedFrameLength_from_network_prefix (take 4 available)) as [n|] eqn:Hn; [|done].
  cbn [map_err mbind result_bind]. destruct (N.ltb_spec (len (drop 4 available)) n); [done|]. intros [= <- <-].
  change 4 with (N.to_nat 4) in Hn. destruct (frame_of_prefix _ (take (N.to_nat n) (drop 4 available)) _ Hn) as [Hf Hpre].
  { rewrite len_take. lia. } { rewrite len_take. lia. }
  split; [done|]. unfold ControlFrame_encode. cbn [cf_payload cf_wire_length].
  rewrite <- Hpre, <- (assoc_L (++)), take_drop. symmetry. apply take_drop.
Qed.

Lemma ft_write_frame_spec frame t :
  wp (FramedTransport_write_frame frame)
    (λ _ t', s_written (ft_stream t') = s_written (ft_stream t) ++ ControlFrame_encode frame ∧
       only_writes (ft_stream t) (ft_stream t'))
    (λ _ t', ∃ part, s_written (ft_stream t') = s_written (ft_stream t) ++ part ∧
       part `prefix_of` ControlFrame_encode frame ∧ only_writes (ft_stream t) (ft_stream t')) t.
Proof.
  unfold FramedTransport_write_frame. destruct (_ <? _)%N.
  - apply wp_fail. exists []. rewrite app_nil_r. split_and!; [done|apply prefix_nil|auto with stream].
  - apply wp_ft_io, wp_map_err, wp_write_all; eauto.
Qed.

#[export, refine] Instance FramedTransport_laws : FramedIoLaws FramedTransport := {
  coming t := (supply (ft_stream t)).1;
  sent t := s_written (ft_stream t);
  read_frame_spec := _;
  write_frame_spec := _;
}.
Proof.
  - intros t. eapply wp_mono; [apply ft_read_frame_spec|..]; cbn beta.
    + intros frame t' (rest & [Hf Hav]%parsed_frame & Hsup & Hs). rewrite Hsup. eauto using only_reads_written.
    + intros e t' [_ Hs]. by apply only_reads_written.
  - intros frame t. eapply wp_mono; [apply ft_write_frame_spec|..]; cbn beta.
    + intros _ t' [Hw Hs%only_writes_supply]. by rewrite Hs.
    + intros _ t' (part & Hw & Hpre & Hs%only_writes_supply). exists part. by rewrite Hs.
Defined.

(** ** The transport under deadlines *)

Lemma wp_dft_io {E A} (m : IO E A) (Q : A → DeadlineFramedTransport → Prop) (R : E → DeadlineFramedTransport → Prop) t :
  wp m (λ a s, Q a (dft_with_stream s t)) (λ e s, R e (dft_with_stream s t)) (dft_stream t) → wp (dft_io m) Q R t.
Proof. unfold wp, dft_io. by destruct (m (dft_stream t)) as [[a|e] s]. Qed.

(** No byte was read or written, and the deadlines stand. *)
Definition quiet (t t' : DeadlineFramedTransport) : Prop :=
  supply (dft_stream t') = supply (dft_stream t) ∧ s_written (dft_stream t') = s_written (dft_stream t) ∧
  dft_policy t' = dft_policy t ∧ dft_connection_deadline t' = dft_connection_deadline t.

Lemma wp_set_read_timeout timeout (Q : unit → Stream → Prop) (R : ErrorKind → Stream → Prop) s :
  (∀ options, Q tt (s_with_timeouts (Some timeout) (s_write_timeout s) options s)) →
  (∀ kind options, R kind (s_with_timeouts (s_read_timeout s) (s_write_timeout s) options s)) →
  wp (set_read_timeout timeout) Q R s.
Proof. intros HQ HR. unfold wp, set_read_timeout, stream_option. destruct (s_options s) as [|[kind|] rest]; auto. Qed.

Lemma wp_set_write_timeout timeout (Q : unit → Stream → Prop) (R : ErrorKind → Stream → Prop) s :
  (∀ options, Q tt (s_with_timeouts (s_read_timeout s) (Some timeout) options s)) →
  (∀ kind options, R kind (s_with_timeouts (s_read_timeout s) (s_write_timeout s) options s)) →
  wp (set_write_timeout timeout) Q R s.
Proof. intros HQ HR. unfold wp, set_write_timeout, stream_option. destruct (s_options s) as [|[kind|] rest]; auto. Qed.

(** The lifetime left, when the clock has not reached the deadline. *)
Lemma dft_remaining_spec t :
  wp dft_remaining (λ remaining t', quiet t t' ∧ (0 < remaining)%N ∧ s_read_timeout (dft_stream t') = s_read_timeout (dft_stream t))
    (λ e t', quiet t t' ∧ e = Transport_Deadline Deadline_Connection) t.
Proof.
  unfold dft_remaining. apply wp_bind, wp_get, wp_bind, wp_dft_io. unfold wp, instant_now.
  destruct (s_instants (dft_stream t)) as [|now [|next later]]; cbv iota beta;
    match goal with |- context [(?a =? 0)%N] => destruct (N.eqb_spec a 0) end;
    (split; [done|]); try done; (split; [lia|done]).
Qed.

Lemma prepare_read_spec t :
  wp prepare_read
    (λ tighter t', quiet t t' ∧ ∃ remaining, (0 < remaining)%N ∧ tighter = (remaining <=? tp_read (dft_policy t))%N ∧
       s_read_timeout (dft_stream t') = Some (N.min remaining (tp_read (dft_policy t))))
    (λ _ t', quiet t t') t.
Proof.
  unfold prepare_read. apply wp_bind. eapply wp_mono; [apply dft_remaining_spec| |by intros ? ? []]; cbn beta.
  intros remaining t1 ((Hsup & Hw & Hp & Hd) & Hpos & _).
  apply wp_bind, wp_get, wp_bind, wp_dft_io, wp_map_err, wp_set_read_timeout; [|done].
  intros options. apply wp_ret. rewrite Hp. split; [done|]. by exists remaining.
Qed.

Lemma prepare_write_spec t : wp prepare_write (λ _ t', quiet t t') (λ _ t', quiet t t') t.
Proof.
  unfold prepare_write. apply wp_bind. eapply wp_mono; [apply dft_remaining_spec| |by intros ? ? []]; cbn beta.
  intros remaining t1 ((Hsup & Hw & Hp & Hd) & Hpos & _).
  by apply wp_bind, wp_get, wp_bind, wp_dft_io, wp_map_err, wp_set_write_timeout.
Qed.

(** One read of the stream under the deadlines: the bytes come from the supply, and
    nothing is written. *)
Lemma wp_dft_read size f t (Q : str → DeadlineFramedTransport → Prop) (R : TransportError → DeadlineFramedTransport → Prop) :
  (∀ t' bytes rest, (supply (dft_stream t)).1 = bytes ++ rest → len bytes = size →
     supply (dft_stream t') = (rest, (supply (dft_stream t)).2) →
     s_written (dft_stream t') = s_written (dft_stream t) → Q bytes t') →
  (∀ t' e, s_written (dft_stream t') = s_written (dft_stream t) → R e t') →
  wp (dft_io (st_map_err f (read_exact size))) Q R t.
Proof.
  intros HQ HR. apply wp_dft_io, wp_map_err, wp_read_exact.
  - intros s' bytes rest Hs Hsup Hlen Hrest. eapply HQ; eauto using only_reads_written.
  - intros s' Hs _. apply HR. by apply only_reads_written.
Qed.

Lemma dft_read_frame_spec t :
  wp DeadlineFramedTransport_read_frame
    (λ frame t', frame_wf frame ∧
       (supply (dft_stream t)).1 = ControlFrame_encode frame ++ (supply (dft_stream t')).1 ∧
       s_written (dft_stream t') = s_written (dft_stream t))
    (λ _ t', s_written (dft_stream t') = s_written (dft_stream t)) t.
Proof.
  unfold DeadlineFramedTransport_read_frame. apply wp_bind.
  eapply wp_mono; [apply prepare_read_spec| |by intros ? ? (_ & ? & _)]; cbn beta.
  intros tighter t1 [(Hsup & Hw & _) _]. apply wp_bind, wp_dft_read; [|by intros ? ? ->].
  intros t2 prefix rest Hpre H4 Hrest Hw2. apply wp_bind.
  eapply wp_mono; [apply prepare_read_spec| |intros ? ? (_ & -> & _); by rewrite Hw2]; cbn beta.
  intros tighter' t3 [(Hsup3 & Hw3 & _) _]. apply wp_bind, wp_query.
  destruct (ValidatedFrameLength_from_network_prefix prefix) as [n|] eqn:Hn; cbn [map_err]; [|congruence].
  apply wp_bind, wp_dft_read; [|by intros ? ? ->; congruence].
  intros t4 payload rest' Hpay Hlen Hrest' Hw4. apply wp_query.
  destruct (frame_of_prefix prefix payload n) as [Hf Hprefix]; [done..|]. rewrite Hf. cbn [map_err]. split_and!; [done| |congruence].
  rewrite Hsup3, Hrest in Hpay. cbn [fst] in Hpay. unfold ControlFrame_encode. cbn [cf_payload cf_wire_length].
  rewrite <- Hsup, Hpre, Hpay, Hprefix, Hrest'. cbn [fst]. by rewrite <- (assoc_L (++)).
Qed.

#[export, refine] Instance DeadlineFramedTransport_laws : FramedIoLaws DeadlineFramedTransport := {
  coming t := (supply (dft_stream t)).1;
  sent t := s_written (dft_stream t);
  read_frame_spec := dft_read_frame_spec;
  write_frame_spec := _;
}.
Proof.
  intros frame t. cbn [write_frame DeadlineFramedTransport_FramedIo]. unfold DeadlineFramedTransport_write_frame.
  assert (∀ t', quiet t t' → ∃ part, s_written (dft_stream t') = s_written (dft_stream t) ++ part ∧
    part `prefix_of` ControlFrame_encode frame ∧ (supply (dft_stream t')).1 = (supply (dft_stream t)).1) as Hquiet.
  { intros t' (-> & -> & _). exists []. rewrite app_nil_r. split_and!; [done|apply prefix_nil|done]. }
  destruct (_ <? _)%N; [by apply wp_fail, Hquiet|]. apply wp_bind. eapply wp_mono; [apply prepare_write_spec| |auto]; cbn beta.
  intros tighter t1 (Hsup & Hw & _). apply wp_dft_io, wp_map_err, wp_write_all; cbn [dft_stream dft_with_stream].
  - intros s' Hs%only_writes_supply ->. by rewrite Hs, Hsup, Hw.
  - intros e s' part Hs%only_writes_supply -> Hpre. exists part. by rewrite Hs, Hsup, Hw.
Defined.
