(* ===== verification/BrokerClient.v ===== *)
(** * The guest's broker client ([crates/egress-protocol/src/client.rs])

    One sequential session over a byte stream: the client owns the sequence and the
    request identities, and both are spent before the first byte is written.  SHA-256
    is the argument [sha256]. *)

From S2P Require Import Prelude Bytes Http GitHub ControlFrame Budget ReplayGuard Operation Cbor Response ResponseChunk Stream.

Definition MAX_RESPONSE_CHUNKS : N :=
  (MAX_EXPANDED_CANONICAL_RESPONSE_BYTES + MAX_RESPONSE_CHUNK_BYTES - 1) / MAX_RESPONSE_CHUNK_BYTES.

Definition DEFAULT_MAX_REQUESTS : N := 1024.

Inductive ClientIoOperation :=
  | WriteFramePrefix
  | WriteFramePayload
  | Flush
  | ReadFramePrefix
  | ReadFramePayload.

(** [Client_Panic] is no error of the source: it stands for the panic of [from_chunks],
    which [reassemble_total] excludes. *)
Inductive ClientError :=
  | Client_RequestEncoding (error : CborError)
  | Client_Frame (error : FrameError)
  | Client_Io (operation : ClientIoOperation) (source : ErrorKind)
  | Client_TruncatedFrame (expected received : N) (operation : ClientIoOperation)
  | Client_SequenceExhausted
  | Client_RequestIdentityExhausted
  | Client_RequestLimitReached (maximum : N)
  | Client_RequestIdentityReuse (request : BrokerRequestId)
  | Client_ResponseRequestMismatch (expected received : BrokerRequestId)
  | Client_InvalidResponse (response : ResponseCborError) (chunk : ResponseChunkError)
  | Client_ResponseChunkCountExceeded (received maximum : N)
  | Client_ResponseChunk (error : ResponseChunkError)
  | Client_Response (error : ResponseCborError)
  | Client_Panic.

(** [gc_committed] is the history of the requests the client has spent an identity and
    a sequence number on; no definition reads it. *)
Record GuestBrokerClient := {
  gc_stream : Stream;
  gc_session : BrokerSessionId;
  gc_next_sequence : option N;
  gc_next_request_nonce : option N;
  gc_issued_requests : gset BrokerRequestId;
  gc_max_requests : N;
  gc_committed : list CanonicalBrokerRequest;
}.

Definition gc_with_stream (stream : Stream) (self : GuestBrokerClient) : GuestBrokerClient :=
  {| gc_stream := stream; gc_session := gc_session self; gc_next_sequence := gc_next_sequence self;
     gc_next_request_nonce := gc_next_request_nonce self; gc_issued_requests := gc_issued_requests self;
     gc_max_requests := gc_max_requests self; gc_committed := gc_committed self |}.
Definition gc_with_nonce (nonce : option N) (self : GuestBrokerClient) : GuestBrokerClient :=
  {| gc_stream := gc_stream self; gc_session := gc_session self; gc_next_sequence := gc_next_sequence self;
     gc_next_request_nonce := nonce; gc_issued_requests := gc_issued_requests self;
     gc_max_requests := gc_max_requests self; gc_committed := gc_committed self |}.
Definition gc_commit (request : BrokerRequestId) (sequence : N) (canonical : CanonicalBrokerRequest)
    (self : GuestBrokerClient) : GuestBrokerClient :=
  {| gc_stream := gc_stream self; gc_session := gc_session self; gc_next_sequence := checked_add_u64 sequence 1;
     gc_next_request_nonce := gc_next_request_nonce self;
     gc_issued_requests := {[ request ]} ∪ gc_issued_requests self;
     gc_max_requests := gc_max_requests self; gc_committed := gc_committed self ++ [canonical] |}.

Definition with_limits (stream : Stream) (session : BrokerSessionId) (max_requests : N) : GuestBrokerClient :=
  {| gc_stream := stream; gc_session := session; gc_next_sequence := Some 0%N; gc_next_request_nonce := Some 1%N;
     gc_issued_requests := ∅; gc_max_requests := max_requests; gc_committed := [] |}.

Definition GuestBrokerClient_new (stream : Stream) (session : BrokerSessionId) : GuestBrokerClient :=
  with_limits stream session DEFAULT_MAX_REQUESTS.

Abbreviation CM := (ST GuestBrokerClient ClientError).

Definition gc_io {A} (m : IO ClientError A) : CM A := λ self,
  let '(r, stream) := m (gc_stream self) in (r, gc_with_stream stream self).

(** ** Frames *)

(** [u32::try_from] of the length of a built frame cannot fail, and is written out. *)
Definition client_write_frame (frame : ControlFrame) : CM unit :=
  let payload := cf_payload frame in
  let length := len payload in
  if negb (length <? 2 ^ 32)%N then st_fail (Client_Frame (FrameTooLarge length))
  else
    _ ← gc_io (st_map_err (Client_Io WriteFramePrefix) (write_all (be_bytes 4 length)));
    _ ← gc_io (st_map_err (Client_Io WriteFramePayload) (write_all payload));
    gc_io (st_map_err (Client_Io Flush) stream_flush).

(** A read never returns more than the room it is given, so [received] does not
    overflow. *)
Definition read_exact_bounded (size : N) (operation : ClientIoOperation) : CM str :=
  gc_io (st_map_err (λ e, match e with
                          | Ended received => Client_TruncatedFrame size received operation
                          | Failed source => Client_Io operation source
                          end) (fill size)).

Definition read_frame_payload : CM str :=
  prefix ← read_exact_bounded (N.of_nat CONTROL_FRAME_LENGTH_PREFIX_BYTES) ReadFramePrefix;
  length ← st_query (λ _, map_err Client_Frame (ValidatedFrameLength_from_network_prefix prefix));
  read_exact_bounded length ReadFramePayload.

(** ** Responses *)

Definition validate_response (request : BrokerRequestId) (response : CanonicalBrokerResponse)
    : result ClientError CanonicalBrokerResponse :=
  if negb (bool_decide (rsp_request response = request))
  then Err (Client_ResponseRequestMismatch request (rsp_request response))
  else Ok response.

(** The loop over the chunks after the first. *)
Fixpoint read_chunks (request : BrokerRequestId) (remaining : nat) (chunks : list CanonicalResponseChunk)
    : CM (list CanonicalResponseChunk) :=
  match remaining with
  | O => mret chunks
  | S remaining =>
      payload ← read_frame_payload;
      chunk ← st_query (λ _, map_err Client_ResponseChunk (chunk_decode payload));
      if negb (bool_decide (crc_request chunk = request))
      then st_fail (Client_ResponseRequestMismatch request (crc_request chunk))
      else read_chunks request remaining (chunks ++ [chunk])
  end.

Section client.
  Context (sha256 : str → str).

Definition read_chunked_response (request : BrokerRequestId) (first : CanonicalResponseChunk)
    : CM CanonicalBrokerResponse :=
  if negb (bool_decide (crc_request first = request))
  then st_fail (Client_ResponseRequestMismatch request (crc_request first))
  else if (MAX_RESPONSE_CHUNKS <? crc_count first)%N
  then st_fail (Client_ResponseChunkCountExceeded (crc_count first) MAX_RESPONSE_CHUNKS)
  else
    chunks ← read_chunks request (N.to_nat (crc_count first) - 1) [first];
    st_query (λ _, match reassemble_response_chunks sha256 chunks with
                   | Some r => map_err Client_ResponseChunk r
                   | None => Err Client_Panic
                   end).

Definition read_response (request : BrokerRequestId) : CM CanonicalBrokerResponse :=
  payload ← read_frame_payload;
  match CanonicalBrokerResponse_decode payload with
  | Ok response => st_query (λ _, validate_response request response)
  | Err response_error =>
      match chunk_decode payload with
      | Ok first => read_chunked_response request first
      | Err chunk_error => st_fail (Client_InvalidResponse response_error chunk_error)
      end
  end.

(** ** Requests *)

Definition request_with_id (request : BrokerRequestId) (operation : BrokerOperation) : CM CanonicalBrokerResponse :=
  self ← st_get;
  if (gc_max_requests self <=? N.of_nat (size (gc_issued_requests self)))%N
  then st_fail (Client_RequestLimitReached (gc_max_requests self))
  else if bool_decide (request ∈ gc_issued_requests self)
  then st_fail (Client_RequestIdentityReuse request)
  else
    sequence ← st_query (λ _, ok_or (gc_next_sequence self) Client_SequenceExhausted);
    let canonical := CanonicalBrokerRequest_new sha256 (gc_session self) sequence request operation in
    payload ← st_query (λ _, map_err Client_RequestEncoding (CanonicalBrokerRequest_encode canonical));
    frame ← st_query (λ _, map_err Client_Frame (ControlFrame_new payload));
    _ ← st_modify (gc_commit request sequence canonical);
    _ ← client_write_frame frame;
    read_response request.

Definition next_request_id : CM BrokerRequestId :=
  self ← st_get;
  nonce ← st_query (λ _, ok_or (gc_next_request_nonce self) Client_RequestIdentityExhausted);
  let bytes := take 8 (gc_session self) ++ be_bytes 8 nonce in
  _ ← st_modify (gc_with_nonce (checked_add_u64 nonce 1));
  mret bytes.

(** [request] and its alias [execute]. *)
Definition client_request (operation : BrokerOperation) : CM CanonicalBrokerResponse :=
  request ← next_request_id;
  request_with_id request operation.
End client.
