(* ===== verification/BrokerServer.v ===== *)
(** * Serving a broker connection ([crates/egress-broker/src/server.rs])

    The loop from framed requests to framed responses, over any transport and any
    dispatcher.  SHA-256 is the argument [sha256]. *)

From S2P Require Import Prelude Bytes Time Http GitHub Capability ControlFrame Budget ReplayGuard Operation Cbor.
From S2P Require Import Response ResponseChunk BrokerWalState BrokerWal Kernel PublicFetch GitHubAdapter Dispatch Stream Transport.

Inductive ConnectionCloseReason :=
  | Close_RequestLimitReached
  | Close_AccountingInvariant
  | Close_CommittedButUnrecorded.

Record ConnectionReport := { rep_requests_served : N; rep_close_reason : ConnectionCloseReason }.

Definition accounting_invariant_closed (self : ConnectionReport) : bool :=
  match rep_close_reason self with
  | Close_AccountingInvariant | Close_CommittedButUnrecorded => true
  | Close_RequestLimitReached => false
  end.

(** [RequestDispatcher]: one frame under the host's context. *)
Class RequestDispatcher (D : Type) := {
  dispatch_request : ControlFrame → DispatchContext → ST D DispatchStop BrokerResponse;
}.

Inductive ServerError :=
  | Server_Accept (error : ErrorKind)
  | UnexpectedPeer (expected received : N)
  | Server_Transport (error : TransportError)
  | Server_Dispatch (error : DispatchError)
  | Server_Response (error : ResponseCborError)
  | Server_ResponseChunk (error : ResponseChunkError).

(** What ends a connection without a report: an error, or a panic of the dispatcher. *)
Inductive ServerStop :=
  | ServerFails (error : ServerError)
  | ServerUnwinds.

Definition dispatch_stop (stop : DispatchStop) : ServerStop :=
  match stop with Stop error => ServerFails (Server_Dispatch error) | Unwind => ServerUnwinds end.

(** [..identity.clone()] with the time of this request. *)
Definition context_at (identity : DispatchContext) (now : MonotonicTime) : DispatchContext :=
  {| dc_caller := dc_caller identity; dc_capability := dc_capability identity; dc_now := now |}.

(** The responses after which the connection must stop. *)
Definition close_reason (response : BrokerResponse) : option ConnectionCloseReason :=
  match br_outcome response with
  | Rejected Reject_AccountingInvariant => Some Close_AccountingInvariant
  | Rejected Reject_CommittedButUnrecorded => Some Close_CommittedButUnrecorded
  | Succeeded _
  | Rejected (Reject_NotAuthorized | Reject_Budget | Reject_OperationMismatch | Reject_PublicFetch _
             | Reject_GitHub _ | Reject_AuditUnavailable) => None
  end.

(** [response_to_wire]; the two [into_wire] give the parts the responses carry. *)
Definition response_to_wire (response : BrokerResponse) : CanonicalBrokerResponse :=
  let outcome :=
    match br_outcome response with
    | Succeeded (EffectPublic public) => WirePublic (pr_wire public)
    | Succeeded (EffectGitHub github) => WireGitHub (ghr_wire github)
    | Rejected rejection =>
        WireRejected match rejection with
                     | Reject_NotAuthorized => Wire_NotAuthorized
                     | Reject_Budget => Wire_Budget
                     | Reject_OperationMismatch => Wire_OperationMismatch
                     | Reject_PublicFetch _ => Wire_PublicFetch
                     | Reject_GitHub _ => Wire_GitHub
                     | Reject_AccountingInvariant => Wire_AccountingInvariant
                     | Reject_AuditUnavailable => Wire_AuditUnavailable
                     | Reject_CommittedButUnrecorded => Wire_CommittedButUnrecorded
                     end
    end in
  {| rsp_request := br_request response; rsp_outcome := outcome |}.

(** ** Writing a response *)

Section responses.
  Context {T : Type} `{FramedIo T} (sha256 : str → str).

Definition write_payload_frame (payload : str) : ST T ServerError unit :=
  response_frame ← st_query (λ _, map_err (λ error, Server_Transport (Transport_Frame error)) (ControlFrame_new payload));
  st_map_err Server_Transport (write_frame response_frame).

(** The [for] over the payload iterator. *)
Fixpoint write_payloads (payloads : list (CR str)) : ST T ServerError unit :=
  match payloads with
  | [] => mret tt
  | payload :: rest =>
      payload ← st_query (λ _, map_err Server_ResponseChunk payload);
      _ ← write_payload_frame payload;
      write_payloads rest
  end.

Definition write_wire_response (wire : CanonicalBrokerResponse) : ST T ServerError unit :=
  match CanonicalBrokerResponse_encode wire with
  | Ok payload => write_payload_frame payload
  | Err (Response_PayloadTooLarge _) =>
      iter ← st_query (λ _, map_err Server_ResponseChunk (chunk_iter sha256 wire));
      write_payloads (ci_items sequence_encoded_chunk iter)
  | Err error => st_fail (Server_Response error)
  end.
End responses.

(** ** The connection loop *)

Section server.
  Context {T D C : Type} `{FramedIo T} `{RequestDispatcher D}.
  Context (clock : C → MonotonicTime * C) (sha256 : str → str).

Record ServedConnection := { cn_transport : T; cn_dispatcher : D; cn_clock : C }.

Abbreviation SM := (ST ServedConnection ServerStop).

Definition on_transport {A} (m : ST T ServerError A) : SM A := λ self,
  let '(r, transport) := m (cn_transport self) in
  (map_err ServerFails r,
   {| cn_transport := transport; cn_dispatcher := cn_dispatcher self; cn_clock := cn_clock self |}).

Definition on_dispatcher {A} (m : ST D DispatchStop A) : SM A := λ self,
  let '(r, dispatcher) := m (cn_dispatcher self) in
  (map_err dispatch_stop r,
   {| cn_transport := cn_transport self; cn_dispatcher := dispatcher; cn_clock := cn_clock self |}).

Definition read_clock : SM MonotonicTime := λ self,
  let '(now, later) := clock (cn_clock self) in
  (Ok now, {| cn_transport := cn_transport self; cn_dispatcher := cn_dispatcher self; cn_clock := later |}).

(** The body of the loop, up to the test of the close reason. *)
Definition serve_request (identity : DispatchContext) : SM (option ConnectionCloseReason) :=
  frame ← on_transport (st_map_err Server_Transport read_frame);
  now ← read_clock;
  response ← on_dispatcher (dispatch_request frame (context_at identity now));
  let close_reason := close_reason response in
  let wire := response_to_wire response in
  _ ← on_transport (write_wire_response sha256 wire);
  mret close_reason.

(** [remaining] requests may still be served after [request_index]. *)
Fixpoint serve_loop (identity : DispatchContext) (max_requests : N) (request_index : N) (remaining : nat)
    : SM ConnectionReport :=
  match remaining with
  | O => mret {| rep_requests_served := max_requests; rep_close_reason := Close_RequestLimitReached |}
  | S remaining =>
      closing ← serve_request identity;
      match closing with
      | Some close_reason =>
          mret {| rep_requests_served := request_index + 1; rep_close_reason := close_reason |}
      | None => serve_loop identity max_requests (request_index + 1) remaining
      end
  end.

Definition serve_framed_connection (identity : DispatchContext) (max_requests : N) : SM ConnectionReport :=
  serve_loop identity max_requests 0 (N.to_nat max_requests).
End server.
Arguments ServedConnection : clear implicits.

(** ** The entry points *)

Section entry.
  Context {D C : Type} `{RequestDispatcher D} (clock : C → MonotonicTime * C) (sha256 : str → str).

(** The stream is dropped at the end; the dispatcher and the clock are the caller's. *)
Definition serve_connection (stream : Stream) (identity : DispatchContext) (max_requests : N) (self : D * C)
    : result ServerStop ConnectionReport * ServedConnection FramedTransport D C :=
  serve_framed_connection clock sha256 identity max_requests
    {| cn_transport := {| ft_stream := stream |}; cn_dispatcher := self.1; cn_clock := self.2 |}.

(** [inl] is a refusal before any byte is read. *)
Definition serve_connection_with_policy (stream : Stream) (policy : TransportPolicy) (identity : DispatchContext)
    (max_requests : N) (self : D * C)
    : ServerError + (result ServerStop ConnectionReport * ServedConnection DeadlineFramedTransport D C) :=
  match DeadlineFramedTransport_new stream policy with
  | Err error => inl (Server_Transport error)
  | Ok transport =>
      inr (serve_framed_connection clock sha256 identity max_requests
             {| cn_transport := transport; cn_dispatcher := self.1; cn_clock := self.2 |})
  end.

Definition accept_expected {L} `{PeerBoundListener L} (listener : L) (expected_peer_cid : N)
    : result ServerError Stream :=
  '(peer_cid, stream) ← map_err Server_Accept (accept_peer listener);
  if negb (peer_cid =? expected_peer_cid)%N then Err (UnexpectedPeer expected_peer_cid peer_cid) else Ok stream.

Definition serve_expected_peer {L} `{PeerBoundListener L} (listener : L) (expected_peer_cid : N)
    (identity : DispatchContext) (max_requests : N) (self : D * C)
    : ServerError + (result ServerStop ConnectionReport * ServedConnection FramedTransport D C) :=
  match accept_expected listener expected_peer_cid with
  | Err error => inl error
  | Ok stream => inr (serve_connection stream identity max_requests self)
  end.

Definition serve_expected_peer_with_policy {L} `{PeerBoundListener L} (listener : L) (expected_peer_cid : N)
    (policy : TransportPolicy) (identity : DispatchContext) (max_requests : N) (self : D * C)
    : ServerError + (result ServerStop ConnectionReport * ServedConnection DeadlineFramedTransport D C) :=
  match accept_expected listener expected_peer_cid with
  | Err error => inl error
  | Ok stream => serve_connection_with_policy stream policy identity max_requests self
  end.
End entry.

(** ** The broker's dispatcher behind the server *)

Section instance.
  Context {X W : Type} `{CapabilityExecutor X W} `{DispatchAdapters W} (sha256 : str → str).

(** The dispatcher with the verdicts on the appends of the coming dispatches; once
    they run out it is [sd_later]. *)
Record ServedDispatcher := { sd_dispatcher : BrokerDispatcher X W; sd_io : list DispatchIo; sd_later : DispatchIo }.

Definition served_dispatch (frame : ControlFrame) (context : DispatchContext)
    : ST ServedDispatcher DispatchStop BrokerResponse := λ self,
  let io := default (sd_later self) (head (sd_io self)) in
  let '(r, dispatcher) := dispatch_control_frame sha256 io frame context (sd_dispatcher self) in
  (r, {| sd_dispatcher := dispatcher; sd_io := tail (sd_io self); sd_later := sd_later self |}).

#[export] Instance ServedDispatcher_dispatcher : RequestDispatcher ServedDispatcher := {
  dispatch_request := served_dispatch;
}.
End instance.
Arguments ServedDispatcher : clear implicits.
