(* ===== verification/WireProps.v ===== *)
(** * Responses between the server and the client

    The server writes a response as one frame or as a sequence of chunk frames; the
    client reads back the same response from those bytes, however the stream cuts
    them. *)

From S2P Require Import Prelude Bytes Http GitHub ControlFrame Budget ReplayGuard Operation Cbor CborProps.
From S2P Require Import Response ResponseChunk ResponseProps ResponseChunkProps Kernel PublicFetch GitHubAdapter Dispatch.
From S2P Require Import Stream Transport BrokerClient BrokerServer.

Definition frame_of (payload : str) : ControlFrame := {| cf_payload := payload; cf_wire_length := len payload |}.

Definition framed (payloads : list str) : str := concat ((λ payload, ControlFrame_encode (frame_of payload)) <$> payloads).

Lemma framed_cons payload payloads :
  framed (payload :: payloads) = ControlFrame_encode (frame_of payload) ++ framed payloads.
Proof. done. Qed.

Lemma frame_of_wf payload : (len payload <= MAX_CONTROL_FRAME_BYTES)%N → frame_wf (frame_of payload).
Proof. intros H. by apply ControlFrame_new_ok. Qed.

Lemma frame_of_payload frame : frame_wf frame → frame = frame_of (cf_payload frame).
Proof. by intros [_ Hf]%ControlFrame_new_ok. Qed.

(** The chunks of a response. *)
Definition reply_chunks (sha256 : str → str) (wire : CanonicalBrokerResponse) : list CanonicalResponseChunk :=
  canonical_chunks (rsp_request wire) (sha256 (encoding wire)) (encoding wire).

(** The payloads a response travels in. *)
Definition reply_payloads (sha256 : str → str) (wire : CanonicalBrokerResponse) : list str :=
  if (len (encoding wire) <=? MAX_CONTROL_FRAME_BYTES)%N then [encoding wire]
  else enc_chunk <$> reply_chunks sha256 wire.

Section replies.
  Context (sha256 : str → str) (Hsha : ∀ s, len (sha256 s) = RESPONSE_DIGEST_BYTES).

Lemma encode_single wire :
  (len (encoding wire) <= MAX_CONTROL_FRAME_BYTES)%N → CanonicalBrokerResponse_encode wire = Ok (encoding wire).
Proof. intros H. apply encode_with_limit_ok; [done|]. split; [apply concat_parts|done]. Qed.

Lemma encode_too_large wire :
  response_wf wire → (MAX_CONTROL_FRAME_BYTES < len (encoding wire))%N →
  CanonicalBrokerResponse_encode wire = Err (Response_PayloadTooLarge (len (encoding wire))).
Proof.
  intros Hwf H. unfold CanonicalBrokerResponse_encode, encode_with_limit.
  rewrite total_length_encoding by by apply response_expandable. by rewrite (proj2 (N.ltb_lt _ _) H).
Qed.

(** Every chunk of a reply is typed, valid and fits a frame. *)
Lemma reply_chunk wire c :
  response_wf wire → c ∈ reply_chunks sha256 wire →
  chunk_encode c = Ok (enc_chunk c) ∧ chunk_decode (enc_chunk c) = Ok c ∧
  (len (enc_chunk c) <= MAX_CONTROL_FRAME_BYTES)%N ∧ crc_request c = rsp_request wire.
Proof.
  intros Hwf (i & -> & Hi%elem_of_seq)%list_elem_of_fmap.
  assert (chunk_typed (chunk_piece (rsp_request wire) (sha256 (encoding wire)) (encoding wire) i)) as Ht
    by (split; [apply Hwf|apply Hsha]).
  destruct (chunk_encode_fits _ Ht ltac:(apply chunk_piece_valid; [by apply response_expandable|lia])) as [Henc Hl].
  split_and!; [done|by apply chunk_decode_exact|done|done].
Qed.

Lemma reply_payload_fits wire payload :
  response_wf wire → payload ∈ reply_payloads sha256 wire → (len payload <= MAX_CONTROL_FRAME_BYTES)%N.
Proof.
  intros Hwf. unfold reply_payloads. destruct (N.leb_spec (len (encoding wire)) MAX_CONTROL_FRAME_BYTES) as [H|_].
  - by intros ->%list_elem_of_singleton.
  - intros (c & -> & Hc)%list_elem_of_fmap. by apply (reply_chunk wire).
Qed.

(** What the streaming iterator yields. *)
Lemma chunk_iter_payloads wire :
  response_wf wire →
  ∃ iter, chunk_iter sha256 wire = Ok iter ∧
    ci_items sequence_encoded_chunk iter = Ok <$> (enc_chunk <$> reply_chunks sha256 wire).
Proof.
  intros Hwf. pose proof (response_expandable wire Hwf) as Hx. unfold chunk_iter, mbind, result_bind.
  rewrite sequence_new_ok by done. eexists. split; [done|].
  rewrite ci_items_all by (by apply chunk_total_bounded). unfold reply_chunks, canonical_chunks. cbn [ccs_count].
  rewrite <- !list_fmap_compose. apply list_fmap_ext. intros k i [-> Hk]%lookup_seq.
  rewrite sequence_encoded_chunk_ok by (done || lia). unfold compose.
  apply (reply_chunk wire); [done|]. unfold reply_chunks, canonical_chunks. apply list_elem_of_fmap_2, elem_of_seq. lia.
Qed.
End replies.

(** ** The server writes *)

Section writing.
  Context {T : Type} `{FramedIoLaws T} (sha256 : str → str) (Hsha : ∀ s, len (sha256 s) = RESPONSE_DIGEST_BYTES).

(** [bytes] were appended, or a part of them before a failure of the transport. *)
Definition wrote (bytes : str) (t t' : T) : Prop := sent t' = sent t ++ bytes ∧ coming t' = coming t.

Definition broke_off (bytes : str) (t : T) (e : ServerError) (t' : T) : Prop :=
  (∃ error, e = Server_Transport error) ∧ ∃ part, wrote part t t' ∧ part `prefix_of` bytes.

Lemma broke_off_after before bytes t t1 e t' :
  wrote before t t1 → broke_off bytes t1 e t' → broke_off (before ++ bytes) t e t'.
Proof.
  intros [Hs Hc] (He & part & [Hs' Hc'] & Hpre). split; [done|]. exists (before ++ part).
  split; [|by apply prefix_app]. split; [|congruence]. by rewrite Hs', Hs, (assoc_L (++)).
Qed.

Lemma broke_off_more bytes more t e t' : broke_off bytes t e t' → broke_off (bytes ++ more) t e t'.
Proof. intros (He & part & Hw & Hpre). split; [done|]. exists part. split; [done|]. by apply prefix_app_r. Qed.

Lemma write_payload_frame_spec payload t :
  (len payload <= MAX_CONTROL_FRAME_BYTES)%N →
  wp (write_payload_frame payload) (λ _, wrote (ControlFrame_encode (frame_of payload)) t)
    (broke_off (ControlFrame_encode (frame_of payload)) t) t.
Proof.
  intros Hlen. unfold write_payload_frame. apply wp_bind, wp_query.
  rewrite (proj2 (ControlFrame_new_ok payload (frame_of payload)) (conj Hlen eq_refl)). cbn [map_err].
  apply wp_map_err. eapply wp_mono; [apply write_frame_spec|done|]. cbn beta.
  intros error t' (part & Hs & Hpre & Hc). split; [eauto|]. by exists part.
Qed.

Lemma write_payloads_spec payloads t :
  Forall (λ payload, (len payload <= MAX_CONTROL_FRAME_BYTES)%N) payloads →
  wp (write_payloads (Ok <$> payloads)) (λ _, wrote (framed payloads) t) (broke_off (framed payloads) t) t.
Proof.
  intros Hall. revert t. induction Hall as [|payload payloads Hlen Hall IH]; intros t.
  { apply wp_ret. split; [by rewrite app_nil_r|done]. }
  rewrite fmap_cons, framed_cons. cbn [write_payloads]. apply wp_bind, wp_query. cbn [map_err].
  apply wp_bind. eapply wp_mono; [by apply write_payload_frame_spec| |auto using broke_off_more]. cbn beta.
  intros _ t1 Hw. eapply wp_mono; [apply IH| |eauto using broke_off_after]. cbn beta.
  intros _ t' [Hs Hc]. destruct Hw as [Hs1 Hc1]. split; [|congruence]. by rewrite Hs, Hs1, (assoc_L (++)).
Qed.

Lemma write_wire_response_spec wire t :
  response_wf wire →
  wp (write_wire_response sha256 wire) (λ _, wrote (framed (reply_payloads sha256 wire)) t)
    (broke_off (framed (reply_payloads sha256 wire)) t) t.
Proof.
  intros Hwf. unfold write_wire_response, reply_payloads.
  destruct (N.leb_spec (len (encoding wire)) MAX_CONTROL_FRAME_BYTES) as [Hle|Hgt].
  - rewrite encode_single by done. rewrite framed_cons. unfold framed. rewrite app_nil_r. by apply write_payload_frame_spec.
  - rewrite encode_too_large by done. destruct (chunk_iter_payloads sha256 Hsha wire Hwf) as (iter & Hiter & Hitems).
    apply wp_bind, wp_query. rewrite Hiter. cbn [map_err]. rewrite Hitems. apply write_payloads_spec, Forall_fmap, Forall_forall.
    intros c Hc. by apply (reply_chunk sha256 Hsha wire).
Qed.
End writing.

(** ** The client reads *)

(** The client's stream was read and nothing else changed. *)
Definition client_read (c c' : GuestBrokerClient) : Prop :=
  c' = gc_with_stream (gc_stream c') c ∧ only_reads (gc_stream c) (gc_stream c').

Definition client_supply (c : GuestBrokerClient) : str * Ending := supply (gc_stream c).

Lemma client_read_refl c : client_read c c.
Proof. split; [by destruct c|auto with stream]. Qed.

Lemma client_read_trans c c1 c2 : client_read c c1 → client_read c1 c2 → client_read c c2.
Proof. intros [H1 Hs1] [H2 Hs2]. split; [rewrite H2, H1; done|eauto with stream]. Qed.

Lemma read_exact_bounded_spec n operation (Q : str → GuestBrokerClient → Prop) (R : ClientError → GuestBrokerClient → Prop) c :
  (∀ c' bytes rest, client_read c c' → (client_supply c).1 = bytes ++ rest → len bytes = n →
     client_supply c' = (rest, (client_supply c).2) → Q bytes c') →
  (∀ c' e, client_read c c' → (len (client_supply c).1 < n)%N → R e c') →
  wp (read_exact_bounded n operation) Q R c.
Proof.
  intros HQ HR. unfold read_exact_bounded, gc_io.
  pose proof (wp_fill n
    (λ bytes s', Q bytes (gc_with_stream s' c)) (λ e s', ∀ e', R e' (gc_with_stream s' c)) (gc_stream c)) as Hw.
  unfold wp, st_map_err in *. destruct (fill n (gc_stream c)) as [[bytes|e] s']; cbn [map_err]; apply Hw.
  all: try (intros s1 bytes1 rest Hs Hsup Hlen Hrest; by eapply HQ).
  all: intros s1 Hs Hlen e'; by apply HR.
Qed.

Lemma read_frame_payload_spec c :
  wp read_frame_payload
    (λ payload c', ∃ rest, (client_supply c).1 = ControlFrame_encode (frame_of payload) ++ rest ∧
       (len payload <= MAX_CONTROL_FRAME_BYTES)%N ∧ client_supply c' = (rest, (client_supply c).2) ∧ client_read c c')
    (λ _ c', client_read c c' ∧
       ∀ payload rest, (len payload <= MAX_CONTROL_FRAME_BYTES)%N →
         (client_supply c).1 ≠ ControlFrame_encode (frame_of payload) ++ rest) c.
Proof.
  unfold read_frame_payload. apply wp_bind, read_exact_bounded_spec.
  2:{ intros c' e Hc Hlen. split; [done|]. intros payload rest Hfit Heq. unfold ControlFrame_encode in Heq.
      rewrite Heq, !len_app in Hlen.
      unfold len at 1 in Hlen. rewrite length_be_bytes in Hlen. unfold CONTROL_FRAME_LENGTH_PREFIX_BYTES in Hlen. lia. }
  intros c1 prefix rest Hc1 Hpre H4 Hrest.
  assert (∀ payload more, (len payload <= MAX_CONTROL_FRAME_BYTES)%N →
    (client_supply c).1 = ControlFrame_encode (frame_of payload) ++ more →
    prefix = be_bytes 4 (len payload) ∧ rest = payload ++ more) as Hsplit.
  { intros payload more _ Heq. unfold ControlFrame_encode in Heq. rewrite Hpre, <- (assoc_L (++)) in Heq.
    apply app_inj_1 in Heq; [done|]. rewrite length_be_bytes. unfold len, CONTROL_FRAME_LENGTH_PREFIX_BYTES in H4. lia. }
  apply wp_bind, wp_query. destruct (ValidatedFrameLength_from_network_prefix prefix) as [n|] eqn:Hn; cbn [map_err].
  2:{ split; [done|]. intros payload more Hfit Heq. destruct (Hsplit payload more Hfit Heq) as [-> _].
      unfold ValidatedFrameLength_from_network_prefix in Hn. rewrite prefix_roundtrip in Hn by done.
      by rewrite (proj2 (N.ltb_ge _ _) Hfit) in Hn. }
  apply read_exact_bounded_spec; rewrite Hrest; cbn [fst snd].
  - intros c2 payload more Hc2 -> Hlen Hmore. destruct (frame_of_prefix prefix payload n) as [Hf Hprefix]; [done..|].
    apply ControlFrame_new_ok in Hf as [Hfit _]. exists more. split_and!; [|done|done|by eapply client_read_trans].
    rewrite Hpre, Hprefix, <- Hlen. unfold ControlFrame_encode. cbn [cf_payload cf_wire_length frame_of]. by rewrite <- (assoc_L (++)).
  - intros c2 e Hc2 Hlen. split; [by eapply client_read_trans|]. intros payload more Hfit Heq.
    destruct (Hsplit payload more Hfit Heq) as [-> ->]. unfold ValidatedFrameLength_from_network_prefix in Hn.
    rewrite prefix_roundtrip in Hn by done. rewrite (proj2 (N.ltb_ge _ _) Hfit) in Hn. injection Hn as <-.
    rewrite len_app in Hlen. lia.
Qed.

Lemma framed_inj p1 r1 p2 r2 :
  (len p1 <= MAX_CONTROL_FRAME_BYTES)%N → (len p2 <= MAX_CONTROL_FRAME_BYTES)%N →
  ControlFrame_encode (frame_of p1) ++ r1 = ControlFrame_encode (frame_of p2) ++ r2 → p1 = p2 ∧ r1 = r2.
Proof.
  intros H1%frame_of_wf H2%frame_of_wf Heq. pose proof (parse_encoded_frame _ r1 EndOfStream H1) as Hp.
  rewrite Heq, parse_encoded_frame in Hp by done. injection Hp as Hp _ Hr. by rewrite Hp, Hr.
Qed.

Lemma read_frame_payload_run payload rest c :
  (len payload <= MAX_CONTROL_FRAME_BYTES)%N → (client_supply c).1 = ControlFrame_encode (frame_of payload) ++ rest →
  ∃ c', read_frame_payload c = (Ok payload, c') ∧ client_supply c' = (rest, (client_supply c).2) ∧ client_read c c'.
Proof.
  intros Hfit Hsup. pose proof (read_frame_payload_spec c) as Hw. unfold wp in Hw.
  destruct (read_frame_payload c) as [[p|e] c']; [|destruct Hw as [_ Hno]; by edestruct Hno].
  destruct Hw as (more & Heq & Hp & Hs & Hc). rewrite Hsup in Heq. apply framed_inj in Heq as [-> ->]; [|done..].
  by exists c'.
Qed.

Lemma chunk_is_no_response c : ∃ e, CanonicalBrokerResponse_decode (enc_chunk c) = Err e.
Proof.
  destruct (CanonicalBrokerResponse_decode (enc_chunk c)) as [r|e] eqn:Hd; [|eauto].
  apply decode_with_limit_exact in Hd as (_ & _ & host & _ & Heq); [|done]. exfalso.
  apply (f_equal head) in Heq. discriminate Heq.
Qed.

Lemma read_chunks_run request cs acc rest c :
  Forall (λ chunk, chunk_decode (enc_chunk chunk) = Ok chunk ∧ crc_request chunk = request ∧
                   (len (enc_chunk chunk) <= MAX_CONTROL_FRAME_BYTES)%N) cs →
  (client_supply c).1 = framed (enc_chunk <$> cs) ++ rest →
  ∃ c', read_chunks request (length cs) acc c = (Ok (acc ++ cs), c') ∧
    client_supply c' = (rest, (client_supply c).2) ∧ client_read c c'.
Proof.
  intros Hall. revert acc c. induction Hall as [|chunk cs (Hdec & Hreq & Hfit) Hall IH]; intros acc c Hsup.
  { exists c. rewrite app_nil_r. split_and!; [done| |apply client_read_refl].
    simpl in Hsup. rewrite <- Hsup. by destruct (client_supply c). }
  rewrite fmap_cons, framed_cons, <- (assoc_L (++)) in Hsup.
  destruct (read_frame_payload_run _ _ c Hfit Hsup) as (c1 & Hrun & Hs1 & Hc1).
  destruct (IH (acc ++ [chunk]) c1) as (c' & Hrest & Hs' & Hc'); [by rewrite Hs1|].
  exists c'. rewrite Hs1 in Hs'. split_and!; [|done|by eapply client_read_trans].
  cbn [read_chunks length]. erewrite st_bind_ok by done. erewrite st_query_ok by (by rewrite Hdec).
  rewrite bool_decide_eq_true_2 by done. cbn [negb]. rewrite Hrest, <- (assoc_L (++)). done.
Qed.

Lemma chunk_total_max n : (n <= MAX_EXPANDED_CANONICAL_RESPONSE_BYTES)%N → (chunk_total n <= MAX_RESPONSE_CHUNKS)%N.
Proof. intros H. unfold chunk_total, MAX_RESPONSE_CHUNKS. apply N.Div0.div_le_mono. lia. Qed.

Section reading.
  Context (sha256 : str → str) (Hsha : ∀ s, len (sha256 s) = RESPONSE_DIGEST_BYTES).

(** The client reads a reply back, single or chunked, and nothing beyond it. *)
Lemma read_response_run wire rest c :
  response_wf wire → (client_supply c).1 = framed (reply_payloads sha256 wire) ++ rest →
  ∃ c', read_response sha256 (rsp_request wire) c = (Ok wire, c') ∧
    client_supply c' = (rest, (client_supply c).2) ∧ client_read c c'.
Proof.
  intros Hwf. pose proof (response_expandable wire Hwf) as Hx. unfold reply_payloads, read_response.
  destruct (N.leb_spec (len (encoding wire)) MAX_CONTROL_FRAME_BYTES) as [Hle|Hgt].
  - rewrite framed_cons. unfold framed. rewrite app_nil_r. intros Hsup.
    destruct (read_frame_payload_run _ _ c Hle Hsup) as (c' & Hrun & Hs & Hc). exists c'. split_and!; [|done..].
    assert (CanonicalBrokerResponse_decode (encoding wire) = Ok wire) as Hdec.
    { by apply (response_decode_encode wire), encode_single. }
    erewrite st_bind_ok by done. rewrite Hdec.
    unfold st_query, validate_response. by rewrite bool_decide_eq_true_2.
  - set (cs := reply_chunks sha256 wire).
    assert (Forall (λ chunk, chunk_decode (enc_chunk chunk) = Ok chunk ∧ crc_request chunk = rsp_request wire ∧
                             (len (enc_chunk chunk) <= MAX_CONTROL_FRAME_BYTES)%N) cs) as Hall.
    { apply Forall_forall. intros chunk Hin. by destruct (reply_chunk sha256 Hsha wire chunk Hwf Hin) as (_ & ? & ? & ?). }
    assert (length cs = N.to_nat (chunk_total (len (encoding wire)))) as Hlen.
    { unfold cs, reply_chunks, canonical_chunks. by rewrite length_fmap, length_seq. }
    assert (reassemble_response_chunks sha256 cs = Some (Ok wire)) as Hre.
    { apply reassemble_canonical, (response_decode_encode wire); [done|done|].
      apply encode_with_limit_ok; [done|]. split; [apply concat_parts|apply Hx]. }
    destruct cs as [|first rest_chunks] eqn:Hcs; [done|].
    inversion Hall as [|? ? (Hdec & Hreq & Hfit) Hall' Heq]; subst.
    rewrite fmap_cons, framed_cons, <- (assoc_L (++)). intros Hsup.
    destruct (read_frame_payload_run _ _ c Hfit Hsup) as (c1 & Hrun & Hs1 & Hc1).
    destruct (read_chunks_run (rsp_request wire) rest_chunks [first] rest c1 Hall') as (c' & Hmore & Hs' & Hc'); [by rewrite Hs1|].
    exists c'. rewrite Hs1 in Hs'. split_and!; [|done|by eapply client_read_trans].
    erewrite st_bind_ok by done. destruct (chunk_is_no_response first) as [e ->]. rewrite Hdec.
    assert (crc_count first = chunk_total (len (encoding wire))) as Hcount.
    { destruct (canonical_chunks_cons (rsp_request wire) (sha256 (encoding wire)) (encoding wire)) as [more Hmore']; [apply Hx|].
      unfold cs, reply_chunks in Hcs. rewrite Hmore' in Hcs. by injection Hcs as <- _. }
    unfold read_chunked_response. rewrite bool_decide_eq_true_2 by done. cbn [negb].
    rewrite Hcount, (proj2 (N.ltb_ge _ _) (chunk_total_max _ (proj2 Hx))), <- Hlen. cbn [length]. rewrite Nat.sub_succ, Nat.sub_0_r.
    erewrite st_bind_ok by done. unfold st_query. cbn [app]. by rewrite Hre.
Qed.

(** Whatever the peer sends, a response the client accepts is well formed and bound to
    the request it sent. *)
Lemma read_chunks_spec request n acc c :
  wp (read_chunks request n acc) (λ cs c', acc `prefix_of` cs ∧ client_read c c') (λ _ c', client_read c c') c.
Proof.
  revert acc c. induction n as [|n IH]; intros acc c; [by apply wp_ret; split; [|apply client_read_refl]|].
  cbn [read_chunks]. apply wp_bind. eapply wp_mono; [apply read_frame_payload_spec| |by intros ? ? [? _]]. cbn beta.
  intros payload c1 (_ & _ & _ & _ & Hc1). apply wp_bind, wp_query. destruct (chunk_decode payload) as [chunk|]; [|done].
  cbn [map_err]. destruct (negb _); [by apply wp_fail|].
  eapply wp_mono; [apply IH| |eauto using client_read_trans]. cbn beta. intros cs c' [Hpre Hc'].
  split; [|by eapply client_read_trans]. etrans; [|done]. by apply prefix_app_r.
Qed.

Lemma read_response_spec request c :
  wp (read_response sha256 request) (λ r c', rsp_request r = request ∧ response_wf r ∧ client_read c c')
    (λ _ c', client_read c c') c.
Proof.
  unfold read_response. apply wp_bind. eapply wp_mono; [apply read_frame_payload_spec| |by intros ? ? [? _]]. cbn beta.
  intros payload c1 (_ & _ & _ & _ & Hc1). destruct (CanonicalBrokerResponse_decode payload) as [r|e] eqn:Hd.
  - apply wp_query. unfold validate_response. case_bool_decide; cbn [negb]; [|done].
    by apply decode_with_limit_exact in Hd as (_ & Hwf & _).
  - destruct (chunk_decode payload) as [first|]; [|by apply wp_fail]. unfold read_chunked_response.
    case_bool_decide as Hreq; cbn [negb]; [|by apply wp_fail]. destruct (_ <? _)%N; [by apply wp_fail|].
    apply wp_bind. eapply wp_mono; [apply read_chunks_spec| |eauto using client_read_trans]. cbn beta.
    intros cs c2 [Hpre Hc2]. apply wp_query. pose proof (client_read_trans _ _ _ Hc1 Hc2) as Hc.
    destruct (reassemble_response_chunks sha256 cs) as [[r|]|] eqn:Hr; cbn [map_err]; [|done..].
    apply reassemble_only_canonical in Hr as (bytes & (_ & Hwf & _)%decode_with_limit_exact & ->); [|done].
    split_and!; [|done|done]. destruct Hpre as [more Hcs]. apply (f_equal head) in Hcs. simpl in Hcs.
    destruct (canonical_chunks _ _ _) as [|chunk] eqn:Hcan; [done|]. injection Hcs as ->.
    assert (first ∈ canonical_chunks (rsp_request r) (sha256 bytes) bytes) as Hin by (rewrite Hcan; left).
    apply list_elem_of_fmap in Hin as (i & -> & _). by rewrite <- Hreq.
Qed.
End reading.
