(* ===== verification/BrokerClientProps.v ===== *)
(** * Identities and order of the client's requests

    The client spends a request identity and a sequence number before it writes, so
    whatever happens on the stream no two requests share either. *)

From S2P Require Import Prelude Bytes Http GitHub ControlFrame Budget ReplayGuard Operation Cbor CborProps.
From S2P Require Import Response ResponseChunk ResponseProps ResponseChunkProps Kernel PublicFetch GitHubAdapter Dispatch.
From S2P Require Import Stream Transport BrokerClient BrokerServer WireProps.

(** ** Writing a frame *)

(** The stream of [c'] moved on from [c]'s, by [bytes] written; the rest of the client
    is as before. *)
Definition client_wrote (bytes : str) (c c' : GuestBrokerClient) : Prop :=
  c' = gc_with_stream (gc_stream c') c ∧ client_supply c' = client_supply c ∧
  s_written (gc_stream c') = s_written (gc_stream c) ++ bytes.

Lemma client_wrote_trans b1 b2 c c1 c2 :
  client_wrote b1 c c1 → client_wrote b2 c1 c2 → client_wrote (b1 ++ b2) c c2.
Proof.
  intros (H1 & Hs1 & Hw1) (H2 & Hs2 & Hw2). split_and!; [by rewrite H2, H1|congruence|].
  by rewrite Hw2, Hw1, (assoc_L (++)).
Qed.

(** One [write_all] of the client. *)
Lemma client_write_all_spec operation bytes c (Q : unit → GuestBrokerClient → Prop) (R : ClientError → GuestBrokerClient → Prop) :
  (∀ c', client_wrote bytes c c' → Q tt c') →
  (∀ e c' part, client_wrote part c c' → part `prefix_of` bytes → R e c') →
  wp (gc_io (st_map_err (Client_Io operation) (write_all bytes))) Q R c.
Proof.
  intros HQ HR.
  pose proof (wp_write_all bytes (λ _ s', Q tt (gc_with_stream s' c)) (λ _ s', ∀ e, R e (gc_with_stream s' c)) (gc_stream c)) as Hw.
  unfold wp, gc_io, st_map_err in *. destruct (write_all bytes (gc_stream c)) as [[[]|e] s']; cbn [map_err]; apply Hw.
  all: try (intros s1 Hs%only_writes_supply Hb; by apply HQ).
  all: intros _ s1 part Hs%only_writes_supply Hb Hpre e'; by eapply HR.
Qed.

Lemma client_flush_spec c :
  wp (gc_io (st_map_err (Client_Io Flush) stream_flush)) (λ _, client_wrote [] c) (λ _, client_wrote [] c) c.
Proof.
  unfold wp, gc_io, st_map_err, stream_flush.
  destruct (s_flushes (gc_stream c)) as [|[kind|] rest]; cbn [map_err]; (split_and!; [done|done|]); by rewrite app_nil_r.
Qed.

(** A frame is written whole, or a part of it before a failure. *)
Lemma client_write_frame_spec payload c :
  (len payload <= MAX_CONTROL_FRAME_BYTES)%N →
  wp (client_write_frame (frame_of payload)) (λ _, client_wrote (ControlFrame_encode (frame_of payload)) c)
    (λ _ c', ∃ part, client_wrote part c c' ∧ part `prefix_of` ControlFrame_encode (frame_of payload)) c.
Proof.
  intros Hfit. unfold client_write_frame, ControlFrame_encode. cbn [cf_payload cf_wire_length frame_of].
  destruct (N.ltb_spec (len payload) (2 ^ 32)) as [_|Hbig]; cbn [negb].
  2:{ change MAX_CONTROL_FRAME_BYTES with 1048576%N in Hfit. lia. }
  apply wp_bind, client_write_all_spec; [|by intros e c' part ? ?; exists part; eauto using prefix_app_r].
  intros c1 H1. apply wp_bind, client_write_all_spec.
  2:{ intros e c' part H2 Hpre. exists (be_bytes 4 (len payload) ++ part). split; [by eapply client_wrote_trans|by apply prefix_app]. }
  intros c2 H2. pose proof (client_wrote_trans _ _ _ _ _ H1 H2) as H12.
  eapply wp_mono; [apply client_flush_spec| |]; cbn beta; intros ? c3 H3;
    pose proof (client_wrote_trans _ _ _ _ _ H12 H3) as H; rewrite app_nil_r in H; eauto.
Qed.

(** ** Requests *)

Section requests.
  Context (sha256 : str → str).

(** The canonical request was committed and [part] of its frame written. *)
Definition client_sent (canonical : CanonicalBrokerRequest) (part : str) (c c' : GuestBrokerClient) : Prop :=
  ∃ sequence operation payload,
  gc_next_sequence c = Some sequence ∧
  canonical = CanonicalBrokerRequest_new sha256 (gc_session c) sequence (be_request (cbr_envelope canonical)) operation ∧
  (be_request (cbr_envelope canonical) ∉ gc_issued_requests c) ∧
  (N.of_nat (size (gc_issued_requests c)) < gc_max_requests c)%N ∧
  CanonicalBrokerRequest_encode canonical = Ok payload ∧ part `prefix_of` ControlFrame_encode (frame_of payload) ∧
  c' = gc_with_stream (gc_stream c') (gc_commit (be_request (cbr_envelope canonical)) sequence canonical c) ∧
  s_written (gc_stream c') = s_written (gc_stream c) ++ part.

Lemma client_sent_read canonical part c c1 c' :
  client_sent canonical part c c1 → client_read c1 c' → client_sent canonical part c c'.
Proof.
  intros (sequence & operation & payload & H1 & H2 & H3 & H4 & H5 & H6 & H7 & H8) [Hc Hs].
  exists sequence, operation, payload. split_and!; try done; [by rewrite Hc, H7|].
  by rewrite <- H8, (only_reads_written _ _ Hs).
Qed.

(** A call either fails before it spends anything or commits one request. *)
Lemma request_with_id_spec request operation c :
  wp (request_with_id sha256 request operation)
    (λ response c', rsp_request response = request ∧ response_wf response ∧
       ∃ canonical part, client_sent canonical part c c' ∧ be_request (cbr_envelope canonical) = request)
    (λ _ c', c' = c ∨ ∃ canonical part, client_sent canonical part c c') c.
Proof.
  unfold request_with_id. apply wp_bind, wp_get.
  destruct (N.leb_spec (gc_max_requests c) (N.of_nat (size (gc_issued_requests c)))) as [|Hmax]; [by apply wp_fail; left|].
  case_bool_decide as Hin; [by apply wp_fail; left|]. apply wp_bind, wp_query.
  destruct (gc_next_sequence c) as [sequence|] eqn:Hseq; cbn [ok_or]; [|by left]. apply wp_bind, wp_query.
  set (canonical := CanonicalBrokerRequest_new sha256 (gc_session c) sequence request operation).
  destruct (CanonicalBrokerRequest_encode canonical) as [payload|] eqn:Henc; cbn [map_err]; [|by left].
  apply wp_bind, wp_query. pose proof Henc as [_ Hfit]%encode_ok.
  rewrite (proj2 (ControlFrame_new_ok payload (frame_of payload)) (conj Hfit eq_refl)). cbn [map_err].
  apply wp_bind, wp_modify.
  assert (∀ c' part, client_wrote part (gc_commit request sequence canonical c) c' →
    part `prefix_of` ControlFrame_encode (frame_of payload) → client_sent canonical part c c') as Hsent.
  { intros c' part (Hc & _ & Hw) Hpre. exists sequence, operation, payload. by split_and!. }
  apply wp_bind. eapply wp_mono; [by apply client_write_frame_spec| |]; cbn beta.
  - intros _ c1 H1. specialize (Hsent _ _ H1 ltac:(done)). eapply wp_mono; [apply read_response_spec| |]; cbn beta.
    + intros response c' (Hr & Hwf & Hc). split_and!; [done|done|]. eexists canonical, _. split; [by eapply client_sent_read|done].
    + intros e c' Hc. right. eexists canonical, _. by eapply client_sent_read.
  - intros e c' (part & Hw & Hpre). right. eexists canonical, part. by apply Hsent.
Qed.

(** ** Runs *)

Inductive client_call :=
  | CallRequest (operation : BrokerOperation)
  | CallWithId (request : BrokerRequestId) (operation : BrokerOperation).

Definition client_step (call : client_call) : CM CanonicalBrokerResponse :=
  match call with
  | CallRequest operation => client_request sha256 operation
  | CallWithId request operation => request_with_id sha256 request operation
  end.

(** The results of a sequence of calls; the stream survives a failed call. *)
Fixpoint client_run (calls : list client_call) (c : GuestBrokerClient)
    : list (result ClientError CanonicalBrokerResponse) * GuestBrokerClient :=
  match calls with
  | [] => ([], c)
  | call :: calls =>
      let '(r, c) := client_step call c in
      let '(rs, c) := client_run calls c in (r :: rs, c)
  end.

Abbreviation envelopes c := (cbr_envelope <$> gc_committed c).

(** Sequence numbers count the committed requests, identities are distinct and all
    retained, and what is on the stream are parts of their frames in order. *)
Record client_inv (session : BrokerSessionId) (max_requests : N) (c : GuestBrokerClient) : Prop := {
  ci_session : gc_session c = session;
  ci_max : gc_max_requests c = max_requests;
  ci_sessions : Forall (λ e, be_session e = session) (envelopes c);
  ci_sequences : be_sequence <$> envelopes c = N.of_nat <$> seq 0 (length (gc_committed c));
  ci_next : gc_next_sequence c =
    if (N.of_nat (length (gc_committed c)) <? u64_limit)%N then Some (N.of_nat (length (gc_committed c))) else None;
  ci_unique : NoDup (be_request <$> envelopes c);
  ci_issued : gc_issued_requests c = list_to_set (be_request <$> envelopes c);
  ci_bound : (N.of_nat (length (gc_committed c)) <= max_requests)%N;
  ci_stream : ∃ parts, s_written (gc_stream c) = concat parts ∧
    Forall2 (λ r part, ∃ payload, CanonicalBrokerRequest_encode r = Ok payload ∧
               part `prefix_of` ControlFrame_encode (frame_of payload)) (gc_committed c) parts;
}.

Lemma with_limits_inv stream session max_requests :
  s_written stream = [] → client_inv session max_requests (with_limits stream session max_requests).
Proof. intros Hw. split; try done; [apply NoDup_nil_2|simpl; lia|]. by exists []. Qed.

Lemma client_inv_sent session max_requests canonical part c c' :
  client_inv session max_requests c → client_sent canonical part c c' → client_inv session max_requests c'.
Proof.
  intros [Hs Hm Hss Hq Hn Hu Hi Hb (parts & Hw & Hparts)]
    (sequence & operation & payload & Hnext & Hcan & Hfresh & Hmax & Henc & Hpre & Hc & Hw').
  assert (N.of_nat (length (gc_committed c)) < u64_limit ∧ sequence = N.of_nat (length (gc_committed c)))%N as [Hlim ->].
  { rewrite Hn in Hnext. destruct (N.ltb_spec (N.of_nat (length (gc_committed c))) u64_limit); naive_solver. }
  assert (length (gc_committed c) = size (gc_issued_requests c)) as Hsize.
  { rewrite Hi, size_list_to_set by done. by rewrite !length_fmap. }
  rewrite Hc. split; cbn [gc_session gc_max_requests gc_committed gc_next_sequence gc_issued_requests gc_commit gc_with_stream gc_stream];
    rewrite ?fmap_app, ?length_app, ?Hw'; cbn [fmap list_fmap length].
  - done.
  - done.
  - apply Forall_app. split; [done|]. apply Forall_singleton. by rewrite Hcan.
  - rewrite seq_app, fmap_app, Hq. cbn. by rewrite Hcan.
  - unfold checked_add_u64. by replace (N.of_nat (length (gc_committed c) + 1)) with (N.of_nat (length (gc_committed c)) + 1)%N by lia.
  - apply NoDup_app. split_and!; [done| |apply NoDup_singleton].
    intros r Hr ->%list_elem_of_singleton. apply Hfresh. rewrite Hi. by apply elem_of_list_to_set.
  - rewrite list_to_set_app_L, Hi. cbn. set_solver.
  - lia.
  - exists (parts ++ [part]). rewrite concat_app, Hw. cbn. rewrite app_nil_r. split; [done|].
    apply Forall2_app; [done|]. repeat constructor. eauto.
Qed.

Lemma client_inv_nonce session max_requests nonce c :
  client_inv session max_requests c → client_inv session max_requests (gc_with_nonce nonce c).
Proof. by intros []. Qed.

(** What one call leaves: a response it returns answers the last committed request. *)
Lemma client_step_spec session max_requests call c :
  client_inv session max_requests c →
  wp (client_step call)
    (λ response c', client_inv session max_requests c' ∧ response_wf response ∧
       ∃ canonical, gc_committed c' = gc_committed c ++ [canonical] ∧ rsp_request response = be_request (cbr_envelope canonical))
    (λ _ c', client_inv session max_requests c' ∧ gc_committed c `prefix_of` gc_committed c') c.
Proof.
  assert (∀ request operation c0, client_inv session max_requests c0 → gc_committed c0 = gc_committed c →
    wp (request_with_id sha256 request operation)
    (λ response c', client_inv session max_requests c' ∧ response_wf response ∧
       ∃ canonical, gc_committed c' = gc_committed c ++ [canonical] ∧ rsp_request response = be_request (cbr_envelope canonical))
    (λ _ c', client_inv session max_requests c' ∧ gc_committed c `prefix_of` gc_committed c') c0) as Hid.
  { intros request operation c0 Hi Hc0. eapply wp_mono; [apply request_with_id_spec| |]; cbn beta.
    - intros response c' (Hr & Hwf & canonical & part & Hsent & Hreq). split_and!; [by eapply client_inv_sent|done|].
      exists canonical. split; [|by rewrite Hreq]. destruct Hsent as (? & ? & ? & _ & _ & _ & _ & _ & _ & -> & _). simpl. by rewrite Hc0.
    - intros e c' [->|(canonical & part & Hsent)]; [by rewrite Hc0|]. split; [by eapply client_inv_sent|].
      destruct Hsent as (? & ? & ? & _ & _ & _ & _ & _ & _ & -> & _). simpl. rewrite Hc0. by apply prefix_app_r. }
  intros Hi. destruct call as [operation|request operation]; cbn [client_step]; [|by apply Hid].
  unfold client_request, next_request_id. apply wp_bind, wp_bind, wp_get, wp_bind, wp_query.
  destruct (gc_next_request_nonce c) as [nonce|]; cbn [ok_or]; [|done].
  apply wp_bind, wp_modify, wp_ret, Hid; [by apply client_inv_nonce|done].
Qed.

(** Responses of a run that were accepted answer requests of the run. *)
Definition answers (c : GuestBrokerClient) (r : result ClientError CanonicalBrokerResponse) : Prop :=
  match r with
  | Ok response => response_wf response ∧ rsp_request response ∈ (be_request ∘ cbr_envelope <$> gc_committed c)
  | Err _ => True
  end.

Lemma client_run_spec session max_requests calls c :
  client_inv session max_requests c →
  let '(rs, c') := client_run calls c in
  client_inv session max_requests c' ∧ gc_committed c `prefix_of` gc_committed c' ∧ Forall (answers c') rs.
Proof.
  revert c. induction calls as [|call calls IH]; intros c Hi; cbn [client_run]; [done|].
  pose proof (client_step_spec session max_requests call c Hi) as Hw. unfold wp in Hw.
  destruct (client_step call c) as [r c1].
  assert (client_inv session max_requests c1 ∧ gc_committed c `prefix_of` gc_committed c1 ∧ answers c1 r) as (Hi1 & Hpre & Hans).
  { destruct r as [response|e]; [|by destruct Hw]. destruct Hw as (Hi1 & Hwf & canonical & Hc & Hr).
    split_and!; [done|rewrite Hc; by apply prefix_app_r|]. split; [done|]. rewrite Hc, Hr, fmap_app. apply elem_of_app. right. left. }
  specialize (IH c1 Hi1). destruct (client_run calls c1) as [rs c']. destruct IH as (Hi' & Hpre' & Hall).
  split_and!; [done|by etrans|]. constructor; [|done]. destruct r as [response|e]; [|done]. destruct Hans as [Hwf Hin].
  split; [done|]. destruct Hpre' as [more ->]. rewrite fmap_app. apply elem_of_app. by left.
Qed.

(** C31: whatever the stream does (short, interrupted, failing or truncated reads and
    writes, any bytes from the peer) and whichever calls the guest makes, no two
    requests the client commits share a request identity, their sequence numbers are
    0, 1, 2 and so on, there are at most [max_requests] of them, and what is on the
    stream are parts of their frames in that order.  A response the client returns is
    well formed and bound to a request it committed. *)
Theorem client_requests_are_unique stream session max_requests calls :
  s_written stream = [] →
  let '(rs, c) := client_run calls (with_limits stream session max_requests) in
  be_sequence <$> envelopes c = N.of_nat <$> seq 0 (length (gc_committed c)) ∧
  NoDup (be_request <$> envelopes c) ∧ Forall (λ e, be_session e = session) (envelopes c) ∧
  (N.of_nat (length (gc_committed c)) <= max_requests)%N ∧
  (∃ parts, s_written (gc_stream c) = concat parts ∧
    Forall2 (λ r part, ∃ payload, CanonicalBrokerRequest_encode r = Ok payload ∧
               part `prefix_of` ControlFrame_encode (frame_of payload)) (gc_committed c) parts) ∧
  Forall (answers c) rs.
Proof.
  intros Hw. pose proof (client_run_spec session max_requests calls _ (with_limits_inv stream session max_requests Hw)) as H.
  destruct (client_run calls (with_limits stream session max_requests)) as [rs c]. destruct H as ([] & _ & Hall). by split_and!.
Qed.
End requests.
