(* ===== verification/BrokerServerProps.v ===== *)
(** * A served connection

    The connection loop against the laws of a framed transport and of a dispatcher:
    each request is read once, dispatched once under a fresh clock reading, and
    answered once, and nothing follows a response that closes the connection.  The
    broker's dispatcher on its write-ahead log satisfies the laws. *)

From S2P Require Import Prelude Bytes Time Http GitHub Capability ControlFrame Budget ReplayGuard Operation Cbor CborProps.
From S2P Require Import Response ResponseChunk ResponseProps ResponseChunkProps BrokerWalState BrokerWal BrokerWalInvariant BrokerWalHistory BrokerWalWriter.
From S2P Require Import Kernel PublicFetch GitHubAdapter Dispatch DispatchProps DispatchClaims.
From S2P Require Import Stream Transport BrokerClient BrokerServer WireProps.

(** What the server relies on in a dispatcher: while its invariant holds, a response
    names the request of the frame and is one its constructors build. *)
Class DispatcherLaws (D : Type) `{RequestDispatcher D} (sha256 : str → str) := {
  dispatcher_inv : D → Prop;
  dispatch_request_spec : ∀ frame context d, dispatcher_inv d → wp (dispatch_request frame context)
    (λ response d', dispatcher_inv d' ∧ response_wf (response_to_wire response) ∧
       ∃ request, CanonicalBrokerRequest_decode sha256 (cf_payload frame) = Ok request ∧
         br_request response = be_request (cbr_envelope request))
    (λ _ d', dispatcher_inv d') d;
}.

Record exchange := { ex_frame : ControlFrame; ex_context : DispatchContext; ex_response : BrokerResponse }.

(** The bytes of a reply. *)
Definition reply (sha256 : str → str) (response : BrokerResponse) : str :=
  framed (reply_payloads sha256 (response_to_wire response)).

Section connection.
  Context {T D C : Type} `{FramedIoLaws T} (sha256 : str → str) `{DispatcherLaws D sha256}.
  Context (clock : C → MonotonicTime * C) (identity : DispatchContext).
  Context (Hsha : ∀ s, len (sha256 s) = RESPONSE_DIGEST_BYTES).

Abbreviation SC := (ServedConnection T D C).

(** One request served: read from the peer, dispatched at the time the clock shows, and
    answered in full. *)
Record exchanged (x : exchange) (cn cn' : SC) : Prop := {
  xd_frame : frame_wf (ex_frame x);
  xd_read : coming (cn_transport cn) = ControlFrame_encode (ex_frame x) ++ coming (cn_transport cn');
  xd_clock : ∃ now, clock (cn_clock cn) = (now, cn_clock cn') ∧ ex_context x = context_at identity now;
  xd_dispatch : dispatch_request (ex_frame x) (ex_context x) (cn_dispatcher cn) = (Ok (ex_response x), cn_dispatcher cn');
  xd_written : sent (cn_transport cn') = sent (cn_transport cn) ++ reply sha256 (ex_response x);
}.

(** A request that ended the connection: nothing was dispatched, or one dispatch failed,
    or its reply broke off. *)
Definition broken (cn cn' : SC) : Prop :=
  cn_dispatcher cn' = cn_dispatcher cn ∧ sent (cn_transport cn') = sent (cn_transport cn) ∨
  ∃ frame now rest r, frame_wf frame ∧ coming (cn_transport cn) = ControlFrame_encode frame ++ rest ∧
    (clock (cn_clock cn)).1 = now ∧
    dispatch_request frame (context_at identity now) (cn_dispatcher cn) = (r, cn_dispatcher cn') ∧
    match r with
    | Ok response => ∃ part, sent (cn_transport cn') = sent (cn_transport cn) ++ part ∧ part `prefix_of` reply sha256 response
    | Err _ => sent (cn_transport cn') = sent (cn_transport cn)
    end.

Inductive served : list exchange → SC → SC → Prop :=
  | served_nil cn : served [] cn cn
  | served_cons x xs cn cn1 cn' : exchanged x cn cn1 → served xs cn1 cn' → served (x :: xs) cn cn'.

Definition continues (x : exchange) : Prop := close_reason (ex_response x) = None.

Lemma wp_on_transport {A} (m : ST T ServerError A) (Q : A → SC → Prop) (R : ServerStop → SC → Prop) cn :
  wp m (λ a t, Q a {| cn_transport := t; cn_dispatcher := cn_dispatcher cn; cn_clock := cn_clock cn |})
    (λ e t, R (ServerFails e) {| cn_transport := t; cn_dispatcher := cn_dispatcher cn; cn_clock := cn_clock cn |})
    (cn_transport cn) → wp (on_transport m) Q R cn.
Proof. unfold wp, on_transport. by destruct (m (cn_transport cn)) as [[a|e] t]. Qed.

Lemma serve_request_spec cn :
  dispatcher_inv (cn_dispatcher cn) →
  wp (serve_request clock sha256 identity)
    (λ closing cn', dispatcher_inv (cn_dispatcher cn') ∧ ∃ x, exchanged x cn cn' ∧ closing = close_reason (ex_response x))
    (λ _ cn', broken cn cn') cn.
Proof using Hsha.
  intros Hi. unfold serve_request. apply wp_bind, wp_on_transport, wp_map_err.
  eapply wp_mono; [apply read_frame_spec| |by left]. cbn beta. intros frame t1 (Hwf & Hread & Hsent).
  apply wp_bind. unfold wp at 1, read_clock. cbn [cn_clock cn_transport cn_dispatcher].
  destruct (clock (cn_clock cn)) as [now later] eqn:Hclock. apply wp_bind. unfold wp at 1, on_dispatcher. cbn [cn_clock cn_transport cn_dispatcher].
  pose proof (dispatch_request_spec frame (context_at identity now) (cn_dispatcher cn) Hi) as Hd. unfold wp in Hd.
  destruct (dispatch_request frame (context_at identity now) (cn_dispatcher cn)) as [[response|e] d'] eqn:Hrun; cbn [map_err].
  2:{ right. exists frame, now, (coming t1), (Err e). by rewrite Hclock. }
  destruct Hd as (Hi' & Hr & _). apply wp_bind, wp_on_transport. cbn [cn_clock cn_transport cn_dispatcher].
  eapply wp_mono; [by apply write_wire_response_spec| |]; cbn beta.
  - intros _ t2 [Hs Hc]. apply wp_ret. split; [done|].
    exists {| ex_frame := frame; ex_context := context_at identity now; ex_response := response |}. split; [|done].
    split; cbn [ex_frame ex_context ex_response cn_clock cn_transport cn_dispatcher]; [done|congruence|eauto|done|].
    unfold reply. by rewrite Hs, Hsent.
  - intros e t2 (_ & part & [Hs Hc] & Hpre). right. exists frame, now, (coming t1), (Ok response).
    cbn [cn_clock cn_transport cn_dispatcher]. rewrite Hclock. split_and!; try done. exists part. by rewrite Hs, Hsent.
Qed.

(** What serving up to [n] more requests comes to. *)
Definition connection_outcome (max_requests index : N) (n : nat) (cn : SC) (r : result ServerStop ConnectionReport) (cn' : SC)
    : Prop :=
  match r with
  | Ok report => ∃ xs, served xs cn cn' ∧
      match rep_close_reason report with
      | Close_RequestLimitReached => length xs = n ∧ rep_requests_served report = max_requests ∧ Forall continues xs
      | reason => ∃ before x, xs = before ++ [x] ∧ length xs ≤ n ∧ Forall continues before ∧
          close_reason (ex_response x) = Some reason ∧ rep_requests_served report = (index + N.of_nat (length xs))%N
      end
  | Err _ => ∃ xs cn1, served xs cn cn1 ∧ length xs < n ∧ Forall continues xs ∧ broken cn1 cn'
  end.

Lemma close_reason_terminal response reason :
  close_reason response = Some reason → reason ≠ Close_RequestLimitReached.
Proof. unfold close_reason. intros Hclose. split_matches. Qed.

Lemma serve_loop_spec max_requests index n cn :
  dispatcher_inv (cn_dispatcher cn) →
  let '(r, cn') := serve_loop clock sha256 identity max_requests index n cn in connection_outcome max_requests index n cn r cn'.
Proof using Hsha.
  revert index cn. induction n as [|n IH]; intros index cn Hi; cbn [serve_loop].
  { exists []. split; [constructor|]. by split_and!. }
  pose proof (serve_request_spec cn Hi) as Hw. unfold wp in Hw. unfold mbind, ST_bind.
  destruct (serve_request clock sha256 identity cn) as [[closing|stop] cn1].
  2:{ exists [], cn. split_and!; [constructor|simpl; lia|done|done]. }
  destruct Hw as (Hi1 & x & Hx & ->). destruct (close_reason (ex_response x)) as [reason|] eqn:Hclose.
  - exists [x]. split; [eapply served_cons; [done|constructor]|]. cbn [rep_close_reason rep_requests_served].
    pose proof (close_reason_terminal _ _ Hclose). destruct reason; [done|..];
      (exists [], x; split_and!; [done|simpl; lia|done|done|simpl; lia]).
  - specialize (IH (index + 1)%N cn1 Hi1). destruct (serve_loop _ _ _ _ _ _ cn1) as [[report|stop] cn'].
    + destruct IH as (xs & Hs & Hr). exists (x :: xs). split; [by econstructor|].
      destruct (rep_close_reason report); [destruct Hr as (? & ? & ?); split_and!; [simpl; lia|done|by constructor]|..];
        (destruct Hr as (before & y & -> & Hlen & Hall & Hy & Hn); exists (x :: before), y; rewrite Hn;
         split_and!; [done|simpl in *; lia|by constructor|done|simpl; lia]).
    + destruct IH as (xs & cn2 & Hs & Hlen & Hall & Hb). exists (x :: xs), cn2. split_and!; [by econstructor|simpl; lia|by constructor|done].
Qed.

(** C20: a connection serves exactly the requests it reports.  The frames it read, the times
    the clock showed, the dispatches and the replies on the stream are those of one
    sequence of exchanges: each frame is dispatched once, under the connection's
    identity at the time of that request, and answered in full before the next is read.
    There are at most [max_requests]; nothing is read after a response that closes the
    connection, and the reported reason is that response's.  A connection that fails
    ends after some such exchanges with at most one more dispatch, of which at most a
    part of the reply was written. *)
Theorem connection_serves_exactly max_requests cn :
  dispatcher_inv (cn_dispatcher cn) →
  let run := serve_framed_connection clock sha256 identity max_requests cn in
  connection_outcome max_requests 0 (N.to_nat max_requests) cn run.1 run.2.
Proof using Hsha.
  intros Hi run. pose proof (serve_loop_spec max_requests 0 (N.to_nat max_requests) cn Hi) as Hloop. subst run.
  unfold serve_framed_connection. by destruct (serve_loop _ _ _ _ _ _ _).
Qed.
End connection.

(** ** The broker's dispatcher *)

Lemma response_to_wire_eq response : response_to_wire response = broker_response_to_wire response.
Proof. by destruct response as [request [[public|github]|[]]]. Qed.

Section broker.
  Context {X W : Type} `{!CapabilityExecutor X W} `{!DispatchAdapters W} `{!ExecutorLaws X W} `{!AdapterLaws W}.
  Context (sha256 : str → str) (Hsha : ∀ s, len (sha256 s) = RESPONSE_DIGEST_BYTES).
  Context (config : DurableSessionConfig) (github_response_cap : N).

Abbreviation healthy := (DispatchClaims.healthy sha256 config github_response_cap).

(** A delivered response is one the constructors build: it is the final record of its
    request, or a budget rejection. *)
Lemma delivered_wf request (d : BrokerDispatcher X W) w response d' :
  len request = REQUEST_ID_BYTES →
  delivered sha256 config (N.min github_response_cap MAX_GITHUB_RESPONSE_BYTES) request d w response d' →
  response_wf (broker_response_to_wire response).
Proof.
  intros Hlen (Hr & [Ho|[_ ->]] & w' & C & _ & S & _); [|by apply rejected_wf].
  pose proof (sy_outcomes _ _ _ _ S request I) as Ha. rewrite Ho in Ha. unfold agrees in Ha.
  destruct (view_request (bw_state w') request) as [e|] eqn:He; [|done].
  destruct (dr_phase e) as [| |wire] eqn:Hp; [naive_solver..|]. destruct Ha as (response' & [= <-] & ->).
  pose proof (core_state _ _ _ _ _ C) as Hw. apply (view_request_Some _ _ _ Hw) in He.
  destruct (rs_request_ok _ _ _ Hw He) as (i & _ & Hi & _). pose proof (sw_entries _ Hw _ _ Hi) as (_ & _ & _ & _ & _ & _ & Hf).
  rewrite Hp in Hf. apply Hf.
Qed.

Lemma served_dispatch_spec frame context (sd : ServedDispatcher X W) :
  (∃ w, healthy (sd_dispatcher sd) w) →
  wp (served_dispatch sha256 frame context)
    (λ response sd', (∃ w, healthy (sd_dispatcher sd') w) ∧ response_wf (response_to_wire response) ∧
       ∃ request, CanonicalBrokerRequest_decode sha256 (cf_payload frame) = Ok request ∧
         br_request response = be_request (cbr_envelope request))
    (λ _ sd', ∃ w, healthy (sd_dispatcher sd') w) sd.
Proof using ExecutorLaws0 AdapterLaws0 Hsha.
  intros [w [C S]]. set (io := default (sd_later sd) (head (sd_io sd))).
  pose proof (dispatch_spec sha256 Hsha config _ (cap0_bound github_response_cap) io frame context (sd_dispatcher sd) w C S) as Hd.
  unfold wp, served_dispatch in *. fold io.
  destruct (dispatch_control_frame sha256 io frame context (sd_dispatcher sd)) as [[response|stop] d']; cbn [sd_dispatcher].
  - destruct Hd as (request & Hdec & Hdel & _). pose proof Hdel as (Hr & _ & w' & C' & _ & S' & _).
    pose proof Hdec as ((_ & Hlen & _) & _)%decoded_request.
    split_and!; [by exists w'|rewrite response_to_wire_eq; by eapply delivered_wf|by exists request].
  - destruct Hd as (r & _ & w' & C' & _ & S'). by exists w'.
Qed.

Definition ServedDispatcher_laws : @DispatcherLaws (ServedDispatcher X W) (ServedDispatcher_dispatcher sha256) sha256 :=
  Build_DispatcherLaws _ (ServedDispatcher_dispatcher sha256) sha256 (λ sd, ∃ w, healthy (sd_dispatcher sd) w) served_dispatch_spec.
End broker.
