(* ===== verification/WireSession.v ===== *)
(** * A session between client and server

    The two ends of the control channel composed: what the client writes is what the
    server reads, and what the server writes is what the client reads.  Then the
    server dispatches exactly the client's requests, in order, and the client returns
    exactly the dispatcher's responses. *)

From S2P Require Import Prelude Bytes Time Http GitHub Capability ControlFrame Budget ReplayGuard Operation Cbor CborProps.
From S2P Require Import Response ResponseChunk ResponseProps ResponseChunkProps Kernel PublicFetch GitHubAdapter Dispatch.
From S2P Require Import Stream Transport BrokerClient BrokerServer WireProps BrokerClientProps BrokerServerProps.

(** ** A stream that takes what is written *)

Definition write_progresses (event : WriteEvent) : Prop :=
  match event with Takes count => (0 < count)%N | WriteFails kind => kind = Kind_Interrupted end.

(** Writes may be short or interrupted, but none fails. *)
Definition writable (s : Stream) : Prop :=
  Forall write_progresses (s_writes s) ∧ Forall (λ verdict, verdict = None) (s_flushes s).

Lemma write_loop_writable fuel buffer s :
  length (s_writes s) < fuel → writable s → ∃ s', write_loop fuel buffer s = (Ok tt, s') ∧ writable s'.
Proof.
  revert buffer s. induction fuel as [|fuel IH]; intros buffer s Hfuel [Hw Hf]; [lia|].
  destruct buffer as [|b buffer]; cbn [write_loop]; [by exists s|]. unfold stream_write.
  destruct (s_writes s) as [|[count|kind] rest] eqn:Hs.
  - destruct (N.eqb_spec (len (b :: buffer)) 0) as [He|_]; [unfold len in He; simpl in He; lia|].
    rewrite drop_ge by (unfold len; lia). eexists. split; [by destruct fuel|]. by split; [constructor|].
  - apply Forall_cons in Hw as [Hcount Hw]. simpl in Hcount.
    destruct (N.eqb_spec (len (take (N.to_nat count) (b :: buffer))) 0) as [He|_].
    { rewrite len_take in He. unfold len in He. simpl in He. lia. }
    apply IH; [simpl in *; lia|done].
  - apply Forall_cons in Hw as [-> Hw]. apply IH; [simpl in *; lia|done].
Qed.

Lemma client_write_all_run operation bytes c :
  writable (gc_stream c) →
  ∃ c', gc_io (st_map_err (Client_Io operation) (write_all bytes)) c = (Ok tt, c') ∧
    client_wrote bytes c c' ∧ writable (gc_stream c').
Proof.
  intros Hw. destruct (write_loop_writable (S (length (s_writes (gc_stream c)))) bytes (gc_stream c)) as (s' & Hrun & Hw'); [lia|done|].
  pose proof (client_write_all_spec operation bytes c (λ _, client_wrote bytes c) (λ _ _, True)) as Hspec.
  unfold wp, gc_io, st_map_err, write_all in *. rewrite Hrun in *. cbn [map_err] in *. eexists. split; [done|]. split; [|done].
  by apply Hspec.
Qed.

(** On such a stream a frame is written whole. *)
Lemma client_write_frame_run payload c :
  (len payload <= MAX_CONTROL_FRAME_BYTES)%N → writable (gc_stream c) →
  ∃ c', client_write_frame (frame_of payload) c = (Ok tt, c') ∧
    client_wrote (ControlFrame_encode (frame_of payload)) c c' ∧ writable (gc_stream c').
Proof.
  intros Hfit Hw. unfold client_write_frame, ControlFrame_encode. cbn [cf_payload cf_wire_length frame_of].
  destruct (N.ltb_spec (len payload) (2 ^ 32)) as [_|Hbig]; cbn [negb].
  2:{ change MAX_CONTROL_FRAME_BYTES with 1048576%N in Hfit. lia. }
  destruct (client_write_all_run WriteFramePrefix (be_bytes 4 (len payload)) c Hw) as (c1 & Hr1 & H1 & Hw1).
  destruct (client_write_all_run WriteFramePayload payload c1 Hw1) as (c2 & Hr2 & H2 & [Hw2 Hf2]).
  erewrite st_bind_ok by done. erewrite st_bind_ok by done. pose proof (client_flush_spec c2) as Hflush.
  unfold wp, gc_io, st_map_err, stream_flush in *.
  destruct (s_flushes (gc_stream c2)) as [|[kind|] rest] eqn:Hf; cbn [map_err] in *;
    [|by apply Forall_cons in Hf2 as [? _]|];
    (eexists; split; [done|]; split; [rewrite <- (app_nil_r (_ ++ payload)); eapply client_wrote_trans, Hflush; by eapply client_wrote_trans|]).
  - by split.
  - apply Forall_cons in Hf2 as [_ Hf2]. by split.
Qed.

(** ** The client's requests *)

Section session.
  Context (sha256 : str → str) (Hsha : ∀ s, len (sha256 s) = RESPONSE_DIGEST_BYTES).
  Context (session : BrokerSessionId) (Hsession : len session = SESSION_ID_BYTES).

(** The payload of the request with sequence number [n]. *)
Definition request_payload (n : N) (call : BrokerRequestId * BrokerOperation) : str :=
  enc_fields session n call.1 (sha256 (encode_operation call.2)) (encode_operation call.2).

Fixpoint call_payloads (n : N) (calls : list (BrokerRequestId * BrokerOperation)) : list str :=
  match calls with
  | [] => []
  | call :: calls => request_payload n call :: call_payloads (n + 1) calls
  end.

(** A call the client can send. *)
Definition sendable (n : N) (call : BrokerRequestId * BrokerOperation) : Prop :=
  len call.1 = REQUEST_ID_BYTES ∧ op_wf call.2 ∧ (n < u64_limit)%N ∧
  (len (request_payload n call) <= MAX_CONTROL_FRAME_BYTES)%N.

Lemma request_payload_encode n call :
  sendable n call →
  CanonicalBrokerRequest_encode (CanonicalBrokerRequest_new sha256 session n call.1 call.2) = Ok (request_payload n call).
Proof. intros (_ & _ & _ & Hfit). apply encode_ok. by split. Qed.

(** Only the request itself decodes from its payload. *)
Lemma request_payload_decode n call request :
  sendable n call → CanonicalBrokerRequest_decode sha256 (request_payload n call) = Ok request →
  request = CanonicalBrokerRequest_new sha256 session n call.1 call.2.
Proof using Hsha Hsession.
  intros (Hid & Hop & Hn & Hfit) Hdec. pose proof (control_frame_addressable _ Hfit) as Ha.
  assert (len (encode_operation call.2) < u64_limit)%N as Hp.
  { pose proof (len_enc_fields session n call.1 (sha256 (encode_operation call.2)) (encode_operation call.2)).
    unfold request_payload in Ha. lia. }
  unfold CanonicalBrokerRequest_decode in Hdec. rewrite (proj2 (N.ltb_ge _ _) Hfit) in Hdec.
  rewrite (proj2 (decode_fields_exact (request_payload n call) session n call.1 (sha256 (encode_operation call.2))
    (encode_operation call.2) Ha)) in Hdec; [|split_and!; try done; apply Hsha]. cbn [mbind result_bind] in Hdec.
  rewrite (proj2 (decode_operation_exact _ call.2 Hp) (op_wf_accepts _ Hop)) in Hdec. cbn [mbind result_bind] in Hdec.
  unfold of_canonical_payload in Hdec. rewrite bool_decide_eq_true_2 in Hdec by done. cbn [negb] in Hdec. by injection Hdec as <-.
Qed.

(** ** One call *)

(** The client may still send [calls], the first with sequence number [n]. *)
Record ready (n : N) (calls : list (BrokerRequestId * BrokerOperation)) (c : GuestBrokerClient) : Prop := {
  rd_session : gc_session c = session;
  rd_next : calls ≠ [] → gc_next_sequence c = Some n;
  rd_writable : writable (gc_stream c);
  rd_fresh : ∀ call, call ∈ calls → call.1 ∉ gc_issued_requests c;
  rd_unique : NoDup (calls.*1);
  rd_room : (N.of_nat (size (gc_issued_requests c) + length calls) <= gc_max_requests c)%N;
  rd_sendable : ∀ i call, calls !! i = Some call → sendable (n + N.of_nat i) call;
}.

Lemma ready_next n call calls c c1 c' :
  ready n (call :: calls) c →
  c1 = gc_with_stream (gc_stream c1) (gc_commit call.1 n (CanonicalBrokerRequest_new sha256 session n call.1 call.2) c) →
  writable (gc_stream c1) → client_read c1 c' → ready (n + 1) calls c'.
Proof.
  intros [Hs Hn Hw Hf Hu Hr Hd] Hc1 Hw1 [Hc' Hs']. apply NoDup_cons in Hu as [Hnew Hu].
  rewrite Hc', Hc1. split; cbn [gc_session gc_next_sequence gc_stream gc_with_stream gc_commit gc_issued_requests gc_max_requests].
  - done.
  - intros Hne. unfold checked_add_u64. destruct calls as [|next calls]; [done|].
    destruct (Hd 1 next eq_refl) as (_ & _ & Hlim & _). change (N.of_nat 1) with 1%N in Hlim. by rewrite (proj2 (N.ltb_lt _ _) Hlim).
  - rewrite Hs'. destruct Hw1. by split.
  - intros x Hx. apply not_elem_of_union. split; [|apply Hf; by right]. intros Heq%elem_of_singleton.
    apply Hnew. rewrite <- Heq. by apply list_elem_of_fmap_2.
  - done.
  - simpl in Hr. pose proof (size_union_alt {[call.1]} (gc_issued_requests c)) as Hsz. rewrite size_singleton in Hsz.
    pose proof (subseteq_size (gc_issued_requests c ∖ {[call.1]}) (gc_issued_requests c) ltac:(set_solver)). lia.
  - intros i x Hx. specialize (Hd (S i) x Hx). by replace (n + 1 + N.of_nat i)%N with (n + N.of_nat (S i))%N by lia.
Qed.

(** A call writes its frame and then reads. *)
Lemma call_run n call calls c :
  ready n (call :: calls) c →
  ∃ c1, request_with_id sha256 call.1 call.2 c = read_response sha256 call.1 c1 ∧
    client_supply c1 = client_supply c ∧
    s_written (gc_stream c1) = s_written (gc_stream c) ++ ControlFrame_encode (frame_of (request_payload n call)) ∧
    ∀ c', client_read c1 c' → ready (n + 1) calls c'.
Proof.
  intros Hready. pose proof Hready as [Hs Hn Hw Hf Hu Hr Hd]. pose proof (Hd 0 call eq_refl) as Hsend. rewrite N.add_0_r in Hsend.
  pose proof Hsend as (_ & _ & _ & Hfit). pose proof (request_payload_encode n call Hsend) as Henc.
  set (canonical := CanonicalBrokerRequest_new sha256 session n call.1 call.2) in *.
  destruct (client_write_frame_run (request_payload n call) (gc_commit call.1 n canonical c) Hfit Hw) as (c1 & Hrun & (Hc1 & Hsup & Hwr) & Hw1).
  exists c1. split_and!; [|done|done|intros c' Hread; by eapply ready_next].
  unfold request_with_id. erewrite st_bind_ok by done.
  destruct (N.leb_spec (gc_max_requests c) (N.of_nat (size (gc_issued_requests c)))) as [|_]; [simpl in Hr; lia|].
  rewrite bool_decide_eq_false_2 by (apply Hf; left). erewrite st_query_ok by (by rewrite Hn). rewrite Hs.
  fold canonical. erewrite st_query_ok by (by rewrite Henc).
  erewrite st_query_ok by (by rewrite (proj2 (ControlFrame_new_ok _ (frame_of (request_payload n call))) (conj Hfit eq_refl))).
  erewrite st_bind_ok by done. by erewrite st_bind_ok by done.
Qed.

(** ** The session *)

Abbreviation as_call := (λ call : BrokerRequestId * BrokerOperation, CallWithId call.1 call.2).

(** Whatever the peer answers, the client writes the frames of its calls. *)
Lemma run_written n calls c :
  ready n calls c →
  s_written (gc_stream (client_run sha256 (as_call <$> calls) c).2) =
  s_written (gc_stream c) ++ framed (call_payloads n calls).
Proof.
  revert n c. induction calls as [|call calls IH]; intros n c Hready; [by rewrite app_nil_r|].
  destruct (call_run n call calls c Hready) as (c1 & Hrun & _ & Hw & Hnext). cbn [fmap list_fmap client_run client_step call_payloads].
  rewrite Hrun, framed_cons. pose proof (read_response_spec sha256 call.1 c1) as Hr. unfold wp in Hr.
  destruct (read_response sha256 call.1 c1) as [r c2].
  assert (client_read c1 c2) as Hread by (destruct r; [by destruct Hr as (_ & _ & ?)|done]).
  specialize (IH _ _ (Hnext _ Hread)). destruct (client_run sha256 _ c2) as [rs c']. cbn [snd] in *.
  rewrite IH, (only_reads_written _ _ (proj2 Hread)), Hw. by rewrite (assoc_L (++)).
Qed.

Section composition.
  Context {T D C : Type} `{FramedIoLaws T} `{DispatcherLaws D sha256}.
  Context (clock : C → MonotonicTime * C) (identity : DispatchContext).

Abbreviation served := (BrokerServerProps.served sha256 clock identity (T := T) (D := D)).
Abbreviation exchanged := (BrokerServerProps.exchanged sha256 clock identity (T := T) (D := D)).

(** The [i]-th exchange is the [i]-th call, and the client returned its response. *)
Definition delivered_at (n : N) (calls : list (BrokerRequestId * BrokerOperation))
    (rs : list (result ClientError CanonicalBrokerResponse)) (i : nat) (x : exchange) : Prop :=
  ∃ call, calls !! i = Some call ∧
    CanonicalBrokerRequest_decode sha256 (cf_payload (ex_frame x)) =
      Ok (CanonicalBrokerRequest_new sha256 session (n + N.of_nat i) call.1 call.2) ∧
    rs !! i = Some (Ok (response_to_wire (ex_response x))).

(** The next exchange of the server answers the client's next call. *)
Lemma exchange_call n call calls c x cn cn1 rest :
  ready n (call :: calls) c → dispatcher_inv (cn_dispatcher cn) → exchanged x cn cn1 →
  coming (cn_transport cn) = framed (call_payloads n (call :: calls)) →
  (client_supply c).1 = reply sha256 (ex_response x) ++ rest →
  ∃ c', request_with_id sha256 call.1 call.2 c = (Ok (response_to_wire (ex_response x)), c') ∧
    client_supply c' = (rest, (client_supply c).2) ∧ ready (n + 1) calls c' ∧ dispatcher_inv (cn_dispatcher cn1) ∧
    coming (cn_transport cn1) = framed (call_payloads (n + 1) calls) ∧
    CanonicalBrokerRequest_decode sha256 (cf_payload (ex_frame x)) =
      Ok (CanonicalBrokerRequest_new sha256 session n call.1 call.2).
Proof using Hsha Hsession.
  intros Hready Hi [Hwf Hread _ Hrun _] Hcoming Hsup.
  pose proof (rd_sendable _ _ _ Hready 0 call eq_refl) as Hsend. rewrite N.add_0_r in Hsend.
  rewrite Hcoming in Hread. cbn [call_payloads] in Hread. rewrite framed_cons in Hread.
  rewrite (frame_of_payload _ Hwf) in Hread.
  apply framed_inj in Hread as [Hpay Hrest]; [|by apply Hsend|by apply ControlFrame_new_ok in Hwf as [? _]].
  pose proof (dispatch_request_spec (ex_frame x) (ex_context x) (cn_dispatcher cn) Hi) as Hd. unfold wp in Hd. rewrite Hrun in Hd.
  destruct Hd as (Hi1 & Hrwf & request & Hdec & Hreq). pose proof Hdec as Hdec'. rewrite <- Hpay in Hdec'.
  apply request_payload_decode in Hdec' as ->; [|done].
  destruct (call_run n call calls c Hready) as (c1 & Hcall & Hs1 & _ & Hnext).
  destruct (read_response_run sha256 Hsha (response_to_wire (ex_response x)) rest c1 Hrwf) as (c' & Hresp & Hs' & Hc'); [by rewrite Hs1|].
  exists c'. change (rsp_request (response_to_wire (ex_response x))) with (br_request (ex_response x)) in Hresp.
  rewrite Hreq in Hresp. cbn in Hresp. rewrite Hcall, <- Hs1. split_and!; auto.
Qed.

Lemma session_run xs cn cn' :
  served xs cn cn' → ∀ n calls c rest,
  ready n calls c → dispatcher_inv (cn_dispatcher cn) →
  coming (cn_transport cn) = framed (call_payloads n calls) →
  (client_supply c).1 = concat ((λ x, reply sha256 (ex_response x)) <$> xs) ++ rest →
  ∀ i x, xs !! i = Some x → delivered_at n calls (client_run sha256 (as_call <$> calls) c).1 i x.
Proof using Hsha Hsession.
  induction 1 as [|x xs cn cn1 cn' Hx Hxs IH]; intros n calls c rest Hready Hi Hcoming Hsup i y Hy; [done|].
  destruct calls as [|call calls].
  { rewrite (xd_read _ _ _ _ _ _ Hx) in Hcoming. apply (f_equal length) in Hcoming. unfold ControlFrame_encode in Hcoming.
    rewrite !length_app, length_be_bytes in Hcoming. simpl in Hcoming. lia. }
  rewrite fmap_cons in Hsup. cbn [concat] in Hsup. rewrite <- (assoc_L (++)) in Hsup.
  destruct (exchange_call n call calls c x cn cn1 _ Hready Hi Hx Hcoming Hsup) as (c' & Hcall & Hs' & Hready' & Hi1 & Hc1 & Hdec).
  cbn [fmap list_fmap client_run client_step]. rewrite Hcall.
  specialize (IH (n + 1)%N calls c' rest Hready' Hi1 Hc1 ltac:(by rewrite Hs')).
  destruct (client_run sha256 _ c') as [rs c''] eqn:Hrs. cbn [fst]. destruct i as [|i]; simpl in Hy.
  - injection Hy as <-. exists call. by rewrite N.add_0_r.
  - destruct (IH i y Hy) as (call' & Hc' & Hd' & Hr'). exists call'.
    by replace (n + N.of_nat (S i))%N with (n + 1 + N.of_nat i)%N by lia.
Qed.

(** The number of exchanges the server reports, and what it wrote. *)
Lemma served_sent xs cn cn' :
  served xs cn cn' →
  sent (cn_transport cn') = sent (cn_transport cn) ++ concat ((λ x, reply sha256 (ex_response x)) <$> xs).
Proof.
  induction 1 as [|x xs cn cn1 cn' Hx Hxs IH]; [by rewrite app_nil_r|].
  rewrite IH, (xd_written _ _ _ _ _ _ Hx), fmap_cons. cbn [concat]. by rewrite (assoc_L (++)).
Qed.

Lemma calls_ready cstream max_requests calls :
  writable cstream → NoDup (calls.*1) → (N.of_nat (length calls) <= max_requests)%N →
  (∀ i call, calls !! i = Some call → sendable (N.of_nat i) call) →
  ready 0 calls (with_limits cstream session max_requests).
Proof.
  intros Hw Hu Hmax Hsend. split; try done.
Qed.

(** C6: the control channel is faithful from end to end.  Connect a fresh client to a server,
    so that the server receives what the client writes and the client receives what the
    server writes, both cut into reads and writes in any way.  If the server ends the
    connection in an orderly way after some requests, then the request it dispatched at
    each position is the guest's call at that position, with its session, sequence
    number, identity and operation, and that call returned to the guest exactly the
    dispatcher's response, also when it travelled in chunks. *)
Theorem session_delivers_every_response cstream max_requests calls max_served cn :
  writable cstream → s_written cstream = [] → NoDup (calls.*1) → (N.of_nat (length calls) <= max_requests)%N →
  (∀ i call, calls !! i = Some call → sendable (N.of_nat i) call) →
  dispatcher_inv (cn_dispatcher cn) → sent (cn_transport cn) = [] →
  let guest := client_run sha256 (as_call <$> calls) (with_limits cstream session max_requests) in
  let host := serve_framed_connection clock sha256 identity max_served cn in
  coming (cn_transport cn) = s_written (gc_stream guest.2) → (supply cstream).1 = sent (cn_transport host.2) →
  ∀ report, host.1 = Ok report →
  ∃ xs, served xs cn host.2 ∧ N.of_nat (length xs) = rep_requests_served report ∧
    ∀ i x, xs !! i = Some x → delivered_at 0 calls guest.1 i x.
Proof using Hsha Hsession.
  intros Hw Hw0 Hu Hmax Hsend Hi Hsent0. pose proof (calls_ready cstream max_requests calls Hw Hu Hmax Hsend) as Hready.
  pose proof (run_written 0 calls _ Hready) as Hwritten. pose proof (λ xs cn cn' Hxs, session_run xs cn cn' Hxs 0 calls _ [] Hready) as Hrun.
  intros guest host. fold guest in Hwritten, Hrun. subst host.
  pose proof (serve_loop_spec sha256 clock identity Hsha max_served 0 (N.to_nat max_served) cn Hi) as Hserve.
  unfold serve_framed_connection. destruct (serve_loop _ _ _ _ _ _ cn) as [r cn']. cbn [fst snd].
  intros Hnet1 Hnet2 report ->. destruct Hserve as (xs & Hxs & Hreason). exists xs. split; [done|]. split.
  - destruct (rep_close_reason report); [destruct Hreason as (Hlen & -> & _); lia|..];
      destruct Hreason as (before & x & _ & _ & _ & _ & ->); lia.
  - apply (Hrun xs cn cn' Hxs Hi).
    + rewrite Hnet1, Hwritten. cbn [gc_stream with_limits]. by rewrite Hw0.
    + cbn. unfold client_supply. cbn. rewrite Hnet2, (served_sent _ _ _ Hxs), Hsent0, app_nil_r. done.
Qed.
End composition.
End session.
