(* ===== verification/WireDemo.v ===== *)
(** * A concrete connection

    A guest fetches twice over streams that cut, shorten and interrupt its bytes, from
    the broker of [DispatchDemo]; instances of the theorems on the wire. *)

From S2P Require Import Prelude Bytes Time Path File Http GitHub Capability State StateInvariant StateHistory.
From S2P Require Import ControlFrame Budget ReplayGuard Operation Cbor CborProps Response ResponseChunk ResponseProps.
From S2P Require Import BrokerWalState BrokerWal BrokerWalInvariant BrokerWalHistory BrokerWalCodec BrokerWalProps BrokerWalDemo.
From S2P Require Import DurableRecord Journal JournalProps JournalClaims AuditLog Kernel IpPolicy PublicFetch PublicFetchProps GitHubAdapter.
From S2P Require Import Dispatch DispatchProps DispatchClaims DispatchEgress DispatchDemo.
From S2P Require Import Stream Transport BrokerClient BrokerServer WireProps BrokerClientProps BrokerServerProps WireSession.

#[local] Existing Instances demo_fetch_env no_github no_github_laws demo_adapters demo_adapter_laws.

Abbreviation DemoBroker := (ServedDispatcher (KernelExecutor (AdapterWorld nat unit)) (AdapterWorld nat unit)).

#[local] Instance demo_broker : RequestDispatcher DemoBroker := ServedDispatcher_dispatcher demo_digest.
#[local] Instance demo_broker_laws : DispatcherLaws DemoBroker demo_digest :=
  ServedDispatcher_laws demo_digest demo_digest_len demo_wal_config 1000.

Definition demo_calls : list (BrokerRequestId * BrokerOperation) :=
  [(BrokerWalDemo.demo_request 0, OpPublicFetch demo_fetch_request); (BrokerWalDemo.demo_request 1, OpPublicFetch demo_fetch_request)].

Definition demo_stream (incoming : list ReadEvent) (writes : list WriteEvent) : Stream :=
  {| s_incoming := incoming; s_written := []; s_writes := writes; s_flushes := [None]; s_read_timeout := None;
     s_write_timeout := None; s_options := []; s_instants := [] |}.

Definition demo_requests : str := framed (call_payloads demo_digest (dsc_session demo_wal_config) 0 demo_calls).

(** The requests arrive in three pieces with an interruption between them. *)
Definition host_stream : Stream :=
  demo_stream [Arrived (take 3 demo_requests); ReadFails Kind_Interrupted; Arrived (take 90 (drop 3 demo_requests));
               Arrived (drop 93 demo_requests)] [Takes 1; WriteFails Kind_Interrupted; Takes 7].

Definition demo_connection : ServedConnection FramedTransport DemoBroker N :=
  {| cn_transport := {| ft_stream := host_stream |};
     cn_dispatcher := {| sd_dispatcher := fetch_dispatcher; sd_io := []; sd_later := disk_ok |}; cn_clock := 5%N |}.

Abbreviation ticks := (λ t : N, (t, (t + 1)%N)).

Abbreviation host_run := (serve_framed_connection ticks demo_digest fetch_context 2 demo_connection).

Definition demo_replies : str := Eval vm_compute in s_written (ft_stream (cn_transport host_run.2)).

Lemma host_run_replies : s_written (ft_stream (cn_transport host_run.2)) = demo_replies.
Proof. vm_compute. reflexivity. Qed.

Lemma host_run_report :
  host_run.1 = Ok {| rep_requests_served := 2; rep_close_reason := Close_RequestLimitReached |}.
Proof. vm_compute. reflexivity. Qed.

Lemma demo_broker_inv : dispatcher_inv (cn_dispatcher demo_connection).
Proof.
  apply (new_healthy demo_digest demo_wal_config 1000 demo_wal_config_wf fetch_executor fetch_world fetch_dispatcher fetch_dispatcher_new).
Qed.

Lemma connection_serves_exactly_witness :
  connection_outcome demo_digest ticks fetch_context 2 0 2 demo_connection host_run.1 host_run.2.
Proof.
  apply (connection_serves_exactly demo_digest ticks fetch_context demo_digest_len 2 demo_connection). exact demo_broker_inv.
Defined.

(** The replies arrive in two pieces; the guest's first writes are short. *)
Definition guest_stream : Stream :=
  demo_stream [Arrived (take 10 demo_replies); ReadFails Kind_Interrupted; Arrived (drop 10 demo_replies)]
    [Takes 2; WriteFails Kind_Interrupted].

Abbreviation as_call := (λ call : BrokerRequestId * BrokerOperation, CallWithId call.1 call.2).

Abbreviation guest_run :=
  (client_run demo_digest (as_call <$> demo_calls) (with_limits guest_stream (dsc_session demo_wal_config) 8)).

Lemma demo_calls_sendable i call :
  demo_calls !! i = Some call → sendable demo_digest (dsc_session demo_wal_config) (N.of_nat i) call.
Proof.
  assert (op_wf (OpPublicFetch demo_fetch_request)) as Hop.
  { unfold op_wf. split_and!.
    - apply (CanonicalHost_new_wf (lit "example.com")). vm_compute. reflexivity.
    - apply (CanonicalUrlPath_new_iff (lit "/v1") {| cup_segments := [lit "v1"] |}). vm_compute. reflexivity.
    - vm_compute. reflexivity. }
  destruct i as [|[|i]]; [intros [= <-]..|done]; (split_and!; [done|exact Hop|done|]); vm_compute; discriminate.
Qed.

Lemma session_delivers_every_response_witness :
  ∃ xs, served demo_digest ticks fetch_context xs demo_connection host_run.2 ∧ N.of_nat (length xs) = 2%N ∧
    ∀ i x, xs !! i = Some x → delivered_at demo_digest (dsc_session demo_wal_config) 0 demo_calls guest_run.1 i x.
Proof.
  apply (session_delivers_every_response demo_digest demo_digest_len (dsc_session demo_wal_config) eq_refl ticks fetch_context
    guest_stream 8 demo_calls 2 demo_connection) with (report := {| rep_requests_served := 2; rep_close_reason := Close_RequestLimitReached |}).
  - split; [repeat constructor; simpl; lia|repeat constructor].
  - reflexivity.
  - apply NoDup_cons. split; [by intros ?%list_elem_of_singleton|apply NoDup_singleton].
  - vm_compute. discriminate.
  - exact demo_calls_sendable.
  - exact demo_broker_inv.
  - reflexivity.
  - vm_compute. reflexivity.
  - vm_compute. reflexivity.
  - vm_compute. reflexivity.
Defined.

Lemma client_requests_are_unique_witness :
  let run := client_run demo_digest [CallWithId (BrokerWalDemo.demo_request 0) (OpPublicFetch demo_fetch_request);
    CallRequest (OpPublicFetch demo_fetch_request)] (with_limits guest_stream (dsc_session demo_wal_config) 8) in
  NoDup (be_request <$> (cbr_envelope <$> gc_committed run.2)) ∧ length (gc_committed run.2) = 2.
Proof.
  intros run. split; [|vm_compute; reflexivity].
  pose proof (client_requests_are_unique demo_digest guest_stream (dsc_session demo_wal_config) 8
    [CallWithId (BrokerWalDemo.demo_request 0) (OpPublicFetch demo_fetch_request); CallRequest (OpPublicFetch demo_fetch_request)]
    eq_refl) as H.
  subst run. revert H. destruct (client_run _ _ _) as [rs c]. cbn [snd]. tauto.
Defined.

(** ** Timeouts *)

Lemma read_exact_fails kind rest size s :
  s_incoming s = ReadFails kind :: rest → kind ≠ Kind_Interrupted → (0 < size)%N → (read_exact size s).1 = Err kind.
Proof.
  intros Hin Hk Hsize. unfold read_exact, st_map_err, fill. cbn [fill_loop]. change (len []) with 0%N.
  destruct (N.leb_spec size 0); [lia|]. unfold stream_read. rewrite Hin. by destruct kind.
Qed.

(** A read that runs into the socket's receive timeout fails on Unix with [WouldBlock],
    and then [read_frame] reports a plain I/O error; only an error of kind [TimedOut]
    becomes the typed deadline that [read_frame] documents for idle reads.  This holds of
    every transport whose connection deadline has not passed and whose socket takes its
    options, whatever its policy. *)
Theorem socket_timeout_is_untyped stream policy deadline now rest :
  s_instants stream = [now] → (now < deadline)%N → s_options stream = [] →
  let transport := {| dft_stream := stream; dft_policy := policy; dft_connection_deadline := deadline |} in
  (s_incoming stream = ReadFails Kind_WouldBlock :: rest →
     (DeadlineFramedTransport_read_frame transport).1 = Err (Transport_Io Kind_WouldBlock)) ∧
  (s_incoming stream = ReadFails Kind_TimedOut :: rest →
     ∃ kind, (DeadlineFramedTransport_read_frame transport).1 = Err (Transport_Deadline kind)).
Proof.
  intros Hnow Hlt Hopt transport.
  assert (∃ tighter t, prepare_read transport = (Ok tighter, t) ∧ s_incoming (dft_stream t) = s_incoming stream) as (tighter & t & Hprep & Hin).
  { unfold prepare_read, dft_remaining.
    unfold mbind, ST_bind, st_get, dft_io, instant_now, st_map_err, set_read_timeout, stream_option, mret, ST_ret.
    cbn [dft_stream dft_policy dft_connection_deadline dft_with_stream transport]. rewrite Hnow.
    destruct (N.eqb_spec (deadline - now) 0) as [|_]; [lia|].
    cbn [dft_stream dft_policy dft_connection_deadline dft_with_stream transport]. rewrite Hopt. eauto. }
  assert (∀ kind, s_incoming stream = ReadFails kind :: rest → kind ≠ Kind_Interrupted →
    (DeadlineFramedTransport_read_frame transport).1 = Err (map_deadline_io Deadline_Read tighter kind)) as Hread.
  { intros kind Hstream Hk. unfold DeadlineFramedTransport_read_frame. erewrite st_bind_ok by done.
    rewrite <- Hin in Hstream. pose proof (read_exact_fails kind rest 4 (dft_stream t) Hstream Hk eq_refl) as Hfail.
    unfold mbind at 1, ST_bind at 1, dft_io, st_map_err. change (N.of_nat CONTROL_FRAME_LENGTH_PREFIX_BYTES) with 4%N.
    destruct (read_exact 4 (dft_stream t)) as [r s']. cbn [fst] in Hfail. by rewrite Hfail. }
  split; intros Hstream; rewrite (Hread _ Hstream) by done; [done|]. unfold map_deadline_io.
  rewrite bool_decide_eq_true_2 by done. destruct tighter; eauto.
Qed.

Lemma socket_timeout_is_untyped_witness :
  (DeadlineFramedTransport_read_frame
     {| dft_stream := s_with_instants [7%N] (demo_stream [ReadFails Kind_WouldBlock] []);
        dft_policy := TransportPolicy_default; dft_connection_deadline := 100 |}).1 = Err (Transport_Io Kind_WouldBlock).
Proof.
  apply (socket_timeout_is_untyped (s_with_instants [7%N] (demo_stream [ReadFails Kind_WouldBlock] []))
    TransportPolicy_default 100 7 []); [done|lia|done|done].
Defined.
