(* ===== verification/IdentityLedger.v ===== *)
(** * The no-reuse identity ledger of the session orchestrator

    [session-orchestrator/src/lib.rs]: the identity domains, the process-local ledger, and
    the durable ledger with its two formats.  A file is the list of its bytes.  What the
    operating system answers is an argument: the verdicts of the ownership, permission and
    lock checks, the failures of [seek] and [read], and for a write or a synchronisation
    that fails the number of bytes that survive it.  The length checks, which depend on
    what was written, are the code's own. *)

From Stdlib Require Import Strings.Byte.
From S2P Require Import Prelude Bytes.

Definition ID_BYTES : N := 16.

(** [[u8; ID_BYTES]]. *)
Definition Identity : Type := str.

#[export] Instance Identity_eq_dec : EqDecision Identity := list_eq_dec.
#[export] Instance Identity_countable : Countable Identity := list_countable.

Definition identity_wf (identity : Identity) : bool := (len identity =? ID_BYTES)%N.

(** ** Identity domains *)

Inductive IdentityKind :=
  | Kind_Vm
  | Kind_Session
  | Kind_Subject
  | Kind_Workspace
  | Kind_Capability
  | Kind_Request
  | Kind_BrokerSession.

#[export] Instance IdentityKind_eq_dec : EqDecision IdentityKind.
Proof. solve_decision. Defined.

Definition kind_tag (kind : IdentityKind) : N :=
  match kind with
  | Kind_Vm => 1
  | Kind_Session => 2
  | Kind_Subject => 3
  | Kind_Workspace => 4
  | Kind_Capability => 5
  | Kind_Request => 6
  | Kind_BrokerSession => 7
  end.

Definition kind_from_tag (tag : N) : option IdentityKind :=
  match tag with
  | 1 => Some Kind_Vm
  | 2 => Some Kind_Session
  | 3 => Some Kind_Subject
  | 4 => Some Kind_Workspace
  | 5 => Some Kind_Capability
  | 6 => Some Kind_Request
  | 7 => Some Kind_BrokerSession
  | _ => None
  end%N.

(** ** Format constants *)

Definition MAX_LEDGER_RECORDS : N := 1048576.
Definition LEDGER_MAGIC : str := lit "SORLEDG1".
Definition LEDGER_VERSION : N := 1.
Definition LEDGER_HEADER_BYTES : N := 32.
Definition LEDGER_V2_MAGIC : str := lit "SORLEDG2".
Definition LEDGER_V2_VERSION : N := 2.
Definition LEDGER_V2_HEADER_BYTES : N := 64.
Definition LEDGER_V2_HEADER_SLOTS : N := 2.
Definition LEDGER_V2_DATA_OFFSET : N := LEDGER_V2_HEADER_BYTES * LEDGER_V2_HEADER_SLOTS.
Definition LEDGER_RECORD_BYTES : N := 32.
Definition MAX_LEDGER_BYTES : N := LEDGER_V2_DATA_OFFSET + MAX_LEDGER_RECORDS * LEDGER_RECORD_BYTES.

(** ** Errors *)

Inductive LedgerOperation :=
  | LedgerOp_DirectoryOpen
  | LedgerOp_DirectorySync
  | LedgerOp_Metadata
  | LedgerOp_Open
  | LedgerOp_HeaderWrite
  | LedgerOp_Read
  | LedgerOp_Append
  | LedgerOp_Sync
  | LedgerOp_Lock.

Inductive LedgerError :=
  | Ledger_Locked (path : str)
  | Ledger_Symlink (path : str)
  | Ledger_NotRegularFile (path : str)
  | Ledger_PathIdentityChanged (path : str)
  | Ledger_WrongOwner (path : str) (expected actual : N)
  | Ledger_UnsafePermissions (path : str) (mode : N)
  | Ledger_UnsafeParentDirectory (path : str)
  | Ledger_LengthChanged (path : str) (expected actual : N)
  | Ledger_Io (operation : LedgerOperation) (path message : str)
  | Ledger_WriteFailed (path message : str)
  | Ledger_SyncFailed (path message : str)
  | Ledger_Corrupt (offset : N) (reason : str)
  | Ledger_Truncated (offset expected actual : N)
  | Ledger_UnsupportedVersion (version : N)
  | Ledger_Duplicate (kind : IdentityKind) (identity : Identity)
  | Ledger_CapacityExceeded (records max_records : N)
  | Ledger_Unavailable (reason : str).

Definition ledger_corrupt (offset : N) (reason : string) : LedgerError := Ledger_Corrupt offset (lit reason).

(** ** The ledger interface *)

Class IdentityLedger (L : Type) : Type :=
  reserve_batch : list (IdentityKind * Identity) → ST L LedgerError unit.

(** The trait's default method. *)
Definition ledger_reserve `{IdentityLedger L} (kind : IdentityKind) (identity : Identity) : ST L LedgerError unit :=
  reserve_batch [(kind, identity)].

(** ** The process-local ledger *)

Record InMemoryIdentityLedger := { iml_issued : gset Identity }.

Definition InMemoryIdentityLedger_new : InMemoryIdentityLedger := {| iml_issued := ∅ |}.

(** The loop of [check_batch]: the first identity that is issued, or repeated in the
    batch, is reported; otherwise the batch as a set. *)
Fixpoint check_pending (issued pending : gset Identity) (identities : list (IdentityKind * Identity))
    : result LedgerError (gset Identity) :=
  match identities with
  | [] => Ok pending
  | (kind, identity) :: rest =>
      if bool_decide (identity ∈ issued) || bool_decide (identity ∈ pending)
      then Err (Ledger_Duplicate kind identity)
      else check_pending issued ({[identity]} ∪ pending) rest
  end.

Definition check_batch (self : InMemoryIdentityLedger) (identities : list (IdentityKind * Identity))
    : result LedgerError unit :=
  _ ← check_pending (iml_issued self) ∅ identities; Ok tt.

#[export] Instance InMemory_ledger : IdentityLedger InMemoryIdentityLedger := λ identities,
  _ ← st_query (λ self, check_batch self identities);
  st_modify (λ self, {| iml_issued := iml_issued self ∪ list_to_set identities.*2 |}).

(** ** CRC-32 *)

Definition u32_max : N := 4294967295.

(** One round of the inner loop. *)
Definition crc_round (value : N) : N :=
  let mask := ((2 ^ 32 - N.land value 1) mod 2 ^ 32)%N in
  N.lxor (N.shiftr value 1) (N.land 3988292384 mask).

(** One byte. *)
Definition crc_byte (value : N) (byte : byte) : N := Nat.iter 8 crc_round (N.lxor value (b2N byte)).

Definition ledger_checksum (bytes : str) : N := N.lxor (foldl crc_byte u32_max bytes) u32_max.

(** ** Encoding *)

Definition zeros (n : nat) : str := replicate n x00.

Definition ledger_header_body (record_count data_length : N) : str :=
  LEDGER_MAGIC ++ [N2b LEDGER_VERSION; N2b 32; x00; x00] ++ le_bytes 8 record_count ++ le_bytes 8 data_length.

Definition ledger_header (record_count data_length : N) : str :=
  let header := ledger_header_body record_count data_length in
  header ++ le_bytes 4 (ledger_checksum header).

Definition ledger_header_v2_body (slot generation data_length : N) : str :=
  let record_count := ((data_length - LEDGER_V2_DATA_OFFSET) / LEDGER_RECORD_BYTES)%N in
  LEDGER_V2_MAGIC ++ [N2b LEDGER_V2_VERSION; N2b LEDGER_V2_HEADER_BYTES; x00; x00]
  ++ le_bytes 8 generation ++ le_bytes 8 record_count ++ le_bytes 8 data_length
  ++ [N2b slot] ++ zeros 23.

Definition ledger_header_v2 (slot generation data_length : N) : str :=
  let header := ledger_header_v2_body slot generation data_length in
  header ++ le_bytes 4 (ledger_checksum header).

Definition ledger_record_body (kind : IdentityKind) (identity : Identity) (sequence : N) : str :=
  [N2b LEDGER_VERSION; N2b (kind_tag kind); x00; x00] ++ le_bytes 8 sequence ++ identity.

Definition ledger_record (kind : IdentityKind) (identity : Identity) (sequence : N) : str :=
  let record := ledger_record_body kind identity sequence in
  record ++ le_bytes 4 (ledger_checksum record).

(** The records of a batch, numbered from [sequence]. *)
Fixpoint ledger_records (sequence : N) (identities : list (IdentityKind * Identity)) : str :=
  match identities with
  | [] => []
  | (kind, identity) :: rest => ledger_record kind identity sequence ++ ledger_records (sequence + 1) rest
  end.

(** ** Decoding *)

(** [bytes[start..finish]] of a buffer whose length was checked. *)
Definition field (start finish : nat) (bytes : str) : str := take (finish - start) (drop start bytes).

(** [bytes[index]]. *)
Definition byte_at (index : nat) (bytes : str) : N := default 0%N (b2N <$> bytes !! index).

Definition le_field (start finish : nat) (bytes : str) : N := from_le_bytes (field start finish bytes).

Record ParsedV2Header := {
  ph_slot : N;
  ph_generation : N;
  ph_record_count : N;
  ph_data_length : N
}.

#[export] Instance ParsedV2Header_eq_dec : EqDecision ParsedV2Header.
Proof. solve_decision. Defined.

Record ParsedV2Ledger := {
  pl_issued : gset Identity;
  pl_next_sequence : N;
  pl_generation : N;
  pl_active_slot : N;
  pl_committed_length : N;
  pl_recover_tail : bool
}.

Definition saturating_mul_u64 (a b : N) : N := N.min (a * b) (u64_limit - 1).

(** The checks on the 64 bytes of the header in [slot]. *)
Definition parse_v2_header_bytes (header : str) (slot : N) : result LedgerError ParsedV2Header :=
  let offset := (slot * LEDGER_V2_HEADER_BYTES)%N in
  if negb (bool_decide (take 8 header = LEDGER_V2_MAGIC))
  then Err (ledger_corrupt offset "v2 header magic does not match")
  else if negb (byte_at 8 header =? LEDGER_V2_VERSION)%N
  then Err (Ledger_UnsupportedVersion (byte_at 8 header))
  else if negb (byte_at 9 header =? LEDGER_V2_HEADER_BYTES)%N || negb (bool_decide (field 10 12 header = [x00; x00]))
  then Err (ledger_corrupt (offset + 9) "invalid v2 header length or reserved bytes")
  else if existsb (λ b, negb (b2N b =? 0)%N) (field 37 60 header)
  then Err (ledger_corrupt (offset + 37) "v2 header reserved bytes are non-zero")
  else if negb (byte_at 36 header =? slot)%N
  then Err (ledger_corrupt (offset + 36) "v2 header slot does not match its physical slot")
  else if negb (ledger_checksum (take 60 header) =? le_field 60 64 header)%N
  then Err (ledger_corrupt (offset + 60) "v2 header checksum mismatch")
  else
    let generation := le_field 12 20 header in
    let record_count := le_field 20 28 header in
    let data_length := le_field 28 36 header in
    if (MAX_LEDGER_RECORDS <? record_count)%N
    then Err (Ledger_CapacityExceeded record_count MAX_LEDGER_RECORDS)
    else
      match checked_add_u64 LEDGER_V2_DATA_OFFSET (saturating_mul_u64 record_count LEDGER_RECORD_BYTES) with
      | None => Err (Ledger_CapacityExceeded record_count MAX_LEDGER_RECORDS)
      | Some expected_length =>
          if negb (data_length =? expected_length)%N
          then Err (ledger_corrupt (offset + 28) "v2 header data length does not match record count")
          else Ok {| ph_slot := slot; ph_generation := generation;
                     ph_record_count := record_count; ph_data_length := data_length |}
      end.

Definition parse_v2_header (bytes : str) (slot : N) : result LedgerError ParsedV2Header :=
  let offset := (slot * LEDGER_V2_HEADER_BYTES)%N in
  let finish := (offset + LEDGER_V2_HEADER_BYTES)%N in
  if (len bytes <? finish)%N
  then Err (Ledger_Truncated offset LEDGER_V2_HEADER_BYTES (len bytes - offset))
  else parse_v2_header_bytes (field (N.to_nat offset) (N.to_nat finish) bytes) slot.

Definition parse_record (record : str) (expected_sequence offset : N)
    : result LedgerError (IdentityKind * Identity) :=
  if negb (len record =? LEDGER_RECORD_BYTES)%N
  then Err (Ledger_Truncated offset LEDGER_RECORD_BYTES (len record))
  else if negb (byte_at 0 record =? LEDGER_VERSION)%N
  then Err (Ledger_UnsupportedVersion (byte_at 0 record))
  else if negb (bool_decide (field 2 4 record = [x00; x00]))
  then Err (ledger_corrupt (offset + 2) "record reserved bytes are non-zero")
  else if negb (le_field 4 12 record =? expected_sequence)%N
  then Err (ledger_corrupt (offset + 4) "record sequence is not contiguous")
  else
    match kind_from_tag (byte_at 1 record) with
    | None => Err (ledger_corrupt (offset + 1) "unknown identity kind")
    | Some kind =>
        if negb (ledger_checksum (take 28 record) =? le_field 28 32 record)%N
        then Err (ledger_corrupt (offset + 28) "record checksum mismatch")
        else Ok (kind, field 12 28 record)
    end.

(** The loop over [chunks_exact(LEDGER_RECORD_BYTES).enumerate()]: [count] whole chunks. *)
Fixpoint parse_records (count : nat) (bytes : str) (sequence offset : N) (issued : gset Identity)
    : result LedgerError (gset Identity) :=
  match count with
  | O => Ok issued
  | S count =>
      '(kind, identity) ← parse_record (take 32 bytes) sequence offset;
      if bool_decide (identity ∈ issued) then Err (Ledger_Duplicate kind identity)
      else parse_records count (drop 32 bytes) (sequence + 1) (offset + LEDGER_RECORD_BYTES)
             ({[identity]} ∪ issued)
  end.

Definition validate_partial_record_prefix (partial : str) (expected_sequence offset : N) : result LedgerError unit :=
  if negb (byte_at 0 partial =? LEDGER_VERSION)%N
  then Err (ledger_corrupt offset "staged tail has an invalid record version")
  else if (2 <=? len partial)%N && bool_decide (kind_from_tag (byte_at 1 partial) = None)
  then Err (ledger_corrupt (offset + 1) "staged tail has an unknown identity kind")
  else if (4 <=? len partial)%N && negb (bool_decide (field 2 4 partial = [x00; x00]))
  then Err (ledger_corrupt (offset + 2) "staged tail reserved bytes are non-zero")
  else if (12 <=? len partial)%N && negb (le_field 4 12 partial =? expected_sequence)%N
  then Err (ledger_corrupt (offset + 4) "staged tail record sequence is not contiguous")
  else Ok tt.

(** The whole records of the tail, then the check of what is left of it. *)
Fixpoint validate_staged_records (count : nat) (tail : str) (sequence offset : N) : result LedgerError unit :=
  match count with
  | O => if bool_decide (tail = []) then Ok tt else validate_partial_record_prefix tail sequence offset
  | S count =>
      _ ← parse_record (take 32 tail) sequence offset;
      validate_staged_records count (drop 32 tail) (sequence + 1) (offset + LEDGER_RECORD_BYTES)
  end.

Definition validate_staged_tail (tail : str) (first_sequence offset : N) : result LedgerError unit :=
  validate_staged_records (length tail / 32) tail first_sequence offset.

(** [max_by_key(generation)] over the valid headers: the last of equal maxima. *)
Definition select_header (first second : option ParsedV2Header) : option ParsedV2Header :=
  match first, second with
  | Some a, Some b => if (ph_generation a <=? ph_generation b)%N then Some b else Some a
  | Some a, None => Some a
  | None, b => b
  end.

Definition result_ok {E A} (r : result E A) : option A := match r with Ok a => Some a | Err _ => None end.

(** Two valid headers of one generation that commit different data. *)
Definition headers_disagree (first second : option ParsedV2Header) : bool :=
  match first, second with
  | Some a, Some b =>
      (ph_generation a =? ph_generation b)%N
      && (negb (ph_record_count a =? ph_record_count b)%N || negb (ph_data_length a =? ph_data_length b)%N)
  | _, _ => false
  end.

Definition parse_ledger_v2 (bytes : str) : result LedgerError ParsedV2Ledger :=
  if (len bytes <? LEDGER_V2_DATA_OFFSET)%N
  then Err (Ledger_Truncated (len bytes) LEDGER_V2_DATA_OFFSET (len bytes))
  else
    let first := parse_v2_header bytes 0 in
    let second := parse_v2_header bytes 1 in
    match select_header (result_ok first) (result_ok second) with
    | None =>
        match first, second with
        | Err error, _ => Err error
        | _, Err error => Err error
        | _, _ => Err (ledger_corrupt 0 "v2 ledger has no valid commit header")
        end
    | Some selected =>
        if headers_disagree (result_ok first) (result_ok second)
        then Err (ledger_corrupt 0 "v2 commit headers disagree at the same generation")
        else if (ph_generation selected =? 0)%N && negb (is_ok first && is_ok second)
        then Err (ledger_corrupt 0 "initial v2 commit is missing one redundant header")
        else
          let data_length := ph_data_length selected in
          if (len bytes <? data_length)%N
          then Err (Ledger_Truncated (len bytes) data_length (len bytes))
          else
            let record_bytes := field (N.to_nat LEDGER_V2_DATA_OFFSET) (N.to_nat data_length) bytes in
            if negb (len record_bytes =? ph_record_count selected * LEDGER_RECORD_BYTES)%N
            then Err (ledger_corrupt LEDGER_V2_DATA_OFFSET "v2 record byte length does not match selected header")
            else
              issued ← parse_records (length record_bytes / 32) record_bytes 0 LEDGER_V2_DATA_OFFSET ∅;
              let tail := drop (N.to_nat data_length) bytes in
              recover_tail ←
                (if bool_decide (tail = []) then Ok false
                 else _ ← validate_staged_tail tail (ph_record_count selected) data_length; Ok true);
              Ok {| pl_issued := issued; pl_next_sequence := ph_record_count selected;
                    pl_generation := ph_generation selected; pl_active_slot := ph_slot selected;
                    pl_committed_length := ph_data_length selected; pl_recover_tail := recover_tail |}
    end.

(** The single-header format. *)
Definition parse_ledger (bytes : str) : result LedgerError (gset Identity * N) :=
  if (len bytes <? LEDGER_HEADER_BYTES)%N then Err (Ledger_Truncated 0 LEDGER_HEADER_BYTES (len bytes))
  else if negb (bool_decide (take 8 bytes = LEDGER_MAGIC))
  then Err (ledger_corrupt 0 "header magic does not match")
  else if negb (byte_at 8 bytes =? LEDGER_VERSION)%N
  then Err (Ledger_UnsupportedVersion (byte_at 8 bytes))
  else if negb (byte_at 9 bytes =? LEDGER_HEADER_BYTES)%N || negb (bool_decide (field 10 12 bytes = [x00; x00]))
  then Err (ledger_corrupt 9 "invalid header length or reserved bytes")
  else
    let record_count := le_field 12 20 bytes in
    let data_length := le_field 20 28 bytes in
    if negb (ledger_checksum (take 28 bytes) =? le_field 28 32 bytes)%N
    then Err (ledger_corrupt 28 "header checksum mismatch")
    else if (MAX_LEDGER_RECORDS <? record_count)%N
    then Err (Ledger_CapacityExceeded record_count MAX_LEDGER_RECORDS)
    else if negb (data_length =? LEDGER_HEADER_BYTES + record_count * LEDGER_RECORD_BYTES)%N
    then Err (ledger_corrupt 20 "header data length does not match record count")
    else if (len bytes <? data_length)%N
    then Err (Ledger_Truncated (len bytes) data_length (len bytes))
    else if (data_length <? len bytes)%N
    then Err (ledger_corrupt data_length "uncommitted trailing bytes follow the ledger header")
    else
      let record_bytes := drop 32 bytes in
      if negb (len record_bytes =? record_count * LEDGER_RECORD_BYTES)%N
      then Err (ledger_corrupt LEDGER_HEADER_BYTES "record byte length does not match header")
      else
        let remainder := (len record_bytes mod LEDGER_RECORD_BYTES)%N in
        if negb (remainder =? 0)%N
        then Err (Ledger_Truncated (LEDGER_HEADER_BYTES + record_count * LEDGER_RECORD_BYTES)
                    LEDGER_RECORD_BYTES remainder)
        else
          issued ← parse_records (length record_bytes / 32) record_bytes 0 LEDGER_HEADER_BYTES ∅;
          Ok (issued, record_count).

(** ** The durable ledger *)

Inductive LedgerFormat := LegacyV1 | RedundantV2.

Record DurableIdentityLedger := {
  dl_path : str;
  dl_file : str;
  dl_format : LedgerFormat;
  dl_issued : gset Identity;
  dl_next_sequence : N;
  dl_length : N;
  dl_generation : N;
  dl_active_slot : N;
  dl_poisoned : bool
}.

Definition LM (A : Type) : Type := ST DurableIdentityLedger LedgerError A.

Definition dl_set_file (file : str) (self : DurableIdentityLedger) : DurableIdentityLedger :=
  {| dl_path := dl_path self; dl_file := file; dl_format := dl_format self; dl_issued := dl_issued self;
     dl_next_sequence := dl_next_sequence self; dl_length := dl_length self;
     dl_generation := dl_generation self; dl_active_slot := dl_active_slot self;
     dl_poisoned := dl_poisoned self |}.

Definition dl_poison (self : DurableIdentityLedger) : DurableIdentityLedger :=
  {| dl_path := dl_path self; dl_file := dl_file self; dl_format := dl_format self; dl_issued := dl_issued self;
     dl_next_sequence := dl_next_sequence self; dl_length := dl_length self;
     dl_generation := dl_generation self; dl_active_slot := dl_active_slot self;
     dl_poisoned := true |}.

(** The in-memory commit at the end of a reservation. *)
Definition dl_commit (pending : gset Identity) (new_records committed_length generation active_slot : N)
    (self : DurableIdentityLedger) : DurableIdentityLedger :=
  {| dl_path := dl_path self; dl_file := dl_file self; dl_format := dl_format self;
     dl_issued := dl_issued self ∪ pending;
     dl_next_sequence := new_records; dl_length := committed_length;
     dl_generation := generation; dl_active_slot := active_slot;
     dl_poisoned := dl_poisoned self |}.

(** A write or a synchronisation that fails leaves the first [n] bytes of the data. *)
Definition IoOutcome : Type := option (nat * str).

(** [bytes] over the file at [position]. *)
Definition write_at (position : nat) (bytes file : str) : str :=
  take position file ++ bytes ++ drop (position + length bytes) file.

(** [validate_open_ledger]: the verdict of the path, owner and permission checks, then
    the length. *)
Definition validate_open_ledger (verdict : option LedgerError) (path file : str) (expected_length : option N)
    : result LedgerError N :=
  match verdict with
  | Some error => Err error
  | None =>
      if (MAX_LEDGER_BYTES <? len file)%N
      then Err (Ledger_CapacityExceeded
                  (N.min (len file - LEDGER_HEADER_BYTES + (LEDGER_RECORD_BYTES - 1)) (u64_limit - 1)
                   / LEDGER_RECORD_BYTES) MAX_LEDGER_RECORDS)
      else
        match expected_length with
        | Some expected =>
            if negb (len file =? expected)%N then Err (Ledger_LengthChanged path expected (len file))
            else Ok (len file)
        | None => Ok (len file)
        end
  end.

(** What the operating system answers to the steps of one reservation. *)
Record ReserveIo := {
  ri_before : option LedgerError;
  ri_seek_records : option str;
  ri_write_records : IoOutcome;
  ri_sync_records : IoOutcome;
  ri_middle : option LedgerError;
  ri_seek_header : option str;
  ri_write_header : IoOutcome;
  ri_sync_header : IoOutcome;
  ri_after : option LedgerError
}.

Definition reserve_io_ok : ReserveIo :=
  {| ri_before := None; ri_seek_records := None; ri_write_records := None; ri_sync_records := None;
     ri_middle := None; ri_seek_header := None; ri_write_header := None; ri_sync_header := None;
     ri_after := None |}.

(** [if let Err(error) = outcome { self.poisoned = true; return Err(error) }]. *)
Definition or_poison {A} (outcome : DurableIdentityLedger → result LedgerError A) : LM A := λ self,
  match outcome self with
  | Ok a => (Ok a, self)
  | Err error => (Err error, dl_poison self)
  end.

Definition validate_append_target_of (verdict : option LedgerError) (expected_length : N) : LM unit :=
  or_poison (λ self, _ ← validate_open_ledger verdict (dl_path self) (dl_file self) (Some expected_length); Ok tt).

Definition seek_or_poison (failure : option str) (operation : LedgerOperation) : LM unit :=
  or_poison (λ self, match failure with
                     | Some message => Err (Ledger_Io operation (dl_path self) message)
                     | None => Ok tt
                     end).

(** [ledger_write] at the position of the last seek, followed by [ledger_sync]: the two
    barriers of a reservation. *)
Definition write_and_sync (write sync : IoOutcome) (position : nat) (bytes : str) : LM unit := λ self,
  let file := dl_file self in
  match write with
  | Some (n, message) =>
      (Err (Ledger_WriteFailed (dl_path self) message),
       dl_poison (dl_set_file (write_at position (take n bytes) file) self))
  | None =>
      match sync with
      | Some (n, message) =>
          (Err (Ledger_SyncFailed (dl_path self) message),
           dl_poison (dl_set_file (write_at position (take n bytes) file) self))
      | None => (Ok tt, dl_set_file (write_at position bytes file) self)
      end
  end.

Definition reserve_legacy (io : ReserveIo) (pending : gset Identity) (new_records : N) (encoded : str) : LM unit :=
  length ← st_gets dl_length;
  _ ← validate_append_target_of (ri_before io) length;
  _ ← seek_or_poison (ri_seek_records io) LedgerOp_Append;
  _ ← write_and_sync (ri_write_records io) (ri_sync_records io) (N.to_nat length) encoded;
  let committed_length := (LEDGER_HEADER_BYTES + new_records * LEDGER_RECORD_BYTES)%N in
  _ ← validate_append_target_of (ri_middle io) committed_length;
  _ ← seek_or_poison (ri_seek_header io) LedgerOp_HeaderWrite;
  _ ← write_and_sync (ri_write_header io) (ri_sync_header io) 0 (ledger_header new_records committed_length);
  self ← st_get;
  _ ← st_modify (dl_commit pending new_records committed_length (dl_generation self) (dl_active_slot self));
  validate_append_target_of (ri_after io) committed_length.

Definition reserve_redundant_v2 (io : ReserveIo) (pending : gset Identity) (new_records : N) (encoded : str) : LM unit :=
  length ← st_gets dl_length;
  _ ← validate_append_target_of (ri_before io) length;
  _ ← seek_or_poison (ri_seek_records io) LedgerOp_Append;
  _ ← write_and_sync (ri_write_records io) (ri_sync_records io) (N.to_nat length) encoded;
  let committed_length := (LEDGER_V2_DATA_OFFSET + new_records * LEDGER_RECORD_BYTES)%N in
  _ ← validate_append_target_of (ri_middle io) committed_length;
  next_generation ← or_poison (λ self,
    ok_or (checked_add_u64 (dl_generation self) 1)
      (Ledger_Unavailable (lit "identity ledger header generation exhausted")));
  active_slot ← st_gets dl_active_slot;
  let next_slot := ((active_slot + 1) mod LEDGER_V2_HEADER_SLOTS)%N in
  _ ← seek_or_poison (ri_seek_header io) LedgerOp_HeaderWrite;
  _ ← write_and_sync (ri_write_header io) (ri_sync_header io) (N.to_nat (next_slot * LEDGER_V2_HEADER_BYTES))
        (ledger_header_v2 next_slot next_generation committed_length);
  _ ← st_modify (dl_commit pending new_records committed_length next_generation next_slot);
  validate_append_target_of (ri_after io) committed_length.

(** [reserve_batch] of the durable ledger. *)
Definition durable_reserve_batch (io : ReserveIo) (identities : list (IdentityKind * Identity)) : LM unit :=
  self ← st_get;
  if dl_poisoned self
  then st_fail (Ledger_Unavailable (lit "a previous append or sync failure left file state uncertain"))
  else
    pending ← st_query (λ self, check_pending (dl_issued self) ∅ identities);
    let current_records := dl_next_sequence self in
    let new_records := N.min (current_records + N.of_nat (length identities)) (u64_limit - 1) in
    if (MAX_LEDGER_RECORDS <? new_records)%N
    then st_fail (Ledger_CapacityExceeded new_records MAX_LEDGER_RECORDS)
    else
      let encoded := ledger_records current_records identities in
      if bool_decide (encoded = []) then mret tt
      else
        match dl_format self with
        | LegacyV1 => reserve_legacy io pending new_records encoded
        | RedundantV2 => reserve_redundant_v2 io pending new_records encoded
        end.

(** The durable ledger together with the answers its next reservations get. *)
#[export] Instance Durable_ledger : IdentityLedger (DurableIdentityLedger * list ReserveIo) :=
  λ identities '(self, script),
    let '(outcome, self) := durable_reserve_batch (default reserve_io_ok (head script)) identities self in
    (outcome, (self, tail script)).

(** ** Opening *)

(** What the operating system answers while a ledger is opened. *)
Record OpenIo := {
  oi_directory : option LedgerError;
  oi_lock : option LedgerError;
  oi_open : option LedgerError;
  oi_before : option LedgerError;
  oi_write : IoOutcome;
  oi_sync : IoOutcome;
  oi_read : option str;
  oi_set_len : option str;
  oi_sync_tail : option str;
  oi_settled : option LedgerError;
  oi_lock_after : option LedgerError;
  oi_directory_sync : option LedgerError;
  oi_after : option LedgerError
}.

Definition open_io_ok : OpenIo :=
  {| oi_directory := None; oi_lock := None; oi_open := None; oi_before := None; oi_write := None;
     oi_sync := None; oi_read := None; oi_set_len := None; oi_sync_tail := None; oi_settled := None;
     oi_lock_after := None; oi_directory_sync := None; oi_after := None |}.

(** Lifts the verdict of one check. *)
Definition checked (verdict : option LedgerError) : result LedgerError unit :=
  match verdict with Some error => Err error | None => Ok tt end.

(** Both slots of a new ledger. *)
Definition initial_ledger : str :=
  ledger_header_v2 0 0 LEDGER_V2_DATA_OFFSET ++ ledger_header_v2 1 0 LEDGER_V2_DATA_OFFSET.

(** The [created] branch of [open]; the second component is the file it leaves. *)
Definition open_created (io : OpenIo) (path : str) : result LedgerError DurableIdentityLedger * str :=
  match validate_open_ledger (oi_before io) path [] (Some 0%N) with
  | Err error => (Err error, [])
  | Ok _ =>
      match oi_write io, oi_sync io with
      | Some (n, message), _ => (Err (Ledger_WriteFailed path message), take n initial_ledger)
      | None, Some (n, message) => (Err (Ledger_SyncFailed path message), take n initial_ledger)
      | None, None =>
          ((_ ← validate_open_ledger (oi_settled io) path initial_ledger (Some LEDGER_V2_DATA_OFFSET);
            _ ← checked (oi_lock_after io);
            _ ← checked (oi_directory_sync io);
            _ ← validate_open_ledger (oi_after io) path initial_ledger (Some LEDGER_V2_DATA_OFFSET);
            Ok {| dl_path := path; dl_file := initial_ledger; dl_format := RedundantV2; dl_issued := ∅;
                  dl_next_sequence := 0; dl_length := LEDGER_V2_DATA_OFFSET; dl_generation := 0;
                  dl_active_slot := 0; dl_poisoned := false |}), initial_ledger)
      end
  end.

Definition is_v2 (bytes : str) : bool :=
  (LEDGER_V2_HEADER_BYTES <=? len bytes)%N
  && (bool_decide (take 8 bytes = LEDGER_V2_MAGIC)
      || ((LEDGER_V2_HEADER_BYTES * 2 <=? len bytes)%N
          && bool_decide (field 64 72 bytes = LEDGER_V2_MAGIC))).

(** [take(MAX_LEDGER_BYTES + 1).read_to_end]. *)
Definition read_ledger (file : str) : str :=
  if (len file <=? MAX_LEDGER_BYTES + 1)%N then file else take (N.to_nat (MAX_LEDGER_BYTES + 1)) file.

(** The parse of an existing ledger: the format, and the fields [open] takes from it. *)
Definition parse_existing (length : N) (bytes : str) : result LedgerError (LedgerFormat * ParsedV2Ledger) :=
  if is_v2 bytes then
    parsed ← parse_ledger_v2 bytes;
    Ok (RedundantV2, parsed)
  else
    '(issued, next_sequence) ← parse_ledger bytes;
    Ok (LegacyV1, {| pl_issued := issued; pl_next_sequence := next_sequence; pl_generation := 0;
                     pl_active_slot := 0; pl_committed_length := length; pl_recover_tail := false |}).

(** The truncation of a staged tail. *)
Definition recover_file (io : OpenIo) (path : str) (parsed : ParsedV2Ledger) (file : str)
    : result LedgerError unit * str :=
  if pl_recover_tail parsed then
    match oi_set_len io with
    | Some message => (Err (Ledger_Io LedgerOp_Append path message), file)
    | None =>
        let file := take (N.to_nat (pl_committed_length parsed)) file in
        (match oi_sync_tail io with
         | Some message => Err (Ledger_Io LedgerOp_Sync path message)
         | None => Ok tt
         end, file)
    end
  else (Ok tt, file).

(** The other branch of [open]. *)
Definition open_existing (io : OpenIo) (path file : str) : result LedgerError DurableIdentityLedger * str :=
  let parsed :=
    length ← validate_open_ledger (oi_before io) path file None;
    bytes ← match oi_read io with
            | Some message => Err (Ledger_Io LedgerOp_Read path message)
            | None => Ok (read_ledger file)
            end;
    if negb (len bytes =? length)%N then Err (Ledger_LengthChanged path length (len bytes))
    else parse_existing length bytes in
  match parsed with
  | Err error => (Err error, file)
  | Ok (format, parsed) =>
      let '(recovered, file) := recover_file io path parsed file in
      ((_ ← recovered;
        _ ← validate_open_ledger (oi_settled io) path file (Some (pl_committed_length parsed));
        _ ← checked (oi_lock_after io);
        Ok {| dl_path := path; dl_file := file; dl_format := format; dl_issued := pl_issued parsed;
              dl_next_sequence := pl_next_sequence parsed; dl_length := pl_committed_length parsed;
              dl_generation := pl_generation parsed; dl_active_slot := pl_active_slot parsed;
              dl_poisoned := false |}), file)
  end.

(** [DurableIdentityLedger::open]: [disk] is the file at [path], if there is one. *)
Definition ledger_open (io : OpenIo) (path : str) (disk : option str)
    : result LedgerError DurableIdentityLedger * option str :=
  match (_ ← checked (oi_directory io); _ ← checked (oi_lock io); checked (oi_open io)) with
  | Err error => (Err error, disk)
  | Ok _ =>
      let '(outcome, file) :=
        match disk with None => open_created io path | Some file => open_existing io path file end in
      (outcome, Some file)
  end.

Definition committed_count (self : DurableIdentityLedger) : nat := size (dl_issued self).

Definition ledger_contains (self : DurableIdentityLedger) (identity : Identity) : bool :=
  bool_decide (identity ∈ dl_issued self).
