(* ===== verification/IdentityLedgerProps.v ===== *)
(** * Correctness of the identity ledger

    The CRC-32 detects every change of one byte and of four adjacent bytes, the two formats are
    read back as they were written, a header that passes its checks is one that the ledger
    encodes, a commit header torn over an intact one reads as the old one, as the new one or not
    at all, and the durable ledger keeps every acknowledged identity through
    failed reservations and reopenings: [ledger_history] is the step relation of a ledger
    whose writes and synchronisations may fail at any byte. *)

From Stdlib Require Import Strings.Byte.
From S2P Require Import Prelude Bytes IdentityLedger.

Open Scope N_scope.

(** ** CRC-32 *)

Lemma lxor_lt a b n : a < 2 ^ n → b < 2 ^ n → N.lxor a b < 2 ^ n.
Proof.
  intros Ha Hb. destruct (N.eq_dec (N.lxor a b) 0) as [->|Hne]; [lia|].
  apply N.log2_lt_pow2; [lia|]. pose proof (N.log2_lxor a b).
  destruct (N.eq_dec a 0) as [->|]; destruct (N.eq_dec b 0) as [->|].
  - done.
  - rewrite N.lxor_0_l in *. apply N.log2_lt_pow2; lia.
  - rewrite N.lxor_0_r in *. apply N.log2_lt_pow2; lia.
  - apply N.log2_lt_pow2 in Ha, Hb; lia.
Qed.

Lemma crc_round_eq v :
  crc_round v = if N.odd v then N.lxor (N.div2 v) 3988292384 else N.div2 v.
Proof.
  unfold crc_round. assert (N.land v 1 = v mod 2) as -> by apply (N.land_ones v 1).
  change (N.shiftr v 1) with (N.div2 v).
  rewrite <- N.bit0_mod, N.bit0_odd. destruct (N.odd v); cbn [N.b2n]; [done|].
  change ((2 ^ 32 - 0) mod 2 ^ 32) with 0. by rewrite N.land_0_r, N.lxor_0_r.
Qed.

Lemma div2_lt v : v < 2 ^ 32 → N.div2 v < 2 ^ 31.
Proof. rewrite N.div2_div. intros. apply N.Div0.div_lt_upper_bound. lia. Qed.

Lemma crc_round_lt v : v < 2 ^ 32 → crc_round v < 2 ^ 32.
Proof.
  intros Hv%div2_lt. rewrite crc_round_eq. destruct (N.odd v); [apply lxor_lt|]; lia.
Qed.

Lemma testbit_small v n : v < 2 ^ n → N.testbit v n = false.
Proof.
  intros Hv. destruct (N.eq_dec v 0) as [->|]; [apply N.bits_0|].
  apply N.bits_above_log2. apply N.log2_lt_pow2; lia.
Qed.

(** The polynomial's top bit tells which branch was taken. *)
Lemma crc_round_top v : v < 2 ^ 32 → N.testbit (crc_round v) 31 = N.odd v.
Proof.
  intros Hv%div2_lt. rewrite crc_round_eq. destruct (N.odd v).
  - rewrite N.lxor_spec, (testbit_small _ 31) by done. reflexivity.
  - by apply testbit_small.
Qed.

Lemma crc_round_inj v w : v < 2 ^ 32 → w < 2 ^ 32 → crc_round v = crc_round w → v = w.
Proof.
  intros Hv Hw Heq. assert (Hodd : N.odd v = N.odd w).
  { by rewrite <- (crc_round_top v), <- (crc_round_top w), Heq. }
  rewrite !crc_round_eq, <- Hodd in Heq.
  assert (Hd : N.div2 v = N.div2 w).
  { destruct (N.odd v); [|done]. apply (f_equal (λ x, N.lxor x 3988292384)) in Heq.
    by rewrite !N.lxor_assoc, N.lxor_nilpotent, !N.lxor_0_r in Heq. }
  rewrite (N.div2_odd v), (N.div2_odd w). by rewrite Hd, Hodd.
Qed.

Lemma crc_iter n v w : v < 2 ^ 32 → w < 2 ^ 32 →
  Nat.iter n crc_round v < 2 ^ 32 ∧ (Nat.iter n crc_round v = Nat.iter n crc_round w → v = w).
Proof.
  intros Hv Hw. enough (∀ u, u < 2 ^ 32 → Nat.iter n crc_round u < 2 ^ 32) as Hlt.
  { split; [by apply Hlt|]. revert v w Hv Hw Hlt. induction n as [|n IH]; intros v w Hv Hw Hlt; [done|].
    rewrite !Nat.iter_succ_r. intros Heq. apply crc_round_inj; [done|done|].
    apply IH; [by apply crc_round_lt..| |done].
    intros u Hu. clear -Hu. induction n as [|n IH]; [done|]. rewrite Nat.iter_succ. by apply crc_round_lt. }
  intros u Hu. induction n as [|m IH]; [done|]. rewrite Nat.iter_succ. by apply crc_round_lt.
Qed.

Lemma b2N_lt_u32 b : b2N b < 2 ^ 32.
Proof. pose proof (b2N_lt b). lia. Qed.

Lemma lxor_cancel_l a b c : N.lxor a b = N.lxor a c → b = c.
Proof.
  intros H. apply (f_equal (N.lxor a)) in H. by rewrite <- !N.lxor_assoc, N.lxor_nilpotent, !N.lxor_0_l in H.
Qed.

Lemma crc_byte_lt v b : v < 2 ^ 32 → crc_byte v b < 2 ^ 32.
Proof. intros. by apply (crc_iter 8 _ 0); [apply lxor_lt; [|apply b2N_lt_u32]|]. Qed.

Lemma crc_byte_inj v w b c :
  v < 2 ^ 32 → w < 2 ^ 32 → crc_byte v b = crc_byte w c → N.lxor v (b2N b) = N.lxor w (b2N c).
Proof. intros ??. apply crc_iter; apply lxor_lt; auto using b2N_lt_u32. Qed.

Lemma crc_fold_lt s v : v < 2 ^ 32 → foldl crc_byte v s < 2 ^ 32.
Proof. revert v. induction s as [|b s IH]; intros v Hv; [done|]. by apply IH, crc_byte_lt. Qed.

Lemma crc_fold_inj s v w :
  v < 2 ^ 32 → w < 2 ^ 32 → foldl crc_byte v s = foldl crc_byte w s → v = w.
Proof.
  revert v w. induction s as [|b s IH]; intros v w Hv Hw; [done|]. cbn [foldl]. intros Heq.
  apply IH in Heq; [|by apply crc_byte_lt..]. apply crc_byte_inj in Heq; [|done..].
  rewrite (N.lxor_comm v), (N.lxor_comm w) in Heq. by apply lxor_cancel_l in Heq.
Qed.

Lemma ledger_checksum_lt s : ledger_checksum s < 2 ^ 32.
Proof. apply lxor_lt; [by apply crc_fold_lt|done]. Qed.

(** A change of one byte changes the checksum. *)
Lemma checksum_detects p b c q :
  ledger_checksum (p ++ b :: q) = ledger_checksum (p ++ c :: q) → b = c.
Proof.
  unfold ledger_checksum. rewrite (N.lxor_comm (foldl _ _ (p ++ b :: q))), (N.lxor_comm (foldl _ _ (p ++ c :: q))).
  intros H%lxor_cancel_l. rewrite !foldl_app in H. cbn [foldl] in H.
  assert (Hp : foldl crc_byte u32_max p < 2 ^ 32) by by apply crc_fold_lt.
  apply crc_fold_inj in H; [|by apply crc_byte_lt..]. apply crc_byte_inj in H; [|done..].
  by apply lxor_cancel_l, b2N_inj in H.
Qed.

(** The checksum is linear, so four bytes act on it as one word. *)
Lemma crc_round_lxor a b : crc_round (N.lxor a b) = N.lxor (crc_round a) (crc_round b).
Proof.
  rewrite !crc_round_eq, !N.div2_spec, N.shiftr_lxor. rewrite <- !N.bit0_odd, N.lxor_spec.
  set (x := N.shiftr a 1). set (y := N.shiftr b 1).
  destruct (N.testbit a 0), (N.testbit b 0); cbn [xorb].
  - rewrite (N.lxor_comm y), <- N.lxor_assoc, (N.lxor_assoc x), N.lxor_nilpotent, N.lxor_0_r. done.
  - rewrite !N.lxor_assoc. f_equal. apply N.lxor_comm.
  - by rewrite N.lxor_assoc.
  - done.
Qed.

Lemma crc_iter_lxor n a b :
  Nat.iter n crc_round (N.lxor a b) = N.lxor (Nat.iter n crc_round a) (Nat.iter n crc_round b).
Proof. induction n as [|n IH]; [done|]. by rewrite !Nat.iter_succ, IH, crc_round_lxor. Qed.

Lemma crc_iter_shift n z : Nat.iter n crc_round (z * 2 ^ N.of_nat n) = z.
Proof.
  induction n as [|n IH]; [by rewrite N.mul_1_r|]. rewrite Nat.iter_succ_r, Nat2N.inj_succ, N.pow_succ_r'.
  rewrite <- IH at 2. f_equal. rewrite crc_round_eq.
  replace (z * (2 * 2 ^ N.of_nat n)) with (2 * (z * 2 ^ N.of_nat n)) by lia.
  by rewrite N.odd_mul, N.odd_2, N.div2_double.
Qed.

Lemma from_le_bytes_cons b (s : str) : from_le_bytes (b :: s) = N.lxor (b2N b) (from_le_bytes s * 2 ^ 8).
Proof.
  unfold from_le_bytes. rewrite reverse_cons, from_be_bytes_snoc. rewrite <- N.add_nocarry_lxor; [lia|].
  apply N.bits_inj_0. intros i. rewrite N.land_spec. destruct (N.lt_ge_cases i 8) as [Hi|Hi].
  - by rewrite N.mul_pow2_bits_low, andb_false_r.
  - pose proof (b2N_lt b) as Hb. rewrite (testbit_small (b2N b)); [done|].
    apply N.lt_le_trans with (2 ^ 8); [done|]. by apply N.pow_le_mono_r.
Qed.

Lemma crc_fold_iter (s : str) v :
  foldl crc_byte v s = Nat.iter (8 * length s) crc_round (N.lxor v (from_le_bytes s)).
Proof.
  revert v. induction s as [|b s IH]; intros v.
  - cbn [foldl length]. change (from_le_bytes []) with 0. by rewrite N.lxor_0_r.
  - cbn [foldl length]. rewrite IH, from_le_bytes_cons, <- N.lxor_assoc.
    replace (8 * S (length s))%nat with (8 * length s + 8)%nat by lia. rewrite Nat.iter_add. f_equal.
    rewrite (crc_iter_lxor 8). f_equal. symmetry. apply (crc_iter_shift 8).
Qed.

(** A change of four adjacent bytes changes the checksum. *)
Lemma checksum_detects_word p (x y : str) q : length x = 4%nat → length y = 4%nat →
  ledger_checksum (p ++ x ++ q) = ledger_checksum (p ++ y ++ q) → from_le_bytes x = from_le_bytes y.
Proof.
  intros Hx Hy. unfold ledger_checksum.
  rewrite (N.lxor_comm (foldl _ _ (p ++ x ++ q))), (N.lxor_comm (foldl _ _ (p ++ y ++ q))).
  intros H%lxor_cancel_l. rewrite !foldl_app in H.
  set (v := foldl crc_byte u32_max p) in H. assert (Hv : v < 2 ^ 32) by by apply crc_fold_lt.
  apply crc_fold_inj in H; [|by apply crc_fold_lt..]. rewrite !crc_fold_iter, Hx, Hy in H.
  pose proof (from_le_bytes_lt x) as Hlx. pose proof (from_le_bytes_lt y) as Hly. rewrite Hx in Hlx. rewrite Hy in Hly.
  apply crc_iter in H; [by apply lxor_cancel_l in H|by apply lxor_lt..].
Qed.

(** ** Reading back what was written *)

Lemma field_at start finish (p x q : str) :
  length p = start → (start + length x = finish)%nat → field start finish (p ++ x ++ q) = x.
Proof.
  intros <- <-. unfold field. rewrite drop_app_length. apply take_app_length'. lia.
Qed.

Lemma field_tail start finish (p x : str) :
  length p = start → (start + length x = finish)%nat → field start finish (p ++ x) = x.
Proof. intros. rewrite <- (app_nil_r x) at 1. by apply field_at. Qed.

Lemma le_field_at start finish (p q : str) w n :
  length p = start → (start + w = finish)%nat → n < 256 ^ N.of_nat w →
  le_field start finish (p ++ le_bytes w n ++ q) = n.
Proof.
  intros Hp Hf Hn. unfold le_field. rewrite field_at; [by apply from_to_le_bytes|done|].
  by rewrite length_le_bytes.
Qed.

Lemma le_field_tail start finish (p : str) w n :
  length p = start → (start + w = finish)%nat → n < 256 ^ N.of_nat w →
  le_field start finish (p ++ le_bytes w n) = n.
Proof. intros. rewrite <- (app_nil_r (le_bytes w n)). by apply le_field_at. Qed.

Lemma byte_at_app (p q : str) b i : length p = i → byte_at i (p ++ b :: q) = b2N b.
Proof. intros <-. unfold byte_at. by rewrite list_lookup_middle. Qed.

Lemma kind_from_tag_tag kind : kind_from_tag (b2N (N2b (kind_tag kind))) = Some kind.
Proof. by destruct kind. Qed.

Lemma identity_wf_length identity : identity_wf identity = true → length identity = 16%nat.
Proof. unfold identity_wf, len, ID_BYTES. rewrite N.eqb_eq. lia. Qed.

Lemma length_record_body kind identity sequence :
  identity_wf identity = true → length (ledger_record_body kind identity sequence) = 28%nat.
Proof.
  intros H%identity_wf_length. unfold ledger_record_body. rewrite !length_app, length_le_bytes, H. done.
Qed.

Lemma length_ledger_record kind identity sequence :
  identity_wf identity = true → length (ledger_record kind identity sequence) = 32%nat.
Proof.
  intros. unfold ledger_record. by rewrite length_app, length_le_bytes, length_record_body.
Qed.

(** The layout of a record. *)
Lemma record_fields kind identity sequence (r := ledger_record kind identity sequence) :
  identity_wf identity = true → sequence < 2 ^ 64 →
  byte_at 0 r = LEDGER_VERSION ∧ kind_from_tag (byte_at 1 r) = Some kind ∧ field 2 4 r = [x00; x00] ∧
  le_field 4 12 r = sequence ∧ field 12 28 r = identity ∧
  take 28 r = ledger_record_body kind identity sequence ∧
  le_field 28 32 r = ledger_checksum (ledger_record_body kind identity sequence).
Proof.
  intros Hid Hseq. pose proof (identity_wf_length _ Hid) as Hlen.
  pose proof (length_record_body kind identity sequence Hid) as Hbody.
  assert (Hr : r = [N2b LEDGER_VERSION; N2b (kind_tag kind); x00; x00] ++ le_bytes 8 sequence ++ identity
    ++ le_bytes 4 (ledger_checksum (ledger_record_body kind identity sequence))).
  { unfold r, ledger_record, ledger_record_body at 1. by rewrite <- !(assoc_L (++)). }
  split_and!.
  - by rewrite Hr.
  - rewrite Hr. apply kind_from_tag_tag.
  - by rewrite Hr.
  - rewrite Hr. by apply le_field_at.
  - rewrite Hr, (assoc_L (++) _ (le_bytes 8 sequence)). apply field_at; [|lia].
    by rewrite length_app, length_le_bytes.
  - unfold r, ledger_record. by apply take_app_length'.
  - unfold r, ledger_record. apply le_field_tail; [done|done|apply ledger_checksum_lt].
Qed.

Lemma parse_ledger_record kind identity sequence offset :
  identity_wf identity = true → sequence < 2 ^ 64 →
  parse_record (ledger_record kind identity sequence) sequence offset = Ok (kind, identity).
Proof.
  intros Hid Hseq. destruct (record_fields kind identity sequence Hid Hseq) as (H0 & H1 & H2 & H3 & H4 & H5 & H6).
  unfold parse_record, len. rewrite length_ledger_record, H0, H1, H2, H3, H4, H5, H6 by done.
  by rewrite !N.eqb_refl, bool_decide_refl.
Qed.

Lemma length_header_v2_body slot generation data_length :
  length (ledger_header_v2_body slot generation data_length) = 60%nat.
Proof. unfold ledger_header_v2_body. rewrite !length_app, !length_le_bytes. done. Qed.

Lemma length_ledger_header_v2 slot generation data_length :
  length (ledger_header_v2 slot generation data_length) = 64%nat.
Proof. unfold ledger_header_v2. by rewrite length_app, length_header_v2_body, length_le_bytes. Qed.

Lemma take_ledger_header_v2 slot generation data_length :
  take 60 (ledger_header_v2 slot generation data_length) = ledger_header_v2_body slot generation data_length.
Proof. unfold ledger_header_v2. apply take_app_length'. by rewrite length_header_v2_body. Qed.

(** The data length that commits [count] records. *)
Definition committed_bytes (count : N) : N := LEDGER_V2_DATA_OFFSET + count * LEDGER_RECORD_BYTES.

Definition header_of (slot generation count : N) : ParsedV2Header :=
  {| ph_slot := slot; ph_generation := generation; ph_record_count := count;
     ph_data_length := committed_bytes count |}.

Lemma committed_bytes_count count :
  (committed_bytes count - LEDGER_V2_DATA_OFFSET) / LEDGER_RECORD_BYTES = count.
Proof.
  unfold committed_bytes, LEDGER_RECORD_BYTES.
  replace (LEDGER_V2_DATA_OFFSET + count * 32 - LEDGER_V2_DATA_OFFSET) with (count * 32) by lia.
  by apply N.div_mul.
Qed.

Lemma committed_bytes_bound count : count <= MAX_LEDGER_RECORDS → committed_bytes count <= 33554560.
Proof.
  unfold committed_bytes, MAX_LEDGER_RECORDS. change LEDGER_V2_DATA_OFFSET with 128.
  change LEDGER_RECORD_BYTES with 32. lia.
Qed.

(** The layout of a header. *)
Lemma header_v2_fields slot generation count (h := ledger_header_v2 slot generation (committed_bytes count)) :
  slot < 2 → generation < 2 ^ 64 → count <= MAX_LEDGER_RECORDS →
  take 8 h = LEDGER_V2_MAGIC ∧ byte_at 8 h = LEDGER_V2_VERSION ∧ byte_at 9 h = LEDGER_V2_HEADER_BYTES ∧
  field 10 12 h = [x00; x00] ∧ le_field 12 20 h = generation ∧ le_field 20 28 h = count ∧
  le_field 28 36 h = committed_bytes count ∧ byte_at 36 h = slot ∧ field 37 60 h = zeros 23 ∧
  ledger_checksum (take 60 h) = le_field 60 64 h.
Proof.
  intros Hslot Hgen Hcount. pose proof (committed_bytes_bound count Hcount) as Hbound.
  unfold MAX_LEDGER_RECORDS in Hcount.
  set (crc := le_bytes 4 (ledger_checksum (ledger_header_v2_body slot generation (committed_bytes count)))).
  set (pre := LEDGER_V2_MAGIC ++ [N2b LEDGER_V2_VERSION; N2b LEDGER_V2_HEADER_BYTES; x00; x00]).
  assert (Hh : h = pre ++ le_bytes 8 generation ++ le_bytes 8 count ++ le_bytes 8 (committed_bytes count)
                   ++ [N2b slot] ++ zeros 23 ++ crc).
  { unfold h, ledger_header_v2, ledger_header_v2_body at 1, pre. rewrite committed_bytes_count.
    by rewrite <- !(assoc_L (++)). }
  split_and!.
  - by rewrite Hh.
  - by rewrite Hh.
  - by rewrite Hh.
  - by rewrite Hh.
  - rewrite Hh. by apply le_field_at.
  - rewrite Hh, (assoc_L (++)). apply le_field_at; [|done|lia]. by rewrite length_app, length_le_bytes.
  - rewrite Hh. do 2 rewrite (assoc_L (++)). apply le_field_at; [|done|lia].
    by rewrite !length_app, !length_le_bytes.
  - rewrite Hh. do 3 rewrite (assoc_L (++)). cbn [app].
    rewrite byte_at_app by by rewrite !length_app, !length_le_bytes.
    rewrite b2N_N2b. apply N.mod_small. lia.
  - rewrite Hh. do 4 rewrite (assoc_L (++)). apply field_at; [|done].
    by rewrite !length_app, !length_le_bytes.
  - pose proof (length_header_v2_body slot generation (committed_bytes count)) as Hbody.
    unfold h, ledger_header_v2. rewrite (take_app_length' _ _ 60) by done.
    rewrite le_field_tail; [done|done|done|apply ledger_checksum_lt].
Qed.

Lemma parse_ledger_header_v2 slot generation count :
  slot < 2 → generation < 2 ^ 64 → count <= MAX_LEDGER_RECORDS →
  parse_v2_header_bytes (ledger_header_v2 slot generation (committed_bytes count)) slot
  = Ok (header_of slot generation count).
Proof.
  intros Hslot Hgen Hcount.
  destruct (header_v2_fields slot generation count Hslot Hgen Hcount)
    as (H1 & H2 & H3 & H4 & H5 & H6 & H7 & H8 & H9 & H10).
  unfold parse_v2_header_bytes. rewrite H1, H2, H3, H4, H5, H6, H7, H8, H9, H10, !N.eqb_refl, !bool_decide_refl.
  change (existsb _ (zeros 23)) with false. cbn [negb orb].
  replace (MAX_LEDGER_RECORDS <? count) with false by (symmetry; by apply N.ltb_ge).
  assert (checked_add_u64 LEDGER_V2_DATA_OFFSET (saturating_mul_u64 count LEDGER_RECORD_BYTES)
          = Some (committed_bytes count)) as ->.
  { apply checked_add_u64_Some. pose proof (committed_bytes_bound count Hcount).
    unfold saturating_mul_u64, committed_bytes, MAX_LEDGER_RECORDS, u64_limit, LEDGER_RECORD_BYTES in *.
    rewrite N.min_l by lia. split; [done|lia]. }
  by rewrite N.eqb_refl.
Qed.

(** ** Whole headers *)

Lemma field_take start finish k (s : str) :
  (start <= finish)%nat → (finish <= k)%nat → field start finish (take k s) = field start finish s.
Proof.
  intros. unfold field. rewrite !take_drop_commute, take_take.
  by replace ((start + (finish - start)) `min` k)%nat with (start + (finish - start))%nat by lia.
Qed.

Lemma from_le_bytes_inj (s t : str) : length s = length t → from_le_bytes s = from_le_bytes t → s = t.
Proof.
  intros Hlen H. apply (inj reverse). rewrite <- (to_from_be_bytes (reverse s)), <- (to_from_be_bytes (reverse t)).
  rewrite !length_reverse, Hlen. unfold from_le_bytes in H. by rewrite H.
Qed.

Lemma field_split start mid finish (s : str) : (start <= mid <= finish)%nat →
  field start finish s = field start mid s ++ field mid finish s.
Proof.
  intros Hm. unfold field. replace (finish - start)%nat with ((mid - start) + (finish - mid))%nat by lia.
  rewrite <- take_take_drop, drop_drop. by replace (start + (mid - start))%nat with mid by lia.
Qed.

Lemma field_all (s : str) n : length s = n → field 0 n s = s.
Proof. intros <-. unfold field. rewrite drop_0. apply take_ge. lia. Qed.

Lemma field_byte i (s : str) : (i < length s)%nat → field i (S i) s = [N2b (byte_at i s)].
Proof.
  intros Hi. destruct (lookup_lt_is_Some_2 s i Hi) as [b Hb]. unfold field, byte_at. rewrite Hb.
  replace (S i - i)%nat with 1%nat by lia. rewrite (drop_S _ _ _ Hb). cbn.
  by rewrite N2b_b2N.
Qed.

Lemma field_le start finish (s : str) : (finish <= length s)%nat →
  field start finish s = le_bytes (finish - start) (le_field start finish s).
Proof.
  intros Hf. unfold le_field, from_le_bytes, le_bytes.
  replace (finish - start)%nat with (length (reverse (field start finish s))) at 1.
  - by rewrite to_from_be_bytes, reverse_involutive.
  - rewrite length_reverse. unfold field. rewrite length_take, length_drop. lia.
Qed.

Lemma zeros_of (s : str) : existsb (λ b, negb (b2N b =? 0)) s = false → s = zeros (length s).
Proof.
  induction s as [|b s IH]; [done|]. cbn [existsb length]. intros [Hb Hs]%orb_false_iff.
  unfold zeros. cbn [replicate]. f_equal; [|by apply IH]. apply negb_false_iff, N.eqb_eq in Hb. by apply b2N_inj.
Qed.

(** Every header that passes the checks is, byte for byte, one that the ledger encodes. *)
Lemma parse_v2_header_whole header slot h : length header = 64%nat →
  parse_v2_header_bytes header slot = Ok h →
  header = ledger_header_v2 slot (ph_generation h) (committed_bytes (ph_record_count h)) ∧
  h = header_of slot (ph_generation h) (ph_record_count h) ∧ ph_record_count h <= MAX_LEDGER_RECORDS ∧
  ph_generation h < 2 ^ 64.
Proof.
  intros Hlen. unfold parse_v2_header_bytes.
  destruct (bool_decide_reflect (take 8 header = LEDGER_V2_MAGIC)) as [H1|]; [|done]. cbn [negb].
  destruct (N.eqb_spec (byte_at 8 header) LEDGER_V2_VERSION) as [H2|]; [|done]. cbn [negb].
  destruct (N.eqb_spec (byte_at 9 header) LEDGER_V2_HEADER_BYTES) as [H3|]; [|done]. cbn [negb orb].
  destruct (bool_decide_reflect (field 10 12 header = [x00; x00])) as [H4|]; [|done]. cbn [negb].
  destruct (existsb _ _) eqn:H5; [done|]. apply zeros_of in H5.
  destruct (N.eqb_spec (byte_at 36 header) slot) as [H6|]; [|done]. cbn [negb].
  destruct (N.eqb_spec (ledger_checksum (take 60 header)) (le_field 60 64 header)) as [H7|]; [|done]. cbn [negb].
  destruct (N.ltb_spec MAX_LEDGER_RECORDS (le_field 20 28 header)) as [|Hc]; [done|].
  destruct (checked_add_u64 _ _) as [e|] eqn:He; [|done]. apply checked_add_u64_Some in He as [-> _].
  destruct (N.eqb_spec (le_field 28 36 header) (LEDGER_V2_DATA_OFFSET + saturating_mul_u64 (le_field 20 28 header) LEDGER_RECORD_BYTES))
    as [H8|]; [|done]. cbn [negb]. intros [= <-]. cbn [ph_generation ph_record_count].
  assert (Hd : le_field 28 36 header = committed_bytes (le_field 20 28 header)).
  { rewrite H8. unfold saturating_mul_u64, committed_bytes. rewrite N.min_l; [done|].
    unfold MAX_LEDGER_RECORDS, LEDGER_RECORD_BYTES, u64_limit in *. lia. }
  assert (Hg : le_field 12 20 header < 2 ^ 64).
  { pose proof (from_le_bytes_lt (field 12 20 header)) as Hg.
    by replace (length (field 12 20 header)) with 8%nat in Hg by (unfold field; rewrite length_take, length_drop; lia). }
  split; [|unfold header_of; by rewrite <- Hd].
  assert (Hbody : take 60 header
    = ledger_header_v2_body slot (le_field 12 20 header) (committed_bytes (le_field 20 28 header))).
  { unfold ledger_header_v2_body. rewrite committed_bytes_count.
    change (take 60 header) with (field 0 60 header).
    rewrite (field_split 0 8 60), (field_split 8 9 60), (field_split 9 10 60), (field_split 10 12 60),
      (field_split 12 20 60), (field_split 20 28 60), (field_split 28 36 60), (field_split 36 37 60) by lia.
    change (field 0 8 header) with (take 8 header).
    rewrite (field_byte 8), (field_byte 9), (field_byte 36), (field_le 12 20), (field_le 20 28), (field_le 28 36) by lia.
    rewrite H1, H2, H3, H4, H6, Hd, H5. cbn [app Nat.sub].
    by replace (length (field 37 60 header)) with 23%nat by (unfold field; rewrite length_take, length_drop; lia). }
  rewrite <- (field_all header 64 Hlen) at 1. rewrite (field_split 0 60 64) by lia.
  change (field 0 60 header) with (take 60 header). rewrite (field_le 60 64), <- H7, Hbody by lia. done.
Qed.

(** [bytes] are a header as the ledger encodes it for [slot]. *)
Definition whole_header (slot : N) (bytes : str) : bool :=
  bool_decide (bytes = ledger_header_v2 slot (le_field 12 20 bytes) (committed_bytes (le_field 20 28 bytes)))
  && (le_field 20 28 bytes <=? MAX_LEDGER_RECORDS).

Lemma parse_whole header slot h : length header = 64%nat → slot < 2 →
  parse_v2_header_bytes header slot = Ok h → whole_header slot header = true.
Proof.
  intros Hlen Hslot (Hw & _ & Hc & Hg)%parse_v2_header_whole; [|done].
  destruct (header_v2_fields slot _ _ Hslot Hg Hc) as (_ & _ & _ & _ & H12 & H20 & _).
  unfold whole_header. rewrite Hw, H12, H20, bool_decide_eq_true_2 by done. by apply N.leb_le.
Qed.

Lemma whole_parse header slot : length header = 64%nat → slot < 2 → whole_header slot header = true →
  parse_v2_header_bytes header slot = Ok (header_of slot (le_field 12 20 header) (le_field 20 28 header)).
Proof.
  intros Hlen Hslot [Hw Hc]%andb_true_iff. apply bool_decide_eq_true in Hw. apply N.leb_le in Hc.
  set (G := le_field 12 20 header) in *. set (C := le_field 20 28 header) in *.
  assert (HG : G < 2 ^ 64).
  { pose proof (from_le_bytes_lt (field 12 20 header)) as Hg.
    by replace (length (field 12 20 header)) with 8%nat in Hg by (unfold field; rewrite length_take, length_drop; lia). }
  clearbody G C. rewrite Hw. by apply parse_ledger_header_v2.
Qed.

(** ** Torn headers *)

Lemma from_le_bytes_zeros (s : str) k : from_le_bytes (s ++ zeros k) = from_le_bytes s.
Proof.
  unfold from_le_bytes. rewrite reverse_app. unfold zeros. rewrite reverse_replicate.
  unfold from_be_bytes. rewrite foldl_app. f_equal. induction k as [|k IH]; [done|]. exact IH.
Qed.

(** A header of which the first [n] bytes were replaced by those of another. *)
Definition torn_header (n : nat) (new old : str) : str := take n new ++ drop n old.

Section torn.
  Context (n : nat) (new old : str) (Hnew : length new = 64%nat) (Hold : length old = 64%nat) (Hn : (n <= 64)%nat).

Lemma length_torn_header : length (torn_header n new old) = 64%nat.
Proof using Hnew Hold Hn. unfold torn_header. rewrite length_app, length_take, length_drop. lia. Qed.

Lemma field_torn_new a b : (a <= b <= n)%nat → field a b (torn_header n new old) = field a b new.
Proof using Hnew Hold Hn.
  intros Hb. rewrite <- (field_take a b n) by lia. unfold torn_header.
  rewrite take_app_length' by (rewrite length_take; lia). apply field_take; lia.
Qed.

Lemma field_torn_old a b : (n <= a)%nat → field a b (torn_header n new old) = field a b old.
Proof using Hnew Hold Hn.
  intros Ha. unfold field, torn_header. rewrite drop_app_ge by (rewrite length_take; lia).
  rewrite length_take, drop_drop. by replace (n + (a - n `min` length new))%nat with a by lia.
Qed.

Lemma field_torn_same a b : (a <= b <= 64)%nat → field a b new = field a b old →
  field a b (torn_header n new old) = field a b old.
Proof using Hnew Hold Hn.
  intros Hab Heq. destruct (decide (n <= a)%nat); [by apply field_torn_old|].
  destruct (decide (b <= n)%nat); [by rewrite field_torn_new by lia|].
  rewrite (field_split a n b), field_torn_new, field_torn_old, (field_split a n b old) by lia.
  rewrite (field_split a n b new), (field_split a n b old) in Heq by lia.
  apply app_inj_1 in Heq as [-> _]; [done|]. unfold field. rewrite !length_take, !length_drop. lia.
Qed.

Lemma le_field_torn_new a b : (a <= b <= n)%nat → le_field a b (torn_header n new old) = le_field a b new.
Proof using Hnew Hold Hn. intros. unfold le_field. by rewrite field_torn_new. Qed.

Lemma le_field_torn_old a b : (n <= a)%nat → le_field a b (torn_header n new old) = le_field a b old.
Proof using Hnew Hold Hn. intros. unfold le_field. by rewrite field_torn_old. Qed.

Lemma le_field_torn_small : field 16 20 new = zeros 4 → field 16 20 old = zeros 4 →
  le_field 12 20 (torn_header n new old) < 2 ^ 32.
Proof using Hnew Hold Hn.
  intros Hzn Hzo. unfold le_field. rewrite (field_split 12 16 20) by lia.
  rewrite (field_torn_same 16 20), Hzo, from_le_bytes_zeros by (lia || by rewrite Hzn).
  pose proof (from_le_bytes_lt (field 12 16 (torn_header n new old))) as Hf.
  replace (length (field 12 16 (torn_header n new old))) with 4%nat in Hf; [done|].
  unfold field. rewrite length_take, length_drop, length_torn_header. done.
Qed.
End torn.

Lemma le_bytes_high g : g < 2 ^ 32 → le_bytes 8 g = le_bytes 4 g ++ zeros 4.
Proof.
  intros Hg. apply from_le_bytes_inj; [by rewrite length_app, !length_le_bytes|].
  rewrite from_le_bytes_zeros, !from_to_le_bytes; [done|done|]. change (256 ^ N.of_nat 8) with (2 ^ 64). lia.
Qed.

(** The checksum tells two generations of one commit apart. *)
Lemma checksum_generation slot a b data_length : a < 2 ^ 32 → b < 2 ^ 32 →
  ledger_checksum (ledger_header_v2_body slot a data_length) = ledger_checksum (ledger_header_v2_body slot b data_length) →
  a = b.
Proof.
  intros Ha Hb. unfold ledger_header_v2_body. rewrite (le_bytes_high a Ha), (le_bytes_high b Hb).
  set (q := le_bytes 8 _ ++ _). rewrite <- (assoc_L (++) (le_bytes 4 a)), <- (assoc_L (++) (le_bytes 4 b)).
  rewrite !(assoc_L (++) LEDGER_V2_MAGIC).
  intros H%checksum_detects_word; [|apply length_le_bytes..]. by rewrite !(from_to_le_bytes 4) in H.
Qed.

Lemma header_high_word slot generation count : slot < 2 → generation < 2 ^ 32 → count <= MAX_LEDGER_RECORDS →
  field 16 20 (ledger_header_v2 slot generation (committed_bytes count)) = zeros 4.
Proof.
  intros Hs Hg Hc. destruct (header_v2_fields slot generation count Hs ltac:(lia) Hc) as (_ & _ & _ & _ & HG & _).
  pose proof (length_ledger_header_v2 slot generation (committed_bytes count)) as Hl.
  pose proof (field_le 12 20 (ledger_header_v2 slot generation (committed_bytes count)) ltac:(lia)) as Hf.
  rewrite HG, (field_split 12 16 20) in Hf by lia. change (20 - 12)%nat with 8%nat in Hf.
  rewrite le_bytes_high in Hf by done. apply app_inj_1 in Hf as [_ Hf]; [done|].
  unfold field. rewrite length_take, length_drop, length_le_bytes. lia.
Qed.

(** A commit header that replaces an intact one and is torn at any byte reads as the old one,
    as the new one, or not at all: the checksum detects everything else. *)
Lemma torn_header_detected slot g1 c1 g2 c2 n h
    (old := ledger_header_v2 slot g1 (committed_bytes c1)) (new := ledger_header_v2 slot g2 (committed_bytes c2)) :
  slot < 2 → g1 < 2 ^ 32 → g2 < 2 ^ 32 → c1 <= MAX_LEDGER_RECORDS → c2 <= MAX_LEDGER_RECORDS → (n <= 64)%nat →
  parse_v2_header_bytes (torn_header n new old) slot = Ok h →
  torn_header n new old = old ∨ torn_header n new old = new.
Proof.
  intros Hslot Hg1 Hg2 Hc1 Hc2 Hn Hparse.
  assert (Hlo : length old = 64%nat) by apply length_ledger_header_v2.
  assert (Hln : length new = 64%nat) by apply length_ledger_header_v2.
  pose proof (length_torn_header n new old Hln Hlo Hn) as Hlt.
  destruct (parse_v2_header_whole _ _ _ Hlt Hparse) as (Hw & _ & Hc & Hg).
  set (G := ph_generation h) in *. set (C := ph_record_count h) in *. clearbody G C. clear Hparse h.
  destruct (header_v2_fields slot G C Hslot Hg Hc) as (_ & _ & _ & _ & HtG & HtC & HtL & _ & _ & HtS).
  destruct (header_v2_fields slot g1 c1 Hslot ltac:(lia) Hc1) as (_ & _ & _ & _ & HoG & _ & HoL & _ & _ & HoS).
  destruct (header_v2_fields slot g2 c2 Hslot ltac:(lia) Hc2) as (_ & _ & _ & _ & HnG & HnC & _).
  fold old in HoG, HoL, HoS. fold new in HnG, HnC. rewrite <- Hw in HtG, HtC, HtL, HtS.
  destruct (decide (28 <= n)%nat) as [Hbig|Hsmall].
  - right. rewrite (le_field_torn_new n new old Hln Hlo Hn), HnG in HtG by lia.
    rewrite (le_field_torn_new n new old Hln Hlo Hn), HnC in HtC by lia. rewrite Hw. unfold new. by rewrite <- HtG, <- HtC.
  - left. rewrite (le_field_torn_old n new old Hln Hlo Hn) in HtL, HtS by lia.
    assert (C = c1) as ->.
    { rewrite HoL in HtL. apply (f_equal (λ x, (x - LEDGER_V2_DATA_OFFSET) / LEDGER_RECORD_BYTES)) in HtL.
      by rewrite !committed_bytes_count in HtL. }
    rewrite <- HoS, Hw in HtS. unfold old in HtS. rewrite !take_ledger_header_v2 in HtS.
    assert (HG : G < 2 ^ 32).
    { rewrite <- HtG. apply (le_field_torn_small n new old Hln Hlo Hn); by apply header_high_word. }
    apply checksum_generation in HtS; [|done..]. rewrite Hw. unfold old. by rewrite HtS.
Qed.

(** ** Record sequences *)

Definition recs_wf (recs : list (IdentityKind * Identity)) : Prop := Forall (λ r, identity_wf r.2 = true) recs.

Definition count_of (recs : list (IdentityKind * Identity)) : N := N.of_nat (length recs).

Lemma count_of_app recs batch : count_of (recs ++ batch) = count_of recs + count_of batch.
Proof. unfold count_of. rewrite length_app. lia. Qed.

Lemma count_of_cons r recs : count_of (r :: recs) = count_of recs + 1.
Proof. unfold count_of. cbn [length]. lia. Qed.

Lemma ledger_records_app n recs batch :
  ledger_records n (recs ++ batch) = ledger_records n recs ++ ledger_records (n + count_of recs) batch.
Proof.
  revert n. induction recs as [|[kind identity] recs IH]; intros n; cbn [app ledger_records].
  - by rewrite N.add_0_r.
  - rewrite IH, count_of_cons, <- (assoc_L (++)). do 3 f_equal. lia.
Qed.

Lemma length_ledger_records n recs : recs_wf recs → length (ledger_records n recs) = (32 * length recs)%nat.
Proof.
  intros H. revert n. induction H as [|[kind identity] recs Hid _ IH]; intros n; [done|].
  cbn [ledger_records length]. rewrite length_app, length_ledger_record, IH by done. lia.
Qed.

Lemma take_record kind identity n (rest : str) :
  identity_wf identity = true → take 32 (ledger_record kind identity n ++ rest) = ledger_record kind identity n.
Proof. intros. apply take_app_length'. symmetry. by apply length_ledger_record. Qed.

Lemma drop_record kind identity n (rest : str) :
  identity_wf identity = true → drop 32 (ledger_record kind identity n ++ rest) = rest.
Proof. intros. apply drop_app_length'. symmetry. by apply length_ledger_record. Qed.

Lemma parse_ledger_records n recs offset issued :
  recs_wf recs → NoDup recs.*2 → (∀ i, i ∈ recs.*2 → i ∉ issued) → n + count_of recs <= 2 ^ 64 →
  parse_records (length recs) (ledger_records n recs) n offset issued = Ok (issued ∪ list_to_set recs.*2).
Proof.
  intros Hwf. revert n offset issued.
  induction Hwf as [|[kind identity] recs Hid Hwf IH]; intros n offset issued Hnd Hfresh Hn.
  - cbn. f_equal. set_solver.
  - rewrite count_of_cons in Hn. cbn [fmap list_fmap snd] in *. apply NoDup_cons in Hnd as [Hni Hnd].
    cbn [length ledger_records parse_records]. rewrite take_record, drop_record by done.
    rewrite parse_ledger_record by (done || lia). cbn [mbind result_bind].
    rewrite bool_decide_eq_false_2 by (apply Hfresh; left).
    rewrite IH; [f_equal; cbn [list_to_set]; set_solver|done| |lia].
    intros i Hi. apply not_elem_of_union. split; [|apply Hfresh; by right].
    intros ->%elem_of_singleton. done.
Qed.

(** ** Staged tails *)

Lemma byte_at_take i k (s : str) : (i < k)%nat → byte_at i (take k s) = byte_at i s.
Proof. intros. unfold byte_at. by rewrite lookup_take_lt. Qed.

Lemma validate_partial_record kind identity n k offset :
  identity_wf identity = true → n < 2 ^ 64 → (0 < k <= 32)%nat →
  validate_partial_record_prefix (take k (ledger_record kind identity n)) n offset = Ok tt.
Proof.
  intros Hid Hn Hk. destruct (record_fields kind identity n Hid Hn) as (H0 & H1 & H2 & H3 & _).
  unfold validate_partial_record_prefix. rewrite byte_at_take, H0 by lia. cbn [negb].
  assert (len (take k (ledger_record kind identity n)) = N.of_nat k) as ->.
  { unfold len. rewrite length_take, length_ledger_record by done. lia. }
  rewrite N.eqb_refl. cbn [negb].
  destruct (N.leb_spec 2 (N.of_nat k)); cbn [andb]; [rewrite byte_at_take, H1 by lia|];
    (destruct (N.leb_spec 4 (N.of_nat k)); cbn [andb]; [rewrite field_take, H2 by lia|]);
    (destruct (N.leb_spec 12 (N.of_nat k)); cbn [andb]; [unfold le_field in *; rewrite field_take, H3 by lia|]);
    rewrite ?N.eqb_refl, ?bool_decide_refl; done || lia.
Qed.

(** Every prefix of a batch is a tail that recovery accepts. *)
Lemma validate_staged_prefix n recs k offset (tail := take k (ledger_records n recs)) :
  recs_wf recs → n + count_of recs <= 2 ^ 64 → validate_staged_tail tail n offset = Ok tt.
Proof.
  unfold validate_staged_tail, tail. clear tail. intros Hwf. revert n k offset.
  induction Hwf as [|[kind identity] recs Hid Hwf IH]; intros n k offset Hn.
  - cbn [ledger_records]. by rewrite take_nil.
  - rewrite count_of_cons in Hn. cbn [ledger_records].
    pose proof (length_ledger_record kind identity n Hid) as Hlen.
    destruct (Nat.lt_ge_cases k 32) as [Hk|Hk].
    + rewrite take_app_le by lia.
      rewrite Nat.div_small by (rewrite length_take; lia). cbn [validate_staged_records].
      case_bool_decide as Ht; [done|]. apply validate_partial_record; [done|lia|].
      destruct k; [by rewrite take_0 in Ht|lia].
    + rewrite take_app_ge, Hlen by lia. rewrite length_app, Hlen.
      replace (32 + length (take (k - 32) (ledger_records (n + 1) recs)))%nat
        with (length (take (k - 32) (ledger_records (n + 1) recs)) + 1 * 32)%nat by lia.
      rewrite Nat.div_add by lia. rewrite Nat.add_1_r. cbn [validate_staged_records].
      rewrite take_record, drop_record by done.
      rewrite parse_ledger_record by (done || lia). cbn [mbind result_bind]. apply IH. lia.
Qed.

(** ** What is on disk *)

Definition pick {A} (slot : N) (a b : A) : A := if slot =? 0 then a else b.

Definition other_slot (slot : N) : N := (slot + 1) mod LEDGER_V2_HEADER_SLOTS.

(** The slot that is not selected: damaged, older, or the same commit. *)
Definition superseded (header : str) (slot generation count : N) : Prop :=
  match parse_v2_header_bytes header slot with
  | Ok h => ph_generation h < generation ∨ h = header_of slot generation count
  | Err _ => True
  end.

(** A tail that a failed reservation left. *)
Definition staged (count : N) (tail : str) : Prop :=
  ∃ batch k, tail = take k (ledger_records count batch) ∧ recs_wf batch ∧
    count + count_of batch <= MAX_LEDGER_RECORDS.

Record disk_ok (h0 h1 : str) (recs : list (IdentityKind * Identity)) (slot generation : N) (tail : str) : Prop := {
  do_slot : slot < 2;
  do_first : length h0 = 64%nat;
  do_second : length h1 = 64%nat;
  do_generation : generation < 2 ^ 64;
  do_initial : generation = 0 → recs = [];
  do_commits : generation <= count_of recs;
  do_recs : recs_wf recs;
  do_nodup : NoDup recs.*2;
  do_count : count_of recs <= MAX_LEDGER_RECORDS;
  do_active : parse_v2_header_bytes (pick slot h0 h1) slot = Ok (header_of slot generation (count_of recs));
  do_other : superseded (pick (other_slot slot) h0 h1) (other_slot slot) generation (count_of recs);
  do_tail : staged (count_of recs) tail
}.

Definition disk_file (h0 h1 : str) (recs : list (IdentityKind * Identity)) (tail : str) : str :=
  h0 ++ h1 ++ ledger_records 0 recs ++ tail.

Lemma slot_cases slot : slot < 2 → slot = 0 ∨ slot = 1.
Proof. lia. Qed.

Lemma other_slot_lt slot : other_slot slot < 2.
Proof. unfold other_slot, LEDGER_V2_HEADER_SLOTS. apply N.mod_lt. done. Qed.

Lemma other_slot_involutive slot : slot < 2 → other_slot (other_slot slot) = slot.
Proof. by intros [-> | ->]%slot_cases. Qed.

Lemma staged_nil count : count <= MAX_LEDGER_RECORDS → staged count [].
Proof. intros. exists [], 0%nat. split_and!; [done|by apply Forall_nil|change (count_of []) with 0; lia]. Qed.

Section layout.
  Context (h0 h1 : str) (Hh0 : length h0 = 64%nat) (Hh1 : length h1 = 64%nat).

Lemma len_disk_file recs tail : recs_wf recs →
  len (disk_file h0 h1 recs tail) = committed_bytes (count_of recs) + len tail.
Proof.
  intros Hwf. unfold disk_file, len, committed_bytes, count_of.
  rewrite !length_app, length_ledger_records, Hh0, Hh1 by done.
  change LEDGER_V2_DATA_OFFSET with 128. change LEDGER_RECORD_BYTES with 32. lia.
Qed.

Lemma len_two_headers rest : 128 <= len (h0 ++ h1 ++ rest).
Proof. unfold len. rewrite !length_app, Hh0, Hh1. lia. Qed.

Lemma parse_slot rest slot : slot < 2 →
  parse_v2_header (h0 ++ h1 ++ rest) slot = parse_v2_header_bytes (pick slot h0 h1) slot.
Proof.
  intros [-> | ->]%slot_cases; unfold parse_v2_header; pose proof (len_two_headers rest) as Hlen;
    change LEDGER_V2_HEADER_BYTES with 64.
  - replace (len _ <? 0 * 64 + 64) with false by (symmetry; apply N.ltb_ge; lia).
    change (N.to_nat (0 * 64)) with 0%nat. change (N.to_nat (0 * 64 + 64)) with 64%nat.
    pose proof (field_at 0 64 [] h0 (h1 ++ rest) eq_refl) as Hf. cbn [app] in Hf. by rewrite Hf by lia.
  - replace (len _ <? 1 * 64 + 64) with false by (symmetry; apply N.ltb_ge; lia).
    change (N.to_nat (1 * 64)) with 64%nat. change (N.to_nat (1 * 64 + 64)) with 128%nat.
    by rewrite (field_at 64 128 h0 h1 rest) by (done || lia).
Qed.

(** Writing inside a slot. *)
Lemma write_slot rest slot new : slot < 2 → (length new <= 64)%nat →
  let torn := new ++ drop (length new) (pick slot h0 h1) in
  write_at (N.to_nat (slot * LEDGER_V2_HEADER_BYTES)) new (h0 ++ h1 ++ rest)
  = pick slot torn h0 ++ pick slot h1 torn ++ rest.
Proof.
  intros [-> | ->]%slot_cases Hnew; cbn zeta; unfold write_at, pick; change LEDGER_V2_HEADER_BYTES with 64.
  - change (N.to_nat (0 * 64)) with 0%nat. cbn [N.eqb]. rewrite take_0, drop_app_le by lia.
    cbn [app Nat.add]. by rewrite <- !(assoc_L (++)).
  - change (N.to_nat (1 * 64)) with 64%nat. change (1 =? 0) with false. cbn iota.
    rewrite take_app_length' by done. rewrite drop_app_ge by lia. rewrite Hh0.
    replace (64 + length new - 64)%nat with (length new) by lia.
    rewrite drop_app_le by lia. by rewrite <- !(assoc_L (++)).
Qed.

(** Appending after everything that is there. *)
Lemma write_end recs new : recs_wf recs →
  write_at (N.to_nat (committed_bytes (count_of recs))) new (disk_file h0 h1 recs []) = disk_file h0 h1 recs new.
Proof.
  intros Hwf. unfold write_at.
  assert (Hlen : length (disk_file h0 h1 recs []) = N.to_nat (committed_bytes (count_of recs))).
  { pose proof (len_disk_file recs [] Hwf) as H. unfold len in H. cbn [length] in H. lia. }
  rewrite take_ge, drop_ge by lia. rewrite app_nil_r. unfold disk_file. by rewrite app_nil_r, <- !(assoc_L (++)).
Qed.
End layout.

(** ** Recovery *)

Definition slot_valid (h0 h1 : str) (slot : N) : bool := is_ok (parse_v2_header_bytes (pick slot h0 h1) slot).

Lemma disk_ok_switch h0 h1 recs slot generation tail :
  disk_ok h0 h1 recs slot generation tail →
  parse_v2_header_bytes (pick (other_slot slot) h0 h1) (other_slot slot)
  = Ok (header_of (other_slot slot) generation (count_of recs)) →
  disk_ok h0 h1 recs (other_slot slot) generation tail.
Proof.
  intros [] Hother. split; try done.
  - apply other_slot_lt.
  - rewrite other_slot_involutive by done. unfold superseded. rewrite do_active0. by right.
Qed.

(** The selected header is the committed one. *)
Lemma select_disk h0 h1 recs slot generation tail
    (first := parse_v2_header_bytes h0 0) (second := parse_v2_header_bytes h1 1) :
  disk_ok h0 h1 recs slot generation tail →
  headers_disagree (result_ok first) (result_ok second) = false ∧
  is_ok first && is_ok second = slot_valid h0 h1 (other_slot slot) ∧
  ∃ s, disk_ok h0 h1 recs s generation tail ∧
    select_header (result_ok first) (result_ok second) = Some (header_of s generation (count_of recs)).
Proof.
  intros Hd. pose proof (disk_ok_switch _ _ _ _ _ _ Hd) as Hswitch.
  destruct (slot_cases slot (do_slot _ _ _ _ _ _ Hd)) as [-> | ->];
    pose proof (do_active _ _ _ _ _ _ Hd) as Ha; pose proof (do_other _ _ _ _ _ _ Hd) as Ho;
    unfold superseded, slot_valid in *; change (other_slot 0) with 1 in *; change (other_slot 1) with 0 in *;
    unfold pick in *; cbn [N.eqb] in *; fold first second in Ha, Ho, Hswitch |- *; rewrite Ha; cbn [result_ok is_ok].
  - destruct second as [h|]; cbn [result_ok is_ok headers_disagree select_header].
    + destruct Ho as [Hlt| ->].
      * cbn [ph_generation header_of]. replace (generation =? ph_generation h) with false by (symmetry; apply N.eqb_neq; lia).
        split_and!; [done..|]. exists 0. split; [done|].
        by replace (generation <=? ph_generation h) with false by (symmetry; apply N.leb_gt; lia).
      * cbn [ph_generation ph_record_count ph_data_length header_of]. rewrite !N.eqb_refl, N.leb_refl.
        split_and!; [done..|]. eauto.
    + split_and!; [done..|]. eauto.
  - destruct first as [h|]; cbn [result_ok is_ok headers_disagree select_header].
    + destruct Ho as [Hlt| ->].
      * cbn [ph_generation header_of]. replace (ph_generation h =? generation) with false by (symmetry; apply N.eqb_neq; lia).
        split_and!; [done..|]. exists 1. split; [done|].
        by replace (ph_generation h <=? generation) with true by (symmetry; apply N.leb_le; lia).
      * cbn [ph_generation ph_record_count ph_data_length header_of]. rewrite !N.eqb_refl, N.leb_refl.
        split_and!; [done..|]. eauto.
    + split_and!; [done..|]. eauto.
Qed.

Definition recovered (recs : list (IdentityKind * Identity)) (slot generation : N) (tail : str) : ParsedV2Ledger :=
  {| pl_issued := list_to_set recs.*2; pl_next_sequence := count_of recs; pl_generation := generation;
     pl_active_slot := slot; pl_committed_length := committed_bytes (count_of recs);
     pl_recover_tail := negb (bool_decide (tail = [])) |}.

Lemma field_records h0 h1 recs tail : length h0 = 64%nat → length h1 = 64%nat → recs_wf recs →
  field (N.to_nat LEDGER_V2_DATA_OFFSET) (N.to_nat (committed_bytes (count_of recs))) (disk_file h0 h1 recs tail)
  = ledger_records 0 recs.
Proof.
  intros H0 H1 Hwf. unfold disk_file. rewrite (assoc_L (++)). apply field_at.
  - rewrite length_app, H0, H1. done.
  - rewrite length_ledger_records by done. unfold committed_bytes, count_of.
    change LEDGER_V2_DATA_OFFSET with 128. change LEDGER_RECORD_BYTES with 32. lia.
Qed.

Lemma drop_records h0 h1 recs tail : length h0 = 64%nat → length h1 = 64%nat → recs_wf recs →
  drop (N.to_nat (committed_bytes (count_of recs))) (disk_file h0 h1 recs tail) = tail
  ∧ take (N.to_nat (committed_bytes (count_of recs))) (disk_file h0 h1 recs tail) = disk_file h0 h1 recs [].
Proof.
  intros H0 H1 Hwf. pose proof (len_disk_file h0 h1 H0 H1 recs [] Hwf) as Hlen. unfold len in Hlen.
  replace (disk_file h0 h1 recs tail) with (disk_file h0 h1 recs [] ++ tail)
    by (unfold disk_file; by rewrite app_nil_r, <- !(assoc_L (++))).
  cbn [length] in Hlen. rewrite drop_app_length', take_app_length' by lia. done.
Qed.

(** What the parser makes of any disk the ledger can leave. *)
Lemma parse_disk h0 h1 recs slot generation tail :
  disk_ok h0 h1 recs slot generation tail →
  if (generation =? 0) && negb (slot_valid h0 h1 (other_slot slot))
  then is_ok (parse_ledger_v2 (disk_file h0 h1 recs tail)) = false
  else ∃ s, disk_ok h0 h1 recs s generation tail ∧
         parse_ledger_v2 (disk_file h0 h1 recs tail) = Ok (recovered recs s generation tail).
Proof.
  intros Hd. destruct (select_disk _ _ _ _ _ _ Hd) as (Hagree & Hboth & s & Hs & Hsel).
  destruct Hd as [Hslot H0 H1 Hgen _ _ Hwf Hnd Hcount _ _ Ht].
  assert (Hlen : len (disk_file h0 h1 recs tail) = committed_bytes (count_of recs) + len tail)
    by by apply len_disk_file.
  assert (Hmin : 128 <= committed_bytes (count_of recs)).
  { unfold committed_bytes. change LEDGER_V2_DATA_OFFSET with 128. lia. }
  unfold parse_ledger_v2.
  replace (len (disk_file h0 h1 recs tail) <? LEDGER_V2_DATA_OFFSET) with false
    by (symmetry; apply N.ltb_ge; change LEDGER_V2_DATA_OFFSET with 128; lia).
  assert (parse_v2_header (disk_file h0 h1 recs tail) 0 = parse_v2_header_bytes h0 0) as -> by by apply parse_slot.
  assert (parse_v2_header (disk_file h0 h1 recs tail) 1 = parse_v2_header_bytes h1 1) as -> by by apply parse_slot.
  rewrite Hsel, Hagree, Hboth. cbn [ph_generation header_of].
  destruct ((generation =? 0) && negb (slot_valid h0 h1 (other_slot slot))); [done|].
  exists s. split; [done|]. cbn [ph_data_length ph_record_count ph_slot header_of].
  replace (len (disk_file h0 h1 recs tail) <? _) with false by (symmetry; apply N.ltb_ge; lia).
  rewrite field_records by done.
  assert (len (ledger_records 0 recs) = count_of recs * LEDGER_RECORD_BYTES) as Hrl.
  { unfold len, count_of. rewrite length_ledger_records by done. change LEDGER_RECORD_BYTES with 32. lia. }
  rewrite Hrl, N.eqb_refl. cbn [negb]. rewrite length_ledger_records, Nat.mul_comm, Nat.div_mul by done.
  unfold MAX_LEDGER_RECORDS in Hcount.
  rewrite parse_ledger_records; [|done..|set_solver|lia]. cbn [mbind result_bind].
  rewrite (proj1 (drop_records h0 h1 recs tail H0 H1 Hwf)).
  destruct Ht as (batch & k & -> & Hb & Hc). unfold recovered. rewrite (left_id_L ∅ (∪)).
  case_bool_decide; [done|]. rewrite validate_staged_prefix; [done..|].
  unfold MAX_LEDGER_RECORDS in Hc. lia.
Qed.

Lemma parse_header_magic header slot h :
  parse_v2_header_bytes header slot = Ok h → take 8 header = LEDGER_V2_MAGIC.
Proof. unfold parse_v2_header_bytes. by case_bool_decide. Qed.

Lemma is_v2_slots h0 h1 slot h rest :
  length h0 = 64%nat → length h1 = 64%nat → slot < 2 →
  parse_v2_header_bytes (pick slot h0 h1) slot = Ok h → is_v2 (h0 ++ h1 ++ rest) = true.
Proof.
  intros H0 H1 Hslot Ha%parse_header_magic.
  pose proof (len_two_headers h0 h1 H0 H1 rest) as Hlen.
  unfold is_v2. change LEDGER_V2_HEADER_BYTES with 64.
  replace (64 <=? _) with true by (symmetry; apply N.leb_le; lia).
  replace (64 * 2 <=? _) with true by (symmetry; apply N.leb_le; lia). cbn [andb].
  destruct (slot_cases slot Hslot) as [-> | ->]; apply orb_true_iff; unfold pick in Ha; cbn [N.eqb] in Ha.
  - left. apply bool_decide_eq_true. rewrite take_app_le by lia. done.
  - right. apply bool_decide_eq_true. change (1 =? 0) with false in Ha. cbn iota in Ha.
    unfold field. rewrite drop_app_length' by done. rewrite take_app_le by lia. done.
Qed.

Lemma is_v2_disk h0 h1 recs slot generation tail :
  disk_ok h0 h1 recs slot generation tail → is_v2 (disk_file h0 h1 recs tail) = true.
Proof. intros []. by eapply is_v2_slots. Qed.

Lemma len_disk_bound h0 h1 recs slot generation tail :
  disk_ok h0 h1 recs slot generation tail → len (disk_file h0 h1 recs tail) <= MAX_LEDGER_BYTES.
Proof.
  intros [Hslot H0 H1 _ _ _ Hwf _ _ _ _ (batch & k & -> & Hb & Hc)].
  rewrite len_disk_file by done. unfold len. rewrite length_take, length_ledger_records by done.
  unfold committed_bytes, MAX_LEDGER_BYTES, count_of in *.
  change LEDGER_V2_DATA_OFFSET with 128. change LEDGER_RECORD_BYTES with 32. lia.
Qed.

(** ** A ledger that agrees with its file *)

Definition handle (path : str) (h0 h1 : str) (recs : list (IdentityKind * Identity)) (slot generation : N)
    : DurableIdentityLedger :=
  {| dl_path := path; dl_file := disk_file h0 h1 recs []; dl_format := RedundantV2;
     dl_issued := list_to_set recs.*2; dl_next_sequence := count_of recs;
     dl_length := committed_bytes (count_of recs); dl_generation := generation;
     dl_active_slot := slot; dl_poisoned := false |}.

Lemma disk_ok_tail h0 h1 recs slot generation tail tail' :
  disk_ok h0 h1 recs slot generation tail → staged (count_of recs) tail' →
  disk_ok h0 h1 recs slot generation tail'.
Proof. intros [] ?. by split. Qed.

(** Opening a file the ledger left: the committed records, whatever the failures. *)
Lemma open_disk io path h0 h1 recs slot generation tail r file' :
  disk_ok h0 h1 recs slot generation tail →
  open_existing io path (disk_file h0 h1 recs tail) = (r, file') →
  match r with
  | Ok l => ∃ s, disk_ok h0 h1 recs s generation [] ∧ l = handle path h0 h1 recs s generation ∧ file' = dl_file l
  | Err _ => ∃ tail', disk_ok h0 h1 recs slot generation tail' ∧ file' = disk_file h0 h1 recs tail'
  end.
Proof.
  intros Hd Hopen. pose proof (len_disk_bound _ _ _ _ _ _ Hd) as Hmax.
  assert (Hkeep : ∃ tail', disk_ok h0 h1 recs slot generation tail' ∧
     disk_file h0 h1 recs tail = disk_file h0 h1 recs tail') by eauto.
  pose proof (staged_nil (count_of recs) (do_count _ _ _ _ _ _ Hd)) as Hnil.
  unfold open_existing, validate_open_ledger at 1 in Hopen.
  destruct (oi_before io); [cbn in Hopen; by simplify_eq|].
  replace (MAX_LEDGER_BYTES <? _) with false in Hopen by (symmetry; by apply N.ltb_ge).
  cbn [mbind result_bind] in Hopen.
  destruct (oi_read io); [cbn in Hopen; by simplify_eq|]. cbn [mbind result_bind] in Hopen.
  unfold read_ledger in Hopen. replace (_ <=? MAX_LEDGER_BYTES + 1) with true in Hopen by (symmetry; apply N.leb_le; lia).
  rewrite N.eqb_refl in Hopen. cbn [negb] in Hopen.
  unfold parse_existing in Hopen. rewrite (is_v2_disk _ _ _ _ _ _ Hd) in Hopen.
  pose proof (parse_disk _ _ _ _ _ _ Hd) as Hparse.
  destruct ((generation =? 0) && negb (slot_valid h0 h1 (other_slot slot))).
  { destruct (parse_ledger_v2 _) as [p|]; [done|]. cbn in Hopen. by simplify_eq. }
  destruct Hparse as (s & Hs & Hparse). rewrite Hparse in Hopen. cbn [mbind result_bind] in Hopen.
  assert (Hcut : pl_recover_tail (recovered recs s generation tail) = true →
    take (N.to_nat (pl_committed_length (recovered recs s generation tail))) (disk_file h0 h1 recs tail)
    = disk_file h0 h1 recs []) by (intros _; by apply drop_records; destruct Hd).
  unfold recover_file in Hopen. cbn [pl_recover_tail recovered] in Hopen, Hcut.
  case_bool_decide as Ht; cbn [negb] in Hopen, Hcut.
  - subst tail. cbn [mbind result_bind] in Hopen.
    destruct (_ ← validate_open_ledger _ _ _ _; _) as [l|] eqn:Hl; simplify_eq; [|by eauto].
    exists s. split; [by eapply disk_ok_tail|].
    unfold mbind, result_bind in Hl. repeat case_match; simplify_eq. done.
  - destruct (oi_set_len io); [cbn in Hopen; by simplify_eq|].
    rewrite Hcut in Hopen by done.
    destruct (_ ← match oi_sync_tail io with _ => _ end; _) as [l|] eqn:Hl; simplify_eq.
    + exists s. split; [by eapply disk_ok_tail|].
      unfold mbind, result_bind in Hl. repeat case_match; simplify_eq. done.
    + exists []. eauto using disk_ok_tail.
Qed.

(** With an obliging operating system, a ledger past its first commit opens. *)
Lemma open_disk_ok path h0 h1 recs slot generation tail :
  disk_ok h0 h1 recs slot generation tail → generation ≠ 0 →
  ∃ s, disk_ok h0 h1 recs s generation [] ∧
    open_existing open_io_ok path (disk_file h0 h1 recs tail)
    = (Ok (handle path h0 h1 recs s generation), disk_file h0 h1 recs []).
Proof.
  intros Hd Hgen. pose proof (len_disk_bound _ _ _ _ _ _ Hd) as Hmax.
  pose proof (parse_disk _ _ _ _ _ _ Hd) as Hparse.
  replace (generation =? 0) with false in Hparse by (symmetry; by apply N.eqb_neq). cbn [andb] in Hparse.
  destruct Hparse as (s & Hs & Hparse).
  pose proof (staged_nil (count_of recs) (do_count _ _ _ _ _ _ Hd)) as Hnil.
  assert (Hnilok : disk_ok h0 h1 recs s generation []) by by eapply disk_ok_tail.
  exists s. split; [done|].
  assert (Hvalid : ∀ t, disk_ok h0 h1 recs s generation t →
    validate_open_ledger None path (disk_file h0 h1 recs t) None = Ok (len (disk_file h0 h1 recs t))).
  { intros t Ht. unfold validate_open_ledger. pose proof (len_disk_bound _ _ _ _ _ _ Ht).
    by replace (MAX_LEDGER_BYTES <? _) with false by (symmetry; by apply N.ltb_ge). }
  assert (Hsettled : validate_open_ledger None path (disk_file h0 h1 recs []) (Some (committed_bytes (count_of recs)))
    = Ok (len (disk_file h0 h1 recs []))).
  { pose proof (Hvalid _ Hnilok) as H. unfold validate_open_ledger in *. case_match; [done|].
    destruct Hnilok. rewrite len_disk_file by done. change (len []) with 0. by rewrite N.add_0_r, N.eqb_refl. }
  unfold open_existing. cbn [oi_before oi_read oi_settled oi_lock_after open_io_ok].
  rewrite (Hvalid _ Hs). cbn [mbind result_bind]. unfold read_ledger.
  replace (_ <=? MAX_LEDGER_BYTES + 1) with true by (symmetry; apply N.leb_le; lia).
  rewrite N.eqb_refl. cbn [negb]. unfold parse_existing.
  rewrite (is_v2_disk _ _ _ _ _ _ Hd), Hparse. cbn [mbind result_bind].
  unfold recover_file. cbn [pl_recover_tail recovered pl_committed_length oi_set_len oi_sync_tail open_io_ok].
  case_bool_decide as Ht; cbn [negb].
  - subst tail. cbn [mbind result_bind]. by rewrite Hsettled.
  - destruct Hd. rewrite (proj2 (drop_records h0 h1 recs tail do_first0 do_second0 do_recs0)).
    cbn [mbind result_bind]. by rewrite Hsettled.
Qed.

(** ** Reservations *)

Lemma check_pending_ok issued pending batch p :
  check_pending issued pending batch = Ok p →
  p = pending ∪ list_to_set batch.*2 ∧ NoDup batch.*2 ∧ ∀ i, i ∈ batch.*2 → (i ∉ issued) ∧ (i ∉ pending).
Proof.
  revert pending. induction batch as [|[kind identity] batch IH]; intros pending; cbn [check_pending].
  - intros [= ->]. split_and!; [set_solver|constructor|by intros ? ?%not_elem_of_nil].
  - case_bool_decide as Hi; [done|]. case_bool_decide as Hp; [done|]. cbn [orb].
    intros (-> & Hnd & Hf)%IH. cbn [fmap list_fmap snd] in *. split_and!.
    + cbn [list_to_set]. set_solver.
    + constructor; [|done]. intros Hin. apply Hf in Hin. set_solver.
    + intros i [->|Hin]%elem_of_cons; [done|]. apply Hf in Hin. set_solver.
Qed.

Lemma check_pending_issued issued pending batch i :
  i ∈ batch.*2 → i ∈ issued → is_ok (check_pending issued pending batch) = false.
Proof.
  intros Hin Hiss. destruct (check_pending issued pending batch) as [p|] eqn:Hc; [|done].
  apply check_pending_ok in Hc as (_ & _ & Hf). by destruct (Hf i Hin).
Qed.

Lemma wp_or_poison {A} (f : DurableIdentityLedger → result LedgerError A) Q R l :
  match f l with Ok a => Q a l | Err e => R e (dl_poison l) end → wp (or_poison f) Q R l.
Proof. unfold wp, or_poison. by destruct (f l). Qed.

Lemma wp_write_and_sync w s position bytes (Q : unit → DurableIdentityLedger → Prop) R l :
  Q tt (dl_set_file (write_at position bytes (dl_file l)) l) →
  (∀ n message e, w = Some (n, message) ∨ (w = None ∧ s = Some (n, message)) →
     R e (dl_poison (dl_set_file (write_at position (take n bytes) (dl_file l)) l))) →
  wp (write_and_sync w s position bytes) Q R l.
Proof.
  intros HQ HR. unfold wp, write_and_sync.
  destruct w as [[n message]|]; [by eapply HR; left|]. destruct s as [[n message]|]; [by eapply HR; right|done].
Qed.

(** The bytes of a header slot. *)
Definition slot_bytes (slot : N) (file : str) : str :=
  field (N.to_nat (slot * LEDGER_V2_HEADER_BYTES)) (N.to_nat (slot * LEDGER_V2_HEADER_BYTES + LEDGER_V2_HEADER_BYTES)) file.

(** What a failed reservation left in a header slot that was already damaged, when it is neither
    what was there nor the header it meant to write: a mixture of three headers or more. *)
Definition mixtures (batch : list (IdentityKind * Identity)) (l l' : DurableIdentityLedger) : list (N * str) :=
  let slot := other_slot (dl_active_slot l) in
  let old := slot_bytes slot (dl_file l) in
  let left := slot_bytes slot (dl_file l') in
  let header := ledger_header_v2 slot (dl_generation l + 1) (committed_bytes (dl_next_sequence l + count_of batch)) in
  if whole_header slot old || bool_decide (left = old) || bool_decide (left = header) then [] else [(slot, left)].

(** No mixture is by accident a header with a matching checksum. *)
Definition no_accident (mixed : list (N * str)) : Prop := Forall (λ m, whole_header m.1 m.2 = false) mixed.

(** The ledger's handle and its file agree on the committed records. *)
Definition ledger_settled (path : str) (recs : list (IdentityKind * Identity)) (l : DurableIdentityLedger) : Prop :=
  ∃ h0 h1 slot generation, disk_ok h0 h1 recs slot generation [] ∧ l = handle path h0 h1 recs slot generation.

(** The handle is unusable; its file commits [recs]. *)
Definition ledger_sealed (recs : list (IdentityKind * Identity)) (l : DurableIdentityLedger) : Prop :=
  dl_poisoned l = true ∧
  ∃ h0 h1 slot generation tail, disk_ok h0 h1 recs slot generation tail ∧ dl_file l = disk_file h0 h1 recs tail.

Lemma pick_other {A} slot (a b x : A) : slot < 2 →
  pick slot (pick (other_slot slot) x a) (pick (other_slot slot) b x) = pick slot a b ∧
  pick (other_slot slot) (pick (other_slot slot) x a) (pick (other_slot slot) b x) = x.
Proof. by intros [-> | ->]%slot_cases. Qed.

Lemma length_pick slot (a b : str) : length a = 64%nat → length b = 64%nat → length (pick slot a b) = 64%nat.
Proof. unfold pick. by case_match. Qed.

Lemma length_torn n (new old : str) : length new = 64%nat → length old = 64%nat →
  length (take n new ++ drop (length (take n new)) old) = 64%nat.
Proof. intros. rewrite length_app, length_drop, length_take. lia. Qed.

Section reserve.
  Context (path h0 h1 : str) (recs batch : list (IdentityKind * Identity)) (slot generation : N).
  Context (Hd : disk_ok h0 h1 recs slot generation []).
  Context (Hwf : recs_wf batch) (Hne : batch ≠ []) (Hnd : NoDup (recs ++ batch).*2).
  Context (Hcap : count_of recs + count_of batch <= MAX_LEDGER_RECORDS).
  Context (Hgen : generation + 1 < 2 ^ 64).

Let next := other_slot slot.
Let header := ledger_header_v2 next (generation + 1) (committed_bytes (count_of recs + count_of batch)).
Let encoded := ledger_records (count_of recs) batch.

Lemma disk_ok_staged k : disk_ok h0 h1 recs slot generation (take k encoded).
Proof. eapply disk_ok_tail; [done|]. by exists batch, k. Qed.

(** Replacing the other slot by something that is superseded. *)
Lemma disk_ok_replace x : length x = 64%nat → superseded x next generation (count_of recs) →
  disk_ok (pick next x h0) (pick next h1 x) recs slot generation encoded.
Proof.
  intros Hx Hsup. pose proof (disk_ok_staged (length encoded)) as Hst. rewrite take_ge in Hst by done.
  destruct Hst. destruct (pick_other slot h0 h1 x) as [Hp1 Hp2]; [done|]. fold next in Hp1, Hp2.
  split; try done.
  - by apply length_pick.
  - by apply length_pick.
  - by rewrite Hp1.
  - fold next. by rewrite Hp2.
Qed.

(** The new commit. *)
Lemma disk_ok_commit x : length x = 64%nat →
  parse_v2_header_bytes x next = Ok (header_of next (generation + 1) (count_of (recs ++ batch))) →
  disk_ok (pick next x h0) (pick next h1 x) (recs ++ batch) next (generation + 1) [].
Proof.
  intros Hx Hparse. destruct Hd. destruct (pick_other slot h0 h1 x) as [Hp1 Hp2]; [done|]. fold next in Hp1, Hp2.
  split; try done.
  - apply other_slot_lt.
  - by apply length_pick.
  - by apply length_pick.
  - lia.
  - rewrite count_of_app. assert (0 < count_of batch) by (unfold count_of; destruct batch; [done|cbn [length]; lia]). lia.
  - by apply Forall_app.
  - by rewrite count_of_app.
  - by rewrite Hp2.
  - unfold next. rewrite other_slot_involutive by done. fold next. rewrite Hp1. unfold superseded.
    rewrite do_active0. left. cbn. lia.
  - apply staged_nil. by rewrite count_of_app.
Qed.

Lemma disk_file_commit a b : disk_file a b recs encoded = disk_file a b (recs ++ batch) [].
Proof. unfold disk_file. by rewrite ledger_records_app, app_nil_r, N.add_0_l. Qed.

Lemma parse_new_header :
  parse_v2_header_bytes header next = Ok (header_of next (generation + 1) (count_of (recs ++ batch))).
Proof. rewrite count_of_app. apply parse_ledger_header_v2; [apply other_slot_lt|done|done]. Qed.

Lemma write_header_torn k rest :
  let torn := take k header ++ drop (length (take k header)) (pick next h0 h1) in
  write_at (N.to_nat (next * LEDGER_V2_HEADER_BYTES)) (take k header) (h0 ++ h1 ++ rest)
  = pick next torn h0 ++ pick next h1 torn ++ rest.
Proof using Hd.
  destruct Hd. apply write_slot; [done|done|apply other_slot_lt|].
  unfold header. rewrite length_take, length_ledger_header_v2. apply Nat.le_min_r.
Qed.

Lemma slot_bytes_next a b rest : length a = 64%nat → length b = 64%nat →
  slot_bytes next (a ++ b ++ rest) = pick next a b.
Proof.
  intros Ha Hb. unfold slot_bytes. change LEDGER_V2_HEADER_BYTES with 64.
  destruct (slot_cases next (other_slot_lt slot)) as [-> | ->]; unfold pick.
  - change (N.to_nat (0 * 64)) with 0%nat. change (N.to_nat (0 * 64 + 64)) with 64%nat. cbn [N.eqb].
    by apply (field_at 0 64 []).
  - change (N.to_nat (1 * 64)) with 64%nat. change (N.to_nat (1 * 64 + 64)) with 128%nat. change (1 =? 0) with false.
    apply field_at; [done|]. by rewrite Hb.
Qed.

Lemma torn_write n (old : str) : length old = 64%nat →
  take n header ++ drop (length (take n header)) old = torn_header (n `min` 64) header old.
Proof.
  intros Ho. unfold torn_header. rewrite length_take. unfold header. rewrite length_ledger_header_v2. f_equal.
  destruct (decide (n <= 64)%nat); [by rewrite Nat.min_l|].
  rewrite Nat.min_r, !take_ge by (rewrite ?length_ledger_header_v2; lia). done.
Qed.

(** What a torn header in the other slot is to a reader. *)
Lemma torn_cases n (old := pick next h0 h1) (torn := torn_header (n `min` 64) header old) :
  (whole_header next old || bool_decide (torn = old) || bool_decide (torn = header) = false →
   whole_header next torn = false) →
  superseded torn next generation (count_of recs) ∨
  parse_v2_header_bytes torn next = Ok (header_of next (generation + 1) (count_of (recs ++ batch))).
Proof.
  intros Hacc. pose proof Hd as [Hslot H0 H1 _ _ Hcommits _ _ Hcount _ Ho _]. fold next old in Ho.
  assert (Hnext : next < 2) by apply other_slot_lt.
  assert (Hlo : length old = 64%nat) by by apply length_pick.
  assert (Hlt : length torn = 64%nat) by (apply length_torn_header; [apply length_ledger_header_v2|done|lia]).
  assert (Hnew : torn = header →
    parse_v2_header_bytes torn next = Ok (header_of next (generation + 1) (count_of (recs ++ batch)))).
  { intros ->. apply parse_new_header. }
  destruct (parse_v2_header_bytes torn next) as [h|e] eqn:Hp; [|left; unfold superseded; by rewrite Hp].
  destruct (whole_header next old) eqn:Hw.
  - apply whole_parse in Hw; [|done..]. pose proof (parse_v2_header_whole _ _ _ Hlo Hw) as (Hold & _ & Hc & _).
    cbn [ph_generation ph_record_count header_of] in Hold, Hc. unfold superseded in Ho. rewrite Hw in Ho.
    set (G := le_field 12 20 old) in *. set (C := le_field 20 28 old) in *.
    assert (HG : G <= generation) by (destruct Ho as [Ho|Ho]; [cbn in Ho; lia|by injection Ho as -> _]).
    unfold MAX_LEDGER_RECORDS in *.
    assert (torn = old ∨ torn = header) as [->|Heq]; [|left; unfold superseded; by rewrite Hw|by right; apply Hnew].
    unfold torn in *. rewrite Hold in Hp |- *. eapply torn_header_detected; [done|lia|lia|done|done|lia|done].
  - cbn [orb] in Hacc. destruct (bool_decide_reflect (torn = old)) as [->|]; [by left|].
    destruct (bool_decide_reflect (torn = header)) as [Heq|]; [by right; apply Hnew|].
    apply parse_whole in Hp; [|done..]. by rewrite Hacc in Hp.
Qed.

(** A commit header torn at any byte leaves the old commit or the new one. *)
Lemma disk_ok_torn n l' :
  dl_poisoned l' = true →
  dl_file l' = write_at (N.to_nat (next * LEDGER_V2_HEADER_BYTES)) (take n header) (disk_file h0 h1 recs encoded) →
  no_accident (mixtures batch (handle path h0 h1 recs slot generation) l') →
  ledger_sealed recs l' ∨ ledger_sealed (recs ++ batch) l'.
Proof.
  intros Hp Hfile Hacc. pose proof Hd as [Hslot H0 H1 _ _ _ _ _ _ _ _ _].
  pose proof (write_header_torn n (ledger_records 0 recs ++ encoded)) as Hw. cbn zeta in Hw.
  unfold disk_file in Hfile. rewrite Hw in Hfile. clear Hw. rewrite torn_write in Hfile by by apply length_pick.
  set (torn := torn_header _ _ _) in *.
  assert (Hlen : length torn = 64%nat).
  { apply length_torn_header; [apply length_ledger_header_v2|by apply length_pick|lia]. }
  unfold mixtures in Hacc. cbn [dl_active_slot dl_generation dl_next_sequence dl_file handle] in Hacc.
  fold next header in Hacc. rewrite Hfile in Hacc. unfold disk_file in Hacc.
  rewrite !slot_bytes_next in Hacc by (done || by apply length_pick).
  destruct (pick_other slot h0 h1 torn Hslot) as [_ Hp2]. fold next in Hp2. rewrite Hp2 in Hacc.
  destruct (torn_cases n) as [Hsup|Hnew]; [|left|right].
  - intros Hb. fold torn in Hb |- *. rewrite Hb in Hacc. by apply Forall_cons in Hacc as [Hacc _].
  - split; [done|]. do 2 eexists. exists slot, generation, encoded.
    split; [by apply (disk_ok_replace torn)|]. by rewrite Hfile.
  - split; [done|]. do 2 eexists. exists next, (generation + 1), [].
    split; [by apply (disk_ok_commit torn)|]. by rewrite Hfile, <- disk_file_commit.
Qed.
End reserve.

Lemma wp_gets {S E A} (f : S → A) (Q : A → S → Prop) (R : E → S → Prop) s : Q (f s) s → wp (st_gets f) Q R s.
Proof. done. Qed.

Lemma wp_validate verdict expected (Q : unit → DurableIdentityLedger → Prop) R l :
  Q tt l → (∀ e, R e (dl_poison l)) → wp (validate_append_target_of verdict expected) Q R l.
Proof. intros HQ HR. apply wp_or_poison. by destruct (validate_open_ledger _ _ _ _); simpl. Qed.

Lemma wp_seek failure operation (Q : unit → DurableIdentityLedger → Prop) R l :
  Q tt l → (∀ e, R e (dl_poison l)) → wp (seek_or_poison failure operation) Q R l.
Proof. intros HQ HR. apply wp_or_poison. by destruct failure. Qed.

Lemma reserve_v2_spec io path h0 h1 recs batch slot generation
    (l := handle path h0 h1 recs slot generation) :
  disk_ok h0 h1 recs slot generation [] → recs_wf batch → batch ≠ [] → NoDup (recs ++ batch).*2 →
  count_of recs + count_of batch <= MAX_LEDGER_RECORDS →
  wp (reserve_redundant_v2 io (list_to_set batch.*2) (count_of recs + count_of batch)
        (ledger_records (count_of recs) batch))
     (λ _ l', ledger_settled path (recs ++ batch) l')
     (λ _ l', no_accident (mixtures batch l l') → ledger_sealed recs l' ∨ ledger_sealed (recs ++ batch) l') l.
Proof.
  intros Hd Hwf Hne Hnd Hcap. pose proof Hd as [Hslot H0 H1 _ _ _ Hrecs _ _ _ _ _].
  set (encoded := ledger_records (count_of recs) batch).
  assert (Hstaged : ∀ k, disk_ok h0 h1 recs slot generation (take k encoded)) by (intros; by apply disk_ok_staged).
  assert (Hall : disk_ok h0 h1 recs slot generation encoded).
  { pose proof (Hstaged (length encoded)) as Hk. by rewrite take_ge in Hk. }
  assert (Hseal : ∀ file k, file = disk_file h0 h1 recs (take k encoded) →
    ledger_sealed recs (dl_poison (dl_set_file file l)) ∨ ledger_sealed (recs ++ batch) (dl_poison (dl_set_file file l))).
  { intros file k ->. left. split; [done|]. eauto 8. }
  assert (Hseal0 : ledger_sealed recs (dl_poison l) ∨ ledger_sealed (recs ++ batch) (dl_poison l)).
  { left. split; [done|]. eauto 8. }
  unfold reserve_redundant_v2. apply wp_bind, wp_gets, wp_bind, wp_validate; [|done].
  apply wp_bind, wp_seek; [|done]. apply wp_bind. cbn [dl_length handle l].
  apply wp_write_and_sync; [|intros n message e _ _; apply (Hseal _ n); by apply write_end].
  cbn [dl_file handle l]. rewrite write_end by done.
  set (l1 := dl_set_file (disk_file h0 h1 recs encoded) l).
  assert (Hseal1 : ledger_sealed recs (dl_poison l1) ∨ ledger_sealed (recs ++ batch) (dl_poison l1)).
  { left. split; [done|]. eauto 8. }
  cbv zeta. apply wp_bind, wp_validate; [|done]. apply wp_bind, wp_or_poison.
  cbn [dl_generation dl_set_file handle l l1].
  destruct (checked_add_u64 generation 1) as [g|] eqn:Hg; cbn [ok_or]; [|done].
  apply checked_add_u64_Some in Hg as [-> Hg]. change u64_limit with (2 ^ 64) in Hg.
  apply wp_bind, wp_gets, wp_bind, wp_seek; [|done]. apply wp_bind.
  cbn [dl_active_slot dl_set_file handle l l1]. fold (other_slot slot) l1.
  fold (committed_bytes (count_of recs + count_of batch)).
  apply wp_write_and_sync.
  - apply wp_bind, wp_modify.
    pose proof (write_header_torn h0 h1 recs batch slot generation Hd 64 (ledger_records 0 recs ++ encoded)) as Hw.
    cbn zeta in Hw. rewrite (take_ge (ledger_header_v2 _ _ _)) in Hw by by rewrite length_ledger_header_v2.
    rewrite length_ledger_header_v2, drop_ge, app_nil_r in Hw by (rewrite length_pick; [lia|done..]).
    change (dl_file l1) with (h0 ++ h1 ++ ledger_records 0 recs ++ encoded). rewrite Hw. clear Hw.
    set (h := ledger_header_v2 _ _ _). set (next := other_slot slot).
    assert (Hcommit : disk_ok (pick next h h0) (pick next h1 h) (recs ++ batch) next (generation + 1) []).
    { apply disk_ok_commit; [done..|apply length_ledger_header_v2|]. by apply parse_new_header. }
    match goal with |- wp _ _ _ ?l2 =>
      assert (Hl2 : l2 = handle path (pick next h h0) (pick next h1 h) (recs ++ batch) next (generation + 1)) end.
    { unfold l1, l, dl_commit, dl_set_file, handle. cbn [dl_path dl_format dl_issued dl_poisoned dl_file].
      f_equal.
      - apply (disk_file_commit recs batch).
      - by rewrite fmap_app, list_to_set_app_L.
      - by rewrite count_of_app.
      - by rewrite count_of_app. }
    rewrite Hl2. apply wp_validate; [by do 4 eexists|]. intros e _. right. split; [done|]. eauto 8.
  - intros n message e _. by apply (disk_ok_torn path h0 h1 recs batch slot generation Hd Hwf Hne Hnd Hcap Hg n).
Qed.

Lemma encoded_nil n batch : recs_wf batch → ledger_records n batch = [] → batch = [].
Proof. intros Hwf Hnil. pose proof (length_ledger_records n batch Hwf). rewrite Hnil in *. by destruct batch. Qed.

Lemma durable_reserve_spec io path recs batch l :
  ledger_settled path recs l → recs_wf batch →
  wp (durable_reserve_batch io batch)
     (λ _ l', ledger_settled path (recs ++ batch) l' ∧ NoDup (recs ++ batch).*2)
     (λ _ l', l' = l ∨ (no_accident (mixtures batch l l') → ledger_sealed recs l' ∨ ledger_sealed (recs ++ batch) l')) l.
Proof.
  intros (h0 & h1 & slot & generation & Hd & ->) Hwf. set (l := handle _ _ _ _ _ _) in *.
  unfold durable_reserve_batch. apply wp_bind, wp_get. cbn [dl_poisoned handle l].
  apply wp_bind, wp_query. cbn [dl_issued handle l].
  destruct (check_pending _ _ batch) as [p|e] eqn:Hp; [|by left].
  apply check_pending_ok in Hp as (-> & Hnd & Hf). rewrite (left_id_L ∅ (∪)).
  assert (Hndall : NoDup (recs ++ batch).*2).
  { rewrite fmap_app. apply NoDup_app. split_and!; [by destruct Hd| |done].
    intros i Hi Hb. apply Hf in Hb as [Hb _]. by rewrite elem_of_list_to_set in Hb. }
  cbn [dl_next_sequence handle l]. fold (count_of batch). cbv zeta.
  destruct (N.ltb_spec MAX_LEDGER_RECORDS (N.min (count_of recs + count_of batch) (u64_limit - 1)))
    as [|Hcap]; [by left|].
  assert (N.min (count_of recs + count_of batch) (u64_limit - 1) = count_of recs + count_of batch) as Hmin.
  { apply N.min_l. unfold MAX_LEDGER_RECORDS, u64_limit in *. lia. }
  rewrite Hmin in *. case_bool_decide as Henc.
  - apply encoded_nil in Henc as ->; [|done]. rewrite app_nil_r in *. apply wp_ret. split; [|done]. by do 4 eexists.
  - cbn [dl_format handle l]. assert (batch ≠ []) by by intros ->.
    eapply wp_mono; [by apply reserve_v2_spec|done|]. intros e l'. by right.
Qed.

Lemma sealed_reserve io batch recs l :
  ledger_sealed recs l → ∃ e, durable_reserve_batch io batch l = (Err e, l).
Proof.
  intros [Hp _]. unfold durable_reserve_batch, mbind, ST_bind, st_get. rewrite Hp. eauto.
Qed.

(** ** Histories *)

(** The life of one ledger file: what its handle is, the identities whose reservation was
    acknowledged, and the mixtures left in its header slots.  Any write or synchronisation may
    fail at any byte, and the process may stop and reopen the file at any time. *)
Inductive ledger_history (path : str) : DurableIdentityLedger → list Identity → list (N * str) → Prop :=
  | history_created io l disk :
      ledger_open io path None = (Ok l, disk) → ledger_history path l [] []
  | history_reserved io batch l acked mixed l' :
      ledger_history path l acked mixed → recs_wf batch →
      durable_reserve_batch io batch l = (Ok tt, l') → ledger_history path l' (acked ++ batch.*2) mixed
  | history_failed io batch l acked mixed e l' :
      ledger_history path l acked mixed → recs_wf batch →
      durable_reserve_batch io batch l = (Err e, l') → ledger_history path l' acked (mixed ++ mixtures batch l l')
  | history_reopened io l acked mixed l' disk :
      ledger_history path l acked mixed → ledger_open io path (Some (dl_file l)) = (Ok l', disk) →
      ledger_history path l' acked mixed
  | history_reopen_failed io l acked mixed e file :
      ledger_history path l acked mixed → ledger_open io path (Some (dl_file l)) = (Err e, Some file) →
      ledger_history path (dl_poison (dl_set_file file l)) acked mixed.

Definition ledger_inv (path : str) (recs : list (IdentityKind * Identity)) (l : DurableIdentityLedger) : Prop :=
  ledger_settled path recs l ∨ ledger_sealed recs l.

Lemma settled_initial path : ledger_settled path [] (handle path (ledger_header_v2 0 0 128) (ledger_header_v2 1 0 128) [] 0 0).
Proof.
  exists (ledger_header_v2 0 0 128), (ledger_header_v2 1 0 128), 0, 0. split; [|reflexivity].
  split; [lia|apply length_ledger_header_v2|apply length_ledger_header_v2|lia|done|done|by apply Forall_nil|constructor|done|..].
  - apply (parse_ledger_header_v2 0 0 0); lia || done.
  - unfold superseded. change (pick _ _ _) with (ledger_header_v2 1 0 (committed_bytes 0)).
    change (other_slot 0) with 1. rewrite (parse_ledger_header_v2 1 0 0) by (lia || done). by right.
  - by apply staged_nil.
Qed.

Lemma open_created_inv io path l disk : ledger_open io path None = (Ok l, disk) → ledger_settled path [] l.
Proof.
  unfold ledger_open. destruct (_ ← checked (oi_directory io); _) as [[]|]; [|done].
  destruct (open_created io path) as [r file] eqn:Ho. intros [= -> <-].
  pose proof (settled_initial path) as Hs. unfold open_created in Ho.
  destruct (validate_open_ledger _ _ [] _); [|done].
  destruct (oi_write io) as [[]|]; [done|]. destruct (oi_sync io) as [[]|]; [done|].
  unfold mbind, result_bind in Ho. repeat case_match; simplify_eq. exact Hs.
Qed.

Lemma open_inv io path recs l r disk :
  ledger_inv path recs l → ledger_open io path (Some (dl_file l)) = (r, Some disk) →
  match r with
  | Ok l' => ledger_settled path recs l'
  | Err _ => ledger_sealed recs (dl_poison (dl_set_file disk l))
  end.
Proof.
  intros Hinv Hopen.
  assert (∃ h0 h1 slot generation tail, disk_ok h0 h1 recs slot generation tail ∧ dl_file l = disk_file h0 h1 recs tail)
    as (h0 & h1 & slot & generation & tail & Hd & Hfile).
  { destruct Hinv as [(h0 & h1 & slot & generation & Hd & ->)|[_ H]]; [by exists h0, h1, slot, generation, []|done]. }
  unfold ledger_open in Hopen. rewrite Hfile in Hopen.
  destruct (_ ← checked (oi_directory io); _) as [[]|].
  - destruct (open_existing io path _) as [r' file'] eqn:Ho. simplify_eq.
    apply open_disk with (1 := Hd) in Ho. destruct r as [l'|e].
    + destruct Ho as (s & Hs & -> & _). by do 4 eexists.
    + destruct Ho as (tail' & Hd' & ->). split; [done|]. by exists h0, h1, slot, generation, tail'.
  - simplify_eq. split; [done|]. by exists h0, h1, slot, generation, tail.
Qed.

Lemma ledger_open_disk io path file : ∃ r disk, ledger_open io path (Some file) = (r, Some disk).
Proof.
  unfold ledger_open. destruct (_ ← checked (oi_directory io); _); [|eauto].
  destruct (open_existing io path file); eauto.
Qed.

(** Every acknowledged identity is committed, and no two acknowledgements share one. *)
Lemma history_inv path l acked mixed :
  ledger_history path l acked mixed → no_accident mixed →
  NoDup acked ∧ ∃ recs, ledger_inv path recs l ∧ acked ⊆ recs.*2.
Proof.
  induction 1 as [io l disk Ho|io batch l acked mixed l' _ IH Hwf Hr|io batch l acked mixed e l' _ IH Hwf Hr
    |io l acked mixed l' disk _ IH Ho|io l acked mixed e file _ IH Ho]; intros Hacc;
    try (apply Forall_app in Hacc as [Hacc Hlast]);
    try (destruct (IH Hacc) as [Hnd (recs & Hinv & Hsub)]; clear IH Hacc).
  - split; [constructor|]. exists []. split; [left; by eapply open_created_inv|done].
  - destruct Hinv as [Hs|Hs]; [|destruct (sealed_reserve io batch recs l Hs) as (e & He); rewrite He in Hr; simplify_eq].
    pose proof (durable_reserve_spec io path recs batch l Hs Hwf) as Hspec.
    apply wp_run with (1 := Hr) in Hspec as [Hs' Hnd']. rewrite fmap_app in *.
    apply NoDup_app in Hnd' as (_ & Hdisj & Hb). split.
    + apply NoDup_app. split_and!; [done| |done]. intros i Hi. apply Hdisj. by apply Hsub.
    + exists (recs ++ batch). split; [by left|]. rewrite fmap_app. set_solver.
  - split; [done|]. destruct Hinv as [Hs|Hs].
    + pose proof (durable_reserve_spec io path recs batch l Hs Hwf) as Hspec.
      apply wp_run with (1 := Hr) in Hspec as [->|Hspec]; [exists recs; split; [by left|done]|].
      destruct (Hspec Hlast) as [Hs'|Hs'].
      * exists recs. split; [by right|done].
      * exists (recs ++ batch). split; [by right|]. rewrite fmap_app. set_solver.
    + destruct (sealed_reserve io batch recs l Hs) as (e' & He). rewrite He in Hr. simplify_eq. exists recs. split; [by right|done].
  - split; [done|]. destruct (ledger_open_disk io path (dl_file l)) as (r & d & Hr). rewrite Hr in Ho. simplify_eq.
    exists recs. split; [left; by apply (open_inv io path recs l (Ok l') d)|done].
  - split; [done|]. exists recs. split; [right; by apply (open_inv io path recs l (Err e) file)|done].
Qed.

(** ** What a ledger promises to its client *)

(** A reservation that succeeds is of new, pairwise distinct identities, and they are issued
    from then on; one that fails takes nothing back. *)
Class IdentityLedgerLaws (L : Type) `{IdentityLedger L} := {
  ledger_issued : L → gset Identity;
  reserve_batch_spec ids l :
    wp (reserve_batch ids)
      (λ _ l', NoDup ids.*2 ∧ (∀ i, i ∈ ids.*2 → (i ∉ ledger_issued l) ∧ (i ∈ ledger_issued l')) ∧
         ledger_issued l ⊆ ledger_issued l')
      (λ _ l', ledger_issued l ⊆ ledger_issued l') l
}.

#[export, refine] Instance InMemory_laws : IdentityLedgerLaws InMemoryIdentityLedger := {|
  ledger_issued := iml_issued
|}.
Proof.
  intros ids l. unfold reserve_batch, InMemory_ledger. apply wp_bind, wp_query. unfold check_batch.
  destruct (check_pending _ _ ids) as [p|] eqn:Hp; cbn [mbind result_bind]; [|done].
  apply check_pending_ok in Hp as (_ & Hnd & Hf). apply wp_modify. cbn [iml_issued].
  split_and!; [done| |set_solver]. intros i Hi. destruct (Hf i Hi). split; [done|].
  apply elem_of_union_r, elem_of_list_to_set, Hi.
Qed.

(** Both formats issue the batch last, whatever the operating system answers. *)
Lemma reserve_formats_issue io pending new_records encoded l :
  let post := λ (_ : unit) l', dl_issued l' = dl_issued l ∪ pending in
  let failed := λ (_ : LedgerError) l', dl_issued l ⊆ dl_issued l' in
  wp (reserve_legacy io pending new_records encoded) post failed l ∧
  wp (reserve_redundant_v2 io pending new_records encoded) post failed l.
Proof.
  split.
  - apply wp_bind, wp_gets, wp_bind, wp_validate; [|done]. apply wp_bind, wp_seek; [|done].
    apply wp_bind, wp_write_and_sync; [|done]. apply wp_bind, wp_validate; [|done].
    apply wp_bind, wp_seek; [|done]. apply wp_bind, wp_write_and_sync; [|done].
    apply wp_bind, wp_get, wp_bind, wp_modify, wp_validate; [done|]. intros _. apply union_subseteq_l.
  - apply wp_bind, wp_gets, wp_bind, wp_validate; [|done]. apply wp_bind, wp_seek; [|done].
    apply wp_bind, wp_write_and_sync; [|done]. apply wp_bind, wp_validate; [|done].
    apply wp_bind, wp_or_poison. destruct (checked_add_u64 _ 1); cbn [ok_or]; [|done].
    apply wp_bind, wp_gets, wp_bind, wp_seek; [|done]. apply wp_bind, wp_write_and_sync; [|done].
    apply wp_bind, wp_modify, wp_validate; [done|]. intros _. apply union_subseteq_l.
Qed.

Lemma durable_reserve_issues io ids l :
  wp (durable_reserve_batch io ids)
    (λ _ l', NoDup ids.*2 ∧ (∀ i, i ∈ ids.*2 → (i ∉ dl_issued l) ∧ (i ∈ dl_issued l')) ∧ dl_issued l ⊆ dl_issued l')
    (λ _ l', dl_issued l ⊆ dl_issued l') l.
Proof.
  apply wp_bind, wp_get. destruct (dl_poisoned l); [by apply wp_fail|]. apply wp_bind, wp_query.
  destruct (check_pending _ _ ids) as [p|] eqn:Hp; [|done].
  apply check_pending_ok in Hp as (-> & Hnd & Hf). rewrite (left_id_L ∅ (∪)).
  cbv zeta. destruct (MAX_LEDGER_RECORDS <? _); [by apply wp_fail|]. case_bool_decide as Henc.
  - apply wp_ret. split_and!; [done| |done]. intros i Hi. destruct ids as [|[kind identity] ids]; [by apply not_elem_of_nil in Hi|discriminate].
  - assert (Hlift : ∀ l', dl_issued l' = dl_issued l ∪ list_to_set ids.*2 →
      NoDup ids.*2 ∧ (∀ i, i ∈ ids.*2 → (i ∉ dl_issued l) ∧ (i ∈ dl_issued l')) ∧ dl_issued l ⊆ dl_issued l').
    { intros l' ->. split_and!; [done| |apply union_subseteq_l]. intros i Hi. split; [by apply Hf|].
      apply elem_of_union_r, elem_of_list_to_set, Hi. }
    destruct (reserve_formats_issue io (list_to_set ids.*2)
      (N.min (dl_next_sequence l + N.of_nat (length ids)) (u64_limit - 1))
      (ledger_records (dl_next_sequence l) ids) l) as [H1 H2].
    destruct (dl_format l); (eapply wp_mono; [eassumption|auto|auto]).
Qed.

#[export, refine] Instance Durable_laws : IdentityLedgerLaws (DurableIdentityLedger * list ReserveIo) := {|
  ledger_issued l := dl_issued l.1
|}.
Proof.
  intros ids [l script]. unfold reserve_batch, Durable_ledger, wp.
  pose proof (durable_reserve_issues (default reserve_io_ok (head script)) ids l) as Hs. unfold wp in Hs.
  by destruct (durable_reserve_batch _ ids l) as [[]].
Qed.

(** ** Damaged records *)

Lemma insert_middle (s : str) i b : (i < length s)%nat →
  ∃ p a q, s = p ++ a :: q ∧ length p = i ∧ <[i:=b]> s = p ++ b :: q ∧ s !! i = Some a.
Proof.
  intros Hi. destruct (lookup_lt_is_Some_2 s i Hi) as [a Ha].
  exists (take i s), a, (drop (S i) s). split_and!; [by rewrite take_drop_middle|rewrite length_take; lia| |done].
  by rewrite insert_take_drop.
Qed.

Lemma checksum_insert (s : str) i b :
  (i < length s)%nat → s !! i ≠ Some b → ledger_checksum (<[i:=b]> s) ≠ ledger_checksum s.
Proof.
  intros Hi Hne Heq. destruct (insert_middle s i b Hi) as (p & a & q & -> & _ & Hins & Ha).
  rewrite Hins in Heq. apply checksum_detects in Heq. congruence.
Qed.

(** A record with one byte changed fails a check. *)
Lemma parse_damaged_record kind identity n i b offset (r := ledger_record kind identity n) :
  identity_wf identity = true → n < 2 ^ 64 → (i < 32)%nat → r !! i ≠ Some b →
  is_ok (parse_record (<[i:=b]> r) n offset) = false.
Proof.
  intros Hid Hn Hi Hne. pose proof (length_ledger_record kind identity n Hid) as Hlen. fold r in Hlen.
  destruct (record_fields kind identity n Hid Hn) as (_ & _ & _ & _ & _ & Hbody & Hsum). fold r in Hbody, Hsum.
  unfold parse_record. do 4 (case_match; [done|]). case_match; [|done].
  destruct (N.eqb_spec (ledger_checksum (take 28 (<[i:=b]> r))) (le_field 28 32 (<[i:=b]> r))) as [Heq|]; [|done].
  exfalso. destruct (Nat.lt_ge_cases i 28) as [Hlt|Hge].
  - rewrite take_insert_lt in Heq by lia.
    assert (le_field 28 32 (<[i:=b]> r) = le_field 28 32 r) as Hsame.
    { unfold le_field, field. by rewrite drop_insert_lt by lia. }
    rewrite Hsame, Hsum, <- Hbody in Heq. revert Heq. apply checksum_insert; [rewrite length_take; lia|].
    by rewrite lookup_take_lt by lia.
  - rewrite take_insert_ge, Hbody, <- Hsum in Heq by lia.
    unfold le_field in Heq. apply from_le_bytes_inj in Heq; [|unfold field; rewrite !length_take, !length_drop, length_insert; done].
    apply Hne. unfold field in Heq. apply (f_equal (lookup (i - 28)%nat)) in Heq.
    rewrite !lookup_take_lt, !lookup_drop in Heq by lia. replace (28 + (i - 28))%nat with i in Heq by lia.
    rewrite Heq. apply list_lookup_insert_eq. lia.
Qed.

Lemma parse_records_damaged pre bad rest count n offset issued :
  recs_wf pre → n + count_of pre < 2 ^ 64 → (length pre < count)%nat → length bad = 32%nat →
  (∀ o, is_ok (parse_record bad (n + count_of pre) o) = false) →
  is_ok (parse_records count (ledger_records n pre ++ bad ++ rest) n offset issued) = false.
Proof.
  intros Hwf. revert count n offset issued.
  induction Hwf as [|[kind identity] pre Hid Hwf IH]; intros count n offset issued Hn Hc Hbad Hbadp;
    (destruct count as [|count]; [cbn [length] in Hc; lia|]); cbn [ledger_records app parse_records].
  - rewrite take_app_length' by done. specialize (Hbadp offset). change (count_of []) with 0 in Hbadp.
    rewrite N.add_0_r in Hbadp. by destruct (parse_record bad n offset).
  - rewrite count_of_cons in Hn, Hbadp. rewrite <- (assoc_L (++)), take_record, drop_record by done.
    rewrite parse_ledger_record by (done || lia). cbn [mbind result_bind]. case_bool_decide; [done|].
    apply IH; [lia|cbn [length] in Hc; lia|done|]. intros o. replace (n + 1 + count_of pre) with (n + (count_of pre + 1)) by lia.
    apply Hbadp.
Qed.

Lemma parse_ledger_v2_records bytes p :
  parse_ledger_v2 bytes = Ok p →
  ∃ h, select_header (result_ok (parse_v2_header bytes 0)) (result_ok (parse_v2_header bytes 1)) = Some h ∧
    let records := field (N.to_nat LEDGER_V2_DATA_OFFSET) (N.to_nat (ph_data_length h)) bytes in
    is_ok (parse_records (length records / 32) records 0 LEDGER_V2_DATA_OFFSET ∅) = true.
Proof.
  unfold parse_ledger_v2. case_match; [done|]. destruct (select_header _ _) as [h|] eqn:Hsel; [|by repeat case_match].
  do 4 (case_match; [done|]). cbn zeta. unfold mbind, result_bind.
  destruct (parse_records _ _ _ _ _) eqn:Hp; [|done]. intros _. exists h. by rewrite Hp.
Qed.

Lemma open_parses io path file :
  is_ok (open_existing io path file).1 = true →
  len file <= MAX_LEDGER_BYTES ∧ is_ok (parse_existing (len file) file) = true.
Proof.
  unfold open_existing, validate_open_ledger at 1. destruct (oi_before io); [done|].
  destruct (N.ltb_spec MAX_LEDGER_BYTES (len file)); [done|]. cbn [mbind result_bind].
  destruct (oi_read io); [done|]. cbn [mbind result_bind]. unfold read_ledger.
  replace (len file <=? MAX_LEDGER_BYTES + 1) with true by (symmetry; apply N.leb_le; lia).
  rewrite N.eqb_refl. cbn [negb]. by destruct (parse_existing (len file) file) as [[]|].
Qed.

(** The record that holds a byte of the data area. *)
Lemma record_at recs i : recs_wf recs → (i < 32 * length recs)%nat →
  ∃ pre kind identity post j, recs = pre ++ (kind, identity) :: post ∧ (j < 32)%nat ∧ i = (32 * length pre + j)%nat.
Proof.
  intros Hwf. revert i. induction Hwf as [|[kind identity] recs Hid Hwf IH]; intros i Hi; cbn [length] in Hi; [lia|].
  destruct (Nat.lt_ge_cases i 32) as [Hlt|Hge].
  - by exists [], kind, identity, recs, i.
  - destruct (IH (i - 32)%nat) as (pre & kind' & identity' & post & j & -> & Hj & Hi'); [lia|].
    exists ((kind, identity) :: pre), kind', identity', post, j. split_and!; [done|done|]. cbn [length]. lia.
Qed.

(** The same, of the bytes: one record is damaged and nothing else moves. *)
Lemma damaged_records recs i b : recs_wf recs → (i < 32 * length recs)%nat →
  ledger_records 0 recs !! i ≠ Some b →
  ∃ pre kind identity post j, recs = pre ++ (kind, identity) :: post ∧ (j < 32)%nat ∧
    ledger_record kind identity (count_of pre) !! j ≠ Some b ∧
    <[i:=b]> (ledger_records 0 recs)
    = ledger_records 0 pre ++ <[j:=b]> (ledger_record kind identity (count_of pre))
      ++ ledger_records (count_of pre + 1) post.
Proof.
  intros Hwf Hi Hne. destruct (record_at recs i Hwf Hi) as (pre & kind & identity & post & j & -> & Hj & ->).
  apply Forall_app in Hwf as [Hpre Hrest]. apply Forall_cons in Hrest as [Hid Hpost]. cbn [snd] in Hid.
  pose proof (length_ledger_records 0 pre Hpre) as Hlp.
  pose proof (length_ledger_record kind identity (count_of pre) Hid) as Hlr.
  exists pre, kind, identity, post, j. rewrite ledger_records_app in *. cbn [ledger_records] in *.
  rewrite N.add_0_l in *. split_and!; [done|done| |].
  - intros Hb. apply Hne. rewrite lookup_app_r by lia. rewrite Hlp.
    replace (32 * length pre + j - 32 * length pre)%nat with j by lia. rewrite lookup_app_l by lia. done.
  - rewrite <- Hlp. rewrite insert_app_r, insert_app_l by lia. done.
Qed.

(** ** The properties *)

(** C8: the durable ledger never acknowledges an identity twice.  Whatever writes and
    synchronisations fail, at whatever byte, and however often the process stops and reopens
    the file: the acknowledged identities are pairwise distinct, every ledger that opens the
    file afterwards has all of them as issued, and a batch that repeats one of them is
    refused.  A commit header torn over an intact one is always detected by its checksum; the
    one assumption ([no_accident]) is on a slot torn again before it was repaired: the mixture
    left there, of three headers or more, does not happen to be a header whose CRC-32 fits. *)
Theorem acknowledged_identities_never_repeat path l acked mixed :
  ledger_history path l acked mixed → no_accident mixed →
  NoDup acked ∧
  (∀ io l' disk, ledger_open io path (Some (dl_file l)) = (Ok l', disk) → ∀ i, i ∈ acked → i ∈ dl_issued l') ∧
  (∀ io batch i, i ∈ acked → i ∈ batch.*2 → is_ok (durable_reserve_batch io batch l).1 = false).
Proof.
  intros Hh Hacc. destruct (history_inv _ _ _ _ Hh Hacc) as (Hnd & recs & Hinv & Hsub). split_and!; [done|..].
  - intros io l' disk Ho i Hi. destruct (ledger_open_disk io path (dl_file l)) as (r & d & Hr).
    rewrite Hr in Ho. simplify_eq. apply (open_inv io path recs l (Ok l') d) in Hr; [|done].
    destruct Hr as (h0 & h1 & slot & generation & Hd & ->). apply elem_of_list_to_set. by apply Hsub.
  - intros io batch i Hi Hb. destruct Hinv as [(h0 & h1 & slot & generation & Hd & ->)|Hs].
    + assert (Hdup : is_ok (check_pending (list_to_set recs.*2) ∅ batch) = false).
      { apply (check_pending_issued _ _ _ i); [done|]. apply elem_of_list_to_set. by apply Hsub. }
      unfold durable_reserve_batch, mbind, ST_bind, st_get, st_query. cbn [dl_poisoned handle dl_issued].
      by destruct (check_pending _ _ _).
    + by destruct (sealed_reserve io batch recs l Hs) as (e & ->).
Qed.

(** C22: recovery: once one reservation was acknowledged, a reopening by an obliging operating
    system always succeeds, whatever the interrupted reservations left in the file; the ledger
    it returns is usable and has every acknowledged identity as issued.  A header torn over an
    intact one is always detected; assumed ([no_accident]) is only that a slot torn again before
    it was repaired does not happen to hold a header whose CRC-32 fits. *)
Theorem acknowledged_ledger_reopens path l acked mixed :
  ledger_history path l acked mixed → no_accident mixed → acked ≠ [] →
  ∃ l', ledger_open open_io_ok path (Some (dl_file l)) = (Ok l', Some (dl_file l')) ∧
    dl_poisoned l' = false ∧ ∀ i, i ∈ acked → i ∈ dl_issued l'.
Proof.
  intros Hh Hacc Hne. destruct (history_inv _ _ _ _ Hh Hacc) as (_ & recs & Hinv & Hsub).
  assert (∃ h0 h1 slot generation tail, disk_ok h0 h1 recs slot generation tail ∧ dl_file l = disk_file h0 h1 recs tail)
    as (h0 & h1 & slot & generation & tail & Hd & Hfile).
  { destruct Hinv as [(h0 & h1 & slot & generation & Hd & ->)|[_ H]]; [by exists h0, h1, slot, generation, []|done]. }
  assert (Hgen : generation ≠ 0).
  { intros ->. destruct Hd. rewrite do_initial0 in Hsub by done. apply Hne. by apply list_nil_subseteq. }
  destruct (open_disk_ok path h0 h1 recs slot generation tail Hd Hgen) as (s & Hs & Hopen).
  exists (handle path h0 h1 recs s generation). split_and!; [|done|].
  - unfold ledger_open. cbn [oi_directory oi_lock oi_open open_io_ok checked mbind result_bind]. by rewrite Hfile, Hopen.
  - intros i Hi. apply elem_of_list_to_set. by apply Hsub.
Qed.

(** C24: a committed record cannot be damaged unnoticed: when one byte of the record area of a
    healthy ledger's file is changed, the file does not open again (its history satisfies
    [no_accident], the assumption on header slots torn twice). *)
Theorem damaged_record_never_opens path l acked mixed io (i : nat) (b : byte) :
  ledger_history path l acked mixed → no_accident mixed → dl_poisoned l = false →
  (128 <= i < length (dl_file l))%nat → dl_file l !! i ≠ Some b →
  is_ok (ledger_open io path (Some (<[i:=b]> (dl_file l)))).1 = false.
Proof.
  intros Hh Hacc Hp Hi Hne. destruct (history_inv _ _ _ _ Hh Hacc) as (_ & recs & Hinv & _). clear Hh Hacc.
  destruct Hinv as [(h0 & h1 & slot & generation & Hd & ->)|[? _]]; [|congruence].
  cbn [dl_file handle] in *. unfold disk_file in *. rewrite app_nil_r in *.
  pose proof Hd as [Hslot H0 H1 _ _ _ Hwf _ Hcount Ha _ _].
  rewrite !length_app, H0, H1, length_ledger_records in Hi by done.
  destruct (damaged_records recs (i - 128) b) as (pre & kind & identity & post & j & Hrecs & Hj & Hrne & Hins);
    [done|lia| |].
  { intros Hb. apply Hne. rewrite !lookup_app_r, H0, H1 by lia. by replace (i - 64 - 64)%nat with (i - 128)%nat by lia. }
  assert (<[i:=b]> (h0 ++ h1 ++ ledger_records 0 recs) = h0 ++ h1 ++ <[(i - 128)%nat:=b]> (ledger_records 0 recs)) as ->.
  { replace i with (length h0 + (length h1 + (i - 128)))%nat at 1 by lia. by rewrite !insert_app_r. }
  unfold ledger_open. destruct (_ ← checked (oi_directory io); _); [|done].
  destruct (open_existing io path _) as [r file'] eqn:Ho. cbn [fst].
  destruct r as [l'|]; [exfalso|done]. pose proof (open_parses io path (h0 ++ h1 ++ <[(i - 128)%nat:=b]> (ledger_records 0 recs))) as Hpar.
  rewrite Ho in Hpar. destruct (Hpar eq_refl) as [_ Hok]. clear Hpar Ho.
  unfold parse_existing in Hok. rewrite (is_v2_slots h0 h1 slot _ _ H0 H1 Hslot Ha) in Hok.
  destruct (parse_ledger_v2 _) as [p|] eqn:Hparse; [|done].
  apply parse_ledger_v2_records in Hparse as (h & Hsel & Hrecords).
  rewrite !parse_slot in Hsel by (done || lia).
  destruct (select_disk _ _ _ _ _ _ Hd) as (_ & _ & s & _ & Hsel'). unfold pick in Hsel. cbn in Hsel.
  change (1 =? 0) with false in Hsel. cbn iota in Hsel. rewrite Hsel' in Hsel. simplify_eq.
  cbn [ph_data_length header_of] in Hrecords. cbn zeta in Hrecords.
  rewrite (assoc_L (++)), field_tail in Hrecords.
  - revert Hrecords. rewrite length_insert, length_ledger_records, Nat.mul_comm, Nat.div_mul by done.
    apply not_true_iff_false. rewrite Hins. apply Forall_app in Hwf as [Hpre Hrest].
    apply Forall_cons in Hrest as [Hid Hpost]. cbn [snd] in Hid.
    rewrite count_of_app, count_of_cons in Hcount. unfold MAX_LEDGER_RECORDS in Hcount.
    apply parse_records_damaged; [done|lia|rewrite length_app; cbn [length]; lia| |].
    + by rewrite length_insert, length_ledger_record.
    + intros o. rewrite N.add_0_l. apply parse_damaged_record; [done|lia|done|done].
  - rewrite length_app, H0, H1. done.
  - rewrite length_insert, length_ledger_records by done. unfold committed_bytes, count_of.
    change LEDGER_V2_DATA_OFFSET with 128. change LEDGER_RECORD_BYTES with 32. lia.
Qed.

(** ** Concrete runs *)

Definition demo_identity (n : N) : Identity := be_bytes 16 n.

Definition demo_batch (n : N) : list (IdentityKind * Identity) :=
  [(Kind_Session, demo_identity n); (Kind_Vm, demo_identity (n + 1))].

(** The operating system stops after [n] bytes of the commit header. *)
Definition torn_header_io (n : nat) : ReserveIo :=
  {| ri_before := None; ri_seek_records := None; ri_write_records := None; ri_sync_records := None;
     ri_middle := None; ri_seek_header := None; ri_write_header := Some (n, lit "power lost");
     ri_sync_header := None; ri_after := None |}.

Definition open_result (r : result LedgerError DurableIdentityLedger * option str) : DurableIdentityLedger :=
  match r.1 with
  | Ok l => l
  | Err _ => handle [] [] [] [] 0 0
  end.

Definition demo_path : str := lit "/var/lib/airlock/ledger".

Abbreviation demo_created := (open_result (ledger_open open_io_ok demo_path None)).
Abbreviation demo_first := ((durable_reserve_batch reserve_io_ok (demo_batch 1) demo_created).2).
Abbreviation demo_torn := ((durable_reserve_batch (torn_header_io 20) (demo_batch 3) demo_first).2).
Abbreviation demo_second := ((durable_reserve_batch reserve_io_ok (demo_batch 3) demo_first).2).

(** The torn file is reopened, and the next header of the same slot is torn as well. *)
Abbreviation demo_reopened := (open_result (ledger_open open_io_ok demo_path (Some (dl_file demo_torn)))).
Abbreviation demo_torn_twice := ((durable_reserve_batch (torn_header_io 40) (demo_batch 5) demo_reopened).2).
Abbreviation demo_mixed := (mixtures (demo_batch 5) demo_reopened demo_torn_twice).

Lemma run_ok {A} (r : result LedgerError unit * A) : r.1 = Ok tt → r = (Ok tt, r.2).
Proof. destruct r. by intros [= ->]. Qed.

Lemma run_err {A B} (r : result LedgerError B * A) e : r.1 = Err e → r = (Err e, r.2).
Proof. destruct r. by intros [= ->]. Qed.

Lemma demo_batch_wf n : recs_wf (demo_batch n).
Proof. repeat constructor; unfold identity_wf, len; cbn [snd]; unfold demo_identity; by rewrite length_be_bytes. Qed.

Lemma demo_first_history : ledger_history demo_path demo_first (demo_batch 1).*2 [].
Proof.
  apply (history_reserved _ reserve_io_ok (demo_batch 1) demo_created [] [] demo_first).
  - apply (history_created _ open_io_ok demo_created (Some initial_ledger)). vm_compute. reflexivity.
  - apply demo_batch_wf.
  - apply run_ok. vm_compute. reflexivity.
Qed.

Lemma demo_torn_history : ledger_history demo_path demo_torn_twice (demo_batch 1).*2 demo_mixed.
Proof.
  change demo_mixed with ([] ++ demo_mixed).
  apply (history_failed _ (torn_header_io 40) (demo_batch 5) demo_reopened _ []
    (Ledger_WriteFailed demo_path (lit "power lost"))); [|apply demo_batch_wf|apply run_err; vm_compute; reflexivity].
  apply (history_reopened _ open_io_ok demo_torn _ _ demo_reopened (Some (dl_file demo_reopened)));
    [|vm_compute; reflexivity].
  assert (Hm : [] = [] ++ mixtures (demo_batch 3) demo_first demo_torn) by (vm_compute; reflexivity). rewrite Hm.
  apply (history_failed _ (torn_header_io 20) (demo_batch 3) demo_first _ _ (Ledger_WriteFailed demo_path (lit "power lost")));
    [apply demo_first_history|apply demo_batch_wf|apply run_err; vm_compute; reflexivity].
Qed.

(** The slot was torn twice, and its mixture is not a header. *)
Lemma demo_no_accident : length demo_mixed = 1%nat ∧ no_accident demo_mixed.
Proof.
  assert (Hb : (length demo_mixed =? 1)%nat && forallb (λ m, negb (whole_header m.1 m.2)) demo_mixed = true)
    by (vm_compute; reflexivity).
  apply andb_true_iff in Hb as [Hl Hb]. split; [by apply Nat.eqb_eq in Hl|].
  apply Forall_forall. intros m Hm%list_elem_of_In. rewrite forallb_forall in Hb. by apply negb_true_iff, Hb.
Qed.

Lemma acknowledged_identities_never_repeat_witness :
  is_ok (durable_reserve_batch reserve_io_ok (demo_batch 2) demo_torn_twice).1 = false.
Proof.
  refine (proj2 (proj2 (acknowledged_identities_never_repeat demo_path demo_torn_twice _ _ demo_torn_history
            (proj2 demo_no_accident))) reserve_io_ok (demo_batch 2) (demo_identity 2) _ _).
  - right. left.
  - left.
Defined.

Lemma acknowledged_ledger_reopens_witness :
  ∃ l', ledger_open open_io_ok demo_path (Some (dl_file demo_torn_twice)) = (Ok l', Some (dl_file l')) ∧
    dl_poisoned l' = false ∧ ∀ i, i ∈ (demo_batch 1).*2 → i ∈ dl_issued l'.
Proof.
  apply (acknowledged_ledger_reopens demo_path demo_torn_twice _ _ demo_torn_history (proj2 demo_no_accident)). done.
Defined.

Lemma damaged_record_never_opens_witness :
  is_ok (ledger_open open_io_ok demo_path (Some (<[150%nat:=xff]> (dl_file demo_first)))).1 = false.
Proof.
  apply (damaged_record_never_opens demo_path demo_first _ _ open_io_ok 150 xff demo_first_history).
  - apply Forall_nil_2.
  - vm_compute. reflexivity.
  - vm_compute. lia.
  - vm_compute. discriminate.
Defined.

(** A crash while the first commit header is written leaves a ledger that no longer opens:
    the intact header is of generation zero, which needs both copies. *)
Theorem torn_first_commit_is_fatal :
  (ledger_open open_io_ok demo_path
     (Some (dl_file (durable_reserve_batch (torn_header_io 20) (demo_batch 1) demo_created).2))).1
  = Err (ledger_corrupt 0 "initial v2 commit is missing one redundant header").
Proof. vm_compute. reflexivity. Qed.

(** One damaged byte in the newest commit header rolls the ledger back: the file opens on the
    previous generation, the last acknowledged batch is cut off as a staged tail, and its
    identities are issued again. *)
Theorem damaged_header_reissues (l := open_result (ledger_open open_io_ok demo_path (Some (<[20%nat:=xff]> (dl_file demo_second))))) :
  (durable_reserve_batch reserve_io_ok (demo_batch 3) demo_first).1 = Ok tt ∧
  is_ok (ledger_open open_io_ok demo_path (Some (<[20%nat:=xff]> (dl_file demo_second)))).1 = true ∧
  (durable_reserve_batch reserve_io_ok (demo_batch 3) l).1 = Ok tt.
Proof. split_and!; vm_compute; reflexivity. Qed.
