(* ===== verification/Orchestrator.v ===== *)
(** * The session orchestrator

    [session-orchestrator/src/lib.rs]: identity allocation, the startup of one session through
    five backends with rollback at every stage, and the retryable stop.  The backends are
    traits of the source, so they are a class here: each operation is a state-passing function
    of a world the orchestrator knows nothing about.  The 128-bit identities of the different
    domains are all [Identity]; which one a lease carries is its field. *)

From S2P Require Import Prelude Bytes IdentityLedger.

(** ** Identities and leases *)

Record SnapshotIdentity := { sid_kind : IdentityKind; sid_bytes : Identity }.

Record SnapshotDescriptor := {
  sd_snapshot_id : Identity;
  sd_inherited_ids : list SnapshotIdentity
}.

Definition SnapshotDescriptor_clean (snapshot_id : Identity) : SnapshotDescriptor :=
  {| sd_snapshot_id := snapshot_id; sd_inherited_ids := [] |}.

Record SessionIdentity := {
  si_session_id : Identity;
  si_request_id : Identity;
  si_vm_id : Identity;
  si_subject_id : Identity;
  si_workspace_id : Identity;
  si_broker_session_id : Identity;
  si_capability_id : Identity
}.

Record WorkspaceLease := { wl_session_id : Identity; wl_workspace_id : Identity }.

Record BrokerLease := { bl_session_id : Identity; bl_broker_session_id : Identity }.

Record VmLease := {
  vl_session_id : Identity;
  vl_vm_id : Identity;
  vl_workspace_id : Identity;
  vl_broker_session_id : Identity
}.

Record CapabilityLease := {
  cl_session_id : Identity;
  cl_subject_id : Identity;
  cl_capability_id : Identity;
  cl_policy_digest : option str
}.

Record WorkloadLease := {
  wkl_session_id : Identity;
  wkl_vm_id : Identity;
  wkl_subject_id : Identity;
  wkl_capability_id : Identity
}.

#[export] Instance SessionIdentity_eq_dec : EqDecision SessionIdentity.
Proof. solve_decision. Defined.
#[export] Instance WorkspaceLease_eq_dec : EqDecision WorkspaceLease.
Proof. solve_decision. Defined.
#[export] Instance BrokerLease_eq_dec : EqDecision BrokerLease.
Proof. solve_decision. Defined.
#[export] Instance VmLease_eq_dec : EqDecision VmLease.
Proof. solve_decision. Defined.
#[export] Instance CapabilityLease_eq_dec : EqDecision CapabilityLease.
Proof. solve_decision. Defined.
#[export] Instance WorkloadLease_eq_dec : EqDecision WorkloadLease.
Proof. solve_decision. Defined.

(** The operator-facing messages. *)
Definition BackendError : Type := str.
Definition EntropyError : Type := str.

(** ** Lifecycle states, stages and errors *)

Inductive LifecycleState :=
  | State_Ready
  | State_WorkspaceCloned
  | State_BrokerEstablished
  | State_VmStarted
  | State_RootCapabilityInjected
  | State_WorkloadReleased
  | State_Running
  | State_Stopping
  | State_Closed.

#[export] Instance LifecycleState_eq_dec : EqDecision LifecycleState.
Proof. solve_decision. Defined.

Inductive StartStage :=
  | Stage_SnapshotRestore
  | Stage_IdentityAllocation
  | Stage_WorkspaceClone
  | Stage_BrokerEstablishment
  | Stage_VmStart
  | Stage_RootCapabilityInjection
  | Stage_WorkloadRelease.

Inductive CleanupStage :=
  | Cleanup_CapabilityRevoke
  | Cleanup_VmKill
  | Cleanup_BrokerClose
  | Cleanup_WorkspaceIsolation.

Inductive ResourceKind :=
  | Resource_Workspace
  | Resource_Broker
  | Resource_Vm
  | Resource_Capability
  | Resource_Workload.

Inductive StartFailure :=
  | Start_InvalidState (state : LifecycleState)
  | Start_SnapshotContainsSessionIdentity (snapshot : Identity) (kind : IdentityKind)
  | Start_Entropy (error : EntropyError)
  | Start_Ledger (error : LedgerError)
  | Start_IdentityReused (kind : IdentityKind)
  | Start_Backend (error : BackendError)
  | Start_CrossSessionLease (resource : ResourceKind) (expected received : Identity)
  | Start_LeaseIdentityMismatch (resource : ResourceKind).

Record CleanupFailure := { cf_stage : CleanupStage; cf_error : BackendError }.

Record StartError := {
  se_stage : StartStage;
  se_failure : StartFailure;
  se_rollback_failures : list CleanupFailure
}.

Definition StartError_new (stage : StartStage) (failure : StartFailure) : StartError :=
  {| se_stage := stage; se_failure := failure; se_rollback_failures := [] |}.

Definition StartError_with_rollback (stage : StartStage) (failure : StartFailure)
    (rollback_failures : list CleanupFailure) : StartError :=
  {| se_stage := stage; se_failure := failure; se_rollback_failures := rollback_failures |}.

Inductive StopError :=
  | Stop_InvalidState (state : LifecycleState)
  | Stop_Cleanup (failures : list CleanupFailure).

(** ** The backends *)

Class CryptographicRandom (R : Type) : Type := random_128 : ST R EntropyError Identity.

(** The traits [WorkspaceBackend], [BrokerBackend], [VmBackend], [CapabilityBackend] and
    [WorkloadBackend], over one world: the source passes five objects, which may share state. *)
Class SessionBackends (W G : Type) : Type := {
  clone_workspace : SessionIdentity → str → ST W BackendError WorkspaceLease;
  isolate_workspace : WorkspaceLease → ST W BackendError unit;
  establish_broker_session : SessionIdentity → ST W BackendError BrokerLease;
  ensure_broker_session_running : BrokerLease → ST W BackendError unit;
  close_broker_session : BrokerLease → ST W BackendError unit;
  start_vm : SnapshotDescriptor → SessionIdentity → WorkspaceLease → BrokerLease → ST W BackendError VmLease;
  cleanup_failed_start : ST W BackendError unit;
  kill_vm : VmLease → ST W BackendError unit;
  revoke_root_capability : CapabilityLease → ST W BackendError unit;
  inject_root_capability : SessionIdentity → G → ST W BackendError CapabilityLease;
  release_workload : SessionIdentity → VmLease → CapabilityLease → ST W BackendError WorkloadLease
}.

(** ** The active session *)

Record CleanupProgress := {
  cp_capability_revoked : bool;
  cp_vm_killed : bool;
  cp_broker_closed : bool;
  cp_workspace_isolated : bool
}.

Record ActiveSession := {
  as_info : SessionIdentity;
  as_workspace : WorkspaceLease;
  as_broker : option BrokerLease;
  as_vm : option VmLease;
  as_vm_start_attempted : bool;
  as_capability : option CapabilityLease;
  as_cleanup : CleanupProgress
}.

Definition is_none {A} (o : option A) : bool := match o with None => true | Some _ => false end.

Definition ActiveSession_pending (info : SessionIdentity) (workspace : WorkspaceLease) (broker : option BrokerLease)
    (vm : option VmLease) (capability : option CapabilityLease) : ActiveSession :=
  {| as_info := info; as_workspace := workspace; as_broker := broker; as_vm := vm;
     as_vm_start_attempted := negb (is_none vm); as_capability := capability;
     as_cleanup := {| cp_capability_revoked := is_none capability; cp_vm_killed := is_none vm;
                      cp_broker_closed := is_none broker; cp_workspace_isolated := false |} |}.

Definition cleanup_complete (self : ActiveSession) : bool :=
  cp_capability_revoked (as_cleanup self) && cp_vm_killed (as_cleanup self)
  && cp_broker_closed (as_cleanup self) && cp_workspace_isolated (as_cleanup self).

Definition set_cleanup (f : CleanupProgress → CleanupProgress) (a : ActiveSession) : ActiveSession :=
  {| as_info := as_info a; as_workspace := as_workspace a; as_broker := as_broker a; as_vm := as_vm a;
     as_vm_start_attempted := as_vm_start_attempted a; as_capability := as_capability a;
     as_cleanup := f (as_cleanup a) |}.

Definition set_capability_revoked (b : bool) : ActiveSession → ActiveSession := set_cleanup (λ c,
  {| cp_capability_revoked := b; cp_vm_killed := cp_vm_killed c;
     cp_broker_closed := cp_broker_closed c; cp_workspace_isolated := cp_workspace_isolated c |}).

Definition set_vm_killed (b : bool) : ActiveSession → ActiveSession := set_cleanup (λ c,
  {| cp_capability_revoked := cp_capability_revoked c; cp_vm_killed := b;
     cp_broker_closed := cp_broker_closed c; cp_workspace_isolated := cp_workspace_isolated c |}).

Definition set_broker_closed (b : bool) : ActiveSession → ActiveSession := set_cleanup (λ c,
  {| cp_capability_revoked := cp_capability_revoked c; cp_vm_killed := cp_vm_killed c;
     cp_broker_closed := b; cp_workspace_isolated := cp_workspace_isolated c |}).

Definition set_workspace_isolated (b : bool) : ActiveSession → ActiveSession := set_cleanup (λ c,
  {| cp_capability_revoked := cp_capability_revoked c; cp_vm_killed := cp_vm_killed c;
     cp_broker_closed := cp_broker_closed c; cp_workspace_isolated := b |}).

(** [active.broker = Some(lease)] with [broker_closed = false]. *)
Definition with_broker (lease : BrokerLease) (a : ActiveSession) : ActiveSession :=
  set_broker_closed false
    {| as_info := as_info a; as_workspace := as_workspace a; as_broker := Some lease; as_vm := as_vm a;
       as_vm_start_attempted := as_vm_start_attempted a; as_capability := as_capability a;
       as_cleanup := as_cleanup a |}.

(** [active.vm_start_attempted = true] with [vm_killed = false]. *)
Definition with_vm_attempt (a : ActiveSession) : ActiveSession :=
  set_vm_killed false
    {| as_info := as_info a; as_workspace := as_workspace a; as_broker := as_broker a; as_vm := as_vm a;
       as_vm_start_attempted := true; as_capability := as_capability a; as_cleanup := as_cleanup a |}.

Definition with_vm (lease : VmLease) (a : ActiveSession) : ActiveSession :=
  {| as_info := as_info a; as_workspace := as_workspace a; as_broker := as_broker a; as_vm := Some lease;
     as_vm_start_attempted := as_vm_start_attempted a; as_capability := as_capability a;
     as_cleanup := as_cleanup a |}.

(** [active.capability = Some(lease)] with [capability_revoked = false]. *)
Definition with_capability (lease : CapabilityLease) (a : ActiveSession) : ActiveSession :=
  set_capability_revoked false
    {| as_info := as_info a; as_workspace := as_workspace a; as_broker := as_broker a; as_vm := as_vm a;
       as_vm_start_attempted := as_vm_start_attempted a; as_capability := Some lease;
       as_cleanup := as_cleanup a |}.

(** ** Lease validation *)

Definition validate_workspace (identity : SessionIdentity) (lease : WorkspaceLease) : option StartFailure :=
  if negb (bool_decide (wl_session_id lease = si_session_id identity))
  then Some (Start_CrossSessionLease Resource_Workspace (si_session_id identity) (wl_session_id lease))
  else if negb (bool_decide (wl_workspace_id lease = si_workspace_id identity))
  then Some (Start_LeaseIdentityMismatch Resource_Workspace)
  else None.

Definition validate_broker (identity : SessionIdentity) (lease : BrokerLease) : option StartFailure :=
  if negb (bool_decide (bl_session_id lease = si_session_id identity))
  then Some (Start_CrossSessionLease Resource_Broker (si_session_id identity) (bl_session_id lease))
  else if negb (bool_decide (bl_broker_session_id lease = si_broker_session_id identity))
  then Some (Start_LeaseIdentityMismatch Resource_Broker)
  else None.

Definition validate_vm (identity : SessionIdentity) (lease : VmLease) : option StartFailure :=
  if negb (bool_decide (vl_session_id lease = si_session_id identity))
  then Some (Start_CrossSessionLease Resource_Vm (si_session_id identity) (vl_session_id lease))
  else if negb (bool_decide (vl_vm_id lease = si_vm_id identity))
          || negb (bool_decide (vl_workspace_id lease = si_workspace_id identity))
          || negb (bool_decide (vl_broker_session_id lease = si_broker_session_id identity))
  then Some (Start_LeaseIdentityMismatch Resource_Vm)
  else None.

Definition validate_capability (identity : SessionIdentity) (lease : CapabilityLease) : option StartFailure :=
  if negb (bool_decide (cl_session_id lease = si_session_id identity))
  then Some (Start_CrossSessionLease Resource_Capability (si_session_id identity) (cl_session_id lease))
  else if negb (bool_decide (cl_subject_id lease = si_subject_id identity))
          || negb (bool_decide (cl_capability_id lease = si_capability_id identity))
  then Some (Start_LeaseIdentityMismatch Resource_Capability)
  else None.

Definition validate_workload (identity : SessionIdentity) (lease : WorkloadLease) : option StartFailure :=
  if negb (bool_decide (wkl_session_id lease = si_session_id identity))
  then Some (Start_CrossSessionLease Resource_Workload (si_session_id identity) (wkl_session_id lease))
  else if negb (bool_decide (wkl_vm_id lease = si_vm_id identity))
          || negb (bool_decide (wkl_subject_id lease = si_subject_id identity))
          || negb (bool_decide (wkl_capability_id lease = si_capability_id identity))
  then Some (Start_LeaseIdentityMismatch Resource_Workload)
  else None.

(** ** Cleanup *)

Section orchestrator.
  Context {W G : Type} `{SessionBackends W G}.

(** The failures, the session and the world that [cleanup_active] carries along. *)
Definition Cleaning : Type := list CleanupFailure * ActiveSession * W.

Definition push_failure (stage : CleanupStage) (error : BackendError) (failures : list CleanupFailure)
    : list CleanupFailure := failures ++ [{| cf_stage := stage; cf_error := error |}].

(** One call of a stage: its flag on success, its failure otherwise. *)
Definition cleanup_call (stage : CleanupStage) (call : ST W BackendError unit)
    (done : ActiveSession → ActiveSession) : Cleaning → Cleaning := λ '(failures, active, w),
  match call w with
  | (Ok _, w) => (failures, done active, w)
  | (Err error, w) => (push_failure stage error failures, active, w)
  end.

Definition cleanup_capability : Cleaning → Cleaning := λ '(failures, active, w),
  if cp_capability_revoked (as_cleanup active) then (failures, active, w)
  else
    match as_capability active with
    | Some capability =>
        cleanup_call Cleanup_CapabilityRevoke (revoke_root_capability capability) (set_capability_revoked true)
          (failures, active, w)
    | None =>
        (push_failure Cleanup_CapabilityRevoke
           (lit "cleanup invariant failed: capability revocation is pending without a lease") failures, active, w)
    end.

Definition cleanup_vm : Cleaning → Cleaning := λ '(failures, active, w),
  if cp_vm_killed (as_cleanup active) then (failures, active, w)
  else
    match as_vm active with
    | Some vm => cleanup_call Cleanup_VmKill (kill_vm vm) (set_vm_killed true) (failures, active, w)
    | None =>
        if as_vm_start_attempted active
        then cleanup_call Cleanup_VmKill cleanup_failed_start (set_vm_killed true) (failures, active, w)
        else
          (push_failure Cleanup_VmKill
             (lit "cleanup invariant failed: VM cleanup is pending without a lease or start attempt") failures,
           active, w)
    end.

Definition cleanup_broker : Cleaning → Cleaning := λ '(failures, active, w),
  if cp_broker_closed (as_cleanup active) then (failures, active, w)
  else
    match as_broker active with
    | Some broker =>
        cleanup_call Cleanup_BrokerClose (close_broker_session broker) (set_broker_closed true)
          (failures, active, w)
    | None =>
        (push_failure Cleanup_BrokerClose
           (lit "cleanup invariant failed: Broker close is pending without a lease") failures, active, w)
    end.

Definition cleanup_workspace : Cleaning → Cleaning := λ '(failures, active, w),
  if cp_vm_killed (as_cleanup active) && cp_broker_closed (as_cleanup active)
     && negb (cp_workspace_isolated (as_cleanup active))
  then cleanup_call Cleanup_WorkspaceIsolation (isolate_workspace (as_workspace active)) (set_workspace_isolated true)
         (failures, active, w)
  else (failures, active, w).

Definition cleanup_active (active : ActiveSession) (w : W) : Cleaning :=
  cleanup_workspace (cleanup_broker (cleanup_vm (cleanup_capability ([], active, w)))).

(** ** The orchestrator *)

  Context {R L : Type} `{CryptographicRandom R} `{IdentityLedger L}.

Record SessionOrchestrator := {
  so_random : R;
  so_ledger : L;
  so_state : LifecycleState;
  so_active : option ActiveSession
}.

Definition with_ledger (random : R) (ledger : L) : SessionOrchestrator :=
  {| so_random := random; so_ledger := ledger; so_state := State_Ready; so_active := None |}.

Definition active_session (self : SessionOrchestrator) : option SessionIdentity :=
  if bool_decide (so_state self = State_Running) then as_info <$> so_active self else None.

Definition active_broker_lease (self : SessionOrchestrator) : option BrokerLease :=
  active ← so_active self; as_broker active.

Definition so_set (state : LifecycleState) (active : option ActiveSession) (self : SessionOrchestrator)
    : SessionOrchestrator :=
  {| so_random := so_random self; so_ledger := so_ledger self; so_state := state; so_active := active |}.

Definition finish_failed_start (active : ActiveSession) (rollback_failures : list CleanupFailure)
    (self : SessionOrchestrator) : SessionOrchestrator :=
  if bool_decide (length rollback_failures = 0) then so_set State_Ready None self
  else so_set State_Stopping (Some active) self.

(** *** Identity allocation *)

Definition MAX_ZERO_IDENTITY_RETRIES : nat := 8.

Definition ZERO_IDENTITY : Identity := zeros 16.

Definition IM (A : Type) : Type := ST SessionOrchestrator StartFailure A.

(** [self.random.random_128().map_err(StartFailure::Entropy)?]. *)
Definition draw_random : IM Identity := λ self,
  match random_128 (so_random self) with
  | (r, random) =>
      (map_err Start_Entropy r,
       {| so_random := random; so_ledger := so_ledger self; so_state := so_state self; so_active := so_active self |})
  end.

Definition kind_name (kind : IdentityKind) : string :=
  match kind with
  | Kind_Vm => "VM"
  | Kind_Session => "session"
  | Kind_Subject => "subject"
  | Kind_Workspace => "workspace"
  | Kind_Capability => "capability"
  | Kind_Request => "request"
  | Kind_BrokerSession => "Broker session"
  end.

(** The loop [for attempt in 0..=MAX_ZERO_IDENTITY_RETRIES]: [retries] more attempts may
    follow this one. *)
Fixpoint draw_nonzero (retries : nat) (kind : IdentityKind) : IM Identity :=
  bytes ← draw_random;
  if negb (bool_decide (bytes = ZERO_IDENTITY)) then mret bytes
  else
    match retries with
    | O => st_fail (Start_Entropy (lit "identity source returned an all-zero " ++ lit (kind_name kind)
                                   ++ lit " value after 8 retries"))
    | S retries => draw_nonzero retries kind
    end.

Fixpoint draw_identities (kinds : list IdentityKind) : IM (list (IdentityKind * Identity)) :=
  match kinds with
  | [] => mret []
  | kind :: kinds =>
      bytes ← draw_nonzero MAX_ZERO_IDENTITY_RETRIES kind;
      rest ← draw_identities kinds;
      mret ((kind, bytes) :: rest)
  end.

(** [self.ledger.reserve_batch], with its errors sorted. *)
Definition reserve_identities (identities : list (IdentityKind * Identity)) : IM unit := λ self,
  match reserve_batch identities (so_ledger self) with
  | (r, ledger) =>
      (map_err (λ error, match error with
                         | Ledger_Duplicate kind _ => Start_IdentityReused kind
                         | error => Start_Ledger error
                         end) r,
       {| so_random := so_random self; so_ledger := ledger; so_state := so_state self; so_active := so_active self |})
  end.

Definition session_kinds : list IdentityKind :=
  [Kind_Session; Kind_Request; Kind_Vm; Kind_Subject; Kind_Workspace; Kind_Capability; Kind_BrokerSession].

Definition allocate_session_identity : IM SessionIdentity :=
  identities ← draw_identities session_kinds;
  _ ← reserve_identities identities;
  match identities with
  | [(_, session_bytes); (_, request_bytes); (_, vm_bytes); (_, subject_bytes); (_, workspace_bytes);
     (_, capability_bytes); (_, broker_session_bytes)] =>
      mret {| si_session_id := session_bytes; si_request_id := request_bytes; si_vm_id := vm_bytes;
              si_subject_id := subject_bytes; si_workspace_id := workspace_bytes;
              si_broker_session_id := broker_session_bytes; si_capability_id := capability_bytes |}
  | _ => st_fail (Start_Entropy [])  (* seven kinds give seven identities *)
  end.

(** *** Startup *)

Definition OM (A : Type) : Type := ST (SessionOrchestrator * W) StartError A.

(** A backend call: its result is matched by the caller. *)
Definition backend {A} (call : ST W BackendError A) : OM (result BackendError A) := λ '(self, w),
  let '(r, w) := call w in (Ok r, (self, w)).

Definition on_self {A} (m : IM A) (stage : StartStage) : OM A := λ '(self, w),
  let '(r, self) := m self in (map_err (StartError_new stage) r, (self, w)).

Definition set_state (state : LifecycleState) : OM unit :=
  st_modify (λ '(self, w), (so_set state (so_active self) self, w)).

(** The rollback block of every failing stage: clean up, keep what could not be cleaned,
    and report both. *)
Definition roll_back {A} (active : ActiveSession) (stage : StartStage) (failure : StartFailure) : OM A :=
  λ '(self, w),
    let '(rollback, active, w) := cleanup_active active w in
    (Err (StartError_with_rollback stage failure rollback), (finish_failed_start active rollback self, w)).

(** The stages after the clone: broker, VM, root capability, workload. *)
Definition start_on_workspace (snapshot : SnapshotDescriptor) (grant : G) (identity : SessionIdentity)
    (workspace : WorkspaceLease) : OM SessionIdentity :=
  let active := ActiveSession_pending identity workspace None None None in
  established ← backend (establish_broker_session identity);
  '(active, broker) ←
    match established with
    | Ok lease =>
        let active := with_broker lease active in
        match validate_broker identity lease with
        | Some error => roll_back active Stage_BrokerEstablishment error
        | None => _ ← set_state State_BrokerEstablished; mret (active, lease)
        end
    | Err error => roll_back active Stage_BrokerEstablishment (Start_Backend error)
    end;
  let active := with_vm_attempt active in
  started ← backend (start_vm snapshot identity (as_workspace active) broker);
  '(active, vm) ←
    match started with
    | Ok lease =>
        let active := with_vm lease active in
        match validate_vm identity lease with
        | Some error => roll_back active Stage_VmStart error
        | None => _ ← set_state State_VmStarted; mret (active, lease)
        end
    | Err error => roll_back active Stage_VmStart (Start_Backend error)
    end;
  injected ← backend (inject_root_capability identity grant);
  '(active, capability) ←
    match injected with
    | Ok lease =>
        let active := with_capability lease active in
        match validate_capability identity lease with
        | Some error => roll_back active Stage_RootCapabilityInjection error
        | None => _ ← set_state State_RootCapabilityInjected; mret (active, lease)
        end
    | Err error => roll_back active Stage_RootCapabilityInjection (Start_Backend error)
    end;
  ensured ← backend (ensure_broker_session_running broker);
  _ ← match ensured with
      | Ok _ => mret tt
      | Err error => roll_back active Stage_WorkloadRelease (Start_Backend error)
      end;
  released ← backend (release_workload identity vm capability);
  _ ← match released with
      | Ok lease =>
          match validate_workload identity lease with
          | Some error => roll_back active Stage_WorkloadRelease error
          | None => set_state State_WorkloadReleased
          end
      | Err error => roll_back active Stage_WorkloadRelease (Start_Backend error)
      end;
  _ ← st_modify (λ '(self, w), (so_set State_Running (Some active) self, w));
  mret identity.

Definition start_session (snapshot : SnapshotDescriptor) (workspace_template : str) (grant : G)
    : OM SessionIdentity :=
  '(self, _) ← st_get;
  if negb (is_none (so_active self))
     || negb (bool_decide (so_state self = State_Ready) || bool_decide (so_state self = State_Closed))
  then st_fail (StartError_new Stage_SnapshotRestore (Start_InvalidState (so_state self)))
  else
  match head (sd_inherited_ids snapshot) with
  | Some inherited =>
      st_fail (StartError_new Stage_SnapshotRestore
                 (Start_SnapshotContainsSessionIdentity (sd_snapshot_id snapshot) (sid_kind inherited)))
  | None =>
      identity ← on_self allocate_session_identity Stage_IdentityAllocation;
      cloned ← backend (clone_workspace identity workspace_template);
      workspace ←
        match cloned with
        | Ok lease =>
            match validate_workspace identity lease with
            | Some error => roll_back (ActiveSession_pending identity lease None None None) Stage_WorkspaceClone error
            | None => _ ← set_state State_WorkspaceCloned; mret lease
            end
        | Err error => st_fail (StartError_new Stage_WorkspaceClone (Start_Backend error))
        end;
      start_on_workspace snapshot grant identity workspace
  end.

(** *** Stop *)

Definition stop_session : ST (SessionOrchestrator * W) StopError unit := λ '(self, w),
  match so_active self with
  | Some active =>
      if negb (bool_decide (so_state self = State_Running) || bool_decide (so_state self = State_Stopping))
      then (Err (Stop_InvalidState (so_state self)), (self, w))
      else
        let '(failures, active, w) := cleanup_active active w in
        if cleanup_complete active then (Ok tt, (so_set State_Closed None self, w))
        else (Err (Stop_Cleanup failures), (so_set State_Stopping (Some active) self, w))
  | None => (Err (Stop_InvalidState (so_state self)), (self, w))
  end.
End orchestrator.

Arguments SessionOrchestrator : clear implicits.
Arguments Cleaning : clear implicits.
