(* ===== verification/OrchestratorProps.v ===== *)
(** * The session lifecycle

    The abstract contract of the orchestrator is an automaton over the calls its backends
    see: what may be acquired when, what may be released, and in which order.  Every history
    of starts and stops, with backends that fail or answer anything at any call, is a run of
    that automaton, and the orchestrator's [active] session is exactly what is still held. *)

From S2P Require Import Prelude Bytes IdentityLedger IdentityLedgerProps Orchestrator.

(** ** The calls the backends see *)

Inductive BackendEvent :=
  | Ev_clone (identity : SessionIdentity) (r : result BackendError WorkspaceLease)
  | Ev_isolate (lease : WorkspaceLease) (r : result BackendError unit)
  | Ev_establish (identity : SessionIdentity) (r : result BackendError BrokerLease)
  | Ev_ensure (lease : BrokerLease) (r : result BackendError unit)
  | Ev_close (lease : BrokerLease) (r : result BackendError unit)
  | Ev_start (identity : SessionIdentity) (workspace : WorkspaceLease) (broker : BrokerLease)
      (r : result BackendError VmLease)
  | Ev_cleanup_start (r : result BackendError unit)
  | Ev_kill (lease : VmLease) (r : result BackendError unit)
  | Ev_revoke (lease : CapabilityLease) (r : result BackendError unit)
  | Ev_inject (identity : SessionIdentity) (r : result BackendError CapabilityLease)
  | Ev_release (identity : SessionIdentity) (vm : VmLease) (capability : CapabilityLease)
      (r : result BackendError WorkloadLease).

(** A call that also appends itself, with its answer, to the log. *)
Definition logging {W A} (call : ST W BackendError A) (event : result BackendError A → BackendEvent)
    : ST (W * list BackendEvent) BackendError A := λ '(w, log),
  let '(r, w) := call w in (r, (w, log ++ [event r])).

(** Any backends, with the log of their calls. *)
Definition logged {W G} (B : SessionBackends W G) : SessionBackends (W * list BackendEvent) G := {|
  clone_workspace identity template := logging (clone_workspace identity template) (Ev_clone identity);
  isolate_workspace lease := logging (isolate_workspace lease) (Ev_isolate lease);
  establish_broker_session identity := logging (establish_broker_session identity) (Ev_establish identity);
  ensure_broker_session_running lease := logging (ensure_broker_session_running lease) (Ev_ensure lease);
  close_broker_session lease := logging (close_broker_session lease) (Ev_close lease);
  start_vm snapshot identity workspace broker :=
    logging (start_vm snapshot identity workspace broker) (Ev_start identity workspace broker);
  cleanup_failed_start := logging cleanup_failed_start Ev_cleanup_start;
  kill_vm lease := logging (kill_vm lease) (Ev_kill lease);
  revoke_root_capability lease := logging (revoke_root_capability lease) (Ev_revoke lease);
  inject_root_capability identity grant := logging (inject_root_capability identity grant) (Ev_inject identity);
  release_workload identity vm capability :=
    logging (release_workload identity vm capability) (Ev_release identity vm capability)
|}.

(** ** The contract *)

(** The seven identities of a session. *)
Definition identity_list (identity : SessionIdentity) : list Identity :=
  [si_session_id identity; si_request_id identity; si_vm_id identity; si_subject_id identity;
   si_workspace_id identity; si_capability_id identity; si_broker_session_id identity].

(** What is held: committed by an acquiring call and not yet given back; which releases were
    asked for in this session; and the identities used so far. *)
Record Holdings := {
  h_identity : option SessionIdentity;
  h_acquiring : bool;
  h_workspace : option WorkspaceLease;
  h_broker : option BrokerLease;
  h_attempt : bool;
  h_vm : option VmLease;
  h_capability : option CapabilityLease;
  h_live : bool;
  h_running : bool;
  h_revoke_tried : bool;
  h_kill_tried : bool;
  h_used : list Identity
}.

Definition nothing : Holdings :=
  {| h_identity := None; h_acquiring := false; h_workspace := None; h_broker := None; h_attempt := false;
     h_vm := None; h_capability := None; h_live := false; h_running := false; h_revoke_tried := false; h_kill_tried := false;
     h_used := [] |}.

Definition nothing_held (h : Holdings) : bool :=
  is_none (h_workspace h) && is_none (h_broker h) && negb (h_attempt h) && is_none (h_vm h)
  && is_none (h_capability h).

(** A session of this identity is being started. *)
Definition acquiring_for (identity : SessionIdentity) (h : Holdings) : bool :=
  h_acquiring h && bool_decide (h_identity h = Some identity).

(** The held resources are bound to the identity: every identifier a lease carries is the one
    the identity has for it. *)
Definition workspace_bound (identity : SessionIdentity) (h : Holdings) : bool :=
  bool_decide (h_workspace h =
    Some {| wl_session_id := si_session_id identity; wl_workspace_id := si_workspace_id identity |}).
Definition broker_bound (identity : SessionIdentity) (h : Holdings) : bool :=
  bool_decide (h_broker h =
    Some {| bl_session_id := si_session_id identity; bl_broker_session_id := si_broker_session_id identity |}).
Definition vm_bound (identity : SessionIdentity) (h : Holdings) : bool :=
  bool_decide (h_vm h =
    Some {| vl_session_id := si_session_id identity; vl_vm_id := si_vm_id identity;
            vl_workspace_id := si_workspace_id identity; vl_broker_session_id := si_broker_session_id identity |}).
Definition capability_bound (identity : SessionIdentity) (h : Holdings) : bool :=
  match h_capability h with
  | Some lease =>
      bool_decide (lease = {| cl_session_id := si_session_id identity; cl_subject_id := si_subject_id identity;
                              cl_capability_id := si_capability_id identity; cl_policy_digest := cl_policy_digest lease |})
  | None => false
  end.
Definition workload_bound (identity : SessionIdentity) (lease : WorkloadLease) : bool :=
  bool_decide (lease = {| wkl_session_id := si_session_id identity; wkl_vm_id := si_vm_id identity;
                          wkl_subject_id := si_subject_id identity; wkl_capability_id := si_capability_id identity |}).

(** The authority is revoked before anything it could act on is released, and the VM is
    killed before its broker is closed; a release that failed counts as asked for, since the
    others must not wait for it. *)
Definition revoke_settled (h : Holdings) : bool := is_none (h_capability h) || h_revoke_tried h.
Definition kill_settled (h : Holdings) : bool := negb (h_attempt h) || h_kill_tried h.

(** The identities of a new session: non-zero, pairwise distinct and never used before. *)
Definition fresh_identity (identity : SessionIdentity) (used : list Identity) : bool :=
  bool_decide (NoDup (identity_list identity))
  && forallb (λ i, negb (bool_decide (i ∈ used)) && negb (bool_decide (i = ZERO_IDENTITY))) (identity_list identity).

Definition acquired_workspace (identity : SessionIdentity) (lease : option WorkspaceLease) (h : Holdings) : Holdings :=
  {| h_identity := Some identity; h_acquiring := negb (is_none lease); h_workspace := lease; h_broker := None;
     h_attempt := false; h_vm := None; h_capability := None; h_live := false; h_running := false;
     h_revoke_tried := false; h_kill_tried := false; h_used := h_used h ++ identity_list identity |}.

Definition acquired_broker (lease : option BrokerLease) (h : Holdings) : Holdings :=
  {| h_identity := h_identity h; h_acquiring := negb (is_none lease); h_workspace := h_workspace h;
     h_broker := lease; h_attempt := h_attempt h; h_vm := h_vm h; h_capability := h_capability h;
     h_live := false; h_running := false;
     h_revoke_tried := h_revoke_tried h; h_kill_tried := h_kill_tried h; h_used := h_used h |}.

Definition acquired_vm (lease : option VmLease) (h : Holdings) : Holdings :=
  {| h_identity := h_identity h; h_acquiring := negb (is_none lease); h_workspace := h_workspace h;
     h_broker := h_broker h; h_attempt := true; h_vm := lease; h_capability := h_capability h;
     h_live := false; h_running := false;
     h_revoke_tried := h_revoke_tried h; h_kill_tried := h_kill_tried h; h_used := h_used h |}.

Definition acquired_capability (lease : option CapabilityLease) (h : Holdings) : Holdings :=
  {| h_identity := h_identity h; h_acquiring := negb (is_none lease); h_workspace := h_workspace h;
     h_broker := h_broker h; h_attempt := h_attempt h; h_vm := h_vm h; h_capability := lease;
     h_live := false; h_running := false;
     h_revoke_tried := h_revoke_tried h; h_kill_tried := h_kill_tried h; h_used := h_used h |}.

Definition observed_broker (live : bool) (h : Holdings) : Holdings :=
  {| h_identity := h_identity h; h_acquiring := live; h_workspace := h_workspace h;
     h_broker := h_broker h; h_attempt := h_attempt h; h_vm := h_vm h; h_capability := h_capability h;
     h_live := live; h_running := false;
     h_revoke_tried := h_revoke_tried h; h_kill_tried := h_kill_tried h; h_used := h_used h |}.

(** The workload runs once its release was acknowledged. *)
Definition released (running : bool) (h : Holdings) : Holdings :=
  {| h_identity := h_identity h; h_acquiring := false; h_workspace := h_workspace h;
     h_broker := h_broker h; h_attempt := h_attempt h; h_vm := h_vm h; h_capability := h_capability h;
     h_live := false; h_running := running;
     h_revoke_tried := h_revoke_tried h; h_kill_tried := h_kill_tried h; h_used := h_used h |}.

(** A release call ends the acquisition; what it gave back is no longer held. *)
Definition revoked (ok : bool) (h : Holdings) : Holdings :=
  {| h_identity := h_identity h; h_acquiring := false; h_workspace := h_workspace h;
     h_broker := h_broker h; h_attempt := h_attempt h; h_vm := h_vm h;
     h_capability := if ok then None else h_capability h; h_live := false; h_running := h_running h;
     h_revoke_tried := true; h_kill_tried := h_kill_tried h; h_used := h_used h |}.
Definition killed (ok : bool) (h : Holdings) : Holdings :=
  {| h_identity := h_identity h; h_acquiring := false; h_workspace := h_workspace h;
     h_broker := h_broker h; h_attempt := if ok then false else h_attempt h;
     h_vm := if ok then None else h_vm h; h_capability := h_capability h; h_live := false;
     h_running := h_running h && negb ok;
     h_revoke_tried := h_revoke_tried h; h_kill_tried := true; h_used := h_used h |}.
Definition closed (ok : bool) (h : Holdings) : Holdings :=
  {| h_identity := h_identity h; h_acquiring := false; h_workspace := h_workspace h;
     h_broker := if ok then None else h_broker h; h_attempt := h_attempt h; h_vm := h_vm h;
     h_capability := h_capability h; h_live := false; h_running := h_running h;
     h_revoke_tried := h_revoke_tried h; h_kill_tried := h_kill_tried h; h_used := h_used h |}.
Definition isolated (ok : bool) (h : Holdings) : Holdings :=
  {| h_identity := h_identity h; h_acquiring := false; h_workspace := if ok then None else h_workspace h;
     h_broker := h_broker h; h_attempt := h_attempt h; h_vm := h_vm h; h_capability := h_capability h;
     h_live := false; h_running := h_running h;
     h_revoke_tried := h_revoke_tried h; h_kill_tried := h_kill_tried h; h_used := h_used h |}.

(** One call: [None] when the contract forbids it.

    A workspace is cloned only when nothing is held, for an identity that is new; each later
    resource is acquired only while the startup of that identity is under way and every earlier
    one is held and bound to it; the workload is released only right after the broker was seen
    running, and runs only under a lease bound to the identity.  Only what is held is released:
    the capability is asked for first, then the VM, then the broker, and the workspace only
    when neither the VM nor the broker is held. *)
Definition lifecycle (h : Holdings) (event : BackendEvent) : option Holdings :=
  match event with
  | Ev_clone identity r =>
      if nothing_held h && fresh_identity identity (h_used h)
      then Some (acquired_workspace identity (result_ok r) h) else None
  | Ev_establish identity r =>
      if acquiring_for identity h && workspace_bound identity h && is_none (h_broker h) && negb (h_attempt h)
      then Some (acquired_broker (result_ok r) h) else None
  | Ev_start identity workspace broker r =>
      if acquiring_for identity h && workspace_bound identity h && broker_bound identity h
         && bool_decide (h_workspace h = Some workspace) && bool_decide (h_broker h = Some broker)
         && negb (h_attempt h)
      then Some (acquired_vm (result_ok r) h) else None
  | Ev_inject identity r =>
      if acquiring_for identity h && workspace_bound identity h && broker_bound identity h
         && vm_bound identity h && is_none (h_capability h)
      then Some (acquired_capability (result_ok r) h) else None
  | Ev_ensure broker r =>
      if h_acquiring h && bool_decide (h_broker h = Some broker) && negb (is_none (h_capability h))
      then Some (observed_broker (is_ok r) h) else None
  | Ev_release identity vm capability r =>
      if acquiring_for identity h && h_live h && workspace_bound identity h && broker_bound identity h
         && vm_bound identity h && capability_bound identity h
         && bool_decide (h_vm h = Some vm) && bool_decide (h_capability h = Some capability)
      then Some (released (match r with Ok lease => workload_bound identity lease | Err _ => false end) h) else None
  | Ev_revoke capability r =>
      if bool_decide (h_capability h = Some capability) then Some (revoked (is_ok r) h) else None
  | Ev_kill vm r =>
      if bool_decide (h_vm h = Some vm) && revoke_settled h then Some (killed (is_ok r) h) else None
  | Ev_cleanup_start r =>
      if h_attempt h && is_none (h_vm h) && revoke_settled h then Some (killed (is_ok r) h) else None
  | Ev_close broker r =>
      if bool_decide (h_broker h = Some broker) && revoke_settled h && kill_settled h
      then Some (closed (is_ok r) h) else None
  | Ev_isolate workspace r =>
      if bool_decide (h_workspace h = Some workspace) && is_none (h_broker h) && negb (h_attempt h) && is_none (h_vm h)
         && revoke_settled h
      then Some (isolated (is_ok r) h) else None
  end.

Fixpoint lifecycle_run (h : Holdings) (log : list BackendEvent) : option Holdings :=
  match log with
  | [] => Some h
  | event :: log => h ← lifecycle h event; lifecycle_run h log
  end.

Lemma lifecycle_run_snoc h log event :
  lifecycle_run h (log ++ [event]) = (h' ← lifecycle_run h log; lifecycle h' event).
Proof.
  revert h. induction log as [|e log IH]; intros h; cbn [app lifecycle_run].
  - cbn. by destruct (lifecycle h event).
  - cbn. destruct (lifecycle h e); [apply IH|done].
Qed.

(** The log is a legal run that ends with [h] held. *)
Definition reaches (log : list BackendEvent) (h : Holdings) : Prop := lifecycle_run nothing log = Some h.

Lemma reaches_snoc log h event h' : reaches log h → lifecycle h event = Some h' → reaches (log ++ [event]) h'.
Proof. unfold reaches. rewrite lifecycle_run_snoc. intros ->. done. Qed.

(** ** What the active session stands for *)

Definition unless {A} (done : bool) (lease : option A) : option A := if done then None else lease.

(** The active session's leases and flags are what is held, and no pending flag lacks its
    lease. *)
Record owns (a : ActiveSession) (h : Holdings) : Prop := {
  own_workspace : h_workspace h = unless (cp_workspace_isolated (as_cleanup a)) (Some (as_workspace a));
  own_broker : h_broker h = unless (cp_broker_closed (as_cleanup a)) (as_broker a);
  own_vm : h_vm h = unless (cp_vm_killed (as_cleanup a)) (as_vm a);
  own_attempt : h_attempt h = negb (cp_vm_killed (as_cleanup a));
  own_capability : h_capability h = unless (cp_capability_revoked (as_cleanup a)) (as_capability a);
  own_broker_lease : cp_broker_closed (as_cleanup a) = false → is_none (as_broker a) = false;
  own_vm_lease : cp_vm_killed (as_cleanup a) = false → as_vm_start_attempted a = true;
  own_capability_lease : cp_capability_revoked (as_cleanup a) = false → is_none (as_capability a) = false;
  own_order : cp_workspace_isolated (as_cleanup a) = true → cp_vm_killed (as_cleanup a) && cp_broker_closed (as_cleanup a) = true
}.

Lemma owns_complete a h : owns a h → cleanup_complete a = true → nothing_held h = true.
Proof.
  intros [Hw Hb Hv Ha Hc _ _ _ _]. unfold cleanup_complete, nothing_held. intros H. breflect. destruct_and!.
  rewrite Hw, Hb, Hv, Ha, Hc. repeat match goal with H : _ = true |- _ => rewrite H; clear H end. done.
Qed.

(** ** Cleanup *)

Section lifecycle_proofs.
  Context {W G : Type} (B : SessionBackends W G).

Abbreviation LW := (W * list BackendEvent)%type.

(** A cleanup stage, from holdings that satisfy [pre]: the log stays legal, the session owns
    what is left, the holdings satisfy [post], and the stage is done or adds a failure. *)
Definition stage_spec (pre post : Holdings → bool) (flag : CleanupProgress → bool)
    (set : bool → ActiveSession → ActiveSession) (stage : Cleaning LW → Cleaning LW) : Prop :=
  ∀ fs a w log h, reaches log h → owns a h → pre h = true →
  ∃ fs' a' w' log' h', stage (fs, a, (w, log)) = (fs', a', (w', log')) ∧ reaches log' h' ∧ owns a' h' ∧
    post h' = true ∧ h_used h' = h_used h ∧ (a' = a ∨ a' = set true a) ∧
    ((flag (as_cleanup a') = true ∧ fs' = fs) ∨ (flag (as_cleanup a') = false ∧ length fs' = S (length fs))).

Lemma cleanup_call_spec stage (call : ST W BackendError unit) event done fs a (w : W) log :
  ∃ r w', cleanup_call stage (logging call event) done (fs, a, (w, log))
    = (match r with Ok _ => fs | Err e => push_failure stage e fs end,
       match r with Ok _ => done a | Err _ => a end, (w', log ++ [event r])).
Proof.
  unfold cleanup_call, logging. destruct (call w) as [[[]|e] w']; [by exists (Ok tt), w'|by exists (Err e), w'].
Qed.

Lemma length_push_failure stage e fs : length (push_failure stage e fs) = S (length fs).
Proof. unfold push_failure. rewrite length_app. simpl. lia. Qed.

(** The calls of one stage, done or failed. *)
Lemma stage_call (post : Holdings → bool) (flag : CleanupProgress → bool) set stage call event
    (next : bool → Holdings) fs a (w : W) log h :
  reaches log h → (∀ r, lifecycle h (event r) = Some (next (is_ok r))) →
  (∀ ok, post (next ok) = true) → (∀ ok, h_used (next ok) = h_used h) →
  flag (as_cleanup a) = false → flag (as_cleanup (set true a)) = true →
  owns (set true a) (next true) → owns a (next false) →
  ∃ fs' a' w' log' h', cleanup_call stage (logging call event) (set true) (fs, a, (w, log)) = (fs', a', (w', log')) ∧
    reaches log' h' ∧ owns a' h' ∧ post h' = true ∧ h_used h' = h_used h ∧ (a' = a ∨ a' = set true a) ∧
    ((flag (as_cleanup a') = true ∧ fs' = fs) ∨ (flag (as_cleanup a') = false ∧ length fs' = S (length fs))).
Proof.
  intros Hr Hl Hp Hu Hf Ht Hok Herr. destruct (cleanup_call_spec stage call event (set true) fs a w log) as (r & w' & ->).
  pose proof (reaches_snoc _ _ _ _ Hr (Hl r)) as Hr'. destruct r as [[]|e].
  - exists fs, (set true a), w', (log ++ [event (Ok tt)]), (next true). auto 10.
  - exists (push_failure stage e fs), a, w', (log ++ [event (Err e)]), (next false).
    rewrite length_push_failure. auto 10.
Qed.

Ltac open_session a :=
  destruct a as [?info ?ws ?br ?vm ?att ?cap [?rev ?kil ?clo ?iso]];
  cbn [as_info as_workspace as_broker as_vm as_vm_start_attempted as_capability as_cleanup
       cp_capability_revoked cp_vm_killed cp_broker_closed cp_workspace_isolated] in *.

Ltac owned := constructor;
  cbn [h_workspace h_broker h_vm h_attempt h_capability revoked killed closed isolated unless negb
       as_info as_workspace as_broker as_vm as_vm_start_attempted as_capability as_cleanup set_cleanup
       set_capability_revoked set_vm_killed set_broker_closed set_workspace_isolated
       cp_capability_revoked cp_vm_killed cp_broker_closed cp_workspace_isolated] in *; try done;
  repeat match goal with b : bool |- _ => destruct b end; cbn in *; naive_solver.

(** A stage that changed what is held leaves a session that owns the rest. *)
Ltac owned_after Ho a := destruct Ho; open_session a; subst; owned.

Lemma cleanup_capability_spec :
  stage_spec (λ _, true) revoke_settled cp_capability_revoked set_capability_revoked
    (cleanup_capability (H := logged B)).
Proof.
  intros fs a w log h Hr Ho _. unfold cleanup_capability.
  destruct (cp_capability_revoked (as_cleanup a)) eqn:Hf.
  { exists fs, a, w, log, h. split_and!; auto. unfold revoke_settled. by rewrite (own_capability _ _ Ho), Hf. }
  destruct (as_capability a) as [c|] eqn:Hc.
  - eapply (stage_call revoke_settled cp_capability_revoked set_capability_revoked _ _ _ (λ ok, revoked ok h)); try done.
    + intros r. cbn [lifecycle]. rewrite (own_capability _ _ Ho), Hf, Hc. by rewrite bool_decide_eq_true_2.
    + intros ok. apply orb_true_r.
    + owned_after Ho a.
    + owned_after Ho a.
  - by pose proof (own_capability_lease _ _ Ho Hf) as Hl; rewrite Hc in Hl.
Qed.

Lemma cleanup_vm_spec :
  stage_spec revoke_settled (λ h, revoke_settled h && kill_settled h) cp_vm_killed set_vm_killed
    (cleanup_vm (H := logged B)).
Proof.
  intros fs a w log h Hr Ho Hrev. unfold cleanup_vm.
  destruct (cp_vm_killed (as_cleanup a)) eqn:Hf.
  { exists fs, a, w, log, h. split_and!; auto. unfold kill_settled. by rewrite Hrev, (own_attempt _ _ Ho), Hf. }
  assert (Hpost : ∀ ok, revoke_settled (killed ok h) && kill_settled (killed ok h) = true).
  { intros ok. change (revoke_settled (killed ok h)) with (revoke_settled h). rewrite Hrev. apply orb_true_r. }
  destruct (as_vm a) as [v|] eqn:Hv.
  - eapply (stage_call _ cp_vm_killed set_vm_killed _ _ _ (λ ok, killed ok h)); try done.
    + intros r. cbn [lifecycle]. rewrite (own_vm _ _ Ho), Hf, Hv, Hrev. by rewrite bool_decide_eq_true_2.
    + owned_after Ho a.
    + owned_after Ho a.
  - rewrite (own_vm_lease _ _ Ho Hf).
    eapply (stage_call _ cp_vm_killed set_vm_killed _ _ _ (λ ok, killed ok h)); try done.
    + intros r. cbn [lifecycle]. by rewrite (own_vm _ _ Ho), (own_attempt _ _ Ho), Hf, Hv, Hrev.
    + owned_after Ho a.
    + owned_after Ho a.
Qed.

Lemma cleanup_broker_spec :
  stage_spec (λ h, revoke_settled h && kill_settled h) revoke_settled cp_broker_closed set_broker_closed
    (cleanup_broker (H := logged B)).
Proof.
  intros fs a w log h Hr Ho Hpre. apply andb_true_iff in Hpre as [Hrev Hkill]. unfold cleanup_broker.
  destruct (cp_broker_closed (as_cleanup a)) eqn:Hf; [exists fs, a, w, log, h; auto 10|].
  destruct (as_broker a) as [b|] eqn:Hb.
  - eapply (stage_call revoke_settled cp_broker_closed set_broker_closed _ _ _ (λ ok, closed ok h)); try done.
    + intros r. cbn [lifecycle]. rewrite (own_broker _ _ Ho), Hf, Hb, Hrev, Hkill. by rewrite bool_decide_eq_true_2.
    + owned_after Ho a.
    + owned_after Ho a.
  - by pose proof (own_broker_lease _ _ Ho Hf) as Hl; rewrite Hb in Hl.
Qed.

(** The workspace stage waits for the VM and the broker. *)
Lemma cleanup_workspace_spec fs a w log h : reaches log h → owns a h → revoke_settled h = true →
  ∃ fs' a' w' log' h', cleanup_workspace (H := logged B) (fs, a, (w, log)) = (fs', a', (w', log')) ∧
    reaches log' h' ∧ owns a' h' ∧ h_used h' = h_used h ∧ (a' = a ∨ a' = set_workspace_isolated true a) ∧
    ((fs' = fs ∧ (cp_workspace_isolated (as_cleanup a') = true ∨
        cp_vm_killed (as_cleanup a') && cp_broker_closed (as_cleanup a') = false)) ∨
     (cp_workspace_isolated (as_cleanup a') = false ∧ length fs' = S (length fs))).
Proof.
  intros Hr Ho Hrev. unfold cleanup_workspace.
  destruct (cp_vm_killed (as_cleanup a) && cp_broker_closed (as_cleanup a)) eqn:Hdone;
    [|exists fs, a, w, log, h; auto 10]. cbn [andb].
  destruct (cp_workspace_isolated (as_cleanup a)) eqn:Hf; [exists fs, a, w, log, h; auto 10|]. cbn [negb].
  assert (Hdone' := Hdone). apply andb_true_iff in Hdone' as [Hk Hc].
  edestruct (stage_call (λ _, true) cp_workspace_isolated set_workspace_isolated Cleanup_WorkspaceIsolation
    (isolate_workspace (as_workspace a)) (Ev_isolate (as_workspace a)) (λ ok, isolated ok h))
    as (fs' & a' & w' & log' & h' & Hrun & Hr' & Ho' & _ & Hu' & Ha' & Hcases); try done.
  - intros r. cbn [lifecycle].
    rewrite (own_workspace _ _ Ho), (own_vm _ _ Ho), (own_attempt _ _ Ho), (own_broker _ _ Ho), Hf, Hk, Hc, Hrev.
    by rewrite bool_decide_eq_true_2.
  - owned_after Ho a.
  - owned_after Ho a.
  - exists fs', a', w', log', h'. naive_solver.
Qed.

(** What survives a pass: the leases and what an earlier pass completed. *)
Definition same_leases (a a' : ActiveSession) : Prop :=
  as_info a' = as_info a ∧ as_workspace a' = as_workspace a ∧ as_broker a' = as_broker a ∧ as_vm a' = as_vm a ∧
  as_capability a' = as_capability a.

(** One pass of [cleanup_active]: legal calls only, and no failure exactly when it is complete. *)
Lemma cleanup_active_spec a w log h : reaches log h → owns a h →
  ∃ fs a' w' log' h', cleanup_active (H := logged B) a (w, log) = (fs, a', (w', log')) ∧
    reaches log' h' ∧ owns a' h' ∧ h_used h' = h_used h ∧ same_leases a a' ∧ (length fs = 0%nat ↔ cleanup_complete a' = true).
Proof.
  intros Hr Ho. unfold cleanup_active.
  destruct (cleanup_capability_spec [] a w log h Hr Ho eq_refl)
    as (f1 & a1 & w1 & l1 & h1 & -> & Hr1 & Ho1 & Hp1 & Hu1 & Ha1 & Hc1).
  destruct (cleanup_vm_spec f1 a1 w1 l1 h1 Hr1 Ho1 Hp1)
    as (f2 & a2 & w2 & l2 & h2 & -> & Hr2 & Ho2 & Hp2 & Hu2 & Ha2 & Hc2).
  destruct (cleanup_broker_spec f2 a2 w2 l2 h2 Hr2 Ho2 Hp2)
    as (f3 & a3 & w3 & l3 & h3 & -> & Hr3 & Ho3 & Hp3 & Hu3 & Ha3 & Hc3).
  destruct (cleanup_workspace_spec f3 a3 w3 l3 h3 Hr3 Ho3 Hp3) as (f4 & a4 & w4 & l4 & h4 & -> & Hr4 & Ho4 & Hu4 & Ha4 & Hc4).
  exists f4, a4, w4, l4, h4. split_and!; [done..|congruence| |].
  - unfold same_leases. clear -Ha1 Ha2 Ha3 Ha4.
    destruct Ha1 as [->| ->], Ha2 as [->| ->], Ha3 as [->| ->], Ha4 as [->| ->]; split_and!; done.
  - assert (cp_capability_revoked (as_cleanup a4) = cp_capability_revoked (as_cleanup a1)) as Hk1.
    { clear -Ha2 Ha3 Ha4. destruct Ha2 as [->| ->], Ha3 as [->| ->], Ha4 as [->| ->]; done. }
    assert (cp_vm_killed (as_cleanup a4) = cp_vm_killed (as_cleanup a2)) as Hk2.
    { clear -Ha3 Ha4. destruct Ha3 as [->| ->], Ha4 as [->| ->]; done. }
    assert (cp_broker_closed (as_cleanup a4) = cp_broker_closed (as_cleanup a3)) as Hk3.
    { clear -Ha4. destruct Ha4 as [->| ->]; done. }
    unfold cleanup_complete. rewrite Hk1, Hk2, Hk3 in *. clear -Hc1 Hc2 Hc3 Hc4.
    cbn [length] in *.
    destruct (cp_capability_revoked (as_cleanup a1)), (cp_vm_killed (as_cleanup a2)),
      (cp_broker_closed (as_cleanup a3)), (cp_workspace_isolated (as_cleanup a4)); cbn [andb] in *;
      destruct_or?; destruct_and?; destruct_or?; subst; cbn [length] in *; split; intros; done || lia.
Qed.

(** ** The orchestrator's invariant *)

  Context {R L : Type} `{CryptographicRandom R} `{IdentityLedgerLaws L}.

(** A running session holds every resource, bound to its identity, and its workload runs. *)
Definition fully_held (identity : SessionIdentity) (h : Holdings) : Prop :=
  h_identity h = Some identity ∧ h_running h = true ∧
  workspace_bound identity h && broker_bound identity h && vm_bound identity h && capability_bound identity h = true.

Definition holds (self : SessionOrchestrator R L) (h : Holdings) : Prop :=
  match so_active self with
  | None => nothing_held h = true ∧ (so_state self = State_Ready ∨ so_state self = State_Closed)
  | Some a =>
      owns a h ∧ cleanup_complete a = false ∧
      (so_state self = State_Stopping ∨ (so_state self = State_Running ∧ fully_held (as_info a) h))
  end.

(** The identities of every session are issued in the ledger. *)
Definition accounted (self : SessionOrchestrator R L) (h : Holdings) : Prop :=
  ∀ i, i ∈ h_used h → i ∈ ledger_issued (so_ledger self).

Definition session_inv (s : SessionOrchestrator R L * LW) : Prop :=
  ∃ h, reaches s.2.2 h ∧ holds s.1 h ∧ accounted s.1 h.

Lemma wp_backend {A} (call : ST W BackendError A) event (Q : result BackendError A → _ → Prop) Rp
    (self : SessionOrchestrator R L) w log :
  (∀ r w', Q r (self, (w', log ++ [event r]))) → wp (backend (logging call event)) Q Rp (self, (w, log)).
Proof. intros HQ. unfold wp, backend, logging. destruct (call w) as [r w']. apply HQ. Qed.

Lemma wp_roll_back {A} a stage failure (Q : A → _ → Prop) (self : SessionOrchestrator R L) w log h :
  reaches log h → owns a h → accounted self h →
  wp (roll_back (H := logged B) a stage failure) Q (λ _ s, session_inv s) (self, (w, log)).
Proof.
  intros Hr Ho Hacc. destruct (cleanup_active_spec a w log h Hr Ho)
    as (fs & a' & w' & log' & h' & Hrun & Hr' & Ho' & Hu & _ & Hf).
  unfold wp, roll_back. rewrite Hrun. exists h'. split_and!; [done|..].
  - unfold finish_failed_start. case_bool_decide as Hlen; unfold holds, so_set; cbn.
    + split; [|by left]. apply (owns_complete a'); [done|]. by apply Hf.
    + split_and!; [done| |by left]. apply not_true_iff_false. by rewrite <- Hf.
  - unfold accounted. rewrite Hu. unfold finish_failed_start. by case_bool_decide.
Qed.

Lemma wp_set_state state (Q : unit → _ → Prop) Rp (self : SessionOrchestrator R L) (w : LW) :
  Q tt (so_set state (so_active self) self, w) → wp (set_state state) Q Rp (self, w).
Proof. done. Qed.

(** A failed allocation changes neither the state nor the session. *)
Definition same_session (self self' : SessionOrchestrator R L) : Prop :=
  so_state self' = so_state self ∧ so_active self' = so_active self.

Lemma draw_random_spec (self : SessionOrchestrator R L) :
  wp draw_random (λ _ s, same_session self s ∧ so_ledger s = so_ledger self)
    (λ _ s, same_session self s ∧ so_ledger s = so_ledger self) self.
Proof. unfold wp, draw_random. by destruct (random_128 _) as [[]]. Qed.

Lemma draw_nonzero_spec retries kind (self : SessionOrchestrator R L) :
  wp (draw_nonzero retries kind) (λ i s, (same_session self s ∧ so_ledger s = so_ledger self) ∧ i ≠ ZERO_IDENTITY)
    (λ _ s, same_session self s ∧ so_ledger s = so_ledger self) self.
Proof.
  revert self. induction retries as [|retries IH]; intros self; cbn [draw_nonzero];
    apply wp_bind; (eapply wp_mono; [apply draw_random_spec| |done]); intros i s Hs;
    case_bool_decide as Hz; cbn [negb]; try (by apply wp_ret).
  - by apply wp_fail.
  - eapply wp_mono; [apply IH|..]; unfold same_session in *; naive_solver congruence.
Qed.

Lemma draw_identities_spec kinds (self : SessionOrchestrator R L) :
  wp (draw_identities kinds)
    (λ ids s, (same_session self s ∧ so_ledger s = so_ledger self) ∧ ids.*1 = kinds ∧ ZERO_IDENTITY ∉ ids.*2)
    (λ _ s, same_session self s ∧ so_ledger s = so_ledger self) self.
Proof.
  revert self. induction kinds as [|kind kinds IH]; intros self; cbn [draw_identities].
  - apply wp_ret. split_and!; [done..|]. apply not_elem_of_nil.
  - apply wp_bind. eapply wp_mono; [apply draw_nonzero_spec| |done]. intros i s [Hs Hi].
    apply wp_bind. eapply wp_mono; [apply IH|..].
    + intros ids s' (Hs' & Hk & Hz). apply wp_ret. split; [unfold same_session in *; naive_solver congruence|].
      cbn [fmap list_fmap fst snd]. split; [by rewrite Hk|]. apply not_elem_of_cons. split; [congruence|done].
    + unfold same_session in *. naive_solver congruence.
Qed.

Lemma reserve_identities_spec ids (self : SessionOrchestrator R L) :
  wp (reserve_identities ids)
    (λ _ s, same_session self s ∧ NoDup ids.*2 ∧ ledger_issued (so_ledger self) ⊆ ledger_issued (so_ledger s) ∧
       ∀ i, i ∈ ids.*2 → (i ∉ ledger_issued (so_ledger self)) ∧ (i ∈ ledger_issued (so_ledger s)))
    (λ _ s, same_session self s ∧ ledger_issued (so_ledger self) ⊆ ledger_issued (so_ledger s)) self.
Proof.
  pose proof (reserve_batch_spec ids (so_ledger self)) as Hs. unfold wp, reserve_identities in *.
  destruct (reserve_batch ids (so_ledger self)) as [[[]|e] l]; cbn.
  - destruct Hs as (Hnd & Hi & Hsub). done.
  - done.
Qed.

(** An allocated identity is new, and it is issued before it is returned. *)
Lemma allocate_spec (self : SessionOrchestrator R L) :
  wp allocate_session_identity
    (λ identity s, same_session self s ∧ NoDup (identity_list identity) ∧
       ledger_issued (so_ledger self) ⊆ ledger_issued (so_ledger s) ∧ (ZERO_IDENTITY ∉ identity_list identity) ∧
       ∀ i, i ∈ identity_list identity →
         (i ∉ ledger_issued (so_ledger self)) ∧ (i ∈ ledger_issued (so_ledger s)))
    (λ _ s, same_session self s ∧ ledger_issued (so_ledger self) ⊆ ledger_issued (so_ledger s)) self.
Proof.
  apply wp_bind. eapply wp_mono; [apply draw_identities_spec|..].
  - intros ids s ([Hs Hl] & Hk & Hz). apply wp_bind. rewrite <- Hl.
    eapply wp_mono; [apply reserve_identities_spec|..].
    + intros _ s' (Hs' & Hnd & Hsub & Hi).
      do 8 (destruct ids as [|[? ?] ids]; [try discriminate Hk|try discriminate Hk]).
      apply wp_ret. cbn in *. unfold same_session in *. naive_solver congruence.
    + intros e s' [Hs' Hsub]. unfold same_session in *. naive_solver congruence.
  - intros e s [Hs ->]. done.
Qed.

Lemma fresh_identity_intro identity used :
  NoDup (identity_list identity) → (ZERO_IDENTITY ∉ identity_list identity) →
  (∀ i, i ∈ identity_list identity → i ∉ used) → fresh_identity identity used = true.
Proof.
  intros Hnd Hz Hu. unfold fresh_identity. rewrite bool_decide_eq_true_2 by done. apply forallb_forall.
  intros i Hi%list_elem_of_In. rewrite !bool_decide_eq_false_2; [done|congruence|by apply Hu].
Qed.

(** The session of a startup, stage by stage. *)
Lemma owns_pending identity lease h :
  owns (ActiveSession_pending identity lease None None None) (acquired_workspace identity (Some lease) h).
Proof. by constructor. Qed.

(** A lease that passes its validation carries the identifiers of the identity. *)
Lemma validate_workspace_bound identity lease : validate_workspace identity lease = None →
  lease = {| wl_session_id := si_session_id identity; wl_workspace_id := si_workspace_id identity |}.
Proof. destruct lease. unfold validate_workspace. intros. repeat case_match; breflect; cbn in *; naive_solver congruence. Qed.

Lemma validate_broker_bound identity lease : validate_broker identity lease = None →
  lease = {| bl_session_id := si_session_id identity; bl_broker_session_id := si_broker_session_id identity |}.
Proof. destruct lease. unfold validate_broker. intros. repeat case_match; breflect; cbn in *; naive_solver congruence. Qed.

Lemma validate_vm_bound identity lease : validate_vm identity lease = None →
  lease = {| vl_session_id := si_session_id identity; vl_vm_id := si_vm_id identity;
             vl_workspace_id := si_workspace_id identity; vl_broker_session_id := si_broker_session_id identity |}.
Proof. destruct lease. unfold validate_vm. intros. repeat case_match; breflect; cbn in *; naive_solver congruence. Qed.

Lemma validate_capability_bound identity lease : validate_capability identity lease = None →
  lease = {| cl_session_id := si_session_id identity; cl_subject_id := si_subject_id identity;
             cl_capability_id := si_capability_id identity; cl_policy_digest := cl_policy_digest lease |}.
Proof. destruct lease. unfold validate_capability. intros. repeat case_match; breflect; cbn in *; naive_solver congruence. Qed.

Lemma validate_workload_bound identity lease : validate_workload identity lease = None →
  lease = {| wkl_session_id := si_session_id identity; wkl_vm_id := si_vm_id identity;
             wkl_subject_id := si_subject_id identity; wkl_capability_id := si_capability_id identity |}.
Proof. destruct lease. unfold validate_workload. intros. repeat case_match; breflect; cbn in *; naive_solver congruence. Qed.

(** Closes a guard of the contract in a startup. *)
Ltac legal :=
  subst; cbn [lifecycle]; unfold acquiring_for, workspace_bound, broker_bound, vm_bound, capability_bound, workload_bound;
  cbn [h_identity h_acquiring h_workspace h_broker h_attempt h_vm h_capability h_live h_running
       acquired_workspace acquired_broker acquired_vm acquired_capability observed_broker released
       result_ok is_none negb andb is_ok cl_policy_digest];
  rewrite ?bool_decide_refl; try (rewrite bool_decide_eq_true_2 by assumption); reflexivity.

(** One acquiring stage of a startup, and its rollback. *)
Lemma wp_stage {A X} (call : ST W BackendError A) (event : result BackendError A → BackendEvent)
    (validate : A → option StartFailure) (taken : A → ActiveSession) (active : ActiveSession) stage state
    (ret : A → X) (k : X → OM (W := LW) (R := R) (L := L) SessionIdentity) (next : option A → Holdings)
    (Q : SessionIdentity → SessionOrchestrator R L * LW → Prop) (self : SessionOrchestrator R L) w log h :
  reaches log h → (∀ r, lifecycle h (event r) = Some (next (result_ok r))) →
  (∀ r, accounted self (next r)) → (∀ lease, owns (taken lease) (next (Some lease))) → owns active (next None) →
  (∀ lease w', validate lease = None → reaches (log ++ [event (Ok lease)]) (next (Some lease)) →
     wp (k (ret lease)) Q (λ _ s, session_inv s)
       (so_set state (so_active self) self, (w', log ++ [event (Ok lease)]))) →
  wp (r ← backend (logging call event);
      x ← match r with
          | Ok lease =>
              match validate lease with
              | Some error => roll_back (H := logged B) (taken lease) stage error
              | None => _ ← set_state state; mret (ret lease)
              end
          | Err error => roll_back (H := logged B) active stage (Start_Backend error)
          end;
      k x) Q (λ _ s, session_inv s) (self, (w, log)).
Proof.
  intros Hr Hl Hacc Hok Herr Hk. apply wp_bind, wp_backend. intros r w'.
  pose proof (reaches_snoc _ _ _ _ Hr (Hl r)) as Hr'. apply wp_bind. destruct r as [lease|e].
  - destruct (validate lease) eqn:Hv; [by eapply wp_roll_back|]. apply wp_bind, wp_set_state, wp_ret. by apply Hk.
  - by eapply wp_roll_back.
Qed.

(** The stages after the clone of a bound workspace. *)
Lemma start_on_workspace_spec snapshot grant identity lease (self : SessionOrchestrator R L) w log h :
  reaches log (acquired_workspace identity (Some lease) h) → validate_workspace identity lease = None →
  (∀ (s : SessionOrchestrator R L) h', so_ledger s = so_ledger self →
     h_used h' = h_used h ++ identity_list identity → accounted s h') →
  wp (start_on_workspace (H := logged B) snapshot grant identity lease)
    (λ identity s, session_inv s ∧ active_session s.1 = Some identity) (λ _ s, session_inv s) (self, (w, log)).
Proof.
  intros Hr1 Hvw%validate_workspace_bound Hacc. unfold start_on_workspace. cbv zeta.
  eapply (wp_stage (establish_broker_session identity) (Ev_establish identity) (validate_broker identity)
    (λ b, with_broker b _)) with (next := λ r, acquired_broker r (acquired_workspace identity (Some lease) h));
    [done|intros r; legal|by intros r; apply Hacc|by constructor|by constructor|].
  intros b w2 Hvb%validate_broker_bound Hr2. cbv zeta beta.
  eapply (wp_stage (start_vm snapshot identity lease b) (Ev_start identity lease b) (validate_vm identity)
    (λ v, with_vm v _))
    with (next := λ r, acquired_vm r (acquired_broker (Some b) (acquired_workspace identity (Some lease) h)));
    [done|intros r; legal|by intros r; apply Hacc|by constructor|by constructor|].
  intros v w3 Hvv%validate_vm_bound Hr3.
  eapply (wp_stage (inject_root_capability identity grant) (Ev_inject identity) (validate_capability identity)
    (λ c, with_capability c _))
    with (next := λ r, acquired_capability r
            (acquired_vm (Some v) (acquired_broker (Some b) (acquired_workspace identity (Some lease) h))));
    [done|intros r; legal|by intros r; apply Hacc|by constructor|by constructor|].
  intros c w4 Hvc%validate_capability_bound Hr4. apply wp_bind, wp_backend. intros ensured w5.
  eapply reaches_snoc with (event := Ev_ensure b ensured) in Hr4; [|legal].
  apply wp_bind. destruct ensured as [[]|e]; cbn [is_ok] in Hr4;
    [|eapply wp_roll_back; [done|by constructor|by apply Hacc]].
  apply wp_ret, wp_bind, wp_backend. intros released w6.
  eapply reaches_snoc with (event := Ev_release identity v c released) in Hr4; [|legal].
  apply wp_bind. destruct released as [wk|e]; cbn [is_ok] in Hr4;
    [|eapply wp_roll_back; [done|by constructor|by apply Hacc]].
  destruct (validate_workload identity wk) eqn:Hvk; [eapply wp_roll_back; [done|by constructor|by apply Hacc]|].
  apply validate_workload_bound in Hvk.
  apply wp_set_state, wp_bind, wp_modify, wp_ret. split; [|done].
  eexists. split_and!; [exact Hr4| |by apply Hacc]. unfold holds. cbn.
  split_and!; [by constructor|done|]. right. split; [done|]. split_and!; [done|legal|legal].
Qed.

(** A startup, from any state the orchestrator can be in. *)
Lemma start_session_spec snapshot template grant (self : SessionOrchestrator R L) w log :
  session_inv (self, (w, log)) →
  wp (start_session (H := logged B) snapshot template grant)
    (λ identity s, session_inv s ∧ active_session s.1 = Some identity) (λ _ s, session_inv s) (self, (w, log)).
Proof.
  intros Hinv. unfold start_session. apply wp_bind, wp_get.
  destruct (negb (is_none (so_active self)) || _) eqn:Hready; [by apply wp_fail|].
  destruct (head (sd_inherited_ids snapshot)); [by apply wp_fail|].
  apply orb_false_iff in Hready as [Hactive _]. destruct (so_active self) eqn:Ha; [done|]. clear Hactive.
  destruct Hinv as (h & Hr & Hh & Hacc). cbn [fst snd] in *. unfold holds in Hh. rewrite Ha in Hh.
  destruct Hh as [Hnone Hstate].
  apply wp_bind. unfold wp at 1, on_self. pose proof (allocate_spec self) as Halloc. unfold wp in Halloc.
  destruct (allocate_session_identity self) as [[identity|e] self1]; cbn [map_err].
  2: { destruct Halloc as [[Hs1 Hs2] Hsub]. exists h. split_and!; [done| |].
       - unfold holds. cbn. rewrite Hs2, Ha, Hs1. done.
       - intros i Hi. cbn. apply Hsub, Hacc, Hi. }
  destruct Halloc as ([Hs1 Hs2] & Hnd & Hsub & Hz & Hi).
  assert (Hfresh : fresh_identity identity (h_used h) = true).
  { apply fresh_identity_intro; [done|done|]. intros i Hin Hu. by apply (Hi i Hin), Hacc. }
  apply wp_bind, wp_backend. intros cloned w1.
  assert (Hr1 : reaches (log ++ [Ev_clone identity cloned]) (acquired_workspace identity (result_ok cloned) h)).
  { eapply reaches_snoc; [done|]. cbn [lifecycle]. by rewrite Hnone, Hfresh. }
  assert (Hacc1 : ∀ (s : SessionOrchestrator R L) h', so_ledger s = so_ledger self1 →
    h_used h' = h_used h ++ identity_list identity → accounted s h').
  { intros s h' Hl Hu i. rewrite Hu, Hl. intros [Hin|Hin]%elem_of_app; [by apply Hsub, Hacc|by apply Hi]. }
  destruct cloned as [lease|e].
  2: { apply wp_bind, wp_fail. eexists. split_and!; [done| |by apply Hacc1].
       unfold holds. cbn. rewrite Hs2, Ha, Hs1. done. }
  apply wp_bind. destruct (validate_workspace identity lease) eqn:Hvw.
  { eapply wp_roll_back; [done|apply owns_pending|by apply Hacc1]. }
  apply wp_bind, wp_set_state, wp_ret. by eapply start_on_workspace_spec.
Qed.

(** A stop, from any state the orchestrator can be in. *)
Lemma stop_session_spec (self : SessionOrchestrator R L) w log :
  session_inv (self, (w, log)) →
  wp (stop_session (H := logged B))
    (λ _ s, session_inv s ∧ so_state s.1 = State_Closed ∧ so_active s.1 = None)
    (λ e s, session_inv s ∧
       match so_active self with
       | None => e = Stop_InvalidState (so_state self) ∧ s.1 = self
       | Some a =>
           ∃ fs a', e = Stop_Cleanup fs ∧ fs ≠ [] ∧ same_leases a a' ∧
             so_state s.1 = State_Stopping ∧ so_active s.1 = Some a'
       end) (self, (w, log)).
Proof.
  intros (h & Hr & Hh & Hacc). cbn [fst snd] in *. unfold wp, stop_session. unfold holds in Hh.
  destruct (so_active self) as [a|] eqn:Ha.
  2: { split; [|done]. exists h. split_and!; [done| |done]. unfold holds. cbn. by rewrite Ha. }
  destruct Hh as (Ho & _ & Hstate).
  replace (negb _) with false
    by (destruct Hstate as [->|[-> _]]; [by rewrite (bool_decide_eq_true_2 (State_Stopping = State_Stopping)), orb_true_r|
        by rewrite (bool_decide_eq_true_2 (State_Running = State_Running))]).
  destruct (cleanup_active_spec a w log h Hr Ho) as (fs & a' & w' & log' & h' & -> & Hr' & Ho' & Hu & Hsame & Hf).
  assert (Hacc' : accounted self h') by (unfold accounted; by rewrite Hu).
  destruct (cleanup_complete a') eqn:Hcomplete.
  - split; [|done]. exists h'. split_and!; [done| |done]. unfold holds. cbn.
    split; [by apply (owns_complete a')|by right].
  - split.
    + exists h'. split_and!; [done| |done]. unfold holds. cbn. auto.
    + exists fs, a'. split_and!; [done| |done|done|done]. intros ->. by discriminate (proj1 Hf eq_refl).
Qed.

(** ** Backends that recovered *)

(** A release that succeeds in every world of [good] and leads to such a world again. *)
Definition works (good : W → Prop) (call : ST W BackendError unit) : Prop :=
  ∀ w, good w → is_ok (call w).1 = true ∧ good (call w).2.

(** From the worlds of [good] on, every release succeeds.  Nothing is said of the other worlds:
    releases may have failed before. *)
Record backends_recovered (good : W → Prop) : Prop := {
  rec_isolate lease : works good (isolate_workspace lease);
  rec_close lease : works good (close_broker_session lease);
  rec_kill lease : works good (kill_vm lease);
  rec_cleanup_start : works good cleanup_failed_start;
  rec_revoke lease : works good (revoke_root_capability lease)
}.

(** A stage that fails nothing, and leaves the backends working. *)
Definition stage_works (good : W → Prop) (stage : Cleaning LW → Cleaning LW) : Prop :=
  ∀ fs a w log h, owns a h → good w →
    (stage (fs, a, (w, log))).1.1 = fs ∧ good (stage (fs, a, (w, log))).2.1.

Lemma cleanup_call_ok good stage (call : ST W BackendError unit) event set fs a (w : W) log :
  works good call → good w →
  (cleanup_call stage (logging call event) set (fs, a, (w, log))).1.1 = fs ∧
  good (cleanup_call stage (logging call event) set (fs, a, (w, log))).2.1.
Proof.
  intros Hok Hw. unfold cleanup_call, logging. destruct (Hok w Hw) as [Hr Hg]. by destruct (call w) as [[]].
Qed.

Lemma cleanup_stages_ok good : backends_recovered good →
  stage_works good (cleanup_capability (H := logged B)) ∧ stage_works good (cleanup_vm (H := logged B)) ∧
  stage_works good (cleanup_broker (H := logged B)) ∧ stage_works good (cleanup_workspace (H := logged B)).
Proof.
  intros [Hi Hc Hk Hf Hr]. split_and!; intros fs a w log h Ho Hw;
    unfold cleanup_capability, cleanup_vm, cleanup_broker, cleanup_workspace.
  - case_match; [done|]. pose proof (own_capability_lease _ _ Ho).
    destruct (as_capability a); [by apply cleanup_call_ok|naive_solver].
  - case_match; [done|]. rewrite (own_vm_lease _ _ Ho) by done. destruct (as_vm a); by apply cleanup_call_ok.
  - case_match; [done|]. pose proof (own_broker_lease _ _ Ho).
    destruct (as_broker a); [by apply cleanup_call_ok|naive_solver].
  - case_match; [by apply cleanup_call_ok|done].
Qed.

Lemma cleanup_active_ok good a w log h : backends_recovered good → good w → reaches log h → owns a h →
  (cleanup_active (H := logged B) a (w, log)).1.1 = [].
Proof.
  intros Hok Hw Hr Ho. destruct (cleanup_stages_ok good Hok) as (Sc & Sv & Sb & Sw). unfold cleanup_active.
  destruct (cleanup_capability_spec [] a w log h Hr Ho eq_refl) as (f1 & a1 & w1 & l1 & h1 & He1 & Hr1 & Ho1 & Hp1 & _).
  destruct (Sc [] a w log h Ho Hw) as [Hf1 Hw1]. rewrite He1 in *. cbn in Hf1, Hw1. subst f1.
  destruct (cleanup_vm_spec [] a1 w1 l1 h1 Hr1 Ho1 Hp1) as (f2 & a2 & w2 & l2 & h2 & He2 & Hr2 & Ho2 & Hp2 & _).
  destruct (Sv [] a1 w1 l1 h1 Ho1 Hw1) as [Hf2 Hw2]. rewrite He2 in *. cbn in Hf2, Hw2. subst f2.
  destruct (cleanup_broker_spec [] a2 w2 l2 h2 Hr2 Ho2 Hp2) as (f3 & a3 & w3 & l3 & h3 & He3 & Hr3 & Ho3 & Hp3 & _).
  destruct (Sb [] a2 w2 l2 h2 Ho2 Hw2) as [Hf3 Hw3]. rewrite He3 in *. cbn in Hf3, Hw3. subst f3.
  by destruct (Sw [] a3 w3 l3 h3 Ho3 Hw3) as [Hf4 _].
Qed.

(** ** Histories *)

(** Everything that can happen to an orchestrator: it is created, sessions are started and
    stopped, and its backends' world moves on by itself. *)
Inductive session_history : SessionOrchestrator R L * LW → Prop :=
  | session_created random ledger w : session_history (with_ledger random ledger, (w, []))
  | session_started snapshot template grant s r s' :
      session_history s → start_session (H := logged B) snapshot template grant s = (r, s') → session_history s'
  | session_stopped s r s' :
      session_history s → stop_session (H := logged B) s = (r, s') → session_history s'
  | session_elsewhere self w log w' :
      session_history (self, (w, log)) → session_history (self, (w', log)).

Lemma session_history_inv s : session_history s → session_inv s.
Proof.
  induction 1 as [random ledger w|snapshot template grant [self [w log]] r s' _ IH Hrun
    |[self [w log]] r s' _ IH Hrun|self w log w' _ IH].
  - exists nothing. split_and!; [done| |by intros i ?%not_elem_of_nil]. unfold holds. cbn. auto.
  - apply (start_session_spec snapshot template grant) in IH. apply wp_run with (1 := Hrun) in IH.
    destruct r; [apply IH|done].
  - apply stop_session_spec in IH. apply wp_run with (1 := Hrun) in IH. destruct r; apply IH.
  - done.
Qed.
End lifecycle_proofs.

(** ** The properties *)

Definition event_identities (event : BackendEvent) : list Identity :=
  match event with Ev_clone identity _ => identity_list identity | _ => [] end.

(** The identities of the sessions a log started. *)
Definition log_identities (log : list BackendEvent) : list Identity := concat (event_identities <$> log).

Lemma fresh_identity_elim identity used : fresh_identity identity used = true →
  NoDup (identity_list identity) ∧ (ZERO_IDENTITY ∉ identity_list identity) ∧
  ∀ i, i ∈ identity_list identity → i ∉ used.
Proof.
  unfold fresh_identity. intros [Hnd Hall]%andb_true_iff. apply bool_decide_eq_true in Hnd.
  rewrite forallb_forall in Hall.
  assert (Hi : ∀ i, i ∈ identity_list identity → (i ∉ used) ∧ i ≠ ZERO_IDENTITY).
  { intros i Hi%list_elem_of_In%Hall. apply andb_true_iff in Hi as [Hu Hz]. breflect. done. }
  split_and!; [done| |intros i Hin; by apply Hi]. intros Hz. by apply Hi in Hz as [_ Hz].
Qed.

(** The contract admits only identities that are new. *)
Lemma lifecycle_used h event h' : lifecycle h event = Some h' →
  h_used h' = h_used h ++ event_identities event ∧
  (NoDup (h_used h) → NoDup (h_used h')) ∧ (ZERO_IDENTITY ∉ h_used h → ZERO_IDENTITY ∉ h_used h').
Proof.
  destruct event; cbn [lifecycle event_identities]; rewrite ?app_nil_r;
    (case_match eqn:Hg; [|done]); intros [= <-]; cbn [h_used acquired_workspace acquired_broker acquired_vm
      acquired_capability observed_broker released revoked killed closed isolated]; try done.
  apply andb_true_iff in Hg as [_ Hg]. apply fresh_identity_elim in Hg as (Hnd & Hz & Hu). split_and!; [done|..].
  - intros Hn. apply NoDup_app. split_and!; [done| |done]. intros i Hi Hin. by apply (Hu i).
  - intros Hn. apply not_elem_of_app. done.
Qed.

Lemma lifecycle_run_used log h h' : lifecycle_run h log = Some h' → NoDup (h_used h) → (ZERO_IDENTITY ∉ h_used h) →
  h_used h' = h_used h ++ log_identities log ∧ NoDup (h_used h') ∧ (ZERO_IDENTITY ∉ h_used h').
Proof.
  revert h. induction log as [|e log IH]; intros h; cbn [lifecycle_run].
  - intros [= ->] ??. cbn. by rewrite app_nil_r.
  - destruct (lifecycle h e) as [h1|] eqn:Hl; [|done]. cbn [mbind option_bind]. intros Hrun Hnd Hz.
    destruct (lifecycle_used _ _ _ Hl) as (Hu & Hnd1 & Hz1).
    destruct (IH h1 Hrun (Hnd1 Hnd) (Hz1 Hz)) as (Hu' & Hnd' & Hz'). split_and!; [|done|done].
    rewrite Hu', Hu, <- (assoc_L (++)). done.
Qed.

(** C7: the orchestrator implements its contract.  Whatever sessions are started and stopped,
    and whatever its backends answer or fail to do: the calls they see are a legal run of the
    lifecycle.  No resource is acquired out of order, for a used identity or next to another
    session's, and every later stage runs on leases that carry the session's own identifiers.
    Only what is held is released; the revocation of the capability is asked for before
    anything else is released, the kill of the VM before its broker is closed, and the workspace
    is isolated only when the VM and the broker are gone.  What is held at the end is exactly
    what the orchestrator still answers for: everything, bound to the session, with its workload
    running, while it runs; what could not be released, while it stops; nothing otherwise. *)
Theorem orchestrator_refines_lifecycle {W G R L : Type} (B : SessionBackends W G) `{CryptographicRandom R}
    `{IdentityLedgerLaws L} (s : SessionOrchestrator R L * (W * list BackendEvent)) :
  session_history B s → ∃ h, lifecycle_run nothing s.2.2 = Some h ∧ holds s.1 h.
Proof. intros Hs. destruct (session_history_inv B s Hs) as (h & Hr & Hh & _). eauto. Qed.

(** C21: no identity is ever used twice: over any history the identities of all sessions, seven
    per session, are pairwise distinct and non-zero, with any ledger that keeps its promise. *)
Theorem sessions_never_share_identities {W G R L : Type} (B : SessionBackends W G) `{CryptographicRandom R}
    `{IdentityLedgerLaws L} (s : SessionOrchestrator R L * (W * list BackendEvent)) :
  session_history B s → NoDup (log_identities s.2.2) ∧ (ZERO_IDENTITY ∉ log_identities s.2.2).
Proof.
  intros Hs. destruct (session_history_inv B s Hs) as (h & Hr & _).
  destruct (lifecycle_run_used _ _ _ Hr) as (Hu & Hnd & Hz); [constructor|apply not_elem_of_nil|].
  cbn in Hu. rewrite <- Hu. done.
Qed.

(** A stop never loses a resource: it ends the session, or it reports at least one failed
    stage and keeps the session, with all its leases, for the next stop. *)
Theorem stop_session_keeps_what_remains {W G R L : Type} (B : SessionBackends W G) `{CryptographicRandom R}
    `{IdentityLedgerLaws L} (self : SessionOrchestrator R L) (w : W * list BackendEvent) active r self' w' :
  session_history B (self, w) → so_active self = Some active →
  stop_session (H := logged B) (self, w) = (r, (self', w')) →
  match r with
  | Ok _ => so_state self' = State_Closed ∧ so_active self' = None
  | Err e => ∃ failures rest, e = Stop_Cleanup failures ∧ failures ≠ [] ∧ same_leases active rest ∧
      so_state self' = State_Stopping ∧ so_active self' = Some rest
  end.
Proof.
  intros Hs Ha Hrun. destruct w as [w log].
  apply (session_history_inv B) in Hs. pose proof (stop_session_spec B self w log Hs) as Hspec.
  apply wp_run with (1 := Hrun) in Hspec. rewrite Ha in Hspec. destruct r; apply Hspec.
Qed.

(** C23: a stop can always be repeated until it completes: in any history, whatever starts,
    rollbacks and stops failed in it, once the backends have recovered (from the present world on
    their releases succeed) one call closes the session it still answers for. *)
Theorem stop_session_completes {W G R L : Type} (B : SessionBackends W G) `{CryptographicRandom R}
    `{IdentityLedgerLaws L} (good : W → Prop) (self : SessionOrchestrator R L) (w : W) log active :
  session_history B (self, (w, log)) → so_active self = Some active → backends_recovered B good → good w →
  ∃ self' w', stop_session (H := logged B) (self, (w, log)) = (Ok tt, (self', w')) ∧
    so_state self' = State_Closed ∧ so_active self' = None.
Proof.
  intros Hs Ha Hok Hw. apply (session_history_inv B) in Hs.
  pose proof (stop_session_spec B self w log Hs) as Hspec. destruct Hs as (h & Hr & Hh & _). cbn [fst snd] in *.
  unfold holds in Hh. rewrite Ha in Hh. destruct Hh as (Ho & _ & Hstate).
  pose proof (cleanup_active_ok B good active w log h Hok Hw Hr Ho) as Hf.
  destruct (stop_session (self, (w, log))) as [r [self' w']] eqn:Hrun. unfold wp in Hspec. rewrite Hrun in Hspec.
  destruct r as [[]|e]; [exists self', w'; split; [done|apply Hspec]|]. exfalso. rewrite Ha in Hspec.
  destruct Hspec as (_ & fs & a' & -> & Hne & _). unfold stop_session in Hrun. rewrite Ha in Hrun.
  destruct (cleanup_active active (w, log)) as [[fs' a2] w2]. cbn in Hf. subst fs'.
  by repeat case_match; simplify_eq.
Qed.

(** ** Concrete runs *)

(** Randomness from a list. *)
#[export] Instance Scripted_random : CryptographicRandom (list Identity) := λ source,
  match source with
  | [] => (Err (lit "no entropy"), [])
  | i :: source => (Ok i, source)
  end.

(** A call that succeeds with [a] unless the script says otherwise. *)
Definition scripted {A} (a : A) : ST (list bool) BackendError A := λ script,
  match script with
  | false :: script => (Err (lit "refused"), script)
  | _ => (Ok a, tail script)
  end.

(** Backends that hand out the leases they are asked for. *)
Definition scripted_backends : SessionBackends (list bool) unit := {|
  clone_workspace identity _ :=
    scripted {| wl_session_id := si_session_id identity; wl_workspace_id := si_workspace_id identity |};
  isolate_workspace _ := scripted tt;
  establish_broker_session identity :=
    scripted {| bl_session_id := si_session_id identity; bl_broker_session_id := si_broker_session_id identity |};
  ensure_broker_session_running _ := scripted tt;
  close_broker_session _ := scripted tt;
  start_vm _ identity _ _ :=
    scripted {| vl_session_id := si_session_id identity; vl_vm_id := si_vm_id identity;
                vl_workspace_id := si_workspace_id identity; vl_broker_session_id := si_broker_session_id identity |};
  cleanup_failed_start := scripted tt;
  kill_vm _ := scripted tt;
  revoke_root_capability _ := scripted tt;
  inject_root_capability identity _ :=
    scripted {| cl_session_id := si_session_id identity; cl_subject_id := si_subject_id identity;
                cl_capability_id := si_capability_id identity; cl_policy_digest := None |};
  release_workload identity _ _ :=
    scripted {| wkl_session_id := si_session_id identity; wkl_vm_id := si_vm_id identity;
                wkl_subject_id := si_subject_id identity; wkl_capability_id := si_capability_id identity |}
|}.

Definition demo_random : list Identity := demo_identity <$> (N.of_nat <$> seq 0 30).

Definition demo_snapshot : SnapshotDescriptor := SnapshotDescriptor_clean (demo_identity 99).

Abbreviation demo_start := (start_session (H := logged scripted_backends) demo_snapshot (lit "template") tt).
Abbreviation demo_stop := (stop_session (H := logged scripted_backends)).

(** The injection is refused, and then the kill of the VM: the workspace stays. *)
Abbreviation demo_new := (with_ledger demo_random InMemoryIdentityLedger_new,
  ([true; true; true; false; false; true], @nil BackendEvent)).
Abbreviation demo_failed := ((demo_start demo_new).2).
Abbreviation demo_stopped := ((demo_stop demo_failed).2).
Abbreviation demo_running := ((demo_start demo_stopped).2).

Example demo_start_fails :
  (demo_start demo_new).1
  = Err (StartError_with_rollback Stage_RootCapabilityInjection (Start_Backend (lit "refused"))
           [{| cf_stage := Cleanup_VmKill; cf_error := lit "refused" |}])
  ∧ so_state demo_failed.1 = State_Stopping ∧ so_state demo_stopped.1 = State_Closed
  ∧ so_state demo_running.1 = State_Running.
Proof. vm_compute. done. Qed.

Lemma demo_history : session_history scripted_backends demo_failed ∧ session_history scripted_backends demo_running.
Proof.
  assert (Hf : session_history scripted_backends demo_failed).
  { eapply session_started; [apply session_created|apply surjective_pairing]. }
  split; [done|]. eapply session_started; [|apply surjective_pairing].
  eapply session_stopped; [done|apply surjective_pairing].
Qed.

Lemma orchestrator_refines_lifecycle_witness :
  ∃ h, lifecycle_run nothing demo_running.2.2 = Some h ∧ holds demo_running.1 h.
Proof. apply (orchestrator_refines_lifecycle scripted_backends). apply demo_history. Defined.

Lemma sessions_never_share_identities_witness :
  NoDup (log_identities demo_running.2.2) ∧ (ZERO_IDENTITY ∉ log_identities demo_running.2.2).
Proof. apply (sessions_never_share_identities scripted_backends). apply demo_history. Defined.

(** The stop of the failed start, refused once more. *)
Abbreviation demo_refused := (demo_failed.1, ([false], demo_failed.2.2)).
Abbreviation demo_active := (default (ActiveSession_pending (Build_SessionIdentity [] [] [] [] [] [] [])
  (Build_WorkspaceLease [] []) None None None) (so_active demo_failed.1)).

Lemma demo_refused_history : session_history scripted_backends demo_refused.
Proof.
  apply (session_elsewhere scripted_backends demo_failed.1 demo_failed.2.1 demo_failed.2.2).
  pose proof (proj1 demo_history) as Hs. by destruct demo_failed as [? [? ?]].
Qed.

Lemma stop_session_keeps_what_remains_witness :
  ∃ failures rest, (demo_stop demo_refused).1 = Err (Stop_Cleanup failures) ∧ failures ≠ [] ∧
    same_leases demo_active rest ∧ so_active (demo_stop demo_refused).2.1 = Some rest.
Proof.
  assert (Hrun : demo_stop demo_refused = (Err (Stop_Cleanup [{| cf_stage := Cleanup_VmKill; cf_error := lit "refused" |}]),
    ((demo_stop demo_refused).2.1, (demo_stop demo_refused).2.2))) by (vm_compute; reflexivity).
  assert (Ha : so_active demo_failed.1 = Some demo_active) by (vm_compute; reflexivity).
  destruct (stop_session_keeps_what_remains scripted_backends demo_failed.1 ([false], demo_failed.2.2) demo_active _ _ _
    demo_refused_history Ha Hrun) as (fs & rest & [= <-] & Hne & Hsame & _ & Hrest).
  eexists _, rest. split_and!; [vm_compute; reflexivity|exact Hne|exact Hsame|exact Hrest].
Defined.

(** The stop that was refused, and then the backends recover: their script is over. *)
Abbreviation demo_again := ((demo_stop demo_refused).2).
Abbreviation demo_recovered := (demo_again.1, ([] : list bool, demo_again.2.2)).
Abbreviation demo_left := (default demo_active (so_active demo_again.1)).

Lemma scripted_recovered : backends_recovered scripted_backends (λ script, script = []).
Proof. constructor; intros; by intros ? ->. Qed.

Lemma demo_recovered_history : session_history scripted_backends demo_recovered.
Proof.
  apply (session_elsewhere scripted_backends demo_again.1 demo_again.2.1 demo_again.2.2).
  rewrite <- !surjective_pairing. eapply session_stopped; [apply demo_refused_history|apply surjective_pairing].
Qed.

Lemma stop_session_completes_witness :
  (is_ok (demo_stop demo_refused).1 = false ∧ so_state demo_again.1 = State_Stopping) ∧
  ∃ self' w', demo_stop demo_recovered = (Ok tt, (self', w')) ∧ so_state self' = State_Closed ∧ so_active self' = None.
Proof.
  split; [vm_compute; done|].
  assert (Ha : so_active demo_again.1 = Some demo_left) by (vm_compute; reflexivity).
  apply (stop_session_completes scripted_backends (λ script, script = []) _ _ _ demo_left);
    [apply demo_recovered_history|exact Ha|apply scripted_recovered|reflexivity].
Defined.
